(* ===== verification/_CoqProject ===== *)
-Q . S2P
Prelude.v
SafeFloat.v
SharePool.v
AlphaShares.v
Crowdloan.v
CrowdloanSafety.v
ChildKeys.v
ChildKeysGraph.v
ChildKeysSafety.v
Neurons.v
NeuronsSafety.v
NeuronsTrim.v
NeuronsEvm.v
EpochMath.v
EpochMathSpec.v
EpochMedian.v
EpochSparse.v
Calls.v
Dispatch.v
DispatchLogic.v
DispatchSearch.v
DispatchSafety.v
DispatchMultisig.v
DispatchProxy.v
DispatchOutcome.v
DispatchExample.v
Schedule.v
ScheduleSafety.v
WeightSetting.v
WeightSafety.v
WeightReveal.v
WeightQueue.v
WeightExample.v
LimitOrders.v
LimitOrdersLogic.v
LimitOrdersMoves.v
LimitOrdersSafety.v
LimitOrdersBatch.v
LimitOrdersReadable.v
LimitOrdersExample.v
