(* ===== verification/Prelude.v ===== *)
(** * Subtensor: a verification development

    Subtensor is a Substrate chain: a runtime made of pallets, each a module with
    its own storage, calls and errors.  This library models parts of it as Rocq
    functions and proves what makes them correct.  Source paths below are relative
    to src/.

    ** What is modelled

    The pallet pallets/subtensor keeps subnets.  Each subnet has neurons: slots
    numbered by uid, each held by a hotkey, an account that belongs to a coldkey.
    Coldkeys stake on hotkeys, hotkeys hand stake on to child hotkeys, and the
    epoch pays emissions by uid.  pallets/crowdloan raises funds that start new
    subnets.  The pallets multisig, proxy and utility carry calls of other pallets
    and dispatch them under another origin.  pallets/limit-orders lets relayers execute
    orders that their owners signed or approved.  The parts modelled are those whose
    storage must stay consistent across many calls, those that decide who may do
    what, and the arithmetic of the epoch:

    - Prelude.v: machine integers at their width, the state and error monad with
      storage layers, loops, frames of programs ([fixed], with the hint database
      [frame]), sums over maps.
    - SafeFloat.v and SharePool.v: primitives/share-pool/src/lib.rs, the decimal
      floating point numbers of shares and the pool arithmetic on them.  The trait
      SharePoolDataOperations is a class with its laws.
    - AlphaShares.v: the storage behind the pools and the stake operations on it
      (pallets/subtensor/src/staking/stake_utils.rs, the live counter of
      migrations/migrate_total_alpha_staked.rs); it is the instance of the class.
    - Crowdloan.v, CrowdloanSafety.v: pallets/crowdloan/src/lib.rs.  The record
      [State] is the pallet's storage with the balances, each call one definition.
    - ChildKeys.v, ChildKeysGraph.v, ChildKeysSafety.v: pallets/subtensor/src/
      staking/set_children.rs and staking/auto_parent.rs, with the rename of
      swap/swap_hotkey.rs and the limits of utils/rate_limiting.rs they use.
    - Neurons.v, NeuronsSafety.v, NeuronsTrim.v: pallets/subtensor/src/subnets/
      uids.rs, the choice of the neuron to prune and the registration in a slot of
      subnets/registration.rs, the vector setters of utils/misc.rs.
    - NeuronsEvm.v: pallets/subtensor/src/utils/evm.rs.
    - EpochMath.v, EpochMathSpec.v, EpochMedian.v, EpochSparse.v: pallets/subtensor/
      src/epoch/math.rs, the vectors and matrices of the epoch, dense and sparse.
      The rounding operations of the fixed-point crate are a class.
    - Calls.v: runtime calls as data; the proxy types of common/src/proxy.rs, the
      call groups and filters of runtime/src/proxy_filters, the rules that
      support/macros/src/call_filter_group.rs generates.
    - Dispatch.v: pallets/utility, pallets/multisig, pallets/proxy, the account
      derivation of primitives/hashed/src/safe.rs, the guard of pallets/subtensor/
      src/guards/check_coldkey_swap.rs and the constants and adaptors of
      runtime/src/lib.rs.  [dispatch_bypass_filter] runs a call by recursion on
      the calls nested in it; [dispatch] looks at the filter of the origin first.
    - DispatchLogic.v, DispatchSearch.v: the rules for reasoning about nested
      dispatch, reachable states, and binary search in sorted lists.
    - DispatchSafety.v, DispatchMultisig.v, DispatchProxy.v, DispatchOutcome.v:
      their theorems; DispatchExample.v: a concrete runtime they apply to.
    - Schedule.v, ScheduleSafety.v: which epochs a block runs, from pallets/subtensor/
      src/coinbase/run_coinbase.rs, the owner calls of coinbase/tempo_control.rs with
      the freeze window of utils/misc.rs and the limits of utils/rate_limiting.rs,
      and the epoch that commits are stamped with, of subnets/weights.rs.
    - WeightSetting.v: subnets/weights.rs, the reveal of timelocked commits of
      coinbase/reveal_commits.rs and coinbase/block_step.rs, the weight calls of
      macros/dispatches.rs and the guard of guards/check_weights.rs in front of
      them; [submit] is a call behind its guard.  The state contains the one of
      Schedule.v.
    - WeightSafety.v, WeightReveal.v, WeightQueue.v: their theorems;
      WeightExample.v: a concrete chain they apply to.
    - LimitOrders.v: pallets/limit-orders/src (lib.rs, authorization.rs, v2.rs and the
      migration), with the signer filters and constants of runtime/src/lib.rs.  The
      trait OrderSwapInterface of primitives/swap-interface is a class, each call of
      the pallet one definition, and [dispatch] runs a call in its storage layer.
    - LimitOrdersLogic.v: what a successful call did, step by step, the steps of the
      chain ([order_step]) and the rules by which invariants are shown.
    - LimitOrdersSafety.v, LimitOrdersBatch.v, LimitOrdersReadable.v: the theorems;
      LimitOrdersExample.v: a concrete chain they apply to.

    How they interact: a registration (Neurons) gives a hotkey its uid; the hotkey
    swap and the epoch use the child relations (ChildKeys); stake operations go
    through a share pool per hotkey and subnet (AlphaShares on SharePool on
    SafeFloat).  Commits and reveals of weights (WeightSetting) are judged by the
    epoch counter that Schedule advances, and the weights themselves are scaled by
    the routines of EpochMath.  A component reads the others through a record: the hyperparameters
    and stakes that ChildKeys and Neurons read are records [Env], what Schedule and
    WeightSetting read are the classes [Chain] and [Registry], the code of other
    modules that Neurons calls is a record [Outside], the arithmetic that
    AlphaShares uses is proved once for every storage meeting the class.  The calls
    of pallets other than the three carriers enter the dispatch as programs
    [OtherProg] that read the state, write the chain outside the three pallets and
    call what the proxy pallet exports; they dispatch no calls themselves.  The
    state carries a ghost list [executed] of the calls that ran, with their
    origins, that a failing storage layer rolls back with everything else.  Limit
    orders stand beside these: they trade through the swap interface only, whose
    operations may answer anything, fail, or reap accounts, and the reaping of an
    account removes its approvals.

    ** What the theorems show

    - SafeFloat.v: normalisation terminates and loses less than one part in 10^20,
      comparison is exact, conversions round trip.
    - SharePool.v, AlphaShares.v: along every history of operations the quoted
      stakes never exceed what the pool holds; deposits do not dilute, withdrawals
      take all or nothing, pools do not touch each other, the total is exact.
    - CrowdloanSafety.v: in every reachable state the account of a live crowdloan
      holds exactly what its contributors put in; they can take it back, and the
      creator can unwind the loan in a bounded number of calls.
    - ChildKeysSafety.v: the two relation maps always store one graph with its
      limits; the incremental update refines the replacement of edges in a graph,
      a swap is a renaming, requests are served as asked, the queue of threshold
      checks drains within its weight.
    - NeuronsSafety.v, NeuronsTrim.v, NeuronsEvm.v: uids and hotkeys stay in one to
      one correspondence and all vectors in step; registration touches one neuron
      and never a protected one; trimming keeps the best neurons with all their
      data and, seen by hotkeys, only restricts the weights; batches of pruning
      come to an end; the index of EVM addresses stays exact.
    - EpochMathSpec.v, EpochMedian.v, EpochSparse.v: the consensus is the weighted
      median of the scores; the sparse routines agree with the dense ones (and
      where one does not, what it computes); bonds stay between zero and one.
    - Calls.v: the order of proxy types is sound for their filters, the published
      metadata is exact, no restricted type reaches a call that drops the filter.
    - DispatchSafety.v: however calls are nested, a proxied call runs only what its
      proxy type allows, and an account with a disputed swap runs nothing.
    - DispatchMultisig.v, DispatchOutcome.v: a multisig account acts only on the
      votes of its signatories, and does act on them; announced calls wait for
      their delay; batches keep or undo their effects as documented.
    - DispatchProxy.v: delegations and announcements are always stored sorted,
      distinct and within their limits.
    - ScheduleSafety.v: a block runs a limited number of epochs and says for every
      subnet what became of its turn; no subnet waits forever; the epoch that
      commits are stamped with never goes back; what a change of tempo really does
      to the cycle.
    - WeightSafety.v, WeightReveal.v: accepted weights are well formed, a commit is
      revealed at most once and, in its window, can be; queues of commits stay
      ordered along all blocks and calls, so that expiry takes a prefix; the
      timelocked reveal takes the commits of one epoch; uses of a neuron are spaced.
    - WeightQueue.v: the shared queue of Null mode stays within its bytes and rows,
      evicts only lower priorities and always admits the highest.
    - LimitOrdersSafety.v: along all histories of calls, reaped accounts and upgrades
      an order, signed or approved, is charged at most its amount and its status says
      how much; terminal orders stay so; only orders that the owner signed or approved
      are executed, by a relayer they allow and within their terms; outputs for linked
      orders are drawn once; approvals stay bounded; who can cancel what.
    - LimitOrdersBatch.v: a batch never costs the account of the pallet anything and
      pays every order in it, within its limit.
    - LimitOrdersReadable.v: the message that a wallet shows determines the order.

    ** Modelling choices

    Integers are [Z] (uids and counts [nat]) with the bounds of their width written
    out in every operation that saturates or is checked.  Storage maps are [gmap],
    with the default value of a map written out at each read.  A call is a function
    [State -> result * State]; [transactional] is the storage layer that FRAME puts
    around a call, so that a failing call is seen to roll back.  Code outside src/
    (FRAME, balances, preimages, hashing, signature recovery) is a parameter with
    its documented behaviour as hypotheses, and each theorem that has hypotheses is
    applied to a concrete instance in a lemma named after it with the suffix
    [_witness].  The order in which storage is iterated is a parameter, constrained
    only to list every entry once.  The state of the limit orders has a ghost list
    [trace] of the successful calls to the swap interface, of the fills and of the
    accounts reaped; the theorems about amounts charged and about the balance of a
    batch are about it.  Where they need that different orders have different ids,
    that is a hypothesis on the order in question.

    Fuel: normalisation of a SafeFloat has 78 steps of fuel, the number of decimal
    digits of its 256-bit mantissa, which [normalize_correct] shows to be enough;
    the decimal length of a signed message has 20 digits.  The loop of the weighted
    median has one step more than there are scores; [consensus_is_median] shows that
    it ends before.  The derivation of safe accounts makes the 64 attempts of the
    source.  All other recursions are structural.

    ** Not modelled

    Weights and fees of calls; migrations other than the two named; the encoding
    and hashing of storage; logging; the lookup of an account by its address,
    which in this runtime is the account itself. Of subnets/weights.rs, the weight
    functions of the calls and the search for a commit over the whole map. The run
    of the epoch over the storage (epoch/run_epoch.rs), the emissions of the
    coinbase, root claims, baskets, locks, leases, collateral and dissolution of
    pallets/subtensor, its precompiles, RPC views, transaction extensions and the
    guards other than those on coldkey swaps and weights; the implementation of
    the swap interface for limit orders (staking/order_swap.rs); the pallets
    admin-utils, alpha-assets, commitments, drand, hashed-accounts, shield, swap
    and transaction-fee; the node and the assembly of the runtime. They use
    fixed-point transcendental functions or cryptography, or are read-only views;
    the record arguments and classes above are where they would connect. *)

From Stdlib Require Import ZArith QArith Qpower Qround Lqa Lia Sorting.Sorted.
From stdpp Require Import base gmap list fin_maps numbers.

#[global] Open Scope Z_scope.

(** ** Machine integers

    Unsigned and signed integers are [Z] together with the bounds of their
    width; each operation writes out what Rust's [checked_*] and
    [saturating_*] methods do at the bound. *)

Definition u16_max : Z := 65535.
Definition u32_max : Z := 4294967295.
Definition u64_max : Z := 18446744073709551615.
Definition u128_max : Z := 340282366920938463463374607431768211455.
Definition u256_max : Z :=
  115792089237316195423570985008687907853269984665640564039457584007913129639935.
Definition i64_min : Z := -9223372036854775808.
Definition i64_max : Z := 9223372036854775807.

Definition checked_add (max a b : Z) : option Z :=
  if a + b <=? max then Some (a + b) else None.
Definition checked_sub (a b : Z) : option Z :=
  if b <=? a then Some (a - b) else None.
Definition checked_mul (max a b : Z) : option Z :=
  if a * b <=? max then Some (a * b) else None.
Definition checked_div (a b : Z) : option Z :=
  if b =? 0 then None else Some (a / b).
Definition saturating_add (max a b : Z) : Z := Z.min max (a + b).
Definition saturating_sub (a b : Z) : Z := Z.max 0 (a - b).
Definition saturating_mul (max a b : Z) : Z := Z.min max (a * b).

Definition i64_checked_add (a b : Z) : option Z :=
  if (i64_min <=? a + b) && (a + b <=? i64_max) then Some (a + b) else None.
Definition i64_checked_sub (a b : Z) : option Z := i64_checked_add a (- b).
Definition i64_saturating_sub (a b : Z) : Z := Z.max i64_min (Z.min i64_max (a - b)).

Definition is_u64 (x : Z) : Prop := 0 <= x <= u64_max.

Lemma checked_add_Some max a b c : checked_add max a b = Some c <-> a + b <= max /\ c = a + b.
Proof.
  unfold checked_add. destruct (Z.leb_spec (a + b) max); split; intros.
  all: destruct_and?; simplify_eq; auto; lia.
Qed.

Lemma checked_sub_Some a b c : checked_sub a b = Some c <-> b <= a /\ c = a - b.
Proof.
  unfold checked_sub. destruct (Z.leb_spec b a); split; intros.
  all: destruct_and?; simplify_eq; auto; lia.
Qed.

(** [option] helpers with Rust's names. *)
Definition unwrap_or {A} (o : option A) (d : A) : A := default d o.

(** ** Results and the storage monad

    A runtime function reads and writes storage and may fail.  Storage written
    before a failure stays written unless a storage layer discards it
    ([#[transactional]], and every [#[pallet::call]]), so the monad keeps the
    state on both outcomes and [transactional] models the layer. *)

Inductive result (T E : Type) : Type :=
| Ok (t : T)
| Err (e : E).
Arguments Ok {T E} t.
Arguments Err {T E} e.

Definition is_ok {T E} (r : result T E) : bool :=
  match r with Ok _ => true | Err _ => false end.

Definition M (S E A : Type) : Type := S -> result A E * S.

#[global] Instance M_ret {S E} : MRet (M S E) := fun A a s => (Ok a, s).
#[global] Instance M_bind {S E} : MBind (M S E) := fun A B f m s =>
  match m s with
  | (Ok a, s') => f a s'
  | (Err e, s') => (Err e, s')
  end.

Definition fail {S E A} (e : E) : M S E A := fun s => (Err e, s).
Definition ensure {S E} (b : bool) (e : E) : M S E unit :=
  fun s => if b then (Ok tt, s) else (Err e, s).
Definition ok_or {S E A} (o : option A) (e : E) : M S E A :=
  fun s => match o with Some a => (Ok a, s) | None => (Err e, s) end.
Definition gets {S E A} (f : S -> A) : M S E A := fun s => (Ok (f s), s).
Definition modify {S E} (f : S -> S) : M S E unit := fun s => (Ok tt, f s).
Definition transactional {S E A} (m : M S E A) : M S E A :=
  fun s => match m s with
           | (Ok a, s') => (Ok a, s')
           | (Err e, _) => (Err e, s)
           end.

(** The loop [for x in l { body?; }]. *)
Fixpoint for_each {S E A} (l : list A) (body : A -> M S E unit) : M S E unit :=
  match l with
  | [] => mret tt
  | x :: l => body x ;; for_each l body
  end.

(** The same loop threading a local variable. *)
Fixpoint fold_m {S E A B} (l : list A) (b : B) (body : B -> A -> M S E B) : M S E B :=
  match l with
  | [] => mret b
  | x :: l => b' ← body b x; fold_m l b' body
  end.

Section monad_inversion.
  Context {S E A B : Type}.
  Implicit Types s : S.

Lemma bind_ok (m : M S E A) (f : A -> M S E B) s b s' :
  (m ≫= f) s = (Ok b, s') <->
  exists a s1, m s = (Ok a, s1) /\ f a s1 = (Ok b, s').
Proof.
  unfold mbind, M_bind. destruct (m s) as [[a|e] s1]; split.
  - intros H. by exists a, s1.
  - by intros (a' & s1' & [= <- <-] & H).
  - done.
  - by intros (? & ? & [=] & _).
Qed.

Lemma bind_err (m : M S E A) (f : A -> M S E B) s e s' :
  (m ≫= f) s = (Err e, s') <->
  m s = (Err e, s') \/ exists a s1, m s = (Ok a, s1) /\ f a s1 = (Err e, s').
Proof.
  unfold mbind, M_bind. destruct (m s) as [[a|e'] s1]; split.
  - intros H. right. by exists a, s1.
  - intros [H|(a' & s1' & H1 & H2)]; [done|]. by simplify_eq.
  - intros H. left. by simplify_eq.
  - intros [H|(? & ? & ? & _)]; by simplify_eq.
Qed.

Lemma ret_ok (a b : A) s s' : (mret a : M S E A) s = (Ok b, s') <-> b = a /\ s' = s.
Proof. split; [by intros [= <- <-]|by intros [-> ->]]. Qed.

Lemma fail_ok (e : E) s (a : A) s' : fail e s = (Ok a, s') <-> False.
Proof. done. Qed.

Lemma ensure_ok (b : bool) (e : E) s u s' :
  ensure b e s = (Ok u, s') <-> b = true /\ s' = s.
Proof. unfold ensure. destruct b, u; split; intros H; by destruct_and?; simplify_eq. Qed.

Lemma ok_or_ok (o : option A) (e : E) s a s' :
  ok_or o e s = (Ok a, s') <-> o = Some a /\ s' = s.
Proof. unfold ok_or. destruct o; split; intros H; by destruct_and?; simplify_eq. Qed.

Lemma gets_ok (f : S -> A) s a s' :
  (gets f : M S E A) s = (Ok a, s') <-> a = f s /\ s' = s.
Proof. unfold gets. split; [by intros [= <- <-]|by intros [-> ->]]. Qed.

Lemma modify_ok (f : S -> S) s u s' :
  (modify f : M S E unit) s = (Ok u, s') <-> s' = f s.
Proof. unfold modify. destruct u. split; [by intros [= <-]|by intros ->]. Qed.

Lemma transactional_ok (m : M S E A) s a s' :
  transactional m s = (Ok a, s') <-> m s = (Ok a, s').
Proof. unfold transactional. by destruct (m s) as [[]]. Qed.

Lemma transactional_err (m : M S E A) s e s' :
  transactional m s = (Err e, s') -> s' = s.
Proof. unfold transactional. destruct (m s) as [[]]; by intros [= _ ->]. Qed.
End monad_inversion.

(** ** Loops *)

(** What the body of a loop keeps, the loop keeps. *)
Lemma foldl_inv {S A} (P : S -> Prop) (f : S -> A -> S) (l : list A) (s : S) :
  (forall s x, x ∈ l -> P s -> P (f s x)) -> P s -> P (foldl f s l).
Proof.
  revert s. induction l as [|x l IH]; intros s Hf Hs; [done|]. simpl. apply IH; [|by apply Hf; [left|]].
  intros s' y Hy. apply Hf. by right.
Qed.

Lemma foldl_fixed {S A B} (g : S -> B) (f : S -> A -> S) (l : list A) (s : S) :
  (forall s x, g (f s x) = g s) -> g (foldl f s l) = g s.
Proof. intros Hf. apply (foldl_inv (fun s' => g s' = g s)); [|done]. intros s' x _ <-. apply Hf. Qed.

(** Inserting the entries of a list with distinct keys. *)
Lemma foldl_insert `{Countable K} {V} (l : list (K * V)) (m : gmap K V) : NoDup l.*1 ->
  let m' := foldl (fun m '(k, v) => <[k := v]> m) m l in
  (forall k v, (k, v) ∈ l -> m' !! k = Some v) /\ (forall k, k ∉ l.*1 -> m' !! k = m !! k).
Proof.
  simpl. revert m. induction l as [|[k v] l IH]; intros m Hnd; simpl.
  { split; [by intros ? ? ?%not_elem_of_nil|done]. }
  csimpl in Hnd. apply list.NoDup_cons in Hnd as [Hni Hnd]. destruct (IH (<[k := v]> m) Hnd) as [Hin Hout]. split.
  - intros k' v' [[= -> ->]|Hp]%elem_of_cons; [|by apply Hin]. by rewrite Hout, lookup_insert_eq.
  - intros k'. csimpl. intros [Hne Hk]%not_elem_of_cons. by rewrite Hout, lookup_insert_ne.
Qed.

Lemma for_each_modify {S E A} (g : A -> S -> S) (l : list A) (s : S) :
  for_each l (fun x => modify (E := E) (g x)) s = (Ok tt, foldl (fun s x => g x s) s l).
Proof. revert s. induction l as [|x l IH]; intros s; [done|]. apply IH. Qed.

Lemma for_each_ext {S E A} (b b' : A -> M S E unit) (l : list A) (s : S) :
  (forall x s, x ∈ l -> b x s = b' x s) -> for_each l b s = for_each l b' s.
Proof.
  revert s. induction l as [|x l IH]; intros s Hb; [done|]. simpl. unfold mbind, M_bind.
  rewrite (Hb x s) by left. destruct (b' x s) as [[[]|e] s']; [|done].
  apply IH. intros y s1 Hy. apply Hb. by right.
Qed.

Lemma for_each_app {S E A} (b : A -> M S E unit) (l l' : list A) (s : S) :
  for_each (l ++ l') b s = (for_each l b;; for_each l' b) s.
Proof.
  revert s. induction l as [|x l IH]; intros s; [done|]. simpl. unfold mbind, M_bind in *.
  destruct (b x s) as [[[]|e] s']; [|done]. apply IH.
Qed.

Lemma bind_run {S E A B} (m : M S E A) (f : A -> M S E B) s a s' :
  m s = (Ok a, s') -> (m ≫= f) s = f a s'.
Proof. unfold mbind, M_bind. by intros ->. Qed.

Lemma bind_gets {S E A B} (g : S -> A) (f : A -> M S E B) s : (gets g ≫= f) s = f (g s) s.
Proof. done. Qed.

Lemma bind_modify {S E B} (g : S -> S) (f : M S E B) s : (modify g;; f) s = f (g s).
Proof. done. Qed.

Lemma seq_assoc3 {S E A} (a b c : M S E unit) (f : M S E A) (s : S) :
  (a;; b;; c;; f) s = ((a;; b;; c);; f) s.
Proof.
  unfold mbind, M_bind. destruct (a s) as [[u|e] s1]; [|done].
  destruct (b s1) as [[u'|e] s2]; [|done]. done.
Qed.

(** A loop of checks: it succeeds exactly when every check does. *)
Lemma for_each_pure {S E A} (b : A -> M S E unit) (l : list A) (s : S) r s' :
  (forall x s r s', b x s = (r, s') -> s' = s) ->
  for_each l b s = (r, s') ->
  s' = s /\ (is_ok r = true -> forall x, x ∈ l -> is_ok (b x s).1 = true).
Proof.
  intros Hb. induction l as [|x l IH]; simpl.
  { intros [= <- <-]. split; [done|]. intros _ y Hx. by apply not_elem_of_nil in Hx. }
  unfold mbind, M_bind. destruct (b x s) as [[u|e] s1] eqn:Hx; intros Hf.
  - apply Hb in Hx as Hs. subst s1. apply IH in Hf as [-> Hok]. split; [done|].
    intros Hr y [->|Hy]%elem_of_cons; [by rewrite Hx|auto].
  - injection Hf as <- <-. apply Hb in Hx. split; [done|]. discriminate.
Qed.

Lemma for_each_checks {S E A} (b : A -> M S E unit) (l : list A) (s : S) :
  (forall x, x ∈ l -> b x s = (Ok tt, s)) -> for_each l b s = (Ok tt, s).
Proof.
  induction l as [|x l IH]; intros Hb; [done|]. simpl. erewrite bind_run by (apply Hb; left).
  apply IH. intros y Hy. apply Hb. by right.
Qed.

(** [fixed g m]: the call [m] leaves the part [g] of the state alone. *)
Definition fixed {S E A B} (g : S -> B) (m : M S E A) : Prop := forall s, g (m s).2 = g s.

Create HintDb frame.

Section frame.
Context {S E B : Type} (g : S -> B).

Lemma fixed_ret {A} (a : A) : fixed g (mret a : M S E A).
Proof. done. Qed.
Lemma fixed_fail {A} (e : E) : fixed g (fail e : M S E A).
Proof. done. Qed.
Lemma fixed_gets {A} (f : S -> A) : fixed g (gets f : M S E A).
Proof. done. Qed.
Lemma fixed_ensure b (e : E) : fixed g (ensure b e : M S E unit).
Proof. by destruct b. Qed.
Lemma fixed_ok_or {A} (o : option A) (e : E) : fixed g (ok_or o e : M S E A).
Proof. by destruct o. Qed.
Lemma fixed_modify (f : S -> S) : (forall s, g (f s) = g s) -> fixed g (modify f : M S E unit).
Proof. done. Qed.
Lemma fixed_bind {A C} (m : M S E A) (f : A -> M S E C) :
  fixed g m -> (forall a, fixed g (f a)) -> fixed g (m ≫= f).
Proof.
  intros Hm Hf s. specialize (Hm s). unfold mbind, M_bind. destruct (m s) as [[a|e] s']; simpl in *; [|done].
  by rewrite Hf.
Qed.
Lemma fixed_for_each {A} (l : list A) (b : A -> M S E unit) :
  (forall x, fixed g (b x)) -> fixed g (for_each l b).
Proof.
  intros Hb. induction l as [|x l IH]; simpl; [apply fixed_ret|]. by apply fixed_bind.
Qed.
Lemma fixed_fold_m {A C} (l : list A) (c : C) (b : C -> A -> M S E C) :
  (forall c x, fixed g (b c x)) -> fixed g (fold_m l c b).
Proof.
  intros Hb. revert c. induction l as [|x l IH]; intros c; simpl; [apply fixed_ret|]. by apply fixed_bind.
Qed.
End frame.
#[export] Hint Resolve fixed_ret fixed_fail fixed_gets fixed_ensure fixed_ok_or fixed_modify fixed_bind
  fixed_for_each fixed_fold_m : frame.

(** Splits a monadic program into its steps and leaves those that change [g]. *)
Ltac solve_fixed :=
  repeat first
    [ solve [auto with frame]
    | apply fixed_bind; [|intros ?]
    | apply fixed_for_each; intros ?
    | apply fixed_fold_m; intros ? ?
    | apply fixed_modify; intros ?; try done
    | match goal with |- fixed _ (match ?x with _ => _ end) => destruct x end ].

(** Reading off the final state of a call that is known to succeed. *)
Lemma ok_run {E S} (r : result unit E * S) : is_ok (fst r) = true -> r = (Ok tt, snd r).
Proof. by destruct r as [[[]|] ?]. Qed.

(** [minv] turns [m s = (Ok a, s')] into the facts every statement of [m]
    established, in the order of the source. *)
Ltac minv_step :=
  match goal with
  | H : (_ ≫= _) _ = (Ok _, _) |- _ =>
      apply bind_ok in H; destruct H as (? & ? & ? & H)
  | H : mret _ _ = (Ok _, _) |- _ => apply ret_ok in H; destruct H; subst
  | H : fail _ _ = (Ok _, _) |- _ => apply fail_ok in H; destruct H
  | H : ensure _ _ _ = (Ok _, _) |- _ => apply ensure_ok in H; destruct H; subst
  | H : ok_or _ _ _ = (Ok _, _) |- _ => apply ok_or_ok in H; destruct H; subst
  | H : gets _ _ = (Ok _, _) |- _ => apply gets_ok in H; destruct H; subst
  | H : modify _ _ = (Ok _, _) |- _ => apply modify_ok in H; subst
  | H : transactional _ _ = (Ok _, _) |- _ => apply (proj1 (transactional_ok _ _ _ _)) in H
  | H : (let _ := ?x in _) _ = (Ok _, _) |- _ => cbv zeta in H
  end.
Ltac minv := repeat minv_step.

(** [bool_to_prop] reflects the boolean comparisons of the code. *)
Ltac bool_to_prop :=
  repeat match goal with
  | H : (_ && _)%bool = true |- _ => apply andb_true_iff in H; destruct H
  | H : (_ || _)%bool = false |- _ => apply orb_false_iff in H; destruct H
  | H : negb _ = true |- _ => apply negb_true_iff in H
  | H : negb _ = false |- _ => apply negb_false_iff in H
  | H : (_ <=? _) = true |- _ => apply Z.leb_le in H
  | H : (_ <=? _) = false |- _ => apply Z.leb_gt in H
  | H : (_ <? _) = true |- _ => apply Z.ltb_lt in H
  | H : (_ <? _) = false |- _ => apply Z.ltb_ge in H
  | H : (_ =? _) = true |- _ => apply Z.eqb_eq in H
  | H : (_ =? _) = false |- _ => apply Z.eqb_neq in H
  | H : bool_decide _ = true |- _ => apply bool_decide_eq_true in H
  | H : bool_decide _ = false |- _ => apply bool_decide_eq_false in H
  | H : checked_add _ _ _ = Some _ |- _ => apply checked_add_Some in H; destruct H
  | H : checked_sub _ _ = Some _ |- _ => apply checked_sub_Some in H; destruct H
  end.

(** ** Sums of rationals over lists of keys *)

Definition Qsum {K} (f : K -> Q) (ks : list K) : Q :=
  foldr (fun k acc => f k + acc)%Q 0%Q ks.

Section Qsum.
  Context {K : Type}.
  Implicit Types (f g : K -> Q) (ks : list K).

Lemma Qsum_ext f g ks :
  (forall k, k ∈ ks -> f k == g k)%Q -> (Qsum f ks == Qsum g ks)%Q.
Proof.
  induction ks as [|k ks IH]; intros H; [reflexivity|]. simpl.
  rewrite (H k), IH; [reflexivity| |]; set_solver.
Qed.

Lemma Qsum_le f g ks :
  (forall k, k ∈ ks -> f k <= g k)%Q -> (Qsum f ks <= Qsum g ks)%Q.
Proof.
  induction ks as [|k ks IH]; intros H; [apply Qle_refl|]. simpl.
  apply Qplus_le_compat; [|apply IH]; set_solver.
Qed.

Lemma Qsum_Permutation f ks ks' : ks ≡ₚ ks' -> (Qsum f ks == Qsum f ks')%Q.
Proof.
  induction 1; simpl; [reflexivity|by rewrite IHPermutation|ring|].
  by rewrite IHPermutation1.
Qed.

Lemma Qsum_zero f ks : (forall k, k ∈ ks -> f k == 0)%Q -> (Qsum f ks == 0)%Q.
Proof.
  induction ks as [|k ks IH]; intros H; [reflexivity|]. simpl.
  rewrite (H k), IH; [reflexivity| |]; set_solver.
Qed.

Lemma Qsum_mult_l f c ks : (Qsum (fun k => c * f k) ks == c * Qsum f ks)%Q.
Proof. induction ks as [|k ks IH]; simpl; [ring|]. rewrite IH. ring. Qed.

Lemma Qsum_inject (h : K -> Z) ks :
  (Qsum (fun k => inject_Z (h k)) ks == inject_Z (foldr (fun k acc => (h k + acc)%Z) 0%Z ks))%Q.
Proof. induction ks as [|k ks IH]; simpl; [reflexivity|]. by rewrite IH, inject_Z_plus. Qed.

(** A bound on every duplicate-free sum survives changing one term by no more
    than the bound changes. *)
Lemma Qsum_bound_update `{EqDecision K} f g k0 (B B' : Q) :
  (forall k, 0 <= g k)%Q -> (forall k, k <> k0 -> g k == f k)%Q ->
  (g k0 - f k0 <= B' - B)%Q ->
  (forall ks, NoDup ks -> Qsum f ks <= B)%Q ->
  (forall ks, NoDup ks -> Qsum g ks <= B')%Q.
Proof.
  intros Hg Hne Hd HB ks Hnd. destruct (decide (k0 ∈ ks)) as [Hin|Hin].
  - apply elem_of_Permutation in Hin as [ks' Hp]. rewrite Hp in Hnd.
    rewrite (Qsum_Permutation g _ _ Hp). pose proof (HB _ Hnd) as Hb.
    apply list.NoDup_cons in Hnd as [Hnin _]. simpl in *.
    rewrite (Qsum_ext g f ks'); [lra|]. intros k Hk. apply Hne. by intros ->.
  - assert (Hnd' : NoDup (k0 :: ks)) by by apply list.NoDup_cons.
    pose proof (HB _ Hnd') as Hb. simpl in Hb. specialize (Hg k0).
    rewrite (Qsum_ext g f ks); [lra|]. intros k Hk. apply Hne. by intros ->.
Qed.
End Qsum.

(** ** Sums over finite maps *)

Section map_sum.
  Context `{Countable K} {V : Type}.
  Implicit Types (f : K -> V -> Z) (m : gmap K V).

Definition map_sum f m : Z := map_fold (fun k v acc => f k v + acc) 0 m.

Lemma map_sum_empty f : map_sum f ∅ = 0.
Proof. apply map_fold_empty. Qed.

Lemma map_sum_insert f m k v :
  m !! k = None -> map_sum f (<[k := v]> m) = f k v + map_sum f m.
Proof.
  intros Hk. unfold map_sum. rewrite map_fold_insert_L; [done| |done]. intros. lia.
Qed.

Lemma map_sum_delete f m k :
  map_sum f (delete k m) = map_sum f m - from_option (f k) 0 (m !! k).
Proof.
  destruct (m !! k) as [v|] eqn:E; simpl.
  - rewrite <- (insert_delete_id m k v E) at 2.
    rewrite map_sum_insert by apply lookup_delete_eq. lia.
  - rewrite delete_id by done. lia.
Qed.

Lemma map_sum_update f m k v :
  map_sum f (<[k := v]> m) = map_sum f m - from_option (f k) 0 (m !! k) + f k v.
Proof.
  rewrite <- insert_delete_eq, map_sum_insert by apply lookup_delete_eq.
  rewrite map_sum_delete. lia.
Qed.

Lemma map_sum_nonneg f m :
  (forall k v, m !! k = Some v -> 0 <= f k v) -> 0 <= map_sum f m.
Proof.
  induction m as [|k v m Hk IH] using map_ind; intros Hf; [by rewrite map_sum_empty|].
  rewrite map_sum_insert by done.
  pose proof (Hf k v (lookup_insert_eq _ _ _)).
  enough (0 <= map_sum f m) by lia. apply IH. intros k' v' Hk'. apply Hf.
  rewrite lookup_insert_ne by congruence. done.
Qed.

Lemma map_sum_lookup_le f m k :
  (forall k v, m !! k = Some v -> 0 <= f k v) -> from_option (f k) 0 (m !! k) <= map_sum f m.
Proof.
  intros Hf. pose proof (map_sum_delete f m k).
  enough (0 <= map_sum f (delete k m)) by lia. apply map_sum_nonneg.
  intros k' v' [_ Hk']%lookup_delete_Some. by apply Hf.
Qed.

Lemma map_sum_ext f g m :
  (forall k v, m !! k = Some v -> f k v = g k v) -> map_sum f m = map_sum g m.
Proof.
  induction m as [|k v m Hk IH] using map_ind; intros Hf; [by rewrite !map_sum_empty|].
  rewrite !map_sum_insert by done. f_equal; [apply Hf, lookup_insert_eq|].
  apply IH. intros k' v' Hk'. apply Hf. rewrite lookup_insert_ne by congruence. done.
Qed.
End map_sum.

(** ** Sorting

    [slice::sort_by] and [sort_by_key], which are stable, as an insertion sort. *)

Section sort.
Context {A : Type} (leb : A -> A -> bool).

Fixpoint insert_sorted (x : A) (l : list A) : list A :=
  match l with
  | [] => [x]
  | y :: l => if leb x y then x :: y :: l else y :: insert_sorted x l
  end.

Fixpoint sort_by (l : list A) : list A :=
  match l with
  | [] => []
  | x :: l => insert_sorted x (sort_by l)
  end.

Context (leb_total : forall a b, leb a b = true \/ leb b a = true).
Context (leb_trans : forall a b c, leb a b = true -> leb b c = true -> leb a c = true).

Lemma insert_sorted_perm x l : insert_sorted x l ≡ₚ x :: l.
Proof.
  induction l as [|y l IH]; simpl; [done|]. case_match; [done|]. rewrite IH. apply Permutation_swap.
Qed.

Lemma sort_by_perm l : sort_by l ≡ₚ l.
Proof. induction l as [|x l IH]; simpl; [done|]. by rewrite insert_sorted_perm, IH. Qed.

Lemma insert_sorted_StronglySorted x l :
  StronglySorted (fun a b => leb a b = true) l ->
  StronglySorted (fun a b => leb a b = true) (insert_sorted x l).
Proof.
  induction 1 as [|y l Hs IH Hy]; simpl; [by repeat constructor|].
  destruct (leb x y) eqn:E.
  - constructor; [by constructor|]. constructor; [done|]. rewrite list.Forall_forall in *. eauto.
  - constructor; [done|]. rewrite insert_sorted_perm. constructor; [|done].
    destruct (leb_total x y); congruence.
Qed.

Lemma sort_by_StronglySorted l : StronglySorted (fun a b => leb a b = true) (sort_by l).
Proof. induction l as [|x l IH]; simpl; [constructor|]. by apply insert_sorted_StronglySorted. Qed.
End sort.

Lemma StronglySorted_app_le {A} (R : A -> A -> Prop) l1 l2 x y :
  StronglySorted R (l1 ++ l2) -> x ∈ l1 -> y ∈ l2 -> R x y.
Proof.
  induction l1 as [|z l1 IH]; simpl; [by intros _ ?%not_elem_of_nil|].
  intros Hs [->|Hx]%elem_of_cons Hy; inversion Hs as [|? ? Hs' Hf]; subst; [|by apply IH].
  rewrite list.Forall_forall in Hf. apply Hf, elem_of_app. by right.
Qed.

Lemma filter_all {A} (P : A -> Prop) `{!forall x, Decision (P x)} (l : list A) :
  (forall x, x ∈ l -> P x) -> filter P l = l.
Proof.
  intros Hl. induction l as [|x l IH]; [done|]. rewrite filter_cons_True by (apply Hl; constructor).
  f_equal. apply IH. intros y Hy. apply Hl. by constructor.
Qed.

Lemma filter_none {A} (P : A -> Prop) `{!forall x, Decision (P x)} (l : list A) :
  (forall x, x ∈ l -> ~ P x) -> filter P l = [].
Proof.
  intros Hl. induction l as [|x l IH]; [done|]. rewrite filter_cons_False by (apply Hl; constructor).
  apply IH. intros y Hy. apply Hl. by constructor.
Qed.

Lemma foldl_fmap {A B C} (f : C -> B -> C) (g : A -> B) acc (l : list A) :
  foldl f acc (g <$> l) = foldl (fun acc x => f acc (g x)) acc l.
Proof. revert acc. induction l as [|x l IH]; intros acc; [done|]. apply IH. Qed.

Lemma omap_fmap {A B C} (f : B -> option C) (g : A -> B) (l : list A) : omap f (g <$> l) = omap (fun x => f (g x)) l.
Proof. induction l as [|x l IH]; [done|]. cbn. by rewrite IH. Qed.

Lemma omap_filter {A} (P : A -> Prop) `{!forall x, Decision (P x)} (l : list A) :
  filter P l = omap (fun x => if decide (P x) then Some x else None) l.
Proof. induction l as [|x l IH]; [done|]. rewrite filter_cons. cbn. case_decide; by rewrite IH. Qed.

Lemma imap_const {A B} (f : A -> B) (l : list A) : imap (fun _ => f) l = f <$> l.
Proof. apply list_eq. intros i. by rewrite list_lookup_imap, list_lookup_fmap. Qed.

Lemma fmap_const_seq {A} (v : A) a n : (fun _ => v) <$> seq a n = replicate n v.
Proof. revert a. induction n as [|n IH]; intros a; [done|]. cbn. by rewrite <- (IH (S a)). Qed.

Lemma alter_out {A} (f : A -> A) (l : list A) i : (length l <= i)%nat -> alter f i l = l.
Proof.
  intros Hi. apply list_eq. intros j. destruct (decide (i = j)) as [<-|]; [|by rewrite list_lookup_alter_ne].
  by rewrite list_lookup_alter_eq, lookup_ge_None_2.
Qed.

(** [iter().enumerate()]. *)
Definition indexed {A} (l : list A) : list (nat * A) := imap pair l.
