(* ===== verification/SafeFloat.v ===== *)
(** * SafeFloat: the decimal floating point of the share pools

    Models [struct SafeFloat] and its operations in
    src/primitives/share-pool/src/lib.rs.  A value is [mantissa * 10^exponent]
    with a [u128] mantissa and an [i64] exponent; intermediate products live in
    [U256].  [normalize] keeps the mantissa of a non-zero value in
    [(SAFE_FLOAT_MAX / 10, SAFE_FLOAT_MAX]].

    The specification side is [val], the rational number a SafeFloat stands
    for: the lemmas say of each operation in which direction it rounds and when
    it is exact.  The loops of [normalize] run on a fuel of 78, the number of
    decimal digits of a [U256]; [norm_down_spec] and [norm_up_spec] show that
    the loops leave through their own test within it. *)

From Stdlib Require Import ZArith QArith Qpower Qround Lqa Lia.
From stdpp Require Import base list numbers.
From S2P Require Import Prelude.

(** ** Definitions *)

Definition SAFE_FLOAT_MAX : Z := 1000000000000000000000.
Definition SAFE_FLOAT_MAX_EXP : Z := 21.

Record SafeFloat : Type := mkSafeFloat { mantissa : Z; exponent : Z }.

#[global] Instance SafeFloat_eq_dec : EqDecision SafeFloat.
Proof. solve_decision. Defined.

(** [U256::checked_pow]. *)
Definition checked_pow (max b e : Z) : option Z :=
  if b ^ e <=? max then Some (b ^ e) else None.

Definition cappow10 (e : Z) : Z :=
  if saturating_add u64_max SAFE_FLOAT_MAX_EXP 1 <? e
  then saturating_mul u128_max SAFE_FLOAT_MAX 10
  else if e =? 0 then 1
  else default 0 (checked_pow u256_max 10 e).

Definition zero : SafeFloat := mkSafeFloat 0 0.

Definition min_mantissa : Z := default 0 (checked_div SAFE_FLOAT_MAX 10).

(** The first loop of [normalize]: divide while above the maximum. *)
Fixpoint norm_down (fuel : nat) (m e : Z) : option (Z * Z) :=
  match fuel with
  | O => Some (m, e)
  | S fuel =>
      if SAFE_FLOAT_MAX <? m then
        match checked_div m 10 with
        | None => None
        | Some next_mantissa =>
            match i64_checked_add e 1 with
            | None => None
            | Some next_exponent => norm_down fuel next_mantissa next_exponent
            end
        end
      else Some (m, e)
  end.

(** The second loop: multiply while at or below the minimum. *)
Fixpoint norm_up (fuel : nat) (m e : Z) : option (Z * Z) :=
  match fuel with
  | O => Some (m, e)
  | S fuel =>
      if m <=? min_mantissa then
        match checked_mul u256_max m 10 with
        | None => None
        | Some next_mantissa =>
            match i64_checked_sub e 1 with
            | None => None
            | Some next_exponent => norm_up fuel next_mantissa next_exponent
            end
        end
      else Some (m, e)
  end.

Definition normalize_fuel : nat := 78.

(** [normalize] sets [self] and returns whether it succeeded; every caller
    starts from [SafeFloat::zero()] and drops it on [false]. *)
Definition normalize (new_mantissa new_exponent : Z) : option SafeFloat :=
  if new_mantissa =? 0 then Some (mkSafeFloat 0 0)
  else
    match norm_down normalize_fuel new_mantissa new_exponent with
    | None => None
    | Some (m, e) =>
        match norm_up normalize_fuel m e with
        | None => None
        | Some (m, e) => Some (mkSafeFloat (m mod (u128_max + 1)) e)
        end
    end.

Definition new (mantissa exponent : Z) : option SafeFloat :=
  if SAFE_FLOAT_MAX <? mantissa then None else normalize mantissa exponent.

Definition is_zero (x : SafeFloat) : bool := mantissa x =? 0.

Definition div (x a : SafeFloat) : option SafeFloat :=
  let maybe_m1_scaled := checked_mul u256_max (mantissa x) SAFE_FLOAT_MAX in
  let new_exponent := exponent x - exponent a - SAFE_FLOAT_MAX_EXP in
  if (i64_max <? new_exponent) || (new_exponent <? i64_min) then None
  else
    match maybe_m1_scaled with
    | Some m1_scaled =>
        match checked_div m1_scaled (mantissa a) with
        | Some new_mantissa => normalize new_mantissa new_exponent
        | None => None
        end
    | None => None
    end.

Definition add (x a : SafeFloat) : option SafeFloat :=
  if is_zero x then Some a
  else if is_zero a then Some x
  else
    let '(new_mantissa, new_exponent) :=
      if exponent a <=? exponent x then
        let exp_diff := i64_saturating_sub (exponent x) (exponent a) in
        let m1 := mantissa x in
        let m2 := default 0 (checked_div (mantissa a) (cappow10 exp_diff)) in
        (saturating_add u256_max m1 m2, exponent x)
      else
        let exp_diff := i64_saturating_sub (exponent a) (exponent x) in
        let m1 := default 0 (checked_div (mantissa x) (cappow10 exp_diff)) in
        let m2 := mantissa a in
        (saturating_add u256_max m1 m2, exponent a) in
    normalize new_mantissa new_exponent.

Definition sub (x a : SafeFloat) : option SafeFloat :=
  if is_zero x && is_zero a then Some zero
  else if is_zero x then None
  else if is_zero a then Some x
  else
    let '(new_mantissa, new_exponent) :=
      if exponent a <=? exponent x then
        let exp_diff := i64_saturating_sub (exponent x) (exponent a) in
        let m1 := mantissa x in
        let m2 := default 0 (checked_div (mantissa a) (cappow10 exp_diff)) in
        (saturating_sub m1 m2, exponent x)
      else
        let exp_diff := i64_saturating_sub (exponent a) (exponent x) in
        let m1 := default 0 (checked_div (mantissa x) (cappow10 exp_diff)) in
        let m2 := mantissa a in
        (saturating_sub m1 m2, exponent a) in
    normalize new_mantissa new_exponent.

(** The closure [scale] of [sub_exact_floor]. *)
Definition scale_to (base : Z) (value : SafeFloat) : option Z :=
  match i64_checked_sub (exponent value) base with
  | None => None
  | Some shift =>
      match checked_pow u256_max 10 shift with
      | None => None
      | Some factor => checked_mul u256_max (mantissa value) factor
      end
  end.

Definition sub_exact_floor (x a : SafeFloat) : option SafeFloat :=
  if is_zero a then Some x
  else if is_zero x then None
  else
    let base := Z.min (exponent x) (exponent a) in
    match scale_to base x with
    | None => None
    | Some minuend =>
        match scale_to base a with
        | None => None
        | Some subtrahend =>
            match checked_sub minuend subtrahend with
            | None => None
            | Some difference => normalize difference base
            end
        end
    end.

Definition mul_div (x a b : SafeFloat) : option SafeFloat :=
  if mantissa b =? 0 then None
  else
    let self_a_mantissa := default 0 (checked_mul u256_max (mantissa x) (mantissa a)) in
    match i64_checked_add (exponent x) (exponent a) with
    | Some self_a_exponent =>
        match i64_checked_sub self_a_exponent (exponent b) with
        | Some new_exponent =>
            let new_mantissa := default 0 (checked_div self_a_mantissa (mantissa b)) in
            normalize new_mantissa new_exponent
        | None => None
        end
    | None => None
    end.

(** Is [self > a]?  Both values should be normalized. *)
Definition gt (x a : SafeFloat) : bool :=
  if is_zero x then false
  else if is_zero a then true
  else if exponent x =? exponent a then mantissa a <? mantissa x
  else if exponent a <? exponent x then
    let exp_diff := i64_saturating_sub (exponent x) (exponent a) in
    if 1 <? exp_diff then true
    else mantissa a <? saturating_mul u256_max 10 (mantissa x)
  else
    let exp_diff := i64_saturating_sub (exponent a) (exponent x) in
    if 1 <? exp_diff then false
    else saturating_mul u256_max 10 (mantissa a) <? mantissa x.

(** [impl From<&SafeFloat> for u64]. *)
Definition to_u64 (x : SafeFloat) : Z :=
  if exponent x =? 0 then Z.min u64_max (mantissa x)
  else
    let scale := cappow10 (Z.abs (exponent x)) in
    let q := if 0 <? exponent x
             then saturating_mul u256_max (mantissa x) scale
             else default 0 (checked_div (mantissa x) scale) in
    if q =? 0 then 0 else Z.min u64_max q.

(** [impl From<u64> for SafeFloat]. *)
Definition from_u64 (v : Z) : SafeFloat := default zero (new v 0).

(** [impl From<U64F64> for SafeFloat], on the bits of the fixed-point number. *)
Definition from_u64f64 (bits : Z) : SafeFloat :=
  let int := Z.shiftr bits 64 in
  let frac := Z.land bits 18446744073709551615 in
  if bits =? 0 then zero
  else
    let safe_int := default zero (new int 0) in
    let safe_frac_num := default zero (new frac 0) in
    let two64 := Z.shiftl 1 64 in
    let safe_two64 := default zero (new two64 0) in
    let safe_frac := default zero (div safe_frac_num safe_two64) in
    default zero (add safe_int safe_frac).

(** ** Specification: the rational a SafeFloat stands for *)

Definition p10 (e : Z) : Q := Qpower (10 # 1) e.
Definition val (x : SafeFloat) : Q := inject_Z (mantissa x) * p10 (exponent x).

Definition is_i64 (e : Z) : Prop := i64_min <= e <= i64_max.

(** Normal form: zero is [(0, 0)], any other mantissa has its leading digit in
    place. *)
Definition wf (x : SafeFloat) : Prop :=
  (mantissa x = 0 /\ exponent x = 0) \/
  (min_mantissa < mantissa x <= SAFE_FLOAT_MAX /\ is_i64 (exponent x)).

(** Exponents far enough from the ends of [i64] that no operation of the share
    pool can overflow them. *)
Definition exp_ok (b : Z) (x : SafeFloat) : Prop := - b <= exponent x <= b.

(** ** Powers of ten *)

Lemma p10_pos e : (0 < p10 e)%Q.
Proof. apply Qpower_0_lt. reflexivity. Qed.

Lemma p10_add a b : (p10 (a + b) == p10 a * p10 b)%Q.
Proof. apply Qpower_plus. intros H. discriminate H. Qed.

Lemma p10_nonneg_Z k : 0 <= k -> (p10 k == inject_Z (10 ^ k))%Q.
Proof. intros Hk. unfold p10. symmetry. by apply Zpower_Qpower. Qed.

(** The bridge between exponents: [a * 10^(e + k) = (a * 10^k) * 10^e]. *)
Lemma p10_shift a e k :
  0 <= k -> (inject_Z a * p10 (e + k) == inject_Z (a * 10 ^ k) * p10 e)%Q.
Proof. intros Hk. rewrite p10_add, (p10_nonneg_Z k Hk), inject_Z_mult. ring. Qed.

Lemma p10_le a b e : a <= b -> (inject_Z a * p10 e <= inject_Z b * p10 e)%Q.
Proof.
  intros H. apply Qmult_le_compat_r; [by rewrite <- Zle_Qle|]. apply Qlt_le_weak, p10_pos.
Qed.

Lemma p10_lt a b e : a < b -> (inject_Z a * p10 e < inject_Z b * p10 e)%Q.
Proof. intros H. apply Qmult_lt_compat_r; [apply p10_pos|]. by rewrite <- Zlt_Qlt. Qed.

Lemma p10_inj a b e : (inject_Z a * p10 e == inject_Z b * p10 e)%Q -> a = b.
Proof.
  intros H. apply inject_Z_injective. pose proof (p10_pos e).
  apply (Qmult_inj_r _ _ (p10 e)); [lra|done].
Qed.

Lemma p10_le_inv a b e : (inject_Z a * p10 e <= inject_Z b * p10 e)%Q -> a <= b.
Proof. intros H. apply Z.nlt_ge. intros Hlt. pose proof (p10_lt b a e Hlt). lra. Qed.

Lemma pow10_pos k : 0 <= k -> 0 < 10 ^ k.
Proof. intros. by apply Z.pow_pos_nonneg. Qed.
#[export] Hint Resolve pow10_pos : core.

(** ** The loops of [normalize] *)

Lemma min_mantissa_eq : min_mantissa = 100000000000000000000.
Proof. reflexivity. Qed.

Ltac sf_consts := rewrite ?min_mantissa_eq in *; unfold SAFE_FLOAT_MAX, SAFE_FLOAT_MAX_EXP,
  i64_min, i64_max, u256_max, u128_max, u64_max in *.

Lemma i64_checked_add_Some a b c :
  i64_checked_add a b = Some c <-> c = a + b /\ is_i64 (a + b).
Proof.
  unfold i64_checked_add, is_i64. destruct (_ && _)%bool eqn:E; split; intros H;
    destruct_and?; simplify_eq; bool_to_prop; try done; lia.
Qed.

Lemma norm_down_spec fuel m e m' e' :
  0 <= m -> m <= SAFE_FLOAT_MAX * 10 ^ Z.of_nat fuel ->
  norm_down fuel m e = Some (m', e') ->
  exists k, 0 <= k /\ m' = m / 10 ^ k /\ e' = e + k /\ m' <= SAFE_FLOAT_MAX /\
    (0 < k -> SAFE_FLOAT_MAX < m / 10 ^ (k - 1) /\ is_i64 e').
Proof.
  revert m e. induction fuel as [|fuel IH]; intros m e Hm Hb; simpl.
  - intros [= <- <-]. exists 0. rewrite Z.pow_0_r, Z.div_1_r. simpl in Hb. lia.
  - destruct (_ <? m) eqn:E; bool_to_prop.
    + unfold checked_div. simpl. destruct (i64_checked_add e 1) as [e1|] eqn:E1; [|done].
      apply i64_checked_add_Some in E1 as [-> Hi]. intros H.
      rewrite Nat2Z.inj_succ, Z.pow_succ_r in Hb by lia.
      apply IH in H as (k & Hk & -> & -> & Hle & Hlt).
      2: by apply Z.div_pos.
      2: { apply Z.div_le_upper_bound; lia. }
      exists (k + 1). rewrite Z.div_div, <- Z.pow_succ_r in * by auto with lia.
      replace (Z.succ k) with (k + 1) in * by lia. split_and!; try lia; try done.
      intros _. replace (k + 1 - 1) with k by lia.
      destruct (Z.eq_dec k 0) as [->|]; [rewrite Z.pow_0_r, Z.div_1_r; unfold is_i64 in *; lia|].
      destruct Hlt as [Hlt Hi']; [lia|]. rewrite Z.div_div, <- Z.pow_succ_r in Hlt by auto with lia.
      replace (Z.succ (k - 1)) with k in Hlt by lia. unfold is_i64 in *; lia.
    + intros [= <- <-]. exists 0. rewrite Z.pow_0_r, Z.div_1_r. lia.
Qed.

Lemma norm_up_spec fuel m e m' e' :
  0 < m -> min_mantissa < m * 10 ^ Z.of_nat fuel ->
  norm_up fuel m e = Some (m', e') ->
  exists k, 0 <= k /\ m' = m * 10 ^ k /\ e' = e - k /\ min_mantissa < m' /\
    (0 < k -> m * 10 ^ (k - 1) <= min_mantissa /\ is_i64 e').
Proof.
  revert m e. induction fuel as [|fuel IH]; intros m e Hm Hb; simpl.
  - intros [= <- <-]. exists 0. rewrite Z.pow_0_r. simpl in Hb. lia.
  - destruct (m <=? _) eqn:E; bool_to_prop.
    + unfold checked_mul. destruct (_ <=? u256_max); [|done].
      destruct (i64_checked_sub e 1) as [e1|] eqn:E1; [|done].
      apply i64_checked_add_Some in E1 as [-> Hi]. intros H.
      rewrite Nat2Z.inj_succ, Z.pow_succ_r in Hb by lia.
      apply IH in H as (k & Hk & -> & -> & Hle & Hlt); [|lia..].
      exists (k + 1). rewrite Z.pow_add_r, Z.pow_1_r by lia. split_and!; try lia.
      intros _. replace (k + 1 - 1) with k by lia.
      destruct (Z.eq_dec k 0) as [->|];
        [rewrite Z.pow_0_r, Z.mul_1_r; unfold is_i64 in *; lia|].
      destruct Hlt as [Hlt Hi']; [lia|].
      replace (10 ^ k) with (10 * 10 ^ (k - 1)) by (rewrite <- Z.pow_succ_r by lia; f_equal; lia).
      unfold is_i64 in *; lia.
    + intros [= <- <-]. exists 0. rewrite Z.pow_0_r. lia.
Qed.

(** The last division of the first loop leaves at least [SAFE_FLOAT_MAX / 10]. *)
Lemma div_pow10_ge m k :
  0 < k -> SAFE_FLOAT_MAX < m / 10 ^ (k - 1) -> min_mantissa <= m / 10 ^ k.
Proof.
  intros Hk Hlt. replace k with (Z.succ (k - 1)) by lia.
  rewrite Z.pow_succ_r, Z.mul_comm, <- Z.div_div by auto with lia.
  apply Z.div_le_lower_bound; [lia|]. sf_consts. lia.
Qed.

Lemma div_pow10_pos m k :
  0 < m -> 0 <= k -> (0 < k -> SAFE_FLOAT_MAX < m / 10 ^ (k - 1)) -> 0 < m / 10 ^ k.
Proof.
  intros Hm Hk Hlt. destruct (Z.eq_dec k 0) as [->|]; [by rewrite Z.pow_0_r, Z.div_1_r|].
  pose proof (div_pow10_ge m k ltac:(lia) ltac:(apply Hlt; lia)). sf_consts. lia.
Qed.

(** What [normalize] returns: the value after [k] truncating divisions, brought
    into normal form. *)
Lemma normalize_spec m e x :
  0 <= m <= u256_max -> is_i64 e -> normalize m e = Some x ->
  wf x /\ (mantissa x = 0 <-> m = 0) /\
  exists k, 0 <= k <= 57 /\ (val x == inject_Z (m / 10 ^ k * 10 ^ k) * p10 e)%Q /\
    (0 < k -> SAFE_FLOAT_MAX < m / 10 ^ (k - 1)) /\ m / 10 ^ k <= SAFE_FLOAT_MAX /\
    (m <> 0 -> e - 21 <= exponent x <= e + k).
Proof.
  intros Hm He. unfold normalize. destruct (m =? 0) eqn:E0; bool_to_prop.
  { intros [= <-]. split; [by left|]. split; [done|]. exists 0. subst m.
    by split_and!. }
  destruct (norm_down _ m e) as [[m1 e1]|] eqn:E1; [|done].
  destruct (norm_up _ m1 e1) as [[m2 e2]|] eqn:E2; [|done]. intros [= <-].
  apply norm_down_spec in E1 as (k & Hk & Hm1 & -> & Hle & Hlt); [|lia|].
  2: { transitivity u256_max; [lia|by apply Z.leb_le]. }
  assert (Hk57 : k <= 57).
  { apply Z.nlt_ge. intros Hgt. destruct Hlt as [Hlt _]; [lia|].
    assert (m / 10 ^ (k - 1) <= m / 10 ^ 57).
    { apply Z.div_le_compat_l; [lia|]. split; [lia|]. apply Z.pow_le_mono_r; lia. }
    assert (m / 10 ^ 57 <= u256_max / 10 ^ 57) by (apply Z.div_le_mono; lia).
    assert (u256_max / 10 ^ 57 <= SAFE_FLOAT_MAX) by by apply Z.leb_le. lia. }
  assert (Hpos : 0 < m1).
  { subst m1. apply div_pow10_pos; [lia..|]. intros. by apply Hlt. }
  apply norm_up_spec in E2 as (j & Hj & -> & -> & Hlo & Hup); [|done|].
  2: { apply Z.lt_le_trans with (10 ^ Z.of_nat normalize_fuel); [done|].
       rewrite <- (Z.mul_1_l (10 ^ _)) at 1. apply Z.mul_le_mono_nonneg_r; lia. }
  assert (Hj21 : j <= 21 /\ m1 * 10 ^ j <= SAFE_FLOAT_MAX).
  { destruct (Z.eq_dec j 0) as [->|]; [rewrite Z.pow_0_r; lia|].
    destruct Hup as [Hup _]; [lia|]. split.
    - apply Z.nlt_ge. intros Hgt.
      assert (10 ^ 21 <= 10 ^ (j - 1)) by (apply Z.pow_le_mono_r; lia).
      sf_consts. nia.
    - replace (10 ^ j) with (10 * 10 ^ (j - 1)) by (rewrite <- Z.pow_succ_r by lia; f_equal; lia).
      sf_consts. lia. }
  destruct Hj21 as [Hj21 Hmax].
  assert (Hmod : (m1 * 10 ^ j) mod (u128_max + 1) = m1 * 10 ^ j).
  { apply Z.mod_small. sf_consts. lia. }
  rewrite Hmod. simpl. split_and!.
  - right. simpl. split; [lia|].
    destruct (Z.eq_dec j 0) as [->|]; [|by apply Hup; lia].
    rewrite Z.sub_0_r. destruct (Z.eq_dec k 0) as [->|]; [by rewrite Z.add_0_r|].
    apply Hlt; lia.
  - split; [|done]. sf_consts. lia.
  - exists k. split_and!; try lia.
    unfold val. simpl. subst m1.
    rewrite <- (p10_shift (m / 10 ^ k) (e + k - j) j) by lia.
    replace (e + k - j + j) with (e + k) by lia. by apply p10_shift.
Qed.

(** [normalize] succeeds whenever the exponent leaves it room. *)
Lemma norm_down_total fuel m e :
  - 2 ^ 63 <= e <= 2 ^ 63 - 1 - Z.of_nat fuel -> is_Some (norm_down fuel m e).
Proof.
  revert m e. induction fuel as [|fuel IH]; intros m e He; simpl; [by eexists|].
  destruct (_ <? m); [|by eexists]. unfold checked_div. simpl.
  unfold i64_checked_add. rewrite (proj2 (andb_true_iff _ _)).
  - apply IH. lia.
  - unfold i64_min, i64_max. rewrite !Z.leb_le. lia.
Qed.

Lemma norm_up_total fuel m e :
  0 < m -> - 2 ^ 63 + Z.of_nat fuel <= e <= 2 ^ 63 - 1 -> is_Some (norm_up fuel m e).
Proof.
  revert m e. induction fuel as [|fuel IH]; intros m e Hm He; simpl; [by eexists|].
  destruct (m <=? _) eqn:E; [|by eexists]. bool_to_prop.
  unfold checked_mul. rewrite (proj2 (Z.leb_le _ _)) by (sf_consts; lia).
  unfold i64_checked_sub, i64_checked_add. rewrite (proj2 (andb_true_iff _ _)).
  - apply IH; lia.
  - unfold i64_min, i64_max. rewrite !Z.leb_le. lia.
Qed.

Lemma normalize_total m e :
  0 <= m <= u256_max -> - 2 ^ 63 + 200 <= e <= 2 ^ 63 - 200 -> is_Some (normalize m e).
Proof.
  intros Hm He. unfold normalize. destruct (m =? 0) eqn:E0; [by eexists|]. bool_to_prop.
  destruct (norm_down_total normalize_fuel m e) as [[m1 e1] H1]; [unfold normalize_fuel; lia|].
  rewrite H1. pose proof H1 as H2.
  apply norm_down_spec in H2 as (k & Hk & Hm1 & -> & Hle & Hlt); [|lia|].
  2: { transitivity u256_max; [lia|by apply Z.leb_le]. }
  destruct (norm_up_total normalize_fuel m1 (e + k)) as [[m2 e2] H2].
  - subst m1. apply div_pow10_pos; [lia..|]. intros. by apply Hlt.
  - split; [unfold normalize_fuel; lia|]. destruct (Z.eq_dec k 0) as [->|]; [lia|].
    destruct Hlt as [_ Hi]; [lia|]. unfold is_i64, i64_max in Hi. lia.
  - rewrite H2. by eexists.
Qed.

Section normalize_value.
  Context (m e : Z) (x : SafeFloat).
  Context (Hm : 0 <= m <= u256_max) (He : is_i64 e) (Hx : normalize m e = Some x).

Lemma normalize_wf : wf x.
Proof. by destruct (normalize_spec m e x). Qed.

(** Rounding is toward zero ... *)
Lemma normalize_le : (val x <= inject_Z m * p10 e)%Q.
Proof.
  destruct (normalize_spec m e x) as (_ & _ & k & Hk & -> & _); try done.
  apply p10_le. rewrite Z.mul_comm. apply Z.mul_div_le. apply pow10_pos. lia.
Qed.

(** ... exact for a mantissa with at most 21 significant digits ... *)
Lemma normalize_exact c s :
  m = c * 10 ^ s -> 0 <= s -> c <= SAFE_FLOAT_MAX -> (val x == inject_Z m * p10 e)%Q.
Proof.
  intros Hc Hs Hcm.
  destruct (normalize_spec m e x) as (_ & _ & k & Hk & -> & Hlt & _); try done.
  assert (Hks : k <= s).
  { apply Z.nlt_ge. intros Hgt. specialize (Hlt ltac:(lia)).
    assert (m / 10 ^ (k - 1) <= m / 10 ^ s).
    { apply Z.div_le_compat_l; [lia|]. split; [by apply pow10_pos|].
      apply Z.pow_le_mono_r; lia. }
    rewrite Hc, Z.div_mul in * by (pose proof (pow10_pos s Hs); lia). lia. }
  replace s with (s - k + k) in Hc by lia.
  rewrite Hc, Z.pow_add_r, Z.mul_assoc, Z.div_mul by
    (try lia; pose proof (pow10_pos k); lia). done.
Qed.

(** ... and never below the largest mantissa when that overflows. *)
Lemma normalize_ge_max :
  SAFE_FLOAT_MAX < m -> (inject_Z SAFE_FLOAT_MAX * p10 e <= val x)%Q.
Proof.
  intros Hgt.
  destruct (normalize_spec m e x) as (_ & _ & k & Hk & -> & Hlt & Hle & _); try done.
  apply p10_le. destruct (Z.eq_dec k 0) as [->|].
  { rewrite Z.pow_0_r, Z.div_1_r in *. lia. }
  pose proof (div_pow10_ge m k ltac:(lia) ltac:(apply Hlt; lia)).
  assert (10 ^ 1 <= 10 ^ k) by (apply Z.pow_le_mono_r; lia). sf_consts. nia.
Qed.

Lemma normalize_ge_min :
  (inject_Z (Z.min m SAFE_FLOAT_MAX) * p10 e <= val x)%Q.
Proof.
  destruct (Z_le_gt_dec m SAFE_FLOAT_MAX) as [Hle|Hgt].
  - rewrite Z.min_l, (normalize_exact m 0) by lia. apply Qle_refl.
  - rewrite Z.min_r by lia. apply normalize_ge_max. lia.
Qed.

Lemma normalize_exponent : m <> 0 -> e - 21 <= exponent x <= e + 57.
Proof.
  intros. destruct (normalize_spec m e x) as (_ & _ & k & Hk & _ & _ & _ & Hxe); try done.
  specialize (Hxe ltac:(done)). lia.
Qed.

Lemma normalize_zero_iff : mantissa x = 0 <-> m = 0.
Proof. by destruct (normalize_spec m e x) as (_ & ? & _). Qed.
End normalize_value.

(** ** Normal forms *)

Lemma wf_zero : wf zero.
Proof. by left. Qed.
#[export] Hint Resolve wf_zero : core.

Lemma val_zero : (val zero == 0)%Q.
Proof. reflexivity. Qed.

Lemma wf_mantissa x : wf x -> 0 <= mantissa x <= SAFE_FLOAT_MAX.
Proof. intros [[-> _]|[H _]]; sf_consts; lia. Qed.

Lemma wf_exponent x : wf x -> is_i64 (exponent x).
Proof. intros [[_ ->]|[_ H]]; [|done]. by split. Qed.

Lemma wf_nonzero x :
  wf x -> is_zero x = false -> min_mantissa < mantissa x <= SAFE_FLOAT_MAX.
Proof. unfold is_zero. intros [[H _]|[H _]] ?; bool_to_prop; [done|lia]. Qed.

Lemma wf_is_zero x : wf x -> is_zero x = true -> x = zero.
Proof.
  unfold is_zero. destruct x as [m e]. intros [[H H']|[H _]] ?; bool_to_prop; simpl in *.
  - by subst.
  - sf_consts. lia.
Qed.

Lemma val_nonneg x : wf x -> (0 <= val x)%Q.
Proof.
  intros H%wf_mantissa. unfold val. rewrite <- (Qmult_0_l (p10 (exponent x))).
  change 0%Q with (inject_Z 0). apply p10_le. lia.
Qed.

Lemma val_pos x : wf x -> is_zero x = false -> (0 < val x)%Q.
Proof.
  intros Hx H. pose proof (wf_nonzero _ Hx H). unfold val.
  rewrite <- (Qmult_0_l (p10 (exponent x))).
  change 0%Q with (inject_Z 0). apply p10_lt. sf_consts. lia.
Qed.

Lemma val_is_zero x : is_zero x = true -> (val x == 0)%Q.
Proof. unfold is_zero, val. intros H. bool_to_prop. rewrite H. apply Qmult_0_l. Qed.

(** Between normal forms the exponent decides first. *)
Lemma val_lt_exponent x y :
  wf x -> wf y -> is_zero y = false -> exponent x < exponent y -> (val x < val y)%Q.
Proof.
  intros Hx Hy Hy0 Hlt. pose proof (wf_mantissa _ Hx). pose proof (wf_nonzero _ Hy Hy0).
  unfold val. replace (exponent y) with (exponent x + (exponent y - exponent x)) by lia.
  rewrite p10_shift by lia. apply p10_lt.
  assert (10 ^ 1 <= 10 ^ (exponent y - exponent x)) by (apply Z.pow_le_mono_r; lia).
  sf_consts. nia.
Qed.

Lemma exponent_le_of_val x y :
  wf x -> wf y -> is_zero x = false -> (val x <= val y)%Q -> exponent x <= exponent y.
Proof.
  intros Hx Hy Hx0 Hle. apply Z.nlt_ge. intros Hlt.
  pose proof (val_lt_exponent y x Hy Hx Hx0 Hlt). lra.
Qed.

(** Dividing by the capped power is dividing by the power. *)
Lemma div_pow10_small m d : 0 <= m <= SAFE_FLOAT_MAX -> 22 <= d -> m / 10 ^ d = 0.
Proof.
  intros Hm Hd. apply Z.div_small.
  assert (10 ^ 22 <= 10 ^ d) by (apply Z.pow_le_mono_r; lia). sf_consts. lia.
Qed.

Lemma div_cappow10_raw m d :
  0 <= m <= SAFE_FLOAT_MAX -> 0 <= d ->
  default 0 (checked_div m (cappow10 d)) = m / 10 ^ d.
Proof.
  intros Hm Hd. unfold cappow10. change (saturating_add _ _ _) with 22.
  change (saturating_mul _ _ _) with (10 ^ 22).
  destruct (22 <? d) eqn:E; bool_to_prop.
  { rewrite (div_pow10_small m d) by lia. unfold checked_div. simpl.
    apply (div_pow10_small m 22); lia. }
  destruct (d =? 0) eqn:E0; bool_to_prop; [by rewrite E0|].
  unfold checked_pow. assert (10 ^ d <= 10 ^ 22) by (apply Z.pow_le_mono_r; lia).
  rewrite (proj2 (Z.leb_le _ _)) by (sf_consts; lia). simpl. unfold checked_div.
  pose proof (pow10_pos d Hd). by rewrite (proj2 (Z.eqb_neq _ _)) by lia.
Qed.

Lemma div_cappow10 m a b :
  0 <= m <= SAFE_FLOAT_MAX -> b <= a ->
  default 0 (checked_div m (cappow10 (i64_saturating_sub a b))) = m / 10 ^ (a - b).
Proof.
  intros Hm Hab. unfold i64_saturating_sub, i64_min, i64_max.
  rewrite div_cappow10_raw by lia. destruct (Z_le_gt_dec (a - b) 22).
  - do 2 f_equal. lia.
  - rewrite !div_pow10_small by lia. done.
Qed.

(** ** The operations *)

(** [new] is exact. *)
Lemma new_spec m e x :
  0 <= m -> is_i64 e -> new m e = Some x ->
  wf x /\ (val x == inject_Z m * p10 e)%Q /\ (is_zero x = true <-> m = 0) /\
  (m <> 0 -> e - 21 <= exponent x <= e + 57).
Proof.
  intros Hm He. unfold new. destruct (_ <? m) eqn:E; [done|]. bool_to_prop. intros Hx.
  assert (0 <= m <= u256_max) by (sf_consts; lia). split_and!.
  - by eapply normalize_wf.
  - eapply (normalize_exact m e x) with (c := m) (s := 0); try done; lia.
  - unfold is_zero. rewrite Z.eqb_eq. by eapply normalize_zero_iff.
  - by apply normalize_exponent.
Qed.

Lemma new_total m e :
  0 <= m <= SAFE_FLOAT_MAX -> - 2 ^ 63 + 200 <= e <= 2 ^ 63 - 200 -> is_Some (new m e).
Proof.
  intros Hm He. unfold new. rewrite (proj2 (Z.ltb_ge _ _)) by lia.
  apply normalize_total; [sf_consts; lia|done].
Qed.

(** A [u64] as a SafeFloat: always representable, exactly. *)
Lemma new_u64 v : is_u64 v ->
  exists x, new v 0 = Some x /\ wf x /\ (val x == inject_Z v)%Q /\
    (is_zero x = true <-> v = 0) /\ exp_ok 57 x.
Proof.
  intros Hv. unfold is_u64 in Hv.
  destruct (new_total v 0) as [x Hx]; [sf_consts; lia|lia|].
  destruct (new_spec v 0 x) as (Hwf & Hval & Hz & He); [lia|done|done|].
  exists x. split_and!; try done.
  - rewrite Hval. unfold p10. simpl. ring.
  - unfold exp_ok. destruct (Z.eq_dec v 0) as [->|Hn]; [|specialize (He Hn); lia].
    rewrite (wf_is_zero x Hwf (proj2 Hz eq_refl)). simpl. lia.
Qed.

(** [m1 + m2 / 10^d] at the larger exponent, the body both branches of [add]
    share. *)
Lemma add_branch x y z :
  wf x -> wf y -> is_zero x = false -> is_zero y = false -> exponent y <= exponent x ->
  normalize (saturating_add u256_max (mantissa x) (mantissa y / 10 ^ (exponent x - exponent y)))
    (exponent x) = Some z ->
  wf z /\ (val x <= val z)%Q /\ (val y <= val z)%Q /\ (val z <= val x + val y)%Q /\
  is_zero z = false /\
  exponent x - 21 <= exponent z <= exponent x + 57.
Proof.
  intros Hx Hy Hx0 Hy0 Hle Hz. set (d := exponent x - exponent y) in *.
  pose proof (wf_nonzero _ Hx Hx0) as Hmx. pose proof (wf_mantissa _ Hy) as Hmy.
  assert (Hq : 0 <= mantissa y / 10 ^ d <= mantissa y).
  { split; [apply Z.div_pos; [lia|apply pow10_pos; lia]|].
    apply Z.div_le_upper_bound; [apply pow10_pos; lia|].
    pose proof (pow10_pos d ltac:(lia)). nia. }
  assert (Hsat : saturating_add u256_max (mantissa x) (mantissa y / 10 ^ d) =
    mantissa x + mantissa y / 10 ^ d) by (unfold saturating_add; sf_consts; lia).
  rewrite Hsat in Hz. set (m := mantissa x + mantissa y / 10 ^ d) in *.
  assert (Hm : 0 <= m <= u256_max) by (sf_consts; lia).
  pose proof (wf_exponent _ Hx) as Hex.
  pose proof (normalize_ge_min m (exponent x) z Hm Hex Hz) as Hge.
  pose proof (normalize_exponent m (exponent x) z Hm Hex Hz ltac:(sf_consts; lia)).
  assert (Hxz : (val x <= val z)%Q).
  { eapply Qle_trans; [|done]. unfold val. apply p10_le. lia. }
  split_and!; try lia; try done.
  - by eapply normalize_wf.
  - destruct (Z.eq_dec (exponent y) (exponent x)) as [Heq|].
    + eapply Qle_trans; [|exact Hge]. unfold val. rewrite Heq. apply p10_le.
      assert (Hd : d = 0) by lia.
      unfold m. rewrite Hd, Z.pow_0_r, Z.div_1_r. sf_consts. lia.
    + pose proof (val_lt_exponent y x Hy Hx Hx0 ltac:(lia)). lra.
  - eapply Qle_trans; [by apply (normalize_le m (exponent x) z)|].
    unfold val, m. rewrite inject_Z_plus, Qmult_plus_distr_l. apply Qplus_le_r.
    replace (exponent x) with (exponent y + d) by lia. rewrite p10_shift by lia.
    apply p10_le. rewrite Z.mul_comm. apply Z.mul_div_le, pow10_pos. lia.
  - unfold is_zero. rewrite Z.eqb_neq, (normalize_zero_iff m (exponent x) z); try done.
    sf_consts. lia.
Qed.

(** [add] rounds toward zero and never below either operand. *)
Lemma add_spec x y z :
  wf x -> wf y -> add x y = Some z ->
  wf z /\ (val x <= val z)%Q /\ (val y <= val z)%Q /\ (val z <= val x + val y)%Q.
Proof.
  intros Hx Hy. unfold add. pose proof (val_nonneg _ Hx). pose proof (val_nonneg _ Hy).
  destruct (is_zero x) eqn:Hx0.
  { intros [= <-]. rewrite (val_is_zero x) by done. split_and!; try done; lra. }
  destruct (is_zero y) eqn:Hy0.
  { intros [= <-]. rewrite (val_is_zero y) by done. split_and!; try done; lra. }
  destruct (_ <=? _) eqn:E; bool_to_prop; rewrite div_cappow10 by (try apply wf_mantissa; done || lia).
  - intros Hz. apply add_branch in Hz; tauto.
  - unfold saturating_add. rewrite (Z.add_comm (mantissa x / _)). intros Hz.
    apply add_branch in Hz; [|done..|lia]. rewrite Qplus_comm. tauto.
Qed.

(** The exponent of a sum stays near the larger one. *)
Lemma add_exponent b x y z :
  wf x -> wf y -> add x y = Some z -> exp_ok b x -> exp_ok b y -> exp_ok (b + 57) z.
Proof.
  intros Hx Hy. unfold add, exp_ok. destruct (is_zero x) eqn:Hx0; [intros [= <-]; lia|].
  destruct (is_zero y) eqn:Hy0; [intros [= <-]; lia|].
  destruct (_ <=? _) eqn:E; bool_to_prop; rewrite div_cappow10 by (try apply wf_mantissa; done || lia).
  - intros Hz. apply add_branch in Hz; [lia|done..].
  - unfold saturating_add. rewrite (Z.add_comm (mantissa x / _)). intros Hz.
    apply add_branch in Hz; [lia|done..|lia].
Qed.

(** [sub] truncates the subtrahend to the granularity of [x]: the result lies
    between the true difference and [x], and [x] loses a whole number of units
    [10^(exponent x)]. *)
Lemma sub_spec x y z :
  wf x -> wf y -> sub x y = Some z ->
  wf z /\ (val x - val y <= val z)%Q /\
  exists c, 0 <= c <= mantissa x /\
    (val z == inject_Z (mantissa x - c) * p10 (exponent x))%Q.
Proof.
  intros Hx Hy. unfold sub. pose proof (val_nonneg _ Hy) as Hy'.
  pose proof (wf_mantissa _ Hx) as Hmx. pose proof (wf_mantissa _ Hy) as Hmy.
  pose proof (wf_exponent _ Hx) as Hex.
  destruct (is_zero x) eqn:Hx0; destruct (is_zero y) eqn:Hy0; simpl; try done.
  { intros [= <-]. rewrite (wf_is_zero x), (wf_is_zero y) by done. split_and!; [done..|].
    exists 0. split; [done|reflexivity]. }
  { intros [= <-]. split_and!; [done|lra|]. exists 0. rewrite Z.sub_0_r. split; [lia|reflexivity]. }
  destruct (_ <=? _) eqn:E; bool_to_prop; rewrite div_cappow10 by (done || lia).
  - set (d := exponent x - exponent y). set (q := mantissa y / 10 ^ d). intros Hz.
    assert (Hq : 0 <= q) by (apply Z.div_pos; [lia|apply pow10_pos; lia]).
    assert (Hm : 0 <= saturating_sub (mantissa x) q <= u256_max)
      by (unfold saturating_sub; sf_consts; lia).
    assert (Hv : (val z == inject_Z (saturating_sub (mantissa x) q) * p10 (exponent x))%Q).
    { apply (normalize_exact _ _ z Hm Hex Hz (saturating_sub (mantissa x) q) 0);
        unfold saturating_sub; lia. }
    split_and!; [by eapply normalize_wf| |].
    + rewrite Hv. enough (val x - val y <= inject_Z (mantissa x - q) * p10 (exponent x))%Q as H.
      { eapply Qle_trans; [exact H|]. apply p10_le. unfold saturating_sub. lia. }
      unfold Z.sub. rewrite inject_Z_plus, inject_Z_opp, Qmult_plus_distr_l. unfold val.
      enough (inject_Z q * p10 (exponent x) <= inject_Z (mantissa y) * p10 (exponent y))%Q by lra.
      replace (exponent x) with (exponent y + d) by lia. rewrite p10_shift by lia.
      apply p10_le. unfold q. rewrite Z.mul_comm. apply Z.mul_div_le, pow10_pos. lia.
    + exists (Z.min q (mantissa x)). split; [lia|]. rewrite Hv. unfold saturating_sub.
      by replace (Z.max 0 (mantissa x - q)) with (mantissa x - Z.min q (mantissa x)) by lia.
  - set (d := exponent y - exponent x). intros Hz.
    assert (Hle : mantissa x / 10 ^ d <= mantissa y).
    { pose proof (wf_nonzero _ Hy Hy0). apply Z.div_le_upper_bound; [apply pow10_pos; lia|].
      assert (10 ^ 1 <= 10 ^ d) by (apply Z.pow_le_mono_r; lia). sf_consts. nia. }
    unfold saturating_sub in Hz. rewrite Z.max_l in Hz by lia. injection Hz as <-.
    pose proof (val_lt_exponent x y Hx Hy Hy0 ltac:(lia)). split_and!; [done| |].
    + change (mkSafeFloat 0 0) with zero. rewrite val_zero. lra.
    + exists (mantissa x). rewrite Z.sub_diag. split; [lia|].
      change (mkSafeFloat 0 0) with zero. rewrite val_zero. by rewrite Qmult_0_l.
Qed.

Lemma sub_le x y z : wf x -> wf y -> sub x y = Some z -> (val z <= val x)%Q.
Proof.
  intros Hx Hy Hz. destruct (sub_spec x y z Hx Hy Hz) as (_ & _ & c & Hc & ->).
  apply p10_le. lia.
Qed.

Lemma sub_exponent x y z :
  wf x -> wf y -> sub x y = Some z -> is_zero z = false ->
  exponent x - 21 <= exponent z <= exponent x.
Proof.
  intros Hx Hy Hz Hz0. pose proof (sub_spec x y z Hx Hy Hz) as (Hwz & _ & c & Hc & Hv).
  pose proof (wf_mantissa _ Hx). pose proof (wf_exponent _ Hx). split.
  - (* at least one unit of [10^(exponent x)] is left, so at most 21 places are lost *)
    assert (Hpos : 0 < mantissa x - c).
    { pose proof (val_pos z Hwz Hz0) as Hp. rewrite Hv in Hp.
      apply Z.nle_gt. intros Hn. pose proof (p10_le (mantissa x - c) 0 (exponent x) Hn).
      change (inject_Z 0) with 0%Q in *. lra. }
    apply Z.nlt_ge. intros Hlt.
    pose proof (wf_mantissa _ Hwz).
    assert (val z < inject_Z 1 * p10 (exponent x))%Q as Hbad.
    { unfold val. replace (exponent x) with (exponent z + (exponent x - exponent z)) by lia.
      rewrite p10_shift by lia. apply p10_lt.
      assert (10 ^ 22 <= 10 ^ (exponent x - exponent z)) by (apply Z.pow_le_mono_r; lia).
      sf_consts. lia. }
    rewrite Hv in Hbad. pose proof (p10_le 1 (mantissa x - c) (exponent x) ltac:(lia)). lra.
  - pose proof (sub_le x y z Hx Hy Hz) as Hle.
    pose proof (exponent_le_of_val z x Hwz Hx Hz0 Hle). lia.
Qed.

Lemma sub_total x y :
  wf x -> wf y -> is_zero x = false -> exp_ok (2 ^ 62) x -> is_Some (sub x y).
Proof.
  intros Hx Hy Hx0 Hb. unfold sub, exp_ok in *. rewrite Hx0. simpl.
  destruct (is_zero y) eqn:Hy0; [by eexists|].
  pose proof (wf_mantissa _ Hx). pose proof (wf_mantissa _ Hy).
  destruct (_ <=? _) eqn:E; bool_to_prop; rewrite div_cappow10 by lia.
  - set (q := mantissa y / _). assert (0 <= q) by (apply Z.div_pos; [lia|apply pow10_pos; lia]).
    apply normalize_total; [|lia]. unfold saturating_sub. sf_consts. lia.
  - pose proof (wf_nonzero _ Hy Hy0). set (d := exponent y - exponent x).
    assert (mantissa x / 10 ^ d <= mantissa y).
    { apply Z.div_le_upper_bound; [apply pow10_pos; lia|].
      assert (10 ^ 1 <= 10 ^ d) by (apply Z.pow_le_mono_r; lia). sf_consts. nia. }
    unfold saturating_sub. rewrite Z.max_l by lia. by eexists.
Qed.

(** Values within a factor of [10^20] have exponents within 21. *)
Lemma exponent_gap x y :
  wf x -> wf y -> is_zero x = false -> is_zero y = false ->
  (val x <= val y * inject_Z (10 ^ 20))%Q -> exponent x - exponent y <= 21.
Proof.
  intros Hx Hy Hx0 Hy0 Hle. pose proof (wf_nonzero _ Hx Hx0). pose proof (wf_nonzero _ Hy Hy0).
  apply Z.nlt_ge. intros Hlt.
  enough (val y * inject_Z (10 ^ 20) < val x)%Q by lra. unfold val.
  replace (exponent x) with (exponent y + (exponent x - exponent y)) by lia.
  rewrite p10_shift by lia.
  apply Qle_lt_trans with (inject_Z (mantissa y * 10 ^ 20) * p10 (exponent y))%Q.
  { rewrite inject_Z_mult. apply Qle_lteq. right. ring. }
  apply p10_lt. assert (10 ^ 22 <= 10 ^ (exponent x - exponent y)) by (apply Z.pow_le_mono_r; lia).
  sf_consts. nia.
Qed.

(** Subtracting a multiple of [x]'s unit is exact. *)
Lemma sub_exact_on_grid x y z c :
  wf x -> wf y -> sub x y = Some z ->
  (val y == inject_Z c * p10 (exponent x))%Q -> (val y <= val x)%Q ->
  (val z == val x - val y)%Q.
Proof.
  intros Hx Hy. unfold sub. intros Hsub Hgrid Hle.
  pose proof (wf_mantissa _ Hx) as Hmx. pose proof (wf_mantissa _ Hy) as Hmy.
  pose proof (wf_exponent _ Hx) as Hex.
  destruct (is_zero x) eqn:Hx0; destruct (is_zero y) eqn:Hy0; simpl in Hsub; try done.
  { injection Hsub as <-. rewrite (wf_is_zero x), (wf_is_zero y) by done. reflexivity. }
  { injection Hsub as <-. rewrite (val_is_zero y) by done. lra. }
  pose proof (exponent_le_of_val y x Hy Hx Hy0 Hle) as Hexp.
  rewrite (proj2 (Z.leb_le _ _)) in Hsub by lia. rewrite div_cappow10 in Hsub by (done || lia).
  set (d := exponent x - exponent y) in *.
  assert (Hc : mantissa y = c * 10 ^ d).
  { apply (p10_inj _ _ (exponent y)). rewrite <- p10_shift by lia.
    by replace (exponent y + d) with (exponent x) by lia. }
  rewrite Hc, Z.div_mul in Hsub by (pose proof (pow10_pos d ltac:(lia)); lia).
  assert (Hcx : c <= mantissa x).
  { apply (p10_le_inv _ _ (exponent x)). rewrite <- Hgrid. exact Hle. }
  assert (Hc0 : 0 <= c) by (pose proof (pow10_pos d ltac:(lia)); nia).
  unfold saturating_sub in Hsub. rewrite Z.max_r in Hsub by lia.
  rewrite (normalize_exact (mantissa x - c) (exponent x) z ltac:(sf_consts; lia) Hex Hsub
    (mantissa x - c) 0) by lia.
  rewrite Hgrid. unfold val, Z.sub. rewrite inject_Z_plus, inject_Z_opp. ring.
Qed.

Lemma scale_to_spec base x s :
  wf x -> base <= exponent x -> scale_to base x = Some s ->
  s = mantissa x * 10 ^ (exponent x - base) /\ 0 <= s <= u256_max /\
  (inject_Z s * p10 base == val x)%Q.
Proof.
  intros Hx Hb. unfold scale_to. pose proof (wf_mantissa _ Hx).
  destruct (i64_checked_sub _ _) as [d|] eqn:E1; [|done].
  apply i64_checked_add_Some in E1 as [-> _]. rewrite Z.add_opp_r in *.
  unfold checked_pow. destruct (_ <=? _); [|done]. unfold checked_mul.
  destruct (_ <=? _) eqn:E3; [|done]. bool_to_prop. intros [= <-].
  pose proof (pow10_pos (exponent x - base) ltac:(lia)). split_and!; [done|apply Z.mul_nonneg_nonneg; lia|done|].
  unfold val. rewrite <- p10_shift by lia. by replace (base + _) with (exponent x) by lia.
Qed.

(** The exact difference rounds down: never more than the true one. *)
Lemma sub_exact_floor_spec x y z :
  wf x -> wf y -> sub_exact_floor x y = Some z ->
  wf z /\ (val z <= val x - val y)%Q /\
  (forall c, 0 <= c <= SAFE_FLOAT_MAX -> is_zero y = true \/ exponent y <= exponent x ->
     (val x - val y == inject_Z c * p10 (exponent x))%Q -> (val z == val x - val y)%Q).
Proof.
  intros Hx Hy. unfold sub_exact_floor. destruct (is_zero y) eqn:Hy0.
  { intros [= <-]. pose proof (val_is_zero y Hy0). split_and!; [done|lra|]. intros. lra. }
  destruct (is_zero x) eqn:Hx0; [done|].
  set (base := Z.min (exponent x) (exponent y)).
  destruct (scale_to base x) as [s1|] eqn:E1; [|done].
  destruct (scale_to base y) as [s2|] eqn:E2; [|done].
  apply scale_to_spec in E1 as (Hs1 & Hb1 & Hv1); [|done|lia].
  apply scale_to_spec in E2 as (Hs2 & Hb2 & Hv2); [|done|lia].
  unfold checked_sub. destruct (s2 <=? s1) eqn:E; [|done]. bool_to_prop. intros Hz.
  pose proof (wf_exponent _ Hx). pose proof (wf_exponent _ Hy).
  assert (Hbi : is_i64 base) by (unfold is_i64 in *; lia).
  assert (Hd : (inject_Z (s1 - s2) * p10 base == val x - val y)%Q).
  { unfold Z.sub. rewrite inject_Z_plus, inject_Z_opp, <- Hv1, <- Hv2. ring. }
  assert (Hm : 0 <= s1 - s2 <= u256_max) by lia. split_and!.
  - by eapply normalize_wf.
  - rewrite <- Hd. by apply normalize_le.
  - intros c Hc [?|Hle] Hval; [done|]. rewrite <- Hd.
    apply (normalize_exact (s1 - s2) base z Hm Hbi Hz c (exponent x - base)); [|lia..].
    apply (p10_inj _ _ base). rewrite Hd, Hval, <- p10_shift by lia.
    by replace (base + _) with (exponent x) by lia.
Qed.

Lemma sub_exact_floor_total x y :
  wf x -> wf y -> (val y <= val x)%Q -> exponent x - exponent y <= 30 ->
  exp_ok (2 ^ 62) x -> exp_ok (2 ^ 62) y -> is_Some (sub_exact_floor x y).
Proof.
  intros Hx Hy Hle Hgap Hbx Hby. unfold sub_exact_floor, exp_ok in *.
  pose proof (val_nonneg _ Hy). pose proof (wf_mantissa _ Hx). pose proof (wf_mantissa _ Hy).
  destruct (is_zero y) eqn:Hy0; [by eexists|].
  destruct (is_zero x) eqn:Hx0.
  { pose proof (val_pos y Hy Hy0). rewrite (val_is_zero x) in Hle by done. lra. }
  pose proof (exponent_le_of_val y x Hy Hx Hy0 Hle). rewrite Z.min_r by lia.
  assert (Hs : forall v, wf v -> 0 <= exponent v - exponent y <= 30 ->
    is_Some (scale_to (exponent y) v)).
  { intros v Hv Hd. pose proof (wf_mantissa _ Hv). unfold scale_to, i64_checked_sub.
    assert (He : i64_checked_add (exponent v) (- exponent y) = Some (exponent v + - exponent y)).
    { apply i64_checked_add_Some. unfold is_i64, i64_min, i64_max. lia. }
    rewrite He, Z.add_opp_r. unfold checked_pow, checked_mul.
    assert (10 ^ (exponent v - exponent y) <= 10 ^ 30) by (apply Z.pow_le_mono_r; lia).
    pose proof (pow10_pos (exponent v - exponent y) ltac:(lia)).
    rewrite (proj2 (Z.leb_le _ _)) by (sf_consts; lia).
    rewrite (proj2 (Z.leb_le _ _)) by (sf_consts; nia). by eexists. }
  destruct (Hs x Hx ltac:(lia)) as [s1 E1]. destruct (Hs y Hy ltac:(lia)) as [s2 E2].
  rewrite E1, E2.
  apply scale_to_spec in E1 as (_ & Hb1 & Hv1); [|done|lia].
  apply scale_to_spec in E2 as (_ & Hb2 & Hv2); [|done|lia].
  assert (s2 <= s1) by (apply (p10_le_inv _ _ (exponent y)); rewrite Hv1, Hv2; done).
  unfold checked_sub. rewrite (proj2 (Z.leb_le _ _)) by done.
  apply normalize_total; lia.
Qed.

(** [mul_div] rounds toward zero. *)
Lemma mul_div_spec x a b z :
  wf x -> wf a -> wf b -> mul_div x a b = Some z ->
  wf z /\ is_zero b = false /\ (val z * val b <= val x * val a)%Q.
Proof.
  intros Hx Ha Hb. unfold mul_div. pose proof (wf_mantissa _ Hx). pose proof (wf_mantissa _ Ha).
  destruct (mantissa b =? 0) eqn:Hb0; [done|].
  pose proof (wf_nonzero _ Hb Hb0) as Hmb. bool_to_prop.
  destruct (i64_checked_add _ _) as [e1|] eqn:E1; [|done].
  apply i64_checked_add_Some in E1 as [-> _].
  destruct (i64_checked_sub _ _) as [e2|] eqn:E2; [|done].
  apply i64_checked_add_Some in E2 as [-> Hi]. rewrite Z.add_opp_r in *.
  unfold checked_mul. rewrite (proj2 (Z.leb_le _ _)) by (sf_consts; nia). simpl.
  unfold checked_div. rewrite (proj2 (Z.eqb_neq _ _)) by (sf_consts; lia). simpl.
  set (q := mantissa x * mantissa a / mantissa b). intros Hz.
  assert (Hq : 0 <= q /\ q * mantissa b <= mantissa x * mantissa a).
  { split; [apply Z.div_pos; sf_consts; nia|]. rewrite Z.mul_comm. apply Z.mul_div_le.
    sf_consts. lia. }
  assert (Hqm : 0 <= q <= u256_max).
  { split; [lia|]. sf_consts. nia. }
  split_and!; [by eapply normalize_wf|by apply Z.eqb_neq|].
  pose proof (normalize_le q _ z Hqm Hi Hz) as Hle.
  pose proof (val_nonneg b Hb).
  apply Qle_trans with (inject_Z q * p10 (exponent x + exponent a - exponent b) * val b)%Q.
  { by apply Qmult_le_compat_r. }
  assert (Hp : (p10 (exponent x + exponent a - exponent b) * p10 (exponent b) ==
                p10 (exponent x) * p10 (exponent a))%Q).
  { rewrite <- !p10_add. by replace (_ - _ + _) with (exponent x + exponent a) by lia. }
  assert (Hl : (inject_Z q * p10 (exponent x + exponent a - exponent b) * val b ==
                inject_Z (q * mantissa b) * p10 (exponent x + exponent a))%Q).
  { unfold val. rewrite inject_Z_mult, p10_add, <- Hp. ring. }
  assert (Hr : (val x * val a ==
                inject_Z (mantissa x * mantissa a) * p10 (exponent x + exponent a))%Q).
  { unfold val. rewrite inject_Z_mult, p10_add. ring. }
  rewrite Hl, Hr. apply p10_le. lia.
Qed.

Lemma mul_div_exponent bx ba bd x a d z :
  wf x -> wf a -> wf d -> mul_div x a d = Some z ->
  exp_ok bx x -> exp_ok ba a -> exp_ok bd d -> exp_ok (bx + ba + bd + 57) z.
Proof.
  intros Hx Ha Hd Hz. destruct (mul_div_spec x a d z Hx Ha Hd Hz) as (Hwz & Hd0 & _).
  unfold mul_div in Hz. pose proof (wf_mantissa _ Hx). pose proof (wf_mantissa _ Ha).
  pose proof (wf_nonzero _ Hd Hd0) as Hmd. unfold is_zero in Hd0. rewrite Hd0 in Hz.
  destruct (i64_checked_add _ _) as [e1|] eqn:E1; [|done].
  apply i64_checked_add_Some in E1 as [-> _].
  destruct (i64_checked_sub _ _) as [e2|] eqn:E2; [|done].
  apply i64_checked_add_Some in E2 as [-> Hi].
  unfold checked_mul in Hz. rewrite (proj2 (Z.leb_le _ _)) in Hz by (sf_consts; nia).
  unfold checked_div in Hz. simpl in Hz. rewrite Hd0 in Hz. simpl in Hz.
  unfold exp_ok. intros. set (q := mantissa x * mantissa a / mantissa d) in *.
  destruct (Z.eq_dec q 0) as [Hq0|Hq0].
  { rewrite Hq0 in Hz. injection Hz as <-. simpl. lia. }
  assert (Hqm : 0 <= q <= u256_max).
  { split; [apply Z.div_pos; sf_consts; nia|].
    apply Z.le_trans with (mantissa x * mantissa a); [|sf_consts; nia].
    apply Z.div_le_upper_bound; sf_consts; nia. }
  pose proof (normalize_exponent q _ z Hqm Hi Hz Hq0). lia.
Qed.

(** [gt] is the order of the values, on normal forms. *)
Lemma gt_iff x y : wf x -> wf y -> gt x y = true <-> (val y < val x)%Q.
Proof.
  intros Hx Hy. unfold gt.
  pose proof (wf_mantissa _ Hx) as Hmx. pose proof (wf_mantissa _ Hy) as Hmy.
  pose proof (val_nonneg _ Hx). pose proof (val_nonneg _ Hy).
  destruct (is_zero x) eqn:Hx0.
  { rewrite (val_is_zero x) by done. split; [done|]. intros. lra. }
  destruct (is_zero y) eqn:Hy0.
  { rewrite (val_is_zero y) by done. pose proof (val_pos x Hx Hx0). done. }
  destruct (exponent x =? exponent y) eqn:E; bool_to_prop.
  { unfold val. rewrite E, Z.ltb_lt. split; [apply p10_lt|]. intros Hlt. apply Z.nle_gt.
    intros Hle. pose proof (p10_le _ _ (exponent y) Hle). lra. }
  pose proof (wf_nonzero _ Hx Hx0). pose proof (wf_nonzero _ Hy Hy0).
  pose proof (wf_exponent _ Hx). pose proof (wf_exponent _ Hy).
  unfold i64_saturating_sub, saturating_mul.
  destruct (exponent y <? exponent x) eqn:E'; bool_to_prop.
  - pose proof (val_lt_exponent y x Hy Hx Hx0 E').
    destruct (1 <? _); [done|]. rewrite (proj2 (Z.ltb_lt _ _)) by (sf_consts; lia). done.
  - pose proof (val_lt_exponent x y Hx Hy Hy0 ltac:(lia)).
    destruct (1 <? _); [split; [done|intros; lra]|].
    rewrite (proj2 (Z.ltb_ge _ _)) by (sf_consts; lia). split; [done|intros; lra].
Qed.

Lemma Qfloor_unique q n :
  (inject_Z n <= q)%Q -> (q < inject_Z (n + 1))%Q -> Qfloor q = n.
Proof.
  intros H1 H2. pose proof (Qfloor_le q). pose proof (Qlt_floor q).
  apply Z.le_antisymm; apply Z.lt_succ_r; rewrite <- Z.add_1_r; rewrite Zlt_Qlt; lra.
Qed.

Lemma Qfloor_scaled m d :
  0 <= d -> Qfloor (inject_Z m * p10 (- d)) = m / 10 ^ d.
Proof.
  intros Hd. pose proof (pow10_pos d Hd) as Hp.
  assert (Hs : forall n, (inject_Z n == inject_Z (n * 10 ^ d) * p10 (- d))%Q).
  { intros n. rewrite <- p10_shift by done. rewrite Z.add_opp_diag_l. unfold p10. simpl. ring. }
  apply Qfloor_unique; [rewrite (Hs (m / 10 ^ d))|rewrite (Hs (m / 10 ^ d + 1))].
  - apply p10_le. rewrite Z.mul_comm. by apply Z.mul_div_le.
  - apply p10_lt. rewrite Z.mul_comm. rewrite Z.add_1_r. by apply Z.mul_succ_div_gt.
Qed.

(** The conversion to [u64] is the floor, saturated. *)
Lemma to_u64_floor x : wf x -> to_u64 x = Z.min u64_max (Qfloor (val x)).
Proof.
  intros Hx. unfold to_u64. pose proof (wf_mantissa _ Hx) as Hm.
  destruct (is_zero x) eqn:Hx0.
  { rewrite (wf_is_zero x Hx Hx0). reflexivity. }
  pose proof (wf_nonzero _ Hx Hx0). pose proof (wf_exponent _ Hx) as Hi.
  destruct (exponent x =? 0) eqn:E0; bool_to_prop.
  { f_equal. symmetry. apply Qfloor_unique; unfold val; rewrite E0; unfold p10; simpl;
      rewrite Qmult_1_r; [apply Qle_refl|]. rewrite <- Zlt_Qlt. lia. }
  destruct (0 <? exponent x) eqn:E1; bool_to_prop.
  - assert (Hc : 1 <= cappow10 (Z.abs (exponent x))).
    { unfold cappow10. destruct (_ <? _) eqn:E3; [done|]. destruct (_ =? _); [done|].
      unfold checked_pow. pose proof (pow10_pos (Z.abs (exponent x)) ltac:(lia)).
      destruct (_ <=? _) eqn:E2; simpl; [lia|]. exfalso. bool_to_prop.
      assert (10 ^ Z.abs (exponent x) <= u256_max); [|lia].
      apply Z.le_trans with (10 ^ 22); [|by apply Z.leb_le].
      apply Z.pow_le_mono_r; [lia|].
      unfold saturating_add in *. sf_consts. lia. }
    unfold saturating_mul.
    assert (Hf : u64_max <= Qfloor (val x)).
    { rewrite <- (Qfloor_Z u64_max). apply Qfloor_resp_le. unfold val.
      replace (exponent x) with (0 + exponent x) by lia. rewrite p10_shift by lia.
      rewrite <- (Qmult_1_r (inject_Z u64_max)). change 1%Q with (p10 0). apply p10_le.
      pose proof (pow10_pos (exponent x) ltac:(lia)). sf_consts. nia. }
    rewrite (Z.min_l _ _ Hf), (proj2 (Z.eqb_neq _ _)) by (sf_consts; nia).
    apply Z.min_l. sf_consts. nia.
  - rewrite div_cappow10_raw by lia. replace (Z.abs (exponent x)) with (- exponent x) by lia.
    assert (Hf : Qfloor (val x) = mantissa x / 10 ^ (- exponent x)).
    { rewrite <- Qfloor_scaled by lia. unfold val. by rewrite Z.opp_involutive. }
    rewrite Hf. destruct (_ =? 0) eqn:E2; [|done]. bool_to_prop. by rewrite E2.
Qed.

Lemma to_u64_le x : wf x -> (inject_Z (to_u64 x) <= val x)%Q.
Proof.
  intros Hx. rewrite (to_u64_floor x Hx). eapply Qle_trans; [|apply Qfloor_le].
  rewrite <- Zle_Qle. lia.
Qed.

Lemma to_u64_range x : wf x -> is_u64 (to_u64 x).
Proof.
  intros Hx. rewrite (to_u64_floor x Hx). split; [|lia]. apply Z.min_glb; [done|].
  rewrite <- (Qfloor_Z 0). apply Qfloor_resp_le. by apply val_nonneg.
Qed.

(** [div] rounds toward zero. *)
Lemma div_spec x a z :
  wf x -> wf a -> div x a = Some z ->
  wf z /\ is_zero a = false /\ (val z * val a <= val x)%Q.
Proof.
  intros Hx Ha. unfold div. pose proof (wf_mantissa _ Hx). pose proof (val_nonneg a Ha).
  destruct (_ || _)%bool eqn:E; [done|]. bool_to_prop.
  unfold checked_mul. rewrite (proj2 (Z.leb_le _ _)) by (sf_consts; lia).
  unfold checked_div. destruct (mantissa a =? 0) eqn:Ha0; [done|].
  pose proof (wf_nonzero _ Ha Ha0) as Hma. bool_to_prop.
  set (q := mantissa x * SAFE_FLOAT_MAX / mantissa a).
  set (e := exponent x - exponent a - SAFE_FLOAT_MAX_EXP). intros Hz.
  assert (Hq : 0 <= q /\ q * mantissa a <= mantissa x * SAFE_FLOAT_MAX).
  { split; [apply Z.div_pos; sf_consts; lia|]. rewrite Z.mul_comm. apply Z.mul_div_le.
    sf_consts. lia. }
  assert (Hqm : 0 <= q <= u256_max) by (split; [lia|sf_consts; nia]).
  assert (He : is_i64 e) by (unfold is_i64; lia).
  split_and!; [by eapply normalize_wf|by apply Z.eqb_neq|].
  pose proof (normalize_le q e z Hqm He Hz) as Hle.
  apply Qle_trans with (inject_Z q * p10 e * val a)%Q; [by apply Qmult_le_compat_r|].
  assert (Hl : (inject_Z q * p10 e * val a ==
                inject_Z (q * mantissa a) * p10 (exponent x - 21))%Q).
  { replace (exponent x - 21) with (e + exponent a) by (unfold e; sf_consts; lia).
    unfold val. rewrite inject_Z_mult, p10_add. ring. }
  assert (Hr : (val x == inject_Z (mantissa x * SAFE_FLOAT_MAX) * p10 (exponent x - 21))%Q).
  { unfold val. change SAFE_FLOAT_MAX with (10 ^ 21). rewrite <- p10_shift by lia.
    by replace (exponent x - 21 + 21) with (exponent x) by lia. }
  rewrite Hl, Hr. apply p10_le. lia.
Qed.

Lemma default_wf o : (forall x, o = Some x -> wf x) -> wf (default zero o).
Proof. destruct o; simpl; auto. Qed.

Lemma default_wf' d o : wf d -> (forall x, o = Some x -> wf x) -> wf (default d o).
Proof. destruct o; simpl; auto. Qed.

Lemma default_val_le o q :
  (0 <= q)%Q -> (forall x, o = Some x -> (val x <= q)%Q) -> (val (default zero o) <= q)%Q.
Proof. intros Hq H. destruct o; simpl; [by apply H|]. by rewrite val_zero. Qed.

Lemma new_default m : is_u64 m -> wf (default zero (new m 0)) /\
  (val (default zero (new m 0)) == inject_Z m)%Q.
Proof. intros Hm. destruct (new_u64 m Hm) as (x & -> & Hx & Hv & _). done. Qed.

(** The legacy [U64F64] shares convert to normal forms, never above their value. *)
Lemma from_u64f64_spec bits :
  0 <= bits < 2 ^ 128 ->
  wf (from_u64f64 bits) /\ (val (from_u64f64 bits) * inject_Z (2 ^ 64) <= inject_Z bits)%Q.
Proof.
  intros Hb. unfold from_u64f64. destruct (bits =? 0) eqn:E0.
  { bool_to_prop. subst. split; [done|]. discriminate. }
  set (int := Z.shiftr bits 64). set (frac := Z.land bits 18446744073709551615).
  assert (Hi : int = bits / 2 ^ 64) by (unfold int; by rewrite Z.shiftr_div_pow2).
  assert (Hf : frac = bits mod 2 ^ 64) by (unfold frac; by rewrite <- Z.land_ones).
  pose proof (Z.mod_pos_bound bits (2 ^ 64) ltac:(lia)) as Hmod.
  assert (Hdiv : 0 <= bits / 2 ^ 64 < 2 ^ 64)
    by (split; [apply Z.div_pos; lia|apply Z.div_lt_upper_bound; lia]).
  destruct (new_default int) as [Hwi Hvi]; [unfold is_u64, u64_max; lia|].
  destruct (new_default frac) as [Hwf Hvf]; [unfold is_u64, u64_max; lia|].
  destruct (new_total (Z.shiftl 1 64) 0) as [two64 Ht]; [done|lia|].
  destruct (new_spec (Z.shiftl 1 64) 0 two64 ltac:(done) ltac:(done) Ht) as (Hwt & Hvt & _). rewrite Ht.
  change (default zero (Some two64)) with two64.
  set (si := default zero (new int 0)) in *. set (sf := default zero (new frac 0)) in *.
  set (fr := default zero (div sf two64)).
  assert (Hvt' : (val two64 == inject_Z (2 ^ 64))%Q).
  { rewrite Hvt. change (p10 0) with 1%Q. change (Z.shiftl 1 64) with (2 ^ 64).
    apply Qmult_1_r. }
  assert (Hfr : wf fr /\ (val fr * inject_Z (2 ^ 64) <= inject_Z frac)%Q).
  { unfold fr. destruct (div sf two64) as [z|] eqn:Ez; simpl.
    - destruct (div_spec _ _ _ Hwf Hwt Ez) as (? & _ & Hle). rewrite Hvt', Hvf in Hle. done.
    - split; [done|]. rewrite val_zero, Qmult_0_l. change 0%Q with (inject_Z 0).
      rewrite <- Zle_Qle. lia. }
  destruct Hfr as [Hwfr Hvfr].
  assert (Htot : (inject_Z bits == inject_Z int * inject_Z (2 ^ 64) + inject_Z frac)%Q).
  { rewrite <- inject_Z_mult, <- inject_Z_plus. f_equiv. rewrite Hi, Hf, Z.mul_comm.
    by apply Z.div_mod. }
  destruct (add si fr) as [z|] eqn:Ez; simpl.
  - destruct (add_spec _ _ _ Hwi Hwfr Ez) as (Hwz & _ & _ & Hle). split; [done|].
    apply Qle_trans with ((val si + val fr) * inject_Z (2 ^ 64))%Q.
    { by apply Qmult_le_compat_r. }
    rewrite Hvi, Qmult_plus_distr_l, Htot. by apply Qplus_le_r.
  - split; [done|]. rewrite val_zero, Qmult_0_l. change 0%Q with (inject_Z 0).
    rewrite <- Zle_Qle. lia.
Qed.

(** ** The contract of the arithmetic *)

(** Normalising any 256-bit mantissa, at any exponent at
    least 200 away from the ends of [i64], succeeds; the result is in normal
    form, never exceeds the exact value, and loses less than one part in
    [10^20] of it. *)
Theorem normalize_correct m e :
  0 <= m <= u256_max -> - 2 ^ 63 + 200 <= e <= 2 ^ 63 - 200 ->
  exists z, normalize m e = Some z /\ wf z /\
    (val z <= inject_Z m * p10 e)%Q /\
    ((inject_Z m * p10 e - val z) * inject_Z (10 ^ 20) <= val z)%Q.
Proof.
  intros Hm He. destruct (normalize_total m e Hm He) as [z Hz]. exists z.
  assert (Hi : is_i64 e) by (unfold is_i64, i64_min, i64_max; lia).
  destruct (normalize_spec m e z Hm Hi Hz) as (Hwf & _ & k & Hk & Hv & Hlt & _).
  pose proof (pow10_pos k ltac:(lia)) as Hp. pose proof (Z.div_mod m (10 ^ k) ltac:(lia)) as Hdm.
  pose proof (Z.mod_pos_bound m (10 ^ k) Hp) as Hmod.
  assert (Hloss : (m - m / 10 ^ k * 10 ^ k) * 10 ^ 20 <= m / 10 ^ k * 10 ^ k).
  { destruct (Z.eq_dec k 0) as [->|Hk0]; [rewrite Z.pow_0_r, Z.div_1_r; lia|].
    assert (Hq : 10 ^ 20 <= m / 10 ^ k).
    { specialize (Hlt ltac:(lia)). replace (10 ^ k) with (10 ^ (k - 1) * 10)
        by (rewrite Z.mul_comm, <- Z.pow_succ_r by lia; f_equal; lia).
      pose proof (pow10_pos (k - 1) ltac:(lia)).
      rewrite <- Z.div_div by lia. apply Z.div_le_lower_bound; [lia|]. sf_consts. lia. }
    nia. }
  split_and!; [done..| |].
  - rewrite Hv. apply p10_le. lia.
  - rewrite Hv. apply (p10_le _ _ e) in Hloss. unfold Z.sub in Hloss.
    rewrite inject_Z_mult, inject_Z_plus, inject_Z_opp in Hloss. lra.
Qed.

Lemma normalize_correct_witness :
  normalize u256_max 0 = Some (mkSafeFloat 115792089237316195423 57) /\
  exists z, normalize u256_max 0 = Some z /\ wf z.
Proof.
  split; [by vm_compute|].
  destruct (normalize_correct u256_max 0) as (z & Hz & Hwf & _).
  - sf_consts. lia.
  - lia.
  - exact (ex_intro _ z (conj Hz Hwf)).
Defined.

(** [gt] compares the values of any two numbers in normal
    form exactly, however far apart their exponents are. *)
Theorem gt_decides_order x y :
  wf x -> wf y -> (gt x y = true <-> (val y < val x)%Q) /\
    (gt x y = false /\ gt y x = false -> (val x == val y)%Q).
Proof.
  intros Hx Hy. split; [by apply gt_iff|]. intros [H1 H2].
  assert (~ (val y < val x)%Q) by (rewrite <- gt_iff by done; congruence).
  assert (~ (val x < val y)%Q) by (rewrite <- gt_iff by done; congruence). lra.
Qed.

Lemma gt_decides_order_witness :
  gt (from_u64 3) (from_u64 2) = true /\ (val (from_u64 2) < val (from_u64 3))%Q.
Proof.
  assert (H2 : wf (from_u64 2)) by (right; vm_compute; intuition discriminate).
  assert (H3 : wf (from_u64 3)) by (right; vm_compute; intuition discriminate).
  split; [by vm_compute|]. by apply (gt_decides_order _ _ H3 H2); vm_compute.
Defined.

(** Every [u64] survives the conversion to [SafeFloat] and back,
    and reading any number back is flooring it, saturated at [u64::MAX]. *)
Theorem u64_roundtrip v x :
  is_u64 v -> wf x ->
  to_u64 (from_u64 v) = v /\ to_u64 x = Z.min u64_max (Qfloor (val x)).
Proof.
  intros Hv Hx. split; [|by apply to_u64_floor]. unfold from_u64.
  destruct (new_u64 v Hv) as (y & -> & Hy & Hvy & _). cbn [default from_option id].
  rewrite to_u64_floor, Hvy, Qfloor_Z by done. unfold is_u64 in Hv. lia.
Qed.

Lemma u64_roundtrip_witness : to_u64 (from_u64 u64_max) = u64_max.
Proof. apply (u64_roundtrip u64_max zero); [unfold is_u64, u64_max; lia|apply wf_zero]. Defined.
