(* ===== verification/SharePool.v ===== *)
(** * SharePool: proportional ownership of a shared integer value

    Models [trait SharePoolDataOperations] and [struct SharePool] of
    src/primitives/share-pool/src/lib.rs.  A pool holds a shared value [V] (a
    [u64], in rao), a denominator [D] and one share per key; the value of a key
    is [floor (V * share / D)], capped at [V].

    The pool is written against a storage interface, so the trait is the class
    [SharePoolDataOperations], its documented contract is the class
    [SharePoolLaws], and every theorem here is proved for any storage that meets
    the contract.  AlphaShares.v discharges it for the chain's storage.

    [backed] is the accounting invariant the source states ("the denominator is
    the sum of all stored member shares ... [sum(shares) <= D] can never be
    violated"): every duplicate-free set of members owns at most [D].  The main
    results are that every pool operation preserves it, and that the values
    quoted to any set of members never exceed the value the pool holds. *)

From Stdlib Require Import ZArith QArith Qpower Qround Lqa Lia.
From stdpp Require Import base list numbers.
From S2P Require Import Prelude SafeFloat.

(** ** The storage interface *)

Class SharePoolDataOperations (K S : Type) : Type := {
  get_shared_value : S -> Z;
  get_share : S -> K -> SafeFloat;
  try_get_share : S -> K -> option SafeFloat;
  get_denominator : S -> SafeFloat;
  set_shared_value : S -> Z -> S;
  set_share : S -> K -> SafeFloat -> S;
  set_denominator : S -> SafeFloat -> S;
}.

(** The contract.  [ops_ok n s]: the storage is well formed and can still
    absorb [n] openings or closings of the pool. *)
Class SharePoolLaws (K S : Type) `{SharePoolDataOperations K S} : Type := {
  ops_ok : nat -> S -> Prop;
  ops_ok_weaken n s : ops_ok (Datatypes.S n) s -> ops_ok n s;
  ops_ok_value n s : ops_ok n s -> is_u64 (get_shared_value s);
  ops_ok_denominator n s : ops_ok n s -> wf (get_denominator s);
  ops_ok_share n s k : ops_ok n s -> wf (get_share s k);
  get_share_try s k : get_share s k = default zero (try_get_share s k);

  set_value_ok n s v : ops_ok n s -> is_u64 v -> ops_ok n (set_shared_value s v);
  set_value_value s v : is_u64 v -> get_shared_value (set_shared_value s v) = v;
  set_value_denominator s v : get_denominator (set_shared_value s v) = get_denominator s;
  set_value_share s v k : get_share (set_shared_value s v) k = get_share s k;

  set_share_ok n s k x : ops_ok n s -> wf x -> ops_ok n (set_share s k x);
  set_share_value s k x : get_shared_value (set_share s k x) = get_shared_value s;
  set_share_denominator s k x : get_denominator (set_share s k x) = get_denominator s;
  set_share_eq s k x : wf x -> get_share (set_share s k x) k = x;
  set_share_ne s k k' x : k <> k' -> get_share (set_share s k x) k' = get_share s k';

  set_denominator_ok n s d : ops_ok (Datatypes.S n) s -> wf d -> ops_ok n (set_denominator s d);
  set_denominator_value s d : get_shared_value (set_denominator s d) = get_shared_value s;
  set_denominator_eq s d : wf d -> get_denominator (set_denominator s d) = d;
  (** Closing retires every share recorded for the pool. *)
  set_denominator_close n s d k :
    ops_ok (Datatypes.S n) s -> is_zero (get_denominator s) = false -> is_zero d = true ->
    get_share (set_denominator s d) k = zero;
  (** Moving the denominator of an open pool leaves the shares alone. *)
  set_denominator_move s d k :
    is_zero (get_denominator s) = is_zero d -> get_share (set_denominator s d) k = get_share s k;
  (** Opening never brings a share back. *)
  set_denominator_open n s d k :
    ops_ok (Datatypes.S n) s -> is_zero (get_denominator s) = true -> is_zero d = false ->
    get_share (set_denominator s d) k = get_share s k \/
    get_share (set_denominator s d) k = zero;
}.

(** ** The pool *)

Section pool.
  Context {K S : Type} `{SharePoolDataOperations K S}.
  Implicit Types (s : S) (key : K).

Definition has_members s : bool := negb (is_zero (get_denominator s)).

(** Returns the flag and the storage after the call. *)
Definition try_credit_sole_member s key (amount : Z) : bool * S :=
  if amount =? 0 then (true, s)
  else
    let value := get_shared_value s in
    if value =? 0 then (false, s)
    else
      let denominator := get_denominator s in
      if is_zero denominator || negb (bool_decide (try_get_share s key = Some denominator))
      then (false, s)
      else
        match checked_add u64_max value amount with
        | None => (false, s)
        | Some new_value => (true, set_shared_value s new_value)
        end.

Definition try_get_value_from_parts (shared_value : Z) (current_share denominator : SafeFloat)
    : option Z :=
  match new shared_value 0 with
  | None => None
  | Some shared_value_sf =>
      match mul_div shared_value_sf current_share denominator with
      | None => None
      | Some z => Some (Z.min (to_u64 z) shared_value)
      end
  end.

Definition get_value s key : Z :=
  default 0 (try_get_value_from_parts (get_shared_value s) (get_share s key) (get_denominator s)).

Definition get_value_from_shares s (current_share : SafeFloat) : Z :=
  default 0 (try_get_value_from_parts (get_shared_value s) current_share (get_denominator s)).

Definition try_get_value s key : option Z :=
  match try_get_share s key with
  | Some _ => Some (get_value s key)
  | None => None
  end.

(** The shared value moved by a signed update, saturating at both ends. *)
Definition moved_value (shared_value update : Z) : Z :=
  if 0 <=? update then saturating_add u64_max shared_value update
  else saturating_sub shared_value (- update).

Definition update_value_for_all s (update : Z) : S :=
  set_shared_value s (moved_value (get_shared_value s) update).

Definition get_shares_per_update (update shared_value : Z) (denominator : SafeFloat) : SafeFloat :=
  let shared_value := default zero (new shared_value 0) in
  let update_sf := default zero (new (Z.abs update) 0) in
  default zero (mul_div update_sf denominator shared_value).

Definition sim_update_value_for_one s (update : Z) : bool :=
  let shared_value := get_shared_value s in
  let denominator := get_denominator s in
  if (mantissa denominator =? 0) || ((0 <? update) && (shared_value =? 0)) then true
  else negb (is_zero (get_shares_per_update update shared_value denominator)).

Definition withdrawal_drains_member (magnitude shared_value : Z)
    (current_share denominator : SafeFloat) (updated_shared_value : Z)
    (new_current_share new_denominator : SafeFloat) : bool :=
  let quoted_before := try_get_value_from_parts shared_value current_share denominator in
  if bool_decide (quoted_before = Some magnitude) then true
  else bool_decide (try_get_value_from_parts updated_shared_value new_current_share
                      new_denominator = Some 0).

(** The deposit branch of [update_value_for_one]: the denominator moves first and
    the member gains at most what the denominator really gained. *)
Definition deposit_shares (denominator current_share shares_per_update : SafeFloat)
    : SafeFloat * SafeFloat :=
  let new_denominator := default denominator (add denominator shares_per_update) in
  let denominator_gain :=
    match sub_exact_floor new_denominator denominator with
    | Some gain => gain
    | None => default zero (sub new_denominator denominator)
    end in
  let new_current_share := default current_share (add current_share denominator_gain) in
  (new_denominator, new_current_share).

(** The withdrawal branch: the member loses at least what the denominator lost. *)
Definition withdraw_shares (denominator current_share shares_per_update : SafeFloat)
    : SafeFloat * SafeFloat :=
  let new_denominator := default denominator (sub denominator shares_per_update) in
  let denominator_loss :=
    match sub_exact_floor denominator new_denominator with
    | Some loss => loss
    | None => default zero (sub denominator new_denominator)
    end in
  if gt denominator_loss current_share then
    (default zero (sub denominator current_share), zero)
  else
    (new_denominator, default zero (sub current_share denominator_loss)).

(** What is written back: closing an emptied pool and sweeping the dust of a
    drained member. *)
Definition settle_shares (update magnitude shared_value updated_shared_value : Z)
    (denominator current_share new_denominator new_current_share : SafeFloat)
    : SafeFloat * SafeFloat :=
  if (update <? 0) && (updated_shared_value =? 0) then (zero, zero)
  else if (update <? 0) && negb (is_zero new_current_share) &&
          withdrawal_drains_member magnitude shared_value current_share denominator
            updated_shared_value new_current_share new_denominator then
    match sub new_denominator new_current_share with
    | Some denominator_without_dust => (denominator_without_dust, zero)
    | None => (new_denominator, new_current_share)
    end
  else (new_denominator, new_current_share).

(** The branch of [update_value_for_one] for a pool that has members. *)
Definition update_open_pool s key (update shared_value : Z) (denominator : SafeFloat) : S :=
  let current_share := get_share s key in
  let shares_per_update := get_shares_per_update update shared_value denominator in
  let '(new_denominator, new_current_share) :=
    if 0 <? update then deposit_shares denominator current_share shares_per_update
    else withdraw_shares denominator current_share shares_per_update in
  let updated_shared_value := moved_value shared_value update in
  let '(new_denominator, new_current_share) :=
    settle_shares update (Z.abs update) shared_value updated_shared_value denominator
      current_share new_denominator new_current_share in
  set_share (set_denominator s new_denominator) key new_current_share.

Definition update_value_for_one s key (update : Z) : S :=
  let shared_value := get_shared_value s in
  let denominator := get_denominator s in
  let magnitude := Z.abs update in
  let '(s, denominator) :=
    if (0 <? update) && (shared_value =? 0) && negb (is_zero denominator)
    then (set_denominator s zero, zero)
    else (s, denominator) in
  let s :=
    if is_zero denominator then
      if 0 <? update then
        let update_float := default zero (new magnitude 0) in
        set_share (set_denominator s update_float) key update_float
      else s
    else update_open_pool s key update shared_value denominator in
  update_value_for_all s update.

(** ** The accounting invariant *)

Definition share_val s key : Q := val (get_share s key).

Definition backed s : Prop :=
  forall keys, NoDup keys -> (Qsum (share_val s) keys <= val (get_denominator s))%Q.
End pool.

(** ** Values of the parts *)

Lemma get_shares_per_update_spec update V D :
  is_u64 V -> Z.abs update <= 2 ^ 63 -> wf D -> is_zero D = false ->
  let spu := get_shares_per_update update V D in
  wf spu /\ (val spu * inject_Z V <= inject_Z (Z.abs update) * val D)%Q /\
  (V = 0 -> spu = zero) /\
  (forall b, 0 <= b -> exp_ok b D -> exp_ok (b + 171) spu).
Proof.
  intros HV Hu HD HD0. unfold get_shares_per_update. pose proof (val_nonneg D HD).
  destruct (new_u64 V HV) as (v & -> & Hv & Hvv & Hv0 & Hve).
  destruct (new_u64 (Z.abs update)) as (u & -> & Hwu & Hvu & _ & Hue).
  { unfold is_u64, u64_max. lia. }
  simpl. destruct (mul_div u D v) as [z|] eqn:Ez; simpl.
  - destruct (mul_div_spec _ _ _ _ Hwu HD Hv Ez) as (Hz & Hvnz & Hle).
    rewrite Hvv, Hvu in Hle. split_and!; try done.
    + intros ->. by rewrite (proj2 Hv0) in Hvnz.
    + intros b Hb HDb. pose proof (mul_div_exponent 57 b 57 _ _ _ _ Hwu HD Hv Ez Hue HDb Hve).
      unfold exp_ok in *. lia.
  - split_and!; try done.
    + rewrite val_zero, Qmult_0_l. apply Qmult_le_0_compat; [|done].
      change 0%Q with (inject_Z 0). rewrite <- Zle_Qle. lia.
    + intros b Hb _. unfold exp_ok. simpl. lia.
Qed.

(** The value quoted for a share: [v * D <= V * share], at most [V]. *)
Lemma try_get_value_from_parts_spec V share D v :
  is_u64 V -> wf share -> wf D -> try_get_value_from_parts V share D = Some v ->
  0 <= v <= V /\ (inject_Z v * val D <= inject_Z V * val share)%Q.
Proof.
  intros HV Hs HD. unfold try_get_value_from_parts.
  destruct (new_u64 V HV) as (x & -> & Hx & Hvx & _).
  destruct (mul_div x share D) as [z|] eqn:Ez; [|done]. intros [= <-].
  destruct (mul_div_spec _ _ _ _ Hx Hs HD Ez) as (Hz & _ & Hle).
  pose proof (to_u64_range z Hz). pose proof (val_nonneg D HD). unfold is_u64 in *. split; [lia|].
  rewrite Hvx in Hle. eapply Qle_trans; [|exact Hle].
  apply Qmult_le_compat_r; [|done]. eapply Qle_trans; [|by apply to_u64_le].
  rewrite <- Zle_Qle. lia.
Qed.

Lemma moved_value_range V update : is_u64 V -> is_u64 (moved_value V update).
Proof.
  unfold is_u64, moved_value, saturating_add, saturating_sub.
  destruct (_ <=? _) eqn:E; bool_to_prop; lia.
Qed.

Section branches.
  Context (D share spu : SafeFloat) (b : Z).
  Context (HD : wf D) (Hs : wf share) (Hspu : wf spu) (HD0 : is_zero D = false).
  Context (Hle : (val share <= val D)%Q).
  Context (Hb : 0 <= b <= 2 ^ 61) (HbD : exp_ok b D) (Hbs : exp_ok (b + 171) spu).

(** A deposit: the share moves by at most what the denominator moves.  The
    premise is the price: [spu] is at most [2^63] times [D]. *)
Lemma deposit_shares_spec D' share' :
  (val spu <= inject_Z (2 ^ 63) * val D)%Q ->
  deposit_shares D share spu = (D', share') ->
  wf D' /\ wf share' /\ (val D <= val D')%Q /\ (val D' <= val D + val spu)%Q /\
  (val share <= val share')%Q /\
  (val share' - val share <= val D' - val D)%Q /\ exp_ok (b + 228) D'.
Proof.
  intros Hprice. unfold deposit_shares. pose proof (val_nonneg _ Hspu).
  pose proof (val_pos D HD HD0).
  assert (HD' : exists D1, default D (add D spu) = D1 /\ wf D1 /\ (val D <= val D1)%Q /\
    (val D1 <= val D + val spu)%Q /\ exp_ok (b + 228) D1).
  { eexists; split; [reflexivity|]. destruct (add D spu) as [z|] eqn:Ez; simpl.
    - destruct (add_spec _ _ _ HD Hspu Ez) as (? & ? & _ & ?). split_and!; try done.
      assert (exp_ok (b + 171) D) by (unfold exp_ok in *; lia).
      pose proof (add_exponent (b + 171) _ _ _ HD Hspu Ez). unfold exp_ok in *. lia.
    - split_and!; [done|lra|lra|]. unfold exp_ok in *. lia. }
  destruct HD' as (D1 & -> & HD1 & Hge & Hup & Hexp).
  assert (HD10 : is_zero D1 = false).
  { destruct (is_zero D1) eqn:E; [|done]. rewrite (val_is_zero D1 E) in Hge. lra. }
  assert (Hgap : exponent D1 - exponent D <= 21).
  { apply exponent_gap; try done. eapply Qle_trans; [exact Hup|].
    change (inject_Z (10 ^ 20)) with (100000000000000000000 # 1)%Q.
    change (inject_Z (2 ^ 63)) with (9223372036854775808 # 1)%Q in Hprice. lra. }
  destruct (sub_exact_floor_total D1 D) as [gain Hgain]; try done; try lia;
    [unfold exp_ok in *; lia..|].
  rewrite Hgain. destruct (sub_exact_floor_spec _ _ _ HD1 HD Hgain) as (Hg & Hgle & _).
  pose proof (val_nonneg _ Hg). intros [= <- <-]. split_and!; try done.
  - apply default_wf'; [done|]. intros x Hx. by destruct (add_spec _ _ _ Hs Hg Hx).
  - destruct (add share gain) as [z|] eqn:Ez; simpl; [|lra].
    by destruct (add_spec _ _ _ Hs Hg Ez) as (_ & ? & _).
  - destruct (add share gain) as [z|] eqn:Ez; simpl; [|lra].
    destruct (add_spec _ _ _ Hs Hg Ez) as (_ & _ & _ & ?). lra.
Qed.

(** A withdrawal: the share loses at least what the denominator loses. *)
(** The denominator after the withdrawal, which stays on the grid of the old one. *)
Lemma denominator_left :
  exists D1 c, default D (sub D spu) = D1 /\ wf D1 /\ 0 <= c <= mantissa D /\
    (val D - val D1 == inject_Z c * p10 (exponent D))%Q /\ (val D1 <= val D)%Q /\
    (is_zero D1 = false -> exponent D - 21 <= exponent D1 <= exponent D) /\ exp_ok (b + 57) D1.
Proof.
  pose proof (wf_mantissa _ HD).
  destruct (sub_total D spu HD Hspu HD0) as [z Ez]; [unfold exp_ok in *; lia|].
  rewrite Ez. simpl. destruct (sub_spec _ _ _ HD Hspu Ez) as (Hz & _ & c & Hc & Hv).
  pose proof (sub_exponent _ _ _ HD Hspu Ez) as Hexp. exists z, c. split_and!; try done; try lia.
  - rewrite Hv. unfold val, Z.sub. rewrite inject_Z_plus, inject_Z_opp. ring.
  - exact (sub_le _ _ _ HD Hspu Ez).
  - destruct (is_zero z) eqn:E; [|specialize (Hexp eq_refl); unfold exp_ok in *; lia].
    rewrite (wf_is_zero z Hz E). unfold exp_ok. simpl. lia.
Qed.

Lemma loss_exact D1 c :
  wf D1 -> 0 <= c <= mantissa D -> (val D - val D1 == inject_Z c * p10 (exponent D))%Q -> (val D1 <= val D)%Q ->
  (is_zero D1 = false -> exponent D - 21 <= exponent D1 <= exponent D) -> exp_ok (b + 57) D1 ->
  exists loss, sub_exact_floor D D1 = Some loss /\ wf loss /\ (val loss == val D - val D1)%Q.
Proof.
  intros HD1 Hc Hgrid HD1le HD1exp Hb1. pose proof (wf_mantissa _ HD). destruct (is_zero D1) eqn:E.
  - exists D. unfold sub_exact_floor. rewrite E, (val_is_zero D1 E). split_and!; [done..|ring].
  - destruct (sub_exact_floor_total D D1) as [loss Hl]; try done;
      [specialize (HD1exp eq_refl); lia|unfold exp_ok in *; lia..|].
    exists loss. destruct (sub_exact_floor_spec _ _ _ HD HD1 Hl) as (? & _ & He').
    split_and!; try done. by apply (He' c); [lia|right; apply HD1exp|].
Qed.

(** What is left of the share is exact, because the loss is on its grid. *)
Lemma share_left loss c z :
  wf loss -> (val loss <= val share)%Q -> (val loss == inject_Z c * p10 (exponent D))%Q -> sub share loss = Some z ->
  (val z == val share - val loss)%Q.
Proof.
  intros Hwl Hls Hgrid Ez. destruct (is_zero share) eqn:Es.
  - pose proof (val_nonneg _ Hwl). rewrite (val_is_zero share Es) in *.
    destruct (sub_spec _ _ _ Hs Hwl Ez) as (Hz & ? & _).
    pose proof (sub_le _ _ _ Hs Hwl Ez). rewrite (val_is_zero share Es) in *.
    pose proof (val_nonneg _ Hz). lra.
  - pose proof (exponent_le_of_val _ _ Hs HD Es Hle) as Hese.
    apply (sub_exact_on_grid _ _ _ (c * 10 ^ (exponent D - exponent share)) Hs Hwl Ez); [|done].
    rewrite Hgrid, <- p10_shift by lia. by replace (exponent share + _) with (exponent D) by lia.
Qed.

Lemma withdraw_shares_spec D' share' :
  withdraw_shares D share spu = (D', share') ->
  wf D' /\ wf share' /\ (val D' <= val D)%Q /\ (val share' <= val share)%Q /\
  (val share' - val share <= val D' - val D)%Q /\ exp_ok (b + 57) D'.
Proof.
  unfold withdraw_shares. pose proof (val_nonneg _ Hs) as Hs'.
  destruct denominator_left as (D1 & c & -> & HD1 & Hc & Hgrid & HD1le & HD1exp & Hb1).
  destruct (loss_exact D1 c HD1 Hc Hgrid HD1le HD1exp Hb1) as (loss & -> & Hwl & Hvl).
  destruct (gt loss share) eqn:Egt.
  - destruct (sub_total D share HD Hs HD0) as [z Ez]; [unfold exp_ok in *; lia|].
    rewrite Ez. simpl. intros [= <- <-].
    destruct (sub_spec _ _ _ HD Hs Ez) as (Hz & Hge & _).
    pose proof (sub_le _ _ _ HD Hs Ez). rewrite val_zero. split_and!; try done; try lra.
    destruct (is_zero z) eqn:E; [rewrite (wf_is_zero z Hz E); unfold exp_ok; simpl; lia|].
    pose proof (sub_exponent _ _ _ HD Hs Ez E). unfold exp_ok in *. lia.
  - assert (Hls : (val loss <= val share)%Q).
    { apply Qnot_lt_le. intros Hlt. by rewrite (proj2 (gt_iff loss share Hwl Hs) Hlt) in Egt. }
    intros [= <- <-]. destruct (sub share loss) as [z|] eqn:Ez; simpl.
    2: { rewrite val_zero. split_and!; try done; lra. }
    assert (Hv : (val z == val share - val loss)%Q) by (apply (share_left loss c); [done|done|by rewrite Hvl|done]).
    destruct (sub_spec _ _ _ Hs Hwl Ez) as (Hz & _). pose proof (val_nonneg _ Hwl).
    split_and!; try done; lra.
Qed.
End branches.

Lemma val_le_0 x : wf x -> (val x <= 0)%Q -> x = zero.
Proof.
  intros Hx Hle. apply wf_is_zero; [done|]. destruct (is_zero x) eqn:E; [done|].
  pose proof (val_pos x Hx E). lra.
Qed.

Lemma settle_shares_spec update mag V V' D share D1 s1 D2 s2 b :
  wf D -> wf share -> wf D1 -> wf s1 -> is_zero D1 = false \/ s1 = zero ->
  (val s1 - val share <= val D1 - val D)%Q -> exp_ok b D1 -> 0 <= b <= 2 ^ 61 ->
  settle_shares update mag V V' D share D1 s1 = (D2, s2) ->
  wf D2 /\ wf s2 /\ exp_ok (b + 57) D2 /\
  ((D2 = zero /\ s2 = zero /\ update < 0 /\ V' = 0) \/
   (val s2 - val share <= val D2 - val D)%Q) /\
  (0 <= update -> D2 = D1 /\ s2 = s1).
Proof.
  intros HD Hs HD1 Hs1 Hnz Hrel Hb1 Hb. unfold settle_shares.
  destruct ((update <? 0) && (V' =? 0)) eqn:E1; bool_to_prop.
  { intros [= <- <-]. split_and!; [done..|unfold exp_ok; simpl; lia| |lia]. left. by split_and!. }
  assert (Hkeep : (D1, s1) = (D2, s2) -> wf D2 /\ wf s2 /\ exp_ok (b + 57) D2 /\
    ((D2 = zero /\ s2 = zero /\ update < 0 /\ V' = 0) \/
     (val s2 - val share <= val D2 - val D)%Q) /\ (0 <= update -> D2 = D1 /\ s2 = s1)).
  { intros [= <- <-]. split_and!; try done; [unfold exp_ok in *; lia|by right]. }
  destruct (_ && _ && _) eqn:E2; [|done]. bool_to_prop.
  destruct (sub D1 s1) as [d|] eqn:Ed; [|done]. intros [= <- <-].
  destruct (sub_spec _ _ _ HD1 Hs1 Ed) as (Hd & Hge & _). split_and!; [done..| | |lia].
  - destruct (is_zero d) eqn:E; [rewrite (wf_is_zero d Hd E); unfold exp_ok; simpl; lia|].
    pose proof (sub_exponent _ _ _ HD1 Hs1 Ed E). unfold exp_ok in *. lia.
  - right. rewrite val_zero. lra.
Qed.

Section invariant.
  Context {K S : Type} `{EqDecision K} `{L : SharePoolLaws K S}.
  Implicit Types (s : S) (key : K).

(** The pool's invariant: storage in order with [n] openings and closings
    left, shares backed by the denominator, exponent within [b]. *)
Definition pool_inv (n : nat) (b : Z) s : Prop :=
  ops_ok n s /\ backed s /\ exp_ok b (get_denominator s).

Lemma ops_ok_weaken2 n s : ops_ok (2 + n) s -> ops_ok n s.
Proof. intros. by do 2 apply ops_ok_weaken. Qed.

Lemma backed_share n s key :
  ops_ok n s -> backed s -> (val (get_share s key) <= val (get_denominator s))%Q.
Proof.
  intros Hok Hb. specialize (Hb [key] (NoDup_singleton _)). unfold Qsum, share_val in Hb.
  simpl in Hb. lra.
Qed.

Lemma backed_closed n s key :
  ops_ok n s -> backed s -> is_zero (get_denominator s) = true -> get_share s key = zero.
Proof.
  intros Hok Hb Hz. apply val_le_0; [by eapply ops_ok_share|].
  rewrite <- (val_is_zero _ Hz). by eapply backed_share.
Qed.

Lemma backed_all_zero n s :
  ops_ok n s -> (forall k, get_share s k = zero) -> backed s.
Proof.
  intros Hok Hz keys _. rewrite Qsum_zero.
  - apply val_nonneg. by eapply ops_ok_denominator.
  - intros k _. unfold share_val. rewrite Hz. apply val_zero.
Qed.

(** Writing a denominator and one share back to an open pool. *)
Lemma backed_write n s key d x :
  ops_ok (Datatypes.S n) s -> backed s -> is_zero (get_denominator s) = false -> wf d -> wf x ->
  (d = zero /\ x = zero) \/
    (val x - val (get_share s key) <= val d - val (get_denominator s))%Q ->
  let s' := set_share (set_denominator s d) key x in
  ops_ok n s' /\ backed s' /\ get_denominator s' = d /\
  get_shared_value s' = get_shared_value s.
Proof.
  intros Hok Hb Hnz Hd Hx Hrel s'.
  assert (Hok1 : ops_ok n (set_denominator s d)) by by apply set_denominator_ok.
  assert (Hok' : ops_ok n s') by by apply set_share_ok.
  assert (Hden : get_denominator s' = d).
  { unfold s'. rewrite set_share_denominator. by apply set_denominator_eq. }
  split_and!; [done| |done|].
  2: { unfold s'. by rewrite set_share_value, set_denominator_value. }
  destruct (is_zero d) eqn:Ed.
  - assert (x = zero) as ->.
    { destruct Hrel as [[_ ?]|Hrel]; [done|]. apply val_le_0; [done|].
      rewrite (val_is_zero d Ed) in Hrel. pose proof (backed_share _ _ key Hok Hb). lra. }
    apply (backed_all_zero n); [done|]. intros k. unfold s'.
    destruct (decide (key = k)) as [<-|]; [by apply set_share_eq|].
    rewrite set_share_ne by done. by eapply set_denominator_close.
  - destruct Hrel as [[-> _]|Hrel]; [done|]. intros keys. rewrite Hden. revert keys.
    apply (Qsum_bound_update (share_val s) _ key (val (get_denominator s)) (val d)); [| | |done].
    + intros k. apply val_nonneg. by eapply ops_ok_share.
    + intros k Hk. unfold share_val, s'. rewrite set_share_ne, set_denominator_move by congruence.
      reflexivity.
    + unfold share_val, s'. by rewrite set_share_eq.
Qed.

(** Opening a closed pool: the first key gets all. *)
Lemma backed_open n s key x :
  ops_ok (Datatypes.S n) s -> (forall k, get_share s k = zero) -> wf x ->
  is_zero (get_denominator s) = true -> is_zero x = false ->
  let s' := set_share (set_denominator s x) key x in
  ops_ok n s' /\ backed s' /\ get_denominator s' = x /\
  get_shared_value s' = get_shared_value s.
Proof.
  intros Hok Hz Hx HDz Hxz s'.
  assert (Hok1 : ops_ok n (set_denominator s x)) by by apply set_denominator_ok.
  assert (Hok' : ops_ok n s') by by apply set_share_ok.
  assert (Hden : get_denominator s' = x).
  { unfold s'. rewrite set_share_denominator. by apply set_denominator_eq. }
  split_and!; [done| |done|].
  2: { unfold s'. by rewrite set_share_value, set_denominator_value. }
  assert (Hz1 : forall k, get_share (set_denominator s x) k = zero).
  { intros k. destruct (set_denominator_open n s x k Hok HDz Hxz) as [-> | ->]; auto. }
  intros keys. rewrite Hden. revert keys.
  apply (Qsum_bound_update (fun _ => 0)%Q _ key 0 (val x)).
  - intros k. apply val_nonneg. by eapply ops_ok_share.
  - intros k Hk. unfold share_val, s'. rewrite set_share_ne, Hz1 by congruence. apply val_zero.
  - unfold share_val, s'. rewrite set_share_eq by done. lra.
  - intros ks _. rewrite Qsum_zero by reflexivity. apply Qle_refl.
Qed.

Lemma update_value_for_all_inv n b s update :
  pool_inv n b s -> pool_inv n b (update_value_for_all s update).
Proof.
  intros (Hok & Hb & He). unfold update_value_for_all, pool_inv.
  rewrite set_value_denominator. split_and!; [|intros keys|done].
  - apply set_value_ok; [done|]. apply moved_value_range. by eapply ops_ok_value.
  - rewrite set_value_denominator. intros Hnd. rewrite (Qsum_ext _ (share_val s)); [by apply Hb|].
    intros k _. unfold share_val. by rewrite set_value_share.
Qed.
End invariant.

Section operations.
  Context {K S : Type} `{EqDecision K} `{L : SharePoolLaws K S}.
  Implicit Types (s : S) (key : K).

(** A deposit or withdrawal in an open pool, before the value moves. *)
(** The shares of a deposit, priced at the old rate, are bounded and do not dilute. *)
Lemma shares_bound update V D spu :
  wf D -> wf spu -> 0 < update <= 2 ^ 63 -> 0 < V ->
  (val spu * inject_Z V <= inject_Z update * val D)%Q -> (val spu <= inject_Z (2 ^ 63) * val D)%Q.
Proof.
  intros HD Hspu Hu HV Hprice. pose proof (val_nonneg _ Hspu). pose proof (val_nonneg _ HD).
  apply Qle_trans with (val spu * inject_Z V)%Q.
  - rewrite <- (Qmult_1_r (val spu)) at 1. change 1%Q with (inject_Z 1). rewrite !(Qmult_comm (val spu)).
    apply Qmult_le_compat_r; [|done]. rewrite <- Zle_Qle. lia.
  - eapply Qle_trans; [exact Hprice|]. apply Qmult_le_compat_r; [|done]. rewrite <- Zle_Qle. lia.
Qed.

Lemma price_kept update V D1 D spu :
  0 < V -> (val spu * inject_Z V <= inject_Z update * val D)%Q -> (val D1 <= val D + val spu)%Q ->
  (inject_Z V * val D1 <= inject_Z (V + update) * val D)%Q.
Proof.
  intros HV Hprice Hup. rewrite inject_Z_plus. apply Qle_trans with (inject_Z V * (val D + val spu))%Q; [|lra].
  rewrite !(Qmult_comm (inject_Z V)). apply Qmult_le_compat_r; [done|].
  change 0%Q with (inject_Z 0). rewrite <- Zle_Qle. lia.
Qed.

Lemma update_open_pool_spec n b s key update V D :
  pool_inv (1 + n) b s -> 0 <= b <= 2 ^ 60 -> Z.abs update <= 2 ^ 63 ->
  V = get_shared_value s -> D = get_denominator s -> is_zero D = false ->
  (0 < update -> 0 < V) ->
  let s' := update_open_pool s key update V D in
  pool_inv n (b + 300) s' /\ get_shared_value s' = V /\
  (forall other, other <> key -> is_zero (get_denominator s') = false ->
     get_share s' other = get_share s other) /\
  (0 < update -> is_zero (get_denominator s') = false /\ (val D <= val (get_denominator s'))%Q /\
     (inject_Z V * val (get_denominator s') <= inject_Z (V + update) * val D)%Q /\
     (val (get_share s key) <= val (get_share s' key))%Q).
Proof.
  assert (Hother : forall d x other, other <> key -> is_zero (get_denominator s) = false ->
    is_zero d = false -> get_share (set_share (set_denominator s d) key x) other =
    get_share s other).
  { intros. rewrite set_share_ne, set_denominator_move by congruence. done. }
  intros (Hok & Hb & He) Hbb Hu -> -> HD0 HV s'. subst s'. unfold update_open_pool.
  set (V := get_shared_value s) in *. set (D := get_denominator s) in *.
  set (share := get_share s key).
  assert (HVr : is_u64 V) by by eapply ops_ok_value.
  assert (HD : wf D) by by eapply ops_ok_denominator.
  assert (Hs : wf share) by by eapply ops_ok_share.
  assert (Hle : (val share <= val D)%Q) by by eapply backed_share.
  destruct (get_shares_per_update_spec update V D HVr Hu HD HD0) as (Hspu & Hprice & _ & Hexp).
  set (spu := get_shares_per_update update V D) in *.
  specialize (Hexp b ltac:(lia) He). pose proof (val_pos D HD HD0).
  destruct (0 <? update) eqn:Eu; bool_to_prop.
  - specialize (HV Eu). rewrite (Z.abs_eq update) in * by lia.
    assert (Hp : (val spu <= inject_Z (2 ^ 63) * val D)%Q) by (by apply (shares_bound update V)).
    destruct (deposit_shares D share spu) as [D1 s1] eqn:Edep.
    destruct (deposit_shares_spec D share spu b HD Hs Hspu HD0 ltac:(lia) He Hexp D1 s1 Hp Edep)
      as (HD1 & Hs1 & Hge & Hup & Hsge & Hrel & Hb1).
    destruct (settle_shares _ _ _ _ _ _ D1 s1) as [D2 s2] eqn:Eset.
    assert (HD10 : is_zero D1 = false).
    { destruct (is_zero D1) eqn:E; [|done]. rewrite (val_is_zero _ E) in Hge. lra. }
    destruct (settle_shares_spec _ _ _ _ _ _ _ _ _ _ (b + 228) HD Hs HD1 Hs1 (or_introl HD10)
      Hrel Hb1 ltac:(lia) Eset) as (_ & _ & _ & _ & Hsame).
    destruct (Hsame ltac:(lia)) as [-> ->].
    destruct (backed_write n s key D1 s1 Hok Hb HD0 HD1 Hs1 (or_intror Hrel))
      as (Hok' & Hb' & Hden & Hval).
    split_and!; [split_and!; [done..|]|done| |].
    + rewrite Hden. unfold exp_ok in *. lia.
    + rewrite Hden. intros. by apply Hother.
    + intros _. rewrite Hden, set_share_eq by done. split_and!; [done..| |done].
      by apply (price_kept update V D1 D spu).
  - destruct (withdraw_shares D share spu) as [D1 s1] eqn:Ewd.
    destruct (withdraw_shares_spec D share spu b HD Hs Hspu HD0 Hle ltac:(lia) He D1 s1 Ewd)
      as (HD1 & Hs1 & Hge & Hsle & Hrel & Hb1).
    destruct (settle_shares _ _ _ _ _ _ D1 s1) as [D2 s2] eqn:Eset.
    assert (Hnz : is_zero D1 = false \/ s1 = zero).
    { destruct (is_zero D1) eqn:E; [|by left]. right. apply val_le_0; [done|].
      rewrite (val_is_zero _ E) in Hrel. lra. }
    destruct (settle_shares_spec _ _ _ _ _ _ _ _ _ _ (b + 57) HD Hs HD1 Hs1 Hnz
      Hrel Hb1 ltac:(lia) Eset) as (HD2 & Hs2 & Hb2 & Hcase & _).
    destruct (backed_write n s key D2 s2 Hok Hb HD0 HD2 Hs2) as (Hok' & Hb' & Hden & Hval).
    { destruct Hcase as [(? & ? & _)|?]; [by left|by right]. }
    split_and!; [split_and!; [done..|]|done| |intros; lia].
    + rewrite Hden. unfold exp_ok in *. lia.
    + rewrite Hden. intros. by apply Hother.
Qed.

(** Retiring the shares of a pool that has no value. *)
Lemma close_pool_spec n s :
  ops_ok (Datatypes.S n) s -> is_zero (get_denominator s) = false ->
  let s' := set_denominator s zero in
  ops_ok n s' /\ (forall k, get_share s' k = zero) /\ get_denominator s' = zero /\
  get_shared_value s' = get_shared_value s.
Proof.
  intros Hok Hz s'. split_and!.
  - by apply set_denominator_ok.
  - intros k. by eapply set_denominator_close.
  - by apply set_denominator_eq.
  - apply set_denominator_value.
Qed.

Lemma open_pool_inv n b s key update :
  ops_ok (Datatypes.S n) s -> (forall k, get_share s k = zero) ->
  is_zero (get_denominator s) = true -> 0 < update <= 2 ^ 63 -> 0 <= b ->
  let x := default zero (new (Z.abs update) 0) in
  pool_inv n (b + 300) (set_share (set_denominator s x) key x).
Proof.
  intros Hok Hz HD0 Hu Hb. rewrite Z.abs_eq by lia.
  destruct (new_u64 update) as (x & -> & Hx & _ & Hx0 & Hxe);
    [unfold is_u64, u64_max; lia|]. simpl.
  assert (is_zero x = false) by (destruct (is_zero x); [pose proof (proj1 Hx0 eq_refl); lia|done]).
  destruct (backed_open n s key x) as (? & ? & Hden & _); try done.
  split_and!; [done..|]. rewrite Hden. unfold exp_ok in *. lia.
Qed.

Lemma update_value_for_one_inv n b s key update :
  pool_inv (2 + n) b s -> 0 <= b <= 2 ^ 60 -> Z.abs update <= 2 ^ 63 ->
  pool_inv n (b + 300) (update_value_for_one s key update).
Proof.
  intros (Hok & Hb & He) Hbb Hu. unfold update_value_for_one.
  destruct ((0 <? update) && (get_shared_value s =? 0) && negb (is_zero (get_denominator s)))
    eqn:E1; bool_to_prop.
  { destruct (close_pool_spec (1 + n) s Hok ltac:(done)) as (Hok1 & Hz1 & HD1 & _).
    apply update_value_for_all_inv. change (is_zero zero) with true. rewrite (proj2 (Z.ltb_lt _ _)) by done.
    apply open_pool_inv; try done; [by rewrite HD1|lia..]. }
  apply update_value_for_all_inv. destruct (is_zero (get_denominator s)) eqn:HD0.
  - destruct (0 <? update) eqn:Eu; bool_to_prop.
    + apply open_pool_inv; try lia; [by apply ops_ok_weaken| |done].
      intros k. by eapply backed_closed.
    + split_and!; [by apply ops_ok_weaken2|done|unfold exp_ok in *; lia].
  - apply update_open_pool_spec; try done.
    + split_and!; [by apply ops_ok_weaken|done..].
    + intros Hpos. assert (is_u64 (get_shared_value s)) as [? _] by by eapply ops_ok_value.
      rewrite (proj2 (Z.ltb_lt _ _)) in E1 by done. simpl in E1. rewrite andb_true_r in E1.
      bool_to_prop. lia.
Qed.
End operations.

(** ** Properties *)

Section properties.
  Context {K S : Type} `{EqDecision K} `{L : SharePoolLaws K S}.
  Implicit Types (s : S) (key : K).


Lemma update_open_pool_value s key update V D :
  get_shared_value (update_open_pool s key update V D) = get_shared_value s.
Proof.
  unfold update_open_pool. destruct (if 0 <? update then _ else _) as [D1 s1].
  destruct (settle_shares _ _ _ _ _ _ _ _) as [D2 s2].
  by rewrite set_share_value, set_denominator_value.
Qed.

(** One entry of a pool's history. *)
Inductive pool_op : Type :=
| UpdateOne (key : K) (update : Z)
| UpdateAll (update : Z)
| CreditSole (key : K) (amount : Z).

Definition run_op s (op : pool_op) : S :=
  match op with
  | UpdateOne key update => update_value_for_one s key update
  | UpdateAll update => update_value_for_all s update
  | CreditSole key amount => snd (try_credit_sole_member s key amount)
  end.

(** The updates are [i64] and the credits [u64]. *)
Definition op_in_range (op : pool_op) : Prop :=
  match op with
  | UpdateOne _ update | UpdateAll update => Z.abs update <= 2 ^ 63
  | CreditSole _ amount => is_u64 amount
  end.

Lemma set_value_inv n b s v :
  pool_inv n b s -> is_u64 v -> pool_inv n b (set_shared_value s v).
Proof.
  intros (Hok & Hb & He) Hv. unfold pool_inv. rewrite set_value_denominator.
  split_and!; [by apply set_value_ok|intros keys Hnd|done].
  rewrite set_value_denominator, (Qsum_ext _ (share_val s)); [by apply Hb|].
  intros k _. unfold share_val. by rewrite set_value_share.
Qed.

Lemma try_credit_sole_member_inv n b s key amount :
  pool_inv n b s -> is_u64 amount ->
  pool_inv n b (snd (try_credit_sole_member s key amount)).
Proof.
  intros Hinv Ha. unfold try_credit_sole_member.
  destruct (amount =? 0); [done|]. destruct (_ =? 0); [done|].
  destruct (_ || _)%bool; [done|]. unfold checked_add.
  destruct (_ <=? _) eqn:E; [|done]. bool_to_prop. apply set_value_inv; [done|].
  destruct Hinv as (Hok & _). pose proof (ops_ok_value _ _ Hok). unfold is_u64 in *. lia.
Qed.

Lemma pool_inv_weaken n b b' s :
  pool_inv (2 + n) b s -> b <= b' -> pool_inv n b' s.
Proof.
  intros (Hok & Hb & He) Hle. split_and!; [by apply ops_ok_weaken2|done|].
  unfold exp_ok in *. lia.
Qed.

Lemma run_op_inv n b s op :
  pool_inv (2 + n) b s -> 0 <= b <= 2 ^ 60 -> op_in_range op ->
  pool_inv n (b + 300) (run_op s op).
Proof.
  intros Hinv Hb Hop. destruct op as [key u|u|key a]; simpl in *.
  - by apply update_value_for_one_inv.
  - apply (pool_inv_weaken n b); [|lia]. by apply update_value_for_all_inv.
  - apply (pool_inv_weaken n b); [|lia]. by apply try_credit_sole_member_inv.
Qed.

Lemma run_ops_inv ops : forall n b s,
  pool_inv (2 * length ops + n) b s -> 0 <= b -> b + 300 * Z.of_nat (length ops) <= 2 ^ 60 ->
  Forall op_in_range ops ->
  pool_inv n (b + 300 * Z.of_nat (length ops)) (foldl run_op s ops).
Proof.
  induction ops as [|op ops IH]; intros n b s Hinv Hb Hlen Hall; simpl in *.
  - by rewrite Z.add_0_r.
  - apply list.Forall_cons in Hall as [Hop Hall].
    replace (b + 300 * _) with (b + 300 + 300 * Z.of_nat (length ops)) by lia.
    apply IH; [|lia..|done]. apply run_op_inv; [|lia|done].
    simpl. by rewrite Nat.add_succ_r in Hinv.
Qed.

Lemma quote_bound n s key :
  ops_ok n s ->
  (inject_Z (get_value s key) * val (get_denominator s) <=
   inject_Z (get_shared_value s) * share_val s key)%Q /\ 0 <= get_value s key.
Proof.
  intros Hok. unfold get_value, share_val.
  assert (HV : is_u64 (get_shared_value s)) by by eapply ops_ok_value.
  assert (HD : wf (get_denominator s)) by by eapply ops_ok_denominator.
  assert (Hs : wf (get_share s key)) by by eapply ops_ok_share.
  destruct (try_get_value_from_parts _ _ _) as [v|] eqn:E; simpl.
  - destruct (try_get_value_from_parts_spec _ _ _ _ HV Hs HD E). split; [done|lia].
  - split; [|done]. rewrite Qmult_0_l. apply Qmult_le_0_compat; [|by apply val_nonneg].
    change 0%Q with (inject_Z 0). rewrite <- Zle_Qle. apply HV.
Qed.

Lemma get_value_closed s key :
  is_zero (get_denominator s) = true -> get_value s key = 0.
Proof.
  intros Hz. unfold get_value, try_get_value_from_parts, mul_div.
  unfold is_zero in Hz. rewrite Hz. by destruct (new _ 0).
Qed.

(** The values quoted to distinct members add up to at most the pool's value. *)
Lemma quotes_le_value n s keys :
  ops_ok n s -> backed s -> NoDup keys ->
  foldr (fun k acc => get_value s k + acc) 0 keys <= get_shared_value s.
Proof.
  intros Hok Hb Hnd. assert (HV : is_u64 (get_shared_value s)) by by eapply ops_ok_value.
  destruct (is_zero (get_denominator s)) eqn:HD0.
  { clear Hnd. enough (foldr (fun k acc => get_value s k + acc) 0 keys = 0) as ->
      by apply HV.
    induction keys as [|k keys IH]; simpl; [done|]. by rewrite get_value_closed, IH. }
  pose proof (val_pos _ (ops_ok_denominator _ _ Hok) HD0) as HDpos.
  rewrite Zle_Qle, <- Qsum_inject.
  apply (Qmult_le_r _ _ (val (get_denominator s))); [done|].
  rewrite Qmult_comm, <- Qsum_mult_l.
  apply Qle_trans with (Qsum (fun k => inject_Z (get_shared_value s) * share_val s k)%Q keys).
  - apply Qsum_le. intros k _. rewrite Qmult_comm. by eapply quote_bound.
  - rewrite Qsum_mult_l, !(Qmult_comm (inject_Z (get_shared_value s))).
    apply Qmult_le_compat_r; [by apply Hb|].
    change 0%Q with (inject_Z 0). rewrite <- Zle_Qle. apply HV.
Qed.
End properties.

Section ownership.
  Context {K S : Type} `{EqDecision K} `{L : SharePoolLaws K S}.
  Implicit Types (s : S) (key : K).

(** Whoever holds the whole denominator is quoted the whole value. *)
Lemma sole_owner_value V D :
  is_u64 V -> wf D -> is_zero D = false -> exp_ok (2 ^ 61) D ->
  try_get_value_from_parts V D D = Some V.
Proof.
  intros HV HD HD0 He. unfold try_get_value_from_parts.
  destruct (new_u64 V HV) as (x & -> & Hx & Hvx & _ & Hxe).
  pose proof (wf_mantissa _ Hx). pose proof (wf_nonzero _ HD HD0). unfold mul_div, exp_ok in *.
  unfold is_zero in HD0. rewrite HD0.
  assert (Ha : i64_checked_add (exponent x) (exponent D) = Some (exponent x + exponent D)).
  { apply i64_checked_add_Some. unfold is_i64, i64_min, i64_max. lia. }
  assert (Hb : i64_checked_sub (exponent x + exponent D) (exponent D) = Some (exponent x)).
  { apply i64_checked_add_Some. unfold is_i64, i64_min, i64_max. lia. }
  rewrite Ha, Hb. unfold checked_mul. rewrite (proj2 (Z.leb_le _ _)) by (sf_consts; nia).
  cbn [default from_option]. unfold checked_div. rewrite HD0. cbn [default from_option id].
  rewrite Z.div_mul by (sf_consts; lia).
  assert (Hm : 0 <= mantissa x <= u256_max) by (sf_consts; lia).
  destruct (normalize_total (mantissa x) (exponent x) Hm ltac:(lia)) as [z Hz]. rewrite Hz.
  assert (Hi : is_i64 (exponent x)) by by apply wf_exponent.
  assert (Hwz : wf z) by by eapply normalize_wf.
  assert (Hvz : (val z == inject_Z V)%Q).
  { rewrite <- Hvx. apply (normalize_exact _ _ z Hm Hi Hz (mantissa x) 0); lia. }
  f_equal. rewrite (to_u64_floor z Hwz), Hvz, Qfloor_Z. unfold is_u64 in HV. lia.
Qed.

Lemma withdraw_drained n b s key v :
  pool_inv (1 + n) b s -> 0 <= b <= 2 ^ 60 -> is_zero (get_denominator s) = false ->
  get_value s key = v -> 0 < v <= 2 ^ 63 ->
  get_share (update_open_pool s key (- v) (get_shared_value s) (get_denominator s)) key = zero.
Proof.
  intros (Hok & Hb & He) Hbb HD0 Hv Hpos. unfold update_open_pool.
  set (V := get_shared_value s) in *. set (D := get_denominator s) in *.
  set (share := get_share s key).
  assert (HVr : is_u64 V) by by eapply ops_ok_value.
  assert (HD : wf D) by by eapply ops_ok_denominator.
  assert (Hs : wf share) by by eapply ops_ok_share.
  assert (Hle : (val share <= val D)%Q) by by eapply backed_share.
  destruct (get_shares_per_update_spec (- v) V D HVr ltac:(lia) HD HD0) as (Hspu & _ & _ & _).
  rewrite (proj2 (Z.ltb_ge _ _)) by lia. set (spu := get_shares_per_update _ _ _) in *.
  destruct (withdraw_shares D share spu) as [D1 s1] eqn:Ewd.
  destruct (withdraw_shares_spec D share spu b HD Hs Hspu HD0 Hle ltac:(lia) He D1 s1 Ewd)
    as (HD1 & Hs1 & _ & _ & Hrel & Hb1).
  rewrite Z.abs_opp, Z.abs_eq by lia. unfold settle_shares.
  rewrite (proj2 (Z.ltb_lt (- v) 0)) by lia. rewrite !andb_true_l.
  destruct (moved_value V (- v) =? 0); [by apply set_share_eq|].
  destruct (is_zero s1) eqn:E1.
  { simpl. rewrite set_share_eq by done. by apply wf_is_zero. }
  assert (HD10 : is_zero D1 = false).
  { destruct (is_zero D1) eqn:E; [|done]. rewrite (val_is_zero _ E) in Hrel.
    pose proof (val_pos _ Hs1 E1). lra. }
  assert (Hq : try_get_value_from_parts V share D = Some v).
  { unfold get_value in Hv. fold V D share in Hv.
    destruct (try_get_value_from_parts V share D); simpl in Hv; [by subst|lia]. }
  unfold withdrawal_drains_member. rewrite Hq, bool_decide_eq_true_2 by done. simpl.
  destruct (sub_total D1 s1 HD1 Hs1 HD10) as [d ->]; [unfold exp_ok in *; lia|].
  by apply set_share_eq.
Qed.

Lemma update_value_for_one_open s key update :
  is_zero (get_denominator s) = false -> ~ (0 < update /\ get_shared_value s = 0) ->
  update_value_for_one s key update =
  update_value_for_all (update_open_pool s key update (get_shared_value s) (get_denominator s))
    update.
Proof.
  intros HD0 Hn. unfold update_value_for_one. rewrite HD0.
  destruct ((0 <? update) && (get_shared_value s =? 0) && negb false) eqn:E; bool_to_prop;
    [tauto|]. by rewrite HD0.
Qed.

(** (C21) Along every history of deposits, withdrawals,
    pool-wide updates and sole-member credits from a closed pool, the shares of
    any set of distinct members never exceed the denominator, and the values
    quoted to them never exceed the value the pool holds: no rounding of
    SafeFloat lets members withdraw more than is there.  The history may be as
    long as [2^50] operations, which keeps exponents away from the [i64] ends. *)
Theorem share_pool_accounting (ops : list pool_op) (n : nat) s0 :
  ops_ok (2 * length ops + n) s0 -> is_zero (get_denominator s0) = true ->
  (forall key, get_share s0 key = zero) -> Z.of_nat (length ops) <= 2 ^ 50 ->
  Forall op_in_range ops ->
  let s := foldl run_op s0 ops in
  forall keys, NoDup keys ->
    (Qsum (share_val s) keys <= val (get_denominator s))%Q /\
    foldr (fun key acc => get_value s key + acc) 0 keys <= get_shared_value s.
Proof.
  intros Hok HD0 Hz Hlen Hall s keys Hnd.
  assert (Hinv : pool_inv (2 * length ops + n) 0 s0).
  { split_and!; [done|by eapply backed_all_zero|].
    rewrite (wf_is_zero _ (ops_ok_denominator _ _ Hok) HD0). unfold exp_ok. simpl. lia. }
  destruct (run_ops_inv ops n 0 s0 Hinv ltac:(lia) ltac:(lia) Hall) as (Hok' & Hb & _).
  split; [by apply Hb|by eapply quotes_le_value].
Qed.


(** Withdrawing exactly the quoted value of a
    position removes its share, however the arithmetic rounded: no dust is left
    for a later pool-wide update to revive. *)
Theorem full_exit_leaves_no_share n b s key :
  pool_inv (2 + n) b s -> 0 <= b <= 2 ^ 60 -> is_zero (get_denominator s) = false ->
  0 < get_value s key <= i64_max ->
  let s' := update_value_for_one s key (- get_value s key) in
  get_share s' key = zero /\ get_shared_value s' = get_shared_value s - get_value s key.
Proof.
  intros (Hok & Hb & He) Hbb HD0 Hv s'. unfold s', i64_max in *.
  rewrite update_value_for_one_open by (done || lia). unfold update_value_for_all.
  rewrite set_value_share, update_open_pool_value.
  pose proof (ops_ok_value _ _ Hok) as HV.
  pose proof (quotes_le_value _ s [key] Hok Hb (NoDup_singleton _)) as Hq. simpl in Hq. split.
  - apply (withdraw_drained n b); try done; [|lia]. split_and!; [by apply ops_ok_weaken|done..].
  - unfold moved_value, saturating_sub. rewrite (proj2 (Z.leb_gt _ _)) by lia.
    rewrite set_value_value; unfold is_u64 in *; lia.
Qed.

(** When the sole-member credit takes its fast
    path, no share and no denominator is written, the pool's value grows by
    exactly the amount, and the member is quoted all of it. *)
Theorem credit_sole_member_owns_all n b s key amount s' :
  pool_inv n b s -> b <= 2 ^ 61 -> 0 < amount ->
  try_credit_sole_member s key amount = (true, s') ->
  get_shared_value s' = get_shared_value s + amount /\
  get_value s' key = get_shared_value s' /\
  get_denominator s' = get_denominator s /\
  (forall k, get_share s' k = get_share s k).
Proof.
  intros (Hok & Hb & He) Hbb Ha. unfold try_credit_sole_member.
  pose proof (ops_ok_value _ _ Hok) as HV.
  rewrite (proj2 (Z.eqb_neq _ _)) by lia. destruct (get_shared_value s =? 0); [done|].
  destruct (_ || _)%bool eqn:E; [done|]. bool_to_prop. unfold checked_add.
  destruct (_ <=? _) eqn:E1; [|done]. intros [= <-]. bool_to_prop.
  assert (Hr : is_u64 (get_shared_value s + amount)) by (unfold is_u64 in *; lia).
  unfold get_value. rewrite set_value_value, set_value_denominator, set_value_share by done.
  rewrite (get_share_try s key). rewrite H1. simpl.
  split_and!; [done| |done|intros; by rewrite set_value_share].
  rewrite sole_owner_value; [done..|by eapply ops_ok_denominator|done|].
  unfold exp_ok in *. lia.
Qed.
End ownership.

(** ** Frame: what an update can touch *)

Section frame.
  Context {K S : Type} `{EqDecision K} `{L : SharePoolLaws K S}.
  Implicit Types (s : S) (key : K).

(** An update of one member is a composition of the three setters, the share
    setter at that member only. *)
Lemma update_value_for_one_ind (P : S -> Prop) key update :
  (forall s v, P s -> P (set_shared_value s v)) ->
  (forall s x, P s -> P (set_share s key x)) ->
  (forall s d, P s -> P (set_denominator s d)) ->
  forall s, P s -> P (update_value_for_one s key update).
Proof.
  intros Hv Hs Hd s HP. unfold update_value_for_one, update_value_for_all, update_open_pool.
  destruct (_ && _ && _) eqn:E.
  { change (is_zero zero) with true. destruct (0 <? update); eauto. }
  destruct (is_zero (get_denominator s)); [destruct (0 <? update); eauto|].
  destruct (if 0 <? update then _ else _) as [D1 s1].
  destruct (settle_shares _ _ _ _ _ _ _ _) as [D2 s2]. eauto.
Qed.

(** The shared value moves by the update and by nothing else. *)
Lemma update_value_for_one_value n s key update :
  ops_ok n s ->
  get_shared_value (update_value_for_one s key update) = moved_value (get_shared_value s) update.
Proof.
  intros Hok. pose proof (moved_value_range _ update (ops_ok_value _ _ Hok)) as Hr.
  unfold update_value_for_one, update_value_for_all.
  destruct (_ && _ && _) eqn:E.
  { change (is_zero zero) with true. destruct (0 <? update).
    all: by rewrite set_value_value; rewrite ?set_share_value, ?set_denominator_value. }
  destruct (is_zero (get_denominator s)); [destruct (0 <? update)|].
  all: by rewrite set_value_value;
    rewrite ?update_open_pool_value, ?set_share_value, ?set_denominator_value.
Qed.

Lemma get_value_range n s key : ops_ok n s -> 0 <= get_value s key <= get_shared_value s.
Proof.
  intros Hok. pose proof (ops_ok_value _ _ Hok) as Hv. unfold get_value.
  destruct (try_get_value_from_parts _ _ _) as [v|] eqn:E; simpl; [|unfold is_u64 in Hv; lia].
  eapply try_get_value_from_parts_spec; [done| | |exact E].
  - by eapply ops_ok_share.
  - by eapply ops_ok_denominator.
Qed.
End frame.

(** ** Burning a whole share *)

Section burn.
  Context {K S : Type} `{EqDecision K} `{L : SharePoolLaws K S}.
  Implicit Types (s : S) (key : K).

Lemma burn_denominator n b s key :
  pool_inv n b s -> 0 <= b <= 2 ^ 60 ->
  let D := get_denominator s in let x := get_share s key in
  exists d, default zero (sub D x) = d /\ wf d /\ (val D - val x <= val d)%Q /\
    exp_ok (b + 300) d /\ (is_zero D = true -> is_zero d = true).
Proof.
  intros (Hok & Hb & He) Hbb D x.
  assert (HD : wf D) by by eapply ops_ok_denominator.
  assert (Hx : wf x) by by eapply ops_ok_share.
  destruct (is_zero D) eqn:HD0.
  - pose proof (backed_closed _ _ key Hok Hb HD0) as Hxz. fold x in Hxz.
    exists zero. rewrite Hxz, (wf_is_zero D HD HD0). split_and!; try done; unfold exp_ok; simpl; lia.
  - destruct (sub_total D x HD Hx HD0) as [d Hd]; [unfold exp_ok, D in *; lia|].
    exists d. rewrite Hd. simpl. destruct (sub_spec _ _ _ HD Hx Hd) as (Hwd & Hge & _).
    split_and!; try done. destruct (is_zero d) eqn:Ed.
    + rewrite (wf_is_zero d Hwd Ed). unfold exp_ok. simpl. lia.
    + pose proof (sub_exponent _ _ _ HD Hx Hd Ed). unfold exp_ok, D in *. lia.
Qed.

(** Removing a member's share, then taking it out of the denominator: the
    truncating [sub] errs upwards, so the remaining shares stay backed. *)
Lemma burn_share_inv n b s key :
  pool_inv (1 + n) b s -> 0 <= b <= 2 ^ 60 ->
  let s' := set_denominator (set_share s key zero)
    (default zero (sub (get_denominator s) (get_share s key))) in
  pool_inv n (b + 300) s' /\ get_share s' key = zero /\
  get_shared_value s' = get_shared_value s.
Proof.
  intros Hinv Hbb s'.
  destruct (burn_denominator _ _ _ key Hinv Hbb) as (d & Hd & Hwd & Hge & Hexp & Hclosed).
  destruct Hinv as (Hok & Hb & He). unfold s'. rewrite Hd. clear s' Hd.
  set (D := get_denominator s) in *. set (x := get_share s key) in *.
  assert (Hok1 : ops_ok (1 + n) (set_share s key zero)) by by apply set_share_ok.
  assert (Hok' : ops_ok n (set_denominator (set_share s key zero) d))
    by by apply set_denominator_ok.
  assert (HD1 : get_denominator (set_share s key zero) = D) by by rewrite set_share_denominator.
  assert (Hden := set_denominator_eq (set_share s key zero) d Hwd).
  assert (Hval : get_shared_value (set_denominator (set_share s key zero) d) = get_shared_value s)
    by by rewrite set_denominator_value, set_share_value.
  unfold pool_inv. rewrite Hden. destruct (Bool.bool_dec (is_zero D) (is_zero d)) as [Hsame|Hdiff].
  - assert (Hsh : forall k, get_share (set_denominator (set_share s key zero) d) k =
      get_share (set_share s key zero) k) by (intros; apply set_denominator_move; congruence).
    split_and!; try done; [|rewrite Hsh; by apply set_share_eq].
    intros keys. rewrite Hden. revert keys.
    apply (Qsum_bound_update (share_val s) _ key (val D) (val d)); [| | |done].
    + intros k. apply val_nonneg. by eapply ops_ok_share.
    + intros k Hk. unfold share_val. rewrite Hsh, set_share_ne by congruence. reflexivity.
    + unfold share_val. rewrite Hsh, set_share_eq by done. fold x. rewrite val_zero. lra.
  - assert (HD0 : is_zero D = false /\ is_zero d = true)
      by (destruct (is_zero D), (is_zero d); try done; by specialize (Hclosed eq_refl)).
    assert (Hall : forall k, get_share (set_denominator (set_share s key zero) d) k = zero).
    { intros k. eapply set_denominator_close; [done|rewrite HD1; apply HD0|apply HD0]. }
    split_and!; try done. by eapply backed_all_zero.
Qed.
End burn.
