(* ===== verification/AlphaShares.v ===== *)
(** * AlphaShares: the chain storage behind the share pools, and stake

    Models, from src/pallets/subtensor/src/staking/stake_utils.rs, the storage
    layer [HotkeyAlphaSharePoolDataOperations] that implements the share-pool
    interface over the maps [Alpha], [AlphaV2], [AlphaShareEpoch],
    [AlphaSharePoolEpoch], [TotalHotkeyShares(V2)] and [TotalHotkeyAlpha], the
    aggregate [TotalAlphaStaked] with its back-fill migration guard
    (migrations/migrate_total_alpha_staked.rs), and the stake operations built
    on the pool.

    Rows of a closed pool cannot be enumerated, so closing bumps the pool's
    epoch and rows stamped with another epoch read as absent.  [alpha_laws]
    shows that this lazy scheme meets the contract [SharePoolLaws], so every
    theorem of SharePool.v holds of the chain. *)

From Stdlib Require Import ZArith QArith Qpower Qround Lqa Lia.
From stdpp Require Import base gmap list numbers.
From S2P Require Import Prelude SafeFloat SharePool.

Abbreviation NetUid := Z (only parsing).

(** [x as i64] for a [u64]. *)
Definition as_i64 (x : Z) : Z := if x <=? i64_max then x else x - (u64_max + 1).

(** [x.neg()] of an [i64], wrapping at [i64::MIN] as the release profile does. *)
Definition i64_neg (x : Z) : Z := if x =? i64_min then i64_min else - x.

Section storage.
  Context {AccountId : Type} `{Countable AccountId}.
  (** [TotalHotkeyAlpha::hashed_key_for(hotkey, netuid) <= cursor]: the order of
      hashed storage keys. *)
  Context (hashed_le : AccountId -> NetUid -> list Z -> bool).

Record AlphaStorage : Type := mkAlphaStorage {
  Alpha : gmap (AccountId * AccountId * NetUid) Z;
  AlphaV2 : gmap (AccountId * AccountId * NetUid) SafeFloat;
  AlphaShareEpoch : gmap (AccountId * AccountId * NetUid) Z;
  AlphaSharePoolEpoch : gmap (AccountId * NetUid) Z;
  TotalHotkeyShares : gmap (AccountId * NetUid) Z;
  TotalHotkeySharesV2 : gmap (AccountId * NetUid) SafeFloat;
  TotalHotkeyAlpha : gmap (AccountId * NetUid) Z;
  TotalAlphaStaked : gmap NetUid Z;
  TotalAlphaStakedMigration : option (list Z);
  StakingHotkeys : gmap AccountId (list AccountId);
  HotkeySwapBasketCredits : gset (AccountId * AccountId);
}.

Record HotkeyAlphaSharePoolDataOperations : Type := mkOps {
  ops_hotkey : AccountId;
  ops_netuid : NetUid;
}.

Implicit Types (st : AlphaStorage) (o : HotkeyAlphaSharePoolDataOperations).

Definition alpha_share_is_retired st (hotkey coldkey : AccountId) (netuid : NetUid) : bool :=
  let pool_epoch := default 0 (AlphaSharePoolEpoch st !! (hotkey, netuid)) in
  negb (pool_epoch =? 0) &&
  negb (default 0 (AlphaShareEpoch st !! (hotkey, coldkey, netuid)) =? pool_epoch).

Definition raw_share o st (key : AccountId) : option SafeFloat :=
  match Alpha st !! (ops_hotkey o, key, ops_netuid o) with
  | Some share_v1 => Some (from_u64f64 share_v1)
  | None => AlphaV2 st !! (ops_hotkey o, key, ops_netuid o)
  end.

Definition share_is_current o st (key : AccountId) : bool :=
  negb (alpha_share_is_retired st (ops_hotkey o) key (ops_netuid o)).

Definition alpha_get_shared_value o st : Z :=
  default 0 (TotalHotkeyAlpha st !! (ops_hotkey o, ops_netuid o)).

Definition alpha_try_get_share o st (key : AccountId) : option SafeFloat :=
  match raw_share o st key with
  | None => None
  | Some share => if is_zero share || share_is_current o st key then Some share else None
  end.

Definition alpha_get_share o st (key : AccountId) : SafeFloat :=
  default zero (alpha_try_get_share o st key).

Definition alpha_get_denominator o st : SafeFloat :=
  match TotalHotkeyShares st !! (ops_hotkey o, ops_netuid o) with
  | Some denominator_v1 => from_u64f64 denominator_v1
  | None => default zero (TotalHotkeySharesV2 st !! (ops_hotkey o, ops_netuid o))
  end.

(** While the back-fill is running only rows it has already visited move the
    aggregate. *)
Definition should_apply_live_delta st (hotkey : AccountId) (netuid : NetUid) : bool :=
  match TotalAlphaStakedMigration st with
  | None => true
  | Some [] => false
  | Some cursor => hashed_le hotkey netuid cursor
  end.

Definition apply_live_delta st (hotkey : AccountId) (netuid : NetUid) (previous new : Z)
    : AlphaStorage :=
  if (previous =? new) || negb (should_apply_live_delta st hotkey netuid) then st
  else
    let total := saturating_add u64_max
      (saturating_sub (default 0 (TotalAlphaStaked st !! netuid)) previous) new in
    mkAlphaStorage (Alpha st) (AlphaV2 st) (AlphaShareEpoch st) (AlphaSharePoolEpoch st)
      (TotalHotkeyShares st) (TotalHotkeySharesV2 st) (TotalHotkeyAlpha st)
      (if total =? 0 then delete netuid (TotalAlphaStaked st)
       else <[netuid := total]> (TotalAlphaStaked st))
      (TotalAlphaStakedMigration st) (StakingHotkeys st) (HotkeySwapBasketCredits st).

Definition alpha_set_shared_value o st (value : Z) : AlphaStorage :=
  let previous := alpha_get_shared_value o st in
  let st := apply_live_delta st (ops_hotkey o) (ops_netuid o) previous value in
  let key := (ops_hotkey o, ops_netuid o) in
  mkAlphaStorage (Alpha st) (AlphaV2 st) (AlphaShareEpoch st) (AlphaSharePoolEpoch st)
    (TotalHotkeyShares st) (TotalHotkeySharesV2 st)
    (if negb (value =? 0) then <[key := value]> (TotalHotkeyAlpha st)
     else delete key (TotalHotkeyAlpha st))
    (TotalAlphaStaked st) (TotalAlphaStakedMigration st) (StakingHotkeys st)
    (HotkeySwapBasketCredits st).

Definition alpha_set_share o st (key : AccountId) (share : SafeFloat) : AlphaStorage :=
  let row := (ops_hotkey o, key, ops_netuid o) in
  let alpha := match Alpha st !! row with
               | Some _ => delete row (Alpha st)
               | None => Alpha st
               end in
  let pool_epoch := default 0 (AlphaSharePoolEpoch st !! (ops_hotkey o, ops_netuid o)) in
  if negb (is_zero share) then
    mkAlphaStorage alpha (<[row := share]> (AlphaV2 st))
      (if negb (pool_epoch =? 0) &&
          negb (default 0 (AlphaShareEpoch st !! row) =? pool_epoch)
       then <[row := pool_epoch]> (AlphaShareEpoch st) else AlphaShareEpoch st)
      (AlphaSharePoolEpoch st) (TotalHotkeyShares st) (TotalHotkeySharesV2 st)
      (TotalHotkeyAlpha st) (TotalAlphaStaked st) (TotalAlphaStakedMigration st)
      (StakingHotkeys st) (HotkeySwapBasketCredits st)
  else
    mkAlphaStorage alpha (delete row (AlphaV2 st))
      (if negb (pool_epoch =? 0) then delete row (AlphaShareEpoch st) else AlphaShareEpoch st)
      (AlphaSharePoolEpoch st) (TotalHotkeyShares st) (TotalHotkeySharesV2 st)
      (TotalHotkeyAlpha st) (TotalAlphaStaked st) (TotalAlphaStakedMigration st)
      (StakingHotkeys st) (HotkeySwapBasketCredits st).

Definition alpha_set_denominator o st (update : SafeFloat) : AlphaStorage :=
  let previous := alpha_get_denominator o st in
  let key := (ops_hotkey o, ops_netuid o) in
  let shares_v1 := delete key (TotalHotkeyShares st) in
  let epochs :=
    if negb (Bool.eqb (is_zero previous) (is_zero update)) then
      <[key := saturating_add u64_max (default 0 (AlphaSharePoolEpoch st !! key)) 1]>
        (AlphaSharePoolEpoch st)
    else AlphaSharePoolEpoch st in
  mkAlphaStorage (Alpha st) (AlphaV2 st) (AlphaShareEpoch st) epochs shares_v1
    (if negb (is_zero update) then <[key := update]> (TotalHotkeySharesV2 st)
     else delete key (TotalHotkeySharesV2 st))
    (TotalHotkeyAlpha st) (TotalAlphaStaked st) (TotalAlphaStakedMigration st)
    (StakingHotkeys st) (HotkeySwapBasketCredits st).

(** [impl SharePoolDataOperations for HotkeyAlphaSharePoolDataOperations]. *)
Definition alpha_ops o : SharePoolDataOperations AccountId AlphaStorage := {|
  get_shared_value := alpha_get_shared_value o;
  get_share := alpha_get_share o;
  try_get_share := alpha_try_get_share o;
  get_denominator := alpha_get_denominator o;
  set_shared_value := alpha_set_shared_value o;
  set_share := alpha_set_share o;
  set_denominator := alpha_set_denominator o;
|}.

(** ** Stake operations *)

Definition get_alpha_share_pool (hotkey : AccountId) (netuid : NetUid)
    : SharePoolDataOperations AccountId AlphaStorage := alpha_ops (mkOps hotkey netuid).

Definition get_stake_for_hotkey_and_coldkey_on_subnet st (hotkey coldkey : AccountId)
    (netuid : NetUid) : Z :=
  default 0 (try_get_value (H := get_alpha_share_pool hotkey netuid) st coldkey).

Definition get_stake_for_hotkey_on_subnet st (hotkey : AccountId) (netuid : NetUid) : Z :=
  default 0 (TotalHotkeyAlpha st !! (hotkey, netuid)).

Definition increase_stake_for_hotkey_on_subnet st (hotkey : AccountId) (netuid : NetUid)
    (amount : Z) : AlphaStorage :=
  update_value_for_all (H := get_alpha_share_pool hotkey netuid) st (as_i64 amount).

Definition decrease_stake_for_hotkey_on_subnet st (hotkey : AccountId) (netuid : NetUid)
    (amount : Z) : AlphaStorage :=
  update_value_for_all (H := get_alpha_share_pool hotkey netuid) st (i64_neg (as_i64 amount)).

Definition hotkey_share_pool_has_members st (hotkey : AccountId) (netuid : NetUid) : bool :=
  has_members (H := get_alpha_share_pool hotkey netuid) st.

(** The first part of a deposit: the coldkey's list of staked hotkeys. *)
Definition associate st (hotkey coldkey : AccountId) (amount : Z) : AlphaStorage :=
  if negb (amount =? 0) then
    let staking_hotkeys := default [] (StakingHotkeys st !! coldkey) in
    mkAlphaStorage (Alpha st) (AlphaV2 st) (AlphaShareEpoch st) (AlphaSharePoolEpoch st)
      (TotalHotkeyShares st) (TotalHotkeySharesV2 st) (TotalHotkeyAlpha st)
      (TotalAlphaStaked st) (TotalAlphaStakedMigration st)
      (if bool_decide (hotkey ∈ staking_hotkeys) then StakingHotkeys st
       else <[coldkey := staking_hotkeys ++ [hotkey]]> (StakingHotkeys st))
      (HotkeySwapBasketCredits st ∖ {[(coldkey, hotkey)]})
  else st.

Definition increase_stake_for_hotkey_and_coldkey_on_subnet st (hotkey coldkey : AccountId)
    (netuid : NetUid) (amount : Z) : AlphaStorage :=
  let st := associate st hotkey coldkey amount in
  update_value_for_one (H := get_alpha_share_pool hotkey netuid) st coldkey (as_i64 amount).

(** [is_null] is [get_epoch_consensus(netuid) == EpochConsensus::Null]. *)
Definition credit_epoch_owner_emission (is_null : bool) st (hotkey coldkey : AccountId)
    (netuid : NetUid) (amount : Z) : AlphaStorage :=
  if amount =? 0 then st
  else if is_null && bool_decide (TotalHotkeyShares st !! (hotkey, netuid) = None) &&
          bool_decide (Alpha st !! (hotkey, coldkey, netuid) = None) &&
          bool_decide (hotkey ∈ default [] (StakingHotkeys st !! coldkey)) then
    let '(credited, st') :=
      try_credit_sole_member (H := get_alpha_share_pool hotkey netuid) st coldkey amount in
    if credited then st'
    else increase_stake_for_hotkey_and_coldkey_on_subnet st' hotkey coldkey netuid amount
  else increase_stake_for_hotkey_and_coldkey_on_subnet st hotkey coldkey netuid amount.

Definition try_increase_stake_for_hotkey_and_coldkey_on_subnet st (hotkey : AccountId)
    (netuid : NetUid) (amount : Z) : bool :=
  sim_update_value_for_one (H := get_alpha_share_pool hotkey netuid) st (as_i64 amount).

(** Returns the alpha actually removed and the storage after. *)
Definition decrease_stake_for_hotkey_and_coldkey_on_subnet st (hotkey coldkey : AccountId)
    (netuid : NetUid) (amount : Z) : Z * AlphaStorage :=
  match try_get_value (H := get_alpha_share_pool hotkey netuid) st coldkey with
  | None => (0, st)
  | Some value =>
      if value <? amount then (0, st)
      else
        let pool_before := get_stake_for_hotkey_on_subnet st hotkey netuid in
        let st' := update_value_for_one (H := get_alpha_share_pool hotkey netuid) st coldkey
                     (i64_neg (as_i64 amount)) in
        let pool_after := get_stake_for_hotkey_on_subnet st' hotkey netuid in
        (saturating_sub pool_before pool_after, st')
  end.

Definition take_stake_position_for_hotkey_swap st (hotkey coldkey : AccountId)
    (netuid : NetUid) : Z * AlphaStorage :=
  let amount := get_stake_for_hotkey_and_coldkey_on_subnet st hotkey coldkey netuid in
  let o := mkOps hotkey netuid in
  let share := alpha_get_share o st coldkey in
  let denominator := alpha_get_denominator o st in
  let st := alpha_set_shared_value o st (saturating_sub (alpha_get_shared_value o st) amount) in
  let st := alpha_set_share o st coldkey zero in
  let st := alpha_set_denominator o st (default zero (sub denominator share)) in
  (amount, st).
End storage.
Arguments AlphaStorage AccountId {_ _}.
Arguments HotkeyAlphaSharePoolDataOperations AccountId : clear implicits.

(** ** The chain's storage meets the pool's contract *)

Section laws.
Context {AccountId : Type} `{Countable AccountId}.
Context (hashed_le : AccountId -> NetUid -> list Z -> bool).
Implicit Types (st : AlphaStorage AccountId) (o : HotkeyAlphaSharePoolDataOperations AccountId).

(** Well-formed storage for the pool [o]: stored shares and denominators are in
    normal form, legacy rows are 128-bit fixed-point numbers, no row carries an
    epoch from the future, and the epoch counter has [n] steps left. *)
Record alpha_ok o (n : nat) st : Prop := mkAlphaOk {
  alpha_ok_value : is_u64 (alpha_get_shared_value o st);
  alpha_ok_legacy k v :
    Alpha st !! (ops_hotkey o, k, ops_netuid o) = Some v -> 0 <= v <= u128_max;
  alpha_ok_share k x :
    AlphaV2 st !! (ops_hotkey o, k, ops_netuid o) = Some x -> wf x;
  alpha_ok_legacy_total v :
    TotalHotkeyShares st !! (ops_hotkey o, ops_netuid o) = Some v -> 0 <= v <= u128_max;
  alpha_ok_total x :
    TotalHotkeySharesV2 st !! (ops_hotkey o, ops_netuid o) = Some x -> wf x;
  alpha_ok_stamp k :
    default 0 (AlphaShareEpoch st !! (ops_hotkey o, k, ops_netuid o)) <=
    default 0 (AlphaSharePoolEpoch st !! (ops_hotkey o, ops_netuid o));
  alpha_ok_epoch :
    0 <= default 0 (AlphaSharePoolEpoch st !! (ops_hotkey o, ops_netuid o)) /\
    default 0 (AlphaSharePoolEpoch st !! (ops_hotkey o, ops_netuid o)) + Z.of_nat n <= u64_max;
}.

Lemma apply_live_delta_frame st h u p v :
  let st' := apply_live_delta hashed_le st h u p v in
  Alpha st' = Alpha st /\ AlphaV2 st' = AlphaV2 st /\
  AlphaShareEpoch st' = AlphaShareEpoch st /\ AlphaSharePoolEpoch st' = AlphaSharePoolEpoch st /\
  TotalHotkeyShares st' = TotalHotkeyShares st /\
  TotalHotkeySharesV2 st' = TotalHotkeySharesV2 st /\
  TotalHotkeyAlpha st' = TotalHotkeyAlpha st /\
  StakingHotkeys st' = StakingHotkeys st.
Proof. unfold apply_live_delta. by destruct (_ || _)%bool. Qed.

Lemma from_u64f64_wf v : 0 <= v <= u128_max -> wf (from_u64f64 v).
Proof. intros. apply from_u64f64_spec. unfold u128_max in *. lia. Qed.

Lemma raw_share_wf o n st k x : alpha_ok o n st -> raw_share o st k = Some x -> wf x.
Proof.
  intros Hok. unfold raw_share. destruct (Alpha st !! _) eqn:E.
  - intros [= <-]. by eapply from_u64f64_wf, alpha_ok_legacy.
  - by apply Hok.
Qed.

Lemma alpha_get_share_wf o n st k : alpha_ok o n st -> wf (alpha_get_share o st k).
Proof.
  intros Hok. unfold alpha_get_share, alpha_try_get_share.
  destruct (raw_share o st k) eqn:E; [|done]. destruct (_ || _)%bool; [|done].
  by eapply raw_share_wf.
Qed.

Lemma alpha_get_denominator_wf o n st : alpha_ok o n st -> wf (alpha_get_denominator o st).
Proof.
  intros Hok. unfold alpha_get_denominator. destruct (TotalHotkeyShares st !! _) eqn:E.
  - by eapply from_u64f64_wf, alpha_ok_legacy_total.
  - destruct (TotalHotkeySharesV2 st !! _) eqn:E'; [|done]. by eapply alpha_ok_total.
Qed.

(** A share is a function of its row, its stamp and the pool's epoch. *)
Lemma alpha_get_share_ext o st st' k :
  raw_share o st' k = raw_share o st k ->
  share_is_current o st' k = share_is_current o st k ->
  alpha_get_share o st' k = alpha_get_share o st k.
Proof. unfold alpha_get_share, alpha_try_get_share. by intros -> ->. Qed.

(** Rows whose stamp is not the pool's epoch read as zero. *)
Lemma alpha_get_share_retired o n st st' k :
  alpha_ok o n st -> raw_share o st' k = raw_share o st k ->
  share_is_current o st' k = false -> alpha_get_share o st' k = zero.
Proof.
  intros Hok Hraw Hcur. unfold alpha_get_share, alpha_try_get_share. rewrite Hraw, Hcur.
  destruct (raw_share o st k) eqn:E; [|done]. rewrite orb_false_r.
  destruct (is_zero s) eqn:Ez; [|done]. simpl. eapply wf_is_zero; [|done]. by eapply raw_share_wf.
Qed.

Lemma set_share_row_eq o st k x :
  wf x -> alpha_get_share o (alpha_set_share o st k x) k = x.
Proof.
  intros Hx. unfold alpha_get_share, alpha_try_get_share, raw_share, alpha_set_share.
  set (row := (ops_hotkey o, k, ops_netuid o)).
  assert (Hgone : match Alpha st !! row with Some _ => delete row (Alpha st)
                  | None => Alpha st end !! row = None).
  { destruct (Alpha st !! row) eqn:E; [by simplify_map_eq|done]. }
  destruct (is_zero x) eqn:Ez; cbn -[is_zero share_is_current]; rewrite Hgone.
  - rewrite lookup_delete_eq. simpl. symmetry. by apply wf_is_zero.
  - rewrite lookup_insert_eq, Ez.
    unfold share_is_current, alpha_share_is_retired. cbn [AlphaSharePoolEpoch AlphaShareEpoch].
    fold row. set (e := default 0 (AlphaSharePoolEpoch st !! _)).
    destruct (e =? 0) eqn:E0; [done|]. simpl.
    destruct (default 0 (AlphaShareEpoch st !! row) =? e) eqn:E1; simpl; [by rewrite E1|].
    by rewrite lookup_insert_eq, Z.eqb_refl.
Qed.

Lemma row_ne o (k k' : AccountId) : k <> k' -> (ops_hotkey o, k, ops_netuid o) <> (ops_hotkey o, k', ops_netuid o).
Proof. congruence. Qed.

Lemma set_share_row_ne o st k k' x :
  k <> k' -> alpha_get_share o (alpha_set_share o st k x) k' = alpha_get_share o st k'.
Proof.
  intros Hne%(row_ne o). unfold alpha_set_share. apply alpha_get_share_ext.
  - unfold raw_share. destruct (is_zero x), (Alpha st !! (_, k, _)); simpl;
      by rewrite ?lookup_delete_ne, ?lookup_insert_ne.
  - unfold share_is_current, alpha_share_is_retired. destruct (is_zero x); simpl.
    all: match goal with |- context [if ?b then _ else _] => destruct b end; try done.
    all: by rewrite ?lookup_delete_ne, ?lookup_insert_ne.
Qed.

Lemma set_share_ok_row o n st k x :
  alpha_ok o n st -> wf x -> alpha_ok o n (alpha_set_share o st k x).
Proof.
  intros Hok Hx. pose proof (alpha_ok_epoch _ _ _ Hok).
  assert (Hstamp : forall k', default 0
    (AlphaShareEpoch (alpha_set_share o st k x) !! (ops_hotkey o, k', ops_netuid o)) <=
    default 0 (AlphaSharePoolEpoch st !! (ops_hotkey o, ops_netuid o))).
  { intros k'. pose proof (alpha_ok_stamp _ _ _ Hok k'). unfold alpha_set_share.
    destruct (is_zero x); simpl.
    all: match goal with |- context [if ?b then _ else _] => destruct b end; try done.
    all: destruct (decide (k = k')) as [-> | Hne%(row_ne o)].
    all: rewrite ?lookup_delete_eq, ?lookup_insert_eq, ?lookup_delete_ne, ?lookup_insert_ne by done.
    all: simpl; lia. }
  unfold alpha_set_share in *. destruct Hok as [Hv Hl Hs Hlt Ht _ He].
  destruct (is_zero x); split; simpl in *; try done.
  all: intros k' v Hk.
  1, 3: eapply (Hl k'); destruct (Alpha st !! (_, k, _)); [|done].
  1, 2: by apply lookup_delete_Some in Hk as [_ ?].
  - apply lookup_delete_Some in Hk as [_ ?]. by eapply Hs.
  - apply lookup_insert_Some in Hk as [[_ <-]|[_ ?]]; [done|by eapply Hs].
Qed.

Lemma set_denominator_row_eq o st d :
  wf d -> alpha_get_denominator o (alpha_set_denominator o st d) = d.
Proof.
  intros Hd. unfold alpha_get_denominator at 1, alpha_set_denominator. simpl.
  rewrite lookup_delete_eq. destruct (is_zero d) eqn:Ez; simpl; simplify_map_eq; [|done].
  symmetry. by apply wf_is_zero.
Qed.

Lemma set_denominator_ok_row o n st d :
  alpha_ok o (Datatypes.S n) st -> wf d -> alpha_ok o n (alpha_set_denominator o st d).
Proof.
  intros [Hv Hl Hs Hlt Ht Hst [He0 He]] Hd. split; simpl; try done.
  - intros v. by rewrite lookup_delete_eq.
  - destruct (is_zero d); simpl; intros x; simplify_map_eq; [done|by intros [= <-]].
  - intros k. specialize (Hst k). destruct (negb _); [|done].
    rewrite lookup_insert_eq. simpl. unfold saturating_add. lia.
  - destruct (negb _); [|lia]. rewrite lookup_insert_eq. simpl. unfold saturating_add. lia.
Qed.

(** A transition of the denominator retires every row. *)
Lemma set_denominator_transition o n st d k :
  alpha_ok o (Datatypes.S n) st ->
  is_zero (alpha_get_denominator o st) <> is_zero d ->
  alpha_get_share o (alpha_set_denominator o st d) k = zero.
Proof.
  intros Hok Hne. eapply (alpha_get_share_retired o (Datatypes.S n) st); [done..|].
  unfold share_is_current, alpha_share_is_retired, alpha_set_denominator.
  rewrite (proj2 (Bool.eqb_false_iff _ _)) by done. simpl. rewrite lookup_insert_eq. simpl.
  destruct Hok as [_ _ _ _ _ Hst [He0 He]]. specialize (Hst k). unfold saturating_add.
  rewrite Z.min_r by lia. by rewrite !(proj2 (Z.eqb_neq _ _)) by lia.
Qed.

Lemma set_denominator_stay o st d k :
  is_zero (alpha_get_denominator o st) = is_zero d ->
  alpha_get_share o (alpha_set_denominator o st d) k = alpha_get_share o st k.
Proof.
  intros He. apply alpha_get_share_ext; [done|].
  unfold share_is_current, alpha_share_is_retired, alpha_set_denominator.
  by rewrite He, Bool.eqb_reflx.
Qed.

Lemma set_value_frame o st v :
  let st' := alpha_set_shared_value hashed_le o st v in
  Alpha st' = Alpha st /\ AlphaV2 st' = AlphaV2 st /\
  AlphaShareEpoch st' = AlphaShareEpoch st /\ AlphaSharePoolEpoch st' = AlphaSharePoolEpoch st /\
  TotalHotkeyShares st' = TotalHotkeyShares st /\
  TotalHotkeySharesV2 st' = TotalHotkeySharesV2 st /\
  TotalHotkeyAlpha st' = (if negb (v =? 0) then <[(ops_hotkey o, ops_netuid o) := v]>
    (TotalHotkeyAlpha st) else delete (ops_hotkey o, ops_netuid o) (TotalHotkeyAlpha st)).
Proof.
  unfold alpha_set_shared_value. simpl.
  destruct (apply_live_delta_frame st (ops_hotkey o) (ops_netuid o) (alpha_get_shared_value o st) v)
    as (-> & -> & -> & -> & -> & -> & -> & _). done.
Qed.

Lemma set_value_row_eq o st v :
  alpha_get_shared_value o (alpha_set_shared_value hashed_le o st v) = v.
Proof.
  unfold alpha_get_shared_value at 1.
  destruct (set_value_frame o st v) as (_ & _ & _ & _ & _ & _ & ->).
  destruct (v =? 0) eqn:E; simpl; simplify_map_eq; [|done]. bool_to_prop. done.
Qed.

Lemma set_value_row_share o st v k :
  alpha_get_share o (alpha_set_shared_value hashed_le o st v) k = alpha_get_share o st k.
Proof.
  destruct (set_value_frame o st v) as (E1 & E2 & E3 & E4 & _).
  apply alpha_get_share_ext; unfold raw_share, share_is_current, alpha_share_is_retired.
  - by rewrite E1, E2.
  - by rewrite E3, E4.
Qed.

Lemma set_value_row_denominator o st v :
  alpha_get_denominator o (alpha_set_shared_value hashed_le o st v) = alpha_get_denominator o st.
Proof.
  destruct (set_value_frame o st v) as (_ & _ & _ & _ & E5 & E6 & _).
  unfold alpha_get_denominator. by rewrite E5, E6.
Qed.

Lemma set_value_ok_row o n st v :
  alpha_ok o n st -> is_u64 v -> alpha_ok o n (alpha_set_shared_value hashed_le o st v).
Proof.
  intros [Hv Hl Hs Hlt Ht Hst He] Hu.
  destruct (set_value_frame o st v) as (E1 & E2 & E3 & E4 & E5 & E6 & _).
  split; rewrite ?E1, ?E2, ?E3, ?E4, ?E5, ?E6; try done. by rewrite set_value_row_eq.
Qed.

(** The chain's storage discharges the contract of the share pool. *)
#[export] Instance alpha_laws o : @SharePoolLaws AccountId (AlphaStorage AccountId)
  (alpha_ops hashed_le o).
Proof.
  refine (@Build_SharePoolLaws _ _ (alpha_ops hashed_le o) (alpha_ok o)
    _ _ _ _ _ _ _ _ _ _ _ _ _ _ _ _ _ _ _ _); simpl; try done.
  - intros n st [Hv Hl Hs Hlt Ht Hst He]. split; try done. lia.
  - by intros n st [].
  - intros n st. apply alpha_get_denominator_wf.
  - intros n st k. apply alpha_get_share_wf.
  - intros n st v. apply set_value_ok_row.
  - intros st v _. apply set_value_row_eq.
  - intros. apply set_value_row_denominator.
  - intros. apply set_value_row_share.
  - intros n st k x. apply set_share_ok_row.
  - intros st k x. unfold alpha_set_share. by destruct (negb (is_zero x)).
  - intros st k x. unfold alpha_set_share. by destruct (negb (is_zero x)).
  - intros st k x. apply set_share_row_eq.
  - intros st k k' x. apply set_share_row_ne.
  - intros n st d. apply set_denominator_ok_row.
  - intros st d. apply set_denominator_row_eq.
  - intros n st d k Hok E1 E2. apply (set_denominator_transition o n); [done|congruence].
  - intros st d k. apply set_denominator_stay.
  - intros n st d k Hok E1 E2. right. apply (set_denominator_transition o n); [done|congruence].
Defined.
End laws.

(** ** Stake *)

Section stake.
Context {AccountId : Type} `{Countable AccountId}.
Context (hashed_le : AccountId -> NetUid -> list Z -> bool).
Implicit Types (st : AlphaStorage AccountId) (o : HotkeyAlphaSharePoolDataOperations AccountId).

(** The accounting invariant of the pool of [hotkey] on [netuid]. *)
Definition stake_inv (hotkey : AccountId) (netuid : NetUid) (n : nat) (b : Z) st : Prop :=
  pool_inv (H := get_alpha_share_pool hashed_le hotkey netuid)
    (L := alpha_laws hashed_le (mkOps hotkey netuid)) n b st.

Lemma as_i64_small x : 0 <= x <= i64_max -> as_i64 x = x /\ i64_neg (as_i64 x) = - x.
Proof.
  intros Hx. unfold as_i64, i64_neg. rewrite (proj2 (Z.leb_le _ _)) by lia.
  unfold i64_min, i64_max in *. by rewrite (proj2 (Z.eqb_neq _ _)) by lia.
Qed.

(** The rows of the pool [o] are the same in both storages. *)
Record same_pool o st st' : Prop := mkSamePool {
  same_value : TotalHotkeyAlpha st' !! (ops_hotkey o, ops_netuid o) =
    TotalHotkeyAlpha st !! (ops_hotkey o, ops_netuid o);
  same_total_v1 : TotalHotkeyShares st' !! (ops_hotkey o, ops_netuid o) =
    TotalHotkeyShares st !! (ops_hotkey o, ops_netuid o);
  same_total : TotalHotkeySharesV2 st' !! (ops_hotkey o, ops_netuid o) =
    TotalHotkeySharesV2 st !! (ops_hotkey o, ops_netuid o);
  same_epoch : AlphaSharePoolEpoch st' !! (ops_hotkey o, ops_netuid o) =
    AlphaSharePoolEpoch st !! (ops_hotkey o, ops_netuid o);
  same_share_v1 k : Alpha st' !! (ops_hotkey o, k, ops_netuid o) =
    Alpha st !! (ops_hotkey o, k, ops_netuid o);
  same_share k : AlphaV2 st' !! (ops_hotkey o, k, ops_netuid o) =
    AlphaV2 st !! (ops_hotkey o, k, ops_netuid o);
  same_stamp k : AlphaShareEpoch st' !! (ops_hotkey o, k, ops_netuid o) =
    AlphaShareEpoch st !! (ops_hotkey o, k, ops_netuid o);
}.

#[export] Instance same_pool_preorder o : PreOrder (same_pool o).
Proof.
  split; [by intros st|]. intros st1 st2 st3 [] []. split; intros; etransitivity; eauto.
Qed.

(** Every read of a pool is a function of its rows. *)
Lemma same_pool_reads o st st' :
  same_pool o st st' ->
  alpha_get_shared_value o st' = alpha_get_shared_value o st /\
  alpha_get_denominator o st' = alpha_get_denominator o st /\
  forall k, alpha_try_get_share o st' k = alpha_try_get_share o st k.
Proof.
  intros [H1 H2 H3 H4 H5 H6 H7].
  unfold alpha_get_shared_value, alpha_get_denominator, alpha_try_get_share, raw_share,
    share_is_current, alpha_share_is_retired. rewrite H1, H2, H3, H4.
  split_and!; [done..|]. intros k. by rewrite H5, H6, H7.
Qed.

Lemma same_pool_quote o st st' k :
  same_pool o st st' ->
  try_get_value (H := alpha_ops hashed_le o) st' k = try_get_value (H := alpha_ops hashed_le o) st k.
Proof.
  intros (Hv & Hd & Hs)%same_pool_reads. unfold try_get_value, get_value. simpl.
  unfold alpha_get_share. by rewrite Hs, Hv, Hd.
Qed.

Lemma same_pool_inv o n b st st' :
  same_pool o st st' ->
  pool_inv (L := alpha_laws hashed_le o) n b st -> pool_inv (L := alpha_laws hashed_le o) n b st'.
Proof.
  intros Hsame (Hok & Hb & He). pose proof (same_pool_reads _ _ _ Hsame) as (Hv & Hd & Hs).
  assert (Hg : forall k, alpha_get_share o st' k = alpha_get_share o st k)
    by (intros; unfold alpha_get_share; by rewrite Hs).
  destruct Hsame as [H1 H2 H3 H4 H5 H6 H7]. split_and!.
  - destruct Hok as [O1 O2 O3 O4 O5 O6 O7]. split; [by rewrite Hv| | |by rewrite H2|by rewrite H3| |].
    all: rewrite ?H4; try done; intros k; rewrite ?H5, ?H6, ?H7; apply O2 || apply O3 || apply O6.
  - intros keys Hnd. simpl in *. rewrite Hd, (Qsum_ext _ (share_val (H := alpha_ops hashed_le o) st));
      [by apply Hb|]. intros k _. unfold share_val. simpl. by rewrite Hg.
  - simpl in *. by rewrite Hd.
Qed.

Section other_pool.
Context (o o' : HotkeyAlphaSharePoolDataOperations AccountId).
Context (Hne : (ops_hotkey o, ops_netuid o) <> (ops_hotkey o', ops_netuid o')).

Lemma other_row (k k' : AccountId) : (ops_hotkey o, k, ops_netuid o) <> (ops_hotkey o', k', ops_netuid o').
Proof. congruence. Qed.

Lemma set_value_other st v : same_pool o' st (alpha_set_shared_value hashed_le o st v).
Proof.
  destruct (set_value_frame hashed_le o st v) as (E1 & E2 & E3 & E4 & E5 & E6 & E7).
  split; rewrite ?E1, ?E2, ?E3, ?E4, ?E5, ?E6, ?E7; try done.
  destruct (negb _); by rewrite ?lookup_insert_ne, ?lookup_delete_ne.
Qed.

Lemma set_share_other st k x : same_pool o' st (alpha_set_share o st k x).
Proof.
  pose proof (other_row k) as Hrow. unfold alpha_set_share.
  split; try intros k'; try (by destruct (negb (is_zero x))); specialize (Hrow k').
  all: destruct (negb (is_zero x)), (Alpha st !! (ops_hotkey o, k, _)); simpl.
  all: try match goal with |- context [if ?b then _ else _] => destruct b end.
  all: by rewrite ?lookup_delete_ne, ?lookup_insert_ne by done.
Qed.

Lemma set_denominator_other st d : same_pool o' st (alpha_set_denominator o st d).
Proof.
  unfold alpha_set_denominator. split; simpl; try done.
  - by rewrite lookup_delete_ne.
  - destruct (negb _); by rewrite ?lookup_delete_ne, ?lookup_insert_ne.
  - destruct (negb _); by rewrite ?lookup_insert_ne.
Qed.

Lemma update_one_other st k u :
  same_pool o' st (update_value_for_one (H := alpha_ops hashed_le o) st k u).
Proof.
  apply (update_value_for_one_ind (H := alpha_ops hashed_le o) (same_pool o' st)); [..|done].
  all: intros st' ? Hst; etransitivity; [exact Hst|].
  - apply set_value_other.
  - apply set_share_other.
  - apply set_denominator_other.
Qed.
End other_pool.

(** One stake operation on the pool of a hotkey. *)
Inductive stake_op : Type :=
| IncreaseHotkey (amount : Z)
| DecreaseHotkey (amount : Z)
| Increase (coldkey : AccountId) (amount : Z)
| Decrease (coldkey : AccountId) (amount : Z)
| CreditOwner (is_null : bool) (coldkey : AccountId) (amount : Z)
| TakePosition (coldkey : AccountId).

Definition run_stake_op st (entry : AccountId * NetUid * stake_op) : AlphaStorage AccountId :=
  let '(hotkey, netuid, op) := entry in
  match op with
  | IncreaseHotkey amount => increase_stake_for_hotkey_on_subnet hashed_le st hotkey netuid amount
  | DecreaseHotkey amount => decrease_stake_for_hotkey_on_subnet hashed_le st hotkey netuid amount
  | Increase coldkey amount =>
      increase_stake_for_hotkey_and_coldkey_on_subnet hashed_le st hotkey coldkey netuid amount
  | Decrease coldkey amount =>
      snd (decrease_stake_for_hotkey_and_coldkey_on_subnet hashed_le st hotkey coldkey netuid amount)
  | CreditOwner is_null coldkey amount =>
      credit_epoch_owner_emission hashed_le is_null st hotkey coldkey netuid amount
  | TakePosition coldkey => snd (take_stake_position_for_hotkey_swap hashed_le st hotkey coldkey netuid)
  end.

(** Amounts are [u64]. *)
Definition stake_op_in_range (entry : AccountId * NetUid * stake_op) : Prop :=
  match snd entry with
  | IncreaseHotkey amount | DecreaseHotkey amount | Increase _ amount | Decrease _ amount
  | CreditOwner _ _ amount => is_u64 amount
  | TakePosition _ => True
  end.

Lemma as_i64_range x : is_u64 x -> Z.abs (as_i64 x) <= 2 ^ 63 /\ Z.abs (i64_neg (as_i64 x)) <= 2 ^ 63.
Proof.
  unfold is_u64, as_i64, i64_neg, u64_max, i64_max, i64_min. intros Hx.
  destruct (x <=? _) eqn:E; bool_to_prop; destruct (_ =? _) eqn:E1; bool_to_prop; lia.
Qed.

(** The association written by a deposit touches no pool. *)
Lemma associate_same o st hotkey coldkey amount : same_pool o st (associate st hotkey coldkey amount).
Proof. unfold associate. by destruct (negb _). Qed.

Lemma try_credit_sole_member_false {K S} `{SharePoolDataOperations K S} (s s' : S) (k : K) amount :
  try_credit_sole_member s k amount = (false, s') -> s' = s.
Proof. unfold try_credit_sole_member. repeat case_match; intros; by simplify_eq. Qed.

Lemma increase_stake_other hotkey netuid o coldkey amount st :
  (hotkey, netuid) <> (ops_hotkey o, ops_netuid o) ->
  same_pool o st
    (increase_stake_for_hotkey_and_coldkey_on_subnet hashed_le st hotkey coldkey netuid amount).
Proof.
  intros Hne. unfold increase_stake_for_hotkey_and_coldkey_on_subnet. etransitivity; [apply associate_same|].
  by apply update_one_other.
Qed.

(** Operations on one pool leave the rows of every other pool alone. *)
Lemma run_stake_op_other st hotkey netuid op o :
  (hotkey, netuid) <> (ops_hotkey o, ops_netuid o) ->
  same_pool o st (run_stake_op st (hotkey, netuid, op)).
Proof.
  intros Hne. destruct op as [amount|amount|ck amount|ck amount|is_null ck amount|ck]; simpl.
  - by apply set_value_other.
  - by apply set_value_other.
  - by apply increase_stake_other.
  - unfold decrease_stake_for_hotkey_and_coldkey_on_subnet. destruct (try_get_value _ _); [|done].
    destruct (_ <? _); [done|]. by apply update_one_other.
  - unfold credit_epoch_owner_emission. destruct (amount =? 0); [done|].
    destruct (_ && _); [|by apply increase_stake_other].
    destruct (try_credit_sole_member _ _ _) as [[] st'] eqn:E.
    + unfold try_credit_sole_member in E. repeat case_match; simplify_eq; [done..|].
      by apply set_value_other.
    + apply try_credit_sole_member_false in E as ->. by apply increase_stake_other.
  - unfold take_stake_position_for_hotkey_swap. simpl.
    etransitivity; [by apply (set_value_other (mkOps hotkey netuid))|].
    etransitivity; [by apply (set_share_other (mkOps hotkey netuid))|].
    by apply set_denominator_other.
Qed.

Lemma stake_inv_weaken hotkey netuid n b b' st :
  stake_inv hotkey netuid (2 + n) b st -> b <= b' -> stake_inv hotkey netuid n b' st.
Proof. apply pool_inv_weaken. Qed.

Lemma increase_stake_inv hotkey netuid n b coldkey amount st :
  stake_inv hotkey netuid (2 + n) b st -> 0 <= b <= 2 ^ 60 -> is_u64 amount ->
  stake_inv hotkey netuid n (b + 300)
    (increase_stake_for_hotkey_and_coldkey_on_subnet hashed_le st hotkey coldkey netuid amount).
Proof.
  intros Hinv Hb Ha. unfold increase_stake_for_hotkey_and_coldkey_on_subnet.
  apply (update_value_for_one_inv (H := get_alpha_share_pool hashed_le hotkey netuid));
    [|done|by apply as_i64_range].
  eapply same_pool_inv; [apply associate_same|exact Hinv].
Qed.

Lemma take_stake_position_inv hotkey netuid n b coldkey st :
  stake_inv hotkey netuid (1 + n) b st -> 0 <= b <= 2 ^ 60 ->
  stake_inv hotkey netuid n (b + 300)
    (snd (take_stake_position_for_hotkey_swap hashed_le st hotkey coldkey netuid)).
Proof.
  intros Hinv Hb. unfold take_stake_position_for_hotkey_swap. simpl.
  set (o := mkOps hotkey netuid) in *. set (a := get_stake_for_hotkey_and_coldkey_on_subnet _ _ _ _ _).
  set (v := saturating_sub _ _).
  assert (Hv : is_u64 v).
  { destruct Hinv as (Hok & _). pose proof (alpha_ok_value _ _ _ Hok) as Hr.
    fold o in Hr. unfold v, saturating_sub, is_u64 in *.
    enough (0 <= a) by lia. unfold a, get_stake_for_hotkey_and_coldkey_on_subnet, try_get_value.
    destruct (try_get_share _ _); simpl; [|lia].
    eapply (get_value_range (L := alpha_laws hashed_le o)). exact Hok. }
  pose proof (set_value_inv (L := alpha_laws hashed_le o) (1 + n) b st v Hinv Hv) as Hinv1.
  pose proof (burn_share_inv (L := alpha_laws hashed_le o) n b _ coldkey Hinv1 Hb) as (Hres & _).
  simpl in Hres. rewrite set_value_row_denominator, set_value_row_share in Hres. exact Hres.
Qed.

(** Every operation preserves the invariant of its own pool. *)
Lemma run_stake_op_inv st hotkey netuid op n b :
  stake_inv hotkey netuid (2 + n) b st -> 0 <= b <= 2 ^ 60 ->
  stake_op_in_range (hotkey, netuid, op) ->
  stake_inv hotkey netuid n (b + 300) (run_stake_op st (hotkey, netuid, op)).
Proof.
  intros Hinv Hb Hr. assert (Hw : stake_inv hotkey netuid n (b + 300) st)
    by (eapply stake_inv_weaken; [exact Hinv|lia]).
  destruct op as [amount|amount|ck amount|ck amount|is_null ck amount|ck];
    simpl; unfold stake_op_in_range in Hr; simpl in Hr.
  - by apply (update_value_for_all_inv (L := alpha_laws hashed_le (mkOps hotkey netuid))).
  - by apply (update_value_for_all_inv (L := alpha_laws hashed_le (mkOps hotkey netuid))).
  - by apply increase_stake_inv.
  - unfold decrease_stake_for_hotkey_and_coldkey_on_subnet. destruct (try_get_value _ _); [|done].
    destruct (_ <? _); [done|].
    apply (update_value_for_one_inv (L := alpha_laws hashed_le (mkOps hotkey netuid)));
      [done..|by apply as_i64_range].
  - unfold credit_epoch_owner_emission. destruct (amount =? 0); [done|].
    destruct (_ && _); [|by apply increase_stake_inv].
    pose proof (try_credit_sole_member_inv (L := alpha_laws hashed_le (mkOps hotkey netuid))
      n (b + 300) st ck amount Hw Hr) as Hc.
    destruct (try_credit_sole_member st ck amount) as [[] st'] eqn:E; [done|].
    apply try_credit_sole_member_false in E as ->. by apply increase_stake_inv.
  - apply take_stake_position_inv; [|done].
    destruct Hinv as (Hok & ?). split; [|done]. by apply (ops_ok_weaken (1 + n)).
Qed.

Definition empty_storage : AlphaStorage AccountId :=
  mkAlphaStorage ∅ ∅ ∅ ∅ ∅ ∅ ∅ ∅ None ∅ ∅.

Lemma empty_stake_inv hotkey netuid n :
  Z.of_nat n <= u64_max -> stake_inv hotkey netuid n 0 empty_storage.
Proof.
  intros Hn. assert (Hok : alpha_ok (mkOps hotkey netuid) n empty_storage).
  { by split. }
  split_and!; [exact Hok| |].
  - eapply (backed_all_zero (L := alpha_laws hashed_le (mkOps hotkey netuid))); [exact Hok|].
    intros k. done.
  - done.
Qed.

Lemma run_stake_ops_inv entries : forall st hotkey netuid n b,
  stake_inv hotkey netuid (2 * length entries + n) b st -> 0 <= b ->
  b + 300 * Z.of_nat (length entries) <= 2 ^ 60 -> Forall stake_op_in_range entries ->
  stake_inv hotkey netuid n (b + 300 * Z.of_nat (length entries)) (foldl run_stake_op st entries).
Proof.
  induction entries as [|[[h u] op] entries IH]; intros st hotkey netuid n b Hinv Hb Hlen Hr.
  { cbn [length foldl] in *. replace (b + 300 * Z.of_nat 0) with b by lia. exact Hinv. }
  apply list.Forall_cons in Hr as [Hr1 Hr]. cbn [length foldl] in *.
  replace (2 * Datatypes.S (length entries) + n)%nat with (2 + (2 * length entries + n))%nat in Hinv by lia.
  replace (b + _) with ((b + 300) + 300 * Z.of_nat (length entries)) in * by lia.
  apply IH; [|lia..|done].
  destruct (decide ((h, u) = (hotkey, netuid))) as [[= -> ->]|Hne].
  - apply run_stake_op_inv; [done|lia|done].
  - eapply same_pool_inv; [by apply (run_stake_op_other _ _ _ _ (mkOps hotkey netuid))|].
    eapply stake_inv_weaken; [exact Hinv|lia].
Qed.

Lemma stake_le_quote hotkey netuid n st coldkey :
  alpha_ok (mkOps hotkey netuid) n st ->
  0 <= get_stake_for_hotkey_and_coldkey_on_subnet hashed_le st hotkey coldkey netuid <=
  get_value (H := get_alpha_share_pool hashed_le hotkey netuid) st coldkey.
Proof.
  intros Hok. pose proof (get_value_range (L := alpha_laws hashed_le (mkOps hotkey netuid))
    n st coldkey Hok) as Hr. unfold get_stake_for_hotkey_and_coldkey_on_subnet, try_get_value.
  destruct (try_get_share _ _); cbn [default from_option id]; unfold get_alpha_share_pool; lia.
Qed.


(** (C1) From an empty chain, after any history of stake
    operations on any pools (deposits, withdrawals, pool-wide emissions and
    slashes, owner credits and hotkey-rename withdrawals, with any [u64]
    amounts), the stakes of distinct coldkeys under one hotkey on one subnet add
    up to at most the alpha recorded for that hotkey. *)
Theorem stake_accounting (entries : list (AccountId * NetUid * stake_op)) :
  Z.of_nat (length entries) <= 2 ^ 50 -> Forall stake_op_in_range entries ->
  let st := foldl run_stake_op empty_storage entries in
  forall hotkey netuid coldkeys, NoDup coldkeys ->
    foldr (fun coldkey acc =>
      get_stake_for_hotkey_and_coldkey_on_subnet hashed_le st hotkey coldkey netuid + acc)
      0 coldkeys <= get_stake_for_hotkey_on_subnet st hotkey netuid.
Proof.
  intros Hlen Hr st hotkey netuid coldkeys Hnd.
  assert (Hinv : stake_inv hotkey netuid (2 * length entries + 0) 0 empty_storage)
    by (apply empty_stake_inv; unfold u64_max; lia).
  apply (run_stake_ops_inv entries) in Hinv as (Hok & Hb & _); [|lia..|done]. fold st in Hok, Hb.
  eapply Z.le_trans; [|exact (quotes_le_value (L := alpha_laws hashed_le (mkOps hotkey netuid))
    0 st coldkeys Hok Hb Hnd)].
  clear Hnd. induction coldkeys as [|c cs IH]; simpl; [lia|].
  pose proof (stake_le_quote hotkey netuid 0 st c Hok) as Hc.
  unfold get_alpha_share_pool in Hc. lia.
Qed.

(** A withdrawal removes the amount asked for when
    the coldkey's quoted stake covers it and nothing otherwise; what it reports
    is exactly what left the hotkey's pool. *)
Theorem decrease_stake_conserves hotkey netuid n b st coldkey amount :
  stake_inv hotkey netuid n b st -> 0 <= amount <= i64_max ->
  let '(removed, st') :=
    decrease_stake_for_hotkey_and_coldkey_on_subnet hashed_le st hotkey coldkey netuid amount in
  removed = (if amount <=? get_stake_for_hotkey_and_coldkey_on_subnet hashed_le st hotkey coldkey netuid
             then amount else 0) /\
  get_stake_for_hotkey_on_subnet st' hotkey netuid =
    get_stake_for_hotkey_on_subnet st hotkey netuid - removed.
Proof.
  intros (Hok & _) Ha. unfold decrease_stake_for_hotkey_and_coldkey_on_subnet.
  unfold get_stake_for_hotkey_and_coldkey_on_subnet.
  pose proof (get_value_range (L := alpha_laws hashed_le (mkOps hotkey netuid)) n st coldkey Hok) as Hq.
  destruct (as_i64_small amount Ha) as [_ ->].
  destruct (try_get_value _ _) as [value|] eqn:Ev; cbn [default from_option id].
  2: { destruct (amount <=? 0) eqn:E; bool_to_prop; lia. }
  assert (Hval : value = get_value (H := alpha_ops hashed_le (mkOps hotkey netuid)) st coldkey).
  { unfold try_get_value in Ev. destruct (try_get_share _ _); by simplify_eq. }
  destruct (value <? amount) eqn:E; bool_to_prop.
  { rewrite (proj2 (Z.leb_gt _ _)) by lia. lia. }
  rewrite (proj2 (Z.leb_le _ _)) by lia.
  pose proof (update_value_for_one_value (L := alpha_laws hashed_le (mkOps hotkey netuid))
    n st coldkey (- amount) Hok) as Hmv.
  pose proof (alpha_ok_value _ _ _ Hok) as Hu64. simpl in Hmv, Hq.
  unfold alpha_get_shared_value in *. unfold get_stake_for_hotkey_on_subnet, get_alpha_share_pool.
  simpl in *. rewrite Hmv. unfold is_u64 in Hu64.
  unfold moved_value, saturating_add, saturating_sub.
  destruct (0 <=? - amount) eqn:E1; bool_to_prop; lia.
Qed.

(** No stake operation under one hotkey and subnet
    changes any coldkey's stake, or the total, under another. *)
Theorem stake_pools_isolated st hotkey netuid op hotkey' netuid' coldkey :
  (hotkey, netuid) <> (hotkey', netuid') ->
  let st' := run_stake_op st (hotkey, netuid, op) in
  get_stake_for_hotkey_and_coldkey_on_subnet hashed_le st' hotkey' coldkey netuid' =
    get_stake_for_hotkey_and_coldkey_on_subnet hashed_le st hotkey' coldkey netuid' /\
  get_stake_for_hotkey_on_subnet st' hotkey' netuid' =
    get_stake_for_hotkey_on_subnet st hotkey' netuid'.
Proof.
  intros Hne st'. pose proof (run_stake_op_other st hotkey netuid op (mkOps hotkey' netuid') Hne) as Hs.
  split; [|by apply same_pool_reads in Hs as (? & _)].
  unfold get_stake_for_hotkey_and_coldkey_on_subnet. f_equal. by apply same_pool_quote.
Qed.

(** A coldkey without a share has no stake. *)
Lemma stake_of_zero_share hotkey netuid n st coldkey :
  alpha_ok (mkOps hotkey netuid) n st ->
  alpha_get_share (mkOps hotkey netuid) st coldkey = zero ->
  get_stake_for_hotkey_and_coldkey_on_subnet hashed_le st hotkey coldkey netuid = 0.
Proof.
  intros Hok Hz. pose proof (stake_le_quote hotkey netuid n st coldkey Hok) as Hle.
  enough (get_value (H := get_alpha_share_pool hashed_le hotkey netuid) st coldkey = 0) by lia.
  destruct (is_zero (alpha_get_denominator (mkOps hotkey netuid) st)) eqn:E.
  { by apply (get_value_closed (H := get_alpha_share_pool hashed_le hotkey netuid)). }
  unfold get_value. simpl. rewrite Hz. clear Hle.
  destruct (try_get_value_from_parts _ _ _) as [v|] eqn:Ev; [|done]. simpl.
  pose proof (alpha_get_denominator_wf _ _ _ Hok) as HD. pose proof (val_pos _ HD E).
  destruct (try_get_value_from_parts_spec _ _ _ _ (alpha_ok_value _ _ _ Hok) wf_zero HD Ev) as [Hr Hv].
  rewrite val_zero, Qmult_0_r in Hv. apply Z.le_antisymm; [|lia]. apply Z.nlt_ge. intros Hlt.
  rewrite Zlt_Qlt in Hlt. pose proof (Qmult_lt_0_compat _ _ Hlt H0). change (inject_Z 0) with 0%Q in *. lra.
Qed.

(** A hotkey rename takes the whole position: the
    coldkey is left with no share in the old pool, and the value that leaves the
    pool is exactly the stake carried to the new one. *)
Theorem take_position_exact hotkey netuid n b st coldkey :
  stake_inv hotkey netuid (1 + n) b st -> 0 <= b <= 2 ^ 60 ->
  let '(amount, st') := take_stake_position_for_hotkey_swap hashed_le st hotkey coldkey netuid in
  amount = get_stake_for_hotkey_and_coldkey_on_subnet hashed_le st hotkey coldkey netuid /\
  get_stake_for_hotkey_on_subnet st' hotkey netuid + amount =
    get_stake_for_hotkey_on_subnet st hotkey netuid /\
  alpha_get_share (mkOps hotkey netuid) st' coldkey = zero /\
  get_stake_for_hotkey_and_coldkey_on_subnet hashed_le st' hotkey coldkey netuid = 0 /\
  stake_inv hotkey netuid n (b + 300) st'.
Proof.
  intros Hinv Hb. pose proof (take_stake_position_inv hotkey netuid n b coldkey st Hinv Hb) as Hinv'.
  destruct Hinv as (Hok & Hbk & He). pose proof (alpha_ok_value _ _ _ Hok) as Hu64.
  pose proof (stake_le_quote hotkey netuid _ st coldkey Hok) as Ha.
  pose proof (get_value_range (L := alpha_laws hashed_le (mkOps hotkey netuid)) _ st coldkey Hok) as Hq.
  unfold take_stake_position_for_hotkey_swap in *. simpl in Hq, Hu64, Hinv' |- *.
  unfold get_alpha_share_pool in Ha.
  set (o := mkOps hotkey netuid) in *. set (a := get_stake_for_hotkey_and_coldkey_on_subnet _ _ _ _ _) in *.
  set (v := saturating_sub (alpha_get_shared_value o st) a) in *.
  assert (Hv : v = alpha_get_shared_value o st - a) by (unfold v, saturating_sub; lia).
  assert (Hv64 : is_u64 v) by (unfold is_u64 in *; lia).
  pose proof (set_value_inv (L := alpha_laws hashed_le o) (1 + n) b st v
    (conj Hok (conj Hbk He)) Hv64) as Hinv1.
  pose proof (burn_share_inv (L := alpha_laws hashed_le o) n b _ coldkey Hinv1 Hb) as (_ & Hsh & Hval).
  simpl in Hsh, Hval. rewrite set_value_row_denominator, set_value_row_share in Hsh, Hval.
  rewrite set_value_row_eq in Hval. split_and!; [done| |done| |done].
  - unfold get_stake_for_hotkey_on_subnet, alpha_get_shared_value in *. simpl in Hval, Hv |- *. lia.
  - eapply stake_of_zero_share; [exact (proj1 Hinv')|exact Hsh].
Qed.

(** The sum [TotalAlphaStaked] is meant to hold for a subnet: the alpha of the
    hotkeys the back-fill has already visited (all of them once it is done). *)
Definition staked_sum st (netuid : NetUid) : Z :=
  map_sum (fun '(hotkey, u) v =>
    if (u =? netuid) && should_apply_live_delta hashed_le st hotkey u then v else 0)
    (TotalHotkeyAlpha st).

Definition staked_tracked st : Prop :=
  (forall k v, TotalHotkeyAlpha st !! k = Some v -> 0 <= v) /\
  forall netuid, default 0 (TotalAlphaStaked st !! netuid) = staked_sum st netuid.

Lemma should_apply_set_value o st v h u :
  should_apply_live_delta hashed_le (alpha_set_shared_value hashed_le o st v) h u =
  should_apply_live_delta hashed_le st h u.
Proof.
  unfold alpha_set_shared_value, apply_live_delta, should_apply_live_delta. simpl.
  by destruct (_ || _)%bool.
Qed.

Lemma staked_sum_set_value o st v netuid :
  staked_sum (alpha_set_shared_value hashed_le o st v) netuid =
  staked_sum st netuid +
  (if (ops_netuid o =? netuid) && should_apply_live_delta hashed_le st (ops_hotkey o) (ops_netuid o)
   then v - alpha_get_shared_value o st else 0).
Proof.
  unfold staked_sum. destruct (set_value_frame hashed_le o st v) as (_ & _ & _ & _ & _ & _ & ->).
  rewrite (map_sum_ext _ (fun '(hotkey, u) v =>
    if (u =? netuid) && should_apply_live_delta hashed_le st hotkey u then v else 0)).
  2: { intros [h u] w _. by rewrite should_apply_set_value. }
  unfold alpha_get_shared_value. destruct (v =? 0) eqn:E; simpl; bool_to_prop.
  - rewrite map_sum_delete. destruct (TotalHotkeyAlpha st !! _); simpl; destruct (_ && _); lia.
  - rewrite map_sum_update. destruct (TotalHotkeyAlpha st !! _); simpl; destruct (_ && _); lia.
Qed.

Lemma tracked_set_value o st v :
  staked_tracked st -> 0 <= v ->
  staked_sum (alpha_set_shared_value hashed_le o st v) (ops_netuid o) <= u64_max ->
  staked_tracked (alpha_set_shared_value hashed_le o st v).
Proof.
  intros [Hpos Htr] Hv Hmax. split.
  { destruct (set_value_frame hashed_le o st v) as (_ & _ & _ & _ & _ & _ & ->). intros k w.
    destruct (v =? 0); simpl; [intros [_ Hk]%lookup_delete_Some; eauto|].
    intros [[_ <-]|[_ Hk]]%lookup_insert_Some; eauto. }
  intros netuid. rewrite staked_sum_set_value in Hmax |- *. rewrite Z.eqb_refl in Hmax.
  unfold alpha_set_shared_value, apply_live_delta. simpl in *.
  destruct (should_apply_live_delta hashed_le st (ops_hotkey o) (ops_netuid o)) eqn:Es.
  2: { rewrite orb_true_r, andb_false_r, Z.add_0_r. apply Htr. }
  rewrite orb_false_r, andb_true_r. destruct (_ =? v) eqn:E; bool_to_prop.
  { subst v. simpl. rewrite Htr. destruct (ops_netuid o =? netuid); lia. }
  assert (Hprev : alpha_get_shared_value o st <= staked_sum st (ops_netuid o)).
  { unfold alpha_get_shared_value, staked_sum.
    pose proof (map_sum_lookup_le (fun '(hotkey, u) v =>
      if (u =? ops_netuid o) && should_apply_live_delta hashed_le st hotkey u then v else 0)
      (TotalHotkeyAlpha st) (ops_hotkey o, ops_netuid o)) as Hle.
    cbn beta iota in Hle. rewrite Z.eqb_refl, Es in Hle.
    destruct (TotalHotkeyAlpha st !! _); apply Hle.
    all: intros [h u] w Hw; apply Hpos in Hw; cbn beta iota; destruct ((u =? _) && _); lia. }
  set (total := saturating_add _ _ _).
  assert (Ht : total = staked_sum st (ops_netuid o) + (v - alpha_get_shared_value o st)).
  { unfold total, saturating_add, saturating_sub. rewrite Htr. simpl in *. lia. }
  simpl. destruct (ops_netuid o =? netuid) eqn:En; bool_to_prop.
  - rewrite En in *. destruct (total =? 0) eqn:E0; bool_to_prop; simplify_map_eq; simpl; lia.
  - rewrite Z.add_0_r, <- Htr. destruct (total =? 0); by rewrite ?lookup_delete_ne, ?lookup_insert_ne.
Qed.

(** Steps that move no alpha. *)
Definition quiet st st' : Prop :=
  TotalHotkeyAlpha st' = TotalHotkeyAlpha st /\ TotalAlphaStaked st' = TotalAlphaStaked st /\
  TotalAlphaStakedMigration st' = TotalAlphaStakedMigration st.

#[export] Instance quiet_preorder : PreOrder quiet.
Proof. unfold quiet. split; [by intros st|]. intros st1 st2 st3 (?&?&?) (?&?&?). split_and!; congruence. Qed.

Lemma quiet_set_share o st k x : quiet st (alpha_set_share o st k x).
Proof. unfold alpha_set_share. by destruct (negb (is_zero x)). Qed.

Lemma quiet_tracked st st' : quiet st st' -> staked_tracked st -> staked_tracked st'.
Proof.
  intros (E1 & E2 & E3) [Hpos Htr]. unfold staked_tracked, staked_sum, should_apply_live_delta.
  rewrite E1, E2, E3. done.
Qed.

Lemma quiet_sum st st' netuid : quiet st st' -> staked_sum st' netuid = staked_sum st netuid.
Proof.
  intros (E1 & _ & E3). unfold staked_sum, should_apply_live_delta. by rewrite E1, E3.
Qed.

(** Every update of a member moves the pool's value once, at the end. *)
Lemma update_one_shape o st k u : exists st1,
  quiet st st1 /\ update_value_for_one (H := alpha_ops hashed_le o) st k u =
    alpha_set_shared_value hashed_le o st1 (moved_value (alpha_get_shared_value o st1) u).
Proof.
  unfold update_value_for_one, update_value_for_all, update_open_pool. simpl.
  destruct (_ && _ && _).
  { change (is_zero zero) with true. destruct (0 <? u); eexists; (split; [|reflexivity]); [|done].
    etransitivity; [|apply quiet_set_share]. done. }
  destruct (is_zero (alpha_get_denominator o st)).
  { destruct (0 <? u); eexists; (split; [|reflexivity]); [|done].
    etransitivity; [|apply quiet_set_share]. done. }
  destruct (if 0 <? u then _ else _) as [D1 s1].
  destruct (settle_shares _ _ _ _ _ _ _ _) as [D2 s2].
  eexists; (split; [|reflexivity]). etransitivity; [|apply quiet_set_share]. done.
Qed.

Lemma moved_value_nonneg V u : 0 <= V -> 0 <= moved_value V u.
Proof.
  intros ?. unfold moved_value, saturating_add, saturating_sub, u64_max.
  destruct (_ <=? _) eqn:E; bool_to_prop; lia.
Qed.

(** The value of the pool [o] is written at most once between the two storages. *)
Definition one_write o st st' : Prop :=
  quiet st st' \/
  exists st1 v, quiet st st1 /\ 0 <= v /\ quiet (alpha_set_shared_value hashed_le o st1 v) st'.

Lemma one_write_value o st v : 0 <= v -> one_write o st (alpha_set_shared_value hashed_le o st v).
Proof. intros Hv. right. by exists st, v. Qed.

Lemma one_write_update o st st0 k u :
  0 <= alpha_get_shared_value o st -> quiet st st0 ->
  one_write o st (update_value_for_one (H := alpha_ops hashed_le o) st0 k u).
Proof.
  intros HV Hq. destruct (update_one_shape o st0 k u) as (st1 & Hq1 & ->).
  assert (Hq2 : quiet st st1) by (etransitivity; [exact Hq|exact Hq1]).
  right. exists st1; eexists. split_and!; [exact Hq2| |reflexivity].
  apply moved_value_nonneg. destruct Hq2 as (E & _). unfold alpha_get_shared_value in *. by rewrite E.
Qed.

Lemma quiet_associate st hotkey coldkey amount : quiet st (associate st hotkey coldkey amount).
Proof. unfold associate. by destruct (negb _). Qed.

Lemma run_stake_op_shape st hotkey netuid op :
  stake_op_in_range (hotkey, netuid, op) -> 0 <= alpha_get_shared_value (mkOps hotkey netuid) st ->
  one_write (mkOps hotkey netuid) st (run_stake_op st (hotkey, netuid, op)).
Proof.
  intros Hr HV. destruct op as [amount|amount|ck amount|ck amount|is_null ck amount|ck];
    unfold stake_op_in_range in Hr; simpl in *.
  - by apply one_write_value, moved_value_nonneg.
  - by apply one_write_value, moved_value_nonneg.
  - by apply one_write_update, quiet_associate.
  - unfold decrease_stake_for_hotkey_and_coldkey_on_subnet. destruct (try_get_value _ _); [|by left].
    destruct (_ <? _); [by left|]. by apply one_write_update.
  - unfold credit_epoch_owner_emission. destruct (amount =? 0) eqn:Ea; [by left|].
    destruct (_ && _); [|by apply one_write_update, quiet_associate].
    destruct (try_credit_sole_member _ _ _) as [[] st'] eqn:E.
    + unfold try_credit_sole_member in E. repeat case_match; simplify_eq; [by left..|].
      apply one_write_value. unfold checked_add in *. case_match; simplify_eq.
      unfold is_u64 in Hr. simpl. lia.
    + apply try_credit_sole_member_false in E as ->. by apply one_write_update, quiet_associate.
  - right. unfold take_stake_position_for_hotkey_swap. exists st; eexists. split_and!; [done| |].
    2: { simpl. etransitivity; [|done]. apply quiet_set_share. }
    unfold saturating_sub. lia.
Qed.

(** [TotalAlphaStaked] of a subnet stays the exact
    sum of the alpha of its hotkeys under every stake operation, also while the
    back-fill migration is part-way through (then over the rows already
    visited), as long as that sum fits a [u64]. *)
Theorem total_alpha_staked_tracks st hotkey netuid op :
  staked_tracked st -> stake_op_in_range (hotkey, netuid, op) ->
  staked_sum (run_stake_op st (hotkey, netuid, op)) netuid <= u64_max ->
  staked_tracked (run_stake_op st (hotkey, netuid, op)).
Proof.
  intros Htr Hr Hmax.
  assert (HV : 0 <= alpha_get_shared_value (mkOps hotkey netuid) st).
  { unfold alpha_get_shared_value. destruct (TotalHotkeyAlpha st !! _) eqn:E; [|done].
    by apply (proj1 Htr) in E. }
  destruct (run_stake_op_shape st hotkey netuid op Hr HV) as [Hq|(st1 & v & Hq & Hv & Hq')].
  - by eapply quiet_tracked.
  - eapply quiet_tracked; [exact Hq'|]. apply tracked_set_value; [by eapply quiet_tracked|done|].
    by rewrite <- (quiet_sum _ _ _ Hq').
Qed.
End stake.

(** ** Concrete pools *)

(** A chain with accounts 1, 2, 3, ... whose back-fill is over; the pool of
    hotkey 1 on subnet 7. *)
Definition no_backfill (_ : positive) (_ : NetUid) (_ : list Z) : bool := true.

Definition pool17 : HotkeyAlphaSharePoolDataOperations positive := mkOps 1%positive 7.

#[local] Instance pool17_ops : SharePoolDataOperations positive (AlphaStorage positive) :=
  alpha_ops no_backfill pool17.
#[local] Instance pool17_laws : SharePoolLaws positive (AlphaStorage positive) :=
  alpha_laws no_backfill pool17.

(** Two members, one emission and one partial withdrawal. *)
Definition history17 : list (pool_op (K := positive)) :=
  [UpdateOne 2%positive 1000; UpdateOne 3%positive 500; UpdateAll 301; UpdateOne 2%positive (-400)].

Definition stake17 : AlphaStorage positive := foldl run_op empty_storage history17.

Lemma history17_in_range : Forall op_in_range history17.
Proof. repeat (constructor; [simpl; lia|]). constructor. Qed.

Lemma stake17_inv : pool_inv 100 1200 stake17.
Proof.
  apply (run_ops_inv history17 100 0 empty_storage); [|simpl; lia..|apply history17_in_range].
  apply (empty_stake_inv no_backfill). unfold u64_max. simpl. lia.
Qed.

Lemma share_pool_accounting_witness :
  foldr (fun key acc => get_value stake17 key + acc) 0 [2%positive; 3%positive] <=
    get_shared_value stake17 /\ get_value stake17 3%positive = 600 /\ get_shared_value stake17 = 1401.
Proof.
  split; [|by vm_compute].
  apply (share_pool_accounting history17 100 empty_storage).
  - apply (empty_stake_inv no_backfill 1%positive 7). unfold u64_max. simpl. lia.
  - reflexivity.
  - reflexivity.
  - simpl. lia.
  - apply history17_in_range.
  - apply (bool_decide_unpack _). by vm_compute.
Defined.


Lemma full_exit_leaves_no_share_witness :
  get_value stake17 2%positive = 800 /\
  get_share (update_value_for_one stake17 2%positive (- get_value stake17 2%positive)) 2%positive = zero.
Proof.
  split; [by vm_compute|]. apply (full_exit_leaves_no_share 98 1200 stake17 2%positive).
  - apply stake17_inv.
  - lia.
  - by vm_compute.
  - split; [by vm_compute|by apply Z.leb_le; vm_compute].
Defined.

(** Hotkey 1 with coldkey 2 as its only member. *)
Definition sole17 : AlphaStorage positive := update_value_for_one empty_storage 2%positive 1000.

Lemma credit_sole_member_owns_all_witness :
  let s' := snd (try_credit_sole_member sole17 2%positive 77) in
  get_shared_value s' = 1077 /\ get_value s' 2%positive = 1077.
Proof.
  destruct (credit_sole_member_owns_all 8 300 sole17 2%positive 77
    (snd (try_credit_sole_member sole17 2%positive 77))) as (Hv & Hq & _).
  - apply (update_value_for_one_inv 8 0); [|lia..].
    apply (empty_stake_inv no_backfill 1%positive 7). unfold u64_max. simpl. lia.
  - lia.
  - lia.
  - by vm_compute.
  - cbv zeta. rewrite Hq, Hv. split; by vm_compute.
Defined.

(** Two hotkeys on two subnets, with an owner credit and a rename. *)
Definition chain_history : list (positive * NetUid * stake_op) :=
  [(1%positive, 7, Increase 2%positive 1000); (1%positive, 7, Increase 3%positive 500);
   (4%positive, 7, Increase 2%positive 90); (1%positive, 7, IncreaseHotkey 301);
   (1%positive, 7, Decrease 2%positive 400); (4%positive, 7, CreditOwner true 2%positive 5);
   (1%positive, 7, TakePosition 3%positive)].

Definition chain_state : AlphaStorage positive :=
  foldl (run_stake_op no_backfill) empty_storage chain_history.

Lemma chain_history_in_range : Forall stake_op_in_range chain_history.
Proof. repeat (constructor; [unfold stake_op_in_range, is_u64, u64_max; simpl; try done; lia|]). constructor. Qed.

Lemma chain_state_inv : stake_inv no_backfill 1%positive 7 100 2100 chain_state.
Proof.
  apply (run_stake_ops_inv no_backfill chain_history _ _ _ 100 0);
    [|simpl; lia..|apply chain_history_in_range].
  apply empty_stake_inv. unfold u64_max. simpl. lia.
Qed.

Lemma stake_accounting_witness :
  foldr (fun coldkey acc =>
    get_stake_for_hotkey_and_coldkey_on_subnet no_backfill chain_state 4%positive coldkey 7 + acc)
    0 [2%positive; 3%positive] <= get_stake_for_hotkey_on_subnet chain_state 4%positive 7 /\
  get_stake_for_hotkey_on_subnet chain_state 4%positive 7 = 95.
Proof.
  split; [|by vm_compute]. unfold chain_state.
  refine (stake_accounting no_backfill chain_history _ chain_history_in_range 4%positive 7
    [2%positive; 3%positive] _).
  - simpl. lia.
  - by apply (bool_decide_unpack _); vm_compute.
Defined.

Lemma decrease_stake_conserves_witness :
  let '(removed, st') := decrease_stake_for_hotkey_and_coldkey_on_subnet no_backfill chain_state
    1%positive 2%positive 7 300 in
  removed = 300 /\ get_stake_for_hotkey_on_subnet st' 1%positive 7 =
    get_stake_for_hotkey_on_subnet chain_state 1%positive 7 - 300.
Proof.
  pose proof (decrease_stake_conserves no_backfill 1%positive 7 100 2100 chain_state 2%positive 300
    chain_state_inv ltac:(unfold i64_max; lia)) as H.
  destruct (decrease_stake_for_hotkey_and_coldkey_on_subnet _ _ _ _ _ _) as [removed st'].
  destruct H as [Hr Hv].
  assert (Hle : (300 <=? get_stake_for_hotkey_and_coldkey_on_subnet no_backfill chain_state
    1%positive 2%positive 7) = true) by by vm_compute.
  rewrite Hle in Hr. subst removed. exact (conj eq_refl Hv).
Defined.

Lemma stake_pools_isolated_witness :
  get_stake_for_hotkey_and_coldkey_on_subnet no_backfill
    (run_stake_op no_backfill chain_state (4%positive, 7, DecreaseHotkey 60)) 1%positive 2%positive 7 =
  get_stake_for_hotkey_and_coldkey_on_subnet no_backfill chain_state 1%positive 2%positive 7.
Proof.
  refine (proj1 (stake_pools_isolated no_backfill chain_state 4%positive 7 (DecreaseHotkey 60)
    1%positive 7 2%positive _)). discriminate.
Defined.

Lemma take_position_exact_witness :
  fst (take_stake_position_for_hotkey_swap no_backfill chain_state 1%positive 2%positive 7) =
  get_stake_for_hotkey_and_coldkey_on_subnet no_backfill chain_state 1%positive 2%positive 7.
Proof.
  pose proof (take_position_exact no_backfill 1%positive 7 99 2100 chain_state 2%positive
    chain_state_inv ltac:(lia)) as H.
  destruct (take_stake_position_for_hotkey_swap _ _ _ _ _) as [a st']. exact (proj1 H).
Defined.

Lemma total_alpha_staked_tracks_witness :
  staked_tracked no_backfill
    (run_stake_op no_backfill empty_storage (1%positive, 7, Increase 2%positive 1000)).
Proof.
  apply (total_alpha_staked_tracks no_backfill).
  - split; [intros k v; simpl; rewrite lookup_empty; discriminate|intros netuid; reflexivity].
  - unfold stake_op_in_range, is_u64, u64_max. simpl. lia.
  - by apply Z.leb_le; vm_compute.
Defined.
