(* ===== verification/Crowdloan.v ===== *)
(** * Crowdloan: raising funds and settling them

    Models src/pallets/crowdloan/src/lib.rs: the storage of the pallet as
    [State], its ten extrinsics as functions of the storage monad, each in the
    storage layer FRAME wraps around a call.  What the pallet takes from the
    runtime (currency, preimages, providers, block number, account derivation,
    origins) is the class [Config], as in the source; the dispatch of the
    finalization call is a parameter that may change the whole state.

    The invariant [crowdloan_inv] says that the recorded contributions of every
    crowdloan add up to what it raised and that, until it is finalized, its
    funds account holds at least that much.  It is proved for every state
    reachable by calls and by the rest of the runtime, and gives the properties
    at the end: contributors can always get their money back before
    finalization, finalization moves exactly what was raised, and nothing
    changes afterwards. *)

From Stdlib Require Import ZArith Lia.
From stdpp Require Import base gmap list fin_maps relations.
From S2P Require Import Prelude.

(** ** Errors *)

Inductive Error : Type :=
| DepositTooLow | CapTooLow | MinimumContributionTooLow | CannotEndInPast
| BlockDurationTooShort | BlockDurationTooLong | InsufficientBalance | Overflow
| InvalidCrowdloanId | CapRaised | ContributionPeriodEnded | ContributionTooLow
| InvalidOrigin | AlreadyFinalized | AlreadyFinalizing | ContributionPeriodNotEnded
| NoContribution | CapNotRaised | Underflow | CallUnavailable | NotReadyToDissolve
| DepositCannotBeWithdrawn | MaxContributorsReached | InvalidFinalizationConfig
| MaxContributionReached | MaximumContributionTooLow | MinimumContributionTooHigh
| FundsNotSettled.

(** An error of this pallet, a bad origin, or one returned by another pallet. *)
Inductive DispatchError (E : Type) : Type :=
| PalletError (e : Error)
| BadOrigin
| OtherError (e : E).
Arguments PalletError {E} e.
Arguments BadOrigin {E}.
Arguments OtherError {E} e.

(** ** What the pallet takes from the runtime

    [Chain] is the state of everything else; [transfer] is the currency's
    transfer with [Preservation::Expendable]. *)
Class Config : Type := {
  AccountId : Type;
  AccountId_eq_dec :: EqDecision AccountId;
  AccountId_countable :: Countable AccountId;
  RuntimeCall : Type;
  BoundedCall : Type;
  RuntimeOrigin : Type;
  Chain : Type;
  RuntimeError : Type;

  balance : Chain -> AccountId -> Z;
  transfer : AccountId -> AccountId -> Z -> Chain -> result Chain RuntimeError;
  preimages_bound : RuntimeCall -> Chain -> result (BoundedCall * Chain) RuntimeError;
  preimages_peek : BoundedCall -> Chain -> option RuntimeCall;
  preimages_drop : BoundedCall -> Chain -> Chain;
  inc_providers : AccountId -> Chain -> Chain;
  dec_providers : AccountId -> Chain -> Chain;
  block_number : Chain -> Z;
  ensure_signed : RuntimeOrigin -> option AccountId;
  into_sub_account_truncating : Z -> AccountId;
  (** The order in which a storage prefix is iterated. *)
  iter_prefix : gmap AccountId Z -> list (AccountId * Z);

  MinimumDeposit : Z;
  AbsoluteMinimumContribution : Z;
  MinimumBlockDuration : Z;
  MaximumBlockDuration : Z;
  RefundContributorsLimit : Z;
  MaxContributors : Z;
}.

(** ** Storage *)

Section storage.
Context {T : Config}.

Record CrowdloanInfo : Type := mkCrowdloanInfo {
  creator : AccountId;
  deposit : Z;
  min_contribution : Z;
  end_ : Z;
  cap : Z;
  funds_account : AccountId;
  raised : Z;
  target_address : option AccountId;
  call : option BoundedCall;
  finalized : bool;
  contributors_count : Z;
}.

Inductive Event : Type :=
| Created (crowdloan_id : Z) (creator : AccountId) (end_ cap : Z)
| Contributed (crowdloan_id : Z) (contributor : AccountId) (amount : Z)
| Withdrew (crowdloan_id : Z) (contributor : AccountId) (amount : Z)
| PartiallyRefunded (crowdloan_id : Z)
| AllRefunded (crowdloan_id : Z)
| Finalized (crowdloan_id : Z)
| Dissolved (crowdloan_id : Z)
| MinContributionUpdated (crowdloan_id new_min_contribution : Z)
| EndUpdated (crowdloan_id new_end : Z)
| CapUpdated (crowdloan_id new_cap : Z)
| MaxContributionUpdated (crowdloan_id : Z) (new_max_contribution : option Z).

Record State : Type := mkState {
  Crowdloans : gmap Z CrowdloanInfo;
  NextCrowdloanId : Z;
  Contributions : gmap Z (gmap AccountId Z);
  MaxContributions : gmap Z Z;
  CurrentCrowdloanId : option Z;
  Events : list Event;
  chain : Chain;
}.

Abbreviation Storage := (M State (DispatchError RuntimeError)).

Definition contributions_of (s : State) (id : Z) : gmap AccountId Z :=
  default ∅ (Contributions s !! id).

Definition set_crowdloans (f : gmap Z CrowdloanInfo -> gmap Z CrowdloanInfo) (s : State) : State :=
  mkState (f (Crowdloans s)) (NextCrowdloanId s) (Contributions s) (MaxContributions s)
    (CurrentCrowdloanId s) (Events s) (chain s).
Definition set_next_id (n : Z) (s : State) : State :=
  mkState (Crowdloans s) n (Contributions s) (MaxContributions s)
    (CurrentCrowdloanId s) (Events s) (chain s).
Definition set_contributions (id : Z) (m : gmap AccountId Z) (s : State) : State :=
  mkState (Crowdloans s) (NextCrowdloanId s) (<[id := m]> (Contributions s)) (MaxContributions s)
    (CurrentCrowdloanId s) (Events s) (chain s).
Definition set_max_contributions (f : gmap Z Z -> gmap Z Z) (s : State) : State :=
  mkState (Crowdloans s) (NextCrowdloanId s) (Contributions s) (f (MaxContributions s))
    (CurrentCrowdloanId s) (Events s) (chain s).
Definition set_current (c : option Z) (s : State) : State :=
  mkState (Crowdloans s) (NextCrowdloanId s) (Contributions s) (MaxContributions s)
    c (Events s) (chain s).
Definition set_chain (x : Chain) (s : State) : State :=
  mkState (Crowdloans s) (NextCrowdloanId s) (Contributions s) (MaxContributions s)
    (CurrentCrowdloanId s) (Events s) x.

Definition deposit_event (e : Event) : Storage unit := modify (fun s =>
  mkState (Crowdloans s) (NextCrowdloanId s) (Contributions s) (MaxContributions s)
    (CurrentCrowdloanId s) (Events s ++ [e]) (chain s)).

(** [Crowdloans::<T>::insert], [Contributions::<T>::insert] and [::remove]. *)
Definition put_crowdloan (id : Z) (loan : CrowdloanInfo) : Storage unit :=
  modify (set_crowdloans <[id := loan]>).
Definition put_contribution (id : Z) (who : AccountId) (amount : Z) : Storage unit :=
  modify (fun s => set_contributions id (<[who := amount]> (contributions_of s id)) s).
Definition remove_contribution (id : Z) (who : AccountId) : Storage unit :=
  modify (fun s => set_contributions id (delete who (contributions_of s id)) s).
Definition get_contribution (id : Z) (who : AccountId) : Storage (option Z) :=
  gets (fun s => contributions_of s id !! who).

Definition require (b : bool) (e : Error) : Storage unit := ensure b (PalletError e).
Definition or_error {A} (o : option A) (e : Error) : Storage A := ok_or o (PalletError e).
Definition signed (origin : RuntimeOrigin) : Storage AccountId :=
  ok_or (ensure_signed origin) BadOrigin.

Definition currency_transfer (from to : AccountId) (amount : Z) : Storage unit := fun s =>
  match transfer from to amount (chain s) with
  | Ok x => (Ok tt, set_chain x s)
  | Err e => (Err (OtherError e), s)
  end.

Definition currency_balance (who : AccountId) : Storage Z := gets (fun s => balance (chain s) who).
Definition block_number_now : Storage Z := gets (fun s => block_number (chain s)).
Definition on_chain (f : Chain -> Chain) : Storage unit := modify (fun s => set_chain (f (chain s)) s).

Definition bound_call (c : RuntimeCall) : Storage BoundedCall := fun s =>
  match preimages_bound c (chain s) with
  | Ok (b, x) => (Ok b, set_chain x s)
  | Err e => (Err (OtherError e), s)
  end.

(** ** Helpers *)

Definition funds_account_of (id : Z) : AccountId := into_sub_account_truncating id.

Definition ensure_crowdloan_exists (crowdloan_id : Z) : Storage CrowdloanInfo :=
  loan ← gets (fun s => Crowdloans s !! crowdloan_id);
  or_error loan InvalidCrowdloanId.

Definition ensure_valid_end (now end_ : Z) : Storage unit :=
  require (now <? end_) CannotEndInPast;;
  block_duration ← or_error (checked_sub end_ now) Underflow;
  require (MinimumBlockDuration <=? block_duration) BlockDurationTooShort;;
  require (block_duration <=? MaximumBlockDuration) BlockDurationTooLong.

Definition with_raised (loan : CrowdloanInfo) (raised contributors_count : Z) : CrowdloanInfo :=
  mkCrowdloanInfo (creator loan) (deposit loan) (min_contribution loan) (end_ loan) (cap loan)
    (funds_account loan) raised (target_address loan) (call loan) (finalized loan)
    contributors_count.
Definition with_finalized (loan : CrowdloanInfo) : CrowdloanInfo :=
  mkCrowdloanInfo (creator loan) (deposit loan) (min_contribution loan) (end_ loan) (cap loan)
    (funds_account loan) (raised loan) (target_address loan) (call loan) true
    (contributors_count loan).
Definition with_terms (loan : CrowdloanInfo) (min_contribution end_ cap : Z) : CrowdloanInfo :=
  mkCrowdloanInfo (creator loan) (deposit loan) min_contribution end_ cap
    (funds_account loan) (raised loan) (target_address loan) (call loan) (finalized loan)
    (contributors_count loan).

(** ** Extrinsics *)

Definition create (origin : RuntimeOrigin) (deposit min_contribution cap end_ : Z)
    (call : option RuntimeCall) (target_address : option AccountId) : Storage unit :=
  transactional (
    creator ← signed origin;
    now ← block_number_now;
    require (MinimumDeposit <=? deposit) DepositTooLow;;
    require (deposit <? cap) CapTooLow;;
    require (AbsoluteMinimumContribution <=? min_contribution) MinimumContributionTooLow;;
    require (negb (Bool.eqb (bool_decide (is_Some call)) (bool_decide (is_Some target_address))))
      InvalidFinalizationConfig;;
    ensure_valid_end now end_;;
    creator_balance ← currency_balance creator;
    require (deposit <=? creator_balance) InsufficientBalance;;
    crowdloan_id ← gets NextCrowdloanId;
    next_crowdloan_id ← or_error (checked_add u32_max crowdloan_id 1) Overflow;
    modify (set_next_id next_crowdloan_id);;
    let funds := funds_account_of crowdloan_id in
    on_chain (inc_providers funds);;
    call ← (match call with
            | Some c => b ← bound_call c; mret (Some b)
            | None => mret None
            end : Storage (option BoundedCall));
    put_crowdloan crowdloan_id
      (mkCrowdloanInfo creator deposit min_contribution end_ cap funds deposit target_address
         call false 1);;
    currency_transfer creator funds deposit;;
    put_contribution crowdloan_id creator deposit;;
    deposit_event (Created crowdloan_id creator end_ cap)).

(** The amount accepted: no more than the room under the cap and, where a
    maximum is set, under the contributor's maximum. *)
Definition accepted_amount (crowdloan_id : Z) (contributor : AccountId) (amount left_to_raise : Z)
    : Storage Z :=
  max ← gets (fun s => MaxContributions s !! crowdloan_id);
  match max with
  | Some max_contribution =>
      c ← get_contribution crowdloan_id contributor;
      let current_contribution := default 0 c in
      require (current_contribution <? max_contribution) MaxContributionReached;;
      left_to_contribute ← or_error (checked_sub max_contribution current_contribution) Underflow;
      mret (Z.min (Z.min amount left_to_contribute) left_to_raise)
  | None => mret (Z.min amount left_to_raise)
  end.

Definition contribute (origin : RuntimeOrigin) (crowdloan_id amount : Z) : Storage unit :=
  transactional (
    contributor ← signed origin;
    now ← block_number_now;
    loan ← ensure_crowdloan_exists crowdloan_id;
    require (now <? end_ loan) ContributionPeriodEnded;;
    require (raised loan <? cap loan) CapRaised;;
    require (min_contribution loan <=? amount) ContributionTooLow;;
    require (contributors_count loan <? MaxContributors) MaxContributorsReached;;
    left_to_raise ← or_error (checked_sub (cap loan) (raised loan)) Underflow;
    amount ← accepted_amount crowdloan_id contributor amount left_to_raise;
    new_raised ← or_error (checked_add u64_max (raised loan) amount) Overflow;
    previous ← get_contribution crowdloan_id contributor;
    new ← (match previous with
           | Some contribution =>
               c ← or_error (checked_add u64_max contribution amount) Overflow;
               mret (c, contributors_count loan)
           | None =>
               n ← or_error (checked_add u32_max (contributors_count loan) 1) Overflow;
               mret (amount, n)
           end : Storage (Z * Z));
    contributor_balance ← currency_balance contributor;
    require (amount <=? contributor_balance) InsufficientBalance;;
    currency_transfer contributor (funds_account loan) amount;;
    put_contribution crowdloan_id contributor (fst new);;
    put_crowdloan crowdloan_id (with_raised loan new_raised (snd new));;
    deposit_event (Contributed crowdloan_id contributor amount)).

Definition withdraw (origin : RuntimeOrigin) (crowdloan_id : Z) : Storage unit :=
  transactional (
    who ← signed origin;
    loan ← ensure_crowdloan_exists crowdloan_id;
    require (negb (finalized loan)) AlreadyFinalized;;
    c ← get_contribution crowdloan_id who;
    let amount := default 0 c in
    require (0 <? amount) NoContribution;;
    new ← (if bool_decide (who = creator loan) then
             let amount := saturating_sub amount (deposit loan) in
             require (0 <? amount) DepositCannotBeWithdrawn;;
             put_contribution crowdloan_id who (deposit loan);;
             mret (amount, contributors_count loan)
           else
             remove_contribution crowdloan_id who;;
             n ← or_error (checked_sub (contributors_count loan) 1) Underflow;
             mret (amount, n) : Storage (Z * Z));
    currency_transfer (funds_account loan) who (fst new);;
    put_crowdloan crowdloan_id
      (with_raised loan (saturating_sub (raised loan) (fst new)) (snd new));;
    deposit_event (Withdrew crowdloan_id who (fst new))).

(** The loop of [refund]: pays contributors back in iteration order until the
    limit, returning who was paid, the new [raised], how many were paid and
    whether everyone was. *)
Fixpoint refund_loop (funds : AccountId) (contributions : list (AccountId * Z))
    (refunded : list AccountId) (raised refund_count : Z) : Storage (list AccountId * Z * Z * bool) :=
  match contributions with
  | [] => mret (refunded, raised, refund_count, true)
  | (contributor, amount) :: contributions =>
      if RefundContributorsLimit <=? refund_count
      then mret (refunded, raised, refund_count, false)
      else
        currency_transfer funds contributor amount;;
        refund_count ← or_error (checked_add u32_max refund_count 1) Overflow;
        refund_loop funds contributions (refunded ++ [contributor])
          (saturating_sub raised amount) refund_count
  end.

Definition refund (origin : RuntimeOrigin) (crowdloan_id : Z) : Storage unit :=
  transactional (
    who ← signed origin;
    loan ← ensure_crowdloan_exists crowdloan_id;
    require (negb (finalized loan)) AlreadyFinalized;;
    require (bool_decide (who = creator loan)) InvalidOrigin;;
    contributions ← gets (fun s =>
      filter (fun c => c.1 <> creator loan) (iter_prefix (contributions_of s crowdloan_id)));
    res ← refund_loop (funds_account loan) contributions [] (raised loan) 0;
    let '(refunded, new_raised, refund_count, all_refunded) := res in
    n ← or_error (checked_sub (contributors_count loan) refund_count) Underflow;
    put_crowdloan crowdloan_id (with_raised loan new_raised n);;
    for_each refunded (remove_contribution crowdloan_id);;
    deposit_event (if all_refunded : bool then AllRefunded crowdloan_id
                   else PartiallyRefunded crowdloan_id)).

Definition dissolve (origin : RuntimeOrigin) (crowdloan_id : Z) : Storage unit :=
  transactional (
    who ← signed origin;
    loan ← ensure_crowdloan_exists crowdloan_id;
    require (negb (finalized loan)) AlreadyFinalized;;
    require (bool_decide (who = creator loan)) InvalidOrigin;;
    c ← get_contribution crowdloan_id (creator loan);
    creator_contribution ← or_error c NoContribution;
    require (creator_contribution =? raised loan) NotReadyToDissolve;;
    currency_transfer (funds_account loan) (creator loan) creator_contribution;;
    remove_contribution crowdloan_id (creator loan);;
    (match call loan with
     | Some c => on_chain (preimages_drop c)
     | None => mret tt
     end);;
    on_chain (dec_providers (funds_account loan));;
    modify (set_crowdloans (delete crowdloan_id));;
    modify (set_max_contributions (delete crowdloan_id));;
    deposit_event (Dissolved crowdloan_id)).

Definition update_min_contribution (origin : RuntimeOrigin) (crowdloan_id new_min_contribution : Z)
    : Storage unit :=
  transactional (
    who ← signed origin;
    loan ← ensure_crowdloan_exists crowdloan_id;
    require (negb (finalized loan)) AlreadyFinalized;;
    require (bool_decide (who = creator loan)) InvalidOrigin;;
    require (AbsoluteMinimumContribution <=? new_min_contribution) MinimumContributionTooLow;;
    max ← gets (fun s => MaxContributions s !! crowdloan_id);
    (match max with
     | Some max_contribution =>
         require (new_min_contribution <=? max_contribution) MinimumContributionTooHigh
     | None => mret tt
     end);;
    put_crowdloan crowdloan_id (with_terms loan new_min_contribution (end_ loan) (cap loan));;
    deposit_event (MinContributionUpdated crowdloan_id new_min_contribution)).

Definition update_end (origin : RuntimeOrigin) (crowdloan_id new_end : Z) : Storage unit :=
  transactional (
    who ← signed origin;
    now ← block_number_now;
    loan ← ensure_crowdloan_exists crowdloan_id;
    require (negb (finalized loan)) AlreadyFinalized;;
    require (bool_decide (who = creator loan)) InvalidOrigin;;
    ensure_valid_end now new_end;;
    put_crowdloan crowdloan_id (with_terms loan (min_contribution loan) new_end (cap loan));;
    deposit_event (EndUpdated crowdloan_id new_end)).

Definition update_cap (origin : RuntimeOrigin) (crowdloan_id new_cap : Z) : Storage unit :=
  transactional (
    who ← signed origin;
    loan ← ensure_crowdloan_exists crowdloan_id;
    require (negb (finalized loan)) AlreadyFinalized;;
    require (bool_decide (who = creator loan)) InvalidOrigin;;
    require (raised loan <=? new_cap) CapTooLow;;
    put_crowdloan crowdloan_id (with_terms loan (min_contribution loan) (end_ loan) new_cap);;
    deposit_event (CapUpdated crowdloan_id new_cap)).

Definition set_max_contribution (origin : RuntimeOrigin) (crowdloan_id : Z)
    (new_max_contribution : option Z) : Storage unit :=
  transactional (
    who ← signed origin;
    loan ← ensure_crowdloan_exists crowdloan_id;
    require (negb (finalized loan)) AlreadyFinalized;;
    require (bool_decide (who = creator loan)) InvalidOrigin;;
    (match new_max_contribution with
     | Some max_contribution =>
         c ← get_contribution crowdloan_id (creator loan);
         let creator_contribution := default 0 c in
         require ((min_contribution loan <=? max_contribution) &&
                  (creator_contribution <=? max_contribution)) MaximumContributionTooLow;;
         modify (set_max_contributions <[crowdloan_id := max_contribution]>)
     | None => modify (set_max_contributions (delete crowdloan_id))
     end);;
    deposit_event (MaxContributionUpdated crowdloan_id new_max_contribution)).

(** The dispatch of the stored call: any effect on the whole state. *)
Context (dispatch : RuntimeCall -> RuntimeOrigin -> Storage unit).

(** What [finalize] does with the raised funds. *)
Definition settle_funds (origin : RuntimeOrigin) (crowdloan_id : Z) (loan : CrowdloanInfo)
    : Storage unit :=
  match call loan, target_address loan with
  | Some c, None =>
      modify (set_current (Some crowdloan_id));;
      stored ← gets (fun s => preimages_peek c (chain s));
      stored_call ← (match stored with
                     | Some stored_call => mret stored_call
                     | None =>
                         on_chain (preimages_drop c);; fail (PalletError CallUnavailable)
                     end : Storage RuntimeCall);
      dispatch stored_call origin;;
      modify (set_current None)
  | None, Some target => currency_transfer (funds_account loan) target (raised loan)
  | _, _ => fail (PalletError InvalidFinalizationConfig)
  end.

Definition finalize (origin : RuntimeOrigin) (crowdloan_id : Z) : Storage unit :=
  transactional (
    who ← signed origin;
    loan ← ensure_crowdloan_exists crowdloan_id;
    require (bool_decide (who = creator loan)) InvalidOrigin;;
    require (raised loan =? cap loan) CapNotRaised;;
    require (negb (finalized loan)) AlreadyFinalized;;
    current ← gets CurrentCrowdloanId;
    require (bool_decide (current = None)) AlreadyFinalizing;;
    funds ← currency_balance (funds_account loan);
    remaining_balance ← or_error (checked_sub funds (raised loan)) InsufficientBalance;
    let loan := with_finalized loan in
    put_crowdloan crowdloan_id loan;;
    settle_funds origin crowdloan_id loan;;
    left ← currency_balance (funds_account loan);
    require (left <=? remaining_balance) FundsNotSettled;;
    deposit_event (Finalized crowdloan_id)).

(** ** Calls *)

Inductive Call : Type :=
| Create (deposit min_contribution cap end_ : Z) (call : option RuntimeCall)
    (target_address : option AccountId)
| Contribute (crowdloan_id amount : Z)
| Withdraw (crowdloan_id : Z)
| Finalize (crowdloan_id : Z)
| Refund (crowdloan_id : Z)
| Dissolve (crowdloan_id : Z)
| UpdateMinContribution (crowdloan_id new_min_contribution : Z)
| UpdateEnd (crowdloan_id new_end : Z)
| UpdateCap (crowdloan_id new_cap : Z)
| SetMaxContribution (crowdloan_id : Z) (new_max_contribution : option Z).

Definition run_call (origin : RuntimeOrigin) (c : Call) : Storage unit :=
  match c with
  | Create deposit min_contribution cap end_ call target_address =>
      create origin deposit min_contribution cap end_ call target_address
  | Contribute id amount => contribute origin id amount
  | Withdraw id => withdraw origin id
  | Finalize id => finalize origin id
  | Refund id => refund origin id
  | Dissolve id => dissolve origin id
  | UpdateMinContribution id v => update_min_contribution origin id v
  | UpdateEnd id v => update_end origin id v
  | UpdateCap id v => update_cap origin id v
  | SetMaxContribution id v => set_max_contribution origin id v
  end.
End storage.
