(* ===== verification/CrowdloanSafety.v ===== *)
(** * CrowdloanSafety: solvency of the crowdloans

    The laws the pallet relies on ([ConfigLaws]: what the currency, account
    derivation and storage iteration guarantee), the invariant of its storage,
    its preservation by every call and by the rest of the runtime, and the
    properties of Crowdloan.v that follow. *)

From Stdlib Require Import ZArith Lia.
From stdpp Require Import base gmap list fin_maps relations.
From S2P Require Import Prelude Crowdloan.

(** ** The runtime's guarantees

    [transfer] with [Expendable]: the receiver gains the amount; the sender
    loses it, and is reaped when what is left is below the existential deposit.  It
    succeeds when the sender may spend the amount, which excludes the part of the
    balance that is [locked], and the receiver can hold it; it puts no lock on the
    sender.
    Funds accounts are derived from the pallet's id, so distinct ids give
    distinct accounts and nobody signs for one. *)
Class ConfigLaws (T : Config) : Type := {
  ExistentialDeposit : Z;
  existential_le_deposit : 0 <= ExistentialDeposit <= MinimumDeposit;
  absolute_min_nonneg : 0 <= AbsoluteMinimumContribution;
  balance_nonneg x a : 0 <= balance x a;
  transfer_funds from to v x x' :
    from <> to -> 0 <= v -> transfer from to v x = Ok x' ->
    v <= balance x from /\ balance x' to = balance x to + v /\
    (balance x' from = balance x from - v \/
     balance x' from = 0 /\ balance x from - v < ExistentialDeposit);
  transfer_other from to v x x' a :
    transfer from to v x = Ok x' -> a <> from -> a <> to -> balance x' a = balance x a;
  transfer_self a v x x' b : transfer a a v x = Ok x' -> balance x' b = balance x b;
  (** What locks, freezes and references make unspendable of a balance. *)
  locked : Chain -> AccountId -> Z;
  transfer_succeeds from to v x :
    from <> to -> 0 <= v <= balance x from - locked x from ->
    ExistentialDeposit <= balance x to + v <= u64_max ->
    exists x', transfer from to v x = Ok x';
  transfer_locked from to v x x' : transfer from to v x = Ok x' -> locked x' from <= locked x from;
  bound_balance c x b x' a : preimages_bound c x = Ok (b, x') -> balance x a <= balance x' a;
  drop_balance c x a : balance x a <= balance (preimages_drop c x) a;
  inc_providers_balance who x a : balance (inc_providers who x) a = balance x a;
  dec_providers_balance who x a : balance (dec_providers who x) a = balance x a;
  funds_account_inj i j :
    0 <= i <= u32_max -> 0 <= j <= u32_max -> funds_account_of i = funds_account_of j -> i = j;
  signer_not_funds o who id : ensure_signed o = Some who -> who <> funds_account_of id;
  iter_prefix_spec m : iter_prefix m ≡ₚ map_to_list m;
}.

Section safety.
Context {T : Config} {L : ConfigLaws T}.
Implicit Types (s : State) (loan : CrowdloanInfo).

Abbreviation Storage := (M State (DispatchError RuntimeError)).

(** ** The invariant *)

Definition total (m : gmap AccountId Z) : Z := map_sum (fun _ v => v) m.

Record loan_ok s (id : Z) loan : Prop := mkLoanOk {
  lo_id : 0 <= id < NextCrowdloanId s;
  lo_funds : funds_account loan = funds_account_of id;
  lo_sum : total (contributions_of s id) = raised loan;
  lo_nonneg who v : contributions_of s id !! who = Some v -> 0 <= v;
  lo_count : Z.of_nat (size (contributions_of s id)) = contributors_count loan;
  lo_creator : exists v, contributions_of s id !! creator loan = Some v /\ deposit loan <= v /\
    forall max, MaxContributions s !! id = Some max -> v <= max;
  lo_signer who v id' : contributions_of s id !! who = Some v -> who <> funds_account_of id';
  lo_deposit : MinimumDeposit <= deposit loan;
  lo_cap : raised loan <= cap loan <= u64_max;
  lo_min : 0 <= min_contribution loan /\
    forall max, MaxContributions s !! id = Some max -> min_contribution loan <= max;
  lo_route : is_Some (call loan) /\ target_address loan = None \/
    call loan = None /\ is_Some (target_address loan);
  lo_backed : finalized loan = false -> raised loan <= balance (chain s) (funds_account_of id);
  lo_final : finalized loan = true -> raised loan = cap loan;
  lo_count_max : contributors_count loan <= u32_max;
}.

Record crowdloan_inv s : Prop := mkCrowdloanInv {
  ci_loan id loan : Crowdloans s !! id = Some loan -> loan_ok s id loan;
  ci_next : 0 <= NextCrowdloanId s <= u32_max;
  ci_fresh id : NextCrowdloanId s <= id ->
    contributions_of s id = ∅ /\ MaxContributions s !! id = None;
}.

(** A loan is not affected by steps that leave its rows alone and do not lower
    its funds account. *)
Lemma loan_ok_frame s s' id loan :
  loan_ok s id loan -> NextCrowdloanId s <= NextCrowdloanId s' ->
  contributions_of s' id = contributions_of s id ->
  MaxContributions s' !! id = MaxContributions s !! id ->
  (finalized loan = false ->
   balance (chain s) (funds_account_of id) <= balance (chain s') (funds_account_of id)) ->
  loan_ok s' id loan.
Proof.
  intros [] Hn Hc Hm Hb. split; rewrite ?Hc, ?Hm; try done; [lia|].
  intros Hf. specialize (Hb Hf). specialize (lo_backed0 Hf). lia.
Qed.

(** The state after a step that writes the rows of [id] only. *)
Record touches (id : Z) s s' : Prop := mkTouches {
  to_loan id' : id' <> id -> Crowdloans s' !! id' = Crowdloans s !! id';
  to_contributions id' : id' <> id -> contributions_of s' id' = contributions_of s id';
  to_max id' : id' <> id -> MaxContributions s' !! id' = MaxContributions s !! id';
  to_next : NextCrowdloanId s <= NextCrowdloanId s' <= u32_max;
  to_id : 0 <= id < NextCrowdloanId s';
  to_balance id' : id' <> id -> 0 <= id' <= u32_max ->
    balance (chain s) (funds_account_of id') <= balance (chain s') (funds_account_of id');
}.

Lemma touches_inv id s s' :
  crowdloan_inv s -> touches id s s' ->
  (forall loan, Crowdloans s' !! id = Some loan -> loan_ok s' id loan) -> crowdloan_inv s'.
Proof.
  intros [Hl Hn Hf] [T1 T2 T3 T4 T5 T6] Hid. split.
  - intros id' loan. destruct (decide (id' = id)) as [->|Hne]; [apply Hid|].
    rewrite T1 by done. intros Hloan. apply Hl in Hloan as Hok.
    eapply loan_ok_frame; [exact Hok|lia|by apply T2|by apply T3|].
    intros _. apply T6; [done|]. pose proof (lo_id _ _ _ Hok). lia.
  - lia.
  - intros id' Hid'. assert (id' <> id) by lia. rewrite T2, T3 by done. apply Hf. lia.
Qed.

(** ** Inversion of the pallet's primitives *)

Lemma transfer_inv from to v s s' u :
  currency_transfer from to v s = (Ok u, s') ->
  exists x, transfer from to v (chain s) = Ok x /\ s' = set_chain x s.
Proof.
  unfold currency_transfer. destruct (transfer _ _ _ _); intros [= _ <-]. eauto.
Qed.

Lemma bound_inv c s b s' :
  bound_call c s = (Ok b, s') ->
  exists x, preimages_bound c (chain s) = Ok (b, x) /\ s' = set_chain x s.
Proof.
  unfold bound_call. destruct (preimages_bound _ _) as [[]|]; intros [= <- <-]. eauto.
Qed.

(** A transfer lowers no account but the sender's. *)
Lemma transfer_mono from to v x x' a :
  0 <= v -> transfer from to v x = Ok x' -> a <> from -> balance x a <= balance x' a.
Proof.
  intros Hv Ht Ha. destruct (decide (from = to)) as [->|Hne].
  { rewrite (transfer_self _ _ _ _ a Ht). lia. }
  destruct (transfer_funds _ _ _ _ _ Hne Hv Ht) as (_ & Hto & _).
  destruct (decide (a = to)) as [->|Hto']; [lia|].
  rewrite (transfer_other _ _ _ _ _ a Ht) by done. lia.
Qed.
End safety.

Ltac cinv :=
  unfold ensure_crowdloan_exists, ensure_valid_end in *;
  unfold require, or_error, signed, currency_balance, block_number_now, get_contribution,
    put_crowdloan, put_contribution, remove_contribution, on_chain,
    deposit_event in *;
  repeat first
    [ minv_step
    | match goal with
      | H : currency_transfer _ _ _ _ = (Ok _, _) |- _ =>
          apply transfer_inv in H; destruct H as (? & ? & ?); subst
      | H : Some _ = _ !! _ |- _ => symmetry in H
      | H : bound_call _ _ = (Ok _, _) |- _ => apply bound_inv in H; destruct H as (? & ? & ?); subst
      end ].

Section preservation.
Context {T : Config} {L : ConfigLaws T}.
Implicit Types (s : State) (loan : CrowdloanInfo).

Lemma contributions_set_eq id m s : contributions_of (set_contributions id m s) id = m.
Proof. unfold contributions_of. simpl. by rewrite lookup_insert_eq. Qed.

Lemma contributions_set_ne id id' m s :
  id' <> id -> contributions_of (set_contributions id m s) id' = contributions_of s id'.
Proof. intros. unfold contributions_of. simpl. by rewrite lookup_insert_ne. Qed.

(** [contributions_of] looks at one field only. *)
Lemma contributions_of_ext s s' id :
  Contributions s' = Contributions s -> contributions_of s' id = contributions_of s id.
Proof. unfold contributions_of. by intros ->. Qed.

Lemma total_insert m who v :
  total (<[who := v]> m) = total m - default 0 (m !! who) + v.
Proof. unfold total. rewrite map_sum_update. by destruct (m !! who). Qed.

Lemma total_delete m who : total (delete who m) = total m - default 0 (m !! who).
Proof. unfold total. rewrite map_sum_delete. by destruct (m !! who). Qed.

(** What a successful [create] did. *)
Lemma create_effect origin dep minc cp e c t s u s' :
  create origin dep minc cp e c t s = (Ok u, s') ->
  exists who bc x1 x2, let id := NextCrowdloanId s in
    ensure_signed origin = Some who /\ MinimumDeposit <= dep < cp /\
    AbsoluteMinimumContribution <= minc /\ id + 1 <= u32_max /\
    (is_Some bc /\ t = None \/ bc = None /\ is_Some t) /\
    transfer who (funds_account_of id) dep x1 = Ok x2 /\
    (forall a, balance (chain s) a <= balance x1 a) /\
    s' = mkState
      (<[id := mkCrowdloanInfo who dep minc e cp (funds_account_of id) dep t bc false 1]> (Crowdloans s))
      (id + 1) (<[id := <[who := dep]> (contributions_of s id)]> (Contributions s))
      (MaxContributions s) (CurrentCrowdloanId s) (Events s ++ [Created id who e cp]) x2.
Proof.
  intros H. unfold create in H.
  destruct c as [c|], t as [t|]; cinv; bool_to_prop; simpl in *; try done.
  all: subst.
  - do 4 eexists. split_and!; try done; try lia; [by left|].
    intros a. erewrite <- inc_providers_balance. by eapply bound_balance.
  - do 4 eexists. split_and!; try done; try lia; [by right|].
    intros a. by rewrite inc_providers_balance.
Qed.

Lemma fresh_size (who : AccountId) (v : Z) : size (<[who := v]> (∅ : gmap AccountId Z)) = 1%nat.
Proof. by rewrite map_size_insert_None by apply lookup_empty. Qed.

Lemma create_inv origin dep minc cp e c t s u s' :
  crowdloan_inv s -> cp <= u64_max -> create origin dep minc cp e c t s = (Ok u, s') ->
  crowdloan_inv s'.
Proof.
  intros Hinv Hcp (who & bc & x1 & x2 & Hs & Hd & Hm & Hn & Hroute & Ht & Hx1 & ->)%create_effect.
  pose proof existential_le_deposit. pose proof absolute_min_nonneg.
  assert (Hdep : 0 <= dep) by lia.
  set (id := NextCrowdloanId s) in *. assert (Hid : id = NextCrowdloanId s) by done.
  destruct (ci_fresh _ Hinv id ltac:(done)) as [Hc0 Hm0]. pose proof (ci_next _ Hinv) as Hnext.
  pose proof (signer_not_funds _ _ id Hs) as Hwho.
  destruct (transfer_funds _ _ _ _ _ Hwho Hdep Ht) as (Hle & Hto & _).
  apply (touches_inv id s); [done| |].
  - split; simpl; try (intros id' Hne); rewrite ?lookup_insert_ne by done; try done; try lia.
    + unfold contributions_of. simpl. by rewrite lookup_insert_ne.
    + intros Hid'. eapply Z.le_trans; [apply Hx1|].
      eapply transfer_mono; [|exact Ht|apply not_eq_sym; by eapply signer_not_funds]. lia.
  - simpl. rewrite lookup_insert_eq. intros loan [= <-].
    assert (Hc : contributions_of (mkState (<[id := mkCrowdloanInfo who dep minc e cp
      (funds_account_of id) dep t bc false 1]> (Crowdloans s)) (id + 1)
      (<[id := <[who := dep]> (contributions_of s id)]> (Contributions s))
      (MaxContributions s) (CurrentCrowdloanId s) (Events s ++ [Created id who e cp]) x2) id =
      <[who := dep]> ∅).
    { unfold contributions_of at 1. simpl. rewrite lookup_insert_eq. simpl. by rewrite Hc0. }
    split; simpl; rewrite ?Hc; try done; try lia.
    + rewrite total_insert, lookup_empty. unfold total. rewrite map_sum_empty. simpl. lia.
    + intros a v [[_ <-]|[_ ?]]%lookup_insert_Some; [lia|]. by rewrite lookup_empty in *.
    + by rewrite fresh_size.
    + exists dep. rewrite lookup_insert_eq. split_and!; try done. by rewrite Hm0.
    + intros a v id' [[<- _]|[_ ?]]%lookup_insert_Some; [by eapply signer_not_funds|].
      by rewrite lookup_empty in *.
    + split; [lia|]. by rewrite Hm0.
    + intros _. pose proof (balance_nonneg x1 (funds_account_of id)). lia.
Qed.

(** The part of a contribution the crowdloan can still take. *)
Definition accepted s (id : Z) loan (who : AccountId) (amount : Z) : Z :=
  let room := cap loan - raised loan in
  match MaxContributions s !! id with
  | Some max => Z.min (Z.min amount (max - default 0 (contributions_of s id !! who))) room
  | None => Z.min amount room
  end.

Definition new_count s (id : Z) loan (who : AccountId) : Z :=
  match contributions_of s id !! who with
  | Some _ => contributors_count loan
  | None => contributors_count loan + 1
  end.

(** What a successful [contribute] did. *)
Lemma contribute_effect origin id amount s u s' :
  contribute origin id amount s = (Ok u, s') ->
  exists who loan x, let a := accepted s id loan who amount in
    let c := default 0 (contributions_of s id !! who) in
    ensure_signed origin = Some who /\ Crowdloans s !! id = Some loan /\
    block_number (chain s) < end_ loan /\ raised loan < cap loan /\
    min_contribution loan <= amount /\ contributors_count loan < MaxContributors /\
    (forall max, MaxContributions s !! id = Some max -> c < max) /\
    raised loan + a <= u64_max /\ new_count s id loan who <= Z.max u32_max (contributors_count loan) /\
    transfer who (funds_account loan) a (chain s) = Ok x /\
    s' = mkState (<[id := with_raised loan (raised loan + a) (new_count s id loan who)]> (Crowdloans s))
      (NextCrowdloanId s) (<[id := <[who := c + a]> (contributions_of s id)]> (Contributions s))
      (MaxContributions s) (CurrentCrowdloanId s) (Events s ++ [Contributed id who a]) x.
Proof.
  intros H. unfold contribute, accepted_amount in H. cinv. bool_to_prop.
  rename select (Crowdloans _ !! id = Some _) into Hloan.
  rename select (raised _ < cap _) into Hcap.
  unfold accepted, new_count.
  destruct (MaxContributions s !! id) as [max|] eqn:Emax; cinv; bool_to_prop; subst.
  all: destruct (contributions_of s id !! _) as [c|] eqn:Ec; cinv; bool_to_prop; simpl in *; subst.
  all: do 3 eexists; split; [done|]; rewrite Ec; split_and!; simpl; try done; try lia.
  all: by intros ? [= <-].
Qed.

(** Steps that write the rows of an existing crowdloan. *)
Lemma touches_existing s s' id loan :
  crowdloan_inv s -> Crowdloans s !! id = Some loan ->
  (forall id', id' <> id -> Crowdloans s' !! id' = Crowdloans s !! id') ->
  (forall id', id' <> id -> contributions_of s' id' = contributions_of s id') ->
  (forall id', id' <> id -> MaxContributions s' !! id' = MaxContributions s !! id') ->
  NextCrowdloanId s' = NextCrowdloanId s ->
  (forall id', id' <> id -> 0 <= id' <= u32_max ->
    balance (chain s) (funds_account_of id') <= balance (chain s') (funds_account_of id')) ->
  touches id s s'.
Proof.
  intros Hinv Hl. pose proof (ci_next _ Hinv). pose proof (lo_id _ _ _ (ci_loan _ Hinv _ _ Hl)).
  intros. split; try done; lia.
Qed.

Lemma accepted_range s id loan who amount :
  loan_ok s id loan -> raised loan < cap loan -> min_contribution loan <= amount ->
  (forall max, MaxContributions s !! id = Some max ->
    default 0 (contributions_of s id !! who) < max) ->
  let a := accepted s id loan who amount in
  0 <= a <= amount /\ raised loan + a <= cap loan /\
  (forall max, MaxContributions s !! id = Some max ->
    default 0 (contributions_of s id !! who) + a <= max).
Proof.
  intros Hok Hcap Hmin Hmax. pose proof (lo_min _ _ _ Hok) as [H0 _]. unfold accepted.
  destruct (MaxContributions s !! id) as [max|].
  - specialize (Hmax max eq_refl). split_and!; try lia. intros ? [= <-]. lia.
  - split_and!; try lia. done.
Qed.

Lemma new_count_size s id loan who v :
  loan_ok s id loan ->
  Z.of_nat (size (<[who := v]> (contributions_of s id))) = new_count s id loan who.
Proof.
  intros Hok. pose proof (lo_count _ _ _ Hok). unfold new_count.
  destruct (contributions_of s id !! who) eqn:E.
  - rewrite map_size_insert_Some by eauto. done.
  - rewrite map_size_insert_None by done. lia.
Qed.

Lemma contribute_inv origin id amount s u s' :
  crowdloan_inv s -> contribute origin id amount s = (Ok u, s') -> crowdloan_inv s'.
Proof.
  intros Hinv (who & loan & x & Hs & Hl & _ & Hcap & Hmin & _ & Hmax & Hu & Hnc & Ht & ->)%contribute_effect.
  pose proof (ci_loan _ Hinv _ _ Hl) as Hok.
  destruct (accepted_range s id loan who amount Hok Hcap Hmin Hmax) as (Ha & Hacap & Hamax).
  rewrite (lo_funds _ _ _ Hok) in Ht. set (a := accepted s id loan who amount) in *.
  pose proof (signer_not_funds _ _ id Hs) as Hwho.
  destruct (transfer_funds _ _ _ _ _ Hwho (proj1 Ha) Ht) as (_ & Hto & _).
  apply (touches_inv id s); [done| |].
  - apply (touches_existing _ _ _ loan); try done; simpl; intros id' Hne.
    + by rewrite lookup_insert_ne.
    + unfold contributions_of. simpl. by rewrite lookup_insert_ne.
    + intros _. eapply transfer_mono; [apply Ha|exact Ht|]. apply not_eq_sym. by eapply signer_not_funds.
  - simpl. rewrite lookup_insert_eq. intros loan' [= <-].
    pose proof (new_count_size s id loan who
      (default 0 (contributions_of s id !! who) + a) Hok) as Hcount.
    set (c := default 0 (contributions_of s id !! who)) in *.
    set (s' := mkState _ _ _ _ _ _ _).
    assert (Hc : contributions_of s' id = <[who := c + a]> (contributions_of s id)).
    { unfold contributions_of at 1, s'. simpl. by rewrite lookup_insert_eq. }
    assert (Hc0 : 0 <= c).
    { unfold c. destruct (contributions_of s id !! who) eqn:E; [by eapply lo_nonneg|done]. }
    destruct Hok as [I1 I2 I3 I4 I5 (v & I6 & I6' & I6'') I7 I8 I9 I10 I11 I12 I13 I14].
    split; rewrite ?Hc; simpl; try done; try lia.
    + rewrite total_insert. fold c. lia.
    + intros w v' [[_ <-]|[_ ?]]%lookup_insert_Some; [lia|eauto].
    + destruct (decide (who = creator loan)) as [->|Hne].
      * exists (c + a). rewrite lookup_insert_eq. unfold c in *. rewrite I6 in *. simpl in *.
        split_and!; [done|lia|done].
      * exists v. by rewrite lookup_insert_ne.
    + intros w v' id' [[<- _]|[_ ?]]%lookup_insert_Some; [by eapply signer_not_funds|eauto].
    + intros Hf. specialize (I12 Hf). lia.
    + intros Hf. specialize (I13 Hf). lia.
Qed.

(** ** Withdrawals *)

(** What [who] can take out: the creator keeps the deposit in. *)
Definition withdrawable loan (who : AccountId) (c : Z) : Z :=
  if decide (who = creator loan) then c - deposit loan else c.

Definition after_withdraw loan (who : AccountId) (m : gmap AccountId Z) : gmap AccountId Z :=
  if decide (who = creator loan) then <[who := deposit loan]> m else delete who m.

Definition count_after_withdraw loan (who : AccountId) : Z :=
  if decide (who = creator loan) then contributors_count loan else contributors_count loan - 1.

Lemma withdraw_effect origin id s u s' :
  withdraw origin id s = (Ok u, s') ->
  exists who loan c x, let a := withdrawable loan who c in
    ensure_signed origin = Some who /\ Crowdloans s !! id = Some loan /\ finalized loan = false /\
    contributions_of s id !! who = Some c /\ 0 < a /\
    transfer (funds_account loan) who a (chain s) = Ok x /\
    s' = mkState
      (<[id := with_raised loan (saturating_sub (raised loan) a) (count_after_withdraw loan who)]>
        (Crowdloans s))
      (NextCrowdloanId s) (<[id := after_withdraw loan who (contributions_of s id)]> (Contributions s))
      (MaxContributions s) (CurrentCrowdloanId s) (Events s ++ [Withdrew id who a]) x.
Proof.
  intros H. unfold withdraw in H. cinv. bool_to_prop.
  rename select (Crowdloans _ !! id = Some _) into Hl. rename select (0 < default 0 _) into Hc.
  destruct (contributions_of s id !! _) as [c|] eqn:Ec; simpl in Hc; [|lia].
  unfold withdrawable, after_withdraw, count_after_withdraw.
  case_bool_decide as Ew; cinv; bool_to_prop; subst; simpl in *.
  - unfold saturating_sub in *.
    match goal with |- context [Z.max 0 (c - ?d)] =>
      assert (Hm : Z.max 0 (c - d) = c - d) by lia; rewrite Hm in * end.
    do 4 eexists. do 4 (split; [done|]). rewrite !decide_True by done. split_and!; [lia|done..].
  - do 4 eexists. do 4 (split; [done|]). rewrite !decide_False by done. split_and!; done.
Qed.

(** Leaving the deposit in keeps the funds account from being reaped. *)
Lemma spend_funds s id loan to v x :
  loan_ok s id loan -> finalized loan = false -> to <> funds_account_of id -> 0 <= v ->
  v + deposit loan <= raised loan ->
  transfer (funds_account loan) to v (chain s) = Ok x ->
  balance x (funds_account_of id) = balance (chain s) (funds_account_of id) - v /\
  balance x to = balance (chain s) to + v.
Proof.
  intros Hok Hf Hto Hv Hle Ht. pose proof (lo_backed _ _ _ Hok Hf). pose proof (lo_deposit _ _ _ Hok).
  rewrite (lo_funds _ _ _ Hok) in Ht. pose proof existential_le_deposit.
  destruct (transfer_funds _ _ _ _ _ (not_eq_sym Hto) Hv Ht) as (_ & Hb & [Hfrom|Hfrom]); [done|lia].
Qed.

(** A contribution and the creator's deposit are both part of what was raised. *)
Lemma contribution_le_raised s id loan who c :
  loan_ok s id loan -> contributions_of s id !! who = Some c ->
  withdrawable loan who c + deposit loan <= raised loan.
Proof.
  intros Hok Hc. destruct (lo_creator _ _ _ Hok) as (v & Hv & Hd & _).
  pose proof (lo_sum _ _ _ Hok) as Hsum. unfold withdrawable.
  destruct (decide (who = creator loan)) as [->|Hne].
  - assert (c <= total (contributions_of s id)); [|lia].
    pose proof (map_sum_lookup_le (fun _ v => v) (contributions_of s id) (creator loan)
      (lo_nonneg _ _ _ Hok)) as Hle. rewrite Hc in Hle. exact Hle.
  - pose proof (total_delete (contributions_of s id) who) as Hdel. rewrite Hc in Hdel. simpl in Hdel.
    pose proof (map_sum_lookup_le (fun _ v => v) (delete who (contributions_of s id)) (creator loan)) as Hle.
    rewrite lookup_delete_ne, Hv in Hle by done. simpl in Hle. unfold total in *.
    enough (v <= map_sum (fun _ v => v) (delete who (contributions_of s id))) by lia.
    apply Hle. intros k w [_ Hk]%lookup_delete_Some. by eapply lo_nonneg.
Qed.

Lemma after_withdraw_lookup s id loan who w v :
  after_withdraw loan who (contributions_of s id) !! w = Some v ->
  (w = creator loan /\ who = creator loan /\ v = deposit loan) \/ contributions_of s id !! w = Some v.
Proof.
  unfold after_withdraw. destruct (decide _) as [->|].
  - intros [[<- <-]|[_ ?]]%lookup_insert_Some; auto.
  - intros [_ ?]%lookup_delete_Some. auto.
Qed.

Section after_withdraw.
Context (s : State) (id : Z) (loan : CrowdloanInfo) (who : AccountId) (c : Z).
Context (Hok : loan_ok s id loan) (Hc : contributions_of s id !! who = Some c).

Lemma after_withdraw_total :
  total (after_withdraw loan who (contributions_of s id)) = raised loan - withdrawable loan who c.
Proof.
  pose proof (lo_sum _ _ _ Hok). unfold after_withdraw, withdrawable.
  destruct (decide _); rewrite ?total_insert, ?total_delete, Hc; simpl; lia.
Qed.

Lemma after_withdraw_size :
  Z.of_nat (size (after_withdraw loan who (contributions_of s id))) = count_after_withdraw loan who.
Proof.
  pose proof (lo_count _ _ _ Hok). unfold after_withdraw, count_after_withdraw.
  destruct (decide _).
  - rewrite map_size_insert_Some by eauto. done.
  - rewrite map_size_delete_Some by eauto.
    assert (size (contributions_of s id) <> 0%nat); [|lia].
    intros Hz%map_size_empty_inv. rewrite Hz, lookup_empty in Hc. done.
Qed.

Lemma after_withdraw_creator :
  exists v, after_withdraw loan who (contributions_of s id) !! creator loan = Some v /\
    deposit loan <= v /\ forall max, MaxContributions s !! id = Some max -> v <= max.
Proof.
  destruct (lo_creator _ _ _ Hok) as (v & Hv & Hd & Hm). unfold after_withdraw.
  destruct (decide _) as [->|Hne].
  - exists (deposit loan). rewrite lookup_insert_eq. split_and!; [done|lia|].
    intros max Hmax. specialize (Hm max Hmax). lia.
  - exists v. by rewrite lookup_delete_ne.
Qed.
End after_withdraw.

Lemma withdraw_inv origin id s u s' :
  crowdloan_inv s -> withdraw origin id s = (Ok u, s') -> crowdloan_inv s'.
Proof.
  intros Hinv (who & loan & c & x & Hs & Hl & Hf & Hc & Ha & Ht & ->)%withdraw_effect.
  pose proof (ci_loan _ Hinv _ _ Hl) as Hok.
  pose proof (contribution_le_raised s id loan who c Hok Hc) as Hle.
  pose proof (signer_not_funds _ _ id Hs) as Hwho.
  destruct (spend_funds s id loan who (withdrawable loan who c) x Hok Hf Hwho ltac:(lia) Hle Ht) as [Hb _].
  pose proof (after_withdraw_total s id loan who c Hok Hc) as Htot.
  pose proof (after_withdraw_size s id loan who c Hok Hc) as Hsz.
  pose proof (after_withdraw_creator s id loan who c Hok Hc) as Hcr.
  pose proof (lo_backed _ _ _ Hok Hf) as Hbk. pose proof existential_le_deposit.
  set (a := withdrawable loan who c) in *.
  apply (touches_inv id s); [done| |].
  - apply (touches_existing _ _ _ loan); try done; simpl; intros id' Hne.
    + by rewrite lookup_insert_ne.
    + unfold contributions_of. simpl. by rewrite lookup_insert_ne.
    + intros Hid'. eapply transfer_mono; [|exact Ht|]; [lia|]. rewrite (lo_funds _ _ _ Hok).
      intros Heq%funds_account_inj; [done..|]. pose proof (lo_id _ _ _ Hok). pose proof (ci_next _ Hinv). lia.
  - simpl. rewrite lookup_insert_eq. intros loan' [= <-]. set (s' := mkState _ _ _ _ _ _ _).
    assert (Hc' : contributions_of s' id = after_withdraw loan who (contributions_of s id)).
    { unfold contributions_of at 1, s'. simpl. by rewrite lookup_insert_eq. }
    destruct Hok as [I1 I2 I3 I4 I5 I6 I7 I8 I9 I10 I11 I12 I13 I14].
    assert (Hr : saturating_sub (raised loan) a = raised loan - a) by (unfold saturating_sub; lia).
    split; rewrite ?Hc'; simpl; rewrite ?Hr, ?Hf; try done; try lia.
    + intros w v [(_ & _ & ->)|?]%after_withdraw_lookup; [lia|eauto].
    + intros w v id' [(-> & <- & _)|?]%after_withdraw_lookup; [by eapply signer_not_funds|eauto].
    + unfold count_after_withdraw. destruct (decide _); lia.
Qed.

(** ** Refunds *)

Definition sum_of (l : list (AccountId * Z)) : Z := foldr (fun c acc => c.2 + acc) 0 l.

(** The transfers of a refund, in order. *)
Fixpoint pays (funds : AccountId) (l : list (AccountId * Z)) (x x' : Chain) : Prop :=
  match l with
  | [] => x' = x
  | (who, a) :: l => exists x1, transfer funds who a x = Ok x1 /\ pays funds l x1 x'
  end.

(** The loop pays a prefix of the list: all of it, or as much as the limit allows. *)
Lemma refund_loop_effect funds l : forall refunded r n s res s',
  refund_loop funds l refunded r n s = (Ok res, s') ->
  exists k x, (k <= length l)%nat /\
    res = (refunded ++ (take k l).*1, foldl (fun r c => saturating_sub r c.2) r (take k l),
           n + Z.of_nat k, bool_decide (k = length l)) /\
    s' = set_chain x s /\ pays funds (take k l) (chain s) x /\
    (k = length l \/ RefundContributorsLimit <= n + Z.of_nat k) /\
    (k = 0%nat \/ n + Z.of_nat k <= Z.max n RefundContributorsLimit).
Proof.
  induction l as [|[w a] l IH]; intros refunded r n s res s' H; simpl in H.
  - cinv. exists 0%nat, (chain s). simpl. rewrite app_nil_r, Z.add_0_r.
    split_and!; try done; [by destruct s|by left..].
  - destruct (_ <=? n) eqn:E; bool_to_prop; cinv.
    + exists 0%nat, (chain s). simpl. rewrite app_nil_r, Z.add_0_r.
      split_and!; try done; [lia|by destruct s|right; lia|by left].
    + bool_to_prop. subst. apply IH in H as (k & xe & Hk & -> & -> & Hp & Hend & Hlim).
      exists (S k), xe. simpl in *. split_and!; try done; try lia.
      * rewrite <- app_assoc. simpl. f_equal; [f_equal; lia|]. apply bool_decide_ext. lia.
      * eauto.
Qed.

Lemma for_each_remove id names : forall s u s',
  for_each names (remove_contribution id) s = (Ok u, s') ->
  Crowdloans s' = Crowdloans s /\ NextCrowdloanId s' = NextCrowdloanId s /\
  MaxContributions s' = MaxContributions s /\ CurrentCrowdloanId s' = CurrentCrowdloanId s /\
  Events s' = Events s /\ chain s' = chain s /\
  contributions_of s' id = foldl (fun m w => delete w m) (contributions_of s id) names /\
  (forall id', id' <> id -> contributions_of s' id' = contributions_of s id').
Proof.
  induction names as [|w names IH]; intros s u s' H; simpl in H.
  - cinv. done.
  - cinv. apply IH in H as (H1 & H2 & H3 & H4 & H5 & H6 & H7 & H8).
    rewrite H1, H2, H3, H4, H5, H6, H7. split_and!; try done.
    + by rewrite contributions_set_eq.
    + intros id' Hne. rewrite H8 by done. by apply contributions_set_ne.
Qed.

(** Entries of the map [m], without repetition and without the creator. *)
Definition paid_ok (m : gmap AccountId Z) (c : AccountId) (l : list (AccountId * Z)) : Prop :=
  NoDup l.*1 /\ forall w a, (w, a) ∈ l -> m !! w = Some a /\ w <> c.

Lemma paid_ok_take m c l k : paid_ok m c l -> paid_ok m c (take k l).
Proof.
  intros [Hnd Hl]. split.
  - rewrite fmap_take. eapply sublist_NoDup; [exact Hnd|apply sublist_take].
  - intros w a Hin. apply Hl. by eapply elem_of_take in Hin as (? & ? & _); eapply list_elem_of_lookup_2.
Qed.

Lemma paid_ok_iter m c : paid_ok m c (filter (fun e => e.1 <> c) (iter_prefix m)).
Proof.
  pose proof (iter_prefix_spec m) as Hp. split.
  - eapply sublist_NoDup; [|apply fmap_sublist, sublist_filter].
    rewrite Hp. apply NoDup_fst_map_to_list.
  - intros w a [Hne Hin]%list_elem_of_filter. rewrite Hp, elem_of_map_to_list in Hin. done.
Qed.

Lemma remove_paid c l : forall m, paid_ok m c l ->
  let m' := foldl (fun m w => delete w m) m l.*1 in
  total m' = total m - sum_of l /\ (size m' + length l)%nat = size m /\
  (forall w v, m' !! w = Some v -> m !! w = Some v /\ w ∉ l.*1) /\
  (forall w, w ∉ l.*1 -> m' !! w = m !! w).
Proof.
  unfold sum_of. induction l as [|[w a] l IH]; intros m [Hnd Hl];
    [simpl|rewrite fmap_cons in *; cbn [foldl foldr fst snd length] in *].
  { split_and!; try done; try lia. intros ? ? Hm. split; [done|]. apply not_elem_of_nil. }
  apply list.NoDup_cons in Hnd as [Hw Hnd]. destruct (Hl w a) as [Hwa Hwc]; [left|].
  destruct (IH (delete w m)) as (Ht & Hs & Hlk & Heq).
  { split; [done|]. intros w' a' Hin. destruct (Hl w' a') as [Hm Hne]; [by right|]. split; [|done].
    rewrite lookup_delete_ne; [done|]. intros <-. apply Hw. apply (list_elem_of_fmap_2' fst _ _ _ Hin). done. }
  rewrite Ht, total_delete, Hwa. rewrite map_size_delete_Some in Hs by eauto.
  assert (size m <> 0%nat).
  { intros Hz%map_size_empty_inv. by rewrite Hz, lookup_empty in Hwa. }
  split_and!; [cbn [default from_option id]; lia|lia| |].
  - intros w' v [[Hne Hm]%lookup_delete_Some Hn]%Hlk. split; [done|].
    apply not_elem_of_cons. split; [congruence|done].
  - intros w' [Hnw Hn]%not_elem_of_cons. rewrite Heq by done. by rewrite lookup_delete_ne.
Qed.

(** The amounts of the entries are not negative. *)
Lemma saturating_sums l r :
  (forall w a, (w, a) ∈ l -> 0 <= a) -> sum_of l <= r ->
  0 <= sum_of l /\ foldl (fun r c => saturating_sub r c.2) r l = r - sum_of l.
Proof.
  unfold sum_of. revert r. induction l as [|[w a] l IH]; intros r Hl Hle; simpl in *; [lia|].
  assert (0 <= a) by (apply (Hl w); left).
  assert (Hl' : forall w a, (w, a) ∈ l -> 0 <= a) by (intros w' a' ?; apply (Hl w'); by right).
  destruct (IH (r - a) Hl' ltac:(lia)) as [H0 H1]. split; [lia|].
  unfold saturating_sub at 2. rewrite Z.max_r by lia. rewrite H1. lia.
Qed.

(** Paying a list out of a funds account that keeps [floor] in it. *)
Lemma pays_spec funds floor l : forall x x',
  (forall w a, (w, a) ∈ l -> 0 <= a /\ w <> funds) -> NoDup l.*1 ->
  ExistentialDeposit <= floor -> 0 <= floor -> sum_of l + floor <= balance x funds ->
  pays funds l x x' ->
  balance x' funds = balance x funds - sum_of l /\
  (forall w a, (w, a) ∈ l -> balance x' w = balance x w + a) /\
  (forall w, w <> funds -> w ∉ l.*1 -> balance x' w = balance x w).
Proof.
  unfold sum_of. induction l as [|[w a] l IH]; intros x x' Hl Hnd Hed Hf Hle Hp; simpl in *.
  { subst. split_and!; [lia| |done]. intros ? ? ?%not_elem_of_nil. done. }
  destruct Hp as (x1 & Ht & Hp). apply list.NoDup_cons in Hnd as [Hw Hnd].
  destruct (Hl w a) as [Ha Hwf]; [left|].
  assert (Hl' : forall w a, (w, a) ∈ l -> 0 <= a /\ w <> funds) by (intros; apply Hl; by right).
  destruct (saturating_sums l (sum_of l) (fun w a H => proj1 (Hl' w a H)) ltac:(lia)) as [H0 _].
  unfold sum_of in H0.
  destruct (transfer_funds _ _ _ _ _ (not_eq_sym Hwf) Ha Ht) as (_ & Hto & [Hfrom|Hfrom]); [|lia].
  destruct (IH x1 x' Hl' Hnd Hed Hf ltac:(lia) Hp) as (I1 & I2 & I3). split_and!; [lia| |].
  - intros w' a' [[= -> ->]|Hin]%elem_of_cons; [by rewrite I3|].
    rewrite (I2 _ _ Hin). f_equal. eapply transfer_other; [done|by apply (Hl' w' a')|].
    intros ->. apply Hw. by apply (list_elem_of_fmap_2' fst _ _ _ Hin).
  - intros w' Hne [Hnw Hn]%not_elem_of_cons. rewrite I3 by done. by eapply transfer_other.
Qed.

(** What a successful [refund] did: it paid the first contributors of the
    iteration, other than the creator, up to the limit. *)
Lemma refund_effect origin id s u s' :
  refund origin id s = (Ok u, s') ->
  exists loan k x,
    let l := filter (fun e => e.1 <> creator loan) (iter_prefix (contributions_of s id)) in
    let paid := take k l in
    ensure_signed origin = Some (creator loan) /\ Crowdloans s !! id = Some loan /\
    finalized loan = false /\ (k <= length l)%nat /\
    (k = length l \/ RefundContributorsLimit <= Z.of_nat k) /\
    (k = 0%nat \/ Z.of_nat k <= Z.max 0 RefundContributorsLimit) /\
    Z.of_nat k <= contributors_count loan /\
    pays (funds_account loan) paid (chain s) x /\
    Crowdloans s' = <[id := with_raised loan
      (foldl (fun r c => saturating_sub r c.2) (raised loan) paid)
      (contributors_count loan - Z.of_nat k)]> (Crowdloans s) /\
    NextCrowdloanId s' = NextCrowdloanId s /\ MaxContributions s' = MaxContributions s /\
    CurrentCrowdloanId s' = CurrentCrowdloanId s /\ chain s' = x /\
    contributions_of s' id = foldl (fun m w => delete w m) (contributions_of s id) paid.*1 /\
    (forall id', id' <> id -> contributions_of s' id' = contributions_of s id') /\
    Events s' = Events s ++
      [if decide (k = length l) then AllRefunded id else PartiallyRefunded id].
Proof.
  intros H. unfold refund in H. cinv. bool_to_prop. subst.
  rename select (refund_loop _ _ _ _ _ _ = _) into Hloop.
  apply refund_loop_effect in Hloop as (k & x' & Hk & -> & -> & Hp & Hend & Hlim).
  cinv. bool_to_prop. subst. rename select (for_each _ _ _ = _) into Hrm.
  apply (for_each_remove id) in Hrm as (R1 & R2 & R3 & R4 & R5 & R6 & R7 & R8).
  simpl in *. rewrite ?Z.add_0_l in *. do 3 eexists. split_and!; try done.
  rewrite R5. f_equal. f_equal. case_bool_decide; by case_decide.
Qed.

(** What is paid, plus the deposit, is part of what was raised. *)
Lemma paid_bounds s id loan l :
  loan_ok s id loan -> paid_ok (contributions_of s id) (creator loan) l ->
  let m' := foldl (fun m w => delete w m) (contributions_of s id) l.*1 in
  (forall w a, (w, a) ∈ l -> 0 <= a /\ w <> funds_account_of id) /\
  m' !! creator loan = contributions_of s id !! creator loan /\
  0 <= sum_of l /\ sum_of l + deposit loan <= raised loan.
Proof.
  intros Hok Hp m'. destruct (remove_paid _ _ _ Hp) as (Ht & _ & Hlk & Heq). fold m' in Ht, Hlk, Heq.
  assert (Hl : forall w a, (w, a) ∈ l -> 0 <= a /\ w <> funds_account_of id).
  { intros w a [Hw _]%(proj2 Hp). split; [by eapply lo_nonneg|by eapply lo_signer]. }
  assert (Hcr : m' !! creator loan = contributions_of s id !! creator loan).
  { apply Heq. intros ([w a] & E & Hin)%list_elem_of_fmap. apply Hp in Hin as [_ Hne]. by subst. }
  destruct (lo_creator _ _ _ Hok) as (v & Hv & Hd & _).
  assert (Hle : v <= total m').
  { unfold total. pose proof (map_sum_lookup_le (fun _ v => v) m' (creator loan)) as Hle.
    rewrite Hcr, Hv in Hle. apply Hle. intros w a [Hw _]%Hlk. by eapply lo_nonneg. }
  pose proof (lo_sum _ _ _ Hok).
  destruct (saturating_sums l (sum_of l) (fun w a H => proj1 (Hl w a H)) ltac:(lia)) as [H0 _].
  split_and!; try done. lia.
Qed.

Lemma paid_balances s id loan l x :
  loan_ok s id loan -> finalized loan = false ->
  paid_ok (contributions_of s id) (creator loan) l -> pays (funds_account loan) l (chain s) x ->
  balance x (funds_account_of id) = balance (chain s) (funds_account_of id) - sum_of l /\
  (forall w a, (w, a) ∈ l -> balance x w = balance (chain s) w + a) /\
  (forall w, w <> funds_account_of id -> w ∉ l.*1 -> balance x w = balance (chain s) w).
Proof.
  intros Hok Hf Hp Hpay. destruct (paid_bounds _ _ _ _ Hok Hp) as (Hl & _ & H0 & Hle).
  pose proof (lo_backed _ _ _ Hok Hf). pose proof (lo_deposit _ _ _ Hok).
  pose proof existential_le_deposit. rewrite (lo_funds _ _ _ Hok) in Hpay.
  apply (pays_spec _ (deposit loan)); try done; try lia. apply Hp.
Qed.

Lemma refund_inv origin id s u s' :
  crowdloan_inv s -> refund origin id s = (Ok u, s') -> crowdloan_inv s'.
Proof.
  intros Hinv (loan & k & x & Hs & Hl & Hf & Hk & _ & _ & Hkc & Hp & E1 & E2 & E3 & _ & E5 & E6 & E7 & _)
    %refund_effect.
  pose proof (ci_loan _ Hinv _ _ Hl) as Hok. set (l := filter _ (iter_prefix _)) in *.
  assert (Hpaid : paid_ok (contributions_of s id) (creator loan) (take k l))
    by apply paid_ok_take, paid_ok_iter.
  destruct (remove_paid _ _ _ Hpaid) as (Ht & Hsz & Hlk & _).
  destruct (paid_bounds _ _ _ _ Hok Hpaid) as (Hentries & Hcr & Hs0 & Hle).
  destruct (paid_balances _ _ _ _ _ Hok Hf Hpaid Hp) as (B1 & B2 & B3).
  rewrite length_take_le in Hsz by done. rewrite <- E6 in Ht, Hsz, Hlk, Hcr.
  pose proof existential_le_deposit.
  destruct Hok as [I1 I2 I3 I4 I5 (v & I6 & I6' & I6'') I7 I8 I9 I10 I11 I12 I13 I14].
  specialize (I12 Hf).
  destruct (saturating_sums (take k l) (raised loan) (fun w a H => proj1 (Hentries w a H)) ltac:(lia))
    as [_ Hsat]. rewrite Hsat in E1.
  apply (touches_inv id s); [done| |].
  - apply (touches_existing _ _ _ loan); try done; [|by rewrite E3|].
    + intros id' Hne. by rewrite E1, lookup_insert_ne.
    + rewrite E5. intros id' Hne Hid'.
      assert (Hne' : funds_account_of id' <> funds_account_of id).
      { intros ?%funds_account_inj; [done..|]. pose proof (ci_next _ Hinv). lia. }
      rewrite B3; [lia|done|]. intros ([w a] & E & Hin)%list_elem_of_fmap. simpl in E.
      apply Hpaid in Hin as [Hw _]. by apply (I7 w a id' Hw).
  - rewrite E1, lookup_insert_eq. intros loan' [= <-].
    split; simpl; rewrite ?E2, ?E3, ?E5; try done; try lia.
    + intros w a [Hw _]%Hlk. by eapply I4.
    + exists v. by rewrite Hcr.
    + intros w a id' [Hw _]%Hlk. by eapply I7.
    + by rewrite Hf.
Qed.

(** ** Dissolving and changing the terms *)

Lemma dissolve_effect origin id s u s' :
  dissolve origin id s = (Ok u, s') ->
  exists loan c x, ensure_signed origin = Some (creator loan) /\ Crowdloans s !! id = Some loan /\
    finalized loan = false /\ contributions_of s id !! creator loan = Some c /\ c = raised loan /\
    transfer (funds_account loan) (creator loan) c (chain s) = Ok x /\
    (forall a, balance x a <= balance (chain s') a) /\
    Crowdloans s' = delete id (Crowdloans s) /\ NextCrowdloanId s' = NextCrowdloanId s /\
    MaxContributions s' = delete id (MaxContributions s) /\
    CurrentCrowdloanId s' = CurrentCrowdloanId s /\
    Contributions s' = <[id := delete (creator loan) (contributions_of s id)]> (Contributions s) /\
    Events s' = Events s ++ [Dissolved id].
Proof.
  intros H. unfold dissolve in H. cinv. bool_to_prop. subst.
  rename select (Crowdloans _ !! id = Some _) into Hl.
  destruct (call _) as [c|] eqn:Ec; cinv; simpl in *.
  - do 3 eexists. split_and!; try done. intros a. rewrite dec_providers_balance. apply drop_balance.
  - do 3 eexists. split_and!; try done. intros a. rewrite dec_providers_balance. lia.
Qed.

Lemma dissolve_inv origin id s u s' :
  crowdloan_inv s -> dissolve origin id s = (Ok u, s') -> crowdloan_inv s'.
Proof.
  intros Hinv (loan & c & x & Hs & Hl & Hf & Hc & -> & Ht & Hx & E1 & E2 & E3 & _ & E5 & _)%dissolve_effect.
  pose proof (ci_loan _ Hinv _ _ Hl) as Hok. rewrite (lo_funds _ _ _ Hok) in Ht.
  apply (touches_inv id s); [done| |].
  - apply (touches_existing _ _ _ loan); try done; intros id' Hne.
    + by rewrite E1, lookup_delete_ne.
    + unfold contributions_of. by rewrite E5, lookup_insert_ne.
    + by rewrite E3, lookup_delete_ne.
    + intros Hid'. eapply Z.le_trans; [|apply Hx]. eapply transfer_mono; [|exact Ht|].
      * by eapply lo_nonneg.
      * intros ?%funds_account_inj; [done..|]. pose proof (lo_id _ _ _ Hok). pose proof (ci_next _ Hinv). lia.
  - rewrite E1, lookup_delete_eq. done.
Qed.

(** A call that only rewrites terms of a live crowdloan. *)
Lemma terms_inv s s' id loan minc e cp :
  crowdloan_inv s -> Crowdloans s !! id = Some loan -> finalized loan = false ->
  Crowdloans s' = <[id := with_terms loan minc e cp]> (Crowdloans s) ->
  raised loan <= cp <= u64_max -> 0 <= minc ->
  (forall max, MaxContributions s !! id = Some max -> minc <= max) ->
  NextCrowdloanId s' = NextCrowdloanId s -> Contributions s' = Contributions s ->
  MaxContributions s' = MaxContributions s -> chain s' = chain s -> crowdloan_inv s'.
Proof.
  intros Hinv Hl Hf E1 Hcp Hmin Hmax E2 E3 E4 E5. pose proof (ci_loan _ Hinv _ _ Hl) as Hok.
  assert (Hc : forall id', contributions_of s' id' = contributions_of s id')
    by (intros; by apply contributions_of_ext).
  apply (touches_inv id s); [done| |].
  - apply (touches_existing _ _ _ loan); try done; intros id' Hne; [|by rewrite E4|by rewrite E5].
    by rewrite E1, lookup_insert_ne.
  - rewrite E1, lookup_insert_eq. intros loan' [= <-].
    destruct Hok as [I1 I2 I3 I4 I5 I6 I7 I8 I9 I10 I11 I12 I13 I14].
    split; rewrite ?Hc, ?E2, ?E4, ?E5; simpl; try done; try lia. by rewrite Hf.
Qed.

Lemma update_min_contribution_inv origin id v s u s' :
  crowdloan_inv s -> update_min_contribution origin id v s = (Ok u, s') -> crowdloan_inv s'.
Proof.
  intros Hinv H. unfold update_min_contribution in H. cinv. bool_to_prop. subst.
  rename select (Crowdloans _ !! id = Some _) into Hl.
  pose proof (ci_loan _ Hinv _ _ Hl) as Hok. pose proof absolute_min_nonneg.
  destruct (MaxContributions s !! id) as [max|] eqn:Em; cinv; bool_to_prop.
  - eapply (terms_inv s); try done; [apply Hok|lia|]. rewrite Em. by intros ? [= <-].
  - eapply (terms_inv s); try done; [apply Hok|lia|]. by rewrite Em.
Qed.

Lemma update_end_inv origin id v s u s' :
  crowdloan_inv s -> update_end origin id v s = (Ok u, s') -> crowdloan_inv s'.
Proof.
  intros Hinv H. unfold update_end in H. cinv. bool_to_prop. subst.
  rename select (Crowdloans _ !! id = Some _) into Hl.
  pose proof (ci_loan _ Hinv _ _ Hl) as Hok.
  eapply (terms_inv s); try done; apply Hok.
Qed.

Lemma update_cap_inv origin id v s u s' :
  crowdloan_inv s -> v <= u64_max -> update_cap origin id v s = (Ok u, s') -> crowdloan_inv s'.
Proof.
  intros Hinv Hv H. unfold update_cap in H. cinv. bool_to_prop. subst.
  rename select (Crowdloans _ !! id = Some _) into Hl.
  pose proof (ci_loan _ Hinv _ _ Hl) as Hok.
  eapply (terms_inv s); try done; apply Hok.
Qed.

Lemma set_max_contribution_inv origin id v s u s' :
  crowdloan_inv s -> set_max_contribution origin id v s = (Ok u, s') -> crowdloan_inv s'.
Proof.
  intros Hinv H. unfold set_max_contribution in H. cinv. bool_to_prop. subst.
  rename select (Crowdloans _ !! id = Some _) into Hl.
  pose proof (ci_loan _ Hinv _ _ Hl) as Hok.
  destruct v as [max|]; cinv; bool_to_prop; (apply (touches_inv id s); [done| |]).
  1, 3: eapply touches_existing; try done; intros id' Hne; simpl;
    by rewrite ?lookup_insert_ne, ?lookup_delete_ne.
  all: simpl; rewrite Hl; intros loan [= <-].
  all: destruct Hok as [I1 I2 I3 I4 I5 (w & I6 & I6' & I6'') I7 I8 I9 [I10 I10'] I11 I12 I13 I14].
  all: rename select (default 0 _ <= max) into Hcr || idtac.
  all: split; simpl; rewrite ?lookup_insert_eq, ?lookup_delete_eq; try done.
  - exists w. split_and!; try done. intros ? [= <-]. change (contributions_of _ id) with (contributions_of s id) in *.
    rewrite I6 in Hcr. done.
  - split; [done|]. intros ? [= <-]. done.
  - exists w. by split_and!.
Qed.
End preservation.

(** ** Steps of the runtime *)

Section runtime.
Context {T : Config} {L : ConfigLaws T}.
Context (dispatch : RuntimeCall -> RuntimeOrigin -> M State (DispatchError RuntimeError) unit).
Implicit Types (s : State) (loan : CrowdloanInfo).

(** Balances are [u64]. *)
Definition call_in_range (c : Call) : Prop :=
  match c with
  | Create _ _ cp _ _ _ => cp <= u64_max
  | UpdateCap _ cp => cp <= u64_max
  | _ => True
  end.

(** One step: a successful call of the pallet (a failed one changes nothing), or
    anything the rest of the runtime does.  The latter has no key to a funds
    account, so it lowers none of a crowdloan that is not finalized. *)
Inductive runtime_step s : State -> Prop :=
| pallet_step origin c s' :
    call_in_range c -> run_call dispatch origin c s = (Ok tt, s') -> runtime_step s s'
| other_step x :
    (forall id loan, Crowdloans s !! id = Some loan -> finalized loan = false ->
      balance (chain s) (funds_account_of id) <= balance x (funds_account_of id)) ->
    runtime_step s (set_chain x s).

(** The dispatched call is made of such steps. *)
Context (dispatch_steps : forall c origin s s',
  dispatch c origin s = (Ok tt, s') -> rtc runtime_step s s').

(** Finalized crowdloans and their contributions are the same in both states. *)
Definition frozen s s' : Prop :=
  forall id loan, Crowdloans s !! id = Some loan -> finalized loan = true ->
    Crowdloans s' !! id = Some loan /\ contributions_of s' id = contributions_of s id.

#[local] Instance frozen_preorder : PreOrder frozen.
Proof.
  split; [by intros s id loan|]. intros s1 s2 s3 H1 H2 id loan Hl Hf.
  destruct (H1 _ _ Hl Hf) as [Hl2 Hc2]. destruct (H2 _ _ Hl2 Hf) as [Hl3 Hc3]. by rewrite Hc3.
Qed.

(** A step that writes the rows of one crowdloan that is not finalized. *)
Lemma frozen_other s s' id :
  (forall loan, Crowdloans s !! id = Some loan -> finalized loan = false) ->
  (forall id', id' <> id -> Crowdloans s' !! id' = Crowdloans s !! id') ->
  (forall id', id' <> id -> contributions_of s' id' = contributions_of s id') -> frozen s s'.
Proof.
  intros Hid Hl Hc id' loan Hloan Hf. destruct (decide (id' = id)) as [->|Hne].
  - apply Hid in Hloan. congruence.
  - by rewrite Hl, Hc.
Qed.

(** The calls that change terms leave every contribution alone. *)
Lemma terms_frozen origin c s s' :
  match c with UpdateMinContribution _ _ | UpdateEnd _ _ | UpdateCap _ _ | SetMaxContribution _ _ => True
  | _ => False end ->
  run_call dispatch origin c s = (Ok tt, s') ->
  frozen s s' /\ CurrentCrowdloanId s' = CurrentCrowdloanId s.
Proof.
  destruct c as [| | | | | |id v|id v|id v|id v]; try done; intros _ H; simpl in H;
    unfold update_min_contribution, update_end, update_cap, set_max_contribution in H;
    cinv; bool_to_prop; subst; rename select (Crowdloans _ !! id = Some _) into Hl.
  1: destruct (MaxContributions s !! id); cinv. 5: destruct v; cinv.
  all: split; [|done]; apply (frozen_other _ _ id); simpl; try done.
  all: try (intros loan Hl'; by simplify_map_eq).
  all: intros id' Hne; by rewrite ?lookup_insert_ne.
Qed.

Lemma pallet_frozen origin c s s' :
  crowdloan_inv s -> (forall id, c <> Finalize id) ->
  run_call dispatch origin c s = (Ok tt, s') ->
  frozen s s' /\ CurrentCrowdloanId s' = CurrentCrowdloanId s.
Proof.
  intros Hinv Hnf H.
  destruct c as [dep minc cp e c t|id a|id|id|id|id|id v|id v|id v|id v];
    try (refine (terms_frozen _ _ _ _ _ H); done); simpl in H.
  - apply create_effect in H as (who & bc & x1 & x2 & _ & _ & _ & _ & _ & _ & _ & ->).
    split; [|done]. apply (frozen_other _ _ (NextCrowdloanId s)); simpl.
    + intros loan Hl. pose proof (lo_id _ _ _ (ci_loan _ Hinv _ _ Hl)). lia.
    + intros id' Hne. by rewrite lookup_insert_ne.
    + intros id' Hne. unfold contributions_of. simpl. by rewrite lookup_insert_ne.
  - apply contribute_effect in H as (who & loan & x & _ & Hl & _ & Hcap & _ & _ & _ & _ & _ & _ & ->).
    split; [|done]. apply (frozen_other _ _ id); simpl.
    + intros loan' Hl'. simplify_map_eq. destruct (finalized loan) eqn:Hf; [|done].
      pose proof (lo_final _ _ _ (ci_loan _ Hinv _ _ Hl) Hf). lia.
    + intros id' Hne. by rewrite lookup_insert_ne.
    + intros id' Hne. unfold contributions_of. simpl. by rewrite lookup_insert_ne.
  - apply withdraw_effect in H as (who & loan & c & x & _ & Hl & Hf & _ & _ & _ & ->).
    split; [|done]. apply (frozen_other _ _ id); simpl.
    + intros loan' Hl'. by simplify_map_eq.
    + intros id' Hne. by rewrite lookup_insert_ne.
    + intros id' Hne. unfold contributions_of. simpl. by rewrite lookup_insert_ne.
  - by destruct (Hnf id).
  - apply refund_effect in H as (loan & k & x & _ & Hl & Hf & _ & _ & _ & _ & _ & E1 & _ & _ & E4 & _ & _ & E7 & _).
    split; [|done]. apply (frozen_other _ _ id); [|rewrite E1|done].
    + intros loan' Hl'. by simplify_map_eq.
    + intros id' Hne. by rewrite lookup_insert_ne.
  - apply dissolve_effect in H as (loan & c & x & _ & Hl & Hf & _ & _ & _ & _ & E1 & _ & _ & E4 & E5 & _).
    split; [|done]. apply (frozen_other _ _ id); [|rewrite E1|].
    + intros loan' Hl'. by simplify_map_eq.
    + intros id' Hne. by rewrite lookup_delete_ne.
    + intros id' Hne. unfold contributions_of. by rewrite E5, lookup_insert_ne.
Qed.

Lemma pallet_inv origin c s s' :
  crowdloan_inv s -> call_in_range c -> (forall id, c <> Finalize id) ->
  run_call dispatch origin c s = (Ok tt, s') -> crowdloan_inv s'.
Proof.
  intros Hinv Hr Hnf H. destruct c as [| | |id| | | | | |]; simpl in *.
  - by eapply create_inv.
  - by eapply contribute_inv.
  - by eapply withdraw_inv.
  - by destruct (Hnf id).
  - by eapply refund_inv.
  - by eapply dissolve_inv.
  - by eapply update_min_contribution_inv.
  - by eapply update_end_inv.
  - by eapply update_cap_inv.
  - by eapply set_max_contribution_inv.
Qed.

Lemma other_inv s x :
  crowdloan_inv s ->
  (forall id loan, Crowdloans s !! id = Some loan -> finalized loan = false ->
    balance (chain s) (funds_account_of id) <= balance x (funds_account_of id)) ->
  crowdloan_inv (set_chain x s).
Proof.
  intros [Hl Hn Hfr] Hx. split; [|done..]. intros id loan Hloan.
  eapply loan_ok_frame; [by apply Hl|done..|]. intros Hf. by eapply Hx.
Qed.

Lemma current_inv s c : crowdloan_inv s -> crowdloan_inv (set_current c s).
Proof.
  intros [Hl Hn Hfr]. split; [|done..]. intros id loan Hloan.
  by eapply loan_ok_frame; [by apply Hl|..].
Qed.

(** While a finalization is in progress no other can start, so the steps of the
    dispatched call preserve the invariant by the lemmas above. *)
Lemma nested_step s s' id :
  crowdloan_inv s -> CurrentCrowdloanId s = Some id -> runtime_step s s' ->
  crowdloan_inv s' /\ frozen s s' /\ CurrentCrowdloanId s' = Some id.
Proof.
  intros Hinv Hc [origin c s1 Hr H|x Hx].
  - assert (Hnf : forall id', c <> Finalize id').
    { intros id' ->. simpl in H. unfold finalize in H. cinv. bool_to_prop. congruence. }
    destruct (pallet_frozen _ _ _ _ Hinv Hnf H) as [Hfz ->].
    split_and!; [by eapply pallet_inv|done..].
  - split_and!; [by apply other_inv|by intros|done].
Qed.

Lemma nested_steps s s' :
  rtc runtime_step s s' -> forall id, crowdloan_inv s -> CurrentCrowdloanId s = Some id ->
  crowdloan_inv s' /\ frozen s s' /\ CurrentCrowdloanId s' = Some id.
Proof.
  induction 1 as [s|s s1 s' Hstep _ IH]; intros id Hinv Hc; [done|].
  destruct (nested_step _ _ _ Hinv Hc Hstep) as (Hinv1 & Hf1 & Hc1).
  destruct (IH id Hinv1 Hc1) as (Hinv' & Hf' & Hc'). split_and!; try done. by etransitivity.
Qed.

(** What a successful [finalize] did before the final check. *)
Lemma finalize_effect origin id s s' :
  finalize dispatch origin id s = (Ok tt, s') ->
  exists loan s1, ensure_signed origin = Some (creator loan) /\ Crowdloans s !! id = Some loan /\
    finalized loan = false /\ raised loan = cap loan /\ CurrentCrowdloanId s = None /\
    raised loan <= balance (chain s) (funds_account loan) /\
    settle_funds dispatch origin id (with_finalized loan)
      (set_crowdloans <[id := with_finalized loan]> s) = (Ok tt, s1) /\
    balance (chain s1) (funds_account loan) <= balance (chain s) (funds_account loan) - raised loan /\
    s' = snd (deposit_event (Finalized id) s1).
Proof.
  intros H. unfold finalize in H. cinv. bool_to_prop. subst. simpl in *.
  rename select (settle_funds _ _ _ _ _ = _) into Hs.
  match type of Hs with _ = (Ok ?u, _) => destruct u end.
  do 2 eexists. split_and!; try done; lia.
Qed.

(** Marking a fully raised crowdloan finalized keeps the invariant. *)
Lemma mark_inv s id loan :
  crowdloan_inv s -> Crowdloans s !! id = Some loan -> raised loan = cap loan ->
  crowdloan_inv (set_crowdloans <[id := with_finalized loan]> s).
Proof.
  intros Hinv Hl Hcap. pose proof (ci_loan _ Hinv _ _ Hl) as Hok.
  apply (touches_inv id s); [done| |].
  - apply (touches_existing _ _ _ loan); try done; simpl; intros id' Hne; by rewrite ?lookup_insert_ne.
  - simpl. rewrite lookup_insert_eq. intros loan' [= <-].
    destruct Hok as [I1 I2 I3 I4 I5 I6 I7 I8 I9 I10 I11 I12 I13 I14]. by split.
Qed.

Lemma mark_frozen s id loan :
  Crowdloans s !! id = Some loan -> finalized loan = false ->
  frozen s (set_crowdloans <[id := with_finalized loan]> s).
Proof.
  intros Hl Hf. apply (frozen_other _ _ id); simpl; try done.
  - intros loan' Hl'. by simplify_map_eq.
  - intros id' Hne. by rewrite lookup_insert_ne.
Qed.

(** Settling a finalized crowdloan keeps the invariant and freezes the rest. *)
Lemma settle_inv origin id loan s s' :
  crowdloan_inv s -> Crowdloans s !! id = Some loan -> finalized loan = true ->
  settle_funds dispatch origin id loan s = (Ok tt, s') -> crowdloan_inv s' /\ frozen s s'.
Proof.
  intros Hinv Hl Hf H. pose proof (ci_loan _ Hinv _ _ Hl) as Hok. unfold settle_funds in H.
  destruct (call loan) as [c|], (target_address loan) as [t|]; cinv; try done.
  - match goal with H : context [preimages_peek ?c ?x] |- _ =>
      destruct (preimages_peek c x) as [stored|]; cinv end.
    rename select (dispatch _ _ _ = _) into Hd.
    match type of Hd with _ = (Ok ?u, _) => destruct u end. apply dispatch_steps in Hd.
    destruct (nested_steps _ _ Hd id) as (Hinv1 & Hf1 & _); [by apply current_inv|done|].
    split; [by apply current_inv|]. intros id' loan' Hl' Hf'. by apply (Hf1 id' loan').
  - rename select (transfer _ _ _ _ = Ok _) into Ht. split; [|by intros].
    apply (touches_inv id s); [done| |].
    + apply (touches_existing _ _ _ loan); try done. simpl. intros id' Hne Hid'.
      eapply transfer_mono; [|exact Ht|].
      * rewrite <- (lo_sum _ _ _ Hok). apply map_sum_nonneg. apply (lo_nonneg _ _ _ Hok).
      * rewrite (lo_funds _ _ _ Hok). intros ?%funds_account_inj; [done..|].
        pose proof (lo_id _ _ _ Hok). pose proof (ci_next _ Hinv). lia.
    + simpl. intros loan' Hl'. simplify_map_eq.
      eapply loan_ok_frame; [exact Hok|done..|]. by rewrite Hf.
Qed.

Lemma finalize_inv origin id s s' :
  crowdloan_inv s -> finalize dispatch origin id s = (Ok tt, s') -> crowdloan_inv s' /\ frozen s s'.
Proof.
  intros Hinv (loan & s1 & _ & Hl & Hf & Hcap & _ & _ & Hs & _ & ->)%finalize_effect.
  destruct (settle_inv _ _ _ _ _ (mark_inv _ _ _ Hinv Hl Hcap) (lookup_insert_eq _ _ _) eq_refl Hs)
    as [Hinv1 Hf1].
  split.
  - destruct Hinv1 as [I1 I2 I3]. split; [|done..]. intros id' loan' Hl'.
    by eapply loan_ok_frame; [by apply I1|..].
  - assert (Hfz : frozen s s1) by (etransitivity; [by apply mark_frozen|exact Hf1]).
    intros id' loan' Hl' Hf'. by apply Hfz.
Qed.

Lemma step_inv s s' : crowdloan_inv s -> runtime_step s s' -> crowdloan_inv s' /\ frozen s s'.
Proof.
  intros Hinv [origin c s1 Hr H|x Hx].
  - destruct (match c with Finalize _ => true | _ => false end) eqn:E.
    + destruct c; try done. by eapply finalize_inv.
    + assert (Hnf : forall id, c <> Finalize id) by by intros id ->.
      split; [by eapply pallet_inv|by eapply pallet_frozen].
  - split; [by apply other_inv|by intros].
Qed.

Lemma steps_inv s s' : rtc runtime_step s s' -> crowdloan_inv s -> crowdloan_inv s' /\ frozen s s'.
Proof.
  induction 1 as [s|s s1 s' Hstep _ IH]; intros Hinv; [done|].
  destruct (step_inv _ _ Hinv Hstep) as [Hinv1 Hf1]. destruct (IH Hinv1) as [Hinv' Hf'].
  split; [done|]. by etransitivity.
Qed.

(** The state at genesis, over any chain. *)
Definition genesis (x : Chain) : State := mkState ∅ 0 ∅ ∅ None [] x.

Lemma genesis_inv x : crowdloan_inv (genesis x).
Proof.
  split; simpl.
  - intros id loan. by rewrite lookup_empty.
  - unfold u32_max. lia.
  - intros id _. unfold contributions_of. simpl. by rewrite !lookup_empty.
Qed.

(** ** Properties *)


(** Once a crowdloan is finalized nothing changes it or
    the record of its contributions: no call of the pallet, no dispatched call,
    no later history. *)
Theorem finalized_is_final x s s' id loan :
  rtc runtime_step (genesis x) s -> rtc runtime_step s s' ->
  Crowdloans s !! id = Some loan -> finalized loan = true ->
  Crowdloans s' !! id = Some loan /\ contributions_of s' id = contributions_of s id.
Proof.
  intros Hr Hr' Hl Hf. destruct (steps_inv _ _ Hr (genesis_inv x)) as [Hinv _].
  destruct (steps_inv _ _ Hr' Hinv) as [_ Hfz]. by apply Hfz.
Qed.

(** A successful [finalize] was signed by the creator of a
    fully raised crowdloan, marks it finalized, and took at least the raised
    amount out of its funds account; with a target address, the target received
    exactly that amount, and nobody else's balance changed. *)
Theorem finalize_settles x s id origin s' :
  rtc runtime_step (genesis x) s -> finalize dispatch origin id s = (Ok tt, s') ->
  exists loan, Crowdloans s !! id = Some loan /\ ensure_signed origin = Some (creator loan) /\
    finalized loan = false /\ raised loan = cap loan /\
    Crowdloans s' !! id = Some (with_finalized loan) /\
    balance (chain s') (funds_account loan) <=
      balance (chain s) (funds_account loan) - raised loan /\
    forall target, target_address loan = Some target ->
      balance (chain s') target = balance (chain s) target + raised loan /\
      forall a, a <> target -> a <> funds_account loan -> balance (chain s') a = balance (chain s) a.
Proof.
  intros Hr H. destruct (steps_inv _ _ Hr (genesis_inv x)) as [Hinv _].
  apply finalize_effect in H as (loan & s1 & Hsig & Hl & Hf & Hcap & _ & _ & Hs & Hb & ->).
  pose proof (ci_loan _ Hinv _ _ Hl) as Hok. exists loan.
  pose proof (settle_inv _ _ _ _ _ (mark_inv _ _ _ Hinv Hl Hcap) (lookup_insert_eq _ _ _) eq_refl Hs)
    as [_ Hfz]. split_and!; try done.
  { by apply (Hfz id (with_finalized loan) (lookup_insert_eq _ _ _)). }
  intros target Ht. pose proof (lo_route _ _ _ Hok) as Hroute. rewrite Ht in Hroute.
  destruct Hroute as [[_ [=]]|[Hcall _]]. unfold settle_funds in Hs. simpl in Hs.
  rewrite Hcall, Ht in Hs. cinv. simpl in *. rename select (transfer _ _ _ _ = Ok _) into Htr.
  assert (Hr0 : 0 <= raised loan).
  { rewrite <- (lo_sum _ _ _ Hok). apply map_sum_nonneg. apply (lo_nonneg _ _ _ Hok). }
  destruct (decide (funds_account loan = target)) as [<-|Hne].
  - rewrite !(transfer_self _ _ _ _ _ Htr) in *. split; [lia|]. intros a _ _. by eapply transfer_self.
  - destruct (transfer_funds _ _ _ _ _ Hne Hr0 Htr) as (_ & Hto & _). split; [done|].
    intros a Ha Ha'. by eapply transfer_other.
Qed.

(** Runs a call forward over a known fact. *)
Ltac mrun H :=
  unfold transactional, signed, ensure_crowdloan_exists, require, or_error, get_contribution,
    put_contribution, remove_contribution, put_crowdloan, deposit_event, currency_balance,
    block_number_now, on_chain, gets, ok_or, ensure, modify, fail, mbind, M_bind, mret, M_ret;
  simpl; rewrite H; simpl.

(** The account can receive the amount. *)
Definition can_receive (x : Chain) (who : AccountId) (amount : Z) : Prop :=
  ExistentialDeposit <= balance x who + amount <= u64_max.


(** ** Unwinding a crowdloan *)

Lemma refund_loop_succeeds funds floor l : forall refunded r n s,
  (forall w a, (w, a) ∈ l -> 0 <= a /\ w <> funds /\ can_receive (chain s) w a) -> NoDup l.*1 ->
  ExistentialDeposit <= floor -> 0 <= floor -> sum_of l + floor <= balance (chain s) funds ->
  locked (chain s) funds <= 0 -> n + Z.of_nat (length l) <= u32_max ->
  exists res s', refund_loop funds l refunded r n s = (Ok res, s').
Proof.
  induction l as [|[w a] l IH]; intros refunded r n s Hl Hnd Hed Hf Hle Hlk Hn; simpl.
  { by do 2 eexists. }
  destruct (_ <=? n); [by do 2 eexists|].
  apply list.NoDup_cons in Hnd as [Hw Hnd]. destruct (Hl w a) as (Ha & Hwf & Hrc); [left|].
  assert (Hl' : forall w a, (w, a) ∈ l -> 0 <= a) by (intros w' a' ?; apply (Hl w' a'); by right).
  destruct (saturating_sums l (sum_of l) Hl' ltac:(lia)) as [H0 _].
  unfold sum_of in H0, Hle. simpl in Hle, Hn.
  destruct (transfer_succeeds funds w a (chain s)) as [x Ht]; [done|lia|exact Hrc|].
  destruct (transfer_funds _ _ _ _ _ (not_eq_sym Hwf) Ha Ht) as (_ & _ & [Hfrom|Hfrom]); [|lia].
  pose proof (transfer_locked _ _ _ _ _ Ht).
  unfold mbind, M_bind, currency_transfer, or_error, ok_or, checked_add. rewrite Ht.
  rewrite (proj2 (Z.leb_le _ _)) by lia. apply IH; try done; simpl; [|unfold sum_of; lia|lia|lia].
  intros w' a' Hin. destruct (Hl w' a') as (Ha' & Hwf' & Hrc'); [by right|]. split_and!; try done.
  unfold can_receive. rewrite (transfer_other _ _ _ _ _ w' Ht); [done|done|].
  intros ->. apply Hw. by apply (list_elem_of_fmap_2' fst _ _ _ Hin).
Qed.

Lemma for_each_remove_succeeds id names : forall s,
  exists s', for_each names (remove_contribution id) s = (Ok tt, s').
Proof. induction names as [|w names IH]; intros s; simpl; [by eexists|]. apply IH. Qed.

(** The contributors a refund pays, and what they are owed. *)
Definition others loan (m : gmap AccountId Z) : list (AccountId * Z) :=
  filter (fun e => e.1 <> creator loan) (iter_prefix m).

Lemma others_paid loan m : paid_ok m (creator loan) (others loan m).
Proof. apply paid_ok_iter. Qed.

Lemma others_sum s id loan :
  loan_ok s id loan ->
  sum_of (others loan (contributions_of s id)) + deposit loan <= raised loan /\
  Z.of_nat (length (others loan (contributions_of s id))) <= contributors_count loan - 1.
Proof.
  intros Hok. pose proof (others_paid loan (contributions_of s id)) as Hp.
  destruct (paid_bounds _ _ _ _ Hok Hp) as (_ & Hcr & _ & Hle). split; [done|].
  destruct (remove_paid _ _ _ Hp) as (_ & Hsz & _ & _).
  destruct (lo_creator _ _ _ Hok) as (v & Hv & _). rewrite Hv in Hcr.
  pose proof (lo_count _ _ _ Hok). set (m' := foldl _ _ _) in *.
  assert (size m' <> 0%nat); [|lia]. intros Hz%map_size_empty_inv. by rewrite Hz, lookup_empty in Hcr.
Qed.

Lemma refund_succeeds s id loan origin :
  crowdloan_inv s -> Crowdloans s !! id = Some loan -> finalized loan = false ->
  ensure_signed origin = Some (creator loan) ->
  (forall w c, contributions_of s id !! w = Some c -> can_receive (chain s) w c) ->
  locked (chain s) (funds_account loan) <= 0 ->
  exists s', refund origin id s = (Ok tt, s').
Proof.
  intros Hinv Hl Hf Hs Hrc Hlk. pose proof (ci_loan _ Hinv _ _ Hl) as Hok.
  pose proof (others_sum _ _ _ Hok) as [Hsum Hlen]. pose proof existential_le_deposit.
  pose proof (lo_deposit _ _ _ Hok). pose proof (lo_backed _ _ _ Hok Hf). pose proof (lo_count_max _ _ _ Hok).
  pose proof (paid_ok_iter (contributions_of s id) (creator loan)) as Hp.
  destruct (refund_loop_succeeds (funds_account loan) (deposit loan)
    (others loan (contributions_of s id)) [] (raised loan) 0 s) as (res & s1 & Hloop); try lia.
  { rewrite (lo_funds _ _ _ Hok). intros w a [Hw _]%(proj2 Hp).
    split_and!; [by eapply lo_nonneg|by eapply lo_signer|by apply Hrc]. }
  { apply Hp. } { rewrite (lo_funds _ _ _ Hok). lia. }
  destruct (refund_loop_effect _ _ _ _ _ _ _ _ Hloop) as (k & x & Hk & -> & -> & _).
  unfold refund. mrun Hs. mrun Hl. mrun Hf. rewrite bool_decide_eq_true_2 by done. simpl.
  fold (others loan (contributions_of s id)). rewrite Hloop. unfold checked_sub.
  rewrite (proj2 (Z.leb_le _ _)) by lia.
  match goal with |- context [for_each ?n ?f ?s0] =>
    destruct (for_each_remove_succeeds id n s0) as [s' Hfe];
    change f with (remove_contribution id); rewrite Hfe end.
  by eexists.
Qed.

Lemma others_length s id loan :
  loan_ok s id loan ->
  Z.of_nat (length (others loan (contributions_of s id))) = contributors_count loan - 1.
Proof.
  intros Hok. pose proof (paid_ok_iter (contributions_of s id) (creator loan)) as Hp.
  destruct (remove_paid _ _ _ Hp) as (_ & Hsz & Hlk & _). fold (others loan (contributions_of s id)) in *.
  set (l := others loan _) in *. set (m' := foldl _ _ _) in *.
  assert (Hsub : m' ⊆ {[creator loan := default 0 (m' !! creator loan)]}).
  { apply map_subseteq_spec. intros w v Hw. destruct (Hlk _ _ Hw) as [Hm Hn].
    destruct (decide (w = creator loan)) as [->|Hne]; [rewrite Hw; by simplify_map_eq|].
    destruct Hn. apply list_elem_of_fmap. exists (w, v). split; [done|].
    apply list_elem_of_filter. split; [done|]. rewrite iter_prefix_spec. by apply elem_of_map_to_list. }
  apply map_subseteq_size in Hsub. rewrite map_size_singleton in Hsub.
  pose proof (others_sum _ _ _ Hok) as [_ Hle]. fold l in Hle. pose proof (lo_count _ _ _ Hok). lia.
Qed.

Lemma sole_contributor s id loan :
  loan_ok s id loan -> contributors_count loan = 1 ->
  exists c, contributions_of s id = {[creator loan := c]} /\ c = raised loan.
Proof.
  intros Hok Hone. destruct (lo_creator _ _ _ Hok) as (c & Hc & _ & _). exists c.
  assert (Hm : contributions_of s id = {[creator loan := c]}).
  { pose proof (lo_count _ _ _ Hok) as Hcnt. rewrite Hone in Hcnt.
    apply map_eq. intros w. destruct (decide (w = creator loan)) as [->|Hne]; [by simplify_map_eq|].
    rewrite lookup_singleton_ne by done. apply eq_None_not_Some. intros [v Hv].
    assert (size (delete w (contributions_of s id)) = 0%nat) as Hz%map_size_empty_inv
      by (rewrite map_size_delete_Some by eauto; lia).
    assert (delete w (contributions_of s id) !! creator loan = Some c) by by rewrite lookup_delete_ne.
    by rewrite Hz, lookup_empty in *. }
  split; [done|]. rewrite <- (lo_sum _ _ _ Hok), Hm. unfold total.
  rewrite <- insert_empty, map_sum_insert by done. rewrite map_sum_empty. lia.
Qed.

(** With no other contributor left, the creator's contribution is all that was
    raised and the crowdloan can be dissolved. *)
Lemma dissolve_succeeds s id loan origin :
  crowdloan_inv s -> Crowdloans s !! id = Some loan -> finalized loan = false ->
  ensure_signed origin = Some (creator loan) -> contributors_count loan = 1 ->
  (forall w c, contributions_of s id !! w = Some c -> can_receive (chain s) w c) ->
  locked (chain s) (funds_account loan) <= 0 ->
  exists s', dissolve origin id s = (Ok tt, s') /\ Crowdloans s' !! id = None /\
    (forall w c, contributions_of s id !! w = Some c -> balance (chain s) w + c <= balance (chain s') w) /\
    (forall w, w <> funds_account_of id -> balance (chain s) w <= balance (chain s') w).
Proof.
  intros Hinv Hl Hf Hs Hone Hrc Hlk. pose proof (ci_loan _ Hinv _ _ Hl) as Hok.
  destruct (sole_contributor _ _ _ Hok Hone) as (c & Hm & Hraised).
  assert (Hc : contributions_of s id !! creator loan = Some c) by (rewrite Hm; by simplify_map_eq).
  pose proof (lo_backed _ _ _ Hok Hf) as Hbk.
  pose proof (signer_not_funds _ _ id Hs) as Hwho. pose proof (lo_nonneg _ _ _ Hok _ _ Hc) as Hc0.
  destruct (transfer_succeeds (funds_account loan) (creator loan) c (chain s)) as [x Ht].
  { by rewrite (lo_funds _ _ _ Hok). } { rewrite (lo_funds _ _ _ Hok) in *. lia. } { by apply Hrc. }
  assert (Hgo : exists s', dissolve origin id s = (Ok tt, s')).
  { unfold dissolve. mrun Hs. mrun Hl. mrun Hf. rewrite bool_decide_eq_true_2 by done. simpl.
    rewrite Hc. simpl. rewrite (proj2 (Z.eqb_eq _ _)) by done. unfold currency_transfer. rewrite Ht.
    destruct (call loan); by eexists. }
  destruct Hgo as [s' Hgo]. exists s'. split; [done|].
  apply dissolve_effect in Hgo as (loan' & c' & x' & _ & Hl' & _ & Hc' & _ & Ht' & Hx & E1 & _).
  simplify_map_eq. rewrite Ht in Ht'. injection Ht' as <-. rewrite (lo_funds _ _ _ Hok) in Ht.
  destruct (transfer_funds _ _ _ _ _ (not_eq_sym Hwho) Hc0 Ht) as (_ & Hto & _). split_and!.
  - rewrite E1. apply lookup_delete_eq.
  - rewrite Hm. intros w v [<- <-]%lookup_singleton_Some. rewrite <- Hto. apply Hx.
  - intros w Hw. eapply Z.le_trans; [|apply Hx]. by eapply transfer_mono.
Qed.

Fixpoint refunds (n : nat) (origin : RuntimeOrigin) (id : Z)
    : M State (DispatchError RuntimeError) unit :=
  match n with
  | O => mret tt
  | S n => refund origin id;; refunds n origin id
  end.

Lemma pays_locked funds l : forall x x', pays funds l x x' -> locked x' funds <= locked x funds.
Proof.
  induction l as [|[w a] l IH]; intros x x' Hp; simpl in Hp; [by subst|].
  destruct Hp as (x1 & Ht%transfer_locked & Hp%IH). lia.
Qed.

(** One refund: who was paid and what is left. *)
Lemma refund_progress s id loan origin s' :
  crowdloan_inv s -> Crowdloans s !! id = Some loan -> 0 < RefundContributorsLimit ->
  refund origin id s = (Ok tt, s') ->
  exists loan', Crowdloans s' !! id = Some loan' /\ creator loan' = creator loan /\
    finalized loan' = false /\ funds_account loan' = funds_account loan /\
    locked (chain s') (funds_account loan) <= locked (chain s) (funds_account loan) /\
    contributors_count loan' - 1 =
      Z.max 0 (contributors_count loan - 1 - RefundContributorsLimit) /\
    (forall w c, contributions_of s id !! w = Some c ->
      contributions_of s' id !! w = Some c /\ balance (chain s') w = balance (chain s) w \/
      contributions_of s' id !! w = None /\ balance (chain s') w = balance (chain s) w + c) /\
    (forall w c, contributions_of s' id !! w = Some c -> contributions_of s id !! w = Some c) /\
    (forall w, w <> funds_account_of id -> balance (chain s) w <= balance (chain s') w).
Proof.
  intros Hinv Hl Hlim H. pose proof (ci_loan _ Hinv _ _ Hl) as Hok.
  apply refund_effect in H as (loan' & k & x & Hs & Hl' & Hf & Hk & Hend & Hk' & Hkc & Hp & E1 & _ & _ & _ & E5 & E6 & _ & _).
  simplify_map_eq. fold (others loan (contributions_of s id)) in *. set (l := others loan _) in *.
  pose proof (others_length _ _ _ Hok) as Hlen. fold l in Hlen.
  assert (Hpaid : paid_ok (contributions_of s id) (creator loan) (take k l))
    by apply paid_ok_take, others_paid.
  destruct (remove_paid _ _ _ Hpaid) as (_ & _ & Hlk & Heq). rewrite <- E6 in Hlk, Heq.
  destruct (paid_bounds _ _ _ _ Hok Hpaid) as (Hpos & _).
  destruct (paid_balances _ _ _ _ _ Hok Hf Hpaid Hp) as (_ & B2 & B3).
  eexists. split; [by rewrite E1, lookup_insert_eq|]. simpl. split_and!; try done; [by eapply pays_locked|lia|..].
  - intros w c Hc. destruct (decide (w ∈ (take k l).*1)) as [Hin|Hn].
    + right. apply list_elem_of_fmap in Hin as ([w' a] & -> & Hin). simpl in *.
      destruct (proj2 Hpaid _ _ Hin) as [Hm _]. simplify_eq. split; [|by apply B2].
      apply eq_None_not_Some. intros [v [_ Hn]%Hlk]. apply Hn, list_elem_of_fmap. by exists (w', c).
    + left. split; [by rewrite Heq|]. apply B3; [|done]. by eapply lo_signer.
  - intros w c [Hw _]%Hlk. done.
  - intros w Hw. destruct (decide (w ∈ (take k l).*1)) as [Hin|Hn]; [|rewrite B3 by done; lia].
    apply list_elem_of_fmap in Hin as ([w' a] & -> & Hin). simpl.
    rewrite (B2 _ _ Hin). apply Hpos in Hin as [? _]. lia.
Qed.

Lemma unwind_inv n : forall s id loan origin,
  crowdloan_inv s -> Crowdloans s !! id = Some loan -> finalized loan = false ->
  ensure_signed origin = Some (creator loan) -> 0 < RefundContributorsLimit ->
  (forall w c, contributions_of s id !! w = Some c -> can_receive (chain s) w c) ->
  locked (chain s) (funds_account loan) <= 0 -> contributors_count loan - 1 <= Z.of_nat n ->
  exists calls s1 s', refunds calls origin id s = (Ok tt, s1) /\
    dissolve origin id s1 = (Ok tt, s') /\ Crowdloans s' !! id = None /\
    Z.of_nat calls * RefundContributorsLimit < contributors_count loan - 1 + RefundContributorsLimit /\
    (forall w c, contributions_of s id !! w = Some c ->
      balance (chain s) w + c <= balance (chain s') w) /\
    (forall w, w <> funds_account_of id -> balance (chain s) w <= balance (chain s') w).
Proof.
  induction n as [|n IH]; intros s id loan origin Hinv Hl Hf Hs Hlim Hrc Hlk Hn;
    pose proof (ci_loan _ Hinv _ _ Hl) as Hok; pose proof (others_length _ _ _ Hok) as Hlen;
    (destruct (Z.eq_dec (contributors_count loan) 1) as [Hone|Hmany];
     [exists 0%nat; destruct (dissolve_succeeds s id loan origin) as (s' & Hd & Hnone & Hpay & Hmono); try done;
      exists s, s'; split_and!; try done; lia|]).
  { lia. }
  destruct (refund_succeeds s id loan origin) as [s1 Hr]; try done.
  pose proof (refund_inv _ _ _ _ _ Hinv Hr) as Hinv1.
  destruct (refund_progress _ _ _ _ _ Hinv Hl Hlim Hr) as (loan1 & Hl1 & Hcr & Hf1 & Hfa & Hlk1 & Hcnt & Hpaid & Hsub & Hmono).
  destruct (IH s1 id loan1 origin) as (calls & s2 & s' & Hrs & Hd & Hnone & Hcalls & Hpay & Hmono'); try done.
  { by rewrite Hcr. }
  { intros w c Hc. pose proof (Hsub _ _ Hc) as Hc0. unfold can_receive.
    destruct (Hpaid _ _ Hc0) as [[_ ->]|[Hx _]]; [by apply Hrc|congruence]. }
  { rewrite Hfa. lia. }
  { lia. }
  exists (S calls), s2, s'. split_and!; try done.
  - simpl. unfold mbind, M_bind. by rewrite Hr.
  - rewrite Nat2Z.inj_succ, Z.mul_succ_l.
    destruct (Z.eq_dec (Z.of_nat calls) 0) as [E|]; [rewrite E; lia|nia].
  - intros w c Hc. destruct (Hpaid _ _ Hc) as [[Hc1 Hb]|[_ Hb]].
    + rewrite <- Hb. by apply Hpay.
    + rewrite <- Hb. apply Hmono'. by eapply lo_signer.
  - intros w Hw. eapply Z.le_trans; [by apply Hmono|by apply Hmono'].
Qed.


(** A successful [contribute] takes no more than
    was offered, never pushes the crowdloan over its cap nor the contributor over
    the maximum, moves exactly the accepted amount from the contributor to the
    funds account, and leaves every other contribution alone.  What it accepts
    is all of the offer unless one of the two limits is reached. *)
Theorem contribution_within_limits x s id origin amount s' :
  rtc runtime_step (genesis x) s -> contribute origin id amount s = (Ok tt, s') ->
  exists loan loan' who a, Crowdloans s !! id = Some loan /\ ensure_signed origin = Some who /\
    Crowdloans s' !! id = Some loan' /\ 0 <= a <= amount /\
    raised loan' = raised loan + a /\ raised loan' <= cap loan' /\
    balance (chain s') (funds_account loan) = balance (chain s) (funds_account loan) + a /\
    default 0 (contributions_of s' id !! who) = default 0 (contributions_of s id !! who) + a /\
    (forall other, other <> who -> contributions_of s' id !! other = contributions_of s id !! other) /\
    (forall max, MaxContributions s !! id = Some max ->
      default 0 (contributions_of s' id !! who) <= max) /\
    (a = amount \/ raised loan' = cap loan' \/
     MaxContributions s !! id = Some (default 0 (contributions_of s' id !! who))).
Proof.
  intros Hr H. destruct (steps_inv _ _ Hr (genesis_inv x)) as [Hinv _].
  apply contribute_effect in H as (who & loan & x' & Hs & Hl & _ & Hcap & Hmin & _ & Hmax & _ & _ & Ht & ->).
  pose proof (ci_loan _ Hinv _ _ Hl) as Hok.
  destruct (accepted_range s id loan who amount Hok Hcap Hmin Hmax) as (Ha & Hacap & Hamax).
  pose proof (signer_not_funds _ _ id Hs) as Hwho. rewrite <- (lo_funds _ _ _ Hok) in Hwho.
  destruct (transfer_funds _ _ _ _ _ Hwho (proj1 Ha) Ht) as (_ & Hto & _).
  exists loan, (with_raised loan (raised loan + accepted s id loan who amount) (new_count s id loan who)),
    who, (accepted s id loan who amount).
  set (s' := mkState _ _ _ _ _ _ _).
  assert (Hc : contributions_of s' id = <[who := default 0 (contributions_of s id !! who) +
    accepted s id loan who amount]> (contributions_of s id)).
  { unfold contributions_of at 1, s'. simpl. by rewrite lookup_insert_eq. }
  rewrite Hc. split_and!; try done; try lia; [by simpl; rewrite lookup_insert_eq|..].
  - by rewrite lookup_insert_eq.
  - intros other Hne. by rewrite lookup_insert_ne.
  - intros max Hm. rewrite lookup_insert_eq. by apply Hamax.
  - rewrite lookup_insert_eq. simpl. unfold accepted.
    destruct (MaxContributions s !! id) as [max|] eqn:Em; [|lia].
    set (c := default 0 _) in *.
    destruct (Z.eq_dec (Z.min (Z.min amount (max - c)) (cap loan - raised loan)) (max - c)) as [->|];
      [|lia]. do 2 right. f_equal. lia.
Qed.

(** A call that returns an error leaves the whole
    state as it was, the effects of a dispatched call included. *)
Theorem failed_call_changes_nothing origin c s e s' :
  run_call dispatch origin c s = (Err e, s') -> s' = s.
Proof. destruct c; simpl; apply transactional_err. Qed.

(** [refund] is refused with [InvalidOrigin] to every
    signer but the creator. *)
Theorem refund_needs_creator s id loan origin who :
  Crowdloans s !! id = Some loan -> finalized loan = false ->
  ensure_signed origin = Some who -> who <> creator loan ->
  refund origin id s = (Err (PalletError InvalidOrigin), s).
Proof.
  intros Hl Hf Hs Hne. unfold refund. mrun Hs. mrun Hl. mrun Hf.
  by rewrite bool_decide_eq_false_2.
Qed.

(** When the stored call is gone, [finalize] fails
    with [CallUnavailable] and its request to drop the preimage is rolled back
    with everything else, so the crowdloan stays as it was. *)
Theorem missing_preimage_keeps_state s id loan origin c :
  Crowdloans s !! id = Some loan -> ensure_signed origin = Some (creator loan) ->
  finalized loan = false -> raised loan = cap loan -> CurrentCrowdloanId s = None ->
  raised loan <= balance (chain s) (funds_account loan) ->
  call loan = Some c -> target_address loan = None -> preimages_peek c (chain s) = None ->
  finalize dispatch origin id s = (Err (PalletError CallUnavailable), s).
Proof.
  intros Hl Hs Hf Hcap Hcur Hb Hc Ht Hp. unfold finalize, settle_funds. mrun Hs. mrun Hl.
  rewrite bool_decide_eq_true_2 by done. simpl. rewrite (proj2 (Z.eqb_eq _ _)) by done. simpl.
  rewrite Hf. simpl. rewrite bool_decide_eq_true_2 by done. unfold checked_sub.
  rewrite (proj2 (Z.leb_le _ _)) by done. rewrite Hc, Ht. simpl. by rewrite Hp.
Qed.
End runtime.

(** ** A concrete runtime

    Accounts are positive numbers: odd ones sign, even ones are funds accounts.
    The stored call names the account to be paid; dispatching it moves the
    raised amount of the crowdloan being finalized.  Account 5 has no preimage. *)
Module Example.

Record ledger : Type := mkLedger { accounts : gmap positive Z; height : Z }.

Definition ledger_balance (x : ledger) (a : positive) : Z := Z.max 0 (default 0 (accounts x !! a)).

Definition ledger_ed : Z := 10.

(** Of account 9, twenty are locked. *)
Definition ledger_locked (_ : ledger) (a : positive) : Z := if bool_decide (a = 9%positive) then 20 else 0.

Definition ledger_transfer (from to : positive) (v : Z) (x : ledger) : result ledger unit :=
  if negb (v <=? ledger_balance x from - ledger_locked x from) then Err tt
  else if bool_decide (from = to) then Ok x
  else if ledger_balance x to + v <? ledger_ed then Err tt
  else
    let rest := ledger_balance x from - v in
    Ok (mkLedger (<[to := ledger_balance x to + v]>
                   (<[from := if rest <? ledger_ed then 0 else rest]> (accounts x))) (height x)).

(** Even account numbers, one for each id. *)
Definition ledger_funds_account (id : Z) : positive :=
  xO (match id with Z0 => xH | Zpos p => xO p | Zneg p => xI p end).

#[local] Instance example : Config := {|
  AccountId := positive;
  RuntimeCall := positive;
  BoundedCall := positive;
  RuntimeOrigin := positive;
  Chain := ledger;
  RuntimeError := unit;
  balance := ledger_balance;
  transfer := ledger_transfer;
  preimages_bound := fun c x => Ok (c, x);
  preimages_peek := fun c _ => if bool_decide (c = 5%positive) then None else Some c;
  preimages_drop := fun _ x => x;
  inc_providers := fun _ x => x;
  dec_providers := fun _ x => x;
  block_number := height;
  ensure_signed := fun o => match o with xI _ => Some o | _ => None end;
  into_sub_account_truncating := ledger_funds_account;
  iter_prefix := map_to_list;
  MinimumDeposit := 50;
  AbsoluteMinimumContribution := 10;
  MinimumBlockDuration := 5;
  MaximumBlockDuration := 100;
  RefundContributorsLimit := 2;
  MaxContributors := 10;
|}.

Lemma ledger_funds from to v x x' :
  from <> to -> 0 <= v -> ledger_transfer from to v x = Ok x' ->
  v <= ledger_balance x from /\ ledger_balance x' to = ledger_balance x to + v /\
  (ledger_balance x' from = ledger_balance x from - v \/
   ledger_balance x' from = 0 /\ ledger_balance x from - v < ledger_ed).
Proof.
  intros Hne Hv. unfold ledger_transfer. destruct (negb _) eqn:E1; [done|].
  rewrite bool_decide_eq_false_2 by done. destruct (_ <? ledger_ed) eqn:E2; [done|].
  intros [= <-]. bool_to_prop.
  assert (0 <= ledger_locked x from) by (unfold ledger_locked; case_bool_decide; lia).
  unfold ledger_balance in *. simpl. simplify_map_eq. simpl. destruct (_ <? ledger_ed) eqn:E3; bool_to_prop; lia.
Qed.

Lemma ledger_funds_inj i j : ledger_funds_account i = ledger_funds_account j -> i = j.
Proof. unfold ledger_funds_account. destruct i, j; by intros [=]; subst. Qed.

#[local] Instance example_laws : ConfigLaws example.
Proof.
  refine (@Build_ConfigLaws example ledger_ed _ _ _ ledger_funds _ _ ledger_locked _ _ _ _ _ _ _ _ _); simpl.
  - unfold ledger_ed. lia.
  - lia.
  - intros x a. unfold ledger_balance. lia.
  - intros from to v x x' a. unfold ledger_transfer. destruct (negb _); [done|].
    case_bool_decide; [by intros [= <-]|]. destruct (_ <? ledger_ed); [done|]. intros [= <-] Ha Hb.
    unfold ledger_balance. simpl. by rewrite !lookup_insert_ne.
  - intros a v x x' b. unfold ledger_transfer. destruct (negb _); [done|].
    rewrite bool_decide_eq_true_2 by done. by intros [= <-].
  - intros from to v x Hne Hv Hed. unfold ledger_transfer. rewrite (proj2 (Z.leb_le _ _)) by lia. simpl.
    rewrite bool_decide_eq_false_2, (proj2 (Z.ltb_ge _ _)) by (done || lia). by eexists.
  - done.
  - intros c x b x' a [= <- <-]. lia.
  - intros. lia.
  - done.
  - done.
  - intros i j _ _. apply ledger_funds_inj.
  - intros o who id. unfold funds_account_of. destruct o; intros [= <-]. done.
  - done.
Defined.

(** Pays the raised amount of the crowdloan being finalized to [target]. *)
Definition pay_out (target : RuntimeCall) (_ : RuntimeOrigin)
    : M State (DispatchError RuntimeError) unit := fun s =>
  match CurrentCrowdloanId s with
  | None => (Err BadOrigin, s)
  | Some id =>
      match Crowdloans s !! id with
      | Some loan =>
          if finalized loan && (0 <=? raised loan)
          then currency_transfer (funds_account_of id) target (raised loan) s
          else (Err BadOrigin, s)
      | None => (Err BadOrigin, s)
      end
  end.

Lemma pay_out_steps c o (s s' : State) :
  pay_out c o s = (Ok tt, s') -> rtc (runtime_step pay_out) s s'.
Proof.
  unfold pay_out. destruct (CurrentCrowdloanId s) as [id|]; [|done].
  destruct (Crowdloans s !! id) as [loan|] eqn:El; [|done].
  destruct (_ && _)%bool eqn:E; [|done]. bool_to_prop.
  intros Hp. destruct (transfer_inv (T := example) _ _ _ _ _ _ Hp) as (x & Ht & ->). apply rtc_once, other_step. intros id' loan' Hl' Hf'.
  eapply transfer_mono; [done|exact Ht|]. intros ->%ledger_funds_inj. congruence.
Qed.

(** Creator 3 asks for 300 with a deposit of 100; 7 and 9 contribute. *)
Definition chain0 : ledger :=
  mkLedger {[3%positive := 1000; 7%positive := 500; 9%positive := 500]} 1.

Definition calls0 : list (positive * Call) :=
  [(3%positive, Create 100 10 300 50 (Some 11%positive) None);
   (7%positive, Contribute 0 150); (9%positive, Contribute 0 80)].

Definition run_all (s : State) (cs : list (positive * Call)) : State :=
  foldl (fun s c => snd (run_call pay_out (fst c) (snd c) s)) s cs.

Definition raised_state : State := run_all (genesis chain0) calls0.

(** A state reached by running calls; a failing one is a step that does nothing. *)
Lemma run_all_steps cs : forall s, Forall (fun c => call_in_range (snd c)) cs ->
  rtc (runtime_step pay_out) s (run_all s cs).
Proof.
  induction cs as [|[o c] cs IH]; intros s Hr; [done|]. apply list.Forall_cons in Hr as [Hc Hr].
  simpl. destruct (run_call (T := example) pay_out o c s) as [[[]|e] s1] eqn:E.
  - eapply rtc_l; [by eapply pallet_step|]. by apply IH.
  - destruct c; apply transactional_err in E as ->; by apply IH.
Qed.

Lemma raised_reachable : rtc (runtime_step pay_out) (genesis chain0) raised_state.
Proof.
  apply run_all_steps. repeat (constructor; [simpl; unfold u64_max; try lia; done|]). constructor.
Qed.

(** The crowdloan 0 of a state, or one that was never created. *)
Definition loan_at (s : State) : CrowdloanInfo :=
  default (mkCrowdloanInfo 1%positive 0 0 0 0 1%positive 0 None None false 0) (Crowdloans s !! 0).

Lemma loan_at_spec s :
  match Crowdloans s !! 0 with Some _ => true | None => false end = true ->
  Crowdloans s !! 0 = Some (loan_at s).
Proof. unfold loan_at. by destruct (Crowdloans s !! 0). Qed.

Definition loan0 : CrowdloanInfo := loan_at raised_state.

Lemma raised_loan : Crowdloans raised_state !! 0 = Some loan0.
Proof. apply loan_at_spec. vm_compute. reflexivity. Qed.

Lemma live : finalized loan0 = false.
Proof. vm_compute. reflexivity. Qed.

Lemma signed_by_creator : ensure_signed 3%positive = Some (creator loan0).
Proof. vm_compute. reflexivity. Qed.


Definition finalized_state : State := snd (finalize pay_out 3%positive 0 raised_state).

Lemma finalize_runs : finalize pay_out 3%positive 0 raised_state = (Ok tt, finalized_state).
Proof. apply ok_run. vm_compute. reflexivity. Qed.

Lemma finalized_reachable : rtc (runtime_step pay_out) (genesis chain0) finalized_state.
Proof.
  eapply rtc_r; [exact raised_reachable|].
  exact (pallet_step pay_out raised_state 3%positive (Finalize 0) finalized_state I finalize_runs).
Qed.

Lemma finalize_settles_witness :
  exists loan, Crowdloans finalized_state !! 0 = Some (with_finalized loan) /\
    balance (chain finalized_state) (funds_account loan) <=
      balance (chain raised_state) (funds_account loan) - raised loan.
Proof.
  destruct (finalize_settles pay_out pay_out_steps chain0 raised_state 0 3%positive finalized_state
    raised_reachable finalize_runs) as (loan & _ & _ & _ & _ & Hl & Hb & _).
  exact (ex_intro _ loan (conj Hl Hb)).
Defined.

(** A later attempt to withdraw is a step that changes nothing. *)
Lemma finalized_is_final_witness :
  Crowdloans (run_all finalized_state [(7%positive, Withdraw 0)]) !! 0 = Some (loan_at finalized_state).
Proof.
  refine (proj1 (finalized_is_final pay_out pay_out_steps chain0 finalized_state _ 0
    (loan_at finalized_state) finalized_reachable _ _ _)).
  - apply run_all_steps. repeat constructor.
  - apply loan_at_spec. vm_compute. reflexivity.
  - vm_compute. reflexivity.
Defined.


Lemma contributions0 : contributions_of raised_state 0 =
  {[3%positive := 100; 7%positive := 150; 9%positive := 50]}.
Proof. vm_compute. reflexivity. Qed.


(** The state before the last contribution. *)
Definition open_state : State := run_all (genesis chain0) (take 2 calls0).

Lemma open_reachable : rtc (runtime_step pay_out) (genesis chain0) open_state.
Proof.
  apply run_all_steps. repeat (constructor; [simpl; unfold u64_max; try lia; done|]). constructor.
Qed.

(** Account 9 offers 80 where only 50 are missing. *)
Lemma contribute_runs :
  contribute 9%positive 0 80 open_state = (Ok tt, snd (contribute 9%positive 0 80 open_state)).
Proof. apply ok_run. vm_compute. reflexivity. Qed.

Lemma contribution_within_limits_witness :
  exists a, 0 <= a <= 80 /\
    default 0 (contributions_of (snd (contribute 9%positive 0 80 open_state)) 0 !! 9%positive) =
    default 0 (contributions_of open_state 0 !! 9%positive) + a.
Proof.
  destruct (contribution_within_limits pay_out pay_out_steps chain0 open_state 0 9%positive 80 _
    open_reachable contribute_runs) as (loan & loan' & who & a & _ & Hs & _ & Ha & _ & _ & _ & Hc & _).
  injection Hs as <-. exact (ex_intro _ a (conj Ha Hc)).
Defined.

Lemma failed_call_changes_nothing_witness :
  snd (run_call pay_out 7%positive (Finalize 0) raised_state) = raised_state.
Proof.
  apply (failed_call_changes_nothing pay_out 7%positive (Finalize 0) raised_state
    (PalletError InvalidOrigin)).
  rewrite (surjective_pairing (run_call pay_out 7%positive (Finalize 0) raised_state)) at 1.
  f_equal.
Defined.

(** The same crowdloan with a call whose preimage is gone. *)
Definition orphan_state : State := run_all (genesis chain0)
  [(3%positive, Create 100 10 300 50 (Some 5%positive) None); (7%positive, Contribute 0 200)].

Lemma missing_preimage_keeps_state_witness :
  finalize pay_out 3%positive 0 orphan_state = (Err (PalletError CallUnavailable), orphan_state).
Proof.
  apply (missing_preimage_keeps_state pay_out orphan_state 0 (loan_at orphan_state) 3%positive 5%positive).
  - apply loan_at_spec. vm_compute. reflexivity.
  - vm_compute. reflexivity.
  - vm_compute. reflexivity.
  - vm_compute. reflexivity.
  - vm_compute. reflexivity.
  - vm_compute. discriminate.
  - vm_compute. reflexivity.
  - vm_compute. reflexivity.
  - vm_compute. reflexivity.
Defined.
End Example.
