(* ===== verification/ChildKeys.v ===== *)
(** * ChildKeys: the parent-child relations between hotkeys

    Models src/pallets/subtensor/src/staking/set_children.rs and
    staking/auto_parent.rs.  On each subnet a parent hotkey delegates shares of
    its stake to children.  The relation is stored twice, from the parent's side
    in [ChildKeys] and from the child's side in [ParentKeys]; every operation
    edits the lists of one pivot hotkey and those of its neighbours.

    What the module reads of the rest of the runtime is the record [Env]: the
    block number, the stake of a hotkey, owners, thresholds and limits.  Database
    weights are accounted for where they decide what is done
    ([process_childkey_threshold_checks]) and dropped where they are only
    reported.  ChildKeysSafety.v proves that the two maps stay two views of one
    graph. *)

From Stdlib Require Import ZArith Lia.
From stdpp Require Import base gmap list fin_maps.
From S2P Require Import Prelude.

Abbreviation NetUid := Z (only parsing).

Definition MAX_PARENTS_PER_CHILD : nat := 100.

(** [NetUid::is_root]. *)
Definition is_root (netuid : NetUid) : bool := netuid =? 0.

Inductive Error : Type :=
| BadOrigin | TxRateLimitExceeded | RegistrationNotPermittedOnRootSubnet | SubnetNotExists
| NonAssociatedColdKey | DuplicateChild | InvalidChild | TooManyChildren | ProportionOverflow
| ChildParentInconsistency | NotEnoughStakeToSetChildkeys | TooManyParents
| InvalidChildkeyTake | TxChildkeyTakeRateLimitExceeded.

(** [TransactionType]: the two kinds this module uses, with their [u16] codes. *)
Inductive TransactionType : Type := SetChildren | SetChildkeyTake.

Definition tx_code (t : TransactionType) : Z :=
  match t with SetChildren => 0 | SetChildkeyTake => 1 end.

Definition check_passes_rate_limit (limit block last_block : Z) : bool :=
  (last_block =? 0) || (limit <=? saturating_sub block last_block).

Section childkeys.
Context {AccountId : Type} `{Countable AccountId}.

(** Lists of edges, [Vec<(u64, AccountId)>]. *)
Abbreviation Edges := (list (Z * AccountId)).
Abbreviation Links := (gmap (AccountId * NetUid) Edges).
Abbreviation Pending := (gmap (NetUid * AccountId) (Edges * Z)).

Inductive Event : Type :=
| SetChildrenScheduled (hotkey : AccountId) (netuid : NetUid) (cooldown_block : Z) (children : Edges)
| SetChildrenEvent (hotkey : AccountId) (netuid : NetUid) (children : Edges)
| ChildKeyTakeSet (hotkey : AccountId) (take : Z).

Record State : Type := mkState {
  ChildKeys : Links;
  ParentKeys : Links;
  PendingChildKeys : Pending;
  ChildkeyThresholdSuspended : gset AccountId;
  ChildkeyThresholdChecks : gset AccountId;
  ChildkeyTake : gmap (AccountId * NetUid) Z;
  TransactionKeyLastBlock : gmap (AccountId * NetUid * Z) Z;
  Events : list Event;
}.

(** What is read of the rest of the runtime. *)
Record Env : Type := mkEnv {
  get_current_block_as_u64 : Z;
  get_total_stake_for_hotkey : AccountId -> Z;
  StakeThreshold : Z;
  SubnetOwnerHotkey : gmap NetUid AccountId;
  SubtokenEnabled : NetUid -> bool;
  PendingChildKeyCooldown : Z;
  if_subnet_exist : NetUid -> bool;
  Owner : gmap AccountId AccountId;
  AutoParentDelegationEnabled : AccountId -> bool;
  TxChildkeyTakeRateLimit : Z;
  MinChildkeyTake : Z;
  MinChildkeyTakePerSubnet : NetUid -> Z;
  MaxChildkeyTake : Z;
  TotalNetworks : Z;
  get_all_subnet_netuids : list NetUid;
  (** The hotkeys of [Keys::iter_prefix(NetUid::ROOT)]. *)
  root_validators : list AccountId;
  db_read : Z;
  db_write : Z;
}.

(** The order in which sets are walked: [BTreeSet] and [BTreeMap] by key, storage
    maps by hashed key. *)
Record Order : Type := mkOrder {
  sorted : gset AccountId -> list AccountId;
  iter_links : Links -> list ((AccountId * NetUid) * Edges);
  iter_pending : Pending -> list ((NetUid * AccountId) * (Edges * Z));
  iter_checks : gset AccountId -> list AccountId;
}.

Context (ord : Order).
Abbreviation Storage := (M State Error).

(** [BTreeMap::iter]. *)
Definition btree_iter (m : gmap AccountId Z) : list (AccountId * Z) :=
  omap (fun k => pair k <$> m !! k) (sorted ord (dom m)).

(** ** Storage access *)

Definition child_keys (s : State) (parent : AccountId) (netuid : NetUid) : Edges :=
  default [] (ChildKeys s !! (parent, netuid)).
Definition parent_keys (s : State) (child : AccountId) (netuid : NetUid) : Edges :=
  default [] (ParentKeys s !! (child, netuid)).

Definition with_child_keys (f : Links -> Links) (s : State) : State :=
  mkState (f (ChildKeys s)) (ParentKeys s) (PendingChildKeys s) (ChildkeyThresholdSuspended s)
    (ChildkeyThresholdChecks s) (ChildkeyTake s) (TransactionKeyLastBlock s) (Events s).
Definition with_parent_keys (f : Links -> Links) (s : State) : State :=
  mkState (ChildKeys s) (f (ParentKeys s)) (PendingChildKeys s) (ChildkeyThresholdSuspended s)
    (ChildkeyThresholdChecks s) (ChildkeyTake s) (TransactionKeyLastBlock s) (Events s).
Definition with_pending (f : Pending -> Pending) (s : State) : State :=
  mkState (ChildKeys s) (ParentKeys s) (f (PendingChildKeys s)) (ChildkeyThresholdSuspended s)
    (ChildkeyThresholdChecks s) (ChildkeyTake s) (TransactionKeyLastBlock s) (Events s).
Definition with_suspended (f : gset AccountId -> gset AccountId) (s : State) : State :=
  mkState (ChildKeys s) (ParentKeys s) (PendingChildKeys s) (f (ChildkeyThresholdSuspended s))
    (ChildkeyThresholdChecks s) (ChildkeyTake s) (TransactionKeyLastBlock s) (Events s).
Definition with_checks (f : gset AccountId -> gset AccountId) (s : State) : State :=
  mkState (ChildKeys s) (ParentKeys s) (PendingChildKeys s) (ChildkeyThresholdSuspended s)
    (f (ChildkeyThresholdChecks s)) (ChildkeyTake s) (TransactionKeyLastBlock s) (Events s).
Definition with_take (key : AccountId * NetUid) (take : Z) (s : State) : State :=
  mkState (ChildKeys s) (ParentKeys s) (PendingChildKeys s) (ChildkeyThresholdSuspended s)
    (ChildkeyThresholdChecks s) (<[key := take]> (ChildkeyTake s)) (TransactionKeyLastBlock s)
    (Events s).
Definition deposit_event (e : Event) (s : State) : State :=
  mkState (ChildKeys s) (ParentKeys s) (PendingChildKeys s) (ChildkeyThresholdSuspended s)
    (ChildkeyThresholdChecks s) (ChildkeyTake s) (TransactionKeyLastBlock s) (Events s ++ [e]).

Definition set_last_block_on_subnet (t : TransactionType) (key : AccountId) (netuid : NetUid)
    (block : Z) (s : State) : State :=
  mkState (ChildKeys s) (ParentKeys s) (PendingChildKeys s) (ChildkeyThresholdSuspended s)
    (ChildkeyThresholdChecks s) (ChildkeyTake s)
    (<[(key, netuid, tx_code t) := block]> (TransactionKeyLastBlock s)) (Events s).

Definition rate_limit_on_subnet (env : Env) (t : TransactionType) : Z :=
  match t with SetChildren => 150 | SetChildkeyTake => TxChildkeyTakeRateLimit env end.

Definition passes_rate_limit_on_subnet (env : Env) (s : State) (t : TransactionType)
    (hotkey : AccountId) (netuid : NetUid) : bool :=
  check_passes_rate_limit (rate_limit_on_subnet env t) (get_current_block_as_u64 env)
    (default 0 (TransactionKeyLastBlock s !! (hotkey, netuid, tx_code t))).

Definition set_childkeys (parent : AccountId) (netuid : NetUid) (childkey_vec : Edges) (s : State)
    : State :=
  match childkey_vec with
  | [] => with_child_keys (delete (parent, netuid)) s
  | _ => with_child_keys <[(parent, netuid) := childkey_vec]> s
  end.

Definition set_parentkeys (child : AccountId) (netuid : NetUid) (parentkey_vec : Edges) (s : State)
    : State :=
  match parentkey_vec with
  | [] => with_parent_keys (delete (child, netuid)) s
  | _ => with_parent_keys <[(child, netuid) := parentkey_vec]> s
  end.

(** ** [PCRelations]: the relations around one hotkey *)

Record PCRelations : Type := mkPCRelations {
  pivot : AccountId;
  children : gmap AccountId Z;
  parents : gmap AccountId Z;
}.

Definition new_relations (hotkey : AccountId) : PCRelations := mkPCRelations hotkey ∅ ∅.

Definition total_proportions (m : gmap AccountId Z) : Z :=
  map_fold (fun _ w acc => saturating_add u128_max acc w) 0 m.

Definition ensure_total_proportions (m : gmap AccountId Z) : Storage unit :=
  ensure (total_proportions m <=? u64_max) ProportionOverflow.

Definition ensure_childkey_count (m : gmap AccountId Z) : Storage unit :=
  ensure (bool_decide (size m <= 5)%nat) TooManyChildren.

Definition ensure_no_self_loop (pivot : AccountId) (hotkey_set : gmap AccountId Z) : Storage unit :=
  ensure (bool_decide (hotkey_set !! pivot = None)) InvalidChild.

Definition ensure_bipartite_separation (children parents : gmap AccountId Z) : Storage unit :=
  ensure (negb (existsb (fun c => bool_decide (is_Some (parents !! c.1))) (btree_iter children)))
    ChildParentInconsistency.

(** The map of a list of edges: the last proportion wins. *)
Definition edges_map (l : Edges) : gmap AccountId Z :=
  foldl (fun m e => <[e.2 := e.1]> m) ∅ l.

(** The same, skipping the pivot. *)
Definition edges_map_without (pivot : AccountId) (l : Edges) : gmap AccountId Z :=
  foldl (fun m e => if decide (e.2 = pivot) then m else <[e.2 := e.1]> m) ∅ l.

Definition ensure_pending_consistency (rel : PCRelations) (pending_children_vec : Edges)
    : Storage unit :=
  let new_children := edges_map pending_children_vec in
  ensure_no_self_loop (pivot rel) new_children;;
  ensure_childkey_count new_children;;
  ensure_total_proportions new_children;;
  ensure_bipartite_separation new_children (parents rel).

Definition link_children (rel : PCRelations) (new_children : gmap AccountId Z)
    : Storage PCRelations :=
  ensure_no_self_loop (pivot rel) new_children;;
  ensure_total_proportions new_children;;
  ensure_bipartite_separation new_children (parents rel);;
  mret (mkPCRelations (pivot rel) new_children (parents rel)).

Definition link_parents (rel : PCRelations) (new_parents : gmap AccountId Z)
    : Storage PCRelations :=
  ensure_no_self_loop (pivot rel) new_parents;;
  ensure_bipartite_separation (children rel) new_parents;;
  mret (mkPCRelations (pivot rel) (children rel) new_parents).

Fixpoint upsert_edge (l : Edges) (proportion : Z) (id : AccountId) : Edges :=
  match l with
  | [] => [(proportion, id)]
  | (p, who) :: l =>
      if decide (who = id) then (proportion, who) :: l
      else (p, who) :: upsert_edge l proportion id
  end.

Definition remove_edge (l : Edges) (id : AccountId) : Edges := filter (fun e => e.2 <> id) l.

Definition rebind_pivot (rel : PCRelations) (new_pivot : AccountId) : Storage PCRelations :=
  ensure_no_self_loop new_pivot (children rel);;
  ensure_no_self_loop new_pivot (parents rel);;
  mret (mkPCRelations new_pivot (children rel) (parents rel)).

(** ** Loading *)

Definition load_child_parent_relations (hotkey : AccountId) (netuid : NetUid)
    : Storage PCRelations :=
  child_links ← gets (fun s => child_keys s hotkey netuid);
  rel ← link_children (new_relations hotkey) (edges_map_without hotkey child_links);
  parent_links ← gets (fun s => parent_keys s hotkey netuid);
  link_parents rel (edges_map_without hotkey parent_links).

Definition load_relations_from_pending (pivot : AccountId) (pending_children_vec : Edges)
    (netuid : NetUid) : Storage PCRelations :=
  rel ← link_children (new_relations pivot) (edges_map_without pivot pending_children_vec);
  existing_parents_vec ← gets (fun s => parent_keys s pivot netuid);
  link_parents rel (edges_map_without pivot existing_parents_vec).

(** ** Persisting *)

Definition has_edge (l : Edges) (id : AccountId) : bool :=
  existsb (fun e => bool_decide (e.2 = id)) l.

(** No list of parents may grow beyond the cap. *)
Definition ensure_fan_in (rel : PCRelations) (netuid : NetUid) : Storage unit :=
  previous_parents ← gets (fun s => parent_keys s (pivot rel) netuid);
  ensure (bool_decide (size (parents rel) <= MAX_PARENTS_PER_CHILD)%nat ||
          bool_decide (size (parents rel) <= length previous_parents)%nat &&
          forallb (fun p => has_edge previous_parents p.1) (btree_iter (parents rel)))
    TooManyParents;;
  for_each (btree_iter (children rel)) (fun c =>
    ps ← gets (fun s => parent_keys s c.1 netuid);
    ensure (has_edge ps (pivot rel) || bool_decide (length ps < MAX_PARENTS_PER_CHILD)%nat)
      TooManyParents).

(** One neighbour: [added] and [common] keys get the new proportion, [removed]
    ones lose the pivot. *)
Definition upsert_parent (pivot : AccountId) (m : gmap AccountId Z) (netuid : NetUid)
    (child : AccountId) : Storage unit :=
  p ← ok_or (m !! child) ChildParentInconsistency;
  modify (fun s =>
    set_parentkeys child netuid (upsert_edge (parent_keys s child netuid) p pivot) s).

Definition remove_parent (pivot : AccountId) (netuid : NetUid) (child : AccountId) : Storage unit :=
  modify (fun s => set_parentkeys child netuid (remove_edge (parent_keys s child netuid) pivot) s).

Definition upsert_child (pivot : AccountId) (m : gmap AccountId Z) (netuid : NetUid)
    (parent : AccountId) : Storage unit :=
  p ← ok_or (m !! parent) ChildParentInconsistency;
  modify (fun s =>
    set_childkeys parent netuid (upsert_edge (child_keys s parent netuid) p pivot) s).

Definition remove_child (pivot : AccountId) (netuid : NetUid) (parent : AccountId) : Storage unit :=
  modify (fun s => set_childkeys parent netuid (remove_edge (child_keys s parent netuid) pivot) s).

(** [BTreeMap -> Vec<(u64, AccountId)>]. *)
Definition map_edges (m : gmap AccountId Z) : Edges := (fun e => (e.2, e.1)) <$> btree_iter m.

Definition ids_of (l : Edges) : gset AccountId := list_to_set l.*2.

Definition persist_child_parent_relations (rel : PCRelations) (netuid : NetUid) : Storage unit :=
  ensure_fan_in rel netuid;;
  (* 1) Pivot -> Children side *)
  prev_children_vec ← gets (fun s => child_keys s (pivot rel) netuid);
  modify (set_childkeys (pivot rel) netuid (map_edges (children rel)));;
  let prev_children_set := ids_of prev_children_vec in
  let new_children_set := dom (children rel) in
  for_each (filter (fun c => c ∉ prev_children_set) (sorted ord new_children_set))
    (upsert_parent (pivot rel) (children rel) netuid);;
  for_each (sorted ord (new_children_set ∩ prev_children_set))
    (upsert_parent (pivot rel) (children rel) netuid);;
  for_each (filter (fun c => c ∉ new_children_set) (sorted ord prev_children_set))
    (remove_parent (pivot rel) netuid);;
  (* 2) Parents -> Pivot side *)
  prev_parents_vec ← gets (fun s => parent_keys s (pivot rel) netuid);
  modify (set_parentkeys (pivot rel) netuid (map_edges (parents rel)));;
  let prev_parents_set := ids_of prev_parents_vec in
  let new_parents_set := dom (parents rel) in
  for_each (filter (fun p => p ∉ prev_parents_set) (sorted ord new_parents_set))
    (upsert_child (pivot rel) (parents rel) netuid);;
  for_each (sorted ord (new_parents_set ∩ prev_parents_set))
    (upsert_child (pivot rel) (parents rel) netuid);;
  for_each (filter (fun p => p ∉ new_parents_set) (sorted ord prev_parents_set))
    (remove_child (pivot rel) netuid).

(** If the relations would be inconsistent, nothing is set and no error is
    reported.  This runs outside a storage layer. *)
Definition persist_pending_chidren_ok (netuid : NetUid) (hotkey : AccountId) (children : Edges)
    (s : State) : State :=
  match load_relations_from_pending hotkey children netuid s with
  | (Ok relations, s) =>
      match persist_child_parent_relations relations netuid s with
      | (Ok _, s) => deposit_event (SetChildrenEvent hotkey netuid children) s
      | (Err _, s) => s
      end
  | (Err _, s) => s
  end.

(** ** Moving the relations to another hotkey *)

Definition parent_child_swap_hotkey (old_hotkey new_hotkey : AccountId) (netuid : NetUid)
    : Storage unit :=
  transactional (
    rel ← load_child_parent_relations old_hotkey netuid;
    for_each (btree_iter (children rel)) (fun c => remove_parent old_hotkey netuid c.1);;
    (* written with [insert], also when the list has become empty *)
    for_each (btree_iter (parents rel)) (fun p =>
      modify (fun s => with_child_keys
        <[(p.1, netuid) := remove_edge (child_keys s p.1 netuid) old_hotkey]> s));;
    modify (with_child_keys <[(old_hotkey, netuid) := []]>);;
    modify (set_parentkeys old_hotkey netuid []);;
    rel ← rebind_pivot rel new_hotkey;
    pending ← gets (fun s => PendingChildKeys s !! (netuid, old_hotkey));
    (match pending with
     | Some (children, cool_down_block) =>
         ensure_pending_consistency rel children;;
         modify (with_pending (fun m =>
           <[(netuid, new_hotkey) := (children, cool_down_block)]> (delete (netuid, old_hotkey) m)))
     | None => mret tt
     end);;
    persist_child_parent_relations rel netuid).

(** ** Thresholds *)

Section env.
Context (env : Env).

Definition is_subnet_owner (netuid : NetUid) (hotkey : AccountId) : bool :=
  bool_decide (SubnetOwnerHotkey env !! netuid = Some hotkey).

Definition hotkey_meets_childkey_threshold (hotkey : AccountId) (netuid : NetUid) : bool :=
  let threshold := StakeThreshold env in
  (threshold =? 0) || (threshold <=? get_total_stake_for_hotkey env hotkey) ||
  is_subnet_owner netuid hotkey.

(** [ChildKeys::<T>::iter_key_prefix(hotkey).next().is_some()]. *)
Definition has_child_rows (s : State) (hotkey : AccountId) : bool :=
  existsb (fun e => bool_decide (e.1.1 = hotkey)) (iter_links ord (ChildKeys s)).

Definition queue_childkey_threshold_check (hotkey : AccountId) (s : State) : State :=
  if bool_decide (hotkey ∈ ChildkeyThresholdSuspended s) || has_child_rows s hotkey
  then with_checks (fun X => {[hotkey]} ∪ X) s
  else s.

Definition reads (n : Z) : Z := saturating_mul u64_max (db_read env) n.
Definition writes (n : Z) : Z := saturating_mul u64_max (db_write env) n.

Definition childkey_threshold_check_weight : Z :=
  saturating_add u64_max
    (reads (saturating_add u64_max (saturating_mul u64_max (TotalNetworks env) 4) 3))
    (writes 2).

Definition recheck_childkey_threshold (hotkey : AccountId) (s : State) : State :=
  let threshold := StakeThreshold env in
  if (threshold =? 0) || (threshold <=? get_total_stake_for_hotkey env hotkey)
  then with_suspended (fun X => X ∖ {[hotkey]}) s
  else with_suspended (fun X => {[hotkey]} ∪ X) s.

(** The loop of [process_childkey_threshold_checks]: re-checks in iteration order
    while the budget lasts; returns the weight used, who was done and the state. *)
Fixpoint check_loop (limit per_item : Z) (queue : list AccountId) (used : Z)
    (done : list AccountId) (s : State) : Z * list AccountId * State :=
  match queue with
  | [] => (used, done, s)
  | hotkey :: queue =>
      if limit <? saturating_add u64_max used per_item then (used, done, s)
      else check_loop limit per_item queue (saturating_add u64_max used per_item)
             (done ++ [hotkey]) (recheck_childkey_threshold hotkey s)
  end.

(** Database weights have no proof-size part, so [all_lte] compares the time. *)
Definition process_childkey_threshold_checks (limit : Z) (s : State) : Z * State :=
  let overhead := reads 2 in
  if limit <? overhead then (0, s)
  else
    let queue := iter_checks ord (ChildkeyThresholdChecks s) in
    match queue with
    | [] => (reads 1, s)
    | _ =>
        let '(used, done, s) :=
          check_loop limit childkey_threshold_check_weight queue overhead [] s in
        (used, foldl (fun s hotkey => with_checks (fun X => X ∖ {[hotkey]}) s) s done)
    end.

Definition childkeys_suspended (s : State) (parent : AccountId) (netuid : NetUid) : bool :=
  bool_decide (parent ∈ ChildkeyThresholdSuspended s) && negb (is_subnet_owner netuid parent).

Definition get_children (s : State) (hotkey : AccountId) (netuid : NetUid) : Edges :=
  if childkeys_suspended s hotkey netuid then [] else child_keys s hotkey netuid.

Definition get_parents (s : State) (child : AccountId) (netuid : NetUid) : Edges :=
  filter (fun e => childkeys_suspended s e.2 netuid = false) (parent_keys s child netuid).

(** ** Scheduling *)

Definition coldkey_owns_hotkey (coldkey hotkey : AccountId) : bool :=
  bool_decide (Owner env !! hotkey = Some coldkey).

(** The duplicate check: no child was seen before. *)
Fixpoint no_duplicates (unique : list AccountId) (l : Edges) : bool :=
  match l with
  | [] => true
  | (_, child) :: l =>
      if bool_decide (child ∈ unique) then false else no_duplicates (unique ++ [child]) l
  end.

Definition schedule_or_apply_ck (netuid : NetUid) (hotkey : AccountId) (children : Edges)
    : Storage unit :=
  if negb (SubtokenEnabled env netuid) then
    modify (persist_pending_chidren_ok netuid hotkey children)
  else
    let cooldown_block :=
      saturating_add u64_max (get_current_block_as_u64 env) (PendingChildKeyCooldown env) in
    modify (with_pending <[(netuid, hotkey) := (children, cooldown_block)]>);;
    modify (deposit_event (SetChildrenScheduled hotkey netuid cooldown_block children)).

(** [origin] is the signer, if any. *)
Definition do_schedule_children (origin : option AccountId) (hotkey : AccountId) (netuid : NetUid)
    (children : Edges) : Storage unit :=
  transactional (
    coldkey ← ok_or origin BadOrigin;
    passes ← gets (fun s => passes_rate_limit_on_subnet env s SetChildren hotkey netuid);
    ensure passes TxRateLimitExceeded;;
    ensure (negb (is_root netuid)) RegistrationNotPermittedOnRootSubnet;;
    ensure (if_subnet_exist env netuid) SubnetNotExists;;
    ensure (coldkey_owns_hotkey coldkey hotkey) NonAssociatedColdKey;;
    ensure (no_duplicates [] children) DuplicateChild;;
    relations ← load_child_parent_relations hotkey netuid;
    ensure_pending_consistency relations children;;
    ensure (bool_decide (children = []) || hotkey_meets_childkey_threshold hotkey netuid)
      NotEnoughStakeToSetChildkeys;;
    modify (set_last_block_on_subnet SetChildren hotkey netuid (get_current_block_as_u64 env));;
    schedule_or_apply_ck netuid hotkey children).

(** One pending entry whose cool-down is over. *)
Definition apply_pending (netuid : NetUid) (hotkey : AccountId) (children : Edges) (s : State)
    : State :=
  if bool_decide (children = []) || hotkey_meets_childkey_threshold hotkey netuid then
    let s := persist_pending_chidren_ok netuid hotkey children s in
    if negb (bool_decide (children = [])) &&
       (StakeThreshold env <=? get_total_stake_for_hotkey env hotkey)
    then with_suspended (fun X => X ∖ {[hotkey]}) s
    else s
  else s.

Definition pending_due (start_call_occured : bool) (cool_down_block : Z) : bool :=
  (cool_down_block <? get_current_block_as_u64 env) || negb start_call_occured.

(** [PendingChildKeys::<T>::iter_prefix(netuid)]. *)
Definition pending_of (netuid : NetUid) (s : State) : list (AccountId * (Edges * Z)) :=
  (fun e => (e.1.2, e.2)) <$>
    filter (fun e => e.1.1 = netuid) (iter_pending ord (PendingChildKeys s)).

Definition do_set_pending_children (netuid : NetUid) (s : State) : State :=
  let due := filter (fun e => pending_due (SubtokenEnabled env netuid) e.2.2 = true)
               (pending_of netuid s) in
  let s := foldl (fun s e => apply_pending netuid e.1 e.2.1 s) s due in
  foldl (fun s e => with_pending (delete (netuid, e.1)) s) s due.

(** A pending list with the first entry for [old_hotkey] moved to [new_hotkey]. *)
Definition rename_child (old_hotkey new_hotkey : AccountId) (children : Edges) : option Edges :=
  match list_find (fun e => e.2 = old_hotkey) children with
  | Some (idx, entry) => Some (delete idx children ++ [(entry.1, new_hotkey)])
  | None => None
  end.

(** The loop of the hotkey swap over the requests of the other hotkeys. *)
Definition swap_pending_child (old_hotkey new_hotkey : AccountId) (netuid : NetUid) (s : State)
    : State :=
  foldl (fun s e =>
    match rename_child old_hotkey new_hotkey e.2.1 with
    | Some new_children =>
        with_pending (fun m =>
          <[(netuid, e.1) := (new_children, e.2.2)]> (delete (netuid, e.1) m)) s
    | None => s
    end) s (pending_of netuid s).

(** ** Take *)

Definition get_effective_min_childkey_take (netuid : NetUid) : Z :=
  Z.max (MinChildkeyTake env) (MinChildkeyTakePerSubnet env netuid).

Definition get_childkey_take (s : State) (hotkey : AccountId) (netuid : NetUid) : Z :=
  Z.max (default 0 (ChildkeyTake s !! (hotkey, netuid))) (get_effective_min_childkey_take netuid).

Definition do_set_childkey_take (coldkey hotkey : AccountId) (netuid : NetUid) (take : Z)
    : Storage unit :=
  ensure (coldkey_owns_hotkey coldkey hotkey) NonAssociatedColdKey;;
  ensure (if_subnet_exist env netuid) SubnetNotExists;;
  ensure ((get_effective_min_childkey_take netuid <=? take) && (take <=? MaxChildkeyTake env))
    InvalidChildkeyTake;;
  current_take ← gets (fun s => get_childkey_take s hotkey netuid);
  (if current_take <? take then
     passes ← gets (fun s => passes_rate_limit_on_subnet env s SetChildkeyTake hotkey netuid);
     ensure passes TxChildkeyTakeRateLimitExceeded
   else mret tt);;
  let current_block := get_current_block_as_u64 env in
  modify (set_last_block_on_subnet SetChildkeyTake hotkey netuid current_block);;
  modify (with_take (hotkey, netuid) take);;
  modify (set_last_block_on_subnet SetChildkeyTake hotkey netuid current_block);;
  modify (deposit_event (ChildKeyTakeSet hotkey take)).

(** ** Protocol-initiated relations (auto_parent.rs) *)

Definition apply_auto_parent_to_owner (parent_hotkey : AccountId) (netuid : NetUid)
    (owner_hotkey : AccountId) (s : State) : State :=
  if is_root netuid || negb (if_subnet_exist env netuid) then s
  else if decide (parent_hotkey = owner_hotkey) then s
  else if negb (AutoParentDelegationEnabled env parent_hotkey) then s
  else if negb (bool_decide (child_keys s parent_hotkey netuid = [])) ||
          bool_decide (is_Some (PendingChildKeys s !! (netuid, parent_hotkey))) then s
  else persist_pending_chidren_ok netuid parent_hotkey [(u64_max, owner_hotkey)] s.

Definition is_protocol_auto_parent_edge (s : State) (parent_hotkey : AccountId) (netuid : NetUid)
    : bool :=
  match child_keys s parent_hotkey netuid with
  | [(w, _)] => w =? u64_max
  | _ => false
  end.

Definition clear_auto_parent_for_root_validator (root_validator_hotkey : AccountId) (s : State)
    : State :=
  foldl (fun s netuid =>
    if is_root netuid then s
    else if negb (is_protocol_auto_parent_edge s root_validator_hotkey netuid) then s
    else persist_pending_chidren_ok netuid root_validator_hotkey [] s)
    s (get_all_subnet_netuids env).

Definition retarget_auto_parent_on_owner_change (netuid : NetUid) (old_owner new_owner : AccountId)
    (s : State) : State :=
  if is_root netuid || bool_decide (old_owner = new_owner) then s
  else
    foldl (fun s parent_hotkey =>
      if negb (bool_decide (child_keys s parent_hotkey netuid = [(u64_max, old_owner)])) then s
      else if decide (parent_hotkey = new_owner) then
        persist_pending_chidren_ok netuid parent_hotkey [] s
      else persist_pending_chidren_ok netuid parent_hotkey [(u64_max, new_owner)] s)
      s (root_validators env).

Definition do_set_root_validators_for_subnet (netuid : NetUid) : Storage unit :=
  ensure (negb (is_root netuid)) RegistrationNotPermittedOnRootSubnet;;
  ensure (if_subnet_exist env netuid) SubnetNotExists;;
  subnet_owner_hotkey ← ok_or (SubnetOwnerHotkey env !! netuid) SubnetNotExists;
  for_each (root_validators env) (fun root_validator_hotkey =>
    modify (apply_auto_parent_to_owner root_validator_hotkey netuid subnet_owner_hotkey)).

Definition do_set_subnet_owners_for_root_validator (root_validator_hotkey : AccountId) (s : State)
    : State :=
  if negb (AutoParentDelegationEnabled env root_validator_hotkey) then s
  else
    foldl (fun s netuid =>
      match SubnetOwnerHotkey env !! netuid with
      | Some subnet_owner_hotkey =>
          apply_auto_parent_to_owner root_validator_hotkey netuid subnet_owner_hotkey s
      | None => s
      end) s (get_all_subnet_netuids env).
End env.

(** ** State cleaners *)

(** The rows to rewrite and the keys to delete, collected before any write. *)
Record Plan : Type := mkPlan {
  updates : list ((AccountId * NetUid) * Edges);
  removes : list (AccountId * NetUid);
}.

Definition remove_child_rows (keys : list (AccountId * NetUid)) (s : State) : State :=
  foldl (fun s key => with_child_keys (delete key) s) s keys.
Definition remove_parent_rows (keys : list (AccountId * NetUid)) (s : State) : State :=
  foldl (fun s key => with_parent_keys (delete key) s) s keys.

Definition apply_child_plan (p : Plan) (s : State) : State :=
  remove_child_rows (removes p)
    (foldl (fun s r => set_childkeys r.1.1 r.1.2 r.2 s) s (updates p)).
Definition apply_parent_plan (p : Plan) (s : State) : State :=
  remove_parent_rows (removes p)
    (foldl (fun s r => set_parentkeys r.1.1 r.1.2 r.2 s) s (updates p)).

Definition empty_rows (m : Links) : list (AccountId * NetUid) :=
  (filter (fun r => r.2 = []) (iter_links ord m)).*1.

Definition clean_zero_childkey_vectors (s : State) : State :=
  remove_child_rows (empty_rows (ChildKeys s)) s.

Definition clean_zero_parentkey_vectors (s : State) : State :=
  remove_parent_rows (empty_rows (ParentKeys s)) s.

(** The loop over one map of [clean_self_loops]. *)
Fixpoint self_loop_plan (rows : list ((AccountId * NetUid) * Edges)) (p : Plan) : Plan :=
  match rows with
  | [] => p
  | (key, edges) :: rows =>
      let filtered := filter (fun e => e.2 <> key.1) edges in
      if (length filtered =? length edges)%nat then self_loop_plan rows p
      else if decide (filtered = []) then
        self_loop_plan rows (mkPlan (updates p) (removes p ++ [key]))
      else self_loop_plan rows (mkPlan (updates p ++ [(key, filtered)]) (removes p))
  end.

Definition clean_self_loops (s : State) : State :=
  let s := apply_child_plan (self_loop_plan (iter_links ord (ChildKeys s)) (mkPlan [] [])) s in
  apply_parent_plan (self_loop_plan (iter_links ord (ParentKeys s)) (mkPlan [] [])) s.

(** [opposite] is the list stored for the other end, as read while pruning. *)
Fixpoint repair_plan (opposite : AccountId -> NetUid -> Edges)
    (rows : list ((AccountId * NetUid) * Edges)) (p : Plan) : Plan :=
  match rows with
  | [] => p
  | (key, edges) :: rows =>
      let filtered :=
        filter (fun e => existsb (fun r => (r.1 =? e.1) && bool_decide (r.2 = key.1))
                                 (opposite e.2 key.2) = true) edges in
      if decide (filtered = []) then
        repair_plan opposite rows (mkPlan (updates p) (removes p ++ [key]))
      else if decide (edges <> filtered) then
        repair_plan opposite rows (mkPlan (updates p ++ [(key, filtered)]) (removes p))
      else repair_plan opposite rows p
  end.

Definition repair_child_parent_consistency (s : State) : State :=
  let s := apply_child_plan
             (repair_plan (parent_keys s) (iter_links ord (ChildKeys s)) (mkPlan [] [])) s in
  apply_parent_plan
    (repair_plan (child_keys s) (iter_links ord (ParentKeys s)) (mkPlan [] [])) s.
End childkeys.
