(* ===== verification/ChildKeysGraph.v ===== *)
(** * ChildKeysGraph: the two relation maps are two views of one graph

    The update behind every operation of ChildKeys.v.  [edge s n p c] is the
    proportion parent [p] gives child [c] on subnet [n].  [relations_inv] says
    that [ChildKeys] and [ParentKeys] store the same edges, that no list repeats
    a hotkey, that there are neither self-loops nor two-cycles, and the limits on
    lists and proportions.  [persist_run] shows that the diff-based update
    [persist_child_parent_relations] is atomic, [persist_effect] gives the graph
    it leaves, and [persist_live_inv] that it keeps the invariant. *)

From Stdlib Require Import ZArith Lia.
From stdpp Require Import base gmap list fin_maps.
From S2P Require Import Prelude ChildKeys.

(** The operations that keep the invariant. *)
Create HintDb childkeys.

Section edges.
Context {AccountId : Type} `{Countable AccountId}.
Abbreviation Edges := (list (Z * AccountId)).
Implicit Types (l : Edges) (k id : AccountId).

(** The proportion of the first edge to [id]. *)
Fixpoint edge_weight l id : option Z :=
  match l with
  | [] => None
  | (w, who) :: l => if decide (who = id) then Some w else edge_weight l id
  end.

Lemma edge_weight_None l id : edge_weight l id = None <-> id ∉ l.*2.
Proof.
  induction l as [|[w who] l IH]; simpl; [by split; [intros _; apply not_elem_of_nil|]|].
  rewrite not_elem_of_cons. case_decide; naive_solver.
Qed.

Lemma edge_weight_elem l id w : edge_weight l id = Some w -> (w, id) ∈ l.
Proof.
  induction l as [|[w' who] l IH]; simpl; [done|]. case_decide; rewrite elem_of_cons; naive_solver.
Qed.

Lemma edge_weight_Some l id w : NoDup l.*2 -> edge_weight l id = Some w <-> (w, id) ∈ l.
Proof.
  intros Hnd. split; [apply edge_weight_elem|]. induction l as [|[w' who] l IH]; simpl.
  { by intros ?%not_elem_of_nil. }
  csimpl in Hnd. apply list.NoDup_cons in Hnd as [Hnin Hnd]. rewrite elem_of_cons.
  intros [[= -> ->]|Hin]; [by rewrite decide_True|]. rewrite decide_False; [by apply IH|].
  intros ->. apply Hnin, list_elem_of_fmap. by exists (w, id).
Qed.

Lemma edge_weight_nil_inv l : (forall id, edge_weight l id = None) -> l = [].
Proof. destruct l as [|[w who] l]; [done|]. intros Hn. specialize (Hn who). simpl in Hn.
  by rewrite decide_True in Hn. Qed.

Lemma edge_weight_upsert l w id id' :
  edge_weight (upsert_edge l w id) id' = if decide (id' = id) then Some w else edge_weight l id'.
Proof.
  induction l as [|[w' who] l IH]; simpl; [repeat case_decide; congruence|].
  destruct (decide (who = id)); simpl; repeat case_decide; congruence.
Qed.

Lemma upsert_edge_ids l w id id' : id' ∈ (upsert_edge l w id).*2 <-> id' = id \/ id' ∈ l.*2.
Proof.
  induction l as [|[w' who] l IH]; simpl; [rewrite list_elem_of_singleton, elem_of_nil; tauto|].
  case_decide; csimpl; rewrite !elem_of_cons; naive_solver.
Qed.

Lemma upsert_edge_NoDup l w id : NoDup l.*2 -> NoDup (upsert_edge l w id).*2.
Proof.
  induction l as [|[w' who] l IH]; simpl; intros Hnd.
  - apply list.NoDup_singleton.
  - csimpl in Hnd. apply list.NoDup_cons in Hnd as [Hnin Hnd].
    case_decide; csimpl; apply list.NoDup_cons; [done|]. split; [|by apply IH].
    rewrite upsert_edge_ids. naive_solver.
Qed.

Lemma upsert_edge_length l w id :
  length (upsert_edge l w id) = (length l + if decide (id ∈ l.*2) then 0 else 1)%nat.
Proof.
  induction l as [|[w' who] l IH]; csimpl; [done|].
  destruct (decide (who = id)) as [->|Hne]; csimpl.
  - rewrite decide_True by left. lia.
  - rewrite IH. repeat case_decide; try lia; exfalso; rewrite elem_of_cons in *; naive_solver.
Qed.

Lemma remove_edge_weight l id id' :
  edge_weight (remove_edge l id) id' = if decide (id' = id) then None else edge_weight l id'.
Proof.
  induction l as [|[w' who] l IH]; unfold remove_edge in *; simpl; [by case_decide|].
  destruct (decide (who = id)) as [->|Hne].
  - rewrite filter_cons_False by (simpl; naive_solver). rewrite IH. repeat case_decide; congruence.
  - rewrite filter_cons_True by done. simpl. rewrite IH. repeat case_decide; congruence.
Qed.

Lemma remove_edge_sublist l id : sublist (remove_edge l id) l.
Proof. apply sublist_filter. Qed.

Lemma remove_edge_NoDup l id : NoDup l.*2 -> NoDup (remove_edge l id).*2.
Proof.
  unfold remove_edge. induction l as [|[w' who] l IH]; csimpl; [done|].
  intros [Hnin Hnd]%list.NoDup_cons. rewrite filter_cons. case_decide; [|by apply IH].
  csimpl. apply list.NoDup_cons. split; [|by apply IH]. intros (e & -> & Hin)%list_elem_of_fmap.
  apply list_elem_of_filter in Hin as [_ Hin]. apply Hnin, list_elem_of_fmap. by exists e.
Qed.

Lemma remove_edge_length l id : (length (remove_edge l id) <= length l)%nat.
Proof. apply sublist_length, remove_edge_sublist. Qed.

Lemma has_edge_spec l id : has_edge l id = true <-> id ∈ l.*2.
Proof.
  unfold has_edge. rewrite existsb_exists, list_elem_of_fmap. split.
  - intros (e & Hin%list_elem_of_In & He). bool_to_prop. eauto.
  - intros (e & -> & Hin%list_elem_of_In). exists e. by rewrite bool_decide_eq_true.
Qed.

(** The maps the lists are read into. *)
Lemma edges_map_app l e : edges_map (l ++ [e]) = <[e.2 := e.1]> (edges_map l).
Proof. unfold edges_map. by rewrite foldl_app. Qed.

Lemma edges_map_without_app pv l e :
  edges_map_without pv (l ++ [e]) =
  if decide (e.2 = pv) then edges_map_without pv l else <[e.2 := e.1]> (edges_map_without pv l).
Proof. unfold edges_map_without. by rewrite foldl_app. Qed.

Lemma edges_map_without_lookup pv l k :
  edges_map_without pv l !! k = if decide (k = pv) then None else edges_map l !! k.
Proof.
  induction l as [|[w who] l IH] using rev_ind; [by case_decide|].
  rewrite edges_map_without_app, edges_map_app. simpl.
  destruct (decide (who = pv)) as [->|]; rewrite ?lookup_insert, IH; repeat case_decide; congruence.
Qed.

Lemma edge_weight_snoc l w who id :
  edge_weight (l ++ [(w, who)]) id =
  match edge_weight l id with Some v => Some v | None => if decide (who = id) then Some w else None end.
Proof. induction l as [|[w' who'] l IH]; simpl; [done|]. by destruct (decide (who' = id)). Qed.

(** Without repetitions, first and last proportion are the same. *)
Lemma edges_map_lookup l k : NoDup l.*2 -> edges_map l !! k = edge_weight l k.
Proof.
  induction l as [|[w who] l IH] using rev_ind; [done|]. intros Hnd.
  rewrite fmap_app in Hnd. apply NoDup_app in Hnd as (Hnd & Hdis & _).
  rewrite edges_map_app, lookup_insert, edge_weight_snoc, (IH Hnd). simpl.
  case_decide as E; [|by case_match]. subst. case_match eqn:E; [|done]. exfalso.
  apply edge_weight_elem in E. eapply (Hdis k); [|by left].
  apply list_elem_of_fmap. by exists (z, k).
Qed.
End edges.

(** ** What the diff-based update does *)

Section safety.
Context {AccountId : Type} `{Countable AccountId} (ord : Order (AccountId := AccountId)).
Abbreviation Edges := (list (Z * AccountId)).
Abbreviation State := (State (AccountId := AccountId)).
Abbreviation PCRelations := (PCRelations (AccountId := AccountId)).
Implicit Types (s : State) (n : NetUid) (p c k pv : AccountId) (l : Edges) (m : gmap AccountId Z).

(** Every walk visits each element once. *)
Class OrderLaws : Prop := {
  sorted_perm X : sorted ord X ≡ₚ elements X;
  iter_links_perm rows : iter_links ord rows ≡ₚ map_to_list rows;
  iter_pending_perm rows : iter_pending ord rows ≡ₚ map_to_list rows;
  iter_checks_perm X : iter_checks ord X ≡ₚ elements X;
}.
Context `{!OrderLaws}.

Lemma elem_of_sorted X k : k ∈ sorted ord X <-> k ∈ X.
Proof. by rewrite sorted_perm, elem_of_elements. Qed.

Lemma NoDup_sorted X : NoDup (sorted ord X).
Proof. rewrite sorted_perm. apply NoDup_elements. Qed.

Lemma elem_of_btree_iter m k w : (k, w) ∈ btree_iter ord m <-> m !! k = Some w.
Proof.
  unfold btree_iter. rewrite list_elem_of_omap. split.
  - intros (k' & _ & (w' & Hk & [= -> ->])%fmap_Some). done.
  - intros Hk. exists k. rewrite elem_of_sorted, elem_of_dom, Hk. by eauto.
Qed.

Lemma btree_iter_keys m : (btree_iter ord m).*1 = sorted ord (dom m).
Proof.
  unfold btree_iter. assert (Hd : Forall (fun k => is_Some (m !! k)) (sorted ord (dom m))).
  { apply Forall_forall. intros k Hk. by apply elem_of_dom, elem_of_sorted. }
  induction Hd as [|k ks [w Hw] _ IH]; [done|]. csimpl. rewrite Hw. csimpl. by rewrite IH.
Qed.

Lemma map_edges_ids m : (map_edges ord m).*2 = sorted ord (dom m).
Proof.
  rewrite <- btree_iter_keys. unfold map_edges. rewrite <- list_fmap_compose.
  by apply list_fmap_ext.
Qed.

Lemma map_edges_NoDup m : NoDup (map_edges ord m).*2.
Proof. rewrite map_edges_ids. apply NoDup_sorted. Qed.

Lemma map_edges_weight m k : edge_weight (map_edges ord m) k = m !! k.
Proof.
  destruct (edge_weight (map_edges ord m) k) as [w|] eqn:E.
  - apply edge_weight_elem in E. unfold map_edges in E.
    apply list_elem_of_fmap in E as ([k' w'] & [= -> ->] & Hin). by apply elem_of_btree_iter in Hin.
  - apply edge_weight_None in E. rewrite map_edges_ids, elem_of_sorted in E.
    symmetry. by apply not_elem_of_dom.
Qed.

Lemma map_edges_length m : length (map_edges ord m) = size m.
Proof.
  rewrite <- (length_fmap snd), map_edges_ids, sorted_perm.
  apply size_dom.
Qed.

(** A stored row: empty lists are not stored. *)
Definition row l : option Edges := match l with [] => None | _ => Some l end.

Lemma default_row l : default [] (row l) = l.
Proof. by destruct l. Qed.

Lemma ChildKeys_set k n l s key :
  ChildKeys (set_childkeys k n l s) !! key = if decide (key = (k, n)) then row l else ChildKeys s !! key.
Proof.
  destruct l; simpl; case_decide; subst;
    rewrite ?lookup_delete_eq, ?lookup_delete_ne, ?lookup_insert_eq, ?lookup_insert_ne; done.
Qed.

Lemma ParentKeys_set k n l s key :
  ParentKeys (set_parentkeys k n l s) !! key = if decide (key = (k, n)) then row l else ParentKeys s !! key.
Proof.
  destruct l; simpl; case_decide; subst;
    rewrite ?lookup_delete_eq, ?lookup_delete_ne, ?lookup_insert_eq, ?lookup_insert_ne; done.
Qed.

(** What the relation maps do not hold. *)
Definition rest s :=
  (PendingChildKeys s, ChildkeyThresholdSuspended s, ChildkeyThresholdChecks s, ChildkeyTake s,
   TransactionKeyLastBlock s, Events s).

Lemma set_childkeys_frame k n l s :
  ParentKeys (set_childkeys k n l s) = ParentKeys s /\ rest (set_childkeys k n l s) = rest s.
Proof. by destruct l. Qed.

Lemma set_parentkeys_frame k n l s :
  ChildKeys (set_parentkeys k n l s) = ChildKeys s /\ rest (set_parentkeys k n l s) = rest s.
Proof. by destruct l. Qed.

(** Rewriting the lists of several neighbours. *)
Definition update_parents n (f : AccountId -> Edges -> Edges) (ks : list AccountId) s : State :=
  foldl (fun s k => set_parentkeys k n (f k (parent_keys s k n)) s) s ks.
Definition update_children n (f : AccountId -> Edges -> Edges) (ks : list AccountId) s : State :=
  foldl (fun s k => set_childkeys k n (f k (child_keys s k n)) s) s ks.

Lemma update_parents_frame n f ks s :
  ChildKeys (update_parents n f ks s) = ChildKeys s /\ rest (update_parents n f ks s) = rest s.
Proof.
  unfold update_parents. revert s. induction ks as [|k ks IH]; intros s; [done|]. simpl.
  destruct (IH (set_parentkeys k n (f k (parent_keys s k n)) s)) as [-> ->].
  apply set_parentkeys_frame.
Qed.

Lemma update_children_frame n f ks s :
  ParentKeys (update_children n f ks s) = ParentKeys s /\ rest (update_children n f ks s) = rest s.
Proof.
  unfold update_children. revert s. induction ks as [|k ks IH]; intros s; [done|]. simpl.
  destruct (IH (set_childkeys k n (f k (child_keys s k n)) s)) as [-> ->].
  apply set_childkeys_frame.
Qed.

Lemma update_parents_rows n f ks s k n' : NoDup ks ->
  ParentKeys (update_parents n f ks s) !! (k, n') =
  if decide (n' = n /\ k ∈ ks) then row (f k (parent_keys s k n)) else ParentKeys s !! (k, n').
Proof.
  unfold update_parents. revert s. induction ks as [|k0 ks IH]; intros s Hnd; simpl.
  { rewrite decide_False; [done|]. by intros [_ ?%not_elem_of_nil]. }
  apply list.NoDup_cons in Hnd as [Hnin Hnd]. rewrite IH by done.
  unfold parent_keys. rewrite !ParentKeys_set.
  repeat case_decide; rewrite ?elem_of_cons in *; naive_solver.
Qed.

Lemma update_children_rows n f ks s k n' : NoDup ks ->
  ChildKeys (update_children n f ks s) !! (k, n') =
  if decide (n' = n /\ k ∈ ks) then row (f k (child_keys s k n)) else ChildKeys s !! (k, n').
Proof.
  unfold update_children. revert s. induction ks as [|k0 ks IH]; intros s Hnd; simpl.
  { rewrite decide_False; [done|]. by intros [_ ?%not_elem_of_nil]. }
  apply list.NoDup_cons in Hnd as [Hnin Hnd]. rewrite IH by done.
  unfold child_keys. rewrite !ChildKeys_set.
  repeat case_decide; rewrite ?elem_of_cons in *; naive_solver.
Qed.

(** The new list of a neighbour [k] of the pivot: [m] are the pivot's new
    neighbours on that side, [prev] the old ones. *)
Definition relink m (prev : gset AccountId) pv k l : Edges :=
  match m !! k with
  | Some w => upsert_edge l w pv
  | None => if decide (k ∈ prev) then remove_edge l pv else l
  end.

(** The neighbours visited: added, common and removed ones. *)
Definition touched m (prev : gset AccountId) : list AccountId :=
  filter (fun k => k ∉ prev) (sorted ord (dom m)) ++ sorted ord (dom m ∩ prev) ++
  filter (fun k => k ∉ dom m) (sorted ord prev).

Lemma elem_of_touched m prev k : k ∈ touched m prev <-> k ∈ dom m \/ k ∈ prev.
Proof.
  unfold touched. rewrite !elem_of_app, !list_elem_of_filter, !elem_of_sorted, elem_of_intersection.
  destruct (decide (k ∈ dom m)), (decide (k ∈ prev)); tauto.
Qed.

Lemma touched_NoDup m prev : NoDup (touched m prev).
Proof.
  unfold touched. rewrite !NoDup_app. split_and!.
  all: try apply NoDup_filter; try apply NoDup_sorted.
  all: intros k; rewrite ?elem_of_app, ?list_elem_of_filter, ?elem_of_sorted, ?elem_of_intersection; tauto.
Qed.

Section loops.
Context (pv : AccountId) (m : gmap AccountId Z) (prev : gset AccountId) (n : NetUid).

Lemma upsert_parent_run k w s : m !! k = Some w ->
  upsert_parent pv m n k s =
  modify (fun s => set_parentkeys k n (relink m prev pv k (parent_keys s k n)) s) s.
Proof. intros Hk. unfold upsert_parent, relink, ok_or, modify, mbind, M_bind. by rewrite Hk. Qed.

Lemma remove_parent_run k s : k ∈ prev -> m !! k = None ->
  remove_parent pv n k s =
  modify (fun s => set_parentkeys k n (relink m prev pv k (parent_keys s k n)) s) s.
Proof. intros Hp Hk. unfold remove_parent, relink, modify. by rewrite Hk, decide_True. Qed.

Lemma upsert_child_run k w s : m !! k = Some w ->
  upsert_child pv m n k s =
  modify (fun s => set_childkeys k n (relink m prev pv k (child_keys s k n)) s) s.
Proof. intros Hk. unfold upsert_child, relink, ok_or, modify, mbind, M_bind. by rewrite Hk. Qed.

Lemma remove_child_run k s : k ∈ prev -> m !! k = None ->
  remove_child pv n k s =
  modify (fun s => set_childkeys k n (relink m prev pv k (child_keys s k n)) s) s.
Proof. intros Hp Hk. unfold remove_child, relink, modify. by rewrite Hk, decide_True. Qed.

(** Three loops that treat the added, the common and the removed neighbours
    amount to one pass over all of them. *)
Lemma three_loops (add del : AccountId -> M State Error unit) (step : AccountId -> State -> State) s :
  (forall k w s, m !! k = Some w -> add k s = modify (step k) s) ->
  (forall k s, k ∈ prev -> m !! k = None -> del k s = modify (step k) s) ->
  (for_each (filter (fun k => k ∉ prev) (sorted ord (dom m))) add;;
   for_each (sorted ord (dom m ∩ prev)) add;;
   for_each (filter (fun k => k ∉ dom m) (sorted ord prev)) del) s =
  (Ok tt, foldl (fun s k => step k s) s (touched m prev)).
Proof.
  intros Ha Hd. unfold touched. rewrite !foldl_app. unfold mbind, M_bind.
  rewrite (for_each_ext add (fun k => modify (step k))), for_each_modify; cycle 1.
  { intros k s' [_ Hk]%list_elem_of_filter. apply elem_of_sorted, elem_of_dom in Hk as [w Hw].
    by eapply Ha. }
  rewrite (for_each_ext add (fun k => modify (step k))), for_each_modify; cycle 1.
  { intros k s' Hk. apply elem_of_sorted, elem_of_intersection in Hk as [[w Hw]%elem_of_dom _].
    by eapply Ha. }
  rewrite (for_each_ext del (fun k => modify (step k))), for_each_modify; [done|].
  intros k s' [Hm Hk]%list_elem_of_filter. apply not_elem_of_dom in Hm.
  by apply Hd; [apply elem_of_sorted in Hk|].
Qed.

Lemma parent_loops s :
  (for_each (filter (fun k => k ∉ prev) (sorted ord (dom m))) (upsert_parent pv m n);;
   for_each (sorted ord (dom m ∩ prev)) (upsert_parent pv m n);;
   for_each (filter (fun k => k ∉ dom m) (sorted ord prev)) (remove_parent pv n)) s =
  (Ok tt, update_parents n (relink m prev pv) (touched m prev) s).
Proof.
  apply three_loops; intros; [by eapply upsert_parent_run|by apply remove_parent_run].
Qed.

Lemma child_loops s :
  (for_each (filter (fun k => k ∉ prev) (sorted ord (dom m))) (upsert_child pv m n);;
   for_each (sorted ord (dom m ∩ prev)) (upsert_child pv m n);;
   for_each (filter (fun k => k ∉ dom m) (sorted ord prev)) (remove_child pv n)) s =
  (Ok tt, update_children n (relink m prev pv) (touched m prev) s).
Proof.
  apply three_loops; intros; [by eapply upsert_child_run|by apply remove_child_run].
Qed.
End loops.

(** The state the update leaves, once the fan-in check has passed. *)
Definition persist_result (rel : PCRelations) n s : State :=
  let prevC := ids_of (child_keys s (pivot rel) n) in
  let s := set_childkeys (pivot rel) n (map_edges ord (children rel)) s in
  let s := update_parents n (relink (children rel) prevC (pivot rel)) (touched (children rel) prevC) s in
  let prevP := ids_of (parent_keys s (pivot rel) n) in
  let s := set_parentkeys (pivot rel) n (map_edges ord (parents rel)) s in
  update_children n (relink (parents rel) prevP (pivot rel)) (touched (parents rel) prevP) s.

Lemma ensure_fan_in_pure rel n s r s' : ensure_fan_in ord rel n s = (r, s') -> s' = s.
Proof.
  unfold ensure_fan_in, gets, mbind, M_bind, ensure at 1.
  destruct (bool_decide _ || _); [|by intros [= _ <-]].
  intros Hf. eapply for_each_pure in Hf as [-> _]; [done|].
  intros x s1 r1 s2. unfold ensure. destruct (has_edge _ _ || _); by intros [= _ <-].
Qed.

Lemma ensure_fan_in_err rel n s e s' :
  ensure_fan_in ord rel n s = (Err e, s') -> e = TooManyParents.
Proof.
  unfold ensure_fan_in, gets, mbind, M_bind, ensure at 1.
  destruct (bool_decide _ || _); [|by intros [= <- _]].
  revert s. induction (btree_iter ord (children rel)) as [|x ks IH]; intros s; [done|].
  simpl. unfold mbind, M_bind, ensure at 1.
  destruct (has_edge _ _ || _); [apply IH|by intros [= <- _]].
Qed.

(** Errors come before the first write, and nothing fails after it: the update
    is atomic although it runs outside a storage layer. *)
Lemma persist_run rel n s :
  persist_child_parent_relations ord rel n s =
  match ensure_fan_in ord rel n s with
  | (Ok _, _) => (Ok tt, persist_result rel n s)
  | (Err _, _) => (Err TooManyParents, s)
  end.
Proof.
  unfold persist_child_parent_relations. unfold mbind at 1, M_bind at 1.
  destruct (ensure_fan_in ord rel n s) as [[u|e] s1] eqn:E; apply ensure_fan_in_pure in E as Hs; subst s1.
  2: { by apply ensure_fan_in_err in E as ->. }
  rewrite bind_gets, bind_modify. cbv zeta. rewrite seq_assoc3.
  erewrite bind_run by apply parent_loops. rewrite bind_gets, bind_modify. apply child_loops.
Qed.

Lemma persist_ok rel n s u s' :
  persist_child_parent_relations ord rel n s = (Ok u, s') ->
  ensure_fan_in ord rel n s = (Ok tt, s) /\ s' = persist_result rel n s.
Proof.
  rewrite persist_run. destruct (ensure_fan_in ord rel n s) as [[[]|e] s1] eqn:E; [|done].
  intros [= _ <-]. by apply ensure_fan_in_pure in E as ->.
Qed.

(** The pivot is not its own neighbour, before or after. *)
Definition loop_free (rel : PCRelations) n s : Prop :=
  children rel !! pivot rel = None /\ parents rel !! pivot rel = None /\
  (pivot rel ∉ (child_keys s (pivot rel) n).*2) /\ (pivot rel ∉ (parent_keys s (pivot rel) n).*2).

Lemma elem_of_ids_of l k : k ∈ ids_of l <-> k ∈ l.*2.
Proof. apply elem_of_list_to_set. Qed.

Section persist_rows.
Context (rel : PCRelations) (n : NetUid) (s : State) (Hfree : loop_free rel n s).
Let pv := pivot rel.
Let prevC := ids_of (child_keys s pv n).
Let prevP := ids_of (parent_keys s pv n).

Lemma pivot_untouched : (pv ∉ touched (children rel) prevC) /\ (pv ∉ touched (parents rel) prevP).
Proof.
  destruct Hfree as (Hc & Hp & HC & HP). rewrite !elem_of_touched.
  unfold prevC, prevP. rewrite !elem_of_ids_of, !elem_of_dom, !eq_None_not_Some in *. tauto.
Qed.

Lemma persist_ChildKeys k n' :
  ChildKeys (persist_result rel n s) !! (k, n') =
  if decide (n' = n /\ k = pv) then row (map_edges ord (children rel))
  else if decide (n' = n /\ k ∈ touched (parents rel) prevP)
       then row (relink (parents rel) prevP pv k (child_keys s k n))
       else ChildKeys s !! (k, n').
Proof.
  destruct pivot_untouched as [HC HP]. unfold persist_result.
  fold pv prevC. cbv zeta. set (s2 := update_parents _ _ _ _).
  assert (E : parent_keys s2 pv n = parent_keys s pv n).
  { unfold parent_keys, s2. rewrite update_parents_rows by apply touched_NoDup.
    rewrite decide_False by tauto. by rewrite (proj1 (set_childkeys_frame _ _ _ _)). }
  rewrite E. fold prevP. rewrite update_children_rows by apply touched_NoDup.
  unfold child_keys. rewrite (proj1 (set_parentkeys_frame _ _ _ _)).
  unfold s2. rewrite (proj1 (update_parents_frame _ _ _ _)), !ChildKeys_set.
  repeat case_decide; naive_solver.
Qed.

Lemma persist_ParentKeys k n' :
  ParentKeys (persist_result rel n s) !! (k, n') =
  if decide (n' = n /\ k = pv) then row (map_edges ord (parents rel))
  else if decide (n' = n /\ k ∈ touched (children rel) prevC)
       then row (relink (children rel) prevC pv k (parent_keys s k n))
       else ParentKeys s !! (k, n').
Proof.
  destruct pivot_untouched as [HC HP]. unfold persist_result.
  fold pv prevC. cbv zeta. rewrite (proj1 (update_children_frame _ _ _ _)), ParentKeys_set.
  rewrite update_parents_rows by apply touched_NoDup.
  unfold parent_keys. rewrite (proj1 (set_childkeys_frame _ _ _ _)).
  repeat case_decide; naive_solver.
Qed.

Lemma persist_rest : rest (persist_result rel n s) = rest s.
Proof.
  unfold persist_result. cbv zeta. rewrite (proj2 (update_children_frame _ _ _ _)).
  rewrite (proj2 (set_parentkeys_frame _ _ _ _)), (proj2 (update_parents_frame _ _ _ _)).
  apply set_childkeys_frame.
Qed.

Lemma relink_untouched m prev k l : k ∉ touched m prev -> relink m prev pv k l = l.
Proof.
  rewrite elem_of_touched. intros Hk. unfold relink.
  rewrite (proj1 (not_elem_of_dom m k)) by tauto. rewrite decide_False by tauto. done.
Qed.

Lemma persist_child_keys k n' :
  child_keys (persist_result rel n s) k n' =
  if decide (n' = n) then
    if decide (k = pv) then map_edges ord (children rel)
    else relink (parents rel) prevP pv k (child_keys s k n)
  else child_keys s k n'.
Proof.
  unfold child_keys at 1. rewrite persist_ChildKeys.
  destruct (decide (n' = n)) as [->|]; [|rewrite !decide_False by tauto; done].
  destruct (decide (k = pv)) as [->|]; [by rewrite decide_True, default_row|].
  rewrite (decide_False (P := _ /\ k = pv)) by tauto.
  case_decide; [by rewrite default_row|]. by rewrite relink_untouched by tauto.
Qed.

Lemma persist_parent_keys k n' :
  parent_keys (persist_result rel n s) k n' =
  if decide (n' = n) then
    if decide (k = pv) then map_edges ord (parents rel)
    else relink (children rel) prevC pv k (parent_keys s k n)
  else parent_keys s k n'.
Proof.
  unfold parent_keys at 1. rewrite persist_ParentKeys.
  destruct (decide (n' = n)) as [->|]; [|rewrite !decide_False by tauto; done].
  destruct (decide (k = pv)) as [->|]; [by rewrite decide_True, default_row|].
  rewrite (decide_False (P := _ /\ k = pv)) by tauto.
  case_decide; [by rewrite default_row|]. by rewrite relink_untouched by tauto.
Qed.
End persist_rows.

Lemma relink_weight m prev pv k l p :
  edge_weight (relink m prev pv k l) p =
  if decide (p = pv) then
    match m !! k with
    | Some w => Some w
    | None => if decide (k ∈ prev) then None else edge_weight l pv
    end
  else edge_weight l p.
Proof.
  unfold relink. destruct (m !! k); [apply edge_weight_upsert|].
  repeat case_decide; rewrite ?remove_edge_weight; repeat case_decide; congruence.
Qed.

Lemma relink_NoDup m prev pv k l : NoDup l.*2 -> NoDup (relink m prev pv k l).*2.
Proof.
  unfold relink. destruct (m !! k); [apply upsert_edge_NoDup|].
  case_decide; [apply remove_edge_NoDup|done].
Qed.

(** ** The graph *)

Definition edge s n p c : option Z := edge_weight (child_keys s p n) c.

(** [ChildKeys] and [ParentKeys] store one graph, without repetitions,
    self-loops and two-cycles. *)
Record graph_ok s n : Prop := {
  graph_sym p c : edge_weight (parent_keys s c n) p = edge s n p c;
  graph_children_NoDup p : NoDup (child_keys s p n).*2;
  graph_parents_NoDup c : NoDup (parent_keys s c n).*2;
  graph_no_loop k : edge s n k k = None;
  graph_no_two_cycle p c w : edge s n p c = Some w -> edge s n c p = None;
}.

(** The relations are loop-free and separated. *)
Definition rel_ok (rel : PCRelations) : Prop :=
  children rel !! pivot rel = None /\ parents rel !! pivot rel = None /\
  forall k w, children rel !! k = Some w -> parents rel !! k = None.

Lemma graph_loop_free rel n s : graph_ok s n -> rel_ok rel -> loop_free rel n s.
Proof.
  intros Hg (Hc & Hp & _). split_and!; [done..| |]; apply edge_weight_None.
  - apply (graph_no_loop _ _ Hg).
  - rewrite (graph_sym _ _ Hg). apply (graph_no_loop _ _ Hg).
Qed.

(** The graph with the pivot's edges replaced. *)
Definition replaced (rel : PCRelations) (G : AccountId -> AccountId -> option Z) p c : option Z :=
  if decide (p = pivot rel) then children rel !! c
  else if decide (c = pivot rel) then parents rel !! p
  else G p c.

Lemma persist_effect rel n s : graph_ok s n -> rel_ok rel ->
  let s' := persist_result rel n s in
  forall p c, edge s' n p c = replaced rel (edge s n) p c /\
              edge_weight (parent_keys s' c n) p = replaced rel (edge s n) p c.
Proof.
  intros Hg Hr s' p c. pose proof (graph_loop_free _ _ _ Hg Hr) as Hf.
  destruct Hr as (Hrc & Hrp & _). unfold edge, s', replaced.
  rewrite persist_child_keys, persist_parent_keys by done. rewrite !(decide_True (P := n = n)) by done. split.
  - destruct (decide (p = pivot rel)) as [->|]; [apply map_edges_weight|].
    rewrite relink_weight. case_decide; [|done]. subst c.
    destruct (parents rel !! p) as [w|]; [done|]. case_decide as Hin; [done|].
    rewrite elem_of_ids_of, <- edge_weight_None, (graph_sym _ _ Hg) in Hin. exact Hin.
  - destruct (decide (c = pivot rel)) as [->|].
    { rewrite map_edges_weight. case_decide; [by subst; rewrite Hrp, Hrc|done]. }
    rewrite relink_weight. case_decide; [|by rewrite (graph_sym _ _ Hg)]. subst p.
    destruct (children rel !! c) as [w|]; [done|]. case_decide as Hin; [done|].
    rewrite elem_of_ids_of, <- edge_weight_None in Hin. rewrite (graph_sym _ _ Hg). exact Hin.
Qed.

Lemma persist_graph_ok rel n s : graph_ok s n -> rel_ok rel -> graph_ok (persist_result rel n s) n.
Proof.
  intros Hg Hr. pose proof (persist_effect rel n s Hg Hr) as He. simpl in He.
  pose proof (graph_loop_free _ _ _ Hg Hr) as Hf. destruct Hr as (Hrc & Hrp & Hsep). split.
  - intros p c. by destruct (He p c) as [-> ->].
  - intros p. rewrite persist_child_keys, decide_True by done.
    case_decide; [apply map_edges_NoDup|apply relink_NoDup, (graph_children_NoDup _ _ Hg)].
  - intros p. rewrite persist_parent_keys, decide_True by done.
    case_decide; [apply map_edges_NoDup|apply relink_NoDup, (graph_parents_NoDup _ _ Hg)].
  - intros k. rewrite (proj1 (He k k)). unfold replaced. repeat case_decide; subst; try done.
    apply (graph_no_loop _ _ Hg).
  - intros p c w. rewrite (proj1 (He p c)), (proj1 (He c p)). unfold replaced.
    repeat case_decide; subst; try congruence; eauto.
    + intros Hp. destruct (children rel !! p) eqn:E; [|done]. apply Hsep in E. congruence.
    + apply (graph_no_two_cycle _ _ Hg).
Qed.

(** ** Loading: what the checks guarantee *)

Lemma bipartite_ok m m' s u s' :
  ensure_bipartite_separation ord m m' s = (Ok u, s') ->
  s' = s /\ forall k w, m !! k = Some w -> m' !! k = None.
Proof.
  unfold ensure_bipartite_separation. intros Hb. minv. split; [done|]. intros k w Hk.
  apply negb_true_iff in H1. destruct (m' !! k) eqn:E; [|done]. exfalso.
  apply not_true_iff_false in H1. apply H1, existsb_exists. exists (k, w).
  rewrite <- list_elem_of_In, elem_of_btree_iter, bool_decide_eq_true. simpl. rewrite E. eauto.
Qed.

(** The relations read for a pivot that is to have the children [l]. *)
Definition loaded pv l n s : PCRelations :=
  mkPCRelations pv (edges_map_without pv l) (edges_map_without pv (parent_keys s pv n)).

Lemma load_pending_ok pv l n s rel s' :
  load_relations_from_pending ord pv l n s = (Ok rel, s') ->
  s' = s /\ rel = loaded pv l n s /\ rel_ok rel /\ total_proportions (children rel) <= u64_max.
Proof.
  unfold load_relations_from_pending, link_children, link_parents, ensure_no_self_loop,
    ensure_total_proportions. intros Hl. minv. simpl in *.
  repeat match goal with
    Hb : ensure_bipartite_separation _ _ _ _ = _ |- _ => apply bipartite_ok in Hb as [-> ?] end.
  bool_to_prop. split_and!; [done..|]. done.
Qed.

Lemma load_relations_pending pv n s :
  load_child_parent_relations ord pv n s = load_relations_from_pending ord pv (child_keys s pv n) n s.
Proof. done. Qed.

Lemma loaded_parents pv l n s k : graph_ok s n ->
  parents (loaded pv l n s) !! k = edge s n k pv.
Proof.
  intros Hg. simpl. rewrite edges_map_without_lookup, edges_map_lookup, (graph_sym _ _ Hg)
    by apply (graph_parents_NoDup _ _ Hg).
  case_decide; [subst; symmetry; apply (graph_no_loop _ _ Hg)|done].
Qed.

Lemma loaded_children pv n s k : graph_ok s n ->
  children (loaded pv (child_keys s pv n) n s) !! k = edge s n pv k.
Proof.
  intros Hg. simpl. rewrite edges_map_without_lookup, edges_map_lookup
    by apply (graph_children_NoDup _ _ Hg).
  case_decide; [subst; symmetry; apply (graph_no_loop _ _ Hg)|done].
Qed.

(** Either the request is dropped, or the pivot's children are replaced. *)
Lemma persist_pending_cases n pv l s :
  let s' := persist_pending_chidren_ok ord n pv l s in
  s' = s \/
  (rel_ok (loaded pv l n s) /\ total_proportions (children (loaded pv l n s)) <= u64_max /\
   ensure_fan_in ord (loaded pv l n s) n s = (Ok tt, s) /\
   s' = deposit_event (SetChildrenEvent pv n l) (persist_result (loaded pv l n s) n s)).
Proof.
  unfold persist_pending_chidren_ok.
  destruct (load_relations_from_pending ord pv l n s) as [[rel|e] s1] eqn:E; simpl.
  - apply load_pending_ok in E as (-> & -> & Hrel & Ht). rewrite persist_run.
    destruct (ensure_fan_in ord _ n s) as [[[]|e] s2] eqn:E; [right|by left].
    apply ensure_fan_in_pure in E as Hs. subst s2. done.
  - left. unfold load_relations_from_pending, link_children, link_parents, ensure_no_self_loop,
      ensure_total_proportions, ensure_bipartite_separation in E.
    revert E. unfold mbind, M_bind, ensure, gets, mret, M_ret.
    repeat case_match; intros; simplify_eq; done.
Qed.

(** ** Sums of proportions *)

Definition proportions l : Z := foldr Z.add 0 l.*1.

Lemma proportions_app l l' : proportions (l ++ l') = proportions l + proportions l'.
Proof. unfold proportions. rewrite fmap_app. induction l.*1; simpl; lia. Qed.

Lemma proportions_remove l id : NoDup l.*2 ->
  proportions (remove_edge l id) = proportions l - default 0 (edge_weight l id).
Proof.
  unfold remove_edge. induction l as [|[w who] l IH]; [done|]. csimpl.
  intros [Hnin Hnd]%list.NoDup_cons. rewrite filter_cons. simpl.
  destruct (decide (who = id)) as [->|]; simpl.
  - rewrite decide_False by (intros Hf; by apply Hf). unfold proportions in *. csimpl.
    rewrite IH by done. rewrite (proj2 (edge_weight_None l id)) by done. simpl. lia.
  - rewrite decide_True by done. unfold proportions in *. csimpl. rewrite IH by done. lia.
Qed.

Lemma proportions_upsert l w id :
  proportions (upsert_edge l w id) = proportions l - default 0 (edge_weight l id) + w.
Proof.
  induction l as [|[w' who] l IH]; [unfold proportions; simpl; lia|]. simpl.
  case_decide; unfold proportions in *; csimpl; [lia|]. rewrite IH. lia.
Qed.

Lemma btree_iter_perm m : btree_iter ord m ≡ₚ map_to_list m.
Proof.
  apply NoDup_Permutation; [|apply NoDup_map_to_list|].
  - apply (NoDup_fmap_1 fst). rewrite btree_iter_keys. apply NoDup_sorted.
  - intros [k w]. by rewrite elem_of_btree_iter, elem_of_map_to_list.
Qed.

Lemma map_edges_proportions m : proportions (map_edges ord m) = map_sum (fun _ w => w) m.
Proof.
  unfold proportions, map_edges, map_sum. rewrite map_fold_foldr.
  etrans; [|apply (foldr_permutation_proper eq), (btree_iter_perm m)].
  - induction (btree_iter ord m) as [|[k w] x IH]; csimpl; [done|]. by rewrite IH.
  - by intros [] ? ? ->.
  - intros [] [] ?. simpl. lia.
Qed.

Lemma total_proportions_sum m : (forall k w, m !! k = Some w -> 0 <= w) ->
  total_proportions m = Z.min u128_max (map_sum (fun _ w => w) m).
Proof.
  induction m as [|k w m Hk IH] using map_ind; intros Hpos; [done|].
  assert (Hpos' : forall k w, m !! k = Some w -> 0 <= w).
  { intros k' w' Hk'. apply (Hpos k'). rewrite lookup_insert_ne by congruence. done. }
  rewrite map_sum_insert by done. unfold total_proportions in *.
  assert (Hw : 0 <= w) by (eapply Hpos, lookup_insert_eq).
  rewrite (map_fold_insert eq); [rewrite IH by done|..| |done].
  - unfold saturating_add. pose proof (map_sum_nonneg _ _ Hpos'). lia.
  - intros j1 z1 a b. by intros ->.
  - intros j1 j2 z1 z2 y _ H1 H2. apply Hpos in H1, H2. unfold saturating_add. lia.
Qed.

Lemma edges_map_lookup_elem l k w : edges_map l !! k = Some w -> (w, k) ∈ l.
Proof.
  induction l as [|[w' who] l IH] using rev_ind; [done|].
  rewrite edges_map_app, lookup_insert, elem_of_app, list_elem_of_singleton. simpl.
  case_decide; [|auto]. intros [= <-]. subst. by right.
Qed.

Lemma edges_map_without_sub pv l : edges_map_without pv l ⊆ edges_map l.
Proof.
  apply map_subseteq_spec. intros k w. rewrite edges_map_without_lookup. by case_decide.
Qed.

(** At most five children, whose proportions are a share of the whole. *)
Definition list_ok l : Prop :=
  (length l <= 5)%nat /\ Forall (Z.le 0) l.*1 /\ proportions l <= u64_max.

Definition request_ok l : Prop :=
  (length l <= 5)%nat /\ Forall (Z.le 0) l.*1.

Lemma weight_nonneg l k w : Forall (Z.le 0) l.*1 -> edge_weight l k = Some w -> 0 <= w.
Proof.
  intros Hf Hw. rewrite Forall_forall in Hf. apply Hf, list_elem_of_fmap.
  exists (w, k). split; [done|]. by apply edge_weight_elem.
Qed.

Lemma request_map_nonneg pv l k w :
  Forall (Z.le 0) l.*1 -> edges_map_without pv l !! k = Some w -> 0 <= w.
Proof.
  intros Hf. rewrite edges_map_without_lookup. case_decide; [done|].
  intros Hw%edges_map_lookup_elem. rewrite Forall_forall in Hf.
  apply Hf, list_elem_of_fmap. by exists (w, k).
Qed.

Lemma map_edges_list_ok m :
  (size m <= 5)%nat -> (forall k w, m !! k = Some w -> 0 <= w) ->
  total_proportions m <= u64_max -> list_ok (map_edges ord m).
Proof.
  intros Hs Hpos Ht. split_and!.
  - by rewrite map_edges_length.
  - apply Forall_forall. intros w (e & -> & Hin)%list_elem_of_fmap.
    unfold map_edges in Hin. apply list_elem_of_fmap in Hin as ([k v] & -> & Hin).
    apply elem_of_btree_iter in Hin. by eapply Hpos.
  - rewrite map_edges_proportions. rewrite total_proportions_sum in Ht by done.
    unfold u64_max, u128_max in *. lia.
Qed.

Record live_inv s n : Prop := {
  live_graph : graph_ok s n;
  live_children p : list_ok (child_keys s p n);
  live_parents c : (length (parent_keys s c n) <= MAX_PARENTS_PER_CHILD)%nat;
}.

(** The invariant of one subnet. *)
Record subnet_inv s n : Prop := {
  subnet_live : live_inv s n;
  subnet_pending k l b : PendingChildKeys s !! (n, k) = Some (l, b) -> request_ok l;
}.

Definition relations_inv s : Prop := forall n, subnet_inv s n.

Lemma live_inv_ext s s' n :
  (forall k, child_keys s' k n = child_keys s k n) ->
  (forall k, parent_keys s' k n = parent_keys s k n) -> live_inv s n -> live_inv s' n.
Proof.
  intros HC HP [[] Hc Hp]. split; [split|..]; unfold edge in *; intros *;
    rewrite ?HC, ?HP; eauto.
Qed.

Lemma relations_inv_ext s s' :
  ChildKeys s' = ChildKeys s -> ParentKeys s' = ParentKeys s ->
  PendingChildKeys s' = PendingChildKeys s -> relations_inv s -> relations_inv s'.
Proof.
  intros HC HP Hp Hi n. destruct (Hi n) as [Hl Hr]. split.
  - eapply live_inv_ext; [..|exact Hl]; intros k; unfold child_keys, parent_keys; congruence.
  - intros k l b. rewrite Hp. apply Hr.
Qed.

(** The fan-in check. *)
Lemma fan_in_ok rel n s u s' : ensure_fan_in ord rel n s = (Ok u, s') ->
  ((size (parents rel) <= MAX_PARENTS_PER_CHILD)%nat \/
   (size (parents rel) <= length (parent_keys s (pivot rel) n))%nat) /\
  forall c w, children rel !! c = Some w ->
    pivot rel ∈ (parent_keys s c n).*2 \/ (length (parent_keys s c n) < MAX_PARENTS_PER_CHILD)%nat.
Proof.
  unfold ensure_fan_in. intros Hf. minv.
  rename select ((_ || _)%bool = true) into Hs. split.
  - apply orb_true_iff in Hs as [Hs|Hs]; bool_to_prop; auto.
  - intros c w Hc. eapply for_each_pure in Hf as [_ Hf].
    + specialize (Hf eq_refl (c, w)). rewrite elem_of_btree_iter in Hf. specialize (Hf Hc).
      unfold ensure, gets, mbind, M_bind in Hf. simpl in Hf. case_match eqn:E; [|done].
      apply orb_true_iff in E as [E|E]; [left; by apply has_edge_spec|right; by bool_to_prop].
    + intros x s1 r1 s2. unfold ensure, gets, mbind, M_bind. case_match; by intros [= _ <-].
Qed.

Lemma relink_parents_length rel n s c :
  live_inv s n -> ensure_fan_in ord rel n s = (Ok tt, s) ->
  (length (relink (children rel) (ids_of (child_keys s (pivot rel) n)) (pivot rel) c
            (parent_keys s c n)) <= MAX_PARENTS_PER_CHILD)%nat.
Proof.
  intros Hl [_ Hf]%fan_in_ok. pose proof (live_parents _ _ Hl c). unfold relink.
  destruct (children rel !! c) as [w|] eqn:Hc.
  - rewrite upsert_edge_length. specialize (Hf c w Hc). case_decide; lia || naive_solver lia.
  - case_decide; [|done]. pose proof (remove_edge_length (parent_keys s c n) (pivot rel)). lia.
Qed.

(** The update keeps the invariant when the pivot's new list and the lists of
    its new parents are within their limits. *)
Lemma persist_live_inv rel n s :
  live_inv s n -> rel_ok rel -> ensure_fan_in ord rel n s = (Ok tt, s) ->
  list_ok (map_edges ord (children rel)) ->
  (forall p, p <> pivot rel ->
     list_ok (relink (parents rel) (ids_of (parent_keys s (pivot rel) n)) (pivot rel) p
                (child_keys s p n))) ->
  live_inv (persist_result rel n s) n.
Proof.
  intros Hl Hrel Hf Hc Hp. pose proof (graph_loop_free _ _ _ (live_graph _ _ Hl) Hrel) as Hfree.
  split.
  - apply persist_graph_ok; [apply Hl|done].
  - intros p. rewrite persist_child_keys, decide_True by done. case_decide; [done|auto].
  - intros c. rewrite persist_parent_keys, decide_True by done. case_decide.
    + rewrite map_edges_length. apply fan_in_ok in Hf as [[Hf|Hf] _]; [done|].
      pose proof (live_parents _ _ Hl (pivot rel)). lia.
    + by apply relink_parents_length.
Qed.

Lemma persist_other_live_inv rel n n' s :
  n' <> n -> loop_free rel n s -> live_inv s n' -> live_inv (persist_result rel n s) n'.
Proof.
  intros Hne Hf. apply live_inv_ext; intros k.
  - by rewrite persist_child_keys, decide_False.
  - by rewrite persist_parent_keys, decide_False.
Qed.
End safety.
