(* ===== verification/ChildKeysSafety.v ===== *)
(** * ChildKeysSafety: the operations on parent-child relations are correct

    The theorems on ChildKeys.v and auto_parent.rs, from the lemmas of
    ChildKeysGraph.v: the invariant [relations_inv] holds along every history of
    operations, and what each operation does to the graph, to the pending
    requests, to the suspension flags and to the take. *)

From Stdlib Require Import ZArith Lia.
From stdpp Require Import base gmap list fin_maps.
From S2P Require Import Prelude ChildKeys ChildKeysGraph.

Section safety.
Context {AccountId : Type} `{Countable AccountId} (ord : Order (AccountId := AccountId)).
Context `{!OrderLaws ord}.
Abbreviation Edges := (list (Z * AccountId)).
Abbreviation State := (State (AccountId := AccountId)).
Abbreviation PCRelations := (PCRelations (AccountId := AccountId)).
Implicit Types (s : State) (n : NetUid) (p c k pv : AccountId) (l : Edges) (m : gmap AccountId Z).

(** ** Every operation keeps the invariant *)

Lemma upsert_edge_same l w id : edge_weight l id = Some w -> upsert_edge l w id = l.
Proof.
  induction l as [|[w' who] l IH]; simpl; [done|]. case_decide; [by intros [= ->]|].
  intros Hw. by rewrite IH.
Qed.

(** Keeping the pivot's parents leaves the parents' lists as they are. *)
Lemma relink_loaded pv l n s p : graph_ok s n -> p <> pv ->
  relink (parents (loaded pv l n s)) (ids_of (parent_keys s pv n)) pv p (child_keys s p n) =
  child_keys s p n.
Proof.
  intros Hg Hne. unfold relink. rewrite loaded_parents by done.
  destruct (edge s n p pv) as [w|] eqn:E; [by apply upsert_edge_same|].
  rewrite decide_False; [done|]. rewrite elem_of_ids_of, <- edge_weight_None.
  by rewrite (graph_sym _ _ Hg).
Qed.

Lemma edges_map_size l : (size (edges_map l) <= length l)%nat.
Proof.
  induction l as [|e l IH] using rev_ind; [done|]. rewrite edges_map_app, length_app. simpl.
  rewrite map_size_insert. case_match; simpl; lia.
Qed.

Lemma loaded_list_ok pv l n s :
  request_ok l -> total_proportions (children (loaded pv l n s)) <= u64_max ->
  list_ok (map_edges ord (children (loaded pv l n s))).
Proof.
  intros [Hs Hf] Ht. apply (map_edges_list_ok ord); [|intros k w; by apply request_map_nonneg|done].
  pose proof (edges_map_size l). etrans; [apply map_subseteq_size, edges_map_without_sub|lia].
Qed.

Lemma rest_pending s s' : rest s' = rest s -> PendingChildKeys s' = PendingChildKeys s.
Proof. unfold rest. congruence. Qed.

Lemma persist_pending_inv n pv l s :
  relations_inv s -> request_ok l -> relations_inv (persist_pending_chidren_ok ord n pv l s).
Proof.
  intros Hi Hreq. destruct (persist_pending_cases ord n pv l s) as [->|(Hrel & Ht & Hf & ->)]; [done|].
  eapply (relations_inv_ext (persist_result ord _ n s)); [done..|]. intros n'.
  pose proof (graph_loop_free _ _ _ (live_graph _ _ (subnet_live _ _ (Hi n))) Hrel) as Hfree.
  destruct (Hi n') as [Hl Hp]. split.
  - destruct (decide (n' = n)) as [->|Hne]; [|by apply (persist_other_live_inv ord)].
    apply (persist_live_inv ord); [done..|by apply loaded_list_ok|].
    intros p Hp'. rewrite relink_loaded; [apply Hl|apply Hl|done].
  - intros k l' b. rewrite (rest_pending _ _ (persist_rest ord _ _ _)). apply Hp.
Qed.

Lemma with_pending_inv f s :
  relations_inv s ->
  (forall n k l b, f (PendingChildKeys s) !! (n, k) = Some (l, b) -> request_ok l) ->
  relations_inv (with_pending f s).
Proof.
  intros Hi Hf n. split; [|apply Hf]. apply (live_inv_ext s); [done..|apply Hi].
Qed.

Lemma with_pending_delete_inv key s : relations_inv s -> relations_inv (with_pending (delete key) s).
Proof.
  intros Hi. apply with_pending_inv; [done|]. intros n k l b [_ Hk]%lookup_delete_Some.
  eapply Hi, Hk.
Qed.

Lemma with_pending_insert_inv key l b s : relations_inv s -> request_ok l ->
  relations_inv (with_pending <[key := (l, b)]> s).
Proof.
  intros Hi Hr. apply with_pending_inv; [done|]. intros n k l' b'.
  rewrite lookup_insert. case_decide; [by intros [= -> ->]|apply Hi].
Qed.

Lemma with_suspended_inv f s : relations_inv s -> relations_inv (with_suspended f s).
Proof. by apply relations_inv_ext. Qed.
Lemma with_checks_inv f s : relations_inv s -> relations_inv (with_checks f s).
Proof. by apply relations_inv_ext. Qed.
Lemma with_take_inv key t s : relations_inv s -> relations_inv (with_take key t s).
Proof. by apply relations_inv_ext. Qed.
Lemma deposit_event_inv e s : relations_inv s -> relations_inv (deposit_event e s).
Proof. by apply relations_inv_ext. Qed.
Lemma set_last_block_inv t k n b s :
  relations_inv s -> relations_inv (set_last_block_on_subnet t k n b s).
Proof. by apply relations_inv_ext. Qed.
#[local] Hint Resolve with_suspended_inv with_checks_inv with_take_inv deposit_event_inv
  set_last_block_inv with_pending_delete_inv with_pending_insert_inv persist_pending_inv : childkeys.

Lemma request_ok_nil : request_ok ([] : Edges).
Proof. split; simpl; [lia|constructor]. Qed.

Lemma request_ok_full k : request_ok [(u64_max, k)].
Proof. split; simpl; [lia|]. repeat constructor. done. Qed.
#[local] Hint Resolve request_ok_nil request_ok_full : childkeys.

Lemma pending_request_ok n s h l b : relations_inv s -> (h, (l, b)) ∈ pending_of ord n s -> request_ok l.
Proof.
  intros Hi. unfold pending_of. rewrite list_elem_of_fmap.
  intros ([[n' h'] v] & Heq & [Hn Hin]%list_elem_of_filter). simplify_eq/=.
  rewrite (iter_pending_perm ord), elem_of_map_to_list in Hin. eapply Hi, Hin.
Qed.

Section env_ops.
Context (env : Env (AccountId := AccountId)).

Lemma apply_auto_parent_inv p n c s :
  relations_inv s -> relations_inv (apply_auto_parent_to_owner ord env p n c s).
Proof. intros Hi. unfold apply_auto_parent_to_owner. repeat case_match; auto with childkeys. Qed.

Lemma clear_auto_parent_inv p s :
  relations_inv s -> relations_inv (clear_auto_parent_for_root_validator ord env p s).
Proof.
  apply foldl_inv. intros s' n _ Hi. repeat case_match; auto with childkeys.
Qed.

Lemma retarget_auto_parent_inv n p c s :
  relations_inv s -> relations_inv (retarget_auto_parent_on_owner_change ord env n p c s).
Proof.
  unfold retarget_auto_parent_on_owner_change. case_match; [done|].
  apply foldl_inv. intros s' k _ Hi. repeat case_match; auto with childkeys.
Qed.

Lemma set_subnet_owners_inv p s :
  relations_inv s -> relations_inv (do_set_subnet_owners_for_root_validator ord env p s).
Proof.
  unfold do_set_subnet_owners_for_root_validator. case_match; [done|].
  apply foldl_inv. intros s' n _ Hi. case_match; [by apply apply_auto_parent_inv|done].
Qed.

Lemma set_root_validators_inv n s r s' :
  do_set_root_validators_for_subnet ord env n s = (r, s') -> relations_inv s -> relations_inv s'.
Proof.
  unfold do_set_root_validators_for_subnet, ensure, ok_or, mbind, M_bind.
  repeat case_match; intros; simplify_eq; try done.
  rename select (for_each _ _ _ = _) into Hf. rewrite for_each_modify in Hf. injection Hf as <- <-.
  apply foldl_inv; [|done]. intros s' k _ Hi. by apply apply_auto_parent_inv.
Qed.

Lemma apply_pending_inv n p l s :
  relations_inv s -> request_ok l -> relations_inv (apply_pending ord env n p l s).
Proof. intros Hi Hl. unfold apply_pending. repeat case_match; auto with childkeys. Qed.

Lemma set_pending_inv n s : relations_inv s -> relations_inv (do_set_pending_children ord env n s).
Proof.
  intros Hi. unfold do_set_pending_children. apply foldl_inv.
  { intros s' [h [l b]] _ Hi'. auto with childkeys. }
  apply foldl_inv; [|done]. intros s' [h [l b]] Hin Hi'.
  apply apply_pending_inv; [done|]. apply list_elem_of_filter in Hin as [_ Hin].
  exact (pending_request_ok n s h l b Hi Hin).
Qed.

Lemma pending_consistency_ok rel l s u s' :
  ensure_pending_consistency ord rel l s = (Ok u, s') -> s' = s /\ (size (edges_map l) <= 5)%nat.
Proof.
  unfold ensure_pending_consistency, ensure_no_self_loop, ensure_childkey_count,
    ensure_total_proportions, ensure_bipartite_separation. intros He. minv. by bool_to_prop.
Qed.

Lemma no_duplicates_spec seen l : no_duplicates seen l = true ->
  NoDup l.*2 /\ forall k, k ∈ l.*2 -> k ∉ seen.
Proof.
  revert seen. induction l as [|[w k] l IH]; intros seen; csimpl.
  { intros _. split; [constructor|]. by intros k ?%not_elem_of_nil. }
  case_bool_decide as Hk; [done|]. intros [Hnd Hseen]%IH.
  setoid_rewrite not_elem_of_app in Hseen. split.
  - apply list.NoDup_cons. split; [|done]. intros Hin. apply (Hseen k Hin). by left.
  - intros k' [->|Hin]%elem_of_cons; [done|]. by apply Hseen.
Qed.

Lemma edges_map_size_NoDup l : NoDup l.*2 -> size (edges_map l) = length l.
Proof.
  induction l as [|e l IH] using rev_ind; [done|]. rewrite fmap_app. intros Hnd.
  apply NoDup_app in Hnd as (Hnd & Hdis & _). rewrite edges_map_app, length_app, map_size_insert.
  rewrite edges_map_lookup by done. rewrite (proj2 (edge_weight_None l e.2)).
  - rewrite IH by done. simpl. lia.
  - intros Hin. eapply Hdis; [exact Hin|by left].
Qed.

Lemma schedule_inv origin h n l s r s' :
  do_schedule_children ord env origin h n l s = (r, s') ->
  Forall (Z.le 0) l.*1 -> relations_inv s -> relations_inv s'.
Proof.
  intros Hd Hl Hi. destruct r as [[]|e]; [|by apply transactional_err in Hd as ->].
  unfold do_schedule_children in Hd. minv.
  rename select (load_child_parent_relations _ _ _ _ = _) into Hload.
  rewrite load_relations_pending in Hload. apply (load_pending_ok ord) in Hload as [-> _].
  rename select (ensure_pending_consistency _ _ _ _ = _) into Hc.
  apply pending_consistency_ok in Hc as [-> Hsz].
  rename select (no_duplicates [] l = true) into Hd'.
  apply no_duplicates_spec in Hd' as [Hnd _]. rewrite edges_map_size_NoDup in Hsz by done.
  assert (Hreq : request_ok l) by done.
  unfold schedule_or_apply_ck in Hd. case_match; minv; auto 10 with childkeys.
Qed.

Lemma recheck_inv k s : relations_inv s -> relations_inv (recheck_childkey_threshold env k s).
Proof. intros Hi. unfold recheck_childkey_threshold. case_match; auto with childkeys. Qed.

Lemma check_loop_inv limit per ks used done s :
  relations_inv s -> relations_inv (check_loop env limit per ks used done s).2.
Proof.
  revert used done s. induction ks as [|k ks IH]; intros used done s Hi; [exact Hi|].
  simpl. case_match; [exact Hi|]. by apply IH, recheck_inv.
Qed.

Lemma process_checks_inv limit s :
  relations_inv s -> relations_inv (process_childkey_threshold_checks ord env limit s).2.
Proof.
  intros Hi. unfold process_childkey_threshold_checks. case_match; [done|].
  destruct (iter_checks ord (ChildkeyThresholdChecks s)) as [|k ks]; [done|].
  pose proof (check_loop_inv limit (childkey_threshold_check_weight env) (k :: ks) (reads env 2) [] s Hi).
  destruct (check_loop _ _ _ _ _ _ _) as [[used done] s']. simpl in *.
  apply foldl_inv; [|done]. intros s1 k1 _ Hi1. auto with childkeys.
Qed.

Lemma set_take_inv ck h n t s r s' :
  do_set_childkey_take env ck h n t s = (r, s') -> relations_inv s -> relations_inv s'.
Proof.
  unfold do_set_childkey_take, ensure, gets, modify, mret, M_ret, mbind, M_bind.
  repeat case_match; intros; simplify_eq; auto 10 with childkeys.
Qed.
End env_ops.

Lemma queue_check_inv k s : relations_inv s -> relations_inv (queue_childkey_threshold_check ord k s).
Proof. intros Hi. unfold queue_childkey_threshold_check. case_match; auto with childkeys. Qed.

(** ** Moving the relations of a hotkey *)

Section swap.
Context (old new : AccountId) (n : NetUid).

(** Inserting the lists of several parents, as the clean-up does. *)
Definition insert_children (f : Edges -> Edges) (ks : list AccountId) s : State :=
  foldl (fun s k => with_child_keys <[(k, n) := f (child_keys s k n)]> s) s ks.

Lemma insert_children_rows f ks s k n' : NoDup ks ->
  ChildKeys (insert_children f ks s) !! (k, n') =
  if decide (n' = n /\ k ∈ ks) then Some (f (child_keys s k n)) else ChildKeys s !! (k, n').
Proof.
  unfold insert_children. revert s. induction ks as [|k0 ks IH]; intros s Hnd; simpl.
  { rewrite decide_False; [done|]. by intros [_ ?%not_elem_of_nil]. }
  apply list.NoDup_cons in Hnd as [Hnin Hnd]. rewrite IH by done.
  unfold child_keys. simpl. rewrite !lookup_insert.
  repeat case_decide; rewrite ?elem_of_cons in *; naive_solver.
Qed.

Lemma insert_children_frame f ks s :
  ParentKeys (insert_children f ks s) = ParentKeys s /\ rest (insert_children f ks s) = rest s.
Proof.
  unfold insert_children. revert s. induction ks as [|k ks IH]; intros s; [done|]. simpl.
  by destruct (IH (with_child_keys <[(k, n) := f (child_keys s k n)]> s)) as [-> ->].
Qed.

(** The clean-up of step 2. *)
Definition cleared s : State :=
  let rel := loaded old (child_keys s old n) n s in
  let s := update_parents n (fun _ l => remove_edge l old) (sorted ord (dom (children rel))) s in
  let s := insert_children (fun l => remove_edge l old) (sorted ord (dom (parents rel))) s in
  set_parentkeys old n [] (with_child_keys <[(old, n) := []]> s).

Lemma remove_edge_absent l k : k ∉ l.*2 -> remove_edge l k = l.
Proof.
  unfold remove_edge. induction l as [|[w who] l IH]; csimpl; [done|].
  intros [Hne Hin]%not_elem_of_cons. rewrite filter_cons_True by (simpl; congruence).
  by rewrite IH.
Qed.

Section cleared.
Context (s : State) (Hg : graph_ok s n).

Lemma cleared_rows k n' :
  ChildKeys (cleared s) !! (k, n') =
  if decide (n' = n /\ k = old) then Some []
  else if decide (n' = n /\ is_Some (edge s n k old)) then Some (remove_edge (child_keys s k n) old)
  else ChildKeys s !! (k, n').
Proof.
  unfold cleared. rewrite (proj1 (set_parentkeys_frame _ _ _ _)). simpl. rewrite lookup_insert.
  rewrite insert_children_rows by apply (NoDup_sorted ord). unfold child_keys.
  rewrite !(proj1 (update_parents_frame _ _ _ _)).
  assert (Hd : k ∈ sorted ord (dom (parents (loaded old (child_keys s old n) n s))) <->
               is_Some (edge s n k old)).
  { by rewrite (elem_of_sorted ord), elem_of_dom, loaded_parents. }
  repeat case_decide; naive_solver.
Qed.

Lemma cleared_child_keys k n' :
  child_keys (cleared s) k n' =
  if decide (n' = n) then if decide (k = old) then [] else remove_edge (child_keys s k n) old
  else child_keys s k n'.
Proof.
  unfold child_keys at 1. rewrite cleared_rows.
  destruct (decide (n' = n)) as [->|]; [|by rewrite !decide_False by tauto].
  destruct (decide (k = old)) as [->|]; [by rewrite decide_True by done|].
  rewrite (decide_False (P := _ /\ k = old)) by tauto. case_decide as Hs; [done|].
  fold (child_keys s k n). rewrite remove_edge_absent; [done|].
  apply edge_weight_None, eq_None_not_Some. tauto.
Qed.

Lemma cleared_parent_keys k n' :
  parent_keys (cleared s) k n' =
  if decide (n' = n) then if decide (k = old) then [] else remove_edge (parent_keys s k n) old
  else parent_keys s k n'.
Proof.
  unfold cleared, parent_keys at 1. rewrite ParentKeys_set. simpl.
  rewrite (proj1 (insert_children_frame _ _ _)), update_parents_rows by apply (NoDup_sorted ord).
  assert (Hd : k ∈ sorted ord (dom (children (loaded old (child_keys s old n) n s))) <->
               is_Some (edge s n old k)).
  { by rewrite (elem_of_sorted ord), elem_of_dom, loaded_children. }
  destruct (decide (n' = n)) as [->|]; [|by rewrite !decide_False by naive_solver].
  destruct (decide (k = old)) as [->|]; [by rewrite decide_True by done|].
  rewrite (decide_False (P := _ = (old, n))) by naive_solver.
  case_decide; [by rewrite default_row|]. fold (parent_keys s k n).
  rewrite remove_edge_absent; [done|].
  apply edge_weight_None. rewrite (graph_sym _ _ Hg). apply eq_None_not_Some. tauto.
Qed.

Lemma cleared_rest : rest (cleared s) = rest s.
Proof.
  unfold cleared. rewrite (proj2 (set_parentkeys_frame _ _ _ _)).
  transitivity (rest (insert_children (fun l => remove_edge l old)
    (sorted ord (dom (parents (loaded old (child_keys s old n) n s))))
    (update_parents n (fun _ l => remove_edge l old)
      (sorted ord (dom (children (loaded old (child_keys s old n) n s)))) s))); [done|].
  rewrite (proj2 (insert_children_frame _ _ _)). apply update_parents_frame.
Qed.

Lemma cleared_edge p c :
  edge (cleared s) n p c = if decide (p = old \/ c = old) then None else edge s n p c.
Proof.
  unfold edge. rewrite cleared_child_keys, decide_True by done.
  destruct (decide (p = old)) as [->|]; [by rewrite decide_True by auto|].
  rewrite remove_edge_weight. repeat case_decide; naive_solver.
Qed.

Lemma cleared_graph_ok : graph_ok (cleared s) n.
Proof.
  split.
  - intros p c. rewrite cleared_edge, cleared_parent_keys, (decide_True (P := n = n)) by done.
    destruct (decide (c = old)) as [->|]; [by rewrite decide_True by auto|].
    rewrite remove_edge_weight, (graph_sym _ _ Hg). repeat case_decide; naive_solver.
  - intros p. rewrite cleared_child_keys, decide_True by done. case_decide; [constructor|].
    apply remove_edge_NoDup, (graph_children_NoDup _ _ Hg).
  - intros c. rewrite cleared_parent_keys, decide_True by done. case_decide; [constructor|].
    apply remove_edge_NoDup, (graph_parents_NoDup _ _ Hg).
  - intros k. rewrite cleared_edge. case_decide; [done|apply (graph_no_loop _ _ Hg)].
  - intros p c w. rewrite !cleared_edge. repeat case_decide; try done.
    apply (graph_no_two_cycle _ _ Hg).
Qed.
End cleared.

Definition moved s : PCRelations :=
  let rel := loaded old (child_keys s old n) n s in
  mkPCRelations new (children rel) (parents rel).

Definition move_pending s : State :=
  match PendingChildKeys s !! (n, old) with
  | Some entry => with_pending (fun rows => <[(n, new) := entry]> (delete (n, old) rows)) s
  | None => s
  end.

(** A successful swap cleans up after the old hotkey, moves its request and
    writes its relations around the new one. *)
Lemma swap_ok s s' :
  parent_child_swap_hotkey ord old new n s = (Ok tt, s') ->
  let s1 := move_pending (cleared s) in
  rel_ok (moved s) /\ total_proportions (children (moved s)) <= u64_max /\
  ensure_fan_in ord (moved s) n s1 = (Ok tt, s1) /\ s' = persist_result ord (moved s) n s1.
Proof.
  unfold parent_child_swap_hotkey. intros Hs. minv_step. minv_step.
  rename select (load_child_parent_relations _ _ _ _ = _) into Hload.
  rewrite load_relations_pending in Hload.
  apply (load_pending_ok ord) in Hload as (-> & -> & (Hc & Hp & Hsep) & Ht).
  minv_step. rename select (for_each _ _ _ = _) into H2a.
  unfold remove_parent in H2a. rewrite for_each_modify in H2a. injection H2a as _ <-.
  minv_step. rename select (for_each _ _ _ = _) into H2b.
  rewrite for_each_modify in H2b. injection H2b as _ <-. cbv beta in Hs.
  rewrite <- (foldl_fmap (fun s k => set_parentkeys k n (remove_edge (parent_keys s k n) old) s) fst) in Hs.
  rewrite <- (foldl_fmap (fun s k => with_child_keys <[(k, n) := remove_edge (child_keys s k n) old]> s) fst)
    in Hs.
  rewrite !(btree_iter_keys ord) in Hs. unfold rebind_pivot, ensure_no_self_loop in Hs.
  rewrite !bind_modify in Hs. minv. bool_to_prop. change (set_parentkeys _ _ _ _) with (cleared s) in *.
  assert (x6 = move_pending (cleared s)) as ->.
  { unfold move_pending. destruct (PendingChildKeys (cleared s) !! (n, old)) as [[l b]|].
    - minv. by rename select (ensure_pending_consistency _ _ _ _ = _) into He;
        apply pending_consistency_ok in He as [-> _].
    - by minv. }
  by apply (persist_ok ord) in Hs as [? ->].
Qed.

Lemma move_pending_links s :
  ChildKeys (move_pending s) = ChildKeys s /\ ParentKeys (move_pending s) = ParentKeys s.
Proof. unfold move_pending. by case_match. Qed.

Lemma move_pending_child_keys s k n' : child_keys (move_pending s) k n' = child_keys s k n'.
Proof. unfold child_keys. by rewrite (proj1 (move_pending_links s)). Qed.

Lemma move_pending_parent_keys s k n' : parent_keys (move_pending s) k n' = parent_keys s k n'.
Proof. unfold parent_keys. by rewrite (proj2 (move_pending_links s)). Qed.

Lemma move_pending_graph_ok s : graph_ok s n -> graph_ok (move_pending s) n.
Proof.
  intros []. split; unfold edge in *; intros *;
    rewrite ?move_pending_child_keys, ?move_pending_parent_keys; eauto.
Qed.

Lemma move_pending_inv s : relations_inv s -> relations_inv (move_pending s).
Proof.
  intros Hi. unfold move_pending. case_match eqn:E; [|done].
  apply with_pending_inv; [done|]. intros n' k l b. rewrite lookup_insert.
  case_decide; [intros [= ->]; by eapply Hi|]. intros [_ Hk]%lookup_delete_Some. by eapply Hi.
Qed.

Lemma moved_children s c : graph_ok s n -> children (moved s) !! c = edge s n old c.
Proof. exact (loaded_children old n s c). Qed.

Lemma moved_parents s p : graph_ok s n -> parents (moved s) !! p = edge s n p old.
Proof. exact (loaded_parents old (child_keys s old n) n s p). Qed.

(** The graph after a swap. *)
Definition renamed (G : AccountId -> AccountId -> option Z) p c : option Z :=
  if decide (p = new) then G old c
  else if decide (c = new) then G p old
  else if decide (p = old \/ c = old) then None
  else G p c.

Lemma swap_effect s s' : graph_ok s n ->
  parent_child_swap_hotkey ord old new n s = (Ok tt, s') ->
  forall p c, edge s' n p c = renamed (edge s n) p c.
Proof.
  intros Hg (Hrel & _ & _ & ->)%swap_ok p c.
  pose proof (move_pending_graph_ok _ (cleared_graph_ok s Hg)) as Hg1.
  rewrite (proj1 (persist_effect ord _ _ _ Hg1 Hrel p c)). unfold replaced, renamed.
  rewrite moved_children, moved_parents by done. change (pivot (moved s)) with new.
  repeat case_decide; try done; unfold edge at 1; rewrite move_pending_child_keys.
  - fold (edge (cleared s) n p c). rewrite cleared_edge by done. by rewrite decide_True.
  - fold (edge (cleared s) n p c). rewrite cleared_edge by done. by rewrite decide_False.
Qed.

Lemma list_ok_sub l l' : list_ok l -> (length l' <= length l)%nat ->
  Forall (Z.le 0) l'.*1 -> proportions l' <= proportions l -> list_ok l'.
Proof. intros (? & ? & ?) ? ? ?. split_and!; [lia|done|lia]. Qed.

Lemma nonneg_remove l k : Forall (Z.le 0) l.*1 -> Forall (Z.le 0) (remove_edge l k).*1.
Proof.
  rewrite !Forall_forall. intros Hf w (e & -> & Hin)%list_elem_of_fmap. apply Hf.
  apply list_elem_of_filter in Hin as [_ Hin]. apply list_elem_of_fmap. by exists e.
Qed.

Lemma nonneg_upsert l k w : 0 <= w -> Forall (Z.le 0) l.*1 -> Forall (Z.le 0) (upsert_edge l w k).*1.
Proof.
  intros Hw. induction l as [|[w' who] l IH]; csimpl; [by repeat constructor|].
  intros [? ?]%list.Forall_cons. case_decide; csimpl; constructor; auto.
Qed.

Lemma default_weight_nonneg l k : Forall (Z.le 0) l.*1 -> 0 <= default 0 (edge_weight l k).
Proof. intros Hf. destruct (edge_weight l k) eqn:E; [by eapply weight_nonneg|done]. Qed.

Lemma list_ok_remove l k : NoDup l.*2 -> list_ok l -> list_ok (remove_edge l k).
Proof.
  intros Hnd Hl. destruct Hl as (Hn & Hf & Hp) eqn:E. clear E. apply (list_ok_sub l); [done|..].
  - apply remove_edge_length.
  - by apply nonneg_remove.
  - rewrite proportions_remove by done. pose proof (default_weight_nonneg l k Hf). lia.
Qed.

Lemma remove_edge_shorter l k w : edge_weight l k = Some w ->
  (Datatypes.S (length (remove_edge l k)) <= length l)%nat.
Proof.
  induction l as [|[w' who] l IH]; simpl; [done|]. unfold remove_edge in *. rewrite filter_cons.
  case_decide as Hk; subst; simpl.
  - intros _. rewrite decide_False by (intros Hf; by apply Hf). simpl.
    pose proof (remove_edge_length l k). unfold remove_edge in *. lia.
  - intros Hw. specialize (IH Hw). rewrite decide_True by done. simpl. lia.
Qed.

(** Replacing one child by another keeps the limits. *)
Lemma list_ok_replace l w : NoDup l.*2 -> list_ok l -> edge_weight l old = Some w ->
  list_ok (upsert_edge (remove_edge l old) w new).
Proof.
  intros Hnd Hl Hw. assert (Hf := proj1 (proj2 Hl)). apply (list_ok_sub l); [done|..].
  - rewrite upsert_edge_length. pose proof (remove_edge_shorter _ _ _ Hw). case_decide; lia.
  - apply nonneg_upsert; [by eapply weight_nonneg|by apply nonneg_remove].
  - rewrite proportions_upsert, proportions_remove by done. rewrite Hw. simpl.
    pose proof (default_weight_nonneg _ new (nonneg_remove l old Hf)). lia.
Qed.

Lemma list_ok_nil : list_ok ([] : Edges).
Proof. split_and!; simpl; [lia|constructor|done]. Qed.

Lemma cleared_list_ok s p : live_inv s n -> list_ok (child_keys (cleared s) p n).
Proof.
  intros Hl. rewrite cleared_child_keys by apply Hl. rewrite decide_True by done.
  case_decide; [apply list_ok_nil|]. apply list_ok_remove; [apply Hl|apply Hl].
Qed.

Lemma cleared_inv s : relations_inv s -> relations_inv (cleared s).
Proof.
  intros Hi n'. destruct (Hi n') as [Hl Hp]. pose proof (live_graph _ _ (subnet_live _ _ (Hi n))) as Hg.
  split.
  - destruct (decide (n' = n)) as [->|Hne].
    + split; [by apply cleared_graph_ok|intros p; by apply cleared_list_ok|].
      intros c. rewrite cleared_parent_keys, decide_True by done. case_decide; [simpl; lia|].
      pose proof (remove_edge_length (parent_keys s c n) old). pose proof (live_parents _ _ Hl c). lia.
    + eapply live_inv_ext; [..|exact Hl]; intros k.
      * by rewrite cleared_child_keys, decide_False.
      * by rewrite cleared_parent_keys, decide_False.
  - intros k l b. rewrite (rest_pending _ _ (cleared_rest s)). apply Hp.
Qed.

(** The lists of the parents of the new hotkey stay within their limits. *)
Lemma moved_parents_ok s p : live_inv s n ->
  list_ok (relink (parents (moved s)) (ids_of (parent_keys (move_pending (cleared s)) new n)) new p
             (child_keys (move_pending (cleared s)) p n)).
Proof.
  intros Hl. pose proof (live_graph _ _ Hl) as Hg. rewrite move_pending_child_keys.
  unfold relink. rewrite moved_parents by done.
  destruct (edge s n p old) as [w|] eqn:E.
  - rewrite cleared_child_keys, decide_True by done.
    rewrite decide_False by (intros ->; by rewrite (graph_no_loop _ _ Hg) in E).
    apply list_ok_replace; [apply Hg|apply Hl|done].
  - case_decide; [|by apply cleared_list_ok].
    apply list_ok_remove; [apply (cleared_graph_ok s Hg)|by apply cleared_list_ok].
Qed.

Lemma swap_inv s r s' :
  parent_child_swap_hotkey ord old new n s = (r, s') -> relations_inv s -> relations_inv s'.
Proof.
  intros Hs Hi. destruct r as [[]|e]; [|by apply transactional_err in Hs as ->].
  apply swap_ok in Hs as (Hrel & Ht & Hf & ->).
  pose proof (move_pending_inv _ (cleared_inv _ Hi)) as Hi1.
  pose proof (subnet_live _ _ (Hi n)) as Hl. intros n'. destruct (Hi1 n') as [Hl1 Hp1]. split.
  - destruct (decide (n' = n)) as [->|Hne].
    + apply (persist_live_inv ord); [done..| |intros p _; by apply moved_parents_ok].
      apply (loaded_list_ok old _ n s); [|done]. split; apply (live_children _ _ Hl).
    + apply (persist_other_live_inv ord); [done| |done].
      apply graph_loop_free; [apply (subnet_live _ _ (Hi1 n))|done].
  - intros k l b. rewrite (rest_pending _ _ (persist_rest ord _ _ _)). apply Hp1.
Qed.
End swap.

(** ** Renaming a child in pending requests *)

Lemma rename_child_ok old new l l' : rename_child old new l = Some l' -> request_ok l -> request_ok l'.
Proof.
  unfold rename_child. destruct (list_find _ l) as [[i e]|] eqn:E; [|done]. intros [= <-] [Hn Hf].
  apply list_find_Some in E as (Hi & _). split.
  - rewrite length_app, length_delete by eauto. simpl. apply lookup_lt_Some in Hi. lia.
  - rewrite fmap_app. apply Forall_app. rewrite Forall_fmap in Hf. split.
    + apply Forall_fmap. by apply Forall_delete.
    + constructor; [|constructor]. exact (Forall_lookup_1 _ _ _ _ Hf Hi).
Qed.

Lemma swap_pending_inv old new n s :
  relations_inv s -> relations_inv (swap_pending_child ord old new n s).
Proof.
  intros Hi. unfold swap_pending_child. apply foldl_inv; [|done].
  intros s' [h [l b]] Hin Hi'. simpl. destruct (rename_child old new l) as [l'|] eqn:E; [|done].
  apply with_pending_inv; [done|]. intros n' k l1 b1. rewrite lookup_insert.
  case_decide; [|intros [_ Hk]%lookup_delete_Some; by eapply Hi'].
  intros Hk. eapply rename_child_ok; [simplify_eq; exact E|]. exact (pending_request_ok n s h l b Hi Hin).
Qed.

(** ** Cleaners *)

Abbreviation Links := (gmap (AccountId * NetUid) Edges).
Abbreviation Plan := (Plan (AccountId := AccountId)).
Implicit Types (key : AccountId * NetUid) (rows : list ((AccountId * NetUid) * Edges)).

(** Carrying out [pl] on the map [links] amounts to rewriting every list by [g]. *)
Definition prunes (g : AccountId * NetUid -> Edges -> Edges) (links : Links) (pl : Plan) : Prop :=
  forall key,
    (key ∈ removes pl -> g key (default [] (links !! key)) = []) /\
    (forall l, (key, l) ∈ updates pl -> l = g key (default [] (links !! key))) /\
    (key ∉ removes pl -> key ∉ (updates pl).*1 ->
     g key (default [] (links !! key)) = default [] (links !! key)).

Lemma prunes_updated g links pl key :
  prunes g links pl -> key ∈ (updates pl).*1 ->
  (key, g key (default [] (links !! key))) ∈ updates pl.
Proof.
  intros Hp ([key' l] & -> & Hin)%list_elem_of_fmap. simpl.
  by rewrite <- (proj1 (proj2 (Hp key')) l Hin).
Qed.

Lemma update_rows_child (F : AccountId * NetUid -> Edges) us s k n :
  (forall key l, (key, l) ∈ us -> l = F key) ->
  child_keys (foldl (fun s r => set_childkeys r.1.1 r.1.2 r.2 s) s us) k n =
  if decide ((k, n) ∈ us.*1) then F (k, n) else child_keys s k n.
Proof.
  revert s. induction us as [|[[k0 n0] l0] us IH]; intros s HF; csimpl; [done|].
  rewrite IH by (intros; apply HF; by right). unfold child_keys. rewrite ChildKeys_set.
  rewrite (HF (k0, n0) l0) by left.
  repeat case_decide; rewrite ?elem_of_cons, ?default_row in *; naive_solver.
Qed.

Lemma update_rows_parent (F : AccountId * NetUid -> Edges) us s k n :
  (forall key l, (key, l) ∈ us -> l = F key) ->
  parent_keys (foldl (fun s r => set_parentkeys r.1.1 r.1.2 r.2 s) s us) k n =
  if decide ((k, n) ∈ us.*1) then F (k, n) else parent_keys s k n.
Proof.
  revert s. induction us as [|[[k0 n0] l0] us IH]; intros s HF; csimpl; [done|].
  rewrite IH by (intros; apply HF; by right). unfold parent_keys. rewrite ParentKeys_set.
  rewrite (HF (k0, n0) l0) by left.
  repeat case_decide; rewrite ?elem_of_cons, ?default_row in *; naive_solver.
Qed.

Lemma remove_child_rows_keys ks s k n :
  child_keys (remove_child_rows ks s) k n = if decide ((k, n) ∈ ks) then [] else child_keys s k n.
Proof.
  unfold remove_child_rows. revert s. induction ks as [|key ks IH]; intros s; simpl; [done|].
  rewrite IH. unfold child_keys. simpl. rewrite lookup_delete.
  repeat case_decide; rewrite ?elem_of_cons in *; naive_solver.
Qed.

Lemma remove_parent_rows_keys ks s k n :
  parent_keys (remove_parent_rows ks s) k n = if decide ((k, n) ∈ ks) then [] else parent_keys s k n.
Proof.
  unfold remove_parent_rows. revert s. induction ks as [|key ks IH]; intros s; simpl; [done|].
  rewrite IH. unfold parent_keys. simpl. rewrite lookup_delete.
  repeat case_decide; rewrite ?elem_of_cons in *; naive_solver.
Qed.

Lemma apply_child_plan_keys g pl s k n : prunes g (ChildKeys s) pl ->
  child_keys (apply_child_plan pl s) k n = g (k, n) (child_keys s k n).
Proof.
  intros Hp. destruct (Hp (k, n)) as (Hr & Hu & Hk). unfold apply_child_plan.
  rewrite remove_child_rows_keys, (update_rows_child (fun key => g key (default [] (ChildKeys s !! key)))).
  - unfold child_keys. repeat case_decide; [symmetry; auto|done|symmetry; auto].
  - intros key l Hin. by apply (proj1 (proj2 (Hp key))).
Qed.

Lemma apply_parent_plan_keys g pl s k n : prunes g (ParentKeys s) pl ->
  parent_keys (apply_parent_plan pl s) k n = g (k, n) (parent_keys s k n).
Proof.
  intros Hp. destruct (Hp (k, n)) as (Hr & Hu & Hk). unfold apply_parent_plan.
  rewrite remove_parent_rows_keys, (update_rows_parent (fun key => g key (default [] (ParentKeys s !! key)))).
  - unfold parent_keys. repeat case_decide; [symmetry; auto|done|symmetry; auto].
  - intros key l Hin. by apply (proj1 (proj2 (Hp key))).
Qed.

Lemma apply_child_plan_frame pl s :
  ParentKeys (apply_child_plan pl s) = ParentKeys s /\ rest (apply_child_plan pl s) = rest s.
Proof.
  unfold apply_child_plan, remove_child_rows.
  apply (foldl_inv (fun s' => ParentKeys s' = ParentKeys s /\ rest s' = rest s)); [done|].
  apply (foldl_inv (fun s' => ParentKeys s' = ParentKeys s /\ rest s' = rest s)); [|done].
  intros s' r _ [<- <-]. apply set_childkeys_frame.
Qed.

Lemma apply_parent_plan_frame pl s :
  ChildKeys (apply_parent_plan pl s) = ChildKeys s /\ rest (apply_parent_plan pl s) = rest s.
Proof.
  unfold apply_parent_plan, remove_parent_rows.
  apply (foldl_inv (fun s' => ChildKeys s' = ChildKeys s /\ rest s' = rest s)); [done|].
  apply (foldl_inv (fun s' => ChildKeys s' = ChildKeys s /\ rest s' = rest s)); [|done].
  intros s' r _ [<- <-]. apply set_parentkeys_frame.
Qed.

(** What each cleaner keeps of a list. *)
Definition loops_removed key l : Edges := filter (fun e => e.2 <> key.1) l.

Definition matched (opposite : AccountId -> NetUid -> Edges) key l : Edges :=
  filter (fun e => existsb (fun r => (r.1 =? e.1) && bool_decide (r.2 = key.1))
                           (opposite e.2 key.2) = true) l.

Lemma matched_elem opposite key l w k :
  (w, k) ∈ matched opposite key l <-> (w, k) ∈ l /\ (w, key.1) ∈ opposite k key.2.
Proof.
  unfold matched. rewrite list_elem_of_filter, existsb_exists. simpl. split.
  - intros [([w' k'] & Hin%list_elem_of_In & Hb) Hl]. simpl in Hb. bool_to_prop. by subst.
  - intros [Hl Hin%list_elem_of_In]. split; [|done]. exists (w, key.1). split; [done|]. simpl.
    by rewrite Z.eqb_refl, bool_decide_eq_true_2.
Qed.

Lemma self_loop_plan_removes rows pl key :
  key ∈ removes (self_loop_plan rows pl) <->
  key ∈ removes pl \/ exists l, (key, l) ∈ rows /\ length (loops_removed key l) <> length l /\
                                loops_removed key l = [].
Proof.
  revert pl. induction rows as [|[key0 l0] rows IH]; intros pl; simpl.
  { setoid_rewrite elem_of_nil. naive_solver. }
  fold (loops_removed key0 l0). setoid_rewrite elem_of_cons.
  destruct (length (loops_removed key0 l0) =? length l0)%nat eqn:E;
    [apply Nat.eqb_eq in E|apply Nat.eqb_neq in E; case_decide]; rewrite IH; simpl;
    rewrite ?elem_of_app, ?list_elem_of_singleton; naive_solver.
Qed.

Lemma self_loop_plan_updates rows pl key l' :
  (key, l') ∈ updates (self_loop_plan rows pl) <->
  (key, l') ∈ updates pl \/
  exists l, (key, l) ∈ rows /\ length (loops_removed key l) <> length l /\
            loops_removed key l <> [] /\ l' = loops_removed key l.
Proof.
  revert pl. induction rows as [|[key0 l0] rows IH]; intros pl; simpl.
  { setoid_rewrite elem_of_nil. naive_solver. }
  fold (loops_removed key0 l0). setoid_rewrite elem_of_cons.
  destruct (length (loops_removed key0 l0) =? length l0)%nat eqn:E;
    [apply Nat.eqb_eq in E|apply Nat.eqb_neq in E; case_decide]; rewrite IH; simpl;
    rewrite ?elem_of_app, ?list_elem_of_singleton; naive_solver.
Qed.

Lemma repair_plan_removes opposite rows pl key :
  key ∈ removes (repair_plan opposite rows pl) <->
  key ∈ removes pl \/ exists l, (key, l) ∈ rows /\ matched opposite key l = [].
Proof.
  revert pl. induction rows as [|[key0 l0] rows IH]; intros pl; simpl.
  { setoid_rewrite elem_of_nil. naive_solver. }
  fold (matched opposite key0 l0). setoid_rewrite elem_of_cons.
  repeat case_decide; rewrite IH; simpl;
    rewrite ?elem_of_app, ?list_elem_of_singleton; naive_solver.
Qed.

Lemma repair_plan_updates opposite rows pl key l' :
  (key, l') ∈ updates (repair_plan opposite rows pl) <->
  (key, l') ∈ updates pl \/
  exists l, (key, l) ∈ rows /\ matched opposite key l <> [] /\ l <> matched opposite key l /\
            l' = matched opposite key l.
Proof.
  revert pl. induction rows as [|[key0 l0] rows IH]; intros pl; simpl.
  { setoid_rewrite elem_of_nil. naive_solver. }
  fold (matched opposite key0 l0). setoid_rewrite elem_of_cons.
  repeat case_decide; rewrite IH; simpl;
    rewrite ?elem_of_app, ?list_elem_of_singleton; naive_solver.
Qed.

Lemma elem_of_iter_links (links : Links) key l : (key, l) ∈ iter_links ord links <-> links !! key = Some l.
Proof. by rewrite (iter_links_perm ord), elem_of_map_to_list. Qed.

Lemma filter_full `{!forall e, Decision (P e)} l :
  length (filter P l) = length l -> filter P l = l.
Proof.
  intros Hlen. induction l as [|e l IH]; [done|]. rewrite filter_cons in *. case_decide.
  - simpl in Hlen. by rewrite IH by lia.
  - simpl in Hlen. pose proof (length_filter P l). lia.
Qed.

Lemma self_loop_plan_prunes (links : Links) :
  prunes loops_removed links (self_loop_plan (iter_links ord links) (mkPlan [] [])).
Proof.
  intros key. split_and!.
  - rewrite self_loop_plan_removes. intros [?%not_elem_of_nil|(l & Hin & _ & Hl)]; [done|].
    apply elem_of_iter_links in Hin. by rewrite Hin.
  - intros l'. rewrite self_loop_plan_updates. intros [?%not_elem_of_nil|(l & Hin & _ & _ & ->)]; [done|].
    apply elem_of_iter_links in Hin. by rewrite Hin.
  - intros Hr Hu. destruct (links !! key) as [l|] eqn:E; [simpl|done].
    apply filter_full. apply dec_stable. intros Hne. apply elem_of_iter_links in E.
    destruct (decide (loops_removed key l = [])).
    + apply Hr, self_loop_plan_removes. eauto 10.
    + apply Hu, list_elem_of_fmap. exists (key, loops_removed key l). split; [done|].
      apply self_loop_plan_updates. eauto 10.
Qed.

Lemma repair_plan_prunes (opposite : AccountId -> NetUid -> Edges) (links : Links) :
  prunes (matched opposite) links (repair_plan opposite (iter_links ord links) (mkPlan [] [])).
Proof.
  intros key. split_and!.
  - rewrite repair_plan_removes. intros [?%not_elem_of_nil|(l & Hin & Hl)]; [done|].
    apply elem_of_iter_links in Hin. by rewrite Hin.
  - intros l'. rewrite repair_plan_updates. intros [?%not_elem_of_nil|(l & Hin & _ & _ & ->)]; [done|].
    apply elem_of_iter_links in Hin. by rewrite Hin.
  - intros Hr Hu. destruct (links !! key) as [l|] eqn:E; [simpl|done].
    apply dec_stable. intros Hne. apply elem_of_iter_links in E.
    destruct (decide (matched opposite key l = [])).
    + apply Hr, repair_plan_removes. eauto 10.
    + apply Hu, list_elem_of_fmap. exists (key, matched opposite key l). split; [done|].
      apply repair_plan_updates. eauto 10.
Qed.

Lemma clean_self_loops_keys s k n :
  child_keys (clean_self_loops ord s) k n = loops_removed (k, n) (child_keys s k n) /\
  parent_keys (clean_self_loops ord s) k n = loops_removed (k, n) (parent_keys s k n).
Proof.
  unfold clean_self_loops. set (s1 := apply_child_plan _ _). split.
  - unfold child_keys at 1. rewrite (proj1 (apply_parent_plan_frame _ _)).
    exact (apply_child_plan_keys _ _ s k n (self_loop_plan_prunes (ChildKeys s))).
  - rewrite (apply_parent_plan_keys loops_removed) by apply self_loop_plan_prunes.
    unfold parent_keys, s1. by rewrite (proj1 (apply_child_plan_frame _ _)).
Qed.

Lemma repair_keys s k n :
  let s1 := apply_child_plan (repair_plan (parent_keys s) (iter_links ord (ChildKeys s)) (mkPlan [] [])) s in
  child_keys s1 k n = matched (parent_keys s) (k, n) (child_keys s k n) /\
  child_keys (repair_child_parent_consistency ord s) k n = child_keys s1 k n /\
  parent_keys (repair_child_parent_consistency ord s) k n =
  matched (child_keys s1) (k, n) (parent_keys s k n).
Proof.
  unfold repair_child_parent_consistency. set (s1 := apply_child_plan _ _). simpl. split_and!.
  - exact (apply_child_plan_keys _ _ s k n (repair_plan_prunes (parent_keys s) (ChildKeys s))).
  - unfold child_keys at 1. by rewrite (proj1 (apply_parent_plan_frame _ _)).
  - rewrite (apply_parent_plan_keys (matched (child_keys s1))) by apply repair_plan_prunes.
    f_equal. unfold parent_keys, s1. by rewrite (proj1 (apply_child_plan_frame _ _)).
Qed.

Lemma clean_rest s :
  rest (clean_self_loops ord s) = rest s /\ rest (repair_child_parent_consistency ord s) = rest s.
Proof.
  unfold clean_self_loops, repair_child_parent_consistency.
  split; rewrite (proj2 (apply_parent_plan_frame _ _)); apply apply_child_plan_frame.
Qed.

Lemma empty_rows_spec (links : Links) key : key ∈ empty_rows ord links -> links !! key = Some [].
Proof.
  unfold empty_rows. intros ([key' l] & -> & [Hl Hin]%list_elem_of_filter)%list_elem_of_fmap.
  apply elem_of_iter_links in Hin. simpl in *. by subst.
Qed.

Lemma clean_zero_children_keys s k n : child_keys (clean_zero_childkey_vectors ord s) k n = child_keys s k n.
Proof.
  unfold clean_zero_childkey_vectors. rewrite remove_child_rows_keys. case_decide as Hin; [|done].
  apply empty_rows_spec in Hin. unfold child_keys. by rewrite Hin.
Qed.

Lemma clean_zero_parents_keys s k n : parent_keys (clean_zero_parentkey_vectors ord s) k n = parent_keys s k n.
Proof.
  unfold clean_zero_parentkey_vectors. rewrite remove_parent_rows_keys. case_decide as Hin; [|done].
  apply empty_rows_spec in Hin. unfold parent_keys. by rewrite Hin.
Qed.

Lemma loops_removed_ok n k l : k ∉ l.*2 -> loops_removed (k, n) l = l.
Proof. exact (remove_edge_absent l k). Qed.

(** In a consistent state the cleaners have nothing to do. *)
Lemma relations_inv_keys s s' :
  (forall k n, child_keys s' k n = child_keys s k n) ->
  (forall k n, parent_keys s' k n = parent_keys s k n) ->
  rest s' = rest s -> relations_inv s -> relations_inv s'.
Proof.
  intros HC HP Hr Hi n. split; [eapply live_inv_ext; [..|apply Hi]; done|].
  intros k l b. rewrite (rest_pending _ _ Hr). apply Hi.
Qed.

Lemma clean_self_loops_inv s : relations_inv s -> relations_inv (clean_self_loops ord s).
Proof.
  intros Hi. apply relations_inv_keys with s; [..|apply clean_rest|done]; intros k n;
    pose proof (live_graph _ _ (subnet_live _ _ (Hi n))) as Hg.
  - rewrite (proj1 (clean_self_loops_keys s k n)). apply loops_removed_ok, edge_weight_None.
    apply (graph_no_loop _ _ Hg).
  - rewrite (proj2 (clean_self_loops_keys s k n)). apply loops_removed_ok, edge_weight_None.
    rewrite (graph_sym _ _ Hg). apply (graph_no_loop _ _ Hg).
Qed.

Lemma matched_all opposite k n l :
  (forall w c, (w, c) ∈ l -> (w, k) ∈ opposite c n) -> matched opposite (k, n) l = l.
Proof.
  intros Hl. induction l as [|[w c] l IH]; [done|]. unfold matched in *. rewrite filter_cons_True.
  - f_equal. apply IH. intros w' c' Hin. apply Hl. by right.
  - assert (Hin : (w, c) ∈ matched opposite (k, n) [(w, c)]).
    { apply matched_elem. split; [by left|]. apply Hl. by left. }
    unfold matched in Hin. by apply list_elem_of_filter in Hin as [? _].
Qed.

Lemma repair_inv s : relations_inv s -> relations_inv (repair_child_parent_consistency ord s).
Proof.
  intros Hi.
  assert (HC : forall k n, matched (parent_keys s) (k, n) (child_keys s k n) = child_keys s k n).
  { intros k n. pose proof (live_graph _ _ (subnet_live _ _ (Hi n))) as Hg.
    apply matched_all. intros w c Hin.
    apply edge_weight_elem. rewrite (graph_sym _ _ Hg). apply edge_weight_Some; [apply Hg|done]. }
  apply relations_inv_keys with s; [..|apply clean_rest|done]; intros k n;
    destruct (repair_keys s k n) as (H1 & H2 & H3).
  - by rewrite H2, H1.
  - rewrite H3. apply matched_all. intros w c Hin.
    pose proof (live_graph _ _ (subnet_live _ _ (Hi n))) as Hg.
    rewrite (proj1 (repair_keys s c n)), HC. apply edge_weight_elem.
    change (edge s n c k = Some w). rewrite <- (graph_sym _ _ Hg).
    apply edge_weight_Some; [apply Hg|done].
Qed.

(** ** Histories *)

Inductive operation : Type :=
| ScheduleChildren (origin : option AccountId) (hotkey : AccountId) (n : NetUid) (children : Edges)
| SetPendingChildren (n : NetUid)
| SwapHotkey (old new : AccountId) (n : NetUid)
| SwapPendingChild (old new : AccountId) (n : NetUid)
| SetChildkeyTake (coldkey hotkey : AccountId) (n : NetUid) (take : Z)
| QueueThresholdCheck (hotkey : AccountId)
| ProcessThresholdChecks (limit : Z)
| SetRootValidators (n : NetUid)
| SetSubnetOwners (validator : AccountId)
| ClearAutoParent (validator : AccountId)
| RetargetAutoParent (n : NetUid) (old_owner new_owner : AccountId)
| CleanZeroChildkeys
| CleanZeroParentkeys
| CleanSelfLoops
| RepairConsistency.

(** One operation in the environment of its block. *)
Definition run_operation s (step : Env * operation) : State :=
  let '(env, op) := step in
  match op with
  | ScheduleChildren origin hotkey n l => (do_schedule_children ord env origin hotkey n l s).2
  | SetPendingChildren n => do_set_pending_children ord env n s
  | SwapHotkey old new n => (parent_child_swap_hotkey ord old new n s).2
  | SwapPendingChild old new n => swap_pending_child ord old new n s
  | SetChildkeyTake coldkey hotkey n take => (do_set_childkey_take env coldkey hotkey n take s).2
  | QueueThresholdCheck hotkey => queue_childkey_threshold_check ord hotkey s
  | ProcessThresholdChecks limit => (process_childkey_threshold_checks ord env limit s).2
  | SetRootValidators n => (do_set_root_validators_for_subnet ord env n s).2
  | SetSubnetOwners validator => do_set_subnet_owners_for_root_validator ord env validator s
  | ClearAutoParent validator => clear_auto_parent_for_root_validator ord env validator s
  | RetargetAutoParent n old_owner new_owner =>
      retarget_auto_parent_on_owner_change ord env n old_owner new_owner s
  | CleanZeroChildkeys => clean_zero_childkey_vectors ord s
  | CleanZeroParentkeys => clean_zero_parentkey_vectors ord s
  | CleanSelfLoops => clean_self_loops ord s
  | RepairConsistency => repair_child_parent_consistency ord s
  end.

(** Proportions are [u64]. *)
Definition operation_ok (op : operation) : Prop :=
  match op with
  | ScheduleChildren _ _ _ l => Forall is_u64 l.*1
  | _ => True
  end.

Definition empty_state : State := mkState ∅ ∅ ∅ ∅ ∅ ∅ ∅ [].

Lemma empty_state_inv : relations_inv empty_state.
Proof.
  intros n. split; [split; [split|..]|]; unfold edge, child_keys, parent_keys; simpl; intros *;
    rewrite ?lookup_empty; simpl; try done.
  - constructor.
  - constructor.
  - apply list_ok_nil.
  - lia.
Qed.

Lemma remove_rows_frame ks s :
  (ParentKeys (remove_child_rows ks s) = ParentKeys s /\ rest (remove_child_rows ks s) = rest s) /\
  (ChildKeys (remove_parent_rows ks s) = ChildKeys s /\ rest (remove_parent_rows ks s) = rest s).
Proof.
  unfold remove_child_rows, remove_parent_rows. split.
  - by apply (foldl_inv (fun s' => ParentKeys s' = ParentKeys s /\ rest s' = rest s)).
  - by apply (foldl_inv (fun s' => ChildKeys s' = ChildKeys s /\ rest s' = rest s)).
Qed.

Lemma run_operation_inv s env op :
  operation_ok op -> relations_inv s -> relations_inv (run_operation s (env, op)).
Proof.
  intros Hop Hi. destruct op; simpl in *.
  - destruct (do_schedule_children _ _ _ _ _ _ _) as [r s'] eqn:E.
    apply schedule_inv in E; [done| |done]. eapply Forall_impl; [done|]. by intros ? [? _].
  - by apply set_pending_inv.
  - destruct (parent_child_swap_hotkey _ _ _ _ _) as [r s'] eqn:E. by apply swap_inv in E.
  - by apply swap_pending_inv.
  - destruct (do_set_childkey_take _ _ _ _ _ _) as [r s'] eqn:E. by apply set_take_inv in E.
  - by apply queue_check_inv.
  - by apply process_checks_inv.
  - destruct (do_set_root_validators_for_subnet _ _ _ _) as [r s'] eqn:E.
    by apply set_root_validators_inv in E.
  - by apply set_subnet_owners_inv.
  - by apply clear_auto_parent_inv.
  - by apply retarget_auto_parent_inv.
  - apply relations_inv_keys with s; [apply clean_zero_children_keys| |apply remove_rows_frame|done].
    intros k n. unfold parent_keys, clean_zero_childkey_vectors.
    by rewrite (proj1 (proj1 (remove_rows_frame _ _))).
  - apply relations_inv_keys with s; [|apply clean_zero_parents_keys|apply remove_rows_frame|done].
    intros k n. unfold child_keys, clean_zero_parentkey_vectors.
    by rewrite (proj1 (proj2 (remove_rows_frame _ _))).
  - by apply clean_self_loops_inv.
  - by apply repair_inv.
Qed.

(** (C8) Along every history of operations, whatever their results,
    from empty maps and in any environment: on every subnet [ChildKeys] and
    [ParentKeys] store the same weighted graph, without repeated entries,
    self-loops or two-cycles; a parent has at most five children, whose
    proportions add up to at most [u64::MAX]; a child has at most a hundred
    parents; and every pending request has at most five children. *)
Theorem relations_always_consistent (history : list (Env * operation)) :
  Forall (fun step => operation_ok step.2) history ->
  relations_inv (foldl run_operation empty_state history).
Proof.
  intros Hh. apply foldl_inv; [|apply empty_state_inv]. intros s [env op] Hin Hi.
  rewrite Forall_forall in Hh. apply run_operation_inv; [apply (Hh _ Hin)|done].
Qed.

(** (C15) The diff-based update of the two maps is atomic, although it
    runs outside a storage layer, and implements the update of one graph: it
    either refuses because a list of parents would outgrow the cap, changing
    nothing, or replaces exactly the edges of the pivot by the given ones, seen
    alike from the children's and from the parents' side, and touches no other
    subnet and no other storage. *)
Theorem persist_refines_graph_update (rel : PCRelations) n s r s' :
  graph_ok s n -> rel_ok rel ->
  persist_child_parent_relations ord rel n s = (r, s') ->
  (r = Err TooManyParents /\ s' = s) \/
  (r = Ok tt /\ rest s' = rest s /\ graph_ok s' n /\
   (forall p c, edge s' n p c = replaced rel (edge s n) p c) /\
   (forall p c, edge_weight (parent_keys s' c n) p = replaced rel (edge s n) p c) /\
   (forall k n', n' <> n -> child_keys s' k n' = child_keys s k n' /\
                            parent_keys s' k n' = parent_keys s k n')).
Proof.
  intros Hg Hrel. rewrite (persist_run ord).
  destruct (ensure_fan_in ord rel n s) as [[u|e] s1]; intros [= <- <-]; [right|by left].
  pose proof (graph_loop_free _ _ _ Hg Hrel) as Hf.
  pose proof (persist_effect ord rel n s Hg Hrel) as He.
  split_and!; [done|apply persist_rest|by apply (persist_graph_ok ord)|apply He|apply He|].
  intros k n' Hne. by rewrite (persist_child_keys ord), (persist_parent_keys ord), !decide_False.
Qed.

(** ** The effect of a request *)

Section request.
Context (n : NetUid) (pv : AccountId) (l : Edges) (s : State) (Hg : graph_ok s n).

(** A request can be carried out: the proportions fit, no requested child is a
    parent of the pivot, and no new child has its list of parents full. *)
Definition feasible : Prop :=
  total_proportions (edges_map_without pv l) <= u64_max /\
  (forall c w, edges_map_without pv l !! c = Some w -> edge s n c pv = None) /\
  (forall c w, edges_map_without pv l !! c = Some w ->
     is_Some (edge s n pv c) \/ (length (parent_keys s c n) < MAX_PARENTS_PER_CHILD)%nat).

Lemma edge_is_Some p c : is_Some (edge s n p c) <-> p ∈ (parent_keys s c n).*2.
Proof.
  rewrite <- (graph_sym _ _ Hg), <- not_eq_None_Some, edge_weight_None.
  split; [apply dec_stable|tauto].
Qed.

Lemma bipartite_run m m' :
  (forall k w, m !! k = Some w -> m' !! k = None) ->
  ensure_bipartite_separation ord m m' s = (Ok tt, s).
Proof.
  intros Hm. unfold ensure_bipartite_separation, ensure.
  destruct (existsb _ _) eqn:E; [exfalso|done].
  apply existsb_exists in E as ([k w] & Hin%list_elem_of_In & Hb). bool_to_prop.
  apply (elem_of_btree_iter ord) in Hin. apply Hm in Hin. simpl in *. rewrite Hin in Hb.
  by destruct Hb.
Qed.

Lemma load_pending_run : feasible ->
  load_relations_from_pending ord pv l n s = (Ok (loaded pv l n s), s).
Proof.
  intros (Ht & Hsep & _). unfold load_relations_from_pending, link_children, link_parents,
    ensure_no_self_loop, ensure_total_proportions. simpl.
  assert (Hself : forall l, edges_map_without pv l !! pv = None).
  { intros l'. rewrite edges_map_without_lookup. by rewrite decide_True. }
  unfold mbind, M_bind, ensure, gets. simpl. rewrite !Hself, bool_decide_eq_true_2 by done.
  rewrite (proj2 (Z.leb_le _ _) Ht), bipartite_run by (intros; apply lookup_empty). simpl.
  rewrite Hself, bool_decide_eq_true_2 by done. rewrite bipartite_run; [done|].
  intros k w Hk. etrans; [exact (loaded_parents pv l n s k Hg)|]. by eapply Hsep.
Qed.

Lemma fan_in_run : feasible -> ensure_fan_in ord (loaded pv l n s) n s = (Ok tt, s).
Proof.
  intros (_ & _ & Hcap). unfold ensure_fan_in. rewrite bind_gets.
  assert (Hpar : forall k w, parents (loaded pv l n s) !! k = Some w -> k ∈ (parent_keys s pv n).*2).
  { intros k w Hk. rewrite loaded_parents in Hk by done. apply edge_is_Some. eauto. }
  erewrite bind_run; cycle 1.
  { unfold ensure. rewrite (proj2 (orb_true_iff _ _)); [done|]. right.
    apply andb_true_iff. split.
    - apply bool_decide_eq_true_2. simpl.
      etrans; [apply map_subseteq_size, edges_map_without_sub|apply edges_map_size].
    - apply forallb_forall. intros [k w] Hin%list_elem_of_In.
      apply (elem_of_btree_iter ord) in Hin. apply has_edge_spec. by eapply Hpar. }
  apply for_each_checks. intros [c w] Hin. apply (elem_of_btree_iter ord) in Hin. rewrite bind_gets.
  unfold ensure. rewrite (proj2 (orb_true_iff _ _)); [done|].
  destruct (Hcap c w Hin) as [Hs|Hlt]; [left|right; by apply bool_decide_eq_true_2].
  apply has_edge_spec. by apply edge_is_Some.
Qed.

Lemma infeasible_dropped : ~ feasible -> persist_pending_chidren_ok ord n pv l s = s.
Proof.
  intros Hn. destruct (persist_pending_cases ord n pv l s) as [?|(Hrel & Ht & Hf & _)]; [done|].
  destruct Hn. destruct Hrel as (_ & _ & Hsep). apply (fan_in_ok ord) in Hf as [_ Hf]. split_and!.
  - done.
  - intros c w Hc. rewrite <- (loaded_parents pv l n s c Hg). by eapply Hsep.
  - intros c w Hc. rewrite edge_is_Some. by eapply Hf.
Qed.

Lemma persist_pending_run : feasible ->
  persist_pending_chidren_ok ord n pv l s =
  deposit_event (SetChildrenEvent pv n l) (persist_result ord (loaded pv l n s) n s).
Proof.
  intros Hfe. unfold persist_pending_chidren_ok. rewrite load_pending_run by done.
  by rewrite (persist_run ord), fan_in_run.
Qed.
End request.

(** Only the pivot's out-edges change. *)
Lemma persist_pending_request n pv l s : graph_ok s n ->
  persist_pending_chidren_ok ord n pv l s = s \/
  forall p c, edge (persist_pending_chidren_ok ord n pv l s) n p c =
              if decide (p = pv) then edges_map_without pv l !! c else edge s n p c.
Proof.
  intros Hg. destruct (persist_pending_cases ord n pv l s) as [->|(Hrel & _ & _ & ->)]; [by left|].
  right. intros p c. destruct (persist_effect ord _ n s Hg Hrel p c) as [He _]. simpl in He.
  change (edge (deposit_event _ ?x) n p c) with (edge x n p c). rewrite He. unfold replaced.
  rewrite (loaded_parents pv l n s p Hg). simpl. repeat case_decide; subst; auto.
Qed.

(** Applying a request does exactly what was asked, or nothing.  If the
    proportions fit, no requested child is a parent of the hotkey and no new
    child is full, the hotkey's children become the requested ones (a mention of
    the hotkey itself is skipped, the last proportion of a repeated child
    counts), every other edge of the subnet stays, and the event is emitted;
    otherwise the state is unchanged. *)
Theorem request_effect n pv l s : relations_inv s ->
  let s' := persist_pending_chidren_ok ord n pv l s in
  (feasible n pv l s ->
   (forall p c, edge s' n p c = if decide (p = pv) then edges_map_without pv l !! c else edge s n p c) /\
   Events s' = Events s ++ [SetChildrenEvent pv n l]) /\
  (~ feasible n pv l s -> s' = s).
Proof.
  intros Hi s'. pose proof (live_graph _ _ (subnet_live _ _ (Hi n))) as Hg.
  split; [|by apply infeasible_dropped]. intros Hfe.
  pose proof (load_pending_run _ _ _ _ Hg Hfe) as Hload.
  apply (load_pending_ok ord) in Hload as (_ & _ & Hrel & _).
  unfold s'. rewrite persist_pending_run by done. split.
  - intros p c. destruct (persist_effect ord _ n s Hg Hrel p c) as [He _]. simpl in He.
    change (edge (deposit_event _ ?x) n p c) with (edge x n p c). rewrite He. unfold replaced.
    rewrite (loaded_parents pv l n s p Hg). simpl. repeat case_decide; subst; auto.
  - simpl. f_equal. pose proof (persist_rest ord (loaded pv l n s) n s) as Hr. unfold rest in Hr. congruence.
Qed.

(** ** Pending requests *)

Lemma elem_of_pending_of n s h e : (h, e) ∈ pending_of ord n s <-> PendingChildKeys s !! (n, h) = Some e.
Proof.
  unfold pending_of. rewrite list_elem_of_fmap. split.
  - intros ([[n' h'] v] & Heq & [Hn Hin]%list_elem_of_filter). simplify_eq/=.
    by rewrite (iter_pending_perm ord), elem_of_map_to_list in Hin.
  - intros Hk. exists ((n, h), e). split; [done|]. apply list_elem_of_filter. split; [done|].
    by rewrite (iter_pending_perm ord), elem_of_map_to_list.
Qed.

Lemma persist_pending_pending n pv l s :
  PendingChildKeys (persist_pending_chidren_ok ord n pv l s) = PendingChildKeys s.
Proof.
  destruct (persist_pending_cases ord n pv l s) as [->|(_ & _ & _ & ->)]; [done|].
  apply (rest_pending _ _ (persist_rest ord _ n s)).
Qed.

Section due.
Context (env : Env (AccountId := AccountId)) (n : NetUid).

(** What a hotkey's request may make of its children. *)
Definition served (s s' : State) (due : list (AccountId * (Edges * Z))) : Prop :=
  forall p, (forall c, edge s' n p c = edge s n p c) \/
    exists l b, (p, (l, b)) ∈ due /\
      (l = [] \/ hotkey_meets_childkey_threshold env p n = true) /\
      forall c, edge s' n p c = edges_map_without p l !! c.

Lemma apply_pending_edges pv l s p : graph_ok s n ->
  (forall c, edge (apply_pending ord env n pv l s) n p c = edge s n p c) \/
  p = pv /\ (l = [] \/ hotkey_meets_childkey_threshold env pv n = true) /\
  forall c, edge (apply_pending ord env n pv l s) n p c = edges_map_without pv l !! c.
Proof.
  intros Hg. unfold apply_pending. destruct (bool_decide (l = []) || _) eqn:E; [|by left].
  apply orb_true_iff in E.
  assert (Hok : l = [] \/ hotkey_meets_childkey_threshold env pv n = true).
  { destruct E as [E|E]; [left; by bool_to_prop|by right]. }
  assert (Hc : forall c, edge (if negb (bool_decide (l = [])) &&
       (StakeThreshold env <=? get_total_stake_for_hotkey env pv)
     then with_suspended (fun X => X ∖ {[pv]}) (persist_pending_chidren_ok ord n pv l s)
     else persist_pending_chidren_ok ord n pv l s) n p c =
     edge (persist_pending_chidren_ok ord n pv l s) n p c).
  { intros c. by case_match. }
  destruct (persist_pending_request n pv l s Hg) as [He|He].
  - left. intros c. rewrite Hc. by rewrite He.
  - destruct (decide (p = pv)) as [->|Hne].
    + right. split_and!; [done..|]. intros c. rewrite Hc, He. by rewrite decide_True.
    + left. intros c. rewrite Hc, He. by rewrite decide_False.
Qed.

Lemma served_fold due s : relations_inv s ->
  (forall h l b, (h, (l, b)) ∈ due -> request_ok l) ->
  let s' := foldl (fun s e => apply_pending ord env n e.1 e.2.1 s) s due in
  relations_inv s' /\ served s s' due /\ PendingChildKeys s' = PendingChildKeys s.
Proof.
  intros Hi Hreq. induction due as [|[h [l b]] due IH] using rev_ind; simpl.
  { split_and!; [done| |done]. intros p. by left. }
  destruct IH as (Hi' & Hs & Hp); [intros h' l' b' Hin; eapply (Hreq h' l' b'), elem_of_app; by left|].
  rewrite foldl_app. simpl. set (s1 := foldl _ s due) in *. split_and!.
  - apply apply_pending_inv; [done|]. eapply (Hreq h l b), elem_of_app. right. by left.
  - pose proof (live_graph _ _ (subnet_live _ _ (Hi' n))) as Hg. intros p.
    destruct (apply_pending_edges h l s1 p Hg) as [He|(-> & Hok & He)].
    + destruct (Hs p) as [Hsame|(l' & b' & Hin & Hok & Hr)].
      * left. intros c. by rewrite He.
      * right. exists l', b'. split_and!; [apply elem_of_app; by left|done|]. intros c. by rewrite He.
    + right. exists l, b. split_and!; [apply elem_of_app; right; by left|done..].
  - rewrite <- Hp. unfold apply_pending. case_match; [|done].
    rewrite <- (persist_pending_pending n h l s1). by case_match.
Qed.

Lemma delete_fold ks s h n' :
  let s' := foldl (fun s (e : AccountId * (Edges * Z)) => with_pending (delete (n, e.1)) s) s ks in
  PendingChildKeys s' !! (n', h) =
    (if decide (n' = n /\ h ∈ ks.*1) then None else PendingChildKeys s !! (n', h)) /\
  ChildKeys s' = ChildKeys s.
Proof.
  revert s. induction ks as [|[h0 v] ks IH]; intros s; csimpl.
  { rewrite decide_False; [done|]. by intros [_ ?%not_elem_of_nil]. }
  destruct (IH (with_pending (delete (n, h0)) s)) as [-> ->]. simpl. split; [|done].
  rewrite lookup_delete. repeat case_decide; rewrite ?elem_of_cons in *; naive_solver.
Qed.
End due.

(** Serving the requests of a subnet removes exactly those whose
    cool-down is over (all of them before the subnet has started), and changes
    the children of a hotkey only to what its own due request asks for, only if
    that request is empty or the hotkey still meets the stake threshold; the
    children of every other hotkey stay as they are. *)
Theorem pending_requests_served (env : Env) n s : relations_inv s ->
  let s' := do_set_pending_children ord env n s in
  (forall h n', PendingChildKeys s' !! (n', h) =
     match PendingChildKeys s !! (n', h) with
     | Some (l, b) => if bool_decide (n' = n) && pending_due env (SubtokenEnabled env n) b
                      then None else Some (l, b)
     | None => None
     end) /\
  (forall p, (forall c, edge s' n p c = edge s n p c) \/
     exists l b, PendingChildKeys s !! (n, p) = Some (l, b) /\
       pending_due env (SubtokenEnabled env n) b = true /\
       (l = [] \/ hotkey_meets_childkey_threshold env p n = true) /\
       forall c, edge s' n p c = edges_map_without p l !! c).
Proof.
  intros Hi s'. unfold s', do_set_pending_children. clear s'.
  set (due := filter _ (pending_of ord n s)).
  destruct (served_fold env n due s Hi) as (Hi' & Hs & Hp).
  { intros h l b [_ Hin]%list_elem_of_filter. exact (pending_request_ok n s h l b Hi Hin). }
  set (s1 := foldl _ s due) in *.
  assert (Hd : forall h l b, PendingChildKeys s !! (n, h) = Some (l, b) ->
            h ∈ due.*1 <-> pending_due env (SubtokenEnabled env n) b = true).
  { intros h l b Hk. unfold due. rewrite list_elem_of_fmap. split.
    - intros ([h' [l' b']] & -> & [Hdue Hin]%list_elem_of_filter). simpl in *.
      apply elem_of_pending_of in Hin. by simplify_eq.
    - intros Hdue. exists (h, (l, b)). split; [done|]. apply list_elem_of_filter. split; [done|].
      by apply elem_of_pending_of. }
  split.
  - intros h n'. rewrite (proj1 (delete_fold n due s1 h n')), Hp.
    destruct (PendingChildKeys s !! (n', h)) as [[l b]|] eqn:E; [|by case_decide].
    case_bool_decide as Hn; simpl; [subst n'|by rewrite decide_False by tauto].
    specialize (Hd h l b E). destruct (pending_due _ _ b); case_decide; naive_solver.
  - intros p. destruct (Hs p) as [Hsame|(l & b & Hin & Hok & He)]; [left|right].
    + intros c. rewrite <- Hsame. unfold edge, child_keys.
      by rewrite (proj2 (delete_fold n due s1 p n)).
    + apply list_elem_of_filter in Hin as [Hdue Hin]. apply elem_of_pending_of in Hin.
      exists l, b. split_and!; [done..|]. intros c. rewrite <- He. unfold edge, child_keys.
      by rewrite (proj2 (delete_fold n due s1 p n)).
Qed.

(** ** Swaps *)

Lemma persist_pending_of_rest old new n s :
  PendingChildKeys (persist_result ord (moved old new n s) n (move_pending old new n (cleared old n s))) =
  PendingChildKeys (move_pending old new n s).
Proof.
  rewrite (rest_pending _ _ (persist_rest ord _ _ _)). unfold move_pending.
  pose proof (rest_pending _ _ (cleared_rest old n s)) as Hp. rewrite Hp.
  case_match; [|done]. unfold with_pending. cbn [PendingChildKeys]. by rewrite Hp.
Qed.

(** A request with its first mention of the old hotkey replaced by the new one, at the
    end and with the same proportion. *)
Definition request_renamed old new (l l' : Edges) : Prop :=
  (old ∉ l.*2 /\ l' = l) \/
  exists before w after, l = before ++ (w, old) :: after /\ old ∉ before.*2 /\ l' = before ++ after ++ [(w, new)].

Lemma rename_child_spec old new l : request_renamed old new l (default l (rename_child old new l)).
Proof.
  unfold rename_child. destruct (list_find _ l) as [[i [w k]]|] eqn:E; simpl.
  - apply list_find_Some in E as (Hi & Hk & Hb). simpl in Hk. subst k. right. exists (take i l), w, (drop (S i) l).
    split_and!; [by rewrite take_drop_middle| |by rewrite delete_take_drop, <- app_assoc].
    intros ([w' k] & -> & (j & Hj)%list_elem_of_lookup)%list_elem_of_fmap.
    apply lookup_take_Some in Hj as [Hj Hlt]. by apply (Hb j _ Hj Hlt).
  - left. split; [|done]. intros ([w k] & -> & Hin)%list_elem_of_fmap.
    apply list_find_None in E. rewrite list.Forall_forall in E. by apply (E _ Hin).
Qed.

Lemma swap_pending_fold old new n s (rows : list (AccountId * (Edges * Z))) h n' :
  (forall h e, (h, e) ∈ rows -> PendingChildKeys s !! (n, h) = Some e) ->
  let s' := foldl (fun s (e : AccountId * (Edges * Z)) =>
    match rename_child old new e.2.1 with
    | Some l => with_pending (fun q => <[(n, e.1) := (l, e.2.2)]> (delete (n, e.1) q)) s
    | None => s
    end) s rows in
  PendingChildKeys s' !! (n', h) =
    (if decide (n' = n /\ h ∈ rows.*1)
     then (fun e => (default e.1 (rename_child old new e.1), e.2)) <$> PendingChildKeys s !! (n', h)
     else PendingChildKeys s !! (n', h)) /\
  ChildKeys s' = ChildKeys s.
Proof.
  induction rows as [|[h0 [l0 b0]] rows IH] using rev_ind; intros Hr; csimpl.
  { rewrite decide_False; [done|]. by intros [_ ?%not_elem_of_nil]. }
  rewrite foldl_app. csimpl. destruct IH as [IH Hc]; [intros h1 e1 H1; apply Hr; set_solver|].
  set (s1 := foldl _ s rows) in *. assert (PendingChildKeys s !! (n, h0) = Some (l0, b0)) as H0 by (apply Hr; set_solver).
  rewrite fmap_app. csimpl. destruct (rename_child old new l0) as [l1|] eqn:E; simpl; (split; [|done]).
  - destruct (decide ((n', h) = (n, h0))) as [[= -> ->]|Hne].
    + rewrite lookup_insert_eq, decide_True by set_solver. rewrite H0. simpl. by rewrite E.
    + rewrite lookup_insert_ne, lookup_delete_ne by done. rewrite IH. repeat case_decide; set_solver.
  - rewrite IH. repeat case_decide; try done; [set_solver|].
    assert (n' = n /\ h = h0) as [-> ->] by set_solver. rewrite H0. simpl. by rewrite E.
Qed.

(** (C31) A hotkey swap renames the hotkey in the graph and in the pending requests:
    the new hotkey has the children and parents of the old one, with the same proportions,
    instead of its own, the old one has none left, all other edges stay; the pending request
    of the old hotkey becomes that of the new one, and every request of the subnet that
    mentions the old hotkey as a child now mentions the new one with the same proportion;
    other subnets keep their requests.  A failing swap of the relations changes nothing. *)
Theorem swap_moves_relations old new n s r s1 s' :
  relations_inv s -> parent_child_swap_hotkey ord old new n s = (r, s1) ->
  s' = swap_pending_child ord old new n s1 ->
  match r with
  | Err _ => s1 = s
  | Ok _ =>
      (forall p c, edge s' n p c = renamed old new (edge s n) p c) /\
      forall n' h,
        let before := match PendingChildKeys s !! (n, old) with
                      | Some entry => <[(n, new) := entry]> (delete (n, old) (PendingChildKeys s))
                      | None => PendingChildKeys s
                      end !! (n', h) in
        match before, PendingChildKeys s' !! (n', h) with
        | Some (l, b), Some (l', b') => b' = b /\ if decide (n' = n) then request_renamed old new l l' else l' = l
        | None, None => True
        | _, _ => False
        end
  end.
Proof.
  intros Hi Hs ->. destruct r as [[]|e]; [|by apply transactional_err in Hs].
  assert (forall h n', _) as Hf by (intros h n'; exact (swap_pending_fold old new n s1 (pending_of ord n s1) h n'
    (fun h e => proj1 (elem_of_pending_of n s1 h e)))). cbn zeta in Hf. split.
  - intros p c. rewrite <- (swap_effect old new n s s1 (live_graph _ _ (subnet_live _ _ (Hi n))) Hs p c).
    unfold edge, child_keys, swap_pending_child. by rewrite (proj2 (Hf old n)).
  - intros n' h. unfold swap_pending_child. rewrite (proj1 (Hf h n')).
    assert (match PendingChildKeys s !! (n, old) with
            | Some entry => <[(n, new) := entry]> (delete (n, old) (PendingChildKeys s))
            | None => PendingChildKeys s
            end = PendingChildKeys s1) as ->.
    { apply swap_ok in Hs as (_ & _ & _ & ->). rewrite persist_pending_of_rest. unfold move_pending. by case_match. }
    destruct (PendingChildKeys s1 !! (n', h)) as [[l b]|] eqn:El; simpl; [|by case_decide].
    case_decide as Hd; simpl; (split; [done|]).
    + rewrite decide_True by apply Hd. apply rename_child_spec.
    + rewrite decide_False; [done|]. intros ->. apply Hd. split; [done|].
      apply list_elem_of_fmap. exists (h, (l, b)). split; [done|]. by apply elem_of_pending_of.
Qed.

(** A swap leaves an empty row for the old hotkey in [ChildKeys], so that
    a later threshold check queues the old hotkey although it has no child
    relation left on that subnet. *)
Theorem swapped_hotkey_queued old new n s s' :
  relations_inv s -> old <> new -> parent_child_swap_hotkey ord old new n s = (Ok tt, s') ->
  child_keys s' old n = [] /\ ChildKeys s' !! (old, n) = Some [] /\
  old ∈ ChildkeyThresholdChecks (queue_childkey_threshold_check ord old s').
Proof.
  intros Hi Hne Hs. pose proof (live_graph _ _ (subnet_live _ _ (Hi n))) as Hg.
  apply swap_ok in Hs as (Hrel & _ & _ & ->).
  set (s1 := move_pending old new n (cleared old n s)).
  pose proof (move_pending_graph_ok old new n _ (cleared_graph_ok old n s Hg)) as Hg1.
  assert (Hrow : ChildKeys (persist_result ord (moved old new n s) n s1) !! (old, n) = Some []).
  { rewrite (persist_ChildKeys ord) by by apply graph_loop_free.
    rewrite decide_False by (intros [_ Ho]; by apply Hne). rewrite decide_False.
    - unfold s1. rewrite (proj1 (move_pending_links old new n _)), cleared_rows by done.
      by rewrite decide_True.
    - intros [_ Hin]. apply (elem_of_touched ord) in Hin as [[w Hw]%elem_of_dom|Hin].
      + rewrite moved_parents in Hw by done. by rewrite (graph_no_loop _ _ Hg) in Hw.
      + rewrite elem_of_ids_of in Hin. revert Hin. apply edge_weight_None.
        rewrite (graph_sym _ _ Hg1). unfold edge. simpl. rewrite move_pending_child_keys.
        rewrite cleared_child_keys by done. by rewrite !decide_True. }
  split_and!; [unfold child_keys; by rewrite Hrow|done|].
  unfold queue_childkey_threshold_check. rewrite (proj2 (orb_true_iff _ _)); [simpl; set_solver|].
  right. apply existsb_exists. exists ((old, n), []). split; [|by apply bool_decide_eq_true_2].
  by apply list_elem_of_In, elem_of_iter_links.
Qed.

(** ** Suspension *)

(** The two filtered readings agree: a child is shown to a parent exactly
    when that parent is shown to the child, with the same proportion, whoever is
    suspended. *)
Theorem suspended_views_agree (env : Env) s n p c w : relations_inv s ->
  (w, c) ∈ get_children env s p n <-> (w, p) ∈ get_parents env s c n.
Proof.
  intros Hi. pose proof (live_graph _ _ (subnet_live _ _ (Hi n))) as Hg.
  unfold get_parents. rewrite list_elem_of_filter. simpl.
  rewrite <- (edge_weight_Some (parent_keys s c n)) by apply Hg. rewrite (graph_sym _ _ Hg).
  unfold get_children, edge. destruct (childkeys_suspended env s p n).
  - split; [by intros ?%not_elem_of_nil|naive_solver].
  - rewrite edge_weight_Some by apply Hg. naive_solver.
Qed.

Section queue.
Context (env : Env (AccountId := AccountId)).

(** The stake test that decides the suspension flag. *)
Definition qualifies k : bool :=
  (StakeThreshold env =? 0) || (StakeThreshold env <=? get_total_stake_for_hotkey env k).

Lemma recheck_suspended ks s k :
  k ∈ ChildkeyThresholdSuspended (foldl (fun s k => recheck_childkey_threshold env k s) s ks) <->
  if decide (k ∈ ks) then qualifies k = false else k ∈ ChildkeyThresholdSuspended s.
Proof.
  revert s. induction ks as [|k0 ks IH]; intros s; simpl.
  { done. }
  rewrite IH. unfold recheck_childkey_threshold. fold (qualifies k0).
  destruct (decide (k ∈ ks)) as [Hin|Hin]; [by rewrite decide_True by by right|].
  destruct (decide (k = k0)) as [->|Hne].
  - rewrite decide_True by left. destruct (qualifies k0); simpl; set_solver.
  - rewrite decide_False by (rewrite elem_of_cons; tauto). destruct (qualifies k0); simpl; set_solver.
Qed.

Lemma recheck_frame ks s :
  let s' := foldl (fun s k => recheck_childkey_threshold env k s) s ks in
  ChildKeys s' = ChildKeys s /\ ParentKeys s' = ParentKeys s /\
  PendingChildKeys s' = PendingChildKeys s /\ ChildkeyThresholdChecks s' = ChildkeyThresholdChecks s.
Proof.
  revert s. induction ks as [|k ks IH]; intros s; [done|]. simpl.
  destruct (IH (recheck_childkey_threshold env k s)) as (-> & -> & -> & ->).
  unfold recheck_childkey_threshold. by case_match.
Qed.

Lemma dequeue_checks ks s :
  let s' := foldl (fun s k => with_checks (fun X => X ∖ {[k]}) s) s ks in
  ChildkeyThresholdChecks s' = ChildkeyThresholdChecks s ∖ list_to_set ks /\
  ChildkeyThresholdSuspended s' = ChildkeyThresholdSuspended s /\
  ChildKeys s' = ChildKeys s /\ ParentKeys s' = ParentKeys s /\ PendingChildKeys s' = PendingChildKeys s.
Proof.
  revert s. induction ks as [|k ks IH]; intros s; simpl; [split_and!; [set_solver|done..]|].
  destruct (IH (with_checks (fun X => X ∖ {[k]}) s)) as (-> & -> & -> & -> & ->). simpl.
  split_and!; [set_solver|done..].
Qed.

(** The loop re-checks a prefix of the queue and stops only for want of weight. *)
Lemma check_loop_prefix limit per ks used done s used' done' s' :
  used <= limit -> check_loop env limit per ks used done s = (used', done', s') ->
  exists front back, ks = front ++ back /\ done' = done ++ front /\
    s' = foldl (fun s k => recheck_childkey_threshold env k s) s front /\ used' <= limit /\
    (back = [] \/ limit < saturating_add u64_max used' per).
Proof.
  revert used done s. induction ks as [|k ks IH]; intros used done s Hu; simpl.
  { intros [= <- <- <-]. exists [], []. split_and!; rewrite ?app_nil_r; auto. }
  destruct (Z.ltb_spec limit (saturating_add u64_max used per)) as [Hlt|Hge].
  { intros [= <- <- <-]. exists [], (k :: ks). split_and!; rewrite ?app_nil_r; auto. }
  intros (front & back & -> & -> & -> & Hle & Hstop)%IH; [|done].
  exists (k :: front), back. rewrite <- app_assoc. split_and!; auto.
Qed.

Lemma check_loop_enough limit per ks used done s used' done' s' :
  used + per * Z.of_nat (length ks) <= limit -> 0 <= per -> 
  check_loop env limit per ks used done s = (used', done', s') -> done' = done ++ ks.
Proof.
  revert used done s. induction ks as [|k ks IH]; intros used done s Hu Hper; simpl.
  { intros [= <- <- <-]. by rewrite app_nil_r. }
  simpl in Hu. rewrite Nat2Z.inj_succ in Hu.
  destruct (Z.ltb_spec limit (saturating_add u64_max used per)) as [Hlt|Hge].
  { unfold saturating_add in Hlt. lia. }
  intros ->%IH; [by rewrite <- app_assoc| |done]. unfold saturating_add. lia.
Qed.

Lemma process_checks_run limit s used s' :
  process_childkey_threshold_checks ord env limit s = (used, s') -> reads env 2 <= limit ->
  exists front back, iter_checks ord (ChildkeyThresholdChecks s) = front ++ back /\
    (used <= limit \/ used = reads env 1) /\
    (back = [] \/ limit < saturating_add u64_max used (childkey_threshold_check_weight env)) /\
    (0 <= childkey_threshold_check_weight env ->
     reads env 2 + childkey_threshold_check_weight env *
       Z.of_nat (length (iter_checks ord (ChildkeyThresholdChecks s))) <= limit -> back = []) /\
    s' = foldl (fun s k => with_checks (fun X => X ∖ {[k]}) s)
           (foldl (fun s k => recheck_childkey_threshold env k s) s front) front.
Proof.
  unfold process_childkey_threshold_checks. intros Hp Hle.
  destruct (Z.ltb_spec limit (reads env 2)) as [?|_]; [lia|].
  destruct (iter_checks ord (ChildkeyThresholdChecks s)) as [|k ks].
  { injection Hp as <- <-. exists [], []. split_and!; auto. }
  destruct (check_loop _ _ _ _ _ _ _) as [[used' done] s1] eqn:E. injection Hp as <- <-.
  assert (Hen := fun Hl Hw => check_loop_enough _ _ _ _ _ _ _ _ _ Hl Hw E).
  apply check_loop_prefix in E as (front & back & Hk & -> & -> & Hu & Hstop); [|done].
  exists front, back. split_and!; auto. intros Hw Hl. specialize (Hen Hl Hw).
  rewrite Hk in Hen. apply (app_inv_head front). rewrite app_nil_r. by symmetry.
Qed.
End queue.

(** Draining the threshold queue never uses more weight than its
    limit, takes hotkeys off the queue in iteration order and stops early only
    because the next check would exceed the limit; every hotkey taken off is
    suspended exactly when its stake does not qualify, every other hotkey keeps
    its flag, and no relation or request changes. *)
Theorem threshold_checks_within_weight (env : Env) limit s used s' :
  0 <= db_read env -> 0 <= limit ->
  process_childkey_threshold_checks ord env limit s = (used, s') ->
  used <= limit /\
  ChildKeys s' = ChildKeys s /\ ParentKeys s' = ParentKeys s /\ PendingChildKeys s' = PendingChildKeys s /\
  exists front back, iter_checks ord (ChildkeyThresholdChecks s) = front ++ back /\
    ChildkeyThresholdChecks s' = ChildkeyThresholdChecks s ∖ list_to_set front /\
    (back = [] \/ limit < reads env 2 \/
     limit < saturating_add u64_max used (childkey_threshold_check_weight env)) /\
    forall k, k ∈ ChildkeyThresholdSuspended s' <->
      if decide (k ∈ front) then qualifies env k = false else k ∈ ChildkeyThresholdSuspended s.
Proof.
  intros Hr Hl Hp. destruct (Z.ltb_spec limit (reads env 2)) as [Hlt|Hle].
  - unfold process_childkey_threshold_checks in Hp. rewrite (proj2 (Z.ltb_lt _ _) Hlt) in Hp.
    injection Hp as <- <-. split_and!; [done..|]. exists [], (iter_checks ord (ChildkeyThresholdChecks s)).
    split_and!; [done|set_solver|auto|]. intros k. by rewrite decide_False by apply not_elem_of_nil.
  - apply process_checks_run in Hp as (front & back & Hk & Hu & Hstop & _ & ->); [|done].
    destruct (recheck_frame env front s) as (H1 & H2 & H3 & H4).
    destruct (dequeue_checks front (foldl (fun s k => recheck_childkey_threshold env k s) s front))
      as (E1 & E2 & E3 & E4 & E5).
    split_and!; [|congruence..|].
    { destruct Hu as [Hu| ->]; [done|]. unfold reads, saturating_mul in *. lia. }
    exists front, back. split_and!; [done|congruence|tauto|]. intros k. rewrite E2. apply recheck_suspended.
Qed.

(** With enough weight for the whole queue, one pass empties it, and
    afterwards every hotkey that was queued is suspended if and only if its
    stake is below the threshold. *)
Theorem threshold_queue_drains (env : Env) limit s used s' :
  0 <= childkey_threshold_check_weight env ->
  reads env 2 + childkey_threshold_check_weight env * Z.of_nat (size (ChildkeyThresholdChecks s)) <= limit ->
  process_childkey_threshold_checks ord env limit s = (used, s') ->
  ChildkeyThresholdChecks s' = ∅ /\
  forall k, k ∈ ChildkeyThresholdChecks s ->
    k ∈ ChildkeyThresholdSuspended s' <->
    StakeThreshold env <> 0 /\ get_total_stake_for_hotkey env k < StakeThreshold env.
Proof.
  intros Hw Hl Hp. pose proof (iter_checks_perm ord (ChildkeyThresholdChecks s)) as Hperm.
  apply process_checks_run in Hp as (front & back & Hk & _ & _ & Hen & ->); [|nia].
  rewrite Hen in Hk; [|done|by rewrite Hperm]. rewrite app_nil_r in Hk. rewrite Hk in Hperm.
  assert (Hks : forall k, k ∈ front <-> k ∈ ChildkeyThresholdChecks s).
  { intros k. by rewrite Hperm, elem_of_elements. }
  destruct (dequeue_checks front (foldl (fun s k => recheck_childkey_threshold env k s) s front))
    as (E1 & E2 & _). rewrite E1, E2. destruct (recheck_frame env front s) as (_ & _ & _ & ->). split.
  - apply set_eq. intros k. rewrite elem_of_difference, elem_of_list_to_set, Hks. set_solver.
  - intros k Hin. rewrite recheck_suspended, decide_True by by apply Hks.
    unfold qualifies. rewrite orb_false_iff, Z.eqb_neq, Z.leb_gt. done.
Qed.

(** ** Calls *)

(** Setting the childkey take succeeds only for the owner of the hotkey, on an
    existing subnet, with a take between the effective minimum and the maximum,
    and, when it raises the take, only when the rate limit has passed; the take
    then reads back as set and the block is recorded.  A refused call changes
    nothing. *)
Theorem take_rules (env : Env) coldkey hotkey n take s r s' :
  do_set_childkey_take env coldkey hotkey n take s = (r, s') ->
  match r with
  | Ok _ =>
      Owner env !! hotkey = Some coldkey /\ if_subnet_exist env n = true /\
      get_effective_min_childkey_take env n <= take <= MaxChildkeyTake env /\
      (take <= get_childkey_take env s hotkey n \/
       passes_rate_limit_on_subnet env s ChildKeys.SetChildkeyTake hotkey n = true) /\
      get_childkey_take env s' hotkey n = take /\
      TransactionKeyLastBlock s' !! (hotkey, n, tx_code ChildKeys.SetChildkeyTake) =
        Some (get_current_block_as_u64 env)
  | Err e => s' = s
  end.
Proof.
  destruct r as [u|e]; intros Hd.
  - unfold do_set_childkey_take in Hd. minv. bool_to_prop. unfold coldkey_owns_hotkey in *. bool_to_prop.
    match goal with Hif : (if ?b then _ else _) _ = _ |- _ => destruct b eqn:E; minv end; bool_to_prop;
      (split_and!; [done..|auto| |simpl; apply lookup_insert_eq]);
      unfold get_childkey_take; simpl; rewrite lookup_insert_eq; simpl; lia.
  - revert Hd. unfold do_set_childkey_take, ensure, gets, modify, mret, M_ret, mbind, M_bind.
    repeat case_match; intros; simplify_eq; done.
Qed.

(** Scheduling children succeeds only for the owner of the hotkey, outside the
    root network, on an existing subnet, with distinct children, and, unless the
    children are being cleared, with enough stake; a second request of the
    hotkey on the subnet is refused until the rate limit of 150 blocks has
    passed.  Once the subnet has started the request is stored with its
    cool-down block and no relation changes; before that it is applied at once.
    A refused call changes nothing. *)
Theorem schedule_rules (env : Env) origin hotkey n l s r s' :
  do_schedule_children ord env origin hotkey n l s = (r, s') ->
  match r with
  | Err e => s' = s
  | Ok _ =>
      (exists coldkey, origin = Some coldkey /\ Owner env !! hotkey = Some coldkey) /\
      n <> 0 /\ if_subnet_exist env n = true /\ NoDup l.*2 /\ (hotkey ∉ l.*2) /\
      (l = [] \/ hotkey_meets_childkey_threshold env hotkey n = true) /\
      (let last := default 0 (TransactionKeyLastBlock s !! (hotkey, n, tx_code SetChildren)) in
       last = 0 \/ 150 <= get_current_block_as_u64 env - last) /\
      s' = let s1 := set_last_block_on_subnet SetChildren hotkey n (get_current_block_as_u64 env) s in
           if SubtokenEnabled env n then
             let cooldown :=
               saturating_add u64_max (get_current_block_as_u64 env) (PendingChildKeyCooldown env) in
             deposit_event (SetChildrenScheduled hotkey n cooldown l)
               (with_pending <[(n, hotkey) := (l, cooldown)]> s1)
           else persist_pending_chidren_ok ord n hotkey l s1
  end.
Proof.
  destruct r as [[]|e]; intros Hd; [|by apply transactional_err in Hd].
  unfold do_schedule_children in Hd. minv.
  rename select (load_child_parent_relations _ _ _ _ = _) into Hload.
  rewrite load_relations_pending in Hload. apply (load_pending_ok ord) in Hload as (-> & -> & _).
  rename select (ensure_pending_consistency _ _ _ _ = _) into Hc.
  unfold ensure_pending_consistency, ensure_no_self_loop, ensure_childkey_count,
    ensure_total_proportions, ensure_bipartite_separation in Hc. minv. cbv beta in *.
  rename select (no_duplicates [] l = true) into Hnd. apply no_duplicates_spec in Hnd as [Hnd _].
  rename select (true = passes_rate_limit_on_subnet _ _ _ _ _) into Hrate. symmetry in Hrate.
  unfold passes_rate_limit_on_subnet, check_passes_rate_limit, rate_limit_on_subnet,
    saturating_sub in Hrate. apply orb_true_iff in Hrate.
  rename select ((_ || _)%bool = true) into Hst. apply orb_true_iff in Hst.
  unfold coldkey_owns_hotkey, is_root in *. bool_to_prop. simpl in *.
  split_and!; [eauto|done|done|done| | | |].
  - rename select (edges_map l !! hotkey = None) into Hself.
    by rewrite edges_map_lookup, edge_weight_None in Hself.
  - destruct Hst as [Hst|Hst]; [left|right]; by bool_to_prop.
  - destruct Hrate as [Hr|Hr]; bool_to_prop; [by left|right; lia].
  - unfold schedule_or_apply_ck in Hd. destruct (SubtokenEnabled env n); simpl in Hd; by minv.
Qed.

(** From any state of the two maps, however inconsistent, the
    repair keeps exactly the edges recorded with the same proportion on both
    sides, so that afterwards both maps record the same edges. *)
Theorem repair_restores_consistency s n p c w :
  let s' := repair_child_parent_consistency ord s in
  ((w, c) ∈ child_keys s' p n <-> (w, c) ∈ child_keys s p n /\ (w, p) ∈ parent_keys s c n) /\
  ((w, p) ∈ parent_keys s' c n <-> (w, c) ∈ child_keys s p n /\ (w, p) ∈ parent_keys s c n).
Proof.
  simpl. destruct (repair_keys s p n) as (H1 & H2 & _). destruct (repair_keys s c n) as (_ & _ & H3).
  rewrite H2, H3, H1, !matched_elem. simpl. rewrite H1, matched_elem. simpl. tauto.
Qed.
End safety.

(** ** Concrete instances *)

Module Example.

Definition ord : Order (AccountId := positive) :=
  mkOrder elements map_to_list map_to_list elements.

#[export] Instance ord_laws : OrderLaws ord.
Proof. split; by intros. Qed.

(** Hotkeys 1 to 9, owned by coldkey 20, with a hundred units of stake per
    number, on subnet 5 owned by hotkey 9. *)
Definition env : Env (AccountId := positive) :=
  mkEnv 1000 (fun k => 100 * Z.pos k) 250 {[5 := 9%positive]} (fun _ => true) 7200 (fun n => n =? 5)
    (list_to_map ((fun k => (k, 20%positive)) <$> [1; 2; 3; 4; 5; 9]%positive)) (fun _ => true)
    100 0 (fun _ => 0) 11796 2 [0; 5] [4%positive] 25 100.

(** Hotkey 3 has the children 1 and 2. *)
Definition request : list (Z * positive) := [(1000, 1%positive); (2000, 2%positive)].
Definition s3 : State := persist_pending_chidren_ok ord 5 3%positive request empty_state.
(** Hotkey 3 also asks for the single child 4 from block 900 on. *)
Definition s4 : State :=
  with_pending <[(5, 3%positive) := ([(7, 4%positive)], 900)]> s3.
(** Hotkeys 1 and 3 wait for a threshold check. *)
Definition s5 : State := with_checks (fun _ => {[1%positive; 3%positive]}) s4.

Lemma s3_inv : relations_inv s3.
Proof.
  apply persist_pending_inv; [apply ord_laws|apply empty_state_inv|].
  split; [simpl; lia|by repeat constructor].
Qed.

Lemma s4_inv : relations_inv s4.
Proof. apply with_pending_insert_inv; [apply s3_inv|]. split; [simpl; lia|by repeat constructor]. Qed.

Lemma s5_inv : relations_inv s5.
Proof. apply with_checks_inv, s4_inv. Qed.

Lemma s4_graph : graph_ok s4 5.
Proof. apply (live_graph _ _ (subnet_live _ _ (s4_inv 5))). Qed.

Definition history : list (Env * operation) :=
  [(env, ScheduleChildren (Some 20%positive) 3%positive 5 request); (env, SetPendingChildren 5);
   (env, SwapHotkey 3%positive 5%positive 5); (env, SetSubnetOwners 4%positive)].

(** [relations_always_consistent] applies to a history with four kinds of operations. *)
Lemma relations_always_consistent_witness :
  relations_inv (foldl (run_operation ord) empty_state history).
Proof.
  apply (relations_always_consistent ord history). apply list.Forall_cons. split.
  - simpl. by repeat constructor.
  - by repeat constructor.
Defined.

Definition rel4 : PCRelations (AccountId := positive) := mkPCRelations 4%positive {[2%positive := 10]} {[3%positive := 5]}.

Lemma rel4_ok : rel_ok rel4.
Proof.
  split_and!; [done..|]. intros k w. simpl. rewrite lookup_singleton. case_decide; [|done].
  subst. done.
Qed.

(** [persist_refines_graph_update] on an update around hotkey 4. *)
Lemma persist_refines_graph_update_witness :
  exists r s', persist_child_parent_relations ord rel4 5 s4 = (r, s') /\
    ((r = Err TooManyParents /\ s' = s4) \/
     (r = Ok tt /\ rest s' = rest s4 /\ graph_ok s' 5 /\
      (forall p c, edge s' 5 p c = replaced rel4 (edge s4 5) p c) /\
      (forall p c, edge_weight (parent_keys s' c 5) p = replaced rel4 (edge s4 5) p c) /\
      (forall k n', n' <> 5 -> child_keys s' k n' = child_keys s4 k n' /\
                               parent_keys s' k n' = parent_keys s4 k n'))).
Proof.
  eexists _, _. split; [apply surjective_pairing|].
  exact (persist_refines_graph_update ord rel4 5 s4 _ _ s4_graph rel4_ok (surjective_pairing _)).
Defined.

Lemma request_feasible : feasible 5 1%positive [(50, 4%positive)] s4.
Proof.
  split_and!; [done| |].
  - intros c w. rewrite edges_map_without_lookup. unfold edges_map. simpl. case_decide; [done|].
    rewrite insert_empty, lookup_singleton. case_decide; [|done]. intros _. subst. vm_compute. reflexivity.
  - intros c w. rewrite edges_map_without_lookup. unfold edges_map. simpl. case_decide; [done|].
    rewrite insert_empty, lookup_singleton. case_decide; [|done]. intros _. subst. right.
    vm_compute. lia.
Qed.

(** [request_effect] on a request of hotkey 1, itself a child, for the child 4. *)
Lemma request_effect_witness :
  feasible 5 1%positive [(50, 4%positive)] s4 /\
  (forall p c, edge (persist_pending_chidren_ok ord 5 1%positive [(50, 4%positive)] s4) 5 p c =
    if decide (p = 1%positive) then edges_map_without 1%positive [(50, 4%positive)] !! c
    else edge s4 5 p c).
Proof.
  split; [exact request_feasible|].
  exact (proj1 (proj1 (request_effect ord 5 1%positive [(50, 4%positive)] s4 s4_inv) request_feasible)).
Defined.

(** [pending_requests_served]: the request of hotkey 3 is due. *)
Lemma pending_requests_served_witness :
  pending_due env (SubtokenEnabled env 5) 900 = true /\
  PendingChildKeys (do_set_pending_children ord env 5 s4) !! (5, 3%positive) = None.
Proof.
  split; [reflexivity|].
  rewrite (proj1 (pending_requests_served ord env 5 s4 s4_inv) 3%positive 5). reflexivity.
Defined.

Definition swapped : State := (parent_child_swap_hotkey ord 3%positive 6%positive 5 s4).2.

Lemma swap_runs : parent_child_swap_hotkey ord 3%positive 6%positive 5 s4 = (Ok tt, swapped).
Proof. refine (ok_run (parent_child_swap_hotkey ord 3%positive 6%positive 5 s4) _). vm_compute. reflexivity. Qed.

(** Hotkey 9 asks for the children 3 and 4. *)
Definition s6 : State := with_pending <[(5, 9%positive) := ([(8, 3%positive); (9, 4%positive)], 950)]> s4.
Lemma s6_inv : relations_inv s6.
Proof. apply with_pending_insert_inv; [apply s4_inv|]. split; [simpl; lia|by repeat constructor]. Qed.
Definition swapped6 : State := (parent_child_swap_hotkey ord 3%positive 6%positive 5 s6).2.
Lemma swap6_runs : parent_child_swap_hotkey ord 3%positive 6%positive 5 s6 = (Ok tt, swapped6).
Proof. refine (ok_run (parent_child_swap_hotkey ord 3%positive 6%positive 5 s6) _). vm_compute. reflexivity. Qed.

(** [swap_moves_relations]: hotkey 6 takes over from hotkey 3. *)
Lemma swap_moves_relations_witness :
  let s' := swap_pending_child ord 3%positive 6%positive 5 swapped6 in
  (forall p c, edge s' 5 p c = renamed 3%positive 6%positive (edge s6 5) p c) /\
  edge s6 5 3%positive 2%positive = Some 2000 /\
  PendingChildKeys s' !! (5, 9%positive) = Some ([(9, 4%positive); (8, 6%positive)], 950).
Proof.
  split; [|vm_compute; done].
  exact (proj1 (swap_moves_relations ord 3%positive 6%positive 5 s6 _ swapped6 _ s6_inv swap6_runs eq_refl)).
Defined.

(** [swapped_hotkey_queued]: hotkey 3 is queued without children. *)
Lemma swapped_hotkey_queued_witness :
  child_keys swapped 3%positive 5 = [] /\ ChildKeys swapped !! (3%positive, 5) = Some [] /\
  3%positive ∈ ChildkeyThresholdChecks (queue_childkey_threshold_check ord 3%positive swapped).
Proof.
  exact (swapped_hotkey_queued ord 3%positive 6%positive 5 s4 swapped s4_inv ltac:(done) swap_runs).
Defined.

(** [suspended_views_agree] on an edge that is shown. *)
Lemma suspended_views_agree_witness :
  (2000, 3%positive) ∈ get_parents env s4 2%positive 5.
Proof.
  apply (suspended_views_agree env s4 5 3%positive 2%positive 2000 s4_inv).
  assert (E : get_children env s4 3%positive 5 = [(2000, 2%positive); (1000, 1%positive)])
    by (vm_compute; reflexivity).
  rewrite E. left.
Defined.

Definition checked : Z * State := process_childkey_threshold_checks ord env 1000 s5.

(** [threshold_checks_within_weight] with weight for both queued hotkeys. *)
Lemma threshold_checks_within_weight_witness : checked.1 <= 1000 /\ ChildKeys checked.2 = ChildKeys s5.
Proof.
  destruct (threshold_checks_within_weight ord env 1000 s5 checked.1 checked.2
    ltac:(done) ltac:(done) (surjective_pairing _)) as (Hu & Hc & _).
  exact (conj Hu Hc).
Defined.

(** [threshold_queue_drains]: hotkey 1 has too little stake and is suspended. *)
Lemma threshold_queue_drains_witness :
  ChildkeyThresholdChecks checked.2 = ∅ /\ 1%positive ∈ ChildkeyThresholdSuspended checked.2.
Proof.
  destruct (threshold_queue_drains ord env 1000 s5 checked.1 checked.2
    ltac:(done) ltac:(vm_compute; done) (surjective_pairing _)) as (He & Hk).
  split; [exact He|]. apply Hk; [|split; [done|reflexivity]].
  apply elem_of_union. left. by apply elem_of_singleton.
Defined.

Definition take_state : State := (do_set_childkey_take env 20%positive 3%positive 5 500 s4).2.

Lemma take_runs : do_set_childkey_take env 20%positive 3%positive 5 500 s4 = (Ok tt, take_state).
Proof. refine (ok_run (do_set_childkey_take env 20%positive 3%positive 5 500 s4) _). vm_compute. reflexivity. Qed.

(** [take_rules] on a first take. *)
Lemma take_rules_witness : get_childkey_take env take_state 3%positive 5 = 500.
Proof.
  destruct (take_rules env 20%positive 3%positive 5 500 s4 _ take_state take_runs)
    as (_ & _ & _ & _ & Ht & _). exact Ht.
Defined.

Definition scheduled : State :=
  (do_schedule_children ord env (Some 20%positive) 4%positive 5 [(9, 1%positive)] s4).2.

Lemma schedule_runs :
  do_schedule_children ord env (Some 20%positive) 4%positive 5 [(9, 1%positive)] s4 = (Ok tt, scheduled).
Proof. refine (ok_run (do_schedule_children ord env (Some 20%positive) 4%positive 5 [(9, 1%positive)] s4) _). vm_compute. reflexivity. Qed.

(** [schedule_rules] on a request of hotkey 4. *)
Lemma schedule_rules_witness :
  exists coldkey, Some 20%positive = Some coldkey /\ Owner env !! 4%positive = Some coldkey.
Proof.
  destruct (schedule_rules ord env (Some 20%positive) 4%positive 5 [(9, 1%positive)] s4 _ scheduled
    schedule_runs) as (Ho & _). exact Ho.
Defined.

(** A state in which hotkey 3 lists the child 7, who does not know of it. *)
Definition broken : State :=
  with_child_keys <[(3%positive, 5) := [(2000, 2%positive); (1, 7%positive)]]> s3.

(** [repair_restores_consistency] drops the one-sided edge of [broken]. *)
Lemma repair_restores_consistency_witness :
  ((1, 7%positive) ∈ child_keys (repair_child_parent_consistency ord broken) 3%positive 5 <->
   (1, 7%positive) ∈ child_keys broken 3%positive 5 /\ (1, 3%positive) ∈ parent_keys broken 7%positive 5) /\
  child_keys (repair_child_parent_consistency ord broken) 3%positive 5 = [(2000, 2%positive)].
Proof.
  split; [|vm_compute; reflexivity].
  exact (proj1 (repair_restores_consistency ord broken 5 3%positive 7%positive 1)).
Defined.
End Example.
