(* ===== verification/Neurons.v ===== *)
(** * Neurons: the slots of a subnet

    Models src/pallets/subtensor/src/subnets/uids.rs, the pruning part of
    subnets/registration.rs, the EVM address index of utils/evm.rs and the vector
    setters of utils/misc.rs.  A subnet has [SubnetworkN] neurons; a neuron has a
    uid, which is its position in every per-neuron vector, and a hotkey.
    Registering appends a neuron or replaces one, trimming removes the weakest
    ones and moves the others together.

    All storage of one subnet is the record [State], in groups; the subnet's
    number matters only for the root network and for the storage index of its
    mechanisms.  Hyperparameters are the record [Env].  The code of other modules
    that runs along (commitments, pending basket deposits, automatic parents, the
    stake election of Null subnets) acts on an abstract world and is a parameter.
    NeuronsSafety.v has the theorems. *)

From Stdlib Require Import ZArith Lia.
From stdpp Require Import base gmap list fin_maps.
From S2P Require Import Prelude.

Definition NULL_PRUNING_BATCH : nat := 64.
Definition NULL_UID_BUDGET : nat := 2500.
Definition GLOBAL_MAX_SUBNET_COUNT : Z := 4096.
Definition MAX_ASSOCIATED_UIDS_PER_EVM_ADDRESS : nat := 32.

Inductive Error : Type :=
| SubnetNotExists | InvalidValue | TrimmingWouldExceedMaxImmunePercentage | BasketDepositPending
| NoNeuronIdAvailable | HotKeyNotRegisteredInSubNet | NonAssociatedColdKey | InvalidIdentity
| UnableToRecoverPublicKey | InvalidRecoveredPublicKey | EvmKeyAssociationLimitExceeded
| EvmKeyAssociateRateLimitExceeded.

Inductive EpochConsensus : Type := Yuma | Null.
#[export] Instance EpochConsensus_eq_dec : EqDecision EpochConsensus.
Proof. solve_decision. Defined.

(** The maps from a hotkey to data that other modules fill in and that end with
    the neuron. *)
Inductive Item : Type :=
| LastHotkeyEmissionOnNetuid | AlphaDividendsPerSubnet | Axons | NeuronCertificates | Prometheus
| Services.
#[export] Instance Item_eq_dec : EqDecision Item.
Proof. solve_decision. Defined.

(** ** Storage indices of mechanisms *)

Definition get_mechanism_storage_index (netuid sub_id : Z) : Z :=
  saturating_add u16_max (saturating_mul u16_max sub_id GLOBAL_MAX_SUBNET_COUNT) netuid.

Definition get_netuid (netuid_index : Z) : Z :=
  if GLOBAL_MAX_SUBNET_COUNT =? 0 then 0 else netuid_index mod GLOBAL_MAX_SUBNET_COUNT.

(** ** Helpers of the language *)

(** [u16::saturating_add] and [saturating_sub] on uids and counts. *)
Definition u16_add (a b : nat) : nat :=
  Z.to_nat (saturating_add u16_max (Z.of_nat a) (Z.of_nat b)).
(** [x as u16] for an index. *)
Definition as_u16 (x : nat) : nat := Z.to_nat (Z.of_nat x mod (u16_max + 1)).

Definition set_element_at {N} (vec : list N) (position : nat) (value : N) : list N :=
  if decide (position < length vec)%nat then <[position := value]> vec else vec.

(** [Vec::resize] to a larger length. *)
Definition resize_to {A} (n : nat) (x : A) (v : list A) : list A :=
  if decide (length v < n)%nat then v ++ replicate (n - length v) x else v.

(** [StorageMap::swap]: both values are taken and put back exchanged. *)
Definition map_swap `{Countable K} {V} (i j : K) (m : gmap K V) : gmap K V :=
  partial_alter (fun _ => m !! i) j (partial_alter (fun _ => m !! j) i m).

Section neurons.
Context {AccountId : Type} `{Countable AccountId} {H160 : Type} `{Countable H160}.
Context {Data World : Type}.

Abbreviation Row := (list (nat * Z)).

(** ** State *)

Record Slots : Type := mkSlots {
  SubnetworkN : nat;
  Keys : gmap nat AccountId;
  Uids : gmap AccountId nat;
  IsNetworkMember : gset AccountId;
  BlockAtRegistration : gmap nat Z;
  HotkeySuccessor : gmap AccountId AccountId;
}.

Record Vectors : Type := mkVectors {
  Active : list bool;
  Emission : list Z;
  Consensus : list Z;
  Dividends : list Z;
  ValidatorTrust : list Z;
  ValidatorPermit : list bool;
  StakeWeight : list Z;
}.

(** Storage per mechanism, keyed by the storage index. *)
Record Mechanisms : Type := mkMechanisms {
  Incentive : gmap Z (list Z);
  ConsensusByMechanism : gmap Z (list Z);
  LastUpdate : gmap Z (list Z);
  Weights : gmap (Z * nat) Row;
  Bonds : gmap (Z * nat) Row;
  WeightCommits : gset (Z * AccountId);
  TimelockedWeightCommits : gset (Z * Z);
}.

Record Evm : Type := mkEvm {
  AssociatedEvmAddress : gmap nat (H160 * Z);
  AssociatedUidsByEvmAddress : gmap H160 Row;
}.

Inductive Event : Type :=
| NullUidsPruningProgress (target remaining removed cleared_commits : nat)
| EvmKeyAssociated (hotkey : AccountId) (evm_key : H160) (block_associated : Z).

Record State : Type := mkState {
  slots : Slots;
  vectors : Vectors;
  mechs : Mechanisms;
  evm : Evm;
  items : Item -> gmap AccountId Data;
  MaxAllowedUids : nat;
  NullPruningTarget : option nat;
  Events : list Event;
  world : World;
}.

Record Env : Type := mkEnv {
  netuid : Z;
  if_subnet_exist : bool;
  get_current_block_as_u64 : Z;
  ImmunityPeriod : Z;
  MinAllowedUids : nat;
  MinNonImmuneUids : nat;
  ImmuneOwnerUidsLimit : nat;
  SubnetOwner : AccountId;
  SubnetOwnerHotkey : option AccountId;
  Owner : gmap AccountId AccountId;
  MechanismCountCurrent : nat;
  get_epoch_consensus : EpochConsensus;
  DefaultMaxAllowedUids : nat;
  MaxImmuneUidsPercentage : Z;
}.

(** Code of other modules. *)
Record Outside : Type := mkOutside {
  purge_neuron : AccountId -> World -> World;
  (** Whether every pending credit of the hotkey was settled. *)
  flush_basket_deposits_for_hotkey : Slots -> AccountId -> World -> bool * World;
  clear_auto_parent_for_root_validator : AccountId -> World -> World;
  (** [Percent::from_rational]. *)
  percent_from_rational : nat -> nat -> Z;
  (** The stakes of [get_null_stake_weights_for_network]. *)
  get_null_stake_weights_for_network : Slots -> World -> list Z;
  get_stake_for_hotkey_on_subnet : AccountId -> World -> Z;
  (** Iteration over the keys of storage prefixes. *)
  iter_commits : gset (Z * AccountId) -> list (Z * AccountId);
  iter_timelocked : gset (Z * Z) -> list (Z * Z);
  iter_rows : gmap (Z * nat) Row -> list (Z * nat);
  iter_evm : gmap H160 Row -> list (H160 * Row);
  iter_keys : gmap nat AccountId -> list (nat * AccountId);
}.

Context (env : Env) (out : Outside).
Abbreviation Storage := (M State Error).

Definition set_slots (x : Slots) (s : State) : State :=
  mkState x (vectors s) (mechs s) (evm s) (items s) (MaxAllowedUids s) (NullPruningTarget s)
    (Events s) (world s).
Definition set_vectors (x : Vectors) (s : State) : State :=
  mkState (slots s) x (mechs s) (evm s) (items s) (MaxAllowedUids s) (NullPruningTarget s)
    (Events s) (world s).
Definition set_mechs (x : Mechanisms) (s : State) : State :=
  mkState (slots s) (vectors s) x (evm s) (items s) (MaxAllowedUids s) (NullPruningTarget s)
    (Events s) (world s).
Definition set_evm (x : Evm) (s : State) : State :=
  mkState (slots s) (vectors s) (mechs s) x (items s) (MaxAllowedUids s) (NullPruningTarget s)
    (Events s) (world s).
Definition remove_items (which : list Item) (hotkey : AccountId) (s : State) : State :=
  mkState (slots s) (vectors s) (mechs s) (evm s)
    (fun i => if decide (i ∈ which) then delete hotkey (items s i) else items s i)
    (MaxAllowedUids s) (NullPruningTarget s) (Events s) (world s).
Definition set_max_allowed (n : nat) (s : State) : State :=
  mkState (slots s) (vectors s) (mechs s) (evm s) (items s) n (NullPruningTarget s) (Events s)
    (world s).
Definition set_pruning_target (t : option nat) (s : State) : State :=
  mkState (slots s) (vectors s) (mechs s) (evm s) (items s) (MaxAllowedUids s) t (Events s) (world s).
Definition deposit_event (e : Event) (s : State) : State :=
  mkState (slots s) (vectors s) (mechs s) (evm s) (items s) (MaxAllowedUids s) (NullPruningTarget s)
    (Events s ++ [e]) (world s).
Definition set_world (w : World) (s : State) : State :=
  mkState (slots s) (vectors s) (mechs s) (evm s) (items s) (MaxAllowedUids s) (NullPruningTarget s)
    (Events s) w.

(** The storage indices of the mechanisms, [0..MechanismCountCurrent]. *)
Definition mech_indices : list Z :=
  (fun mecid => get_mechanism_storage_index (netuid env) (Z.of_nat mecid)) <$>
    seq 0 (MechanismCountCurrent env).

Definition is_root : bool := netuid env =? 0.

(** ** Reads *)

Definition get_subnetwork_n (s : State) : nat := SubnetworkN (slots s).

Definition is_uid_exist_on_network (s : State) (uid : nat) : bool :=
  bool_decide (is_Some (Keys (slots s) !! uid)).
Definition is_hotkey_registered_on_network (s : State) (hotkey : AccountId) : bool :=
  bool_decide (is_Some (Uids (slots s) !! hotkey)).
Definition get_hotkey_for_net_and_uid (s : State) (uid : nat) : result AccountId Error :=
  match Keys (slots s) !! uid with Some h => Ok h | None => Err HotKeyNotRegisteredInSubNet end.
Definition get_uid_for_net_and_hotkey (s : State) (hotkey : AccountId) : result nat Error :=
  match Uids (slots s) !! hotkey with Some u => Ok u | None => Err HotKeyNotRegisteredInSubNet end.

Definition get_neuron_block_at_registration (s : State) (uid : nat) : Z :=
  default 0 (BlockAtRegistration (slots s) !! uid).

Definition get_neuron_is_immune (s : State) (uid : nat) : bool :=
  saturating_sub (get_current_block_as_u64 env) (get_neuron_block_at_registration s uid)
    <? ImmunityPeriod env.

(** Every index used is one of this subnet, so that [get_netuid] gives it back. *)
Definition get_last_update (s : State) (index : Z) : list Z :=
  resize_to (get_subnetwork_n s) 0 (default [] (LastUpdate (mechs s) !! index)).

(** ** The EVM address index *)

Definition remove_uid_from_evm_address_index (evm_key : H160) (uid : nat) (e : Evm) : Evm :=
  match AssociatedUidsByEvmAddress e !! evm_key with
  | None => e
  | Some uids =>
      let uids := filter (fun r => r.1 <> uid) uids in
      mkEvm (AssociatedEvmAddress e)
        (if decide (uids = []) then delete evm_key (AssociatedUidsByEvmAddress e)
         else <[evm_key := uids]> (AssociatedUidsByEvmAddress e))
  end.

Definition remove_associated_evm_address (uid : nat) (e : Evm) : Evm :=
  match AssociatedEvmAddress e !! uid with
  | Some (evm_key, _) =>
      remove_uid_from_evm_address_index evm_key uid
        (mkEvm (delete uid (AssociatedEvmAddress e)) (AssociatedUidsByEvmAddress e))
  | None => e
  end.

(** One bucket with its uids renamed, and whether anything changed. *)
Fixpoint remap_bucket (old_to_new_uid : gmap nat nat) (bucket : Row) : Row * bool :=
  match bucket with
  | [] => ([], false)
  | (uid, b) :: bucket =>
      let '(rest, changed) := remap_bucket old_to_new_uid bucket in
      match old_to_new_uid !! uid with
      | Some new_uid =>
          if decide (uid <> as_u16 new_uid) then ((as_u16 new_uid, b) :: rest, true)
          else ((uid, b) :: rest, changed)
      | None => ((uid, b) :: rest, changed)
      end
  end.

Definition remap_associated_evm_address_index (old_to_new_uid : gmap nat nat) (e : Evm) : Evm :=
  let updates :=
    omap (fun '(evm_key, bucket) =>
            let '(bucket, changed) := remap_bucket old_to_new_uid bucket in
            if changed : bool then Some (evm_key, bucket) else None)
      (iter_evm out (AssociatedUidsByEvmAddress e)) in
  mkEvm (AssociatedEvmAddress e)
    (foldl (fun m '(evm_key, bucket) => <[evm_key := bucket]> m) (AssociatedUidsByEvmAddress e) updates).

(** ** Vectors *)

Definition set_active_for_uid (uid : nat) (active : bool) (s : State) : State :=
  let v := vectors s in
  match Active v !! uid with
  | None => s
  | Some _ =>
      set_vectors (mkVectors (<[uid := active]> (Active v)) (Emission v) (Consensus v) (Dividends v)
        (ValidatorTrust v) (ValidatorPermit v) (StakeWeight v)) s
  end.

Definition set_last_update_for_uid (index : Z) (uid : nat) (last_update : Z) (s : State) : State :=
  let v := get_last_update s index in
  match v !! uid with
  | None => s
  | Some _ =>
      let m := mechs s in
      set_mechs (mkMechanisms (Incentive m) (ConsensusByMechanism m)
        (<[index := <[uid := last_update]> v]> (LastUpdate m)) (Weights m) (Bonds m)
        (WeightCommits m) (TimelockedWeightCommits m)) s
  end.

(** The weights another neuron gave to [uid] become zero. *)
Definition zero_weight (uid : nat) (row : Row) : Row :=
  (fun e => if decide (e.1 = uid) then (e.1, 0) else e) <$> row.

(** The body of the loop over mechanisms in [clear_neuron]. *)
Definition clear_mechanism (uid : nat) (m : Mechanisms) (index : Z) : Mechanisms :=
  mkMechanisms
    (<[index := set_element_at (default [] (Incentive m !! index)) uid 0]> (Incentive m))
    (match ConsensusByMechanism m !! index with
     | Some v => <[index := set_element_at v uid 0]> (ConsensusByMechanism m)
     | None => ConsensusByMechanism m
     end)
    (LastUpdate m)
    (map_imap (fun k row => Some (if decide (k.1 = index) then zero_weight uid row else row))
       (delete (index, uid) (Weights m)))
    (delete (index, uid) (Bonds m))
    (WeightCommits m) (TimelockedWeightCommits m).

Definition clear_neuron (uid : nat) (s : State) : State :=
  let v := vectors s in
  let s := set_mechs (foldl (clear_mechanism uid) (mechs s) mech_indices) s in
  set_vectors (mkVectors (Active v) (set_element_at (Emission v) uid 0)
    (set_element_at (Consensus v) uid 0) (set_element_at (Dividends v) uid 0)
    (set_element_at (ValidatorTrust v) uid 0) (set_element_at (ValidatorPermit v) uid false)
    (set_element_at (StakeWeight v) uid 0)) s.

(** ** Registration *)

Definition clear_stale_hotkey_successor (hotkey : AccountId) (x : Slots) : Slots :=
  mkSlots (SubnetworkN x) (Keys x) (Uids x) (IsNetworkMember x) (BlockAtRegistration x)
    (delete hotkey (HotkeySuccessor x)).

(** The associations of a new neuron. *)
Definition occupy (uid : nat) (hotkey : AccountId) (block_number : Z) (x : Slots) : Slots :=
  clear_stale_hotkey_successor hotkey
    (mkSlots (SubnetworkN x) (<[uid := hotkey]> (Keys x)) (<[hotkey := uid]> (Uids x))
       ({[hotkey]} ∪ IsNetworkMember x) (<[uid := block_number]> (BlockAtRegistration x))
       (HotkeySuccessor x)).

Definition append_neuron (new_hotkey : AccountId) (block_number : Z) (s : State) : State :=
  let next_uid := get_subnetwork_n s in
  let x := slots s in
  let s := set_slots (mkSlots (u16_add next_uid 1) (Keys x) (Uids x) (IsNetworkMember x)
             (BlockAtRegistration x) (HotkeySuccessor x)) s in
  let v := vectors s in
  let s := foldl (fun s index =>
      let m := mechs s in
      set_last_update_for_uid index next_uid block_number
        (set_mechs (mkMechanisms
          (<[index := default [] (Incentive m !! index) ++ [0]]> (Incentive m))
          (ConsensusByMechanism m) (LastUpdate m) (Weights m) (Bonds m) (WeightCommits m)
          (TimelockedWeightCommits m)) s))
      s mech_indices in
  let s := set_vectors (mkVectors (Active v ++ [true]) (Emission v ++ [0]) (Consensus v ++ [0])
             (Dividends v ++ [0]) (ValidatorTrust v ++ [0]) (ValidatorPermit v ++ [false])
             (StakeWeight v)) s in
  set_slots (occupy next_uid new_hotkey block_number (slots s)) s.

Definition prepare_root_neuron_for_removal (hotkey : AccountId) (s : State) : bool * State :=
  let '(completed, w) := flush_basket_deposits_for_hotkey out (slots s) hotkey (world s) in
  (completed, set_world (if completed then clear_auto_parent_for_root_validator out hotkey w else w) s).

(** The memberships of the old hotkey are dropped. *)
Definition vacate (uid : nat) (hotkey : AccountId) (x : Slots) : Slots :=
  mkSlots (SubnetworkN x) (delete uid (Keys x)) (delete hotkey (Uids x))
    (IsNetworkMember x ∖ {[hotkey]}) (BlockAtRegistration x) (HotkeySuccessor x).

(** [default_hotkey] is the default value of [Keys]. *)
Definition replace_neuron (default_hotkey : AccountId) (uid_to_replace : nat) (new_hotkey : AccountId)
    (block_number : Z) (s : State) : bool * State :=
  let old_hotkey := default default_hotkey (Keys (slots s) !! uid_to_replace) in
  if bool_decide (SubnetOwnerHotkey env = Some old_hotkey) then (false, s)
  else
    let '(settled, s) := if is_root then prepare_root_neuron_for_removal old_hotkey s else (true, s) in
    if negb settled then (false, s)
    else
      let s := set_world (purge_neuron out old_hotkey (world s)) s in
      let s := set_evm (remove_associated_evm_address uid_to_replace (evm s)) s in
      let s := set_slots (vacate uid_to_replace old_hotkey (slots s)) s in
      let s := if is_root
               then set_world (flush_basket_deposits_for_hotkey out (slots s) old_hotkey (world s)).2 s
               else s in
      let s := set_active_for_uid uid_to_replace true s in
      let s := set_slots (occupy uid_to_replace new_hotkey block_number (slots s)) s in
      let s := remove_items [Axons; NeuronCertificates; Prometheus; Services] old_hotkey s in
      let s := clear_neuron uid_to_replace s in
      (true, foldl (fun s index => set_last_update_for_uid index uid_to_replace block_number s)
               s mech_indices).

(** ** Which neuron to prune *)

(** Registration block, uid and hotkey of the neurons owned by [coldkey]. *)
Definition owner_triples (s : State) (coldkey : AccountId) : list (Z * nat * AccountId) :=
  omap (fun uid =>
      match Keys (slots s) !! uid with
      | Some hotkey =>
          if decide (Owner env !! hotkey = Some coldkey)
          then Some (get_neuron_block_at_registration s uid, uid, hotkey)
          else None
      | None => None
      end) (seq 0 (get_subnetwork_n s)).

(** Ascending by registration block, then by uid. *)
Definition triple_leb (a b : Z * nat * AccountId) : bool :=
  match a.1.1 ?= b.1.1 with
  | Lt => true
  | Eq => bool_decide (a.1.2 <= b.1.2)%nat
  | Gt => false
  end.

Definition get_immune_owner_tuples (s : State) (coldkey : AccountId) : list (nat * AccountId) :=
  let limit := ImmuneOwnerUidsLimit env in
  let triples := sort_by triple_leb (owner_triples s coldkey) in
  let immune_tuples := (fun t => (t.1.2, t.2)) <$> take limit triples in
  match SubnetOwnerHotkey env with
  | Some owner_hk =>
      match Uids (slots s) !! owner_hk with
      | Some owner_uid =>
          if decide ((owner_uid, owner_hk) ∈ immune_tuples) then immune_tuples
          else take limit ((owner_uid, owner_hk) :: immune_tuples)
      | None => immune_tuples
      end
  | None => immune_tuples
  end.

Definition get_immune_owner_hotkeys (s : State) (coldkey : AccountId) : list AccountId :=
  (get_immune_owner_tuples s coldkey).*2.
Definition get_immune_owner_uids (s : State) (coldkey : AccountId) : list nat :=
  (get_immune_owner_tuples s coldkey).*1.

(** A candidate: emission (or stake), registration block and uid. *)
Abbreviation Candidate := (Z * Z * nat)%type.

(** [a] is pruned before [b]. *)
Definition better (a b : Candidate) : bool :=
  if negb (a.1.1 =? b.1.1) then a.1.1 <? b.1.1
  else if negb (a.1.2 =? b.1.2) then a.1.2 <? b.1.2
  else bool_decide (a.2 < b.2)%nat.

Definition consider (c : Candidate) (best : option Candidate) : option Candidate :=
  match best with
  | None => Some c
  | Some b => if better c b then Some c else Some b
  end.

(** The candidates among [uids]: not held by an immortal hotkey. *)
Definition prune_candidate (s : State) (immortal : list AccountId) (uid : nat) : option Candidate :=
  match Keys (slots s) !! uid with
  | None => None
  | Some hk =>
      if decide (hk ∈ immortal) then None
      else Some (default 0 (Emission (vectors s) !! uid), get_neuron_block_at_registration s uid, uid)
  end.

(** The single pass: the free neurons counted, the best candidate among those
    not immune and the best among the immune ones. *)
Fixpoint prune_scan (s : State) (immortal : list AccountId) (uids : list nat) (free_count : nat)
    (best_non_immune best_immune : option Candidate) : nat * option Candidate * option Candidate :=
  match uids with
  | [] => (free_count, best_non_immune, best_immune)
  | uid :: uids =>
      match prune_candidate s immortal uid with
      | None => prune_scan s immortal uids free_count best_non_immune best_immune
      | Some c =>
          if get_neuron_is_immune s uid
          then prune_scan s immortal uids free_count best_non_immune (consider c best_immune)
          else prune_scan s immortal uids (u16_add free_count 1) (consider c best_non_immune) best_immune
      end
  end.

Definition get_neuron_to_prune (s : State) : option nat :=
  let n := get_subnetwork_n s in
  if (n =? 0)%nat then None
  else
    let immortal_hotkeys := get_immune_owner_hotkeys s (SubnetOwner env) in
    let '(free_count, best_non_immune, best_immune) :=
      prune_scan s immortal_hotkeys (seq 0 n) 0 None None in
    match best_non_immune, best_immune with
    | None, None => None
    | _, _ =>
        match best_non_immune with
        | Some (_, uid) =>
            if (MinNonImmuneUids env <? free_count)%nat then Some uid
            else snd <$> best_immune
        | None => snd <$> best_immune
        end
    end.

Definition get_root_neuron_to_prune (s : State) : option nat :=
  snd <$> foldl (fun best '(uid, hotkey) =>
      if get_neuron_is_immune s uid then best
      else consider (get_stake_for_hotkey_on_subnet out hotkey (world s),
                     get_neuron_block_at_registration s uid, uid) best)
    None (iter_keys out (Keys (slots s))).

Definition register_neuron (default_hotkey hotkey : AccountId) : Storage nat := fun s =>
  let block_number := get_current_block_as_u64 env in
  let current_subnetwork_n := get_subnetwork_n s in
  if (current_subnetwork_n <? MaxAllowedUids s)%nat then
    (Ok current_subnetwork_n, append_neuron hotkey block_number s)
  else
    match get_neuron_to_prune s with
    | Some uid_to_replace =>
        let '(replaced, s) := replace_neuron default_hotkey uid_to_replace hotkey block_number s in
        if replaced : bool then (Ok uid_to_replace, s) else (Err NoNeuronIdAvailable, s)
    | None => (Err NoNeuronIdAvailable, s)
    end.

(** ** Trimming *)

(** The storage of a neuron that is trimmed away: first what hangs on its hotkey,
    if it has one, then what hangs on its uid. *)
Definition trim_hotkey (uid : nat) (hotkey : AccountId) : Storage unit :=
  modify (fun s => set_world (purge_neuron out hotkey (world s)) s);;
  prepared ← (fun s => if is_root then let '(b, s) := prepare_root_neuron_for_removal hotkey s in (Ok b, s)
                       else (Ok true, s)) : Storage bool;
  ensure prepared BasketDepositPending;;
  modify (fun s =>
    let x := slots s in
    let s := set_slots (mkSlots (SubnetworkN x) (Keys x) (delete hotkey (Uids x))
               (IsNetworkMember x ∖ {[hotkey]}) (BlockAtRegistration x) (HotkeySuccessor x)) s in
    let s := remove_items [LastHotkeyEmissionOnNetuid; AlphaDividendsPerSubnet; Axons;
               NeuronCertificates; Prometheus; Services] hotkey s in
    if is_root then set_world (flush_basket_deposits_for_hotkey out (slots s) hotkey (world s)).2 s else s).

Definition trim_uid (uid : nat) (s : State) : State :=
  let x := slots s in
  let s := set_slots (mkSlots (SubnetworkN x) (delete uid (Keys x)) (Uids x) (IsNetworkMember x)
             (delete uid (BlockAtRegistration x)) (HotkeySuccessor x)) s in
  let s := set_evm (remove_associated_evm_address uid (evm s)) s in
  foldl (fun s index =>
      let m := mechs s in
      set_mechs (mkMechanisms (Incentive m) (ConsensusByMechanism m) (LastUpdate m)
        (delete (index, uid) (Weights m)) (delete (index, uid) (Bonds m)) (WeightCommits m)
        (TimelockedWeightCommits m)) s)
    s mech_indices.

Definition trim_neuron (uid : nat) : Storage unit :=
  hotkey ← gets (fun s => Keys (slots s) !! uid);
  (match hotkey with Some hotkey => trim_hotkey uid hotkey | None => mret tt end);;
  modify (trim_uid uid).

(** The loop from the lowest emitter up: the remaining emissions, the removed
    uids and the number of uids left. *)
Fixpoint trim_loop (owner_uids : list nat) (max_n i : nat) (emissions : list (nat * Z))
    (removed : list nat) (uids_left : nat) : Storage (list (nat * Z) * list nat * nat) :=
  match i with
  | O => mret (emissions, removed, uids_left)
  | Datatypes.S i =>
      if decide (uids_left = max_n) then mret (emissions, removed, uids_left)
      else
        match emissions !! i with
        | None => trim_loop owner_uids max_n i emissions removed uids_left
        | Some (uid, _) =>
            let neuron_uid := as_u16 uid in
            immune ← gets (fun s => bool_decide (neuron_uid ∈ owner_uids) || get_neuron_is_immune s neuron_uid);
            if immune : bool then trim_loop owner_uids max_n i emissions removed uids_left
            else
              trim_neuron neuron_uid;;
              trim_loop owner_uids max_n i (delete i emissions) (uid :: removed) (uids_left - 1)%nat
        end
  end.

(** Highest emission first. *)
Definition by_emission (a b : nat * Z) : bool := b.2 <=? a.2.
Definition by_uid {B} (a b : nat * B) : bool := bool_decide (a.1 <= b.1)%nat.

(** Null subnets fill the holes from the tail: the old uid of every new slot. *)
Definition null_layout (max_n : nat) (removed kept : list nat) : option (list nat) :=
  let holes := filter (fun uid => uid ∈ removed) (seq 0 max_n) in
  let tails := filter (fun uid => max_n <= uid)%nat kept in
  if (length holes =? length tails)%nat then
    Some (foldl (fun us '(hole, tail) => if decide (hole < length us)%nat then <[hole := tail]> us else us)
            (seq 0 max_n) (zip holes tails))
  else None.

(** The emissions by old uid, zero for the removed ones. *)
Definition original_emission (current_n : nat) (kept : list (nat * Z)) : list Z :=
  foldl (fun v '(uid, e) => set_element_at v uid e) (replicate current_n 0) kept.

(** The values of the kept uids, in their new order. *)
Definition pick {A} (d : A) (v : list A) (us : list nat) : list A :=
  (fun uid => default d (v !! uid)) <$> us.

Definition trim_vectors (us : list nat) (emissions : list Z) (v : Vectors) : Vectors :=
  mkVectors (pick false (Active v) us) emissions (pick 0 (Consensus v) us) (pick 0 (Dividends v) us)
    (pick 0 (ValidatorTrust v) us) (pick false (ValidatorPermit v) us) (pick 0 (StakeWeight v) us).

Definition trim_mechanism (us : list nat) (m : Mechanisms) (index : Z) : Mechanisms :=
  mkMechanisms
    (<[index := pick 0 (default [] (Incentive m !! index)) us]> (Incentive m))
    (match ConsensusByMechanism m !! index with
     | Some c => <[index := pick 0 c us]> (ConsensusByMechanism m)
     | None => ConsensusByMechanism m
     end)
    (<[index := pick 0 (default [] (LastUpdate m !! index)) us]> (LastUpdate m))
    (Weights m) (Bonds m) (WeightCommits m) (TimelockedWeightCommits m).

(** [old_to_new_uid], and its entries in the order of the [BTreeMap]. *)
Definition uid_map (us : list nat) : gmap nat nat :=
  foldl (fun m '(old, new) => <[old := new]> m) ∅ (imap (fun new old => (old, new)) us).
Definition uid_moves (m : gmap nat nat) : list (nat * nat) := sort_by by_uid (map_to_list m).

Definition remap_row (old_to_new_uid : gmap nat nat) (row : Row) : Row :=
  omap (fun e => match old_to_new_uid !! e.1 with
                 | Some new => Some (as_u16 new, e.2)
                 | None => None
                 end) row.

Definition swap_slots (old new : nat) (s : State) : State :=
  let x := slots s in
  let s := set_slots (mkSlots (SubnetworkN x) (map_swap old new (Keys x)) (Uids x) (IsNetworkMember x)
             (map_swap old new (BlockAtRegistration x)) (HotkeySuccessor x)) s in
  set_evm (mkEvm (map_swap old new (AssociatedEvmAddress (evm s)))
             (AssociatedUidsByEvmAddress (evm s))) s.

Definition set_uid (hotkey : AccountId) (uid : nat) (s : State) : State :=
  let x := slots s in
  set_slots (mkSlots (SubnetworkN x) (Keys x) (<[hotkey := uid]> (Uids x)) (IsNetworkMember x)
    (BlockAtRegistration x) (HotkeySuccessor x)) s.

(** The rows of the neuron at [old] move to [new] with their targets renamed. *)
Definition swap_rows (old_to_new_uid : gmap nat nat) (old new : nat) (m : gmap (Z * nat) Row) (index : Z)
    : gmap (Z * nat) Row :=
  let m := map_swap (index, old) (index, new) m in
  <[(index, new) := remap_row old_to_new_uid (default [] (m !! (index, new)))]> m.

Definition move_mechanism (old_to_new_uid : gmap nat nat) (old new : nat) (m : Mechanisms) (index : Z)
    : Mechanisms :=
  mkMechanisms (Incentive m) (ConsensusByMechanism m) (LastUpdate m)
    (swap_rows old_to_new_uid old new (Weights m) index)
    (swap_rows old_to_new_uid old new (Bonds m) index) (WeightCommits m) (TimelockedWeightCommits m).

(** One iteration of the loop over [old_to_new_uid]. *)
Definition move_neuron (is_null : bool) (default_hotkey : AccountId) (old_to_new_uid : gmap nat nat)
    (s : State) (move : nat * nat) : State :=
  let old := as_u16 move.1 in
  let new := as_u16 move.2 in
  if is_null then
    if decide (old <> new) then
      let s := swap_slots old new s in
      set_uid (default default_hotkey (Keys (slots s) !! new)) new s
    else s
  else
    let s := swap_slots old new s in
    set_mechs (foldl (move_mechanism old_to_new_uid old new) (mechs s) mech_indices) s.

(** Rows of a Null subnet: [targets.get(uid).copied().flatten()]. *)
Definition target_of (old_n : nat) (mapping : gmap nat nat) (uid : nat) : option nat :=
  if decide (uid < old_n)%nat then as_u16 <$> mapping !! uid else None.

Definition remap_targets (old_n : nat) (mapping : gmap nat nat) (row : Row) : Row :=
  omap (fun e => (fun uid => (uid, e.2)) <$> target_of old_n mapping e.1) row.

Definition row_keys (index : Z) (m : gmap (Z * nat) Row) : list nat :=
  omap (fun k => if decide (k.1 = index) then Some k.2 else None) (iter_rows out m).

(** A row that stays is rewritten only if it moves or changes. *)
Definition relocate_row (old_n : nat) (mapping : gmap nat nat) (index : Z) (old new : nat)
    (m : gmap (Z * nat) Row) : gmap (Z * nat) Row :=
  let original := default [] (m !! (index, old)) in
  let remapped := remap_targets old_n mapping original in
  let m := if decide (new <> old) then delete (index, old) m else m in
  if decide (new <> old \/ remapped <> original) then <[(index, new) := remapped]> m else m.

Definition remap_weight_row (old_n : nat) (mapping : gmap nat nat) (permits : list bool) (index : Z)
    (m : gmap (Z * nat) Row) (old : nat) : gmap (Z * nat) Row :=
  match target_of old_n mapping old with
  | Some new => if default false (permits !! old) then relocate_row old_n mapping index old new m
                else delete (index, old) m
  | None => delete (index, old) m
  end.

Definition set_weights (w : gmap (Z * nat) Row) (s : State) : State :=
  let m := mechs s in
  set_mechs (mkMechanisms (Incentive m) (ConsensusByMechanism m) (LastUpdate m) w (Bonds m)
    (WeightCommits m) (TimelockedWeightCommits m)) s.
Definition set_bonds (b : gmap (Z * nat) Row) (s : State) : State :=
  let m := mechs s in
  set_mechs (mkMechanisms (Incentive m) (ConsensusByMechanism m) (LastUpdate m) (Weights m) b
    (WeightCommits m) (TimelockedWeightCommits m)) s.

Definition remap_bond_row (frozen_limit old_n : nat) (mapping : gmap nat nat) (index : Z) (old : nat)
    : Storage unit :=
  original ← gets (fun s => default [] (Bonds (mechs s) !! (index, old)));
  ensure (bool_decide (length original <= frozen_limit)%nat) InvalidValue;;
  modify (fun s =>
    match target_of old_n mapping old with
    | Some new => set_bonds (relocate_row old_n mapping index old new (Bonds (mechs s))) s
    | None => set_bonds (delete (index, old) (Bonds (mechs s))) s
    end).

Definition epoch_uid_budget (mode : EpochConsensus) : nat :=
  match mode with Yuma => DefaultMaxAllowedUids env | Null => NULL_UID_BUDGET end.

Definition remap_null_pruning_rows (old_n : nat) (mapping : gmap nat nat) (permits : list bool)
    : Storage unit :=
  let frozen_limit := epoch_uid_budget Yuma in
  _ ← fold_m mech_indices 0%nat (fun frozen_rows_seen index =>
    keys ← gets (fun s => take (old_n + 1) (row_keys index (Weights (mechs s))));
    ensure (bool_decide (length keys <= old_n)%nat) InvalidValue;;
    for_each keys (fun old => modify (fun s =>
      set_weights (remap_weight_row old_n mapping permits index (Weights (mechs s)) old) s));;
    bonds ← gets (fun s => take (frozen_limit + 1) (row_keys index (Bonds (mechs s))));
    let seen := (frozen_rows_seen + length bonds)%nat in
    ensure (bool_decide (seen <= frozen_limit)%nat) InvalidValue;;
    for_each bonds (remap_bond_row frozen_limit old_n mapping index);;
    mret seen);
  mret tt.

(** The first of the largest stakes. *)
Definition null_validator_winner (stakes : list Z) : option nat :=
  foldl (fun winner '(uid, stake) =>
      match winner with
      | None => Some uid
      | Some previous =>
          match stakes !! previous with
          | Some old => if old <? stake then Some uid else winner
          | None => winner
          end
      end) None (indexed stakes).

(** How many uids cannot be removed now. *)
Definition immune_count (s : State) (owner_uids : list nat) : nat :=
  foldl (fun count uid =>
      if bool_decide (uid ∈ owner_uids) || get_neuron_is_immune s uid then u16_add count 1 else count)
    0%nat (seq 0 (get_subnetwork_n s)).

(** The prefix of [Uids] is cleared without a limit, which leaves nothing. *)
Definition reinsert_uids (default_hotkey : AccountId) (moves : list (nat * nat)) (s : State) : State :=
  let x := slots s in
  let s := set_slots (mkSlots (SubnetworkN x) (Keys x) ∅ (IsNetworkMember x) (BlockAtRegistration x)
             (HotkeySuccessor x)) s in
  foldl (fun s move =>
      set_uid (default default_hotkey (Keys (slots s) !! as_u16 move.2)) (as_u16 move.2) s) s moves.

Definition set_subnetwork_n (n : nat) (s : State) : State :=
  let x := slots s in
  set_slots (mkSlots n (Keys x) (Uids x) (IsNetworkMember x) (BlockAtRegistration x)
    (HotkeySuccessor x)) s.

(** The election of the sole permit holder of a Null subnet. *)
Definition elect_permit (s : State) : State :=
  let stakes := get_null_stake_weights_for_network out (slots s) (world s) in
  let winner := null_validator_winner stakes in
  let v := vectors s in
  set_vectors (mkVectors (Active v) (Emission v) (Consensus v) (Dividends v) (ValidatorTrust v)
    ((fun uid => bool_decide (Some uid = winner)) <$> seq 0 (length stakes)) (StakeWeight v)) s.

(** From the kept uids on: the layout, the vectors, the moves. *)
Definition compact (default_hotkey : AccountId) (current_n max_n : nat) (emissions : list (nat * Z))
    (removed : list nat) : Storage unit :=
  let is_null := bool_decide (get_epoch_consensus env = Null) in
  let kept := sort_by by_uid emissions in
  layout ← (if is_null then
              let original := original_emission current_n kept in
              us ← ok_or (null_layout max_n removed kept.*1) InvalidValue;
              mret (us, pick 0 original us)
            else mret (kept.*1, kept.*2)) : Storage (list nat * list Z);
  let '(us, es) := layout in
  vpermit ← gets (fun s => ValidatorPermit (vectors s));
  modify (fun s => set_vectors (trim_vectors us es (vectors s)) s);;
  modify (fun s => set_mechs (foldl (trim_mechanism us) (mechs s) mech_indices) s);;
  let old_to_new_uid := uid_map us in
  let moves := uid_moves old_to_new_uid in
  modify (fun s => foldl (move_neuron is_null default_hotkey old_to_new_uid) s moves);;
  modify (fun s => set_evm (remap_associated_evm_address_index old_to_new_uid (evm s)) s);;
  (if is_null then remap_null_pruning_rows current_n old_to_new_uid vpermit
   else modify (reinsert_uids default_hotkey moves));;
  modify (set_subnetwork_n max_n);;
  (if is_null then modify elect_permit else mret tt).

Definition trim_uids_impl (default_hotkey : AccountId) (max_n : nat) : Storage unit :=
  ensure (if_subnet_exist env) SubnetNotExists;;
  ensure (bool_decide (MinAllowedUids env <= max_n)%nat) InvalidValue;;
  max ← gets MaxAllowedUids;
  ensure (bool_decide (max_n <= max)%nat) InvalidValue;;
  modify (set_max_allowed max_n);;
  current_n ← gets get_subnetwork_n;
  if decide (max_n < current_n)%nat then
    owner_uids ← gets (fun s => get_immune_owner_uids s (SubnetOwner env));
    immune ← gets (fun s => immune_count s owner_uids);
    ensure (percent_from_rational out immune max_n <? MaxImmuneUidsPercentage env)
      TrimmingWouldExceedMaxImmunePercentage;;
    emissions ← gets (fun s => sort_by by_emission (indexed (Emission (vectors s))));
    trimmed ← trim_loop owner_uids max_n current_n emissions [] current_n;
    let '(emissions, removed, uids_left) := trimmed in
    ensure (bool_decide (uids_left = max_n)) InvalidValue;;
    compact default_hotkey current_n max_n emissions removed
  else mret tt.

(** The loop of [clear_null_pruning_commits] over one prefix: removes at most
    [budget] keys and says whether more were there. *)
Definition clear_prefix {K} (remove : K -> State -> State) (keys : list K) (budget cleared : nat)
    (s : State) : bool * nat * nat * State :=
  let keys := take (budget + 1) keys in
  let has_more := (budget <? length keys)%nat in
  let keys := take budget keys in
  (has_more, (budget - length keys)%nat, (cleared + length keys)%nat,
   foldl (fun s k => remove k s) s keys).

Definition remove_commit (k : Z * AccountId) (s : State) : State :=
  let m := mechs s in
  set_mechs (mkMechanisms (Incentive m) (ConsensusByMechanism m) (LastUpdate m) (Weights m) (Bonds m)
    (WeightCommits m ∖ {[k]}) (TimelockedWeightCommits m)) s.
Definition remove_timelocked (k : Z * Z) (s : State) : State :=
  let m := mechs s in
  set_mechs (mkMechanisms (Incentive m) (ConsensusByMechanism m) (LastUpdate m) (Weights m) (Bonds m)
    (WeightCommits m) (TimelockedWeightCommits m ∖ {[k]})) s.

Fixpoint clear_commits (indices : list Z) (budget cleared : nat) (s : State) : bool * nat * State :=
  match indices with
  | [] => (true, cleared, s)
  | index :: indices =>
      let keys := filter (fun k => k.1 = index) (iter_commits out (WeightCommits (mechs s))) in
      let '(more, budget, cleared, s) := clear_prefix remove_commit keys budget cleared s in
      if more : bool then (false, cleared, s)
      else
        let keys := filter (fun k => k.1 = index) (iter_timelocked out (TimelockedWeightCommits (mechs s))) in
        let '(more, budget, cleared, s) := clear_prefix remove_timelocked keys budget cleared s in
        if more : bool then (false, cleared, s) else clear_commits indices budget cleared s
  end.

Definition clear_null_pruning_commits : Storage (bool * nat) := fun s =>
  let '(clean, cleared, s) := clear_commits mech_indices NULL_UID_BUDGET 0 s in (Ok (clean, cleared), s).

Definition trim_to_max_allowed_uids (default_hotkey : AccountId) (max_n : nat) : Storage unit :=
  transactional (
    n ← gets get_subnetwork_n;
    let is_null := bool_decide (get_epoch_consensus env = Null) in
    ensure (negb is_null || bool_decide (n - max_n <= NULL_PRUNING_BATCH)%nat) InvalidValue;;
    (if is_null && (max_n <? n)%nat then
       r ← clear_null_pruning_commits;
       ensure (fst r) InvalidValue
     else mret tt);;
    trim_uids_impl default_hotkey max_n;;
    modify (set_pruning_target None)).

Definition trim_null_uids_batch (default_hotkey : AccountId) (target : nat) : Storage unit :=
  transactional (
    ensure (if_subnet_exist env) SubnetNotExists;;
    ensure (bool_decide (get_epoch_consensus env = Null)) InvalidValue;;
    max ← gets MaxAllowedUids;
    ensure (bool_decide (MinAllowedUids env <= target)%nat && bool_decide (target <= max)%nat) InvalidValue;;
    current ← gets get_subnetwork_n;
    (if (target <? current)%nat then
       owner_uids ← gets (fun s => get_immune_owner_uids s (SubnetOwner env));
       immune ← gets (fun s => as_u16 (length
         (filter (fun uid => bool_decide (uid ∈ owner_uids) || get_neuron_is_immune s uid = true)
            (seq 0 current))));
       ensure (percent_from_rational out immune target <? MaxImmuneUidsPercentage env)
         TrimmingWouldExceedMaxImmunePercentage
     else mret tt);;
    r ← clear_null_pruning_commits;
    if negb (fst r) then
      modify (set_pruning_target (Some target));;
      modify (deposit_event (NullUidsPruningProgress target current 0 (snd r)))
    else
      trim_uids_impl default_hotkey (Nat.max (current - NULL_PRUNING_BATCH) target);;
      remaining ← gets get_subnetwork_n;
      modify (set_pruning_target (if (target <? remaining)%nat then Some target else None));;
      modify (deposit_event (NullUidsPruningProgress target remaining (current - remaining) (snd r)))).
End neurons.
