(* ===== verification/NeuronsSafety.v ===== *)
(** * NeuronsSafety: uids and hotkeys stay in one-to-one correspondence

    The theorems on Neurons.v.  [neurons_ok] is the invariant of a subnet: the
    uids in use are exactly [0 .. SubnetworkN - 1], [Uids] inverts [Keys], every
    per-neuron vector has one entry per neuron, and the EVM index inverts the
    associations.  Registering and trimming preserve it.  The compaction of uids
    is analysed by [place_moved] and [place_rest], on moves in ascending order of the old uid that
    never go up. *)

From Stdlib Require Import ZArith Lia Sorting.Sorted.
From stdpp Require Import base gmap list fin_maps.
From S2P Require Import Prelude Neurons.

(** ** The orders of trimming *)

Lemma by_emission_total a b : by_emission a b = true \/ by_emission b a = true.
Proof. unfold by_emission. rewrite !Z.leb_le. lia. Qed.
Lemma by_emission_trans a b c : by_emission a b = true -> by_emission b c = true -> by_emission a c = true.
Proof. unfold by_emission. rewrite !Z.leb_le. lia. Qed.
Lemma by_uid_total {B} (a b : nat * B) : by_uid a b = true \/ by_uid b a = true.
Proof. unfold by_uid. rewrite !bool_decide_eq_true. lia. Qed.
Lemma by_uid_trans {B} (a b c : nat * B) : by_uid a b = true -> by_uid b c = true -> by_uid a c = true.
Proof. unfold by_uid. rewrite !bool_decide_eq_true. lia. Qed.

(** ** u16 *)

Lemma as_u16_id x : (x <= Z.to_nat u16_max)%nat -> as_u16 x = x.
Proof.
  intros Hx. unfold as_u16, u16_max in *. rewrite Z.mod_small by lia. lia.
Qed.

Lemma u16_add_small a b : (a + b <= Z.to_nat u16_max)%nat -> u16_add a b = (a + b)%nat.
Proof. intros Hab. unfold u16_add, saturating_add, u16_max in *. lia. Qed.

(** ** Mechanism indices *)

(** The storage index of a mechanism gives back its subnet, and different
    mechanisms of the at most 4096 subnets, sixteen per subnet, never share an
    index: no saturation happens. *)
Theorem mechanism_index_roundtrip n m n' m' :
  0 <= n < GLOBAL_MAX_SUBNET_COUNT -> 0 <= n' < GLOBAL_MAX_SUBNET_COUNT -> 0 <= m < 16 -> 0 <= m' < 16 ->
  get_netuid (get_mechanism_storage_index n m) = n /\
  (get_mechanism_storage_index n m = get_mechanism_storage_index n' m' <-> n = n' /\ m = m').
Proof.
  unfold get_netuid, get_mechanism_storage_index, saturating_add, saturating_mul,
    GLOBAL_MAX_SUBNET_COUNT, u16_max. intros. simpl (4096 =? 0). cbv iota.
  rewrite !(Z.min_r 65535 (_ * 4096)), !Z.min_r by lia. split; [|lia].
  rewrite Z.add_comm, Z.mod_add by lia. by rewrite Z.mod_small.
Qed.

(** ** Placing values at new slots *)

Section place.
Context {V : Type} (g : option V -> option V).
Implicit Types (m : gmap nat V) (ps : list (nat * nat)).

Definition place m (p : nat * nat) : gmap nat V :=
  let m := map_swap p.1 p.2 m in partial_alter g p.2 m.

Lemma lookup_map_swap `{Countable K} {W} (i j k : K) (m : gmap K W) :
  map_swap i j m !! k = if decide (k = j) then m !! i else if decide (k = i) then m !! j else m !! k.
Proof.
  unfold map_swap. rewrite !lookup_partial_alter. repeat case_decide; congruence.
Qed.

(** Moves in ascending order of the old uid, to distinct uids that are not higher. *)
Definition downward ps : Prop :=
  StronglySorted (fun a b => a.1 < b.1)%nat ps /\ NoDup ps.*2 /\ Forall (fun p => p.2 <= p.1)%nat ps.

Lemma downward_step finished p todo : downward (finished ++ p :: todo) ->
  (p.2 <= p.1)%nat /\ (forall q, q ∈ todo -> (p.1 < q.1)%nat) /\
  (forall q, q ∈ finished -> q.2 <> p.2 /\ (q.2 <= q.1)%nat /\ (q.1 < p.1)%nat).
Proof.
  intros (Hs & Hnd & Hle). rewrite fmap_app in Hnd. csimpl in Hnd.
  apply NoDup_app in Hnd as (_ & Hdis & Hnd). rewrite Forall_forall in Hle. split_and!.
  - apply Hle. set_solver.
  - intros q Hq. apply (StronglySorted_app_le (fun a b => a.1 < b.1)%nat (finished ++ [p]) todo p q);
      [|set_solver|done]. by rewrite <- app_assoc.
  - intros q Hq. split_and!.
    + intros Heq. apply (Hdis q.2); [apply list_elem_of_fmap; eauto|]. rewrite Heq. by left.
    + apply Hle. set_solver.
    + apply (StronglySorted_app_le (fun a b => a.1 < b.1)%nat finished (p :: todo) q p); [done..|by left].
Qed.

Lemma downward_prefix front back : downward (front ++ back) -> downward front.
Proof.
  intros (Hs & Hnd & Hle). rewrite fmap_app in Hnd. apply NoDup_app in Hnd as (Hnd & _ & _).
  apply Forall_app in Hle as [Hle _]. split_and!; [|done..].
  clear -Hs. induction front as [|p front IH]; [constructor|].
  simpl in Hs. inversion Hs as [|? ? Hs' Hf]; subst. apply Forall_app in Hf as [Hf _].
  constructor; [by apply IH|done].
Qed.

(** Every value arrives, whatever else the map holds. *)
Lemma place_moved ps m0 q : downward ps -> q ∈ ps -> foldl place m0 ps !! q.2 = g (m0 !! q.1).
Proof.
  intros Hd. revert q.
  assert (Hgen : forall todo finished m, ps = finished ++ todo ->
    (forall q, q ∈ finished -> m !! q.2 = g (m0 !! q.1)) ->
    (forall q, q ∈ todo -> m !! q.1 = m0 !! q.1) ->
    forall q, q ∈ ps -> foldl place m todo !! q.2 = g (m0 !! q.1)).
  { induction todo as [|p todo IH]; intros finished m -> Hdone Htodo; simpl; [by rewrite app_nil_r|].
    destruct (downward_step finished p todo Hd) as (Hwo & Ho & Hfin).
    apply (IH (finished ++ [p])); [by rewrite <- app_assoc| |]; unfold place.
    - intros q [Hq|Hq]%elem_of_app; [|apply list_elem_of_singleton in Hq as ->].
      + destruct (Hfin q Hq) as (Hne & Hle & Hlt). rewrite lookup_partial_alter_ne by done.
        rewrite lookup_map_swap, !decide_False by (done || lia). by apply Hdone.
      + rewrite lookup_partial_alter_eq, lookup_map_swap, decide_True by done. f_equal. apply Htodo. by left.
    - intros q Hq. specialize (Ho q Hq). rewrite lookup_partial_alter_ne by lia.
      rewrite lookup_map_swap, !decide_False by lia. apply Htodo. by right. }
  intros q. apply (Hgen ps []); [done|by intros ? ?%not_elem_of_nil|done].
Qed.

(** A map without other values has none afterwards. *)
Lemma place_rest ps m0 k : downward ps -> (forall k, k ∉ ps.*1 -> m0 !! k = None) ->
  k ∉ ps.*2 -> foldl place m0 ps !! k = None.
Proof.
  intros Hd Hnone. revert k.
  assert (Hgen : forall todo finished m, ps = finished ++ todo ->
    (forall k, k ∉ finished.*2 -> k ∉ todo.*1 -> m !! k = None) ->
    forall k, k ∉ ps.*2 -> foldl place m todo !! k = None).
  { induction todo as [|p todo IH]; intros finished m -> Hm; simpl.
    { intros k Hk. rewrite app_nil_r in Hk. apply Hm; [done|apply not_elem_of_nil]. }
    destruct (downward_step finished p todo Hd) as (Hwo & Ho & Hfin).
    apply (IH (finished ++ [p])); [by rewrite <- app_assoc|].
    intros k Hk Hk'. rewrite fmap_app, not_elem_of_app in Hk. csimpl in Hk.
    destruct Hk as [Hk Hkw]. rewrite list_elem_of_singleton in Hkw. unfold place.
    rewrite lookup_partial_alter_ne, lookup_map_swap, decide_False by done. case_decide as Hko.
    - subst k. apply Hm; [intros (q & E & Hq)%list_elem_of_fmap; destruct (Hfin q Hq) as (? & _); congruence|].
      csimpl. intros [?|(q & E & Hq)%list_elem_of_fmap]%elem_of_cons; [congruence|]. specialize (Ho q Hq). lia.
    - apply Hm; [done|]. csimpl. by rewrite not_elem_of_cons. }
  intros k. apply (Hgen ps []); [done|intros; by apply Hnone].
Qed.
End place.

(** ** The invariant *)

Section safety.
Context {AccountId : Type} `{Countable AccountId} {H160 : Type} `{Countable H160} {Data World : Type}.
Abbreviation State := (State (AccountId := AccountId) (H160 := H160) (Data := Data) (World := World)).
Abbreviation Slots := (Slots (AccountId := AccountId)).
Abbreviation Evm := (Evm (H160 := H160)).
Abbreviation Row := (list (nat * Z)).
Implicit Types (s : State) (x : Slots) (h : AccountId) (uid : nat).

(** [Uids] inverts [Keys] on the uids [0 .. SubnetworkN - 1]. *)
Record slots_ok x : Prop := {
  slots_dense uid : is_Some (Keys x !! uid) <-> (uid < SubnetworkN x)%nat;
  slots_inverse h uid : Uids x !! h = Some uid <-> Keys x !! uid = Some h;
  slots_members h : h ∈ IsNetworkMember x <-> is_Some (Uids x !! h);
  slots_u16 : (SubnetworkN x <= Z.to_nat u16_max)%nat;
}.

Definition vectors_ok (n : nat) (v : Vectors) : Prop :=
  length (Active v) = n /\ length (Emission v) = n /\ length (Consensus v) = n /\
  length (Dividends v) = n /\ length (ValidatorTrust v) = n /\ length (ValidatorPermit v) = n.

(** The reverse index lists exactly the associated uids of an address, each once
    and within the bound of a bucket. *)
Record evm_ok (n : nat) (e : Evm) : Prop := {
  evm_bound uid a : AssociatedEvmAddress e !! uid = Some a -> (uid < n)%nat;
  evm_inverse uid k b :
    AssociatedEvmAddress e !! uid = Some (k, b) <->
    (uid, b) ∈ default [] (AssociatedUidsByEvmAddress e !! k);
  evm_nodup k : NoDup (default [] (AssociatedUidsByEvmAddress e !! k)).*1;
  evm_cap k : (length (default [] (AssociatedUidsByEvmAddress e !! k)) <= MAX_ASSOCIATED_UIDS_PER_EVM_ADDRESS)%nat;
}.

Context (env : Env (AccountId := AccountId)).
Context (out : Outside (AccountId := AccountId) (H160 := H160) (World := World)).

(** At most sixteen mechanisms on one of 4096 subnets. *)
Definition env_ok : Prop :=
  0 <= netuid env < GLOBAL_MAX_SUBNET_COUNT /\ (MechanismCountCurrent env <= 16)%nat.

Record neurons_ok s : Prop := {
  ok_slots : slots_ok (slots s);
  ok_vectors : vectors_ok (SubnetworkN (slots s)) (vectors s);
  ok_incentive index : index ∈ mech_indices env ->
    length (default [] (Incentive (mechs s) !! index)) = SubnetworkN (slots s);
  ok_evm : evm_ok (SubnetworkN (slots s)) (evm s);
  ok_max : (MaxAllowedUids s <= Z.to_nat u16_max)%nat;
}.

Lemma mech_indices_NoDup : env_ok -> NoDup (mech_indices env).
Proof.
  intros [Hn Hm]. unfold mech_indices. apply NoDup_fmap_2_strong; [|apply NoDup_seq].
  intros m m' Hin Hin' Heq. apply elem_of_seq in Hin, Hin'.
  unfold get_mechanism_storage_index, saturating_add, saturating_mul, GLOBAL_MAX_SUBNET_COUNT, u16_max in *.
  lia.
Qed.

Lemma set_last_update_frame index uid b s :
  let s' := set_last_update_for_uid index uid b s in
  slots s' = slots s /\ vectors s' = vectors s /\ evm s' = evm s /\ items s' = items s /\
  MaxAllowedUids s' = MaxAllowedUids s /\ world s' = world s /\
  Incentive (mechs s') = Incentive (mechs s).
Proof. unfold set_last_update_for_uid. simpl. by case_match. Qed.

Lemma set_element_at_length {A} (v : list A) i a : length (set_element_at v i a) = length v.
Proof. unfold set_element_at. case_decide; [apply length_insert|done]. Qed.

Lemma set_element_at_lookup {A} (v : list A) i a j :
  set_element_at v i a !! j = if decide (j = i /\ (i < length v)%nat) then Some a else v !! j.
Proof.
  unfold set_element_at. repeat case_decide; try done; try tauto.
  - destruct H2 as [-> _]. by apply list_lookup_insert_eq.
  - apply list_lookup_insert_ne. intros <-. tauto.
Qed.

(** ** Appending *)

Definition append_mech (uid : nat) (b : Z) s index : State :=
  let m := mechs s in
  set_last_update_for_uid index uid b
    (set_mechs (mkMechanisms
      (<[index := default [] (Incentive m !! index) ++ [0]]> (Incentive m))
      (ConsensusByMechanism m) (LastUpdate m) (Weights m) (Bonds m) (WeightCommits m)
      (TimelockedWeightCommits m)) s).

Lemma append_mech_frame uid b s ixs :
  let s' := foldl (append_mech uid b) s ixs in
  slots s' = slots s /\ vectors s' = vectors s /\ evm s' = evm s /\ items s' = items s /\
  MaxAllowedUids s' = MaxAllowedUids s /\ world s' = world s.
Proof.
  simpl. split_and!; apply foldl_fixed; intros s' index; unfold append_mech;
    set (s1 := set_mechs _ _); destruct (set_last_update_frame index uid b s1) as (? & ? & ? & ? & ? & ? & _);
    by simplify_eq/=.
Qed.

Lemma append_mech_incentive uid b s ixs index : NoDup ixs ->
  default [] (Incentive (mechs (foldl (append_mech uid b) s ixs)) !! index) =
  default [] (Incentive (mechs s) !! index) ++ (if decide (index ∈ ixs) then [0] else []).
Proof.
  revert s. induction ixs as [|i ixs IH]; intros s Hnd; simpl.
  { by rewrite app_nil_r. }
  apply list.NoDup_cons in Hnd as [Hi Hnd]. rewrite IH by done. unfold append_mech.
  rewrite (proj2 (proj2 (proj2 (proj2 (proj2 (proj2 (set_last_update_frame _ _ _ _))))))). simpl.
  rewrite lookup_insert. destruct (decide (i = index)) as [->|Hne].
  - rewrite decide_False by done. rewrite decide_True by left. simpl. by rewrite app_nil_r.
  - destruct (decide (index ∈ ixs)); [by rewrite decide_True by by right|].
    by rewrite decide_False by (rewrite elem_of_cons; naive_solver).
Qed.

Lemma occupy_fresh x uid h b :
  Keys x !! uid = None -> Uids x !! h = None ->
  (forall h u, Uids x !! h = Some u <-> Keys x !! u = Some h) ->
  forall h' u, Uids (occupy uid h b x) !! h' = Some u <-> Keys (occupy uid h b x) !! u = Some h'.
Proof.
  intros Hk Hu Hinv h' u. simpl. rewrite !lookup_insert. repeat case_decide; subst; naive_solver.
Qed.

Lemma append_neuron_ok h b s :
  env_ok -> neurons_ok s -> Uids (slots s) !! h = None ->
  (SubnetworkN (slots s) < Z.to_nat u16_max)%nat ->
  neurons_ok (append_neuron env h b s).
Proof.
  intros He [Hs Hv Hi Hev Hm] Hh Hlt. unfold append_neuron. unfold get_subnetwork_n.
  set (n := SubnetworkN (slots s)) in *. set (s1 := set_slots _ s).
  fold (append_mech n b). destruct (append_mech_frame n b s1 (mech_indices env)) as (E1 & E2 & E3 & E4 & E5 & E6).
  pose proof (append_mech_incentive n b s1 (mech_indices env)) as Einc.
  set (s2 := foldl _ s1 _) in *. assert (Hn1 : u16_add n 1 = Datatypes.S n) by (rewrite u16_add_small; lia).
  destruct Hs as [Hd Hinv Hmem Hu]. fold n in Hd, Hu.
  assert (Hfresh : Keys (slots s) !! n = None).
  { apply eq_None_not_Some. rewrite Hd. lia. }
  split; simpl; rewrite ?E1, ?E3, ?E5; simpl; rewrite ?Hn1.
  - split; simpl; rewrite ?Hn1.
    + intros uid. rewrite lookup_insert. case_decide; [subst; split; [lia|eauto]|]. rewrite Hd. lia.
    + by apply (occupy_fresh (slots s) n h b).
    + intros h'. rewrite elem_of_union, elem_of_singleton, lookup_insert, Hmem.
      case_decide; naive_solver.
    + lia.
  - destruct Hv as (? & ? & ? & ? & ? & ?). unfold vectors_ok. simpl. rewrite !length_app. simpl.
    repeat split; lia.
  - intros index Hin. rewrite Einc by by apply mech_indices_NoDup. rewrite decide_True by done.
    rewrite length_app. simpl. rewrite Hi by done. lia.
  - destruct Hev as [Hb Hr Hnd Hcap]. split; [|done..]. intros uid a Ha. apply Hb in Ha. lia.
  - done.
Qed.

(** ** Removing an EVM association *)

Lemma filter_other (row : Row) uid : (forall b, (uid, b) ∉ row) -> filter (fun r => r.1 <> uid) row = row.
Proof.
  induction row as [|[u b] row IH]; intros Hr; [done|]. rewrite filter_cons_True.
  - f_equal. apply IH. intros b' Hin. apply (Hr b'). by right.
  - simpl. intros ->. apply (Hr b). by left.
Qed.

Lemma remove_evm_spec n (e : Evm) uid : evm_ok n e ->
  AssociatedEvmAddress (remove_associated_evm_address uid e) = delete uid (AssociatedEvmAddress e) /\
  forall k, default [] (AssociatedUidsByEvmAddress (remove_associated_evm_address uid e) !! k) =
            filter (fun r => r.1 <> uid) (default [] (AssociatedUidsByEvmAddress e !! k)).
Proof.
  intros [_ Hinv _ _]. unfold remove_associated_evm_address.
  destruct (AssociatedEvmAddress e !! uid) as [[key b]|] eqn:E.
  - unfold remove_uid_from_evm_address_index. simpl. apply Hinv in E as Hin.
    destruct (AssociatedUidsByEvmAddress e !! key) as [uids|] eqn:Ek; [|by apply not_elem_of_nil in Hin].
    simpl in Hin. simpl. split; [done|]. intros k. destruct (decide (k = key)) as [->|Hne].
    + rewrite Ek. simpl. case_decide as Hf; [by rewrite lookup_delete_eq, Hf|by rewrite lookup_insert_eq].
    + rewrite (filter_other (default [] (AssociatedUidsByEvmAddress e !! k))).
      * case_decide; [by rewrite lookup_delete_ne by congruence|by rewrite lookup_insert_ne by congruence].
      * intros b' Hb'. apply Hinv in Hb'. congruence.
  - rewrite delete_id by done. split; [done|]. intros k. rewrite filter_other; [done|].
    intros b Hb. apply Hinv in Hb. congruence.
Qed.

Lemma remove_evm_ok n (e : Evm) uid : evm_ok n e -> evm_ok n (remove_associated_evm_address uid e).
Proof.
  intros Hev. destruct (remove_evm_spec n e uid Hev) as [Hf Hr]. destruct Hev as [Hb Hinv Hnd Hcap]. split.
  - intros u a. rewrite Hf. intros [_ Ha]%lookup_delete_Some. by eapply Hb.
  - intros u k b. rewrite Hf, Hr, list_elem_of_filter, <- Hinv, lookup_delete. simpl.
    case_decide; naive_solver.
  - intros k. rewrite Hr. eapply sublist_NoDup; [apply (Hnd k)|apply (fmap_sublist fst), sublist_filter].
  - intros k. rewrite Hr. etrans; [apply length_filter|apply Hcap].
Qed.

(** ** The times of the last update *)

Lemma resize_to_lookup (v : list Z) n u : default 0 (resize_to n 0 v !! u) = default 0 (v !! u).
Proof.
  unfold resize_to. case_decide; [|done]. destruct (decide (u < length v)%nat); [by rewrite lookup_app_l|].
  rewrite lookup_app_r, (lookup_ge_None_2 v) by lia. simpl.
  destruct (replicate (n - length v) 0 !! (u - length v)%nat) eqn:E; [|done].
  by apply lookup_replicate in E as [-> _].
Qed.

Lemma resize_to_length {A} n (x : A) v : (n <= length (resize_to n x v))%nat.
Proof. unfold resize_to. case_decide; [rewrite length_app, length_replicate|]; lia. Qed.

(** The block of the last update of a neuron, zero where none is stored. *)
Definition updated_in s (index : Z) (u : nat) : Z := default 0 (default [] (LastUpdate (mechs s) !! index) !! u).

Lemma set_last_update_lookup index uid b s i : (uid < get_subnetwork_n s)%nat ->
  LastUpdate (mechs (set_last_update_for_uid index uid b s)) !! i =
    if decide (i = index) then Some (<[uid := b]> (get_last_update s index)) else LastUpdate (mechs s) !! i.
Proof.
  intros Hlt. unfold set_last_update_for_uid.
  destruct (lookup_lt_is_Some_2 (get_last_update s index) uid) as [b0 ->].
  { pose proof (resize_to_length (get_subnetwork_n s) 0 (default [] (LastUpdate (mechs s) !! index))).
    unfold get_last_update. lia. }
  simpl. rewrite lookup_insert. repeat case_decide; done || congruence.
Qed.

(** A loop over mechanisms that stores the block of the update of [uid] in each. *)
Lemma updates_loop (f : State -> Z -> State) uid b ixs s :
  (forall s index, slots (f s index) = slots s /\
     LastUpdate (mechs (f s index)) = LastUpdate (mechs (set_last_update_for_uid index uid b s))) ->
  (uid < get_subnetwork_n s)%nat ->
  let s' := foldl f s ixs in forall index,
  (if decide (index ∈ ixs) then default [] (LastUpdate (mechs s') !! index) !! uid = Some b
   else LastUpdate (mechs s') !! index = LastUpdate (mechs s) !! index) /\
  forall u, u <> uid -> updated_in s' index u = updated_in s index u.
Proof.
  intros Hf. revert s. induction ixs as [|i ixs IH]; intros s Hlt s' index; simpl in s'.
  { by rewrite decide_False by apply not_elem_of_nil. }
  destruct (Hf s i) as [Hs Hl]. pose proof (set_last_update_lookup i uid b s index Hlt) as Hi. rewrite <- Hl in Hi.
  destruct (IH (f s i)) with (index := index) as [IH1 IH2]; [unfold get_subnetwork_n; by rewrite Hs|]. fold s' in IH1, IH2.
  assert (length (get_last_update s i) > uid)%nat.
  { pose proof (resize_to_length (get_subnetwork_n s) 0 (default [] (LastUpdate (mechs s) !! i))).
    unfold get_last_update. lia. }
  split.
  - destruct (decide (index ∈ ixs)); [by rewrite decide_True by by right|]. rewrite IH1, Hi.
    destruct (decide (index = i)) as [->|]; [|by rewrite decide_False by (intros [?|?]%elem_of_cons; done)].
    rewrite decide_True by left. simpl. by apply list_lookup_insert_eq.
  - intros u Hu. rewrite IH2 by done. unfold updated_in. rewrite Hi. destruct (decide (index = i)) as [->|]; [|done]. simpl.
    rewrite list_lookup_insert_ne by done. apply resize_to_lookup.
Qed.

(** ** Clearing a neuron *)

Lemma clear_mechanism_incentive uid m ixs index :
  length (default [] (Incentive (foldl (clear_mechanism uid) m ixs) !! index)) =
  length (default [] (Incentive (m : Mechanisms (AccountId := AccountId)) !! index)).
Proof.
  revert m. induction ixs as [|i ixs IH]; intros m; [done|]. simpl. rewrite IH. simpl.
  rewrite lookup_insert. case_decide; [subst; apply set_element_at_length|done].
Qed.

Lemma clear_neuron_frame uid s :
  let s' := clear_neuron env uid s in
  slots s' = slots s /\ evm s' = evm s /\ items s' = items s /\ MaxAllowedUids s' = MaxAllowedUids s /\
  world s' = world s /\ Active (vectors s') = Active (vectors s).
Proof. done. Qed.

Lemma clear_neuron_vectors n uid s :
  vectors_ok n (vectors s) -> vectors_ok n (vectors (clear_neuron env uid s)).
Proof. unfold vectors_ok. simpl. by rewrite !set_element_at_length. Qed.

Lemma set_active_frame uid b s :
  let s' := set_active_for_uid uid b s in
  slots s' = slots s /\ evm s' = evm s /\ items s' = items s /\ MaxAllowedUids s' = MaxAllowedUids s /\
  world s' = world s /\ mechs s' = mechs s.
Proof. unfold set_active_for_uid. simpl. by case_match. Qed.

Lemma set_active_vectors n uid b s :
  vectors_ok n (vectors s) -> vectors_ok n (vectors (set_active_for_uid uid b s)).
Proof.
  unfold set_active_for_uid, vectors_ok. case_match; [|done]. simpl. by rewrite length_insert.
Qed.

Lemma last_update_loop_frame uid b s ixs :
  let s' := foldl (fun s index => set_last_update_for_uid index uid b s) s ixs in
  slots s' = slots s /\ vectors s' = vectors s /\ evm s' = evm s /\ items s' = items s /\
  MaxAllowedUids s' = MaxAllowedUids s /\ world s' = world s /\
  Incentive (mechs s') = Incentive (mechs s).
Proof.
  simpl. split_and!; [..|apply (foldl_fixed (fun s => Incentive (mechs s)))];
    try apply (foldl_fixed (A := Z)); intros s' index; apply set_last_update_frame.
Qed.

(** ** Replacing *)

Lemma replaced_slots_ok x uid h h0 b : slots_ok x -> Keys x !! uid = Some h0 -> Uids x !! h = None ->
  slots_ok (occupy uid h b (vacate uid h0 x)).
Proof.
  intros [Hd Hinv Hmem Hu] Hk Hh. assert (Hh0 : Uids x !! h0 = Some uid) by by apply Hinv.
  assert (Hne : h <> h0) by congruence. split; simpl.
  - intros u. rewrite lookup_insert. case_decide as E.
    + subst. split; [|eauto]. intros _. apply Hd. eauto.
    + rewrite lookup_delete_ne by done. apply Hd.
  - apply (occupy_fresh (vacate uid h0 x) uid h b); simpl.
    + apply lookup_delete_eq.
    + by rewrite lookup_delete_ne.
    + intros h' u. rewrite !lookup_delete. repeat case_decide; naive_solver.
  - intros h'. rewrite lookup_insert, elem_of_union, elem_of_singleton, elem_of_difference,
      elem_of_singleton, Hmem, lookup_delete. repeat case_decide; naive_solver.
  - done.
Qed.

(** The state once the slot has a new occupant, before its values are reset. *)
Lemma neurons_ok_frame s s' :
  slots s' = slots s -> vectors_ok (SubnetworkN (slots s)) (vectors s') -> evm s' = evm s ->
  MaxAllowedUids s' = MaxAllowedUids s ->
  (forall index, length (default [] (Incentive (mechs s') !! index)) =
                 length (default [] (Incentive (mechs s) !! index))) ->
  neurons_ok s -> neurons_ok s'.
Proof.
  intros E1 E2 E3 E4 E5 [Hs Hv Hi Hev Hm]. split; rewrite ?E1, ?E3, ?E4; try done.
  intros index Hin. rewrite E5. by apply Hi.
Qed.

Lemma set_world_ok w s : neurons_ok s -> neurons_ok (set_world w s).
Proof. intros [Hs Hv Hi Hev Hm]. by split. Qed.

Lemma prepare_root_world h s : exists w,
  prepare_root_neuron_for_removal out h s = ((prepare_root_neuron_for_removal out h s).1, set_world w s).
Proof. unfold prepare_root_neuron_for_removal. case_match. eauto. Qed.

Definition rows s := (ConsensusByMechanism (mechs s), Weights (mechs s), Bonds (mechs s)).

Lemma last_update_rows index uid b s : rows (set_last_update_for_uid index uid b s) = rows s.
Proof. unfold set_last_update_for_uid. by case_match. Qed.

Lemma replace_neuron_effect dh uid h b s h0 : Keys (slots s) !! uid = Some h0 ->
  let '(replaced, s') := replace_neuron env out dh uid h b s in
  if replaced : bool then
    SubnetOwnerHotkey env <> Some h0 /\
    slots s' = occupy uid h b (vacate uid h0 (slots s)) /\
    vectors s' = vectors (clear_neuron env uid (set_active_for_uid uid true s)) /\
    Incentive (mechs s') = Incentive (foldl (clear_mechanism uid) (mechs s) (mech_indices env)) /\
    evm s' = remove_associated_evm_address uid (evm s) /\ MaxAllowedUids s' = MaxAllowedUids s /\
    (items s' = fun i => if decide (i ∈ [Axons; NeuronCertificates; Prometheus; Services])
                         then delete h0 (items s i) else items s i) /\
    rows s' = (let m := foldl (clear_mechanism uid) (mechs s) (mech_indices env) in
               (ConsensusByMechanism m, Weights m, Bonds m)) /\
    ((uid < get_subnetwork_n s)%nat -> forall index,
       (if decide (index ∈ mech_indices env) then default [] (LastUpdate (mechs s') !! index) !! uid = Some b
        else LastUpdate (mechs s') !! index = LastUpdate (mechs s) !! index) /\
       forall u, u <> uid -> updated_in s' index u = updated_in s index u)
  else exists w, s' = set_world w s.
Proof.
  intros Hh0. unfold replace_neuron. rewrite Hh0. simpl. case_bool_decide as Ho.
  { exists (world s). by destruct s. }
  assert (Hp : exists w settled,
    (if is_root env then prepare_root_neuron_for_removal out h0 s else (true, s)) = (settled, set_world w s)).
  { destruct (is_root env); [|exists (world s), true; by destruct s].
    destruct (prepare_root_world h0 s) as [w Hw]. eauto. }
  destruct Hp as (w & settled & ->). destruct settled; simpl; [|by exists w].
  set (s1 := if is_root env then _ else _).
  assert (Hs1 : slots s1 = vacate uid h0 (slots s) /\ vectors s1 = vectors s /\ mechs s1 = mechs s /\
    evm s1 = remove_associated_evm_address uid (evm s) /\ MaxAllowedUids s1 = MaxAllowedUids s /\ items s1 = items s).
  { unfold s1. by destruct (is_root env). }
  destruct Hs1 as (E1 & E2 & E3 & E4 & E5 & E6). destruct (set_active_frame uid true s1) as (F1 & F2 & F3 & F4 & _ & F6).
  assert (Hv : vectors (set_active_for_uid uid true s1) = vectors (set_active_for_uid uid true s)).
  { unfold set_active_for_uid. rewrite E2. by case_match. }
  set (s2 := set_active_for_uid uid true s1) in *.
  set (s3 := clear_neuron _ _ _). destruct (last_update_loop_frame uid b s3 (mech_indices env))
    as (G1 & G2 & G3 & G4 & G5 & _ & G7).
  pose proof (foldl_fixed rows (fun s index => set_last_update_for_uid index uid b s) (mech_indices env) s3
    (fun s index => last_update_rows index uid b s)) as Hr.
  pose proof (updates_loop (fun s index => set_last_update_for_uid index uid b s) uid b (mech_indices env) s3) as Hl.
  rewrite Hr, G1, G2, G3, G4, G5, G7. simpl. rewrite F1, F2, F3, F4, F6, E1, E3, E4, E5, E6, Hv.
  split_and!; try done; [unfold rows; simpl; by rewrite F6, E3|]. intros Hlt index.
  assert (LastUpdate (mechs s3) = LastUpdate (mechs s)) as Hs3.
  { simpl. rewrite (foldl_fixed LastUpdate) by done. by rewrite F6, E3. }
  destruct (Hl (fun s i => conj (proj1 (set_last_update_frame i uid b s)) eq_refl)) with (index := index) as [H1 H2].
  { unfold get_subnetwork_n. simpl. rewrite F1, E1. done. }
  split; [by rewrite <- Hs3|]. intros u Hu. rewrite H2 by done. unfold updated_in. by rewrite Hs3.
Qed.

Lemma replace_neuron_ok dh uid h b s :
  neurons_ok s -> Uids (slots s) !! h = None -> (uid < SubnetworkN (slots s))%nat ->
  neurons_ok (replace_neuron env out dh uid h b s).2.
Proof.
  intros Hok Hh Hlt. destruct (slots_dense _ (ok_slots _ Hok) uid) as [_ [h0 Hh0]]; [done|].
  pose proof (replace_neuron_effect dh uid h b s h0 Hh0) as Heff.
  destruct (replace_neuron _ _ _ _ _ _ _) as [[] s']; simpl; [|destruct Heff as [w ->]; by apply set_world_ok].
  destruct Heff as (_ & E1 & E2 & E3 & E4 & E5 & _). destruct Hok as [Hs Hv Hi Hev Hm].
  split; rewrite ?E1, ?E2, ?E3, ?E4, ?E5.
  - by apply replaced_slots_ok.
  - by apply clear_neuron_vectors, set_active_vectors.
  - intros index Hin. rewrite clear_mechanism_incentive. by apply Hi.
  - by apply remove_evm_ok.
  - done.
Qed.

(** ** Which neuron is pruned *)

(** Pruning order: lower emission, then older, then lower uid. *)
Definition before (a b : Z * Z * nat) : Prop :=
  a.1.1 < b.1.1 \/ a.1.1 = b.1.1 /\ (a.1.2 < b.1.2 \/ a.1.2 = b.1.2 /\ (a.2 < b.2)%nat).

Lemma better_spec a b : better a b = true <-> before a b.
Proof.
  unfold better, before. destruct (Z.eqb_spec a.1.1 b.1.1), (Z.eqb_spec a.1.2 b.1.2); simpl;
    rewrite ?Z.ltb_lt, ?bool_decide_eq_true; lia.
Qed.

(** [best] comes first among the candidates satisfying [P]. *)
Definition first_of (P : Z * Z * nat -> Prop) (best : option (Z * Z * nat)) : Prop :=
  match best with
  | None => forall c, ~ P c
  | Some b => P b /\ forall c, P c -> ~ before c b
  end.

Lemma consider_first P c best :
  first_of P best -> first_of (fun d => d = c \/ P d) (consider c best).
Proof.
  destruct best as [b|]; simpl.
  - intros [Hb Hmin]. destruct (better c b) eqn:E; simpl.
    + split; [by left|]. apply better_spec in E. intros d [->|Hd]; [unfold before; lia|].
      specialize (Hmin d Hd). unfold before in *. lia.
    + split; [by right|]. intros d [->|Hd]; [|by apply Hmin].
      rewrite <- better_spec. congruence.
  - intros Hn. split; [by left|]. intros d [->|Hd]; [unfold before; lia|]. by destruct (Hn d).
Qed.

Lemma first_of_ext P Q best : (forall c, P c <-> Q c) -> first_of P best -> first_of Q best.
Proof. intros HPQ. destruct best; simpl; setoid_rewrite HPQ; done. Qed.

Section scan.
Context (s : State) (immortal : list AccountId).

Definition candidate (uids : list nat) (immune : bool) (c : Z * Z * nat) : Prop :=
  exists uid, uid ∈ uids /\ prune_candidate s immortal uid = Some c /\ get_neuron_is_immune env s uid = immune.

Definition free_uids (uids : list nat) : list nat :=
  filter (fun uid => is_Some (prune_candidate s immortal uid) /\ get_neuron_is_immune env s uid = false) uids.

Lemma free_uids_length uids : (length (free_uids uids) <= length uids)%nat.
Proof. apply length_filter. Qed.

Lemma prune_scan_spec seen uids free bn bi :
  (free + length uids <= Z.to_nat u16_max)%nat -> free = length (free_uids seen) ->
  first_of (candidate seen false) bn -> first_of (candidate seen true) bi ->
  let '(free', bn', bi') := prune_scan env s immortal uids free bn bi in
  free' = length (free_uids (seen ++ uids)) /\ first_of (candidate (seen ++ uids) false) bn' /\
  first_of (candidate (seen ++ uids) true) bi'.
Proof.
  revert seen free bn bi. induction uids as [|uid uids IH]; intros seen free bn bi Hu Hfree Hn Hi; simpl.
  { by rewrite app_nil_r. }
  simpl in Hu. replace (seen ++ uid :: uids) with ((seen ++ [uid]) ++ uids) by by rewrite <- app_assoc.
  assert (Hadd : forall b c, candidate (seen ++ [uid]) b c <->
    (prune_candidate s immortal uid = Some c /\ get_neuron_is_immune env s uid = b) \/ candidate seen b c).
  { intros b c. unfold candidate. setoid_rewrite elem_of_app. setoid_rewrite list_elem_of_singleton.
    naive_solver. }
  assert (Hfr : free_uids (seen ++ [uid]) = free_uids seen ++
    (if decide (is_Some (prune_candidate s immortal uid) /\ get_neuron_is_immune env s uid = false)
     then [uid] else [])).
  { unfold free_uids. by rewrite filter_app. }
  destruct (prune_candidate s immortal uid) as [c|] eqn:Ec.
  - destruct (get_neuron_is_immune env s uid) eqn:Ei.
    + apply IH; [lia| | |].
      * rewrite Hfr, decide_False by naive_solver. by rewrite app_nil_r.
      * eapply first_of_ext; [|exact Hn]. intros d. rewrite Hadd. naive_solver.
      * eapply first_of_ext; [|exact (consider_first _ c _ Hi)]. intros d. rewrite Hadd. naive_solver.
    + apply IH; [rewrite u16_add_small; lia| | |].
      * rewrite Hfr, decide_True, length_app, u16_add_small by (eauto || lia). simpl. lia.
      * eapply first_of_ext; [|exact (consider_first _ c _ Hn)]. intros d. rewrite Hadd. naive_solver.
      * eapply first_of_ext; [|exact Hi]. intros d. rewrite Hadd. naive_solver.
  - apply IH; [lia| | |].
    + rewrite Hfr, decide_False by (intros [[? ?] _]; done). by rewrite app_nil_r.
    + eapply first_of_ext; [|exact Hn]. intros d. rewrite Hadd. naive_solver.
    + eapply first_of_ext; [|exact Hi]. intros d. rewrite Hadd. naive_solver.
Qed.
End scan.

(** The neurons that registration may replace: those whose hotkey is not immortal. *)
Definition eligible s (immune : bool) (c : Z * Z * nat) : Prop :=
  candidate s (get_immune_owner_hotkeys env s (SubnetOwner env)) (seq 0 (get_subnetwork_n s)) immune c.

Definition free_neurons s : list nat :=
  free_uids s (get_immune_owner_hotkeys env s (SubnetOwner env)) (seq 0 (get_subnetwork_n s)).

Lemma prune_cases s : neurons_ok s ->
  exists bn bi, first_of (eligible s false) bn /\ first_of (eligible s true) bi /\
    get_neuron_to_prune env s =
      match bn with
      | Some c => if (MinNonImmuneUids env <? length (free_neurons s))%nat then Some c.2 else snd <$> bi
      | None => snd <$> bi
      end.
Proof.
  intros Hok. unfold get_neuron_to_prune.
  pose proof (prune_scan_spec s (get_immune_owner_hotkeys env s (SubnetOwner env)) []
    (seq 0 (get_subnetwork_n s)) 0 None None) as Hscan.
  unfold eligible, free_neurons. destruct (Nat.eqb_spec (get_subnetwork_n s) 0) as [E|_].
  { rewrite E. simpl. exists None, None. split_and!; [..|done]; intros c (u & Hu & _);
      by apply not_elem_of_nil in Hu. }
  destruct (prune_scan _ _ _ _ _ _ _) as [[free bn] bi]. simpl in Hscan.
  destruct Hscan as (-> & Hn & Hi).
  { rewrite length_seq. apply (slots_u16 _ (ok_slots _ Hok)). }
  { done. }
  { intros c (u & Hu & _). by apply not_elem_of_nil in Hu. }
  { intros c (u & Hu & _). by apply not_elem_of_nil in Hu. }
  exists bn, bi. split_and!; [done..|]. by destruct bn as [[c u]|], bi.
Qed.

(** The neuron chosen for replacement is never one of the owner's immortal
    hotkeys.  It is the one with the lowest emission (then the oldest, then the
    lowest uid) among the neurons out of immunity, as long as more of these exist
    than the configured floor; otherwise it comes first among the immune ones.
    None is chosen only if there is no such neuron. *)
Theorem prune_choice s : neurons_ok s ->
  match get_neuron_to_prune env s with
  | Some uid =>
      exists c, c.2 = uid /\
        ((eligible s false c /\ (MinNonImmuneUids env < length (free_neurons s))%nat /\
          forall d, eligible s false d -> ~ before d c) \/
         (eligible s true c /\ (length (free_neurons s) <= MinNonImmuneUids env \/ forall d, ~ eligible s false d)%nat /\
          forall d, eligible s true d -> ~ before d c))
  | None =>
      (forall d, ~ eligible s true d) /\
      ((length (free_neurons s) <= MinNonImmuneUids env)%nat \/ forall d, ~ eligible s false d)
  end.
Proof.
  intros Hok. destruct (prune_cases s Hok) as (bn & bi & Hn & Hi & ->).
  destruct bn as [c|]; simpl in Hn.
  - destruct (Nat.ltb_spec (MinNonImmuneUids env) (length (free_neurons s))).
    + exists c. split; [done|]. left. naive_solver.
    + destruct bi as [d|]; simpl in *; [|by auto]. exists d. naive_solver.
  - destruct bi as [d|]; simpl in *; [|by auto]. exists d. naive_solver.
Qed.

(** ** Registration *)

(** The stake weight of a neuron and, where a mechanism has its own, its consensus there;
    zero where none is stored. *)
Definition stake_of s (u : nat) : Z := default 0 (StakeWeight (vectors s) !! u).
Definition consensus_in s (index : Z) (u : nat) : option Z :=
  (fun v => default 0 (v !! u)) <$> ConsensusByMechanism (mechs s) !! index.

(** What the storage says of a neuron apart from its weights and bonds: its hotkey,
    registration block, vector entries, the scores and the last update in every mechanism,
    and its EVM address; and apart its validator permit. *)
Record same_neuron (s s' : State) (u u' : nat) : Prop := {
  same_key : Keys (slots s') !! u' = Keys (slots s) !! u;
  same_block : BlockAtRegistration (slots s') !! u' = BlockAtRegistration (slots s) !! u;
  same_active : Active (vectors s') !! u' = Active (vectors s) !! u;
  same_emission : Emission (vectors s') !! u' = Emission (vectors s) !! u;
  same_consensus : Consensus (vectors s') !! u' = Consensus (vectors s) !! u;
  same_dividends : Dividends (vectors s') !! u' = Dividends (vectors s) !! u;
  same_trust : ValidatorTrust (vectors s') !! u' = ValidatorTrust (vectors s) !! u;
  same_incentive index : index ∈ mech_indices env ->
    default [] (Incentive (mechs s') !! index) !! u' = default [] (Incentive (mechs s) !! index) !! u;
  same_evm : AssociatedEvmAddress (evm s') !! u' = AssociatedEvmAddress (evm s) !! u;
  same_stake : stake_of s' u' = stake_of s u;
  same_consensus_in index : index ∈ mech_indices env -> consensus_in s' index u' = consensus_in s index u;
  same_update index : index ∈ mech_indices env -> updated_in s' index u' = updated_in s index u;
}.

Definition same_permit (s s' : State) (u u' : nat) : Prop :=
  ValidatorPermit (vectors s') !! u' = ValidatorPermit (vectors s) !! u.

(** A neuron just registered at block [b]: active, with nothing earned and nothing
    inherited from a former holder of the uid. *)
Record new_neuron (s : State) (uid : nat) (h : AccountId) (b : Z) : Prop := {
  new_key : Keys (slots s) !! uid = Some h;
  new_uid : Uids (slots s) !! h = Some uid;
  new_block : BlockAtRegistration (slots s) !! uid = Some b;
  new_active : Active (vectors s) !! uid = Some true;
  new_emission : Emission (vectors s) !! uid = Some 0;
  new_consensus : Consensus (vectors s) !! uid = Some 0;
  new_dividends : Dividends (vectors s) !! uid = Some 0;
  new_trust : ValidatorTrust (vectors s) !! uid = Some 0;
  new_permit : ValidatorPermit (vectors s) !! uid = Some false;
  new_incentive index : index ∈ mech_indices env ->
    default [] (Incentive (mechs s) !! index) !! uid = Some 0;
  new_evm : AssociatedEvmAddress (evm s) !! uid = None;
  new_update index : index ∈ mech_indices env -> default [] (LastUpdate (mechs s) !! index) !! uid = Some b;
}.

(** Nothing that an epoch or a validator wrote is left at the uid. *)
Record blank (s : State) (uid : nat) : Prop := {
  blank_stake : stake_of s uid = 0;
  blank_consensus index : index ∈ mech_indices env -> default 0 (consensus_in s index uid) = 0;
  blank_weights index : index ∈ mech_indices env -> Weights (mechs s) !! (index, uid) = None;
  blank_bonds index : index ∈ mech_indices env -> Bonds (mechs s) !! (index, uid) = None;
}.

(** Nothing is stored beyond the neurons. *)
Definition vacant (s : State) : Prop := forall u, (get_subnetwork_n s <= u)%nat -> blank s u.

Lemma append_new {A} (l : list A) a n u :
  length l = n -> (l ++ [a]) !! u = if decide (u = n) then Some a else l !! u.
Proof.
  intros Hn. case_decide as E.
  - subst u. rewrite lookup_app_r by lia. by rewrite Hn, Nat.sub_diag.
  - destruct (decide (u < n)%nat).
    + apply lookup_app_l. lia.
    + rewrite !lookup_ge_None_2; [done|lia|rewrite length_app; simpl; lia].
Qed.

Lemma append_neuron_effect h b s :
  env_ok -> neurons_ok s -> (SubnetworkN (slots s) < Z.to_nat u16_max)%nat ->
  let s' := append_neuron env h b s in let n := SubnetworkN (slots s) in
  new_neuron s' n h b /\ (forall u, u <> n -> same_neuron s s' u u /\ same_permit s s' u u) /\
  SubnetworkN (slots s') = u16_add n 1 /\ items s' = items s /\ rows s' = rows s /\
  StakeWeight (vectors s') = StakeWeight (vectors s).
Proof.
  intros He [Hs Hv Hi Hev Hm] Hn16. simpl. unfold append_neuron. change (get_subnetwork_n s) with (SubnetworkN (slots s)).
  set (n := SubnetworkN (slots s)) in *. set (s1 := set_slots _ s).
  fold (append_mech n b). destruct (append_mech_frame n b s1 (mech_indices env)) as (E1 & E2 & E3 & E4 & E5 & E6).
  pose proof (append_mech_incentive n b s1 (mech_indices env)) as Einc.
  set (s2 := foldl _ s1 _) in *. destruct Hv as (Ha & Hem & Hc & Hdv & Ht & Hp).
  assert (Hnone : AssociatedEvmAddress (evm s) !! n = None).
  { destruct (AssociatedEvmAddress (evm s) !! n) eqn:E; [|done]. apply (evm_bound _ _ Hev) in E. lia. }
  assert (Hinc : forall index u, index ∈ mech_indices env ->
    default [] (Incentive (mechs s2) !! index) !! u =
      if decide (u = n) then Some 0 else default [] (Incentive (mechs s) !! index) !! u).
  { intros index u Hin. rewrite Einc by by apply mech_indices_NoDup. rewrite decide_True by done.
    apply append_new. by apply Hi. }
  assert (Hr : rows s2 = rows s).
  { change (rows s) with (rows s1). apply (foldl_fixed rows). intros. unfold append_mech. by rewrite last_update_rows. }
  assert (Hup : forall index,
    (if decide (index ∈ mech_indices env) then default [] (LastUpdate (mechs s2) !! index) !! n = Some b
     else LastUpdate (mechs s2) !! index = LastUpdate (mechs s1) !! index) /\
    forall u, u <> n -> updated_in s2 index u = updated_in s1 index u).
  { apply updates_loop; [intros s' i; unfold append_mech|unfold get_subnetwork_n; simpl; rewrite u16_add_small; lia].
    split; [by rewrite (proj1 (set_last_update_frame _ _ _ _))|].
    unfold set_last_update_for_uid, get_last_update, get_subnetwork_n. simpl. by repeat case_match. }
  split_and!; [| |by rewrite E1|done|done|done].
  - split; simpl; rewrite ?E1, ?E3; simpl; rewrite ?lookup_insert_eq; try done;
      rewrite ?(append_new _ _ n), ?decide_True by done; try done.
    + intros index Hin. by rewrite Hinc, decide_True.
    + intros index Hin. destruct (Hup index) as [Hx _]. by rewrite decide_True in Hx.
  - intros u Hu. split; [|unfold same_permit; simpl; by rewrite (append_new _ _ n), decide_False].
    split; simpl; rewrite ?E1, ?E3; simpl; rewrite ?lookup_insert_ne by done; try done;
      rewrite ?(append_new _ _ n), ?decide_False by done; try done.
    + intros index Hin. by rewrite Hinc, decide_False.
    + intros index Hin. unfold consensus_in. simpl. injection Hr as -> _ _. done.
    + intros index Hin. by apply (proj2 (Hup index)).
Qed.

Lemma clear_mechanism_lookup uid (m : Mechanisms (AccountId := AccountId)) ixs index u :
  default [] (Incentive (foldl (clear_mechanism uid) m ixs) !! index) !! u =
  if decide (index ∈ ixs) then set_element_at (default [] (Incentive m !! index)) uid 0 !! u
  else default [] (Incentive m !! index) !! u.
Proof.
  revert m. induction ixs as [|i ixs IH]; intros m.
  { rewrite decide_False by apply not_elem_of_nil. done. }
  simpl. rewrite IH. simpl. rewrite lookup_insert. destruct (decide (i = index)) as [->|Hne].
  - rewrite (decide_True (P := index ∈ index :: ixs)) by by left. simpl. case_decide; [|done].
    rewrite !set_element_at_lookup, set_element_at_length. by case_decide.
  - destruct (decide (index ∈ ixs)).
    + by rewrite (decide_True (P := index ∈ i :: ixs)) by by right.
    + by rewrite (decide_False (P := index ∈ i :: ixs)) by (intros [->|?]%elem_of_cons; done).
Qed.

(** What clearing a uid leaves of the scores, weights and bonds of every mechanism. *)
Lemma clear_mechanism_rows uid (m : Mechanisms (AccountId := AccountId)) ixs index u : NoDup ixs ->
  let m' := foldl (clear_mechanism uid) m ixs in
  if decide (index ∈ ixs) then
    ConsensusByMechanism m' !! index = (fun v => set_element_at v uid 0) <$> ConsensusByMechanism m !! index /\
    Weights m' !! (index, u) =
      (if decide (u = uid) then None else zero_weight uid <$> Weights m !! (index, u)) /\
    Bonds m' !! (index, u) = (if decide (u = uid) then None else Bonds m !! (index, u))
  else
    ConsensusByMechanism m' !! index = ConsensusByMechanism m !! index /\
    Weights m' !! (index, u) = Weights m !! (index, u) /\ Bonds m' !! (index, u) = Bonds m !! (index, u).
Proof.
  revert m. induction ixs as [|i ixs IH]; intros m Hnd; cbv zeta.
  { by rewrite decide_False by apply not_elem_of_nil. }
  apply list.NoDup_cons in Hnd as [Hi Hnd]. specialize (IH (clear_mechanism uid m i) Hnd). cbv zeta in IH.
  cbn [foldl]. set (m' := foldl _ _ ixs) in *. clearbody m'.
  assert (Hw : Weights (clear_mechanism uid m i) !! (index, u) =
    (if decide (index = i /\ u = uid) then None
     else (fun row => if decide (index = i) then zero_weight uid row else row) <$> Weights m !! (index, u))).
  { simpl. rewrite map_lookup_imap, lookup_delete. destruct (decide ((i, uid) = (index, u))) as [[= -> ->]|Hne].
    - by rewrite decide_True.
    - rewrite decide_False by (intros [-> ->]; done). by destruct (Weights m !! (index, u)). }
  assert (Hb : Bonds (clear_mechanism uid m i) !! (index, u) =
    (if decide (index = i /\ u = uid) then None else Bonds m !! (index, u))).
  { simpl. rewrite lookup_delete. repeat case_decide; naive_solver. }
  assert (Hc : ConsensusByMechanism (clear_mechanism uid m i) !! index =
    (fun v => if decide (index = i) then set_element_at v uid 0 else v) <$> ConsensusByMechanism m !! index).
  { simpl. destruct (decide (index = i)) as [->|Hne].
    - destruct (ConsensusByMechanism m !! i) eqn:E; [by rewrite lookup_insert_eq|by rewrite E].
    - rewrite option_fmap_id. by destruct (ConsensusByMechanism m !! i); [rewrite lookup_insert_ne|]. }
  rewrite Hw, Hb, Hc in IH. destruct (decide (index = i)) as [->|Hne].
  - rewrite decide_False in IH by done. rewrite decide_True by left. destruct IH as (-> & -> & ->).
    destruct (decide (u = uid)); [rewrite !decide_True by done|rewrite !decide_False by tauto]; done.
  - rewrite !(decide_False (P := index = i /\ u = uid)) in IH by tauto. rewrite !option_fmap_id in IH.
    destruct (decide (index ∈ ixs)) as [Hin|Hin].
    + by rewrite (decide_True (P := index ∈ i :: ixs)) by by right.
    + by rewrite (decide_False (P := index ∈ i :: ixs)) by (by intros [?|?]%elem_of_cons).
Qed.

Lemma set_active_vectors_eq uid b s : (uid < length (Active (vectors s)))%nat ->
  vectors (set_active_for_uid uid b s) =
  let v := vectors s in mkVectors (<[uid := b]> (Active v)) (Emission v) (Consensus v) (Dividends v)
    (ValidatorTrust v) (ValidatorPermit v) (StakeWeight v).
Proof. intros [a Ha]%lookup_lt_is_Some_2. unfold set_active_for_uid. by rewrite Ha. Qed.

Lemma replaced_neurons dh uid h b s h0 s' :
  env_ok -> neurons_ok s -> Keys (slots s) !! uid = Some h0 -> Uids (slots s) !! h = None ->
  replace_neuron env out dh uid h b s = (true, s') ->
  new_neuron s' uid h b /\ (forall u, u <> uid -> same_neuron s s' u u /\ same_permit s s' u u) /\ blank s' uid /\
  (forall index u, index ∈ mech_indices env -> u <> uid ->
     Weights (mechs s') !! (index, u) = zero_weight uid <$> Weights (mechs s) !! (index, u) /\
     Bonds (mechs s') !! (index, u) = Bonds (mechs s) !! (index, u)).
Proof.
  intros He [Hs Hv Hi Hev Hm] Hk Hh Hr.
  assert (Hlt : (uid < SubnetworkN (slots s))%nat) by (apply (slots_dense _ Hs); eauto).
  pose proof (replace_neuron_effect dh uid h b s h0 Hk) as Heff. rewrite Hr in Heff.
  destruct Heff as (_ & E1 & E2 & E3 & E4 & _ & _ & Er & Hup). specialize (Hup Hlt). injection Er as Ec Ew Eb.
  assert (Hcl : forall index u, index ∈ mech_indices env -> _) by (intros index u Hin;
    pose proof (clear_mechanism_rows uid (mechs s) _ index u (mech_indices_NoDup He)) as Hc; cbv zeta in Hc;
    rewrite decide_True in Hc by done; rewrite <- Ec, <- Ew, <- Eb in Hc; exact Hc). clear Ec Ew Eb.
  destruct (remove_evm_spec _ _ uid Hev) as [Hf _].
  pose proof Hv as (Ha & Hem & Hc & Hdv & Ht & Hp).
  simpl in E2. rewrite set_active_vectors_eq in E2 by lia. simpl in E2.
  assert (Hst : forall u, stake_of s' u = if decide (u = uid) then 0 else stake_of s u).
  { intros u. unfold stake_of. rewrite E2. simpl. rewrite set_element_at_lookup.
    repeat case_decide; try done; try tauto. subst u. by rewrite lookup_ge_None_2 by lia. }
  assert (Hco : forall index u, index ∈ mech_indices env -> consensus_in s' index u =
    if decide (u = uid) then (fun _ => 0) <$> ConsensusByMechanism (mechs s) !! index else consensus_in s index u).
  { intros index u Hin. unfold consensus_in. rewrite (proj1 (Hcl index u Hin)).
    destruct (ConsensusByMechanism (mechs s) !! index) as [v|]; simpl; [|by case_decide]. rewrite set_element_at_lookup.
    repeat case_decide; try done; try tauto. subst u. by rewrite lookup_ge_None_2 by lia. }
  split_and!.
  - split; rewrite ?E1, ?E2, ?E3, ?E4, ?Hf; simpl; rewrite ?lookup_insert_eq, ?lookup_delete_eq; try done;
      rewrite ?set_element_at_lookup, ?decide_True by lia; try done.
    + apply list_lookup_insert_eq. lia.
    + intros index Hin. rewrite clear_mechanism_lookup, decide_True by done.
      rewrite set_element_at_lookup, decide_True; [done|]. split; [done|]. by rewrite Hi.
    + intros index Hin. destruct (Hup index) as [Hx _]. by rewrite decide_True in Hx.
  - intros u Hu.
    split; [|unfold same_permit; rewrite E2; simpl; by rewrite set_element_at_lookup, decide_False by tauto].
    split; rewrite ?E1, ?E2, ?E3, ?E4, ?Hf; simpl;
      rewrite ?lookup_insert_ne, ?lookup_delete_ne by done; try done;
      rewrite ?set_element_at_lookup, ?decide_False by tauto; try done.
    + by apply list_lookup_insert_ne.
    + intros index Hin. rewrite clear_mechanism_lookup, decide_True by done.
      by rewrite set_element_at_lookup, decide_False by tauto.
    + by rewrite Hst, decide_False.
    + intros index Hin. by rewrite Hco, decide_False.
    + intros index Hin. by apply Hup.
  - split.
    + by rewrite Hst, decide_True.
    + intros index Hin. rewrite Hco, decide_True by done. by destruct (_ !! index).
    + intros index Hin. destruct (Hcl index uid Hin) as (_ & -> & _). by rewrite decide_True.
    + intros index Hin. destruct (Hcl index uid Hin) as (_ & _ & ->). by rewrite decide_True.
  - intros index u Hin Hu. destruct (Hcl index u Hin) as (_ & -> & ->). by rewrite !decide_False.
Qed.

Lemma eligible_key s b c : eligible s b c ->
  (c.2 < get_subnetwork_n s)%nat /\
  exists h, Keys (slots s) !! c.2 = Some h /\ h ∉ get_immune_owner_hotkeys env s (SubnetOwner env).
Proof.
  intros (u & Hu & Hc & _). unfold prune_candidate in Hc. case_match; [|done]. case_decide; [done|].
  simplify_eq. simpl. apply elem_of_seq in Hu. split; [lia|eauto].
Qed.

Lemma prune_key s uid : neurons_ok s -> get_neuron_to_prune env s = Some uid ->
  (uid < get_subnetwork_n s)%nat /\
  exists h, Keys (slots s) !! uid = Some h /\ h ∉ get_immune_owner_hotkeys env s (SubnetOwner env).
Proof.
  intros Hok. destruct (prune_cases s Hok) as (bn & bi & Hn & Hi & ->). intros Hp.
  destruct bn as [c|]; [case_match; [simplify_eq; apply (eligible_key s false), Hn|]|];
    (destruct bi as [d|]; [simplify_eq/=; apply (eligible_key s true), Hi|done]).
Qed.

Lemma append_vacant s s' n : rows s' = rows s -> StakeWeight (vectors s') = StakeWeight (vectors s) ->
  ((get_subnetwork_n s <= get_subnetwork_n s')%nat -> vacant s -> vacant s') /\ (blank s n -> blank s' n).
Proof.
  intros [= Ec Ew Eb] Es.
  assert (Hb : forall u, blank s u -> blank s' u).
  { intros u []. by split; unfold stake_of, consensus_in in *; rewrite ?Ec, ?Ew, ?Eb, ?Es. }
  split; [|apply Hb]. intros Hle Hv u Hu. apply Hb, Hv. lia.
Qed.

(** (C26) Registering a hotkey that the subnet does not know keeps
    the neuron storage well formed.  On success the hotkey holds the returned uid
    as a fresh neuron, updated in this block in every mechanism, and the scores of every
    other neuron, its last updates and its EVM address are untouched.  A subnet with room
    gets one more neuron, and no weight, bond or item of a hotkey changes.  A full subnet
    keeps its size and gives up one neuron, which belongs neither to the immortal hotkeys
    of the owner nor to the subnet owner's hotkey: its hotkey is a member no more and loses
    its items, its stake weight, consensus, weights and bonds are gone, the weights that
    others gave it become zero, and all other weights and all other bonds stay.  If nothing
    was stored beyond the neurons, this stays so, and nothing old is found at the uid.  On
    failure the neurons are as they were. *)
Theorem registration_rules dh h s :
  env_ok -> neurons_ok s -> Uids (slots s) !! h = None ->
  let '(r, s') := register_neuron env out dh h s in
  neurons_ok s' /\
  match r with
  | Ok uid =>
      new_neuron s' uid h (get_current_block_as_u64 env) /\
      (forall u, u <> uid -> same_neuron s s' u u /\ same_permit s s' u u) /\
      (vacant s -> vacant s' /\ blank s' uid) /\
      ((uid = get_subnetwork_n s /\ (uid < MaxAllowedUids s)%nat /\ get_subnetwork_n s' = Datatypes.S uid /\
        Weights (mechs s') = Weights (mechs s) /\ Bonds (mechs s') = Bonds (mechs s) /\ items s' = items s) \/
       ((MaxAllowedUids s <= get_subnetwork_n s)%nat /\ get_subnetwork_n s' = get_subnetwork_n s /\
        get_neuron_to_prune env s = Some uid /\ blank s' uid /\
        (forall index u, index ∈ mech_indices env -> u <> uid ->
           Weights (mechs s') !! (index, u) = zero_weight uid <$> Weights (mechs s) !! (index, u) /\
           Bonds (mechs s') !! (index, u) = Bonds (mechs s) !! (index, u)) /\
        exists old, Keys (slots s) !! uid = Some old /\ SubnetOwnerHotkey env <> Some old /\
          (old ∉ get_immune_owner_hotkeys env s (SubnetOwner env)) /\
          Uids (slots s') !! old = None /\ (old ∉ IsNetworkMember (slots s')) /\
          items s' = fun i => if decide (i ∈ [Axons; NeuronCertificates; Prometheus; Services])
                              then delete old (items s i) else items s i))
  | Err e => e = NoNeuronIdAvailable /\ exists w, s' = set_world w s
  end.
Proof.
  intros He Hok Hh. unfold register_neuron. destruct (_ <? _)%nat eqn:Emax.
  - apply Nat.ltb_lt in Emax. pose proof (ok_max _ Hok) as Hm.
    change (get_subnetwork_n s) with (SubnetworkN (slots s)) in *.
    destruct (append_neuron_effect h (get_current_block_as_u64 env) s He Hok) as (Hnew & Hsame & Hn & Hit & Hro & Hst); [lia|].
    rewrite u16_add_small in Hn by lia. split; [apply append_neuron_ok; [done..|lia]|].
    destruct (append_vacant _ _ (SubnetworkN (slots s)) Hro Hst) as [Hvac Hbl].
    split_and!; [done..| |].
    + intros Hv. split; [|apply Hbl, Hv; unfold get_subnetwork_n; lia]. apply Hvac; [|done]. unfold get_subnetwork_n. lia.
    + left. change (get_subnetwork_n ?x) with (SubnetworkN (slots x)). rewrite Hn.
      apply pair_eq in Hro as [[_ Hw]%pair_eq Hb]. split_and!; done || lia.
  - apply Nat.ltb_ge in Emax. destruct (get_neuron_to_prune env s) as [uid|] eqn:Ep.
    2: { split; [done|]. split; [done|]. exists (world s). by destruct s. }
    destruct (prune_key s uid Hok Ep) as (Hlt & old & Hold & Himm).
    pose proof (replace_neuron_ok dh uid h (get_current_block_as_u64 env) s Hok Hh Hlt) as Hok'.
    pose proof (replace_neuron_effect dh uid h (get_current_block_as_u64 env) s old Hold) as Heff.
    destruct (replace_neuron _ _ _ _ _ _ _) as [replaced s'] eqn:Er. simpl in Hok'.
    destruct replaced; (split; [done|]); [|done].
    destruct Heff as (Howner & Hslots & _ & _ & _ & _ & Hitems & _).
    destruct (replaced_neurons dh uid h _ s old s' He Hok Hold Hh Er) as (Hnew & Hsame & Hbl & Hrows).
    assert (Hn : get_subnetwork_n s' = get_subnetwork_n s) by (unfold get_subnetwork_n; by rewrite Hslots).
    split_and!; [done..| |].
    + intros Hv. split; [|done]. intros u Hu. rewrite Hn in Hu. destruct (Hsame u) as [Hs _]; [lia|].
      destruct (Hv u Hu) as [B1 B2 B3 B4]. split; intros; [by rewrite (same_stake _ _ _ _ Hs)|..].
      * by rewrite (same_consensus_in _ _ _ _ Hs) by done; apply B2.
      * rewrite (proj1 (Hrows index u ltac:(done) ltac:(lia))). by rewrite B3.
      * rewrite (proj2 (Hrows index u ltac:(done) ltac:(lia))). by apply B4.
    + right. split_and!; [done..|].
      assert (old <> h). { intros ->. apply (slots_inverse _ (ok_slots _ Hok)) in Hold. congruence. }
      exists old. rewrite Hslots. simpl. rewrite lookup_insert_ne, lookup_delete_eq by done.
      split_and!; try done. set_solver.
Qed.
End safety.

(** ** A concrete subnet *)

(** Subnet 7 with one mechanism and two uids, taken by hotkeys 11 and 12 at the
    blocks 20 and 30; at block 100 hotkey 13 registers.  Accounts and addresses
    are numbers, the outside world is empty. *)
Module Example.

Definition env : Env (AccountId := nat) :=
  mkEnv 7 true 100 50 1 0 1 1%nat None {[ 11%nat := 1%nat ]} 1 Yuma 256 80.

Definition out : Outside (AccountId := nat) (H160 := nat) (World := unit) :=
  mkOutside (fun _ w => w) (fun _ _ w => (true, w)) (fun _ w => w)
    (fun part whole => 100 * Z.of_nat part / Z.of_nat whole)
    (fun x _ => replicate (SubnetworkN x) 0) (fun _ _ => 0) elements elements
    (fun m => (map_to_list m).*1) map_to_list map_to_list.

Definition empty : State (AccountId := nat) (H160 := nat) (Data := unit) (World := unit) :=
  mkState (mkSlots 0 ∅ ∅ ∅ ∅ ∅) (mkVectors [] [] [] [] [] [] []) (mkMechanisms ∅ ∅ ∅ ∅ ∅ ∅ ∅)
    (mkEvm ∅ ∅) (fun _ => ∅) 2 None [] tt.

Definition full := append_neuron env 12%nat 30 (append_neuron env 11%nat 20 empty).

Lemma env_fine : env_ok env.
Proof. split; simpl; unfold GLOBAL_MAX_SUBNET_COUNT; lia. Qed.

Lemma empty_ok : neurons_ok env empty.
Proof.
  split; [split| | |split|]; simpl; try done; try lia.
  - intros u. rewrite lookup_empty. split; [intros [? ?]; done|lia].
  - intros h. rewrite lookup_empty. split; [by intros ?%not_elem_of_empty|intros [? ?]; done].
  - intros u k b. rewrite !lookup_empty. split; [done|by intros ?%not_elem_of_nil].
  - intros k. rewrite lookup_empty. constructor.
  - intros k. rewrite lookup_empty. simpl. lia.
  - unfold u16_max. lia.
Qed.

Lemma full_ok : neurons_ok env full.
Proof.
  assert (Hn : (2 < Z.to_nat u16_max)%nat) by (unfold u16_max; lia).
  apply append_neuron_ok; [apply env_fine| |reflexivity|change (1 < Z.to_nat u16_max)%nat; lia].
  apply append_neuron_ok; [apply env_fine|apply empty_ok|reflexivity|change (0 < Z.to_nat u16_max)%nat; lia].
Qed.

Lemma prune_choice_witness :
  exists c, c.2 = 1%nat /\ (eligible env full false c \/ eligible env full true c).
Proof.
  pose proof (prune_choice env full full_ok) as Hp.
  change (get_neuron_to_prune env full) with (Some 1%nat) in Hp. destruct Hp as (c & Hc & [Hp|Hp]); exists c; tauto.
Defined.

Lemma registration_rules_witness :
  register_neuron env out 0%nat 13%nat full = (Ok 1%nat, (register_neuron env out 0%nat 13%nat full).2) /\
  new_neuron env (register_neuron env out 0%nat 13%nat full).2 1 13%nat 100 /\
  neurons_ok env (register_neuron env out 0%nat 13%nat full).2.
Proof.
  assert (Hr : register_neuron env out 0%nat 13%nat full = (Ok 1%nat, (register_neuron env out 0%nat 13%nat full).2))
    by (vm_compute; reflexivity).
  pose proof (registration_rules env out 0%nat 13%nat full env_fine full_ok eq_refl) as Hreg.
  rewrite Hr in Hreg. destruct Hreg as (Hok & Hnew & _). by split.
Defined.
End Example.
