(* ===== verification/NeuronsTrim.v ===== *)
(** * NeuronsTrim: trimming keeps the best neurons

    The theorems on the trimming half of Neurons.v.  The loop removes neurons from
    the lowest emitter up, sparing the protected ones ([trim_loop_spec]); the
    compaction moves every kept neuron to its new uid with all its data
    ([compact_spec]), in both consensus modes. *)

From Stdlib Require Import ZArith Lia Sorting.Sorted.
From stdpp Require Import base gmap list fin_maps.
From S2P Require Import Prelude Neurons NeuronsSafety.

(** The order in which storage is iterated is not known, its contents are; the
    election of a Null subnet sees one stake per uid. *)
Class OutsideLaws {AccountId} `{Countable AccountId} {H160} `{Countable H160} {World}
    (out : Outside (AccountId := AccountId) (H160 := H160) (World := World)) : Prop := {
  iter_evm_perm m : iter_evm out m ≡ₚ map_to_list m;
  iter_commits_perm m : iter_commits out m ≡ₚ elements m;
  iter_timelocked_perm m : iter_timelocked out m ≡ₚ elements m;
  null_stakes_length x w : length (get_null_stake_weights_for_network out x w) = SubnetworkN x;
}.

Section trim.
Context {AccountId : Type} `{Countable AccountId} {H160 : Type} `{Countable H160} {Data World : Type}.
Abbreviation State := (State (AccountId := AccountId) (H160 := H160) (Data := Data) (World := World)).
Abbreviation Slots := (Slots (AccountId := AccountId)).
Context (env : Env (AccountId := AccountId)).
Context (out : Outside (AccountId := AccountId) (H160 := H160) (World := World)).
Context `{!OutsideLaws out}.
Implicit Types (s : State) (h : AccountId) (uid : nat) (removed : list nat).

(** The scores and the last updates in every mechanism. *)
Definition scores (m : Mechanisms (AccountId := AccountId)) := (Incentive m, ConsensusByMechanism m, LastUpdate m).

Lemma scores_eq (m m' : Mechanisms (AccountId := AccountId)) : scores m' = scores m ->
  Incentive m' = Incentive m /\ ConsensusByMechanism m' = ConsensusByMechanism m /\ LastUpdate m' = LastUpdate m.
Proof. by intros [[-> ->]%pair_eq ->]%pair_eq. Qed.

(** ** Removing neurons *)

(** [s] is [s0] without the neurons [removed]; the vectors still have their entries. *)
Record partial removed s0 s : Prop := {
  part_keys uid : Keys (slots s) !! uid = if decide (uid ∈ removed) then None else Keys (slots s0) !! uid;
  part_block uid : uid ∉ removed ->
    BlockAtRegistration (slots s) !! uid = BlockAtRegistration (slots s0) !! uid;
  part_uids h uid : Uids (slots s) !! h = Some uid <-> Uids (slots s0) !! h = Some uid /\ uid ∉ removed;
  part_members h : h ∈ IsNetworkMember (slots s) <-> is_Some (Uids (slots s) !! h);
  part_n : SubnetworkN (slots s) = SubnetworkN (slots s0);
  part_vectors : vectors s = vectors s0;
  part_scores : scores (mechs s) = scores (mechs s0);
  part_weights index uid : index ∈ mech_indices env -> Weights (mechs s) !! (index, uid) =
    if decide (uid ∈ removed) then None else Weights (mechs s0) !! (index, uid);
  part_bonds index uid : index ∈ mech_indices env -> Bonds (mechs s) !! (index, uid) =
    if decide (uid ∈ removed) then None else Bonds (mechs s0) !! (index, uid);
  part_address uid : AssociatedEvmAddress (evm s) !! uid =
    if decide (uid ∈ removed) then None else AssociatedEvmAddress (evm s0) !! uid;
  part_evm : evm_ok (SubnetworkN (slots s0)) (evm s);
  part_max : MaxAllowedUids s = MaxAllowedUids s0;
}.

Lemma partial_start s : neurons_ok env s -> partial [] s s.
Proof.
  intros [Hs Hv Hi Hev Hm].
  assert (Hnil : forall u : nat, u ∉ []) by (intros; apply not_elem_of_nil).
  split; intros; rewrite ?decide_False by done; try done.
  - split; [by split|by intros [? _]].
  - apply (slots_members _ Hs).
Qed.

Lemma trim_uid_rows uid s (ixs : list Z) (rows : Mechanisms (AccountId := AccountId) -> gmap (Z * nat) (list (nat * Z))) :
  rows = Weights \/ rows = Bonds -> forall index u,
  rows (mechs (foldl (fun s index =>
      let m := mechs s in
      set_mechs (mkMechanisms (Incentive m) (ConsensusByMechanism m) (LastUpdate m)
        (delete (index, uid) (Weights m)) (delete (index, uid) (Bonds m)) (WeightCommits m)
        (TimelockedWeightCommits m)) s) s ixs)) !! (index, u) =
  if decide (index ∈ ixs /\ u = uid) then None else rows (mechs s) !! (index, u).
Proof.
  intros Hrows index u. revert s. induction ixs as [|i ixs IH]; intros s.
  { rewrite decide_False by (intros [?%not_elem_of_nil _]; done). done. }
  simpl. rewrite IH. assert (Hd : forall m : gmap (Z * nat) (list (nat * Z)), delete (i, uid) m !! (index, u) =
    if decide (index = i /\ u = uid) then None else m !! (index, u)).
  { intros m. rewrite lookup_delete. repeat case_decide; naive_solver. }
  destruct Hrows as [-> | ->]; simpl; rewrite Hd; repeat case_decide; set_solver.
Qed.

Lemma trim_uid_frame uid s :
  let s' := trim_uid env uid s in
  slots s' = mkSlots (SubnetworkN (slots s)) (delete uid (Keys (slots s))) (Uids (slots s))
    (IsNetworkMember (slots s)) (delete uid (BlockAtRegistration (slots s))) (HotkeySuccessor (slots s)) /\
  evm s' = remove_associated_evm_address uid (evm s) /\ vectors s' = vectors s /\
  scores (mechs s') = scores (mechs s) /\ MaxAllowedUids s' = MaxAllowedUids s.
Proof.
  unfold trim_uid. simpl. split_and!;
    match goal with |- ?f (foldl _ _ _) = _ => rewrite (foldl_fixed f) by done; done
    | |- scores (mechs (foldl _ _ _)) = _ => rewrite (foldl_fixed (fun s => scores (mechs s))) by done; done
    end.
Qed.

(** The state once the hotkey of [uid] is gone but not yet the uid. *)
Lemma trim_hotkey_effect uid h s s' : trim_hotkey env out uid h s = (Ok tt, s') ->
  slots s' = mkSlots (SubnetworkN (slots s)) (Keys (slots s)) (delete h (Uids (slots s)))
    (IsNetworkMember (slots s) ∖ {[h]}) (BlockAtRegistration (slots s)) (HotkeySuccessor (slots s)) /\
  evm s' = evm s /\ vectors s' = vectors s /\ mechs s' = mechs s /\ MaxAllowedUids s' = MaxAllowedUids s.
Proof.
  unfold trim_hotkey. intros Ht. minv. destruct (is_root env) eqn:Er.
  - unfold prepare_root_neuron_for_removal in *. simpl in *.
    destruct (flush_basket_deposits_for_hotkey _ _ _ _). simplify_eq/=. done.
  - simplify_eq/=. done.
Qed.

Lemma trim_neuron_partial removed uid s0 s s' :
  neurons_ok env s0 -> partial removed s0 s -> uid ∉ removed -> (uid < SubnetworkN (slots s0))%nat ->
  trim_neuron env out uid s = (Ok tt, s') -> partial (uid :: removed) s0 s'.
Proof.
  intros Hok Hp Hnr Hlt Ht. destruct (slots_dense _ (ok_slots _ _ Hok) uid) as [_ [h Hh]]; [done|].
  assert (Hk : Keys (slots s) !! uid = Some h) by by rewrite (part_keys _ _ _ Hp), decide_False.
  unfold trim_neuron in Ht. minv. rewrite Hk in *. rename select (trim_hotkey _ _ _ _ _ = _) into Hhk.
  assert (Hu : Uids (slots s0) !! h = Some uid) by by apply (slots_inverse _ (ok_slots _ _ Hok)).
  match type of Hhk with _ = (Ok ?u, ?x) => destruct u; rename x into s1 end.
  destruct (trim_hotkey_effect _ _ _ _ Hhk) as (E1 & E2 & E3 & E4 & E5).
  destruct (trim_uid_frame uid s1) as (F1 & F2 & F3 & F4 & F5).
  destruct (remove_evm_spec _ _ uid (part_evm _ _ _ Hp)) as [Hfw _].
  assert (Hin : forall u, u ∈ uid :: removed <-> u = uid \/ u ∈ removed) by (intros; apply elem_of_cons).
  destruct Hp as [P1 P2 P3 P4 P5 P6 P7 P8 P9 P10 P11 P12]. split; intros; rewrite ?F1, ?F2, ?F3, ?F4, ?F5; simpl;
    rewrite ?E1, ?E2, ?E3, ?E4, ?E5; simpl; try done.
  - rewrite lookup_delete, P1. repeat case_decide; set_solver.
  - rewrite lookup_delete_ne, P2 by set_solver. done.
  - rewrite lookup_delete_Some, P3, Hin. split; [|naive_solver]. intros (Hne & Hu' & Hr). split; [done|].
    intros [->|?]; [|done]. apply Hne. apply (slots_inverse _ (ok_slots _ _ Hok)) in Hu', Hu. congruence.
  - rewrite elem_of_difference, elem_of_singleton, P4, lookup_delete. case_decide; naive_solver.
  - unfold trim_uid. rewrite (trim_uid_rows _ _ _ Weights) by auto. simpl. rewrite E4, P8 by done.
    repeat case_decide; set_solver.
  - unfold trim_uid. rewrite (trim_uid_rows _ _ _ Bonds) by auto. simpl. rewrite E4, P9 by done.
    repeat case_decide; set_solver.
  - rewrite Hfw, lookup_delete, P10. repeat case_decide; set_solver.
  - by apply remove_evm_ok.
Qed.

(** ** The loop *)

(** A neuron that trimming spares: one of the owner's, or in its immunity period. *)
Definition protected s (owner_uids : list nat) uid : Prop :=
  uid ∈ owner_uids \/ get_neuron_is_immune env s uid = true.

#[global] Instance protected_dec s owner_uids uid : Decision (protected s owner_uids uid).
Proof. unfold protected. apply _. Defined.

Lemma partial_immune removed s0 s uid : partial removed s0 s -> uid ∉ removed ->
  get_neuron_is_immune env s uid = get_neuron_is_immune env s0 uid.
Proof.
  intros Hp Hnr. unfold get_neuron_is_immune, get_neuron_block_at_registration.
  by rewrite (part_block _ _ _ Hp).
Qed.

Section loop.
Context (s0 : State) (owner_uids : list nat) (max_n : nat) (L : list (nat * Z)).
Context (Hok : neurons_ok env s0) (HL : NoDup L.*1) (HLn : forall uid, uid ∈ L.*1 -> (uid < SubnetworkN (slots s0))%nat).

(** After the positions from [i] on are visited: those of them that stay are
    protected, those removed are not. *)
Record visited (i : nat) (emissions : list (nat * Z)) removed (uids_left : nat) s : Prop := {
  vis_bound : (i <= length L)%nat;
  vis_lists : exists tail rm, emissions = take i L ++ tail /\ drop i L ≡ₚ tail ++ rm /\ removed = rm.*1 /\
    Forall (fun e => protected s0 owner_uids e.1) tail /\ Forall (fun e => ~ protected s0 owner_uids e.1) rm;
  vis_left : (uids_left = length emissions)%nat;
  vis_state : partial removed s0 s;
}.

Lemma visited_skip i emissions removed left s uid e :
  visited (Datatypes.S i) emissions removed left s -> emissions !! i = Some (uid, e) ->
  protected s0 owner_uids uid -> visited i emissions removed left s.
Proof.
  intros [Hb (tail & rm & -> & Hd & -> & Ht & Hr) Hleft Hp] Hi Hpr.
  assert (Hx : L !! i = Some (uid, e)).
  { rewrite lookup_app_l, lookup_take_lt in Hi by (rewrite ?length_take; lia). done. }
  split; [lia| |done..]. exists ((uid, e) :: tail), rm. split_and!; [|..|done]; try done.
  - by rewrite (take_S_r _ _ _ Hx), <- app_assoc.
  - rewrite (drop_S _ _ _ Hx), Hd. done.
  - by constructor.
Qed.

Lemma visited_remove i emissions removed left s s' uid e :
  visited (Datatypes.S i) emissions removed left s -> emissions !! i = Some (uid, e) ->
  ~ protected s0 owner_uids uid -> partial (uid :: removed) s0 s' ->
  visited i (delete i emissions) (uid :: removed) (left - 1) s'.
Proof.
  intros [Hb (tail & rm & -> & Hd & -> & Ht & Hr) Hleft Hp] Hi Hpr Hp'.
  assert (Hx : L !! i = Some (uid, e)).
  { rewrite lookup_app_l, lookup_take_lt in Hi by (rewrite ?length_take; lia). done. }
  assert (Hdel : delete i (take (Datatypes.S i) L ++ tail) = take i L ++ tail).
  { rewrite (take_S_r _ _ _ Hx), <- app_assoc. simpl. rewrite <- (length_take_le L i) at 1 by lia.
    apply delete_middle. }
  split; [lia| | |done].
  - exists tail, ((uid, e) :: rm). split_and!; [done| |done..|by constructor].
    rewrite (drop_S _ _ _ Hx), Hd. apply Permutation_middle.
  - rewrite Hdel, Hleft, (take_S_r _ _ _ Hx), !length_app. simpl. lia.
Qed.

Lemma visited_fresh i emissions removed left s uid e :
  visited (Datatypes.S i) emissions removed left s -> emissions !! i = Some (uid, e) ->
  (uid < SubnetworkN (slots s0))%nat /\ uid ∉ removed.
Proof.
  intros [Hb (tail & rm & -> & Hd & -> & _ & _) _ _] Hi.
  assert (Hx : L !! i = Some (uid, e)).
  { rewrite lookup_app_l, lookup_take_lt in Hi by (rewrite ?length_take; lia). done. }
  split; [apply HLn; apply list_elem_of_fmap; exists (uid, e); split; [done|by eapply list_elem_of_lookup_2]|].
  rewrite <- (take_drop (Datatypes.S i) L), (take_S_r _ _ _ Hx), Hd, !fmap_app in HL.
  apply NoDup_app in HL as (_ & Hdis & _). intros Hin. apply (Hdis uid); set_solver.
Qed.

Lemma trim_loop_spec i emissions removed left s emissions' removed' left' s' :
  visited i emissions removed left s ->
  trim_loop env out owner_uids max_n i emissions removed left s = (Ok (emissions', removed', left'), s') ->
  exists j, visited j emissions' removed' left' s'.
Proof.
  revert emissions removed left s. induction i as [|i IH]; intros emissions removed left s Hv Hrun; simpl in Hrun.
  { minv. simplify_eq. eauto. }
  case_decide; [minv; simplify_eq; eauto|].
  destruct (emissions !! i) as [[uid e]|] eqn:Ei.
  - destruct (visited_fresh _ _ _ _ _ _ _ Hv Ei) as [Hlt Hfresh].
    rewrite as_u16_id in Hrun by (pose proof (slots_u16 _ (ok_slots _ _ Hok)); lia).
    minv. case_match eqn:Eimm.
    + apply (IH emissions removed left s); [|done]. eapply visited_skip; [done..|].
      rewrite (partial_immune _ _ _ _ (vis_state _ _ _ _ _ Hv) Hfresh) in Eimm.
      apply orb_true_iff in Eimm as [?%bool_decide_eq_true|?]; [by left|by right].
    + rewrite (partial_immune _ _ _ _ (vis_state _ _ _ _ _ Hv) Hfresh) in Eimm.
      apply orb_false_iff in Eimm as [Ho%bool_decide_eq_false Eimm]. minv.
      match goal with Ht : trim_neuron _ _ _ _ = (Ok ?u, _) |- _ => destruct u;
        apply (trim_neuron_partial _ _ _ _ _ Hok (vis_state _ _ _ _ _ Hv) Hfresh Hlt) in Ht end.
      eapply IH; [|done]. eapply visited_remove; [done..| |done]. unfold protected. rewrite Eimm. naive_solver.
  - destruct Hv as [Hb (tail & rm & -> & _) _ _]. exfalso.
    apply lookup_ge_None in Ei. rewrite length_app, length_take in Ei. lia.
Qed.
End loop.

(** ** What is kept *)

(** The outcome of the loop: [emissions] lists the neurons kept. *)
Record cut (s0 : State) (owner_uids : list nat) (max_n : nat) (emissions : list (nat * Z)) removed : Prop := {
  cut_length : length emissions = max_n;
  cut_NoDup : NoDup emissions.*1;
  cut_uids uid : uid ∈ emissions.*1 <-> (uid < SubnetworkN (slots s0))%nat /\ uid ∉ removed;
  cut_values uid e : (uid, e) ∈ emissions -> Emission (vectors s0) !! uid = Some e;
  cut_removed uid : uid ∈ removed ->
    (uid < SubnetworkN (slots s0))%nat /\ ~ protected s0 owner_uids uid /\
    forall kept, kept ∈ emissions.*1 -> ~ protected s0 owner_uids kept ->
      default 0 (Emission (vectors s0) !! uid) <= default 0 (Emission (vectors s0) !! kept);
}.

Lemma indexed_elem {A} (l : list A) i x : (i, x) ∈ indexed l <-> l !! i = Some x.
Proof. unfold indexed. rewrite elem_of_lookup_imap. naive_solver. Qed.

Lemma indexed_fst {A} (l : list A) : (indexed l).*1 = seq 0 (length l).
Proof.
  unfold indexed. rewrite fmap_imap. apply list_eq. intros i. rewrite list_lookup_imap.
  destruct (decide (i < length l)%nat) as [Hi|Hi].
  - destruct (lookup_lt_is_Some_2 l i Hi) as [x Hx]. rewrite Hx, lookup_seq_lt by done. done.
  - rewrite !lookup_ge_None_2; [done|rewrite length_seq; lia|lia].
Qed.

Lemma sorted_emissions s0 : neurons_ok env s0 ->
  let L := sort_by by_emission (indexed (Emission (vectors s0))) in
  NoDup L.*1 /\ (forall uid, uid ∈ L.*1 <-> (uid < SubnetworkN (slots s0))%nat) /\
  (forall uid e, (uid, e) ∈ L <-> Emission (vectors s0) !! uid = Some e) /\
  length L = SubnetworkN (slots s0).
Proof.
  intros Hok. destruct (ok_vectors _ _ Hok) as (_ & Hem & _). simpl.
  assert (HL : sort_by by_emission (indexed (Emission (vectors s0))) ≡ₚ indexed (Emission (vectors s0)))
    by apply sort_by_perm.
  split_and!.
  - rewrite HL, indexed_fst. apply NoDup_seq.
  - intros uid. rewrite HL, indexed_fst, elem_of_seq. lia.
  - intros uid e. rewrite HL. apply indexed_elem.
  - rewrite HL. unfold indexed. by rewrite length_imap.
Qed.

Lemma visited_cut s0 owner_uids max_n emissions removed s j : neurons_ok env s0 ->
  visited s0 owner_uids (sort_by by_emission (indexed (Emission (vectors s0)))) j emissions removed max_n s ->
  cut s0 owner_uids max_n emissions removed.
Proof.
  intros Hok [Hb (tail & rm & -> & Hd & -> & Ht & Hr) Hleft _].
  destruct (sorted_emissions s0 Hok) as (Hnd & Hin & Hval & Hlen).
  pose proof (sort_by_StronglySorted by_emission by_emission_total by_emission_trans
    (indexed (Emission (vectors s0)))) as Hsort.
  set (L := sort_by _ _) in *. rewrite <- (take_drop j L) in Hsort.
  assert (HL : L ≡ₚ (take j L ++ tail) ++ rm) by (by rewrite <- app_assoc, <- Hd, take_drop).
  assert (HL1 : forall uid, uid ∈ L.*1 <-> uid ∈ (take j L ++ tail).*1 \/ uid ∈ rm.*1).
  { intros uid. rewrite HL at 1. rewrite fmap_app. apply elem_of_app. }
  assert (HL2 : forall x, x ∈ L <-> x ∈ take j L ++ tail \/ x ∈ rm).
  { intros x. rewrite HL at 1. apply elem_of_app. }
  assert (Hdef : forall uid e, (uid, e) ∈ L -> default 0 (Emission (vectors s0) !! uid) = e).
  { intros uid e He%Hval. by rewrite He. }
  rewrite HL, fmap_app in Hnd. clear HL. apply NoDup_app in Hnd as (Hnd & Hdis & _).
  rewrite Forall_forall in Ht, Hr. split; [done|done| | |].
  - intros uid. rewrite <- Hin, HL1. naive_solver.
  - intros uid e He. apply Hval, HL2. by left.
  - intros uid ([u e] & -> & He)%list_elem_of_fmap. split_and!.
    + apply Hin, HL1. right. apply list_elem_of_fmap. eauto.
    + by apply Hr.
    + intros kept ([k e'] & -> & He')%list_elem_of_fmap Hkp. simpl in *.
      apply elem_of_app in He' as [He'|He']; [|by destruct Hkp; apply (Ht _ He')].
      rewrite (Hdef u e), (Hdef k e') by (apply HL2; set_solver).
      assert (Hs : by_emission (k, e') (u, e) = true).
      { apply (StronglySorted_app_le _ _ _ _ _ Hsort); [done|]. rewrite Hd. set_solver. }
      unfold by_emission in Hs. apply Z.leb_le in Hs. done.
Qed.

(** ** The layout *)

(** The old uid of every new slot: all kept uids, none moving up, with the
    emissions in the new order. *)
Record layout (s0 : State) (max_n : nat) removed (us : list nat) (es : list Z) : Prop := {
  lay_length : length us = max_n;
  lay_NoDup : NoDup us;
  lay_uids uid : uid ∈ us <-> (uid < SubnetworkN (slots s0))%nat /\ uid ∉ removed;
  lay_down i uid : us !! i = Some uid -> (i <= uid)%nat;
  lay_emissions : length es = max_n /\
    forall i uid, us !! i = Some uid -> es !! i = Emission (vectors s0) !! uid;
}.

Lemma ascending_down (us : list nat) i uid :
  StronglySorted (fun a b => a < b)%nat us -> us !! i = Some uid -> (i <= uid)%nat.
Proof.
  intros Hs. enough (Hgen : forall b, Forall (fun u => b <= u)%nat us -> us !! i = Some uid -> (b + i <= uid)%nat).
  { apply (Hgen 0%nat). apply Forall_forall. lia. }
  revert i. induction Hs as [|u us Hs IH Hu]; intros i b Hb; [done|].
  inversion Hb as [|? ? Hbu Hbs]; subst. destruct i as [|i]; simpl; [intros; simplify_eq; lia|].
  intros Hi. specialize (IH i (Datatypes.S b)). enough (Datatypes.S b + i <= uid)%nat by lia.
  apply IH; [|done]. eapply Forall_impl; [exact Hu|]. simpl. lia.
Qed.

Lemma sort_by_uid_ascending {B} (l : list (nat * B)) : NoDup l.*1 ->
  StronglySorted (fun a b => a.1 < b.1)%nat (sort_by by_uid l).
Proof.
  intros Hnd. pose proof (sort_by_StronglySorted by_uid by_uid_total by_uid_trans l) as Hs.
  assert (Hnd' : NoDup (sort_by by_uid l).*1) by by rewrite sort_by_perm.
  induction Hs as [|p l' Hs IH Hp]; [constructor|]. csimpl in Hnd'. apply NoDup_cons in Hnd' as [Hni Hnd'].
  constructor; [by apply IH|]. rewrite Forall_forall in *. intros q Hq. specialize (Hp q Hq).
  unfold by_uid in Hp. apply bool_decide_eq_true in Hp.
  assert (p.1 <> q.1) by (intros E; apply Hni; rewrite E; apply list_elem_of_fmap; eauto). lia.
Qed.

Lemma StronglySorted_fst {B} (l : list (nat * B)) :
  StronglySorted (fun a b => a.1 < b.1)%nat l -> StronglySorted (fun a b => a < b)%nat l.*1.
Proof.
  induction 1 as [|p l Hs IH Hp]; [constructor|]. csimpl. constructor; [done|]. by apply Forall_fmap.
Qed.

Lemma yuma_layout s0 owner_uids max_n emissions removed :
  cut s0 owner_uids max_n emissions removed ->
  let kept := sort_by by_uid emissions in layout s0 max_n removed kept.*1 kept.*2.
Proof.
  intros [Hl Hnd Hin Hval _]. simpl.
  assert (Hperm : sort_by by_uid emissions ≡ₚ emissions) by apply sort_by_perm. split.
  - by rewrite length_fmap, Hperm.
  - by rewrite Hperm.
  - intros uid. by rewrite Hperm.
  - intros i uid. apply ascending_down, StronglySorted_fst, sort_by_uid_ascending, Hnd.
  - split; [by rewrite length_fmap, Hperm|]. intros i uid. rewrite !list_lookup_fmap.
    destruct (sort_by by_uid emissions !! i) as [[u e]|] eqn:E; [|done]. simpl. intros [= ->].
    symmetry. apply Hval. rewrite <- Hperm. by eapply list_elem_of_lookup_2.
Qed.

(** Null subnets: writing the tails into the holes. *)
Lemma fill_spec {A} (ps : list (nat * A)) (us : list A) :
  NoDup ps.*1 -> Forall (fun p => p.1 < length us)%nat ps ->
  let us' := foldl (fun us '(hole, tail) => set_element_at us hole tail) us ps in
  length us' = length us /\ (forall p, p ∈ ps -> us' !! p.1 = Some p.2) /\
  (forall i, i ∉ ps.*1 -> us' !! i = us !! i).
Proof.
  revert us. induction ps as [|[hole tail] ps IH]; intros us Hnd Hf; simpl.
  { split_and!; [done|by intros ? ?%not_elem_of_nil|done]. }
  csimpl in Hnd. apply NoDup_cons in Hnd as [Hni Hnd]. inversion Hf as [|? ? Hh Hf']; subst. simpl in Hh.
  unfold set_element_at at 2 4 6. rewrite decide_True by done. destruct (IH (<[hole := tail]> us)) as (I1 & I2 & I3); [done| |].
  { by rewrite length_insert. }
  rewrite length_insert in I1. split_and!; [done| |].
  - intros p [->|Hp]%elem_of_cons; [|by apply I2]. simpl. rewrite I3 by done. by apply list_lookup_insert_eq.
  - intros i. csimpl. intros [Hne Hi]%not_elem_of_cons. rewrite I3 by done. by apply list_lookup_insert_ne.
Qed.

Lemma fill_tails max_n (holes tails : list nat) :
  NoDup holes -> (forall i, i ∈ holes -> (i < max_n)%nat) -> length holes = length tails ->
  let us := foldl (fun us '(hole, tail) => set_element_at us hole tail) (seq 0 max_n) (zip holes tails) in
  length us = max_n /\ (forall i u, us !! i = Some u -> (i < max_n)%nat /\ (u = i /\ i ∉ holes \/ i ∈ holes /\ u ∈ tails)) /\
  (forall i, (i < max_n)%nat -> i ∉ holes -> i ∈ us) /\ (forall u, u ∈ tails -> u ∈ us).
Proof.
  intros Hnd Hh Hlen us. destruct (fill_spec (zip holes tails) (seq 0 max_n)) as (F1 & F2 & F3).
  { by rewrite fst_zip by lia. }
  { apply Forall_forall. intros p Hp%(list_elem_of_fmap_2 fst). rewrite fst_zip in Hp by lia.
    rewrite length_seq. by apply Hh. }
  rewrite fst_zip in F3 by lia. rewrite length_seq in F1. fold us in F1, F2, F3.
  assert (Hzip : forall k i u, holes !! k = Some i -> tails !! k = Some u -> us !! i = Some u).
  { intros k i u Hi Hu. apply (F2 (i, u)). eapply (list_elem_of_lookup_2 _ k), lookup_zip_Some; eauto. }
  split_and!; [done| | |].
  - intros i u Hi. assert (Hlt : (i < max_n)%nat) by (rewrite <- F1; by eapply lookup_lt_Some). split; [done|].
    destruct (decide (i ∈ holes)) as [Hih|Hnh].
    + right. split; [done|]. apply list_elem_of_lookup in Hih as [k Hk]. destruct (lookup_lt_is_Some_2 tails k) as [u' Hu']; [rewrite <- Hlen; by eapply lookup_lt_Some|].
      rewrite (Hzip k i u' Hk Hu') in Hi. simplify_eq. by eapply list_elem_of_lookup_2.
    + left. rewrite F3, lookup_seq_lt in Hi by done. by simplify_eq.
  - intros i Hi Hni. apply (list_elem_of_lookup_2 _ i). rewrite F3 by done. by rewrite lookup_seq_lt.
  - intros u [k Hk]%list_elem_of_lookup.
    destruct (lookup_lt_is_Some_2 holes k) as [i Hi]; [rewrite Hlen; by eapply lookup_lt_Some|].
    apply (list_elem_of_lookup_2 _ i). by apply (Hzip k).
Qed.

Lemma null_layout_spec s0 owner_uids max_n emissions removed us :
  cut s0 owner_uids max_n emissions removed -> (max_n <= SubnetworkN (slots s0))%nat ->
  null_layout max_n removed (sort_by by_uid emissions).*1 = Some us ->
  length us = max_n /\ NoDup us /\ (forall i uid, us !! i = Some uid -> (i <= uid)%nat) /\
  (forall uid, uid ∈ us <-> (uid < SubnetworkN (slots s0))%nat /\ uid ∉ removed) /\
  (forall i uid, us !! i = Some uid -> i <> uid -> i ∈ removed).
Proof.
  intros [Hl Hnd Hin _ _] Hmax. unfold null_layout.
  assert (Hperm : (sort_by by_uid emissions).*1 ≡ₚ emissions.*1) by by rewrite sort_by_perm.
  set (kept := (sort_by by_uid emissions).*1) in *. set (holes := filter _ (seq 0 max_n)). set (tails := filter _ kept).
  destruct (Nat.eqb_spec (length holes) (length tails)) as [Hlen|]; [|done]. intros [= <-].
  assert (Hholes : forall i, i ∈ holes <-> i ∈ removed /\ (i < max_n)%nat).
  { intros i. unfold holes. rewrite list_elem_of_filter, elem_of_seq. naive_solver lia. }
  assert (Htails : forall u, u ∈ tails <-> (max_n <= u)%nat /\ (u < SubnetworkN (slots s0))%nat /\ u ∉ removed).
  { intros u. unfold tails. rewrite list_elem_of_filter, Hperm, Hin. done. }
  destruct (fill_tails max_n holes tails) as (F1 & F2 & F3 & F4);
    [apply NoDup_filter, NoDup_seq|by intros i [_ ?]%Hholes|done|].
  match goal with |- context [foldl ?f ?b ?l] => change (foldl f b l) with
    (foldl (fun us '(hole, tail) => set_element_at us hole tail) (seq 0 max_n) (zip holes tails)) end.
  set (us := foldl _ _ _) in *.
  assert (Hp : emissions.*1 ≡ₚ us).
  { apply submseteq_length_Permutation; [|rewrite length_fmap; lia]. apply NoDup_submseteq; [done|].
    intros uid [Hlt Hnr]%Hin. destruct (decide (uid < max_n)%nat) as [Hm|Hm].
    - apply F3; [done|]. rewrite Hholes. tauto.
    - apply F4, Htails. split_and!; [lia|done..]. }
  split_and!; [done|by rewrite <- Hp| |intros uid; by rewrite <- Hp, Hin|];
    intros i uid Hi; destruct (F2 i uid Hi) as [Hlt [[-> _]|[Hih [? _]%Htails]]]; try lia.
  intros _. by apply Hholes in Hih as [? _].
Qed.

Lemma null_layout_ok s0 owner_uids max_n emissions removed us :
  cut s0 owner_uids max_n emissions removed -> (max_n <= SubnetworkN (slots s0))%nat ->
  let kept := sort_by by_uid emissions in
  null_layout max_n removed kept.*1 = Some us ->
  layout s0 max_n removed us (pick 0 (original_emission (SubnetworkN (slots s0)) kept) us).
Proof.
  intros Hcut Hmax. simpl. intros Hus.
  destruct (null_layout_spec _ _ _ _ _ _ Hcut Hmax Hus) as (Hl & Hnd & Hdown & Hin & _).
  destruct Hcut as [_ Hnd' Hin' Hval _].
  assert (Hperm : sort_by by_uid emissions ≡ₚ emissions) by apply sort_by_perm.
  split; [done..|]. unfold pick. split; [by rewrite length_fmap|]. intros i uid Hi.
  rewrite list_lookup_fmap, Hi. simpl.
  assert (Hu : uid ∈ emissions.*1) by (apply Hin', Hin; by eapply list_elem_of_lookup_2).
  apply list_elem_of_fmap in Hu as ([u e] & -> & He). simpl.
  destruct (fill_spec (sort_by by_uid emissions) (replicate (SubnetworkN (slots s0)) 0)) as (_ & Hf & _).
  - by rewrite Hperm.
  - rewrite length_replicate. apply Forall_forall. intros p Hp. apply Hin', list_elem_of_fmap.
    rewrite Hperm in Hp. eauto.
  - assert (Ho : original_emission (SubnetworkN (slots s0)) (sort_by by_uid emissions) !! u = Some e)
      by (apply (Hf (u, e)); by rewrite Hperm).
    rewrite Ho. symmetry. by apply Hval.
Qed.

(** ** The moves *)

Section moves.
Context (us : list nat) (Hnd : NoDup us) (Hdown : forall i uid, us !! i = Some uid -> (i <= uid)%nat).

Lemma uid_map_spec uid i : uid_map us !! uid = Some i <-> us !! i = Some uid.
Proof.
  unfold uid_map. set (l := imap (fun new old => (old, new)) us).
  assert (Hl : forall p, p ∈ l <-> us !! p.2 = Some p.1).
  { intros [u j]. unfold l. rewrite elem_of_lookup_imap. naive_solver. }
  assert (Hfst : l.*1 = us).
  { unfold l. rewrite fmap_imap. apply list_eq. intros j. rewrite list_lookup_imap. by destruct (us !! j). }
  destruct (foldl_insert l (∅ : gmap nat nat)) as [Hin Hout]; [by rewrite Hfst|]. split.
  - intros Hu. destruct (decide (uid ∈ us)) as [[j Hj]%list_elem_of_lookup|Hn].
    + rewrite (Hin uid j) in Hu by by apply Hl. naive_solver.
    + rewrite Hout in Hu by by rewrite Hfst. done.
  - intros Hi. apply Hin, Hl, Hi.
Qed.

Lemma uid_moves_elem q : q ∈ uid_moves (uid_map us) <-> us !! q.2 = Some q.1.
Proof.
  unfold uid_moves. rewrite sort_by_perm. destruct q as [u i]. by rewrite elem_of_map_to_list, uid_map_spec.
Qed.

Lemma uid_moves_downward : downward (uid_moves (uid_map us)).
Proof.
  split_and!.
  - apply sort_by_uid_ascending, NoDup_fst_map_to_list.
  - apply NoDup_fmap_2_strong.
    + intros [u i] [v j] Hq%uid_moves_elem Hq'%uid_moves_elem. naive_solver.
    + unfold uid_moves. rewrite sort_by_perm. apply NoDup_map_to_list.
  - apply Forall_forall. intros q Hq%uid_moves_elem. by apply Hdown.
Qed.

Lemma uid_moves_fst u : u ∈ (uid_moves (uid_map us)).*1 <-> u ∈ us.
Proof.
  rewrite list_elem_of_fmap, list_elem_of_lookup. setoid_rewrite uid_moves_elem. split.
  - intros (q & -> & Hq). eauto.
  - intros [i Hi]. by exists (u, i).
Qed.

Lemma uid_moves_snd i : i ∈ (uid_moves (uid_map us)).*2 <-> (i < length us)%nat.
Proof.
  rewrite list_elem_of_fmap, <- lookup_lt_is_Some. setoid_rewrite uid_moves_elem. split.
  - intros (q & -> & Hq). eauto.
  - intros [u Hu]. by exists (u, i).
Qed.
End moves.

Lemma place_id {V} (ps : list (nat * nat)) (m : gmap nat V) :
  foldl (place id) m ps = foldl (fun m q => map_swap q.1 q.2 m) m ps.
Proof.
  revert m. induction ps as [|q ps IH]; intros m; simpl; [done|]. rewrite IH. f_equal.
  unfold place. apply map_eq. intros k. rewrite lookup_partial_alter. by case_decide; subst.
Qed.

Lemma map_swap_same {V} i (m : gmap nat V) : map_swap i i m = m.
Proof. apply map_eq. intros k. rewrite lookup_map_swap. repeat case_decide; congruence. Qed.

(** Everything but the rows and [Uids] moves by exchanging entries. *)
Lemma moves_frame is_null dh mp s ps :
  Forall (fun q => q.1 <= Z.to_nat u16_max /\ q.2 <= Z.to_nat u16_max)%nat ps ->
  let s' := foldl (move_neuron env is_null dh mp) s ps in
  Keys (slots s') = foldl (place id) (Keys (slots s)) ps /\
  BlockAtRegistration (slots s') = foldl (place id) (BlockAtRegistration (slots s)) ps /\
  AssociatedEvmAddress (evm s') = foldl (place id) (AssociatedEvmAddress (evm s)) ps /\
  AssociatedUidsByEvmAddress (evm s') = AssociatedUidsByEvmAddress (evm s) /\
  SubnetworkN (slots s') = SubnetworkN (slots s) /\
  IsNetworkMember (slots s') = IsNetworkMember (slots s) /\
  vectors s' = vectors s /\ MaxAllowedUids s' = MaxAllowedUids s /\
  scores (mechs s') = scores (mechs s).
Proof.
  simpl. rewrite !place_id. revert s. induction ps as [|[o w] ps IH]; intros s Hf; [done|].
  inversion Hf as [|? ? [Ho Hw] Hf']; subst. simpl in *.
  destruct (IH (move_neuron env is_null dh mp s (o, w)) Hf') as (-> & -> & -> & -> & -> & -> & -> & -> & ->).
  unfold move_neuron. simpl. rewrite !as_u16_id by done. destruct is_null.
  - case_decide as Hne; [done|]. subst. by rewrite !map_swap_same.
  - simpl. split_and!; try done. apply (foldl_fixed scores). done.
Qed.

(** ** The hotkeys of the moved neurons *)

Abbreviation insert_all := (foldl (fun m '(k, v) => <[k := v]> m)).

Lemma null_moves_uids dh mp s ps :
  downward ps -> Forall (fun q => q.1 <= Z.to_nat u16_max /\ q.2 <= Z.to_nat u16_max)%nat ps ->
  Uids (slots (foldl (move_neuron env true dh mp) s ps)) =
  insert_all (Uids (slots s))
    ((fun q => (default dh (Keys (slots s) !! q.1), q.2)) <$> filter (fun q => q.1 <> q.2) ps).
Proof.
  induction ps as [|[o w] ps IH] using rev_ind; intros Hd Hf; [done|].
  pose proof (moves_frame true dh mp s _ Hf) as (Hk & _).
  pose proof (place_moved id _ (Keys (slots s)) (o, w) Hd ltac:(set_solver)) as Hpl. rewrite <- Hk in Hpl. simpl in Hpl.
  apply Forall_app in Hf as [Hf [[Ho Hw] _]%list.Forall_cons]. simpl in Ho, Hw.
  apply downward_prefix in Hd. specialize (IH Hd Hf). rewrite filter_app, fmap_app, !foldl_app, <- IH.
  rewrite foldl_app in Hpl. set (s1 := foldl _ s ps) in *. clearbody s1. simpl in *.
  unfold move_neuron in *. simpl in *.
  rewrite !as_u16_id in * by done. rewrite filter_cons, filter_nil. simpl.
  case_decide as Hne; [|done]. simpl in *. by rewrite Hpl.
Qed.

Lemma yuma_moves_uids dh mp s ps :
  Uids (slots (foldl (move_neuron env false dh mp) s ps)) = Uids (slots s).
Proof. apply (foldl_fixed (fun s => Uids (slots s))). done. Qed.

Lemma reinsert_uids_spec dh s ps : Forall (fun q => q.2 <= Z.to_nat u16_max)%nat ps ->
  let s' := reinsert_uids dh ps s in
  slots s' = mkSlots (SubnetworkN (slots s)) (Keys (slots s))
    (insert_all ∅ ((fun q => (default dh (Keys (slots s) !! q.2), q.2)) <$> ps))
    (IsNetworkMember (slots s)) (BlockAtRegistration (slots s)) (HotkeySuccessor (slots s)) /\
  vectors s' = vectors s /\ mechs s' = mechs s /\ evm s' = evm s /\ MaxAllowedUids s' = MaxAllowedUids s.
Proof.
  intros Hf. unfold reinsert_uids. simpl. set (U := ∅). clearbody U. revert U.
  induction ps as [|[o w] ps IH]; intros U; [done|]. inversion Hf as [|? ? Hw Hf']; subst. simpl in *.
  rewrite as_u16_id by done. apply (IH Hf').
Qed.

(** Whoever is given his new uid, and kept his uid otherwise, has the uid he moved to. *)
Lemma renumber us dh (K : gmap nat AccountId) (U : gmap AccountId nat) ps :
  NoDup us -> (forall q, q ∈ ps -> us !! q.2 = Some q.1) -> NoDup ps.*1 ->
  (forall u, u ∈ us -> is_Some (K !! u)) ->
  (forall u v h, K !! u = Some h -> K !! v = Some h -> u = v) ->
  (forall h u, U !! h = Some u -> exists i, us !! i = Some u /\ K !! u = Some h /\ ((u, i) ∈ ps \/ i = u)) ->
  (forall i u h, us !! i = Some u -> K !! u = Some h -> (u, i) ∉ ps -> U !! h = Some i) ->
  forall h i, insert_all U ((fun q => (default dh (K !! q.1), q.2)) <$> ps) !! h = Some i <->
    exists u, us !! i = Some u /\ K !! u = Some h.
Proof.
  intros Hnd Hps Hnd1 Hsome Hinj HU Hkeep h i. set (l := _ <$> ps).
  assert (Hkey : forall q, q ∈ ps -> K !! q.1 = Some (default dh (K !! q.1))).
  { intros q Hq. destruct (Hsome q.1) as [k Hk]; [eapply list_elem_of_lookup_2, Hps, Hq|]. by rewrite Hk. }
  assert (Hl : forall h, h ∈ l.*1 -> exists q, q ∈ ps /\ K !! q.1 = Some h).
  { intros k Hk. unfold l in Hk. rewrite <- list_fmap_compose in Hk.
    apply list_elem_of_fmap in Hk as (q & -> & Hq). exists q. simpl. auto. }
  destruct (foldl_insert l U) as [Hin Hout].
  { unfold l. rewrite <- list_fmap_compose. apply NoDup_fmap_2_strong; [|by eapply NoDup_fmap_1].
    intros q q' Hq Hq'. simpl. intros E. assert (q.1 = q'.1).
    { eapply Hinj; [apply (Hkey q Hq)|]. rewrite E. by apply Hkey. }
    destruct q as [u j], q' as [v j']; simpl in *; subst. f_equal.
    apply (NoDup_lookup us j j' v Hnd); [apply (Hps _ Hq)|apply (Hps _ Hq')]. }
  split.
  - intros Hh. destruct (decide (h ∈ l.*1)) as [Hk|Hk].
    + destruct (Hl h Hk) as (q & Hq & HK). exists q.1. split; [|done].
      rewrite (Hin h q.2) in Hh; [simplify_eq; by apply Hps|].
      apply list_elem_of_fmap. exists q. by rewrite HK.
    + rewrite Hout in Hh by done. destruct (HU h i Hh) as (j & Hj & HK & [Hq| ->]); [|eauto].
      destruct Hk. unfold l. rewrite <- list_fmap_compose. apply list_elem_of_fmap. exists (i, j). simpl. by rewrite HK.
  - intros (u & Hu & HK). destruct (decide ((u, i) ∈ ps)) as [Hq|Hq].
    + apply Hin. apply list_elem_of_fmap. exists (u, i). simpl. by rewrite HK.
    + rewrite Hout; [by eapply Hkeep|]. intros (q & Hq' & HK')%Hl. apply Hq.
      assert (q.1 = u) as <- by eauto. assert (q.2 = i) as <-; [|by destruct q].
      eapply (NoDup_lookup us); [done|by apply Hps|done].
Qed.

(** ** The EVM index *)

Definition rename (mp : gmap nat nat) uid : nat :=
  match mp !! uid with Some new_uid => as_u16 new_uid | None => uid end.

Lemma remap_bucket_spec mp bucket :
  (remap_bucket mp bucket).1 = (fun r => (rename mp r.1, r.2)) <$> bucket /\
  ((remap_bucket mp bucket).2 = false -> (remap_bucket mp bucket).1 = bucket).
Proof.
  induction bucket as [|[uid b] bucket [IH1 IH2]]; [done|]. csimpl. unfold rename at 1. simpl.
  destruct (remap_bucket mp bucket) as [rest changed]. simpl in *. rewrite <- IH1.
  destruct (mp !! uid) as [new|]; [case_decide as Hne|]; simpl; split; try done.
  - by rewrite <- Hne.
  - intros Hc. f_equal. auto.
  - intros Hc. f_equal. auto.
Qed.

Lemma remap_index_spec mp (e : Evm (H160 := H160)) k :
  default [] (AssociatedUidsByEvmAddress (remap_associated_evm_address_index out mp e) !! k) =
  (fun r => (rename mp r.1, r.2)) <$> default [] (AssociatedUidsByEvmAddress e !! k).
Proof.
  unfold remap_associated_evm_address_index. simpl. set (m := AssociatedUidsByEvmAddress e).
  set (updates := omap _ _).
  assert (Hup : forall k b, (k, b) ∈ updates <->
    exists bucket, m !! k = Some bucket /\ b = (remap_bucket mp bucket).1 /\ (remap_bucket mp bucket).2 = true).
  { intros k' b. unfold updates. rewrite list_elem_of_omap. setoid_rewrite (iter_evm_perm m). split.
    - intros ([k2 bucket] & Hin%elem_of_map_to_list & Hx). exists bucket.
      destruct (remap_bucket mp bucket) as [b' []]; by simplify_eq.
    - intros (bucket & Hm & -> & Hc). exists (k', bucket). rewrite elem_of_map_to_list. split; [done|].
      destruct (remap_bucket mp bucket) as [b' []]; by simplify_eq/=. }
  destruct (foldl_insert updates m) as [Hin Hout].
  { assert (Hsub : updates.*1 `sublist_of` (iter_evm out m).*1).
    { clear Hup. subst updates. induction (iter_evm out m) as [|[k' bucket] l IH]; [done|]. simpl.
      destruct (remap_bucket mp bucket) as [b []]; csimpl; [by apply sublist_skip|by apply sublist_cons]. }
    eapply sublist_NoDup; [|exact Hsub]. rewrite iter_evm_perm. apply NoDup_fst_map_to_list. }
  destruct (decide (k ∈ updates.*1)) as [Hk|Hk].
  - apply list_elem_of_fmap in Hk as ([k' b] & -> & Hb). simpl. rewrite (Hin _ _ Hb).
    apply Hup in Hb as (bucket & -> & -> & _). simpl. apply remap_bucket_spec.
  - rewrite Hout by done. destruct (m !! k) as [bucket|] eqn:Em; [simpl|done].
    destruct (remap_bucket_spec mp bucket) as [H1' H2']. rewrite <- H1'. symmetry. apply H2'.
    destruct (remap_bucket mp bucket).2 eqn:Ec; [|done]. destruct Hk. apply list_elem_of_fmap.
    exists (k, (remap_bucket mp bucket).1). split; [done|]. apply Hup. eauto.
Qed.

(** The index after the forward map has moved. *)
Lemma remap_evm_ok n us (e e' : Evm (H160 := H160)) :
  NoDup us -> (length us <= Z.to_nat u16_max)%nat -> evm_ok n e ->
  (forall uid a, AssociatedEvmAddress e !! uid = Some a -> uid ∈ us) ->
  (forall i uid, us !! i = Some uid -> AssociatedEvmAddress e' !! i = AssociatedEvmAddress e !! uid) ->
  (forall i, (length us <= i)%nat -> AssociatedEvmAddress e' !! i = None) ->
  AssociatedUidsByEvmAddress e' = AssociatedUidsByEvmAddress e ->
  evm_ok (length us) (remap_associated_evm_address_index out (uid_map us) e').
Proof.
  intros Hnd Hu16 [_ Hinv Hndb Hcap] Hdom Hmv Hnone Hrev.
  assert (Hren : forall uid i, us !! i = Some uid -> rename (uid_map us) uid = i).
  { intros uid i Hi. unfold rename. rewrite (proj2 (uid_map_spec us Hnd uid i) Hi). apply as_u16_id.
    apply lookup_lt_Some in Hi. lia. }
  split.
  - intros i a. simpl. intros Hi. destruct (decide (i < length us)%nat); [done|]. rewrite Hnone in Hi by lia. done.
  - intros i k b. rewrite remap_index_spec, Hrev, list_elem_of_fmap. simpl. split.
    + intros Hi. destruct (us !! i) as [uid|] eqn:Ei; [|apply lookup_ge_None in Ei; by rewrite Hnone in Hi].
      rewrite (Hmv _ _ Ei) in Hi. apply Hinv in Hi. exists (uid, b). simpl. by rewrite (Hren _ _ Ei).
    + intros ([uid b'] & [= -> ->] & Hin). apply Hinv in Hin.
      pose proof (Hdom _ _ Hin) as [j Hj]%list_elem_of_lookup.
      by rewrite (Hren _ _ Hj), (Hmv _ _ Hj).
  - intros k. rewrite remap_index_spec, Hrev, <- list_fmap_compose.
    change (NoDup (rename (uid_map us) ∘ fst <$> default [] (AssociatedUidsByEvmAddress e !! k))).
    rewrite list_fmap_compose. apply NoDup_fmap_2_strong; [|apply Hndb].
    assert (Hj : forall u, u ∈ (default [] (AssociatedUidsByEvmAddress e !! k)).*1 -> exists j, us !! j = Some u).
    { intros u ([u' b] & -> & Hin)%list_elem_of_fmap. apply Hinv, Hdom in Hin. by apply list_elem_of_lookup. }
    intros u v [i Hi]%Hj [j Hj']%Hj. rewrite (Hren _ _ Hi), (Hren _ _ Hj'). congruence.
  - intros k. rewrite remap_index_spec, Hrev, length_fmap. apply Hcap.
Qed.

(** ** Compaction *)

Lemma pick_lookup {A} (d : A) v us i uid :
  us !! i = Some uid -> (uid < length v)%nat -> pick d v us !! i = v !! uid.
Proof.
  intros Hi [x Hx]%lookup_lt_is_Some_2. unfold pick. by rewrite list_lookup_fmap, Hi, Hx; simpl; rewrite Hx.
Qed.

Lemma pick_default (v : list Z) us i uid : us !! i = Some uid -> default 0 (pick 0 v us !! i) = default 0 (v !! uid).
Proof. intros Hi. unfold pick. by rewrite list_lookup_fmap, Hi. Qed.

Lemma trim_mechanism_scores us (m : Mechanisms (AccountId := AccountId)) ixs index : NoDup ixs ->
  let m' := foldl (trim_mechanism us) m ixs in
  if decide (index ∈ ixs) then
    default [] (Incentive m' !! index) = pick 0 (default [] (Incentive m !! index)) us /\
    ConsensusByMechanism m' !! index = (fun v => pick 0 v us) <$> ConsensusByMechanism m !! index /\
    default [] (LastUpdate m' !! index) = pick 0 (default [] (LastUpdate m !! index)) us
  else Incentive m' !! index = Incentive m !! index /\
    ConsensusByMechanism m' !! index = ConsensusByMechanism m !! index /\ LastUpdate m' !! index = LastUpdate m !! index.
Proof.
  revert m. induction ixs as [|i ixs IH]; intros m Hnd; cbv zeta.
  { by rewrite decide_False by apply not_elem_of_nil. }
  apply NoDup_cons in Hnd as [Hi Hnd]. specialize (IH (trim_mechanism us m i) Hnd). cbv zeta in IH.
  cbn [foldl]. set (m' := foldl _ _ ixs) in *. clearbody m'. destruct (decide (index = i)) as [->|Hne].
  - rewrite decide_False in IH by done. rewrite decide_True by left. destruct IH as (-> & -> & ->). simpl.
    rewrite !lookup_insert_eq. split_and!; [done| |done].
    destruct (ConsensusByMechanism m !! i) eqn:E; [by rewrite lookup_insert_eq|by rewrite E].
  - assert (Hc : ConsensusByMechanism (trim_mechanism us m i) !! index = ConsensusByMechanism m !! index).
    { simpl. by destruct (ConsensusByMechanism m !! i); [rewrite lookup_insert_ne|]. }
    rewrite Hc in IH. simpl in IH. rewrite !lookup_insert_ne in IH by done. destruct (decide (index ∈ ixs)).
    + by rewrite (decide_True (P := index ∈ i :: ixs)) by by right.
    + by rewrite (decide_False (P := index ∈ i :: ixs)) by (by intros [?|?]%elem_of_cons).
Qed.

(** The part of [compact] that both consensus modes share. *)
Definition relocate (is_null : bool) dh us es s : State :=
  let s := set_vectors (trim_vectors us es (vectors s)) s in
  let s := set_mechs (foldl (trim_mechanism us) (mechs s) (mech_indices env)) s in
  let s := foldl (move_neuron env is_null dh (uid_map us)) s (uid_moves (uid_map us)) in
  set_evm (remap_associated_evm_address_index out (uid_map us) (evm s)) s.

(** Every kept neuron is at its new uid and nothing else is left. *)
Record relocated s0 us s : Prop := {
  rel_same i uid : us !! i = Some uid -> same_neuron env s0 s uid i;
  rel_rest i : (length us <= i)%nat -> Keys (slots s) !! i = None;
  rel_evm : evm_ok (length us) (evm s);
  rel_vectors : vectors_ok (length us) (vectors s);
  rel_incentive index : index ∈ mech_indices env ->
    length (default [] (Incentive (mechs s) !! index)) = length us;
  rel_members h : h ∈ IsNetworkMember (slots s) <-> exists uid, uid ∈ us /\ Keys (slots s0) !! uid = Some h;
  rel_max : MaxAllowedUids s = MaxAllowedUids s0;
}.

Section relocate.
Context (s0 s : State) (max_n : nat) (removed us : list nat) (es : list Z).
Context (He : env_ok env) (Hok : neurons_ok env s0) (Hp : partial removed s0 s).
Context (Hlay : layout s0 max_n removed us es).

Lemma layout_lt i uid : us !! i = Some uid -> (uid < SubnetworkN (slots s0))%nat /\ uid ∉ removed.
Proof. intros Hi. apply (lay_uids _ _ _ _ _ Hlay). by eapply list_elem_of_lookup_2. Qed.

Lemma layout_u16 : (length us <= Z.to_nat u16_max)%nat.
Proof.
  pose proof (slots_u16 _ (ok_slots _ _ Hok)) as Hu.
  enough (length us <= length (seq 0 (SubnetworkN (slots s0))))%nat by (rewrite length_seq in *; lia).
  apply submseteq_length, NoDup_submseteq; [apply (lay_NoDup _ _ _ _ _ Hlay)|].
  intros uid [Hlt _]%(lay_uids _ _ _ _ _ Hlay). apply elem_of_seq. lia.
Qed.

Lemma moves_u16 :
  Forall (fun q => q.1 <= Z.to_nat u16_max /\ q.2 <= Z.to_nat u16_max)%nat (uid_moves (uid_map us)).
Proof.
  apply Forall_forall. intros q Hq%(uid_moves_elem us (lay_NoDup _ _ _ _ _ Hlay)).
  destruct (layout_lt _ _ Hq) as [Hlt _]. pose proof (slots_u16 _ (ok_slots _ _ Hok)) as Hu.
  apply (lay_down _ _ _ _ _ Hlay) in Hq. lia.
Qed.

Lemma partial_key uid : uid ∈ us -> Keys (slots s) !! uid = Keys (slots s0) !! uid.
Proof.
  intros [_ Hnr]%(lay_uids _ _ _ _ _ Hlay). by rewrite (part_keys _ _ _ Hp), decide_False.
Qed.

Lemma partial_key_dom uid : uid ∉ us -> Keys (slots s) !! uid = None.
Proof.
  intros Hu. rewrite (part_keys _ _ _ Hp). case_decide; [done|]. apply eq_None_not_Some.
  rewrite (slots_dense _ (ok_slots _ _ Hok)). intros Hlt. by apply Hu, (lay_uids _ _ _ _ _ Hlay).
Qed.

Lemma partial_address_dom uid a : AssociatedEvmAddress (evm s) !! uid = Some a -> uid ∈ us.
Proof.
  rewrite (part_address _ _ _ Hp). case_decide; [done|]. intros Ha.
  apply (lay_uids _ _ _ _ _ Hlay). split; [|done]. by apply (evm_bound _ _ (ok_evm _ _ Hok) uid a).
Qed.

Lemma partial_members h : h ∈ IsNetworkMember (slots s) <-> exists uid, uid ∈ us /\ Keys (slots s0) !! uid = Some h.
Proof.
  rewrite (part_members _ _ _ Hp). unfold is_Some. setoid_rewrite (part_uids _ _ _ Hp).
  setoid_rewrite (lay_uids _ _ _ _ _ Hlay). setoid_rewrite (slots_inverse _ (ok_slots _ _ Hok)).
  split; intros (uid & Hx); exists uid; [|tauto]. split; [|tauto]. split; [|tauto].
  apply (slots_dense _ (ok_slots _ _ Hok)). destruct Hx as [Hx _]. eauto.
Qed.

Lemma relocate_spec is_null dh :
  relocated s0 us (relocate is_null dh us es s) /\
  forall i uid, us !! i = Some uid -> same_permit s0 (relocate is_null dh us es s) uid i.
Proof.
  unfold relocate. set (s1 := set_mechs _ _).
  pose proof (lay_NoDup _ _ _ _ _ Hlay) as Hnd. pose proof (lay_down _ _ _ _ _ Hlay) as Hdown.
  pose proof (uid_moves_downward us Hnd Hdown) as Hmv.
  destruct (moves_frame is_null dh (uid_map us) s1 _ moves_u16) as (M1 & M2 & M3 & M4 & M5 & M6 & M7 & M8 & M9).
  set (s2 := foldl _ s1 _) in *.
  destruct (ok_vectors _ _ Hok) as (Va & Ve & Vc & Vd & Vt & Vp). destruct (lay_emissions _ _ _ _ _ Hlay) as [Le Hes].
  assert (Hplace : forall V (m : gmap nat V) i uid, us !! i = Some uid ->
    foldl (place id) m (uid_moves (uid_map us)) !! i = m !! uid).
  { intros V m i uid Hi. apply (place_moved id _ m (uid, i) Hmv). by apply uid_moves_elem. }
  assert (Hrest : forall V (m : gmap nat V) i, (forall u, u ∉ us -> m !! u = None) -> (length us <= i)%nat ->
    foldl (place id) m (uid_moves (uid_map us)) !! i = None).
  { intros V m i Hm Hi. apply (place_rest id _ m i Hmv).
    - intros u. rewrite uid_moves_fst by done. apply Hm.
    - rewrite uid_moves_snd by done. lia. }
  assert (Haddr : forall i uid, us !! i = Some uid ->
    AssociatedEvmAddress (evm s2) !! i = AssociatedEvmAddress (evm s) !! uid).
  { intros i uid Hi. rewrite M3. by apply Hplace. }
  apply scores_eq in M9 as (M9 & M10 & M11). destruct (scores_eq _ _ (part_scores _ _ _ Hp)) as (P1 & P2 & P3).
  assert (Hsc : forall index, index ∈ mech_indices env -> _) by (intros index Hin;
    pose proof (trim_mechanism_scores us (mechs s) _ index (mech_indices_NoDup _ He)) as Hc; cbv zeta in Hc;
    rewrite decide_True in Hc by done; rewrite P1, P2, P3 in Hc; exact Hc).
  split; [split|].
  - intros i uid Hi. destruct (layout_lt i uid Hi) as [Hlt Hnr].
    split; simpl; rewrite ?M1, ?M2, ?M7, ?M9; simpl; rewrite ?(part_vectors _ _ _ Hp), ?(Hplace _ _ _ _ Hi); simpl.
    + by apply partial_key, (list_elem_of_lookup_2 _ i).
    + by apply (part_block _ _ _ Hp).
    + apply pick_lookup; [done|lia].
    + by apply Hes.
    + apply pick_lookup; [done|lia].
    + apply pick_lookup; [done|lia].
    + apply pick_lookup; [done|lia].
    + intros index Hin. rewrite (proj1 (Hsc index Hin)). apply pick_lookup; [done|]. by rewrite (ok_incentive _ _ Hok).
    + rewrite Haddr with (uid := uid) by done. by rewrite (part_address _ _ _ Hp), decide_False.
    + unfold stake_of. simpl. rewrite M7. simpl. rewrite (part_vectors _ _ _ Hp). by apply pick_default.
    + intros index Hin. unfold consensus_in. simpl. rewrite M10. simpl. rewrite (proj1 (proj2 (Hsc index Hin))).
      destruct (ConsensusByMechanism (mechs s0) !! index) as [v|]; [|done]. simpl. f_equal. by apply pick_default.
    + intros index Hin. unfold updated_in. simpl. rewrite M11. simpl. rewrite (proj2 (proj2 (Hsc index Hin))).
      by apply pick_default.
  - intros i Hi. simpl. rewrite M1. apply Hrest; [apply partial_key_dom|done].
  - simpl. apply (remap_evm_ok (SubnetworkN (slots s0)) us (evm s));
      [done|apply layout_u16|apply (part_evm _ _ _ Hp)|apply partial_address_dom|apply Haddr| |done].
    intros i Hi. rewrite M3. apply Hrest; [|done]. intros u Hu. simpl.
    destruct (AssociatedEvmAddress (evm s) !! u) eqn:E; [|done]. by apply partial_address_dom in E.
  - simpl. rewrite M7. unfold s1, vectors_ok. simpl. unfold pick. rewrite !length_fmap, Le. split_and!; try done.
    symmetry. apply (lay_length _ _ _ _ _ Hlay).
  - intros index Hin. simpl. rewrite M9. simpl. rewrite (proj1 (Hsc index Hin)). apply length_fmap.
  - intros h. simpl. rewrite M6. apply partial_members.
  - simpl. rewrite M8. apply (part_max _ _ _ Hp).
  - intros i uid Hi. destruct (layout_lt i uid Hi) as [Hlt _]. unfold same_permit. simpl. rewrite M7. simpl.
    rewrite (part_vectors _ _ _ Hp). apply pick_lookup; [done|lia].
Qed.

Lemma partial_injective u v h : Keys (slots s) !! u = Some h -> Keys (slots s) !! v = Some h -> u = v.
Proof.
  rewrite !(part_keys _ _ _ Hp). repeat case_decide; try done.
  rewrite <- !(slots_inverse _ (ok_slots _ _ Hok)). congruence.
Qed.

Lemma partial_uids_inverse h uid : Uids (slots s) !! h = Some uid <-> uid ∈ us /\ Keys (slots s) !! uid = Some h.
Proof.
  rewrite (part_uids _ _ _ Hp), (slots_inverse _ (ok_slots _ _ Hok)), (part_keys _ _ _ Hp), (lay_uids _ _ _ _ _ Hlay).
  split; [|case_decide; naive_solver]. intros [HK Hnr]. rewrite decide_False by done. split_and!; [|done..].
  apply (slots_dense _ (ok_slots _ _ Hok)). eauto.
Qed.

Lemma relocate_uids_null dh h i :
  Uids (slots (relocate true dh us es s)) !! h = Some i <->
  exists uid, us !! i = Some uid /\ Keys (slots s0) !! uid = Some h.
Proof.
  pose proof (lay_NoDup _ _ _ _ _ Hlay) as Hnd.
  pose proof (uid_moves_downward us Hnd (lay_down _ _ _ _ _ Hlay)) as Hmv.
  unfold relocate. simpl. rewrite null_moves_uids by (done || apply moves_u16). simpl.
  setoid_rewrite (renumber us dh); [|done| | | |apply partial_injective| |].
  - split; intros (uid & Hi & HK); exists uid; (split; [done|]);
      [rewrite <- partial_key|rewrite partial_key]; try done; by eapply list_elem_of_lookup_2.
  - intros q [_ Hq]%list_elem_of_filter. by apply uid_moves_elem.
  - eapply sublist_NoDup; [|apply (fmap_sublist fst), sublist_filter].
    unfold uid_moves. rewrite sort_by_perm. apply NoDup_fst_map_to_list.
  - intros u Hu. rewrite partial_key by done. apply (slots_dense _ (ok_slots _ _ Hok)). by apply (lay_uids _ _ _ _ _ Hlay).
  - intros h' u [Hu HK]%partial_uids_inverse. apply list_elem_of_lookup in Hu as [j Hj]. exists j.
    split_and!; [done..|]. destruct (decide (j = u)) as [->|Hne]; [by right|left].
    apply list_elem_of_filter. split; [simpl; congruence|]. by apply uid_moves_elem.
  - intros j u h' Hj HK Hn. assert (u = j) as ->.
    { destruct (decide (u = j)); [done|]. destruct Hn. apply list_elem_of_filter.
      split; [done|]. by apply uid_moves_elem. }
    apply partial_uids_inverse. split; [by eapply list_elem_of_lookup_2|done].
Qed.

Lemma relocate_uids_yuma dh h i :
  let s' := reinsert_uids dh (uid_moves (uid_map us)) (relocate false dh us es s) in
  Uids (slots s') !! h = Some i <-> exists uid, us !! i = Some uid /\ Keys (slots s0) !! uid = Some h.
Proof.
  pose proof (lay_NoDup _ _ _ _ _ Hlay) as Hnd. simpl. set (s1 := relocate false dh us es s).
  destruct (reinsert_uids_spec dh s1 (uid_moves (uid_map us))) as (-> & _).
  { eapply Forall_impl; [apply moves_u16|]. by intros q [_ ?]. }
  destruct (relocate_spec false dh) as [[Hsame _ _ _ _ _ _] _]. fold s1 in Hsame. clearbody s1. simpl.
  assert (Hl : (fun q => (default dh (Keys (slots s1) !! q.2), q.2)) <$> uid_moves (uid_map us) =
               (fun q => (default dh (Keys (slots s) !! q.1), q.2)) <$> uid_moves (uid_map us)).
  { apply list_fmap_ext. intros _ q Hq%list_elem_of_lookup_2%uid_moves_elem; [|done].
    rewrite (same_key _ _ _ _ _ (Hsame _ _ Hq)), partial_key; [done|]. by eapply list_elem_of_lookup_2. }
  rewrite Hl. setoid_rewrite (renumber us dh); [|done| | | |apply partial_injective|done|].
  - split; intros (uid & Hi & HK); exists uid; (split; [done|]);
      [rewrite <- partial_key|rewrite partial_key]; try done; by eapply list_elem_of_lookup_2.
  - intros q. by apply uid_moves_elem.
  - unfold uid_moves. rewrite sort_by_perm. apply NoDup_fst_map_to_list.
  - intros u Hu. rewrite partial_key by done. apply (slots_dense _ (ok_slots _ _ Hok)). by apply (lay_uids _ _ _ _ _ Hlay).
  - intros j u h' Hj HK Hn. destruct Hn. by apply uid_moves_elem.
Qed.

(** With the new count, a relocated state with the right [Uids] is well formed. *)
Lemma settle s' : relocated s0 us s' ->
  (forall h i, Uids (slots s') !! h = Some i <-> exists uid, us !! i = Some uid /\ Keys (slots s0) !! uid = Some h) ->
  (MaxAllowedUids s' <= Z.to_nat u16_max)%nat ->
  neurons_ok env (set_subnetwork_n (length us) s').
Proof.
  intros [Hsame Hrest Hev Hv Hi Hmem Hmax] HU Hm.
  assert (HK : forall i h, Keys (slots s') !! i = Some h <-> exists uid, us !! i = Some uid /\ Keys (slots s0) !! uid = Some h).
  { intros i h. destruct (us !! i) as [uid|] eqn:Ei.
    - rewrite (same_key _ _ _ _ _ (Hsame _ _ Ei)). naive_solver.
    - apply lookup_ge_None in Ei. rewrite Hrest by done. naive_solver. }
  split; [split| | | |]; simpl; [|by intros; rewrite HU, HK| |apply layout_u16|done..].
  - intros i. unfold is_Some. setoid_rewrite HK. split.
    + intros (h & uid & Hx & _). by eapply lookup_lt_Some.
    + intros [uid Hu]%lookup_lt_is_Some_2. destruct (layout_lt _ _ Hu) as [Hlt _].
      apply (slots_dense _ (ok_slots _ _ Hok)) in Hlt as [h Hh]. eauto.
  - intros h. rewrite Hmem. unfold is_Some. setoid_rewrite HU. setoid_rewrite list_elem_of_lookup. naive_solver.
Qed.
End relocate.

(** ** Weights and bonds follow their neurons *)

(** The rows of one mechanism. *)
Definition slice (index : Z) (m : gmap (Z * nat) (list (nat * Z))) : gmap nat (list (nat * Z)) :=
  default ∅ (map_curry (M1 := gmap Z) (M2 := gmap nat) m !! index).

Lemma slice_lookup index m uid : slice index m !! uid = m !! (index, uid).
Proof.
  rewrite <- (lookup_map_curry (M1 := gmap Z) (M2 := gmap nat) m index uid). unfold slice.
  by destruct (map_curry m !! index).
Qed.

Abbreviation renamed mp := (fun o => Some (remap_row mp (default [] o))).

Lemma swap_rows_slice mp old new m ixs index : NoDup ixs -> index ∈ ixs ->
  slice index (foldl (swap_rows mp old new) m ixs) = place (renamed mp) (slice index m) (old, new).
Proof.
  intros Hnd Hin. apply map_eq. intros u. rewrite slice_lookup.
  assert (Hother : forall ixs m, index ∉ ixs -> foldl (swap_rows mp old new) m ixs !! (index, u) = m !! (index, u)).
  { induction ixs0 as [|i ixs0 IH]; intros m0 Hn; simpl; [done|]. apply not_elem_of_cons in Hn as [Hne Hn].
    rewrite IH by done. unfold swap_rows. rewrite lookup_insert_ne, lookup_map_swap, !decide_False by congruence. done. }
  revert m. induction ixs as [|i ixs IH]; intros m; [by apply not_elem_of_nil in Hin|].
  apply NoDup_cons in Hnd as [Hi Hnd]. simpl. destruct (decide (i = index)) as [->|Hne].
  - rewrite Hother by done. unfold swap_rows, place. simpl. rewrite lookup_insert, lookup_partial_alter.
    rewrite !lookup_map_swap, !slice_lookup. repeat case_decide; try done; naive_solver.
  - assert (index ∈ ixs) by set_solver. rewrite IH by done. f_equal. f_equal. apply map_eq. intros v.
    rewrite !slice_lookup. unfold swap_rows. rewrite lookup_insert_ne, lookup_map_swap, !decide_False by congruence. done.
Qed.

(** Row [i] of [m'] is row [uid] of [m] with its targets renamed by [us]. *)
Definition rows_follow (us : list nat) (m m' : gmap (Z * nat) (list (nat * Z))) : Prop :=
  forall index i uid, index ∈ mech_indices env -> us !! i = Some uid ->
    m' !! (index, i) = Some (remap_row (uid_map us) (default [] (m !! (index, uid)))).

Lemma move_mechanism_rows mp o w (m : Mechanisms (AccountId := AccountId)) ixs :
  Weights (foldl (move_mechanism mp o w) m ixs) = foldl (swap_rows mp o w) (Weights m) ixs /\
  Bonds (foldl (move_mechanism mp o w) m ixs) = foldl (swap_rows mp o w) (Bonds m) ixs.
Proof.
  revert m. induction ixs as [|i ixs IH]; intros m; [done|]. simpl.
  by destruct (IH (move_mechanism mp o w m i)) as [-> ->].
Qed.

Lemma moves_rows dh mp s ps index :
  env_ok env -> index ∈ mech_indices env ->
  Forall (fun q => q.1 <= Z.to_nat u16_max /\ q.2 <= Z.to_nat u16_max)%nat ps ->
  let m := mechs (foldl (move_neuron env false dh mp) s ps) in
  slice index (Weights m) = foldl (place (renamed mp)) (slice index (Weights (mechs s))) ps /\
  slice index (Bonds m) = foldl (place (renamed mp)) (slice index (Bonds (mechs s))) ps.
Proof.
  intros He Hin Hf. cbv zeta. revert s. induction ps as [|[o w] ps IH]; intros s; [done|].
  inversion Hf as [|? ? [Ho Hw] Hf']; subst. cbn [foldl]. simpl in Ho, Hw.
  destruct (IH Hf' (move_neuron env false dh mp s (o, w))) as [-> ->]. unfold move_neuron. simpl.
  rewrite !as_u16_id by done. destruct (move_mechanism_rows mp o w (mechs s) (mech_indices env)) as [-> ->].
  by rewrite !swap_rows_slice by (done || by apply mech_indices_NoDup).
Qed.

Lemma trim_mechanism_rows us (m : Mechanisms (AccountId := AccountId)) ixs :
  Weights (foldl (trim_mechanism us) m ixs) = Weights m /\ Bonds (foldl (trim_mechanism us) m ixs) = Bonds m.
Proof. split; [apply (foldl_fixed Weights)|apply (foldl_fixed Bonds)]; done. Qed.

Lemma relocate_rows dh s0 s max_n removed us es :
  env_ok env -> neurons_ok env s0 -> partial removed s0 s -> layout s0 max_n removed us es ->
  rows_follow us (Weights (mechs s0)) (Weights (mechs (relocate false dh us es s))) /\
  rows_follow us (Bonds (mechs s0)) (Bonds (mechs (relocate false dh us es s))).
Proof.
  intros He Hok Hp Hlay. pose proof (lay_NoDup _ _ _ _ _ Hlay) as Hnd.
  pose proof (uid_moves_downward us Hnd (lay_down _ _ _ _ _ Hlay)) as Hmv. unfold relocate. simpl.
  set (s1 := set_mechs _ _).
  split; intros index i uid Hin Hi;
    destruct (moves_rows dh (uid_map us) s1 _ index He Hin (moves_u16 _ _ _ _ _ Hok Hlay)) as [Hw Hb];
    destruct (layout_lt _ _ _ _ _ Hlay i uid Hi) as [_ Hnr];
    destruct (trim_mechanism_rows us (mechs s) (mech_indices env)) as [Tw Tb];
    rewrite <- slice_lookup, ?Hw, ?Hb;
    rewrite (place_moved _ _ _ (uid, i) Hmv) by (by apply uid_moves_elem); simpl;
    rewrite slice_lookup, ?Tw, ?Tb, ?(part_weights _ _ _ Hp), ?(part_bonds _ _ _ Hp), decide_False by done; done.
Qed.

(** ** Trimming *)

(** The storage that the invariant is about. *)
Definition neuron_part s := (slots s, vectors s, evm s, MaxAllowedUids s, scores (mechs s)).

Lemma neuron_part_eq s s' : neuron_part s' = neuron_part s ->
  slots s' = slots s /\ vectors s' = vectors s /\ evm s' = evm s /\ MaxAllowedUids s' = MaxAllowedUids s /\
  scores (mechs s') = scores (mechs s).
Proof. unfold neuron_part. by intros [[[[-> ->]%pair_eq ->]%pair_eq ->]%pair_eq ->]%pair_eq. Qed.

(** A neuron is the same as long as this storage is. *)
Lemma same_neuron_part s0 s0' s s' u u' : neuron_part s0' = neuron_part s0 ->
  neuron_part s' = neuron_part s -> same_neuron env s0 s u u' -> same_neuron env s0' s' u u'.
Proof.
  intros (F1 & F2 & F3 & _ & (F4 & F5 & F6)%scores_eq)%neuron_part_eq.
  intros (E1 & E2 & E3 & _ & (E4 & E5 & E6)%scores_eq)%neuron_part_eq [].
  by split; unfold stake_of, consensus_in, updated_in in *;
    rewrite ?E1, ?E2, ?E3, ?E4, ?E5, ?E6, ?F1, ?F2, ?F3, ?F4, ?F5, ?F6.
Qed.

Lemma relocated_part s0 us s s' : neuron_part s' = neuron_part s -> relocated s0 us s -> relocated s0 us s'.
Proof.
  intros Hpart [R1 R2 R3 R4 R5 R6 R7].
  destruct (neuron_part_eq _ _ Hpart) as (E1 & E2 & E3 & E4 & (E5 & _)%scores_eq).
  split; rewrite ?E1, ?E2, ?E3, ?E4, ?E5; try done. intros i uid Hi. eapply same_neuron_part; eauto.
Qed.

Lemma neurons_ok_part s s' : neuron_part s' = neuron_part s -> neurons_ok env s -> neurons_ok env s'.
Proof.
  intros (E1 & E2 & E3 & E4 & (E5 & _)%scores_eq)%neuron_part_eq []. by split; rewrite ?E1, ?E2, ?E3, ?E4, ?E5.
Qed.

Lemma remap_bond_row_fixed limit n mp index old : fixed neuron_part (remap_bond_row limit n mp index old).
Proof.
  unfold remap_bond_row. solve_fixed. by case_match.
Qed.
#[local] Hint Resolve remap_bond_row_fixed : frame.

Lemma remap_rows_fixed n mp permits : fixed neuron_part (remap_null_pruning_rows env out n mp permits).
Proof.
  unfold remap_null_pruning_rows. solve_fixed.
Qed.

(** What trimming [s0] down to [max_n] uids means: the neurons [us] are kept, each
    with all its data at a uid not higher than before, and those gone were not
    protected and earned no more than any unprotected one that stays. *)
Record trimmed (s0 : State) (max_n : nat) (s : State) (us : list nat) : Prop := {
  trim_ok : neurons_ok env s;
  trim_count : get_subnetwork_n s = max_n /\ length us = max_n /\ NoDup us;
  trim_kept i uid : us !! i = Some uid ->
    (i <= uid < get_subnetwork_n s0)%nat /\ same_neuron env s0 s uid i /\
    (get_epoch_consensus env = Yuma -> same_permit s0 s uid i);
  trim_rows : get_epoch_consensus env = Yuma ->
    rows_follow us (Weights (mechs s0)) (Weights (mechs s)) /\ rows_follow us (Bonds (mechs s0)) (Bonds (mechs s));
  trim_gone uid : (uid < get_subnetwork_n s0)%nat -> uid ∉ us ->
    let owner_uids := get_immune_owner_uids env s0 (SubnetOwner env) in
    ~ protected s0 owner_uids uid /\
    (forall kept, kept ∈ us -> ~ protected s0 owner_uids kept ->
      default 0 (Emission (vectors s0) !! uid) <= default 0 (Emission (vectors s0) !! kept)) /\
    forall h, Keys (slots s0) !! uid = Some h -> Uids (slots s) !! h = None;
}.

Lemma elect_permit_ok s : neurons_ok env s -> neurons_ok env (elect_permit out s).
Proof.
  intros [Hs (V1 & V2 & V3 & V4 & V5 & _) Hi Hev Hm]. split; simpl; try done.
  unfold vectors_ok. simpl. rewrite length_fmap, length_seq, null_stakes_length. done.
Qed.

Section modes.
Context (s0 s : State) (max_n : nat) (removed us : list nat) (es : list Z) (dh : AccountId).
Context (He : env_ok env) (Hok : neurons_ok env s0) (Hp : partial removed s0 s).
Context (Hlay : layout s0 max_n removed us es).

Lemma null_settle s' : neuron_part s' = neuron_part (relocate true dh us es s) ->
  neurons_ok env (elect_permit out (set_subnetwork_n max_n s')) /\
  MaxAllowedUids s' = MaxAllowedUids s0 /\
  forall i uid, us !! i = Some uid -> same_neuron env s0 (elect_permit out (set_subnetwork_n max_n s')) uid i.
Proof.
  intros Hpart. destruct (relocate_spec s0 s max_n removed us es He Hok Hp Hlay true dh) as [Hrel _].
  apply (relocated_part _ _ _ _ Hpart) in Hrel. destruct (neuron_part_eq _ _ Hpart) as (E1 & _).
  pose proof (rel_max _ _ _ Hrel) as Hm. rewrite <- (lay_length _ _ _ _ _ Hlay). split_and!; [|done|].
  - apply elect_permit_ok. apply (settle s0 max_n removed us es Hok Hlay); [done| |rewrite Hm; apply (ok_max _ _ Hok)].
    intros h i. rewrite E1. by apply (relocate_uids_null s0 s max_n removed us es Hok Hp Hlay).
  - intros i uid Hi. by destruct (rel_same _ _ _ Hrel i uid Hi).
Qed.

Lemma yuma_settle :
  let s' := set_subnetwork_n max_n (reinsert_uids dh (uid_moves (uid_map us)) (relocate false dh us es s)) in
  neurons_ok env s' /\ MaxAllowedUids s' = MaxAllowedUids s0 /\
  (forall i uid, us !! i = Some uid -> same_neuron env s0 s' uid i /\ same_permit s0 s' uid i) /\
  rows_follow us (Weights (mechs s0)) (Weights (mechs s')) /\ rows_follow us (Bonds (mechs s0)) (Bonds (mechs s')).
Proof.
  destruct (relocate_spec s0 s max_n removed us es He Hok Hp Hlay false dh) as [Hrel Hperm].
  pose proof (relocate_rows dh s0 s max_n removed us es He Hok Hp Hlay) as Hrows.
  pose proof (relocate_uids_yuma s0 s max_n removed us es He Hok Hp Hlay dh) as HU. simpl in HU.
  pose proof (moves_u16 s0 max_n removed us es Hok Hlay) as Hu16.
  set (s1 := relocate false dh us es s) in *. clearbody s1.
  destruct (reinsert_uids_spec dh s1 (uid_moves (uid_map us))) as (E1 & E2 & E3 & E4 & E5).
  { eapply Forall_impl; [exact Hu16|]. by intros q [_ ?]. }
  set (s2 := reinsert_uids _ _ s1) in *. clearbody s2.
  assert (Hrel' : relocated s0 us s2).
  { destruct Hrel as [R1 R2 R3 R4 R5 R6 R7]. split; rewrite ?E1, ?E2, ?E3, ?E4, ?E5; try done.
    intros i uid Hi. destruct (R1 i uid Hi).
    by split; unfold stake_of, consensus_in, updated_in in *; rewrite ?E1, ?E2, ?E3, ?E4. }
  simpl. pose proof (rel_max _ _ _ Hrel') as Hm. rewrite <- (lay_length _ _ _ _ _ Hlay), E3.
  split; [|split; [done|split; [|done]]].
  - apply (settle s0 max_n removed us es Hok Hlay); [done..|]. rewrite Hm. apply (ok_max _ _ Hok).
  - intros i uid Hi. split; [by destruct (rel_same _ _ _ Hrel' i uid Hi)|].
    unfold same_permit. simpl. rewrite E2. by apply Hperm.
Qed.
End modes.

(** Both modes put every kept neuron at its new uid. *)
Lemma compact_spec dh s0 s max_n owner_uids emissions removed s' :
  env_ok env -> neurons_ok env s0 -> (max_n <= SubnetworkN (slots s0))%nat -> partial removed s0 s ->
  cut s0 owner_uids max_n emissions removed ->
  compact env out dh (SubnetworkN (slots s0)) max_n emissions removed s = (Ok tt, s') ->
  exists us es, layout s0 max_n removed us es /\ neurons_ok env s' /\ get_subnetwork_n s' = max_n /\
    MaxAllowedUids s' = MaxAllowedUids s0 /\
    (forall i uid, us !! i = Some uid ->
      same_neuron env s0 s' uid i /\ (get_epoch_consensus env = Yuma -> same_permit s0 s' uid i)) /\
    (get_epoch_consensus env = Yuma ->
      rows_follow us (Weights (mechs s0)) (Weights (mechs s')) /\ rows_follow us (Bonds (mechs s0)) (Bonds (mechs s'))).
Proof.
  intros He Hok Hmax Hp Hcut. unfold compact. case_bool_decide as Hmode; intros Hrun; minv.
  - rename select (null_layout _ _ _ = _) into Hus.
    pose proof (null_layout_ok _ _ _ _ _ _ Hcut Hmax Hus) as Hlay. simpl in Hlay.
    match goal with Hr : remap_null_pruning_rows _ _ ?n ?mp ?v ?x = (Ok _, ?y) |- _ =>
      pose proof (remap_rows_fixed n mp v x) as Hpart; rewrite Hr in Hpart; simpl in Hpart; rename y into s4 end.
    destruct (null_settle s0 s max_n removed _ _ dh He Hok Hp Hlay s4 Hpart) as (Hok' & Hm & Hsame).
    eexists _, _. split_and!; [exact Hlay|done..| |congruence]. intros i uid Hi. split; [by apply Hsame|congruence].
  - pose proof (yuma_layout _ _ _ _ _ Hcut) as Hlay. simpl in Hlay.
    destruct (yuma_settle s0 s max_n removed _ _ dh He Hok Hp Hlay) as (Hok' & Hm & Hsame & Hrows).
    eexists _, _. split; [exact Hlay|]. split; [exact Hok'|]. split; [done|]. split; [exact Hm|].
    split; [|intros _; exact Hrows]. intros i uid Hi.
    destruct (Hsame i uid Hi) as [Hx Hy]. split; [exact Hx|]. intros _. exact Hy.
Qed.

Lemma visited_start s0 owner_uids L : neurons_ok env s0 ->
  visited s0 owner_uids L (length L) L [] (length L) s0.
Proof.
  intros Hok. split; [done| |done|by apply partial_start]. exists [], []. rewrite app_nil_r.
  split_and!; [by rewrite take_ge|by rewrite drop_ge|done..].
Qed.

(** The whole of one trimming, from the loop to the compaction. *)
Lemma trim_run_spec dh max_n s0 s1 s' emissions removed :
  env_ok env -> neurons_ok env s0 -> (max_n <= get_subnetwork_n s0)%nat ->
  trim_loop env out (get_immune_owner_uids env s0 (SubnetOwner env)) max_n (get_subnetwork_n s0)
    (sort_by by_emission (indexed (Emission (vectors s0)))) [] (get_subnetwork_n s0) s0 =
    (Ok (emissions, removed, max_n), s1) ->
  compact env out dh (get_subnetwork_n s0) max_n emissions removed s1 = (Ok tt, s') ->
  MaxAllowedUids s' = MaxAllowedUids s0 /\ exists us, trimmed s0 max_n s' us.
Proof.
  intros He Hok Hmax Hloop Hrun. destruct (sorted_emissions s0 Hok) as (HL & HLn & HLv & HLl).
  unfold get_subnetwork_n in Hloop. rewrite <- HLl in Hloop.
  destruct (trim_loop_spec s0 _ max_n _ Hok HL (fun uid => proj1 (HLn uid)) _ _ _ _ _ _ _ _ _
    (visited_start s0 _ _ Hok) Hloop) as [j Hj].
  pose proof (visited_cut _ _ _ _ _ _ _ Hok Hj) as Hcut. pose proof (vis_state _ _ _ _ _ _ _ _ Hj) as Hp.
  destruct (compact_spec dh s0 s1 max_n _ emissions removed s' He Hok Hmax Hp Hcut Hrun)
    as (us & es & Hlay & Hok' & Hn & Hm & Hsame & Hrows).
  split; [done|]. exists us. split; [done| | |done|].
  - split_and!; [done|apply (lay_length _ _ _ _ _ Hlay)|apply (lay_NoDup _ _ _ _ _ Hlay)].
  - intros i uid Hi. destruct (layout_lt _ _ _ _ _ Hlay i uid Hi) as [Hlt _].
    split; [|by apply Hsame]. split; [by apply (lay_down _ _ _ _ _ Hlay)|done].
  - intros uid Hlt Hni. simpl. assert (Hr : uid ∈ removed).
    { destruct (decide (uid ∈ removed)) as [|Hnr]; [done|]. by destruct Hni; apply (lay_uids _ _ _ _ _ Hlay). }
    destruct (cut_removed _ _ _ _ _ Hcut uid Hr) as (_ & Hprot & Hle). split_and!; [done| |].
    + intros kept Hk. apply Hle. apply (cut_uids _ _ _ _ _ Hcut). by apply (lay_uids _ _ _ _ _ Hlay).
    + intros h Hh. destruct (Uids (slots s') !! h) as [i|] eqn:E; [|done]. exfalso. apply Hni.
      apply (slots_inverse _ (ok_slots _ _ Hok')) in E as HK.
      assert (Hi : (i < length us)%nat).
      { rewrite (lay_length _ _ _ _ _ Hlay), <- Hn. apply (slots_dense _ (ok_slots _ _ Hok')). eauto. }
      apply lookup_lt_is_Some_2 in Hi as [u Hu]. destruct (Hsame i u Hu) as [Hs _].
      rewrite (same_key _ _ _ _ _ Hs) in HK. apply (slots_inverse _ (ok_slots _ _ Hok)) in HK, Hh.
      assert (u = uid) as <- by congruence. by eapply list_elem_of_lookup_2.
Qed.

Lemma trim_uids_impl_spec dh max_n s s' :
  env_ok env -> neurons_ok env s -> trim_uids_impl env out dh max_n s = (Ok tt, s') ->
  (MinAllowedUids env <= max_n <= MaxAllowedUids s)%nat /\ MaxAllowedUids s' = max_n /\
  if decide (max_n < get_subnetwork_n s)%nat then exists us, trimmed s max_n s' us
  else s' = set_max_allowed max_n s.
Proof.
  intros He Hok Hrun. unfold trim_uids_impl in Hrun. minv. bool_to_prop.
  change (get_subnetwork_n (set_max_allowed max_n s)) with (get_subnetwork_n s) in *.
  case_decide as Hlt; minv; [|by repeat split].
  rename select (trim_loop _ _ _ _ _ _ _ _ _ = _) into Hloop.
  match type of Hloop with _ = (Ok ?p, _) => destruct p as [[emissions removed] left] end. minv. bool_to_prop. subst.
  assert (Hok0 : neurons_ok env (set_max_allowed max_n s)).
  { destruct Hok. split; simpl; try done. lia. }
  destruct (trim_run_spec dh max_n (set_max_allowed max_n s) _ s' emissions removed He Hok0
    (Nat.lt_le_incl _ _ Hlt) Hloop Hrun) as (Hm & us & Htr).
  split_and!; [done..|]. exists us. destruct Htr as [T1 T2 T3 T4 T5]. split; [done..| |done|done].
  intros i uid Hi. destruct (T3 i uid Hi) as (Hb & Hs & Hperm).
  split; [done|]. split; [by destruct Hs|done].
Qed.

(** ** The commits of a Null subnet *)

Definition row_part s := (Weights (mechs s), Bonds (mechs s)).

Definition commit_count s : nat :=
  (size (WeightCommits (mechs s)) + size (TimelockedWeightCommits (mechs s)))%nat.

Lemma size_difference_list `{Countable K} (X : gset K) (l : list K) :
  NoDup l -> (forall k, k ∈ l -> k ∈ X) -> (size (X ∖ list_to_set l) + length l)%nat = size X.
Proof.
  intros Hnd Hin. rewrite <- (size_list_to_set (C := gset K) l Hnd), Nat.add_comm, size_difference by set_solver.
  assert (size (list_to_set l : gset K) <= size X)%nat by (apply subseteq_size; set_solver). lia.
Qed.

Lemma remove_commits_spec l s :
  let s' := foldl (fun s k => remove_commit k s) s l in
  neuron_part s' = neuron_part s /\ row_part s' = row_part s /\ WeightCommits (mechs s') = WeightCommits (mechs s) ∖ list_to_set l /\
  TimelockedWeightCommits (mechs s') = TimelockedWeightCommits (mechs s).
Proof.
  simpl. revert s. induction l as [|k l IH]; intros s; simpl; [split_and!; [done|done|set_solver|done]|].
  destruct (IH (remove_commit k s)) as (-> & -> & -> & ->). split_and!; [done|done| |done]. simpl. set_solver.
Qed.

Lemma remove_timelocked_spec l s :
  let s' := foldl (fun s k => remove_timelocked k s) s l in
  neuron_part s' = neuron_part s /\ row_part s' = row_part s /\
  TimelockedWeightCommits (mechs s') = TimelockedWeightCommits (mechs s) ∖ list_to_set l /\
  WeightCommits (mechs s') = WeightCommits (mechs s).
Proof.
  simpl. revert s. induction l as [|k l IH]; intros s; simpl; [split_and!; [done|done|set_solver|done]|].
  destruct (IH (remove_timelocked k s)) as (-> & -> & -> & ->). split_and!; [done|done| |done]. simpl. set_solver.
Qed.

(** A prefix is emptied if the budget allows, else the budget is used up. *)
Lemma prefix_budget {K} (keys : list K) budget :
  let gone := take budget (take (budget + 1) keys) in
  gone = take budget keys /\
  ((budget <? length (take (budget + 1) keys))%nat = true -> length gone = budget) /\
  ((budget <? length (take (budget + 1) keys))%nat = false -> gone = keys).
Proof.
  simpl. rewrite take_take, Nat.min_l by lia. rewrite length_take. split_and!; [done| |].
  - rewrite Nat.ltb_lt. intros Hlt. rewrite length_take. lia.
  - rewrite Nat.ltb_ge. intros Hge. apply take_ge. lia.
Qed.

Lemma prefix_keys `{Countable K} (it : list (Z * K)) (X : gset (Z * K)) index n : it ≡ₚ elements X ->
  let l := take n (filter (fun k => k.1 = index) it) in NoDup l /\ (forall k, k ∈ l -> k ∈ X).
Proof.
  intros Hit. simpl. split.
  - eapply sublist_NoDup; [|apply sublist_take]. apply NoDup_filter. rewrite Hit. apply NoDup_elements.
  - intros k Hk%(subseteq_take n). apply list_elem_of_filter in Hk as [_ Hk]. by rewrite Hit, elem_of_elements in Hk.
Qed.

Definition no_commits index s : Prop :=
  (forall k, k ∈ WeightCommits (mechs s) -> k.1 <> index) /\
  (forall k, k ∈ TimelockedWeightCommits (mechs s) -> k.1 <> index).

(** One step over a prefix, for either of the two maps. *)
Record prefix_cleared (more : bool) (budget budget' cleared cleared' : nat) s s' : Prop := {
  pre_part : neuron_part s' = neuron_part s;
  pre_rows : row_part s' = row_part s;
  pre_commits : WeightCommits (mechs s') ⊆ WeightCommits (mechs s);
  pre_timelocked : TimelockedWeightCommits (mechs s') ⊆ TimelockedWeightCommits (mechs s);
  pre_count : (commit_count s' + cleared' = commit_count s + cleared)%nat;
  pre_budget : (cleared' + budget' = cleared + budget)%nat;
  pre_more : more = true -> budget' = 0%nat;
}.

Lemma clear_commit_prefix index budget cleared s more budget' cleared' s' :
  clear_prefix remove_commit (filter (fun k => k.1 = index) (iter_commits out (WeightCommits (mechs s))))
    budget cleared s = (more, budget', cleared', s') ->
  prefix_cleared more budget budget' cleared cleared' s s' /\
  (more = false -> forall k, k ∈ WeightCommits (mechs s') -> k.1 <> index).
Proof.
  unfold clear_prefix. set (keys := filter _ _). intros [= <- <- <- <-].
  destruct (prefix_budget keys budget) as (-> & Hmore & Hless).
  destruct (prefix_keys _ _ index budget (iter_commits_perm (WeightCommits (mechs s)))) as [Hnd Hin]. fold keys in Hnd, Hin.
  destruct (remove_commits_spec (take budget keys) s) as (E1 & E0 & E2 & E3).
  pose proof (size_difference_list _ _ Hnd Hin) as Hsize.
  assert (Hl : (length (take budget keys) <= budget)%nat) by (rewrite length_take; lia). split; [split|].
  - done.
  - done.
  - rewrite E2. set_solver.
  - by rewrite E3.
  - unfold commit_count. rewrite E2, E3. lia.
  - lia.
  - intros Hm%Hmore. lia.
  - intros Hm%Hless k. rewrite E2, Hm, elem_of_difference, elem_of_list_to_set. intros [Hk Hn] Hidx. apply Hn.
    apply list_elem_of_filter. split; [done|]. by rewrite iter_commits_perm, elem_of_elements.
Qed.

Lemma clear_timelocked_prefix index budget cleared s more budget' cleared' s' :
  clear_prefix remove_timelocked
    (filter (fun k => k.1 = index) (iter_timelocked out (TimelockedWeightCommits (mechs s))))
    budget cleared s = (more, budget', cleared', s') ->
  prefix_cleared more budget budget' cleared cleared' s s' /\
  (more = false -> forall k, k ∈ TimelockedWeightCommits (mechs s') -> k.1 <> index).
Proof.
  unfold clear_prefix. set (keys := filter _ _). intros [= <- <- <- <-].
  destruct (prefix_budget keys budget) as (-> & Hmore & Hless).
  destruct (prefix_keys _ _ index budget (iter_timelocked_perm (TimelockedWeightCommits (mechs s)))) as [Hnd Hin].
  fold keys in Hnd, Hin.
  destruct (remove_timelocked_spec (take budget keys) s) as (E1 & E0 & E2 & E3).
  pose proof (size_difference_list _ _ Hnd Hin) as Hsize.
  assert (Hl : (length (take budget keys) <= budget)%nat) by (rewrite length_take; lia). split; [split|].
  - done.
  - done.
  - by rewrite E3.
  - rewrite E2. set_solver.
  - unfold commit_count. rewrite E2, E3. lia.
  - lia.
  - intros Hm%Hmore. lia.
  - intros Hm%Hless k. rewrite E2, Hm, elem_of_difference, elem_of_list_to_set. intros [Hk Hn] Hidx. apply Hn.
    apply list_elem_of_filter. split; [done|]. by rewrite iter_timelocked_perm, elem_of_elements.
Qed.

Lemma prefix_cleared_trans more more' b b1 b2 c c1 c2 s s1 s2 :
  prefix_cleared more b b1 c c1 s s1 -> prefix_cleared more' b1 b2 c1 c2 s1 s2 ->
  prefix_cleared more' b b2 c c2 s s2.
Proof. intros [] []. split; [congruence|congruence|set_solver|set_solver|lia..|done]. Qed.

Lemma clear_commits_spec indices budget cleared s clean cleared' s' :
  clear_commits out indices budget cleared s = (clean, cleared', s') ->
  (exists budget', prefix_cleared (negb clean) budget budget' cleared cleared' s s') /\
  (clean = true -> forall index, index ∈ indices -> no_commits index s').
Proof.
  revert budget cleared s. induction indices as [|index indices IH]; intros budget cleared s; cbn [clear_commits].
  { intros [= <- <- <-]. split; [|by intros _ ? ?%not_elem_of_nil]. exists budget. by split. }
  match goal with |- context [clear_prefix ?r ?k ?b ?c ?x] =>
    destruct (clear_prefix r k b c x) as [[[more1 b1] c1] s1] eqn:E1 end.
  apply clear_commit_prefix in E1 as [P1 N1]. destruct more1.
  { intros [= <- <- <-]. split; [|done]. eauto. }
  match goal with |- context [clear_prefix ?r ?k ?b ?c ?x] =>
    destruct (clear_prefix r k b c x) as [[[more2 b2] c2] s2] eqn:E2 end.
  apply clear_timelocked_prefix in E2 as [P2 N2]. pose proof (prefix_cleared_trans _ _ _ _ _ _ _ _ _ _ _ P1 P2) as P12.
  destruct more2.
  { intros [= <- <- <-]. split; [|done]. eauto. }
  intros Hrest. apply IH in Hrest as [[b3 P3] N3].
  split; [exists b3; by eapply prefix_cleared_trans|]. intros Hc i [->|Hi]%elem_of_cons; [|by apply N3].
  specialize (N1 eq_refl). specialize (N2 eq_refl). destruct P2, P3. split; set_solver.
Qed.

Lemma owner_uids_part s s' : slots s' = slots s ->
  get_immune_owner_uids env s' (SubnetOwner env) = get_immune_owner_uids env s (SubnetOwner env).
Proof.
  intros E. unfold get_immune_owner_uids, get_immune_owner_tuples, owner_triples, get_subnetwork_n,
    get_neuron_block_at_registration. by rewrite E.
Qed.

Lemma trimmed_part s0 s1 max_n s us : neuron_part s1 = neuron_part s0 ->
  Weights (mechs s1) = Weights (mechs s0) -> Bonds (mechs s1) = Bonds (mechs s0) ->
  trimmed s1 max_n s us -> trimmed s0 max_n s us.
Proof.
  intros Hpart Ew Eb [T1 T2 T3 T5 T4]. rewrite Ew, Eb in T5.
  destruct (neuron_part_eq _ _ Hpart) as (E1 & E2 & E3 & E4 & _).
  assert (Hprot : forall uid, protected s1 (get_immune_owner_uids env s1 (SubnetOwner env)) uid <->
                              protected s0 (get_immune_owner_uids env s0 (SubnetOwner env)) uid).
  { intros uid. unfold protected, get_neuron_is_immune, get_neuron_block_at_registration.
    by rewrite (owner_uids_part s0 s1), E1. }
  unfold get_subnetwork_n in *. rewrite E1 in T3, T4. simpl in *. setoid_rewrite Hprot in T4. rewrite E2 in T4. split; [done..| |done|done].
  intros i uid Hi. destruct (T3 i uid Hi) as (Hb & Hs & Hperm). split; [done|].
  split; [by eapply same_neuron_part|]. unfold same_permit in *. by rewrite E2 in Hperm.
Qed.

Lemma clear_null_fixed : fixed (fun s => (neuron_part s, row_part s)) (clear_null_pruning_commits env out).
Proof.
  intros s. unfold clear_null_pruning_commits. destruct (clear_commits _ _ _ _ _) as [[clean n] s1] eqn:Ec.
  apply clear_commits_spec in Ec as [[b P] _]. simpl. f_equal; [apply (pre_part _ _ _ _ _ _ _ P)|apply (pre_rows _ _ _ _ _ _ _ P)].
Qed.
#[local] Hint Resolve clear_null_fixed : frame.


(** Trimming itself leaves the commits alone. *)
Definition commits s := (WeightCommits (mechs s), TimelockedWeightCommits (mechs s)).

Lemma mechs_commits (f : Mechanisms (AccountId := AccountId) -> Z -> Mechanisms (AccountId := AccountId)) m ixs :
  (forall m index, WeightCommits (f m index) = WeightCommits m /\
                   TimelockedWeightCommits (f m index) = TimelockedWeightCommits m) ->
  WeightCommits (foldl f m ixs) = WeightCommits m /\
  TimelockedWeightCommits (foldl f m ixs) = TimelockedWeightCommits m.
Proof.
  intros Hf. split; [apply (foldl_fixed WeightCommits)|apply (foldl_fixed TimelockedWeightCommits)];
    intros m' i; apply Hf.
Qed.

Lemma trim_neuron_commits uid : fixed commits (trim_neuron env out uid).
Proof.
  assert (Huid : forall s, commits (trim_uid env uid s) = commits s).
  { intros s. unfold trim_uid. by rewrite (foldl_fixed commits). }
  unfold trim_neuron, trim_hotkey. solve_fixed; try done.
  - intros s. destruct (is_root env); [|done]. unfold prepare_root_neuron_for_removal.
    by destruct (flush_basket_deposits_for_hotkey _ _ _ _).
  - by destruct (is_root env).
Qed.
#[local] Hint Resolve trim_neuron_commits : frame.

Lemma trim_loop_commits owner_uids max_n i emissions removed left :
  fixed commits (trim_loop env out owner_uids max_n i emissions removed left).
Proof.
  revert emissions removed left. induction i as [|i IH]; intros emissions removed left; simpl; solve_fixed.
Qed.

Lemma move_neuron_commits is_null dh mp s q : commits (move_neuron env is_null dh mp s q) = commits s.
Proof.
  unfold move_neuron. destruct is_null; [by case_decide|]. unfold commits. simpl. set (f := move_mechanism _ _ _).
  by destruct (mechs_commits f (mechs s) (mech_indices env)) as [-> ->].
Qed.

Lemma compact_commits dh n max_n emissions removed : fixed commits (compact env out dh n max_n emissions removed).
Proof.
  unfold compact, remap_null_pruning_rows, remap_bond_row. solve_fixed.
  - unfold commits. simpl. match goal with |- context [trim_mechanism ?us] =>
      by destruct (mechs_commits (trim_mechanism us) (mechs s) (mech_indices env)) as [-> ->] end.
  - apply (foldl_fixed commits). intros. apply move_neuron_commits.
  - by case_match.
  - unfold reinsert_uids. by rewrite (foldl_fixed commits).
Qed.
#[local] Hint Resolve trim_loop_commits compact_commits : frame.

Lemma trim_uids_impl_commits dh max_n : fixed commits (trim_uids_impl env out dh max_n).
Proof. unfold trim_uids_impl. solve_fixed. Qed.

Lemma commits_count s s' : commits s' = commits s -> commit_count s' = commit_count s.
Proof. unfold commits, commit_count. by intros [= -> ->]. Qed.

(** (C37) A batch of pruning of a Null subnet either uses its whole
    budget to delete commits and records the target, or finds no commit left and
    removes up to 64 neurons, never going below the target; the target stays
    recorded exactly while more neurons than that remain.  Each batch that leaves
    the target recorded reduces commits and neurons together, so that repeated
    batches come to an end.  A batch that fails changes nothing. *)
Theorem null_pruning_progress dh target s :
  env_ok env -> neurons_ok env s ->
  match trim_null_uids_batch env out dh target s with
  | (Ok _, s') =>
      neurons_ok env s' /\
      ((neuron_part s' = neuron_part s /\ NullPruningTarget s' = Some target /\
        (commit_count s' + NULL_UID_BUDGET = commit_count s)%nat) \/
       (get_subnetwork_n s' = Nat.min (get_subnetwork_n s) (Nat.max (get_subnetwork_n s - NULL_PRUNING_BATCH) target) /\
        NullPruningTarget s' = (if (target <? get_subnetwork_n s')%nat then Some target else None) /\
        (forall index, index ∈ mech_indices env -> no_commits index s') /\
        (commit_count s' <= commit_count s)%nat)) /\
      (NullPruningTarget s' = Some target ->
        (commit_count s' + get_subnetwork_n s' < commit_count s + get_subnetwork_n s)%nat)
  | (Err _, s') => s' = s
  end.
Proof.
  intros He Hok. destruct (trim_null_uids_batch env out dh target s) as [[[]|e] s'] eqn:Hrun.
  2: { by apply transactional_err in Hrun. }
  unfold trim_null_uids_batch in Hrun. minv. rename select (clear_null_pruning_commits _ _ _ = _) into Hclear.
  match goal with Hc : (if _ then _ else _) s = (Ok _, ?x) |- _ =>
    assert (x = s) as -> by (destruct (target <? get_subnetwork_n s)%nat; minv; done) end.
  unfold clear_null_pruning_commits in Hclear. destruct (clear_commits _ _ _ _ _) as [[clean n] s1] eqn:Ec.
  injection Hclear as <- <-. apply clear_commits_spec in Ec as [[b [P1 _ P2 P3 P4 P5 P6]] Hnone]. destruct clean; simpl in Hrun.
  - minv. rename select (trim_uids_impl _ _ _ _ _ = _) into Htrim.
    match type of Htrim with _ = (Ok ?u, ?x) => destruct u; rename x into s2 end.
    epose proof (trim_uids_impl_commits dh _ s1) as Hcm. rewrite Htrim in Hcm. simpl in Hcm.
    pose proof (neurons_ok_part _ _ P1 Hok) as Hok1.
    assert (Hn1 : get_subnetwork_n s1 = get_subnetwork_n s).
    { apply neuron_part_eq in P1 as (E1 & _). unfold get_subnetwork_n. by rewrite E1. }
    destruct (trim_uids_impl_spec dh _ s1 s2 He Hok1 Htrim) as ([_ Hle] & Hm & Htr). rewrite Hn1 in Htr.
    assert (Hres : neurons_ok env s2 /\ get_subnetwork_n s2 =
      Nat.min (get_subnetwork_n s) (Nat.max (get_subnetwork_n s - NULL_PRUNING_BATCH) target)).
    { case_decide as Hlt.
      - destruct Htr as (us & [T1 (T2 & _) _ _ _]). split; [done|]. lia.
      - subst s2. split; [|change (get_subnetwork_n s1 = Nat.min (get_subnetwork_n s)
          (Nat.max (get_subnetwork_n s - NULL_PRUNING_BATCH) target)); lia].
        destruct Hok1. split; simpl; try done. lia. }
    destruct Hres as [Hok2 Hn2]. pose proof (commits_count _ _ Hcm) as Hcount.
    match goal with |- neurons_ok env ?x /\ _ =>
      change (commit_count x) with (commit_count s2); change (get_subnetwork_n x) with (get_subnetwork_n s2);
      split; [by apply (neurons_ok_part s2)|]; split; [right|] end.
    + split_and!; [done|done| |lia]. intros index Hin. specialize (Hnone eq_refl index Hin).
      unfold commits in Hcm. injection Hcm as Hcm1 Hcm2. unfold no_commits in *. simpl. by rewrite Hcm1, Hcm2.
    + simpl. unfold NULL_PRUNING_BATCH in *. destruct (Nat.ltb_spec target (get_subnetwork_n s2)); [lia|done].
  - minv. specialize (P6 eq_refl).
    assert (Hn1 : get_subnetwork_n s1 = get_subnetwork_n s).
    { apply neuron_part_eq in P1 as (E1 & _). unfold get_subnetwork_n. by rewrite E1. }
    match goal with |- neurons_ok env ?x /\ _ =>
      change (commit_count x) with (commit_count s1); change (get_subnetwork_n x) with (get_subnetwork_n s1);
      change (neuron_part x) with (neuron_part s1); split; [by apply (neurons_ok_part s)|] end.
    unfold NULL_UID_BUDGET in *. split; [left; split_and!; [done|done|lia]|lia].
Qed.

(** ** Trimming succeeds *)

Lemma trim_neuron_total uid s : is_root env = false -> exists s', trim_neuron env out uid s = (Ok tt, s').
Proof.
  intros Hr. unfold trim_neuron. rewrite bind_gets. destruct (Keys (slots s) !! uid); [|eexists; reflexivity].
  unfold trim_hotkey. rewrite Hr. eexists. reflexivity.
Qed.

(** The number of protected neurons, as the code counts them. *)
Lemma immune_count_spec s owner_uids : neurons_ok env s ->
  immune_count env s owner_uids =
  length (filter (fun uid => protected s owner_uids uid) (seq 0 (get_subnetwork_n s))).
Proof.
  intros Hok. unfold immune_count.
  assert (Hgen : forall l c, (c + length l <= Z.to_nat u16_max)%nat ->
    foldl (fun count uid => if bool_decide (uid ∈ owner_uids) || get_neuron_is_immune env s uid
                            then u16_add count 1 else count) c l =
    (c + length (filter (fun uid => protected s owner_uids uid) l))%nat).
  { induction l as [|u l IH]; intros c Hc; simpl in *; [lia|]. rewrite filter_cons.
    destruct (bool_decide (u ∈ owner_uids) || get_neuron_is_immune env s u) eqn:E.
    - rewrite decide_True, u16_add_small, IH by (try (unfold protected; apply orb_true_iff in E as [?%bool_decide_eq_true|?]; tauto); lia).
      simpl. lia.
    - rewrite decide_False; [apply IH; lia|]. unfold protected.
      apply orb_false_iff in E as [?%bool_decide_eq_false ?]. intros [?|?]; congruence. }
  rewrite Hgen; [done|]. rewrite length_seq. apply (slots_u16 _ (ok_slots _ _ Hok)).
Qed.

Section total.
Context (s0 : State) (owner_uids : list nat) (max_n : nat) (L : list (nat * Z)).
Context (Hok : neurons_ok env s0) (HL : NoDup L.*1).
Context (HLn : forall uid, uid ∈ L.*1 -> (uid < SubnetworkN (slots s0))%nat) (Hroot : is_root env = false).

Lemma trim_loop_total i emissions removed left s :
  visited s0 owner_uids L i emissions removed left s -> (max_n <= left)%nat ->
  exists emissions' removed' left' s' j,
    trim_loop env out owner_uids max_n i emissions removed left s = (Ok (emissions', removed', left'), s') /\
    visited s0 owner_uids L j emissions' removed' left' s' /\ (max_n <= left')%nat /\ (left' = max_n \/ j = 0%nat).
Proof.
  revert emissions removed left s. induction i as [|i IH]; intros emissions removed left s Hv Hle; simpl.
  { exists emissions, removed, left, s, 0%nat. split_and!; auto. }
  case_decide as Hd; [exists emissions, removed, left, s, (Datatypes.S i); split_and!; auto|].
  destruct (emissions !! i) as [[uid e]|] eqn:Ei.
  - destruct (visited_fresh s0 owner_uids L Hok HL HLn _ _ _ _ _ _ _ Hv Ei) as [Hlt Hfresh].
    rewrite as_u16_id by (pose proof (slots_u16 _ (ok_slots _ _ Hok)); lia). rewrite bind_gets.
    rewrite (partial_immune _ _ _ _ (vis_state _ _ _ _ _ _ _ _ Hv) Hfresh).
    destruct (bool_decide (uid ∈ owner_uids) || get_neuron_is_immune env s0 uid) eqn:Eimm.
    + apply IH; [|done]. eapply visited_skip; [done..|].
      apply orb_true_iff in Eimm as [?%bool_decide_eq_true|?]; [by left|by right].
    + destruct (trim_neuron_total uid s Hroot) as [s1 Hs1]. rewrite (bind_run _ _ _ _ _ Hs1).
      apply IH; [|lia]. eapply visited_remove; [done..| |].
      * unfold protected. apply orb_false_iff in Eimm as [?%bool_decide_eq_false ?]. intros [?|?]; congruence.
      * by eapply trim_neuron_partial; [..|exact Hs1]; eauto using vis_state.
  - destruct Hv as [Hb (tail & rm & -> & _) _ _]. exfalso.
    apply lookup_ge_None in Ei. rewrite length_app, length_take in Ei. lia.
Qed.

(** If the protected neurons fit, the loop reaches its goal. *)
Lemma visited_all_protected emissions removed left s :
  visited s0 owner_uids L 0 emissions removed left s ->
  (left <= length (filter (fun uid => protected s0 owner_uids uid) (seq 0 (get_subnetwork_n s0))))%nat.
Proof.
  intros [_ (tail & rm & -> & Hd & _ & Ht & _) -> _]. rewrite drop_0 in Hd. simpl.
  rewrite <- (length_fmap fst). apply submseteq_length, NoDup_submseteq.
  - rewrite Hd, fmap_app in HL. by apply NoDup_app in HL as (? & _).
  - intros uid Hu. apply list_elem_of_filter. split.
    + apply list_elem_of_fmap in Hu as (p & -> & Hp). rewrite Forall_forall in Ht. by apply Ht.
    + apply elem_of_seq. split; [lia|]. apply HLn. rewrite Hd, fmap_app. apply elem_of_app. by left.
Qed.
End total.

(** Trimming a Yuma subnet that is not the root network succeeds
    whenever the requested size is allowed and its protected neurons fit into it
    and pass the percentage check: the loop always finds enough neurons to
    remove. *)
Theorem trim_succeeds dh max_n s :
  env_ok env -> neurons_ok env s -> is_root env = false -> get_epoch_consensus env = Yuma ->
  if_subnet_exist env = true -> (MinAllowedUids env <= max_n <= MaxAllowedUids s)%nat ->
  let immune := immune_count env s (get_immune_owner_uids env s (SubnetOwner env)) in
  (immune <= max_n)%nat -> percent_from_rational out immune max_n < MaxImmuneUidsPercentage env ->
  exists s', trim_to_max_allowed_uids env out dh max_n s = (Ok tt, s').
Proof.
  intros He Hok Hroot Hmode Hex [Hmin Hmax] immune Himm Hpct.
  set (s0 := set_max_allowed max_n s).
  assert (Hok0 : neurons_ok env s0) by (destruct Hok; split; simpl; try done; lia).
  enough (exists s', trim_uids_impl env out dh max_n s = (Ok tt, s')) as [s' Hs'].
  { exists (set_pruning_target None s'). unfold trim_to_max_allowed_uids. apply transactional_ok. rewrite bind_gets, Hmode.
    simpl. unfold ensure. rewrite (bind_run _ _ _ tt s) by done. rewrite (bind_run _ _ _ tt s) by done.
    by rewrite (bind_run _ _ _ _ _ Hs'). }
  unfold trim_uids_impl. rewrite Hex, bool_decide_eq_true_2 by done.
  do 2 (rewrite (bind_run _ _ _ tt s) by done). rewrite bind_gets, bool_decide_eq_true_2 by done.
  rewrite (bind_run _ _ _ tt s) by done. rewrite bind_modify, bind_gets. fold s0.
  case_decide as Hlt; [|by eexists]. rewrite !bind_gets.
  change (immune_count env s0 (get_immune_owner_uids env s0 (SubnetOwner env))) with immune.
  rewrite (proj2 (Z.ltb_lt _ _) Hpct), (bind_run _ _ _ tt s0) by done. rewrite bind_gets.
  destruct (sorted_emissions s0 Hok0) as (HL & HLn & _ & HLl).
  destruct (trim_loop_total s0 (get_immune_owner_uids env s0 (SubnetOwner env)) max_n _ Hok0 HL
    (fun uid => proj1 (HLn uid)) Hroot _ _ _ _ _ (visited_start s0 _ _ Hok0)) as (em & rm & left & s1 & j & Hloop & Hv & Hle & Hend).
  { rewrite HLl. unfold get_subnetwork_n in Hlt. lia. }
  rewrite HLl in Hloop. unfold get_subnetwork_n at 1 2. rewrite (bind_run _ _ _ _ _ Hloop).
  assert (left = max_n) as ->.
  { destruct Hend as [| ->]; [done|]. pose proof (visited_all_protected _ _ _ HL (fun uid => proj1 (HLn uid)) _ _ _ _ Hv) as Hx.
    rewrite <- immune_count_spec in Hx by done. change (immune_count env s0 _) with immune in Hx. lia. }
  rewrite bool_decide_eq_true_2, (bind_run _ _ _ tt s1) by done.
  unfold compact. rewrite bool_decide_eq_false_2 by congruence. eexists. reflexivity.
Qed.

(** ** Weights by hotkey *)

(** The hotkey [h] gives the hotkey [h'] the value [v] in the rows [m]. *)
Definition gives s (m : gmap (Z * nat) (list (nat * Z))) index h h' (v : Z) : Prop :=
  exists from to row, Keys (slots s) !! from = Some h /\ Keys (slots s) !! to = Some h' /\
    m !! (index, from) = Some row /\ (to, v) ∈ row.

Lemma remap_row_elem us row j v : NoDup us -> (length us <= Z.to_nat u16_max)%nat ->
  (j, v) ∈ remap_row (uid_map us) row <-> exists uid, us !! j = Some uid /\ (uid, v) ∈ row.
Proof.
  intros Hnd Hu. unfold remap_row. rewrite list_elem_of_omap. split.
  - intros ([uid w] & Hin & He). simpl in He. destruct (uid_map us !! uid) as [i|] eqn:E; [|done].
    apply uid_map_spec in E; [|done]. pose proof (lookup_lt_Some _ _ _ E). rewrite as_u16_id in He by lia.
    simplify_eq. eauto.
  - intros (uid & Hj & Hin). exists (uid, v). split; [done|]. simpl.
    rewrite (proj2 (uid_map_spec us Hnd uid j) Hj). pose proof (lookup_lt_Some _ _ _ Hj). by rewrite as_u16_id by lia.
Qed.

Lemma trimmed_slot s max_n s' us i h : neurons_ok env s -> trimmed s max_n s' us ->
  Keys (slots s') !! i = Some h <-> exists uid, us !! i = Some uid /\ Keys (slots s) !! uid = Some h.
Proof.
  intros Hok [T1 (T2 & T3 & _) T4 _ _]. split.
  - intros Hi. assert (Hlt : (i < length us)%nat).
    { rewrite T3, <- T2. apply (slots_dense _ (ok_slots _ _ T1)). eauto. }
    apply lookup_lt_is_Some_2 in Hlt as [uid Hu]. exists uid. destruct (T4 i uid Hu) as (_ & Hs & _).
    by rewrite <- (same_key _ _ _ _ _ Hs).
  - intros (uid & Hu & Hk). destruct (T4 i uid Hu) as (_ & Hs & _). by rewrite (same_key _ _ _ _ _ Hs).
Qed.

Lemma trimmed_gives s max_n s' us m m' index h h' v :
  neurons_ok env s -> trimmed s max_n s' us -> rows_follow us m m' -> index ∈ mech_indices env ->
  gives s' m' index h h' v <->
  gives s m index h h' v /\ is_Some (Uids (slots s') !! h) /\ is_Some (Uids (slots s') !! h').
Proof.
  intros Hok Htr Hrows Hin. pose proof (fun i k => trimmed_slot s max_n s' us i k Hok Htr) as Hslot.
  destruct Htr as [T1 (T2 & T3 & Hnd) _ _ _].
  assert (Hu16 : (length us <= Z.to_nat u16_max)%nat).
  { rewrite T3, <- T2. apply (slots_u16 _ (ok_slots _ _ T1)). }
  pose proof (slots_inverse _ (ok_slots _ _ T1)) as Hinv'. pose proof (slots_inverse _ (ok_slots _ _ Hok)) as Hinv. split.
  - intros (i & j & row & Hi & Hj & Hrow & Hv). split; [|split; eexists; by apply Hinv'].
    apply Hslot in Hi as (from & Hfrom & Hh). apply Hslot in Hj as (to & Hto & Hh').
    rewrite (Hrows index i from Hin Hfrom) in Hrow. simplify_eq.
    apply remap_row_elem in Hv as (to' & Hto' & Hv); [|done..].
    destruct (m !! (index, from)) as [row|] eqn:E; [|by apply not_elem_of_nil in Hv]. simpl in Hv.
    assert (to' = to) as -> by congruence. by exists from, to, row.
  - intros ((from & to & row & Hh & Hh' & Hrow & Hv) & [i Hi%Hinv'] & [j Hj%Hinv']).
    apply Hslot in Hi as Hi'. apply Hslot in Hj as Hj'. destruct Hi' as (u & Hu & Hk), Hj' as (w & Hw & Hk').
    assert (u = from) as -> by (apply Hinv in Hk, Hh; congruence).
    assert (w = to) as -> by (apply Hinv in Hk', Hh'; congruence).
    exists i, j, (remap_row (uid_map us) row). split_and!; [done..| |].
    + rewrite (Hrows index i from Hin Hu). by rewrite Hrow.
    + apply remap_row_elem; eauto.
Qed.

(** (C27) Seen by hotkeys instead of uids, trimming a Yuma subnet
    just restricts the weights and bonds of every mechanism to the hotkeys that
    stay: renumbering redirects no weight to another neuron and loses none. *)
Theorem weights_follow_hotkeys dh max_n s s' index h h' v :
  env_ok env -> neurons_ok env s -> get_epoch_consensus env = Yuma -> index ∈ mech_indices env ->
  trim_to_max_allowed_uids env out dh max_n s = (Ok tt, s') ->
  let stay := is_Some (Uids (slots s') !! h) /\ is_Some (Uids (slots s') !! h') in
  (gives s' (Weights (mechs s')) index h h' v <-> gives s (Weights (mechs s)) index h h' v /\ stay) /\
  (gives s' (Bonds (mechs s')) index h h' v <-> gives s (Bonds (mechs s)) index h h' v /\ stay).
Proof.
  intros He Hok Hmode Hin Hrun. unfold trim_to_max_allowed_uids in Hrun. rewrite Hmode in Hrun. minv.
  rename select (trim_uids_impl _ _ _ _ _ = _) into Hrun.
  match type of Hrun with _ = (Ok ?u, ?y) => destruct u; rename y into s2 end.
  match goal with Hc : (if _ then _ else _) s = (Ok _, ?x) |- _ =>
    rewrite bool_decide_eq_false_2 in Hc by done; simpl in Hc; assert (x = s) as -> by (by minv) end.
  destruct (trim_uids_impl_spec dh max_n s s2 He Hok Hrun) as (_ & _ & Htr).
  case_decide as Hlt.
  - destruct Htr as (us & Htr). destruct (trim_rows _ _ _ _ Htr Hmode) as [Hw Hb].
    split; by apply (trimmed_gives s max_n s2 us).
  - subst s2. pose proof (slots_inverse _ (ok_slots _ _ Hok)) as Hinv. simpl.
    split; (split; [|by intros [? _]]); intros (from & to & row & Hh & Hh' & Hrow & Hv);
      (split; [by exists from, to, row|split; eexists; by apply Hinv]).
Qed.
End trim.

(** ** A concrete trimming *)

(** The subnet of NeuronsSafety.v with three neurons, of which the second earns
    least, trimmed to two; once under Yuma and once as a Null subnet. *)
Module Trimming.
Import NeuronsSafety.Example.

#[export] Instance out_laws : OutsideLaws out.
Proof. split; intros; simpl; [done..|apply length_replicate]. Qed.

Definition null_env : Env (AccountId := nat) :=
  mkEnv 7 true 100 50 1 0 1 1%nat None {[ 11%nat := 1%nat ]} 1 Null 256 80.

Definition three := append_neuron env 13%nat 40 (set_max_allowed 3 full).

Definition earning :=
  set_weights {[ (7, 0%nat) := [(1%nat, 10); (2%nat, 20)] ]}
    (set_vectors (mkVectors [true; true; true] [5; 1; 3] [0; 0; 0] [0; 0; 0] [0; 0; 0]
      [true; false; false] []) three).

Lemma earning_ok : neurons_ok env earning.
Proof.
  assert (Hok : neurons_ok env three).
  { apply append_neuron_ok; [apply env_fine| |reflexivity|change (2 < Z.to_nat u16_max)%nat; unfold u16_max; lia].
    destruct full_ok. split; try done. simpl. unfold u16_max. lia. }
  destruct Hok as [Hs Hv Hi Hev Hm]. by split.
Qed.

Lemma null_earning_ok : neurons_ok null_env earning.
Proof. destruct earning_ok as [Hs Hv Hi Hev Hm]. by split. Qed.


Lemma null_pruning_progress_witness :
  let '(r, s') := trim_null_uids_batch null_env out 0%nat 2 earning in
  r = Ok tt /\ neurons_ok null_env s' /\ get_subnetwork_n s' = 2%nat.
Proof.
  pose proof (null_pruning_progress null_env out 0%nat 2 earning env_fine null_earning_ok) as Ht.
  set (run := trim_null_uids_batch _ _ _ _ _) in *.
  assert (Hrun : run = (Ok tt, run.2)) by (refine (ok_run run _); vm_compute; reflexivity).
  rewrite Hrun in Ht |- *. destruct Ht as (Hok & _). split; [done|]. split; [done|]. vm_compute. reflexivity.
Defined.

Lemma trim_succeeds_witness :
  is_ok (trim_to_max_allowed_uids env out 0%nat 2 earning).1 = true /\
  exists s', trim_to_max_allowed_uids env out 0%nat 2 earning = (Ok tt, s').
Proof.
  split; [vm_compute; reflexivity|].
  apply (trim_succeeds env out 0%nat 2 earning env_fine earning_ok); try reflexivity.
  - change (1 <= 2 <= 3)%nat. lia.
  - vm_compute. lia.
Defined.

Lemma weights_follow_hotkeys_witness :
  let s' := (trim_to_max_allowed_uids env out 0%nat 2 earning).2 in
  gives s' (Weights (mechs s')) 7 11%nat 13%nat 20 /\ ~ gives s' (Weights (mechs s')) 7 11%nat 12%nat 10.
Proof.
  pose proof (weights_follow_hotkeys env out 0%nat 2 earning (trim_to_max_allowed_uids env out 0%nat 2 earning).2 7) as Hw.
  split.
  - apply (proj1 (Hw 11%nat 13%nat 20 env_fine earning_ok eq_refl ltac:(by left)
      (ok_run (trim_to_max_allowed_uids env out 0%nat 2 earning) ltac:(vm_compute; reflexivity)))).
    split; [|split; vm_compute; by eexists].
    exists 0%nat, 2%nat, [(1%nat, 10); (2%nat, 20)]. split_and!; [vm_compute; reflexivity..|]. by right; left.
  - intros Hg. apply (proj1 (Hw 11%nat 12%nat 10 env_fine earning_ok eq_refl ltac:(by left)
      (ok_run (trim_to_max_allowed_uids env out 0%nat 2 earning) ltac:(vm_compute; reflexivity)))) in Hg.
    destruct Hg as (_ & _ & [u Hu]). vm_compute in Hu. discriminate.
Defined.
End Trimming.
