(* ===== verification/NeuronsEvm.v ===== *)
(** * NeuronsEvm: associating an EVM key with a neuron

    Models the rest of src/pallets/subtensor/src/utils/evm.rs on the state of
    Neurons.v: the signed association of an address with the uid of a hotkey, the
    two maps that record it and the lookup from an address.  Bytes are numbers
    below 256.  The hash, the recovery of a public key from a signature and the
    encoding of accounts are the code of other crates and parameters. *)

From Stdlib Require Import ZArith Lia Sorting.Sorted.
From stdpp Require Import base gmap list fin_maps.
From S2P Require Import Prelude Neurons NeuronsSafety.

Abbreviation bytes := (list Z).

(** SCALE: a u64 as eight bytes, the lowest first. *)
Definition encode_u64 (x : Z) : bytes :=
  (fun i => Z.land (Z.shiftr x (8 * Z.of_nat i)) 255) <$> seq 0 8.

(** [usize::to_string], in ASCII; [fuel] bounds the digits. *)
Fixpoint decimal (fuel n : nat) : bytes :=
  match fuel with
  | O => []
  | Datatypes.S fuel =>
      (if (n <? 10)%nat then [] else decimal fuel (n / 10)) ++ [48 + Z.of_nat (n mod 10)]
  end.

(** "\x19Ethereum Signed Message:\n". *)
Definition MESSAGE_PREFIX : bytes :=
  [25; 69; 116; 104; 101; 114; 101; 117; 109; 32; 83; 105; 103; 110; 101; 100; 32; 77; 101; 115; 115;
   97; 103; 101; 58; 10].

(** Code of other crates. *)
Record Crypto {AccountId H160 : Type} : Type := mkCrypto {
  keccak_256 : bytes -> bytes;
  encode_account : AccountId -> bytes;
  (** [ecdsa::Signature::recover_prehashed]: the compressed public key. *)
  recover_prehashed : bytes -> bytes -> option bytes;
  (** [PublicKey::parse_compressed] and [serialize]. *)
  parse_compressed : bytes -> option bytes;
  h160_from_slice : bytes -> H160;
}.

Section evm.
Context {AccountId : Type} `{Countable AccountId} {H160 : Type} `{Countable H160} {Data World : Type}.
Context (env : Env (AccountId := AccountId)) (crypto : Crypto (AccountId := AccountId) (H160 := H160)).
Context (DefaultAccount : AccountId) (EvmKeyAssociateRateLimit : Z).
Abbreviation State := (State (AccountId := AccountId) (H160 := H160) (Data := Data) (World := World)).
Abbreviation Evm := (Evm (H160 := H160)).
Abbreviation Storage := (M State Error).

Definition hash_message_eip191 (message : bytes) : bytes :=
  let msg_len := decimal 20 (length message) in
  keccak_256 crypto (MESSAGE_PREFIX ++ msg_len ++ message).

(** The first entry of [uid] gets the new block. *)
Fixpoint refresh (uid : nat) (block_associated : Z) (uids : list (nat * Z)) : list (nat * Z) :=
  match uids with
  | [] => []
  | (stored_uid, b) :: uids =>
      if decide (stored_uid = uid) then (stored_uid, block_associated) :: uids
      else (stored_uid, b) :: refresh uid block_associated uids
  end.

(** [try_push] fails on a full bucket, which is only logged. *)
Definition upsert_uid_in_evm_address_index (evm_key : H160) (uid : nat) (block_associated : Z) (e : Evm) : Evm :=
  let uids := default [] (AssociatedUidsByEvmAddress e !! evm_key) in
  let uids :=
    if decide (uid ∈ uids.*1) then refresh uid block_associated uids
    else if (length uids <? MAX_ASSOCIATED_UIDS_PER_EVM_ADDRESS)%nat then uids ++ [(uid, block_associated)]
    else uids in
  mkEvm (AssociatedEvmAddress e) (<[evm_key := uids]> (AssociatedUidsByEvmAddress e)).

Definition ensure_evm_address_index_capacity (uid : nat) (evm_key : H160) : Storage unit :=
  bucket ← gets (fun s => default [] (AssociatedUidsByEvmAddress (evm s) !! evm_key));
  let already_tracked := bool_decide (uid ∈ bucket.*1) in
  ensure (already_tracked || (length bucket <? MAX_ASSOCIATED_UIDS_PER_EVM_ADDRESS)%nat)
    EvmKeyAssociationLimitExceeded.

Definition set_associated_evm_address (uid : nat) (evm_key : H160) (block_associated : Z) (e : Evm) : Evm :=
  let e := match AssociatedEvmAddress e !! uid with
           | Some (old_evm_key, _) =>
               if decide (old_evm_key <> evm_key) then remove_uid_from_evm_address_index old_evm_key uid e else e
           | None => e
           end in
  let e := upsert_uid_in_evm_address_index evm_key uid block_associated e in
  mkEvm (<[uid := (evm_key, block_associated)]> (AssociatedEvmAddress e)) (AssociatedUidsByEvmAddress e).

Definition clear_associated_evm_addresses (s : State) : State := set_evm (mkEvm ∅ ∅) s.

Definition by_block (a b : nat * Z) : bool := a.2 <=? b.2.

Definition uid_lookup (s : State) (evm_key : H160) (limit : nat) : list (nat * Z) :=
  take limit (sort_by by_block (default [] (AssociatedUidsByEvmAddress (evm s) !! evm_key))).

Definition ensure_evm_key_associate_rate_limit (uid : nat) : Storage unit :=
  block_associated ← gets (fun s => match AssociatedEvmAddress (evm s) !! uid with
                                    | Some (_, block_associated) => block_associated
                                    | None => 0
                                    end);
  let block_diff := saturating_sub (get_current_block_as_u64 env) block_associated in
  if block_diff <? EvmKeyAssociateRateLimit then fail EvmKeyAssociateRateLimitExceeded else mret tt.

(** The v value of a signature, its byte 64, as 0 or 1. *)
Definition normalize_v (signature : bytes) : bytes :=
  alter (fun v => if 27 <=? v then saturating_sub v 27 else v) 64%nat signature.

Definition signed_message (hotkey : AccountId) (block_number : Z) : bytes :=
  encode_account crypto hotkey ++ keccak_256 crypto (encode_u64 block_number).

Definition address_of (uncompressed : bytes) : H160 :=
  h160_from_slice crypto (drop 12 (keccak_256 crypto (drop 1 uncompressed))).

Definition do_associate_evm_key (hotkey : AccountId) (evm_key : H160) (block_number : Z) (signature : bytes)
    : Storage unit :=
  transactional (
    ensure (if_subnet_exist env) SubnetNotExists;;
    ensure (bool_decide (default DefaultAccount (Owner env !! hotkey) <> DefaultAccount)) NonAssociatedColdKey;;
    let signature := normalize_v signature in
    uid ← (fun s => (get_uid_for_net_and_hotkey s hotkey, s)) : Storage nat;
    ensure_evm_key_associate_rate_limit uid;;
    public ← ok_or (recover_prehashed crypto signature
                      (hash_message_eip191 (signed_message hotkey block_number))) InvalidIdentity;
    uncompressed ← ok_or (parse_compressed crypto public) UnableToRecoverPublicKey;
    ensure (bool_decide (evm_key = address_of uncompressed)) InvalidRecoveredPublicKey;;
    ensure_evm_address_index_capacity uid evm_key;;
    let current_block_number := get_current_block_as_u64 env in
    modify (fun s => set_evm (set_associated_evm_address uid evm_key current_block_number (evm s)) s);;
    modify (deposit_event (EvmKeyAssociated hotkey evm_key current_block_number))).

(** ** The index stays exact *)

Lemma refresh_fst uid b uids : (refresh uid b uids).*1 = uids.*1.
Proof. induction uids as [|[u c] uids IH]; [done|]. simpl. case_decide; csimpl; by rewrite ?IH. Qed.

Lemma refresh_elem uid b uids u c : NoDup uids.*1 -> uid ∈ uids.*1 ->
  (u, c) ∈ refresh uid b uids <-> (u = uid /\ c = b) \/ (u <> uid /\ (u, c) ∈ uids).
Proof.
  induction uids as [|[v d] uids IH]; [by intros _ ?%not_elem_of_nil|]. csimpl.
  intros [Hv Hnd]%NoDup_cons Hin. simpl.
  assert (Hfst : forall x y, (x, y) ∈ uids -> x ∈ uids.*1) by (intros x y Hx; apply list_elem_of_fmap; by exists (x, y)).
  case_decide as E; rewrite !elem_of_cons.
  - subst v. split; [intros [[= -> ->]|Hx]; [by left|]|naive_solver].
    right. split; [|by right]. intros ->. by apply Hv, (Hfst _ c).
  - apply elem_of_cons in Hin as [?|Hin]; [congruence|]. rewrite IH by done.
    split; [intros [[= -> ->]|[?|[? ?]]]|intros [[-> ->]|[? [[= -> ->]|?]]]]; naive_solver.
Qed.

Lemma remove_index_spec n (e : Evm) k b uid : evm_ok n e -> AssociatedEvmAddress e !! uid = Some (k, b) ->
  AssociatedEvmAddress (remove_uid_from_evm_address_index k uid e) = AssociatedEvmAddress e /\
  forall k', default [] (AssociatedUidsByEvmAddress (remove_uid_from_evm_address_index k uid e) !! k') =
             filter (fun r => r.1 <> uid) (default [] (AssociatedUidsByEvmAddress e !! k')).
Proof.
  intros Hev Ha. destruct (remove_evm_spec n e uid Hev) as [_ Hr]. unfold remove_associated_evm_address in Hr.
  rewrite Ha in Hr. unfold remove_uid_from_evm_address_index in *. simpl in Hr. by destruct (AssociatedUidsByEvmAddress e !! k).
Qed.

(** The entry of [uid] is replaced and every other entry kept. *)
Definition entry_replaced (e e' : Evm) uid k b : Prop :=
  AssociatedEvmAddress e' = <[uid := (k, b)]> (AssociatedEvmAddress e) /\
  (forall k' u c, (u, c) ∈ default [] (AssociatedUidsByEvmAddress e' !! k') <->
    (u = uid /\ k' = k /\ c = b) \/ (u <> uid /\ (u, c) ∈ default [] (AssociatedUidsByEvmAddress e !! k'))) /\
  (forall k', NoDup (default [] (AssociatedUidsByEvmAddress e' !! k')).*1) /\
  (forall k', (length (default [] (AssociatedUidsByEvmAddress e' !! k')) <= MAX_ASSOCIATED_UIDS_PER_EVM_ADDRESS)%nat).

Lemma upsert_fresh (e1 e : Evm) uid k b :
  AssociatedEvmAddress e1 = AssociatedEvmAddress e ->
  (forall k', default [] (AssociatedUidsByEvmAddress e1 !! k') =
              filter (fun r => r.1 <> uid) (default [] (AssociatedUidsByEvmAddress e !! k'))) ->
  (forall k', NoDup (default [] (AssociatedUidsByEvmAddress e !! k')).*1) ->
  (forall k', (length (default [] (AssociatedUidsByEvmAddress e !! k')) <= MAX_ASSOCIATED_UIDS_PER_EVM_ADDRESS)%nat) ->
  (length (default [] (AssociatedUidsByEvmAddress e !! k)) < MAX_ASSOCIATED_UIDS_PER_EVM_ADDRESS)%nat ->
  let e2 := upsert_uid_in_evm_address_index k uid b e1 in
  entry_replaced e (mkEvm (<[uid := (k, b)]> (AssociatedEvmAddress e2)) (AssociatedUidsByEvmAddress e2)) uid k b.
Proof.
  intros Hf Hr Hnd Hcap Hlt. simpl. rewrite Hr.
  set (old := default [] (AssociatedUidsByEvmAddress e !! k)) in *. set (kept := filter _ old).
  assert (Hni : uid ∉ kept.*1).
  { intros ([u c] & -> & Hin)%list_elem_of_fmap. apply list_elem_of_filter in Hin as [? _]. done. }
  assert (Hlen : (length kept <= length old)%nat) by apply length_filter.
  assert (Hsub : forall k', NoDup (filter (fun r => r.1 <> uid) (default [] (AssociatedUidsByEvmAddress e !! k'))).*1).
  { intros k'. eapply sublist_NoDup; [apply (Hnd k')|apply (fmap_sublist fst), sublist_filter]. }
  rewrite decide_False by done. rewrite (proj2 (Nat.ltb_lt _ _)) by lia.
  split_and!; [by rewrite Hf|..]; intros k'; simpl; rewrite lookup_insert; destruct (decide (k = k')) as [<-|Hne]; simpl.
  - intros u c. rewrite elem_of_app, list_elem_of_singleton. unfold kept. rewrite list_elem_of_filter. simpl. naive_solver.
  - intros u c. rewrite Hr, list_elem_of_filter. simpl. naive_solver.
  - rewrite fmap_app. apply NoDup_app. split_and!; [apply (Hsub k)| |apply NoDup_singleton]. set_solver.
  - rewrite Hr. apply Hsub.
  - rewrite length_app. simpl. lia.
  - rewrite Hr. etrans; [apply length_filter|apply Hcap].
Qed.

Lemma set_associated_spec n (e : Evm) uid k b : evm_ok n e ->
  (uid ∈ (default [] (AssociatedUidsByEvmAddress e !! k)).*1 \/
   (length (default [] (AssociatedUidsByEvmAddress e !! k)) < MAX_ASSOCIATED_UIDS_PER_EVM_ADDRESS)%nat) ->
  entry_replaced e (set_associated_evm_address uid k b e) uid k b.
Proof.
  intros Hev Hroom. pose proof Hev as [Hb Hinv Hnd Hcap].
  assert (Htracked : uid ∈ (default [] (AssociatedUidsByEvmAddress e !! k)).*1 ->
    exists c, AssociatedEvmAddress e !! uid = Some (k, c)).
  { intros ([u c] & -> & Hin)%list_elem_of_fmap. exists c. by apply Hinv. }
  unfold set_associated_evm_address. destruct (AssociatedEvmAddress e !! uid) as [[k0 b0]|] eqn:E; [case_decide as Hne|].
  - destruct (remove_index_spec n e k0 b0 uid Hev E) as [Hf Hr].
    apply upsert_fresh; try done. destruct Hroom as [[c Hc]%Htracked|]; [congruence|done].
  - subst k0. apply Hinv in E as Hin.
    assert (Hu : uid ∈ (default [] (AssociatedUidsByEvmAddress e !! k)).*1) by (apply list_elem_of_fmap; by exists (uid, b0)).
    unfold upsert_uid_in_evm_address_index. rewrite decide_True by done.
    split_and!; [done|..]; intros k'; simpl; rewrite lookup_insert; destruct (decide (k = k')) as [<-|Hk]; simpl; try done.
    + intros u c. rewrite refresh_elem by done. naive_solver.
    + intros u c. split; [|naive_solver]. intros Hx. right. split; [|done]. intros ->. apply Hinv in Hx. congruence.
    + by rewrite refresh_fst.
    + rewrite <- (length_fmap fst), refresh_fst, length_fmap. done.
  - apply upsert_fresh; try done; [|by destruct Hroom as [[c Hc]%Htracked|]].
    intros k'. symmetry. apply filter_other. intros c Hin. apply Hinv in Hin. congruence.
Qed.

Lemma set_associated_ok n (e : Evm) uid k b : evm_ok n e -> (uid < n)%nat ->
  (uid ∈ (default [] (AssociatedUidsByEvmAddress e !! k)).*1 \/
   (length (default [] (AssociatedUidsByEvmAddress e !! k)) < MAX_ASSOCIATED_UIDS_PER_EVM_ADDRESS)%nat) ->
  evm_ok n (set_associated_evm_address uid k b e).
Proof.
  intros Hev Hlt Hroom. destruct (set_associated_spec n e uid k b Hev Hroom) as (Hf & Hr & Hnd & Hcap).
  destruct Hev as [Hb Hinv _ _]. split; [| |done|done].
  - intros u a. rewrite Hf. intros [[<- _]|[_ Hu]]%lookup_insert_Some; [done|by eapply Hb].
  - intros u k' c. rewrite Hf, Hr, lookup_insert_Some, <- Hinv. naive_solver.
Qed.

(** An EVM key is associated only with a registered, owned hotkey,
    after the rate limit, and only with the address of the key that signed this
    hotkey and block number.  Then exactly the entry of the hotkey's uid changes,
    in both maps, which keep agreeing and within their bounds: the push onto a
    full bucket that the code only logs never happens.  A refused call changes
    nothing. *)
Theorem association_rules hotkey evm_key block_number signature (s : State) :
  neurons_ok env s ->
  match do_associate_evm_key hotkey evm_key block_number signature s with
  | (Ok _, s') =>
      neurons_ok env s' /\ slots s' = slots s /\
      exists uid public uncompressed,
        Uids (slots s) !! hotkey = Some uid /\ default DefaultAccount (Owner env !! hotkey) <> DefaultAccount /\
        recover_prehashed crypto (normalize_v signature)
          (hash_message_eip191 (signed_message hotkey block_number)) = Some public /\
        parse_compressed crypto public = Some uncompressed /\ address_of uncompressed = evm_key /\
        EvmKeyAssociateRateLimit <=
          saturating_sub (get_current_block_as_u64 env) (default 0 (snd <$> AssociatedEvmAddress (evm s) !! uid)) /\
        entry_replaced (evm s) (evm s') uid evm_key (get_current_block_as_u64 env)
  | (Err _, s') => s' = s
  end.
Proof.
  intros Hok. destruct (do_associate_evm_key _ _ _ _ _) as [[[]|e] s'] eqn:Hrun.
  2: { by apply transactional_err in Hrun. }
  unfold do_associate_evm_key, ensure_evm_address_index_capacity, ensure_evm_key_associate_rate_limit,
    get_uid_for_net_and_hotkey in Hrun. minv.
  rename select ((match Uids (slots s) !! hotkey with Some _ => _ | None => _ end, _) = _) into Hu.
  destruct (Uids (slots s) !! hotkey) as [uid|] eqn:Euid; [|done]. injection Hu as <- <-.
  apply (slots_inverse _ (ok_slots _ _ Hok)) in Euid as Hkey.
  assert (Hlt : (uid < SubnetworkN (slots s))%nat) by (apply (slots_dense _ (ok_slots _ _ Hok)); eauto).
  match goal with Hr : (if ?c then fail _ else _) _ = _ |- _ =>
    rename Hr into Hrate; destruct c eqn:Elimit; [done|] end. injection Hrate as _ <-. bool_to_prop. subst evm_key.
  set (k := address_of _) in *.
  assert (Hroom : uid ∈ (default [] (AssociatedUidsByEvmAddress (evm s) !! k)).*1 \/
    (length (default [] (AssociatedUidsByEvmAddress (evm s) !! k)) < MAX_ASSOCIATED_UIDS_PER_EVM_ADDRESS)%nat).
  { rename select ((_ || _) = true) into Hr. apply orb_true_iff in Hr as [Hr%bool_decide_eq_true|Hr%Nat.ltb_lt]; auto. }
  split; [|split; [done|]].
  - pose proof (set_associated_ok _ _ _ _ (get_current_block_as_u64 env) (ok_evm _ _ Hok) Hlt Hroom) as Hev.
    destruct Hok as [Hs Hv Hi _ Hm]. by split.
  - eexists uid, _, _. split_and!; [done|done|done|done|done| |].
    + destruct (AssociatedEvmAddress (evm s) !! uid) as [[]|]; simpl; lia.
    + by apply (set_associated_spec _ _ _ _ _ (ok_evm _ _ Hok)).
Qed.

Lemma by_block_total a b : by_block a b = true \/ by_block b a = true.
Proof. unfold by_block. rewrite !Z.leb_le. lia. Qed.
Lemma by_block_trans a b c : by_block a b = true -> by_block b c = true -> by_block a c = true.
Proof. unfold by_block. rewrite !Z.leb_le. lia. Qed.

Lemma StronglySorted_take {A} (R : A -> A -> Prop) n l : StronglySorted R l -> StronglySorted R (take n l).
Proof.
  intros Hs. revert n. induction Hs as [|x l Hs IH Hx]; intros [|n]; simpl; try constructor; [done|].
  by apply Forall_take.
Qed.

(** Looking up an address returns neurons associated with it, each
    once and the oldest associations first; with a limit of at least a bucket's
    bound, 32, it returns all of them. *)
Theorem lookup_exact (s : State) evm_key limit :
  neurons_ok env s ->
  let found := uid_lookup s evm_key limit in
  NoDup found.*1 /\ (length found <= limit)%nat /\ StronglySorted (fun a b => a.2 <= b.2) found /\
  (forall uid b, (uid, b) ∈ found -> AssociatedEvmAddress (evm s) !! uid = Some (evm_key, b)) /\
  ((MAX_ASSOCIATED_UIDS_PER_EVM_ADDRESS <= limit)%nat -> forall uid b,
    AssociatedEvmAddress (evm s) !! uid = Some (evm_key, b) -> (uid, b) ∈ found).
Proof.
  intros Hok. destruct (ok_evm _ _ Hok) as [_ Hinv Hnd Hcap]. unfold uid_lookup.
  set (bucket := default [] _). assert (Hp : sort_by by_block bucket ≡ₚ bucket) by apply sort_by_perm. simpl. split_and!.
  - eapply sublist_NoDup; [|apply (fmap_sublist fst), sublist_take]. rewrite Hp. apply Hnd.
  - rewrite length_take. lia.
  - apply StronglySorted_take. pose proof (sort_by_StronglySorted by_block by_block_total by_block_trans bucket) as Hs.
    clear Hp. induction Hs as [|x l Hs IH Hx]; [constructor|]. constructor; [done|].
    eapply Forall_impl; [exact Hx|]. intros y Hy. by apply Z.leb_le.
  - intros uid b Hin%(subseteq_take limit). rewrite Hp in Hin. by apply Hinv.
  - intros Hlim uid b Hu%Hinv. rewrite take_ge by (rewrite Hp; etrans; [apply Hcap|done]). by rewrite Hp.
Qed.
End evm.

(** ** A concrete association *)

(** The first neuron of the subnet of NeuronsSafety.v; a signature of 65 bytes is
    accepted and its key has address 77. *)
Module Associating.
Import NeuronsSafety.Example.

Definition crypto : Crypto (AccountId := nat) (H160 := nat) :=
  mkCrypto _ _ (fun m => replicate 32 (Z.of_nat (length m))) (fun a => [Z.of_nat a])
    (fun signature _ => if bool_decide (length signature = 65%nat) then Some [1] else None) Some (fun _ => 77%nat).

Lemma association_rules_witness :
  let '(r, s') := do_associate_evm_key env crypto 0%nat 40 11%nat 77%nat 99 (replicate 65 0) full in
  r = Ok tt /\ neurons_ok env s' /\ uid_lookup s' 77%nat 5 = [(0%nat, 100)].
Proof.
  pose proof (association_rules env crypto 0%nat 40 11%nat 77%nat 99 (replicate 65 0) full full_ok) as Ha.
  set (run := do_associate_evm_key _ _ _ _ _ _ _ _ _) in *.
  assert (Hrun : run = (Ok tt, run.2)) by (refine (ok_run run _); vm_compute; reflexivity).
  rewrite Hrun in Ha |- *. destruct Ha as (Hok & _). split; [done|]. split; [done|]. vm_compute. reflexivity.
Defined.

Definition associated := set_evm (set_associated_evm_address 0 77%nat 100 (evm full)) full.

Lemma associated_ok : neurons_ok env associated.
Proof.
  assert (Hev : evm_ok 2 (set_associated_evm_address 0 77%nat 100 (evm full))).
  { apply set_associated_ok; [apply (ok_evm _ _ full_ok)|lia|right; vm_compute; lia]. }
  destruct full_ok. by split.
Qed.

Lemma lookup_exact_witness :
  uid_lookup associated 77%nat 32 = [(0%nat, 100)] /\ (0%nat, 100) ∈ uid_lookup associated 77%nat 32.
Proof.
  split; [vm_compute; reflexivity|].
  apply (lookup_exact env associated 77%nat 32 associated_ok); [unfold MAX_ASSOCIATED_UIDS_PER_EVM_ADDRESS; lia|].
  vm_compute. reflexivity.
Defined.
End Associating.
