(* ===== verification/EpochMath.v ===== *)
(** * EpochMath: vectors and matrices of the epoch

    Models src/pallets/subtensor/src/epoch/math.rs function by function.  A number
    of the type I32F32 is the integer of its bits: 2^32 stands for one, and the
    range is that of a signed 64-bit integer.  I64F64 is likewise an integer of 128
    bits with 64 fractional ones.  Addition, subtraction and conversions saturate
    at these bounds.  The other operations belong to the crate substrate_fixed and
    are fields of [FixedLib], with what its documentation says of them in
    [FixedLaws].  A matrix is the list of its rows; a sparse row lists pairs of a
    column and a value.  Functions that change their argument in place return it.
    EpochMathSpec.v and EpochMedian.v have the theorems. *)

From Stdlib Require Import ZArith Lia.
From stdpp Require Import base list.
From S2P Require Import Prelude.

Definition ONE : Z := 2 ^ 32.
Definition FIXED_MIN : Z := - 2 ^ 63.
Definition FIXED_MAX : Z := 2 ^ 63 - 1.
Definition FIXED64_MIN : Z := - 2 ^ 127.
Definition FIXED64_MAX : Z := 2 ^ 127 - 1.

Definition clamp (lo hi x : Z) : Z := Z.max lo (Z.min hi x).
Definition is_fixed (x : Z) : Prop := FIXED_MIN <= x <= FIXED_MAX.

(** [saturating_add], [saturating_sub] and [saturating_from_num] of an integer. *)
Definition fadd (a b : Z) : Z := clamp FIXED_MIN FIXED_MAX (a + b).
Definition fsub (a b : Z) : Z := clamp FIXED_MIN FIXED_MAX (a - b).
Definition from_num (n : Z) : Z := clamp FIXED_MIN FIXED_MAX (n * ONE).

(** What substrate_fixed provides. *)
Record FixedLib : Type := mkFixedLib {
  fmul : Z -> Z -> Z;                     (** [saturating_mul] *)
  checked_fmul : Z -> Z -> option Z;      (** [checked_mul] *)
  checked_fdiv : Z -> Z -> option Z;      (** [checked_div] *)
  fsum : list Z -> Z;                     (** [iter().sum()] *)
  fround : Z -> Z;                        (** [round] *)
  fexp : Z -> option Z;                   (** [transcendental::exp] *)
  fln : Z -> option Z;                    (** [transcendental::ln] *)
  fixed64_narrow : Z -> Z;                (** I64F64 to I32F32, saturating *)
  checked_fdiv64 : Z -> Z -> option Z;
  fsum64 : list Z -> Z;
}.

(** The documented behaviour on the numbers that the epoch works with, which are
    not negative: results are exact and then cut to the last bit, products
    saturate, quotients that do not fit or divide by zero are [None]. *)
Class FixedLaws (lib : FixedLib) : Prop := {
  fmul_comm a b : fmul lib a b = fmul lib b a;
  fmul_zero a : fmul lib a 0 = 0;
  fmul_range a b : is_fixed a -> is_fixed b -> is_fixed (fmul lib a b);
  fmul_nonneg a b : 0 <= a <= FIXED_MAX -> 0 <= b <= FIXED_MAX ->
    fmul lib a b = Z.min FIXED_MAX (a * b / ONE);
  checked_fmul_nonneg a b : 0 <= a <= FIXED_MAX -> 0 <= b <= FIXED_MAX ->
    checked_fmul lib a b = if a * b / ONE <=? FIXED_MAX then Some (a * b / ONE) else None;
  checked_fdiv_zero a : checked_fdiv lib a 0 = None;
  checked_fdiv_nonneg a b : 0 <= a <= FIXED_MAX -> 0 < b <= FIXED_MAX ->
    checked_fdiv lib a b = if a * ONE / b <=? FIXED_MAX then Some (a * ONE / b) else None;
  fsum_nonneg l : Forall (fun x => 0 <= x) l -> foldr Z.add 0 l <= FIXED_MAX -> fsum lib l = foldr Z.add 0 l;
  fround_nonneg x : 0 <= x <= FIXED_MAX - ONE -> fround lib x = (x + ONE / 2) / ONE * ONE;
}.

(** Loops over a vector that advance an iterator over another one. *)
Fixpoint zip_into (f : Z -> Z -> Z) (acc row : list Z) : list Z :=
  match acc, row with
  | a :: acc, v :: row => f a v :: zip_into f acc row
  | acc, _ => acc
  end.

Section rows.
Context {A B : Type}.

(** [for row in matrix] with [vec_it.next().unwrap_or(d)]. *)
Fixpoint with_next (f : B -> A -> A) (d : B) (rows : list A) (vector : list B) : list A :=
  match rows with
  | [] => []
  | row :: rows =>
      match vector with
      | [] => f d row :: with_next f d rows []
      | v :: vector => f v row :: with_next f d rows vector
      end
  end.

(** The same with [let Some(v) = vec_it.next() else { break }]. *)
Fixpoint while_next {C} (f : B -> A -> C) (rows : list A) (vector : list B) : list C :=
  match rows, vector with
  | row :: rows, v :: vector => f v row :: while_next f rows vector
  | _, _ => []
  end.

Fixpoint fold_next {C} (f : C -> B -> A -> C) (d : B) (acc : C) (rows : list A) (vector : list B) : C :=
  match rows with
  | [] => acc
  | row :: rows =>
      match vector with
      | [] => fold_next f d (f acc d row) rows []
      | v :: vector => fold_next f d (f acc v row) rows vector
      end
  end.
End rows.

Definition maximum (l : list Z) : option Z :=
  match l with
  | [] => None
  | x :: l => Some (foldl Z.max x l)
  end.

Abbreviation Vector := (list Z).
Abbreviation Matrix := (list (list Z)).
Abbreviation SparseRow := (list (nat * Z)).
Abbreviation SparseMatrix := (list (list (nat * Z))).

Definition get_safe (slice : Vector) (idx : nat) : Z := default 0 (slice !! idx).

Section math.
Context (lib : FixedLib).

(** [safe_div] of the crate safe-math. *)
Definition safe_div (a b : Z) : Z := default 0 (checked_fdiv lib a b).
Definition safe_div64 (a b : Z) : Z := default 0 (checked_fdiv64 lib a b).

(** ** Conversions *)

Definition fixed_to_u16 (x : Z) : Z := clamp 0 u16_max (x / ONE).
Definition fixed_to_u64 (x : Z) : Z := clamp 0 u64_max (x / ONE).
Definition fixed64_to_u64 (x : Z) : Z := clamp 0 u64_max (x / 2 ^ 64).
Definition fixed64_to_fixed32 (x : Z) : Z := fixed64_narrow lib x.
Definition fixed32_to_fixed64 (x : Z) : Z := clamp FIXED64_MIN FIXED64_MAX (x * 2 ^ 32).
Definition u16_to_fixed (x : Z) : Z := from_num x.
Definition u16_proportion_to_fixed (x : Z) : Z := safe_div (from_num x) (from_num u16_max).
Definition fixed_to_fixed_u16_proportion (x : Z) : Z := safe_div x (from_num u16_max).
Definition fixed_proportion_to_u16 (x : Z) : Z := fixed_to_u16 (fmul lib x (from_num u16_max)).
Definition vec_fixed32_to_u64 (vec : Vector) : Vector := fixed_to_u64 <$> vec.
Definition vec_fixed64_to_fixed32 (vec : Vector) : Vector := fixed64_to_fixed32 <$> vec.
Definition vec_fixed32_to_fixed64 (vec : Vector) : Vector := fixed32_to_fixed64 <$> vec.
Definition vec_fixed64_to_u64 (vec : Vector) : Vector := fixed64_to_u64 <$> vec.
Definition vec_fixed_proportions_to_u16 (vec : Vector) : Vector := fixed_proportion_to_u16 <$> vec.

Definition sum (x : Vector) : Z := fsum lib x.

Definition vec_max_upscale_to_u16 (vec : Vector) : Vector :=
  let u16_max := from_num u16_max in
  let threshold := from_num 32768 in
  match maximum vec with
  | Some val =>
      if val =? from_num 0 then (fun e => fixed_to_u16 (fmul lib e u16_max)) <$> vec
      else if threshold <? val then
        (fun e => fixed_to_u16 (fround lib (fmul lib e (safe_div u16_max val)))) <$> vec
      else (fun e => fixed_to_u16 (fround lib (safe_div (fmul lib e u16_max) val))) <$> vec
  | None =>
      let sum := fsum lib vec in
      (fun e => fixed_to_u16 (safe_div (fmul lib e u16_max) sum)) <$> vec
  end.

Definition vec_u16_max_upscale_to_u16 (vec : Vector) : Vector :=
  vec_max_upscale_to_u16 (from_num <$> vec).

(** [checked_add] of the summed type is an argument. *)
Definition checked_sum (add : Z -> Z -> option Z) (x : Vector) : option Z :=
  match x with
  | [] => Some 0
  | first :: rest =>
      foldl (fun sum i => match sum with Some s => add s i | None => None end) (Some first) rest
  end.

Definition is_zero (vector : Vector) : bool := sum vector =? from_num 0.

Definition exp_safe (input : Z) : Z :=
  let min_input := from_num (-20) in
  let max_input := from_num 20 in
  let safe_input := if input <? min_input then min_input
                    else if max_input <? input then max_input else input in
  match fexp lib safe_input with
  | Some val => val
  | None => if safe_input <=? 0 then from_num 0 else FIXED_MAX
  end.

Definition sigmoid_safe (input rho kappa : Z) : Z :=
  let one := from_num 1 in
  let offset := fsub input kappa in
  let neg_rho := fmul lib rho (clamp FIXED_MIN FIXED_MAX (- one)) in
  let exp_input := fmul lib neg_rho offset in
  let exp_output := exp_safe exp_input in
  let denominator := fadd exp_output one in
  safe_div one denominator.

(** ** Selection *)

Definition by_value (vector : Vector) (a b : nat) : bool := get_safe vector a <=? get_safe vector b.

(** The loop that clears the [count] smallest. *)
Definition clear_smallest (vector : Vector) (count : nat) (result : list bool) : list bool :=
  let idxs := sort_by (by_value vector) (seq 0 (length vector)) in
  foldl (fun result idx => alter (fun _ => false) idx result) result (take count idxs).

Definition is_topk (vector : Vector) (k : nat) : list bool :=
  let n := length vector in
  let result := replicate n true in
  if (n <? k)%nat then result else clear_smallest vector (n - k) result.

Definition is_topk_nonzero (vector : Vector) (k : nat) : list bool :=
  let n := length vector in
  let result := (fun elem => negb (elem =? 0)) <$> vector in
  if (n <? k)%nat then result else clear_smallest vector (n - k) result.

(** ** Normalisation *)

Definition normalize (x : Vector) : Vector :=
  let x_sum := sum x in
  if negb (x_sum =? 0) then (fun xi => safe_div xi x_sum) <$> x else x.

Definition inplace_normalize_using_sum (x : Vector) (x_sum : Z) : Vector :=
  if x_sum =? 0 then x else (fun value => safe_div value x_sum) <$> x.

Definition inplace_normalize (x : Vector) : Vector :=
  let x_sum := fsum lib x in
  if x_sum =? 0 then x else (fun value => safe_div value x_sum) <$> x.

Definition inplace_normalize_64 (x : Vector) : Vector :=
  let x_sum := fsum64 lib x in
  if x_sum =? 0 then x else (fun value => safe_div64 value x_sum) <$> x.

Definition inplace_row_normalize_64 (x : Matrix) : Matrix :=
  (fun row =>
    let row_sum := fsum64 lib row in
    if 0 <? row_sum then (fun x_ij => safe_div64 x_ij row_sum) <$> row else row) <$> x.

Definition vecdiv (x y : Vector) : Vector :=
  imap (fun i x_i => safe_div x_i (default 0 (y !! i))) x.

Definition inplace_row_normalize (x : Matrix) : Matrix :=
  (fun row =>
    let row_sum := fsum lib row in
    if 0 <? row_sum then (fun x_ij => safe_div x_ij row_sum) <$> row else row) <$> x.

Definition inplace_row_normalize_sparse (sparse_matrix : SparseMatrix) : SparseMatrix :=
  (fun sparse_row =>
    let row_sum := fsum lib sparse_row.*2 in
    if 0 <? row_sum then (fun e => (e.1, safe_div e.2 row_sum)) <$> sparse_row else sparse_row)
    <$> sparse_matrix.

Definition row_sum (x : Matrix) : Vector :=
  match x with
  | [] :: _ => []
  | _ => fsum lib <$> x
  end.

Definition row_sum_sparse (sparse_matrix : SparseMatrix) : Vector :=
  (fun row => fsum lib row.*2) <$> sparse_matrix.

(** [if denom != zero { *value = value.safe_div(denom) }]. *)
Definition div_unless_zero (value denom : Z) : Z := if denom =? 0 then value else safe_div value denom.

Definition inplace_col_normalize_sparse (sparse_matrix : SparseMatrix) (columns : nat) : SparseMatrix :=
  let col_sum :=
    foldl (foldl (fun col_sum e => alter (fun sum => fadd sum e.2) e.1 col_sum))
      (replicate columns 0) sparse_matrix in
  (fun sparse_row : SparseRow =>
    (fun e => (e.1, div_unless_zero e.2 (default 0 (col_sum !! e.1)))) <$> sparse_row) <$> sparse_matrix.

Definition inplace_col_normalize (x : Matrix) : Matrix :=
  let col_sums :=
    foldl (fun col_sums row =>
        let col_sums := if (length col_sums <? length row)%nat
                        then col_sums ++ replicate (length row - length col_sums) 0 else col_sums in
        zip_into fadd col_sums row)
      [] x in
  if decide (col_sums = []) then x
  else (fun row => zip_into div_unless_zero row col_sums) <$> x.

(** [if *m < *v { *m = *v }]. *)
Definition keep_max (m v : Z) : Z := if m <? v then v else m.

Definition inplace_col_max_upscale_sparse (sparse_matrix : SparseMatrix) (columns : nat) : SparseMatrix :=
  let col_max :=
    foldl (foldl (fun col_max e => alter (fun m => keep_max m e.2) e.1 col_max))
      (replicate columns 0) sparse_matrix in
  (fun sparse_row : SparseRow =>
    (fun e => (e.1, div_unless_zero e.2 (default 0 (col_max !! e.1)))) <$> sparse_row) <$> sparse_matrix.

Definition inplace_col_max_upscale (x : Matrix) : Matrix :=
  let max_cols := foldr Nat.max 0%nat (length <$> x) in
  if (max_cols =? 0)%nat then x
  else
    let col_maxes := foldl (fun col_maxes row => zip_into keep_max col_maxes row) (replicate max_cols 0) x in
    (fun row => zip_into div_unless_zero row col_maxes) <$> x.

(** ** Masks *)

Definition inplace_mask_vector (mask : list bool) (vector : Vector) : Vector :=
  if decide (mask = []) then vector
  else imap (fun i v => if default true (mask !! i) : bool then 0 else v) vector.

Definition inplace_mask_matrix (mask : list (list bool)) (matrix : Matrix) : Matrix :=
  match mask with
  | [] => matrix
  | [] :: _ => matrix
  | _ =>
      imap (fun r row =>
        imap (fun c val =>
          let should_zero := default true (mask_row ← mask !! r; mask_row !! c) in
          if should_zero : bool then 0 else val) row) matrix
  end.

Definition inplace_mask_rows (mask : list bool) (matrix : Matrix) : Matrix :=
  match matrix with
  | [] => matrix
  | first_row :: _ =>
      let cols := length first_row in
      imap (fun r row => if default true (mask !! r) : bool then replicate cols 0 else row) matrix
  end.

Definition inplace_mask_cols (mask : list bool) (matrix : Matrix) : Matrix :=
  imap (fun _ row => imap (fun c elem => if default true (mask !! c) : bool then 0 else elem) row) matrix.

Definition inplace_mask_diag (matrix : Matrix) : Matrix :=
  match matrix with
  | [] => matrix
  | [] :: _ => matrix
  | first_row :: _ =>
      if (length matrix =? length first_row)%nat
      then imap (fun idx row => alter (fun _ => 0) idx row) matrix
      else matrix
  end.

Definition inplace_mask_diag_except_index (matrix : Matrix) (except_index : nat) : Matrix :=
  match matrix with
  | [] => matrix
  | [] :: _ => matrix
  | first_row :: _ =>
      if (length matrix =? length first_row)%nat then
        let diag_at_index := row ← matrix !! except_index; row !! except_index in
        alter (alter (fun value => default value diag_at_index) except_index) except_index
          (inplace_mask_diag matrix)
      else matrix
  end.

Definition scalar_vec_mask_sparse_matrix (sparse_matrix : SparseMatrix) (scalar : Z) (vector : Vector)
    (mask_fn : Z -> Z -> bool) : SparseMatrix :=
  (fun row : SparseRow => filter (fun e => mask_fn scalar (default 0 (vector !! e.1)) = false) row) <$> sparse_matrix.

Definition mask_rows_sparse (mask : list bool) (sparse_matrix : SparseMatrix) : SparseMatrix :=
  imap (fun i sparse_row => if default true (mask !! i) : bool then [] else sparse_row) sparse_matrix.

Definition mask_diag_sparse (sparse_matrix : SparseMatrix) : SparseMatrix :=
  imap (fun i sparse_row => filter (fun e => i <> e.1) sparse_row) sparse_matrix.

Definition mask_diag_sparse_except_index (sparse_matrix : SparseMatrix) (except_index : nat) : SparseMatrix :=
  imap (fun i sparse_row =>
    filter (fun e => i <> e.1 \/ (i = except_index /\ e.1 = except_index)) sparse_row) sparse_matrix.

Definition vec_mask_sparse_matrix (sparse_matrix : SparseMatrix) (first_vector second_vector : Vector)
    (mask_fn : Z -> Z -> bool) : SparseMatrix :=
  with_next (fun fv row => filter (fun e => mask_fn fv (default 0 (second_vector !! e.1)) = false) row)
    0 sparse_matrix first_vector.

(** ** Products *)

Definition row_hadamard (matrix : Matrix) (vector : Vector) : Matrix :=
  match matrix with
  | [] => [[]]
  | [] :: _ => [[]]
  | _ => while_next (fun scale row => (fun m_val => fmul lib scale m_val) <$> row) matrix vector
  end.

Definition row_hadamard_sparse (sparse_matrix : SparseMatrix) (vector : Vector) : SparseMatrix :=
  while_next (fun scale sparse_row => (fun e => (e.1, fmul lib e.2 scale)) <$> sparse_row)
    sparse_matrix vector.

Definition matmul (matrix : Matrix) (vector : Vector) : Vector :=
  match matrix with
  | [] => []
  | first_row :: _ =>
      let cols := length first_row in
      if (cols =? 0)%nat then []
      else fold_next (fun acc scale row => zip_into (fun a m_val => fadd a (fmul lib scale m_val)) acc row)
             0 (replicate cols 0) matrix vector
  end.

(** One row: stops at the shorter of both. *)
Fixpoint dot (sum : Z) (row vector : Vector) : Z :=
  match row, vector with
  | m :: row, v :: vector => dot (fadd sum (fmul lib m v)) row vector
  | _, _ => sum
  end.

Definition matmul_transpose (matrix : Matrix) (vector : Vector) : Vector :=
  match matrix with
  | [] => []
  | [] :: _ => []
  | _ => (fun row => dot 0 row vector) <$> matrix
  end.

Definition matmul_sparse (sparse_matrix : SparseMatrix) (vector : Vector) (columns : nat) : Vector :=
  fold_next (fun result scale row =>
      foldl (fun result e => alter (fun r => fadd r (fmul lib scale e.2)) e.1 result) result row)
    0 (replicate columns 0) sparse_matrix vector.

Definition matmul_transpose_sparse (sparse_matrix : SparseMatrix) (vector : Vector) : Vector :=
  (fun row : SparseRow =>
    foldl (fun acc e => fadd acc (fmul lib (default 0 (vector !! e.1)) e.2)) 0 row) <$> sparse_matrix.

Definition inplace_col_clip (x : Matrix) (col_threshold : Vector) : Matrix :=
  (fun row => zip_into (fun value th => Z.min th value) row col_threshold) <$> x.

Definition clip_entry (col_threshold : Vector) (e : nat * Z) : option (nat * Z) :=
  let th := default 0 (col_threshold !! e.1) in
  if th <? e.2 then (if 0 <? th then Some (e.1, th) else None) else Some e.

Definition col_clip_sparse (sparse_matrix : SparseMatrix) (col_threshold : Vector) : SparseMatrix :=
  (fun row : SparseRow => omap (clip_entry col_threshold) row) <$> sparse_matrix.

Definition vec_mul (a b : Vector) : Vector :=
  while_next (fun y x => default 0 (checked_fmul lib x y)) a b.

Definition mat_vec_mul (matrix : Matrix) (vector : Vector) : Matrix :=
  match matrix with
  | [] => [[]]
  | [] :: _ => [[]]
  | _ => (fun row => vec_mul row vector) <$> matrix
  end.

Definition mat_vec_mul_sparse (matrix : SparseMatrix) (vector : Vector) : SparseMatrix :=
  (fun matrix_row : SparseRow =>
    omap (fun e => match vector !! e.1 with
                   | Some vector_value =>
                       let new_value := fmul lib e.2 vector_value in
                       if new_value =? 0 then None else Some (e.1, new_value)
                   | None => None
                   end) matrix_row) <$> matrix.

Definition clamp_value (value low high : Z) : Z := Z.max (Z.min value high) low.

(** ** Weighted median *)

(** One pass over the partition: the stake below and above the pivot and the
    indices there. *)
Definition split_pass (stake score : Vector) (pivot : Z) (partition : list nat)
    : Z * Z * list nat * list nat :=
  foldl (fun '(lo_stake, hi_stake, lower, upper) idx =>
      if get_safe score idx =? pivot then (lo_stake, hi_stake, lower, upper)
      else if get_safe score idx <? pivot
      then (fadd lo_stake (get_safe stake idx), hi_stake, lower ++ [idx], upper)
      else (lo_stake, fadd hi_stake (get_safe stake idx), lower, upper ++ [idx]))
    (0, 0, [], []) partition.

(** The loop; it is left when the counter exceeds the limit, so that it runs at
    most [S limit] times. *)
Fixpoint median_loop (stake score : Vector) (minority : Z) (fuel : nat) (partition : list nat)
    (partition_lo partition_hi : Z) : Z :=
  match fuel with
  | O => 0
  | S fuel =>
      let n := length partition in
      if (n =? 0)%nat then 0
      else if (n =? 1)%nat then
        match partition with only_idx :: _ => get_safe score only_idx | [] => 0 end
      else
        let mid_idx := (n / 2)%nat in
        let pivot := get_safe score (default 0%nat (partition !! mid_idx)) in
        let '(lo_stake, hi_stake, lower, upper) := split_pass stake score pivot partition in
        if (minority <? fadd partition_lo lo_stake) && negb (length lower =? 0)%nat then
          median_loop stake score minority fuel lower partition_lo (fadd partition_lo lo_stake)
        else if (fsub partition_hi hi_stake <=? minority) && negb (length upper =? 0)%nat then
          median_loop stake score minority fuel upper (fsub partition_hi hi_stake) partition_hi
        else pivot
  end.

Definition weighted_median (stake score : Vector) (partition_idx : list nat) (minority : Z)
    (partition_lo partition_hi : Z) : Z :=
  if negb (length stake =? length score)%nat then 0
  else
    let iteration_limit := length partition_idx in
    median_loop stake score minority (S iteration_limit) partition_idx partition_lo partition_hi.

(** The rows with positive stake, seen in column [c]. *)
Definition used_rows (stake : Vector) (score : Matrix) (columns c : nat) : list (Z * Z) :=
  omap (fun r =>
      let st := get_safe stake r in
      if 0 <? st then
        match score !! r with
        | Some row =>
            if (length row =? columns)%nat then Some (st, default 0 (row !! c)) else Some (0, 0)
        | None => Some (0, 0)
        end
      else None) (seq 0 (length stake)).

Definition weighted_median_col (stake : Vector) (score : Matrix) (majority : Z) : Vector :=
  let columns := match score with [] => 0%nat | r :: _ => length r end in
  (fun c =>
    let used := used_rows stake score columns c in
    let use_score := used.*2 in
    if (length used =? 0)%nat then 0
    else
      let use_stake := inplace_normalize used.*1 in
      let stake_sum := fsum lib use_stake in
      let minority := fsub stake_sum majority in
      weighted_median use_stake use_score (seq 0 (length use_stake)) minority 0 stake_sum)
    <$> seq 0 columns.

(** Walks stake and score together and fills column vectors; [k] counts the rows
    with positive stake. *)
Fixpoint fill_scores (stake : Vector) (score : SparseMatrix) (k : nat) (use_score : Matrix) : Matrix :=
  match stake, score with
  | s :: stake, sparse_row :: score =>
      if 0 <? s then
        fill_scores stake score (S k)
          (foldl (fun use_score e => alter (alter (fun _ => e.2) k) e.1 use_score) use_score sparse_row)
      else fill_scores stake score k use_score
  | _, _ => use_score
  end.

Definition weighted_median_col_sparse (stake : Vector) (score : SparseMatrix) (columns : nat) (majority : Z)
    : Vector :=
  let use_stake := inplace_normalize (filter (fun s => 0 < s) stake) in
  let stake_sum := fsum lib use_stake in
  let minority := fsub stake_sum majority in
  let stake_idx := seq 0 (length use_stake) in
  let use_score := fill_scores stake score 0 (replicate columns (replicate (length use_stake) 0)) in
  (fun col_vec => weighted_median use_stake col_vec stake_idx minority 0 stake_sum) <$> use_score.

(** ** Interpolation and moving averages *)

Definition interp (ratio v1 v2 : Z) : Z := fadd v1 (fmul lib ratio (fsub v2 v1)).

Fixpoint interpolate_row (ratio : Z) (row1 row2 out_row : Vector) : Vector :=
  match row1, row2, out_row with
  | v1 :: row1, v2 :: row2, _ :: out_row => interp ratio v1 v2 :: interpolate_row ratio row1 row2 out_row
  | _, _, _ => out_row
  end.

(** Rows for which [mat2] has none stay zero. *)
Fixpoint interpolate_rows (ratio : Z) (cols : nat) (mat1 mat2 : Matrix) : Matrix :=
  match mat1 with
  | [] => []
  | row1 :: mat1 =>
      match mat2 with
      | row2 :: mat2 =>
          interpolate_row ratio row1 row2 (replicate cols 0) :: interpolate_rows ratio cols mat1 mat2
      | [] => replicate (S (length mat1)) (replicate cols 0)
      end
  end.

Definition interpolate (mat1 mat2 : Matrix) (ratio : Z) : Matrix :=
  if ratio =? 0 then mat1
  else if ratio =? from_num 1 then mat2
  else
    match mat1 with
    | [] => [[]]
    | [] :: _ => [[]]
    | first_row :: _ => interpolate_rows ratio (length first_row) mat1 mat2
    end.

(** [for (j, value) in row { if let Some(entry) = row1.get_mut(j) { *entry = value } }]. *)
Definition densify (columns : nat) (row : SparseRow) : Vector :=
  foldl (fun dense e => alter (fun _ => e.2) e.1 dense) (replicate columns 0) row.

(** The entries above zero, with their columns. *)
Definition positives (row : Vector) : SparseRow := filter (fun e => 0 < e.2) (indexed row).

Definition interpolate_sparse (mat1 mat2 : SparseMatrix) (columns : nat) (ratio : Z) : SparseMatrix :=
  if ratio =? 0 then mat1
  else if ratio =? from_num 1 then mat2
  else if negb (length mat1 =? length mat2)%nat then mat2
  else
    (fun i =>
      let row1 := densify columns (default [] (mat1 !! i)) in
      let row2 := densify columns (default [] (mat2 !! i)) in
      positives ((fun j => interp ratio (default 0 (row1 !! j)) (default 0 (row2 !! j))) <$> seq 0 columns))
      <$> seq 0 (length mat1).

Definition mat_ema (new old : Matrix) (alpha : Z) : Matrix :=
  match new with
  | [] => [[]]
  | [] :: _ => [[]]
  | _ =>
      let one_minus_alpha := fsub (from_num 1) alpha in
      while_next (fun old_row new_row =>
          while_next (fun o n => fadd (fmul lib alpha n) (fmul lib one_minus_alpha o)) new_row old_row)
        new old
  end.

Definition add_scaled (scale : Z) (acc_row : Vector) (row : SparseRow) : Vector :=
  foldl (fun acc_row e => alter (fun cell => fadd cell (fmul lib scale e.2)) e.1 acc_row) acc_row row.

Definition mat_ema_sparse (new old : SparseMatrix) (alpha : Z) : SparseMatrix :=
  let one_minus_alpha := fsub (from_num 1) alpha in
  let n := length new in
  with_next (fun orow new_row =>
      let acc_row := add_scaled alpha (replicate n 0) new_row in
      let acc_row := add_scaled one_minus_alpha acc_row orow in
      positives acc_row)
    [] new old.

(** A decayed value and its increment, cut to one. *)
Definition ema_entry (decayed a n : Z) : Z :=
  let inc := Z.max (fmul lib a n) 0 in
  Z.min (fadd decayed inc) (from_num 1).

Definition decayed_row (alpha_row : Vector) (old_row : SparseRow) : Vector :=
  foldl (fun decayed e =>
      match alpha_row !! e.1 with
      | Some a => alter (fun _ => fmul lib (fsub (from_num 1) a) e.2) e.1 decayed
      | None => decayed
      end) (replicate (length alpha_row) 0) old_row.

Definition ema_alpha_row (alpha_row : Vector) (old_row new_row : SparseRow) : SparseRow :=
  let decayed_values := decayed_row alpha_row old_row in
  omap (fun e =>
      match alpha_row !! e.1, decayed_values !! e.1 with
      | Some a, Some decayed =>
          let val := ema_entry decayed a e.2 in
          if 0 <? val then Some (e.1, val) else None
      | _, _ => None
      end) new_row.

Definition mat_ema_alpha_sparse (new old : SparseMatrix) (alpha : Matrix) : SparseMatrix :=
  if negb (length new =? length old)%nat || negb (length new =? length alpha)%nat then new
  else while_next (fun '(old_row, alpha_row) new_row => ema_alpha_row alpha_row old_row new_row)
         new (zip old alpha).

(** Each element of a row, until one of the three rows ends. *)
Fixpoint ema_alpha_dense_row (nrow orow arow : Vector) : Vector :=
  match nrow, orow, arow with
  | n :: nrow, o :: orow, a :: arow =>
      ema_entry (fmul lib (fsub (from_num 1) a) o) a n :: ema_alpha_dense_row nrow orow arow
  | _, _, _ => []
  end.

(** Whether the rows of the three matrices match in length. *)
Fixpoint same_shape (new old alpha : Matrix) : bool :=
  match new with
  | [] => true
  | nrow :: new =>
      match old, alpha with
      | orow :: old, arow :: alpha =>
          (length nrow =? length orow)%nat && (length nrow =? length arow)%nat && same_shape new old alpha
      | _, _ => false
      end
  end.

Definition mat_ema_alpha (new old alpha : Matrix) : Matrix :=
  match new with
  | [] => [[]]
  | [] :: _ => [[]]
  | _ =>
      if negb (length new =? length old)%nat || negb (length new =? length alpha)%nat then old
      else if negb (same_shape new old alpha) then new
      else while_next (fun '(orow, arow) nrow => ema_alpha_dense_row nrow orow arow) new (zip old alpha)
  end.

Definition safe_ln (value : Z) : Z := default 0 (fln lib value).

Definition check_vec_max_limited (vec : Vector) (max_limit : Z) : bool :=
  let max_limit_fixed := safe_div (from_num max_limit) (from_num u16_max) in
  let vec_fixed := inplace_normalize (from_num <$> vec) in
  match maximum vec_fixed with
  | Some v => v <=? max_limit_fixed
  | None => true
  end.
End math.
