(* ===== verification/EpochMathSpec.v ===== *)
(** * EpochMathSpec: selection, normalisation and scaling

    Properties of single vectors of EpochMath.v: which entries [is_topk] selects,
    that normalised vectors add up to one but for the cut bits, and that the
    largest entry is scaled to exactly the largest 16-bit number. *)

From Stdlib Require Import ZArith Lia Sorting.Sorted.
From stdpp Require Import base list sets.
From S2P Require Import Prelude EpochMath.

(** A library that meets [FixedLaws]: exact results, cut towards minus infinity in
    products and towards zero in quotients. *)
Module Exact.
Definition in_range (x : Z) : option Z := if (FIXED_MIN <=? x) && (x <=? FIXED_MAX) then Some x else None.

Definition lib : FixedLib := {|
  fmul a b := clamp FIXED_MIN FIXED_MAX (a * b / ONE);
  checked_fmul a b := in_range (a * b / ONE);
  checked_fdiv a b := if b =? 0 then None else in_range (Z.quot (a * ONE) b);
  fsum := foldr Z.add 0;
  fround x := (x + ONE / 2) / ONE * ONE;
  fexp _ := None;
  fln _ := None;
  fixed64_narrow x := clamp FIXED_MIN FIXED_MAX (x / 2 ^ 32);
  checked_fdiv64 a b := if b =? 0 then None else Some (Z.quot (a * 2 ^ 64) b);
  fsum64 := foldr Z.add 0;
|}.

#[global] Instance laws : FixedLaws lib.
Proof.
  assert (forall x, 0 <= x -> in_range x = if x <=? FIXED_MAX then Some x else None) as Hr.
  { intros x Hx. unfold in_range. replace (FIXED_MIN <=? x) with true by (unfold FIXED_MIN; lia). done. }
  split; simpl.
  - intros a b. by rewrite (Z.mul_comm a b).
  - intros a. by rewrite Z.mul_0_r.
  - intros a b _ _. unfold is_fixed, clamp, FIXED_MIN, FIXED_MAX. lia.
  - intros a b Ha Hb. pose proof (Z.div_pos (a * b) ONE ltac:(nia) ltac:(done)).
    unfold clamp, FIXED_MIN. lia.
  - intros a b Ha Hb. apply Hr. apply Z.div_pos; [nia|done].
  - done.
  - intros a b Ha Hb. replace (b =? 0) with false by lia.
    rewrite Z.quot_div_nonneg by (unfold ONE; lia). apply Hr. apply Z.div_pos; [unfold ONE; lia|lia].
  - done.
  - done.
Qed.
End Exact.

(** ** The largest entries *)

(** Ascending by value, entries of one value by position. *)
Definition before (vector : Vector) (i j : nat) : Prop :=
  get_safe vector i < get_safe vector j \/ (get_safe vector i = get_safe vector j /\ (i < j)%nat).

Lemma insert_before vector i l :
  (forall j, j ∈ l -> (i < j)%nat) -> StronglySorted (before vector) l ->
  StronglySorted (before vector) (insert_sorted (by_value vector) i l).
Proof.
  intros Hi. induction 1 as [|j l Hs IH Hj]; simpl; [by repeat constructor|].
  assert (forall k, k ∈ l -> (i < k)%nat) as Hl by set_solver.
  assert (i < j)%nat by (apply Hi; set_solver).
  rewrite list.Forall_forall in Hj. unfold by_value at 1. destruct (Z.leb_spec (get_safe vector i) (get_safe vector j)) as [E|E].
  - constructor; [constructor; [done|by apply list.Forall_forall]|].
    apply list.Forall_forall. intros k Hk. specialize (Hi k Hk).
    apply elem_of_cons in Hk as [->|Hk]; [unfold before; lia|].
    specialize (Hj k Hk). unfold before in *. lia.
  - constructor; [auto|]. rewrite insert_sorted_perm. apply list.Forall_forall.
    intros k [->|Hk]%elem_of_cons; [unfold before; lia|auto].
Qed.

(** The sort is stable. *)
Lemma sort_seq_before vector a n : StronglySorted (before vector) (sort_by (by_value vector) (seq a n)).
Proof.
  revert a. induction n as [|n IH]; intros a; [constructor|]. simpl. apply insert_before; [|done].
  intros j Hj. rewrite sort_by_perm in Hj. apply elem_of_seq in Hj. lia.
Qed.

Lemma foldl_clear (result : list bool) (ixs : list nat) i :
  foldl (fun result idx => alter (fun _ => false) idx result) result ixs !! i =
  (fun b : bool => b && bool_decide (i ∉ ixs)) <$> result !! i.
Proof.
  revert result. induction ixs as [|j ixs IH]; intros result.
  { cbn [foldl]. rewrite bool_decide_true by apply not_elem_of_nil. destruct (result !! i) as [[]|]; done. }
  cbn [foldl]. rewrite IH. destruct (decide (i = j)) as [->|Hne].
  - rewrite list_lookup_alter_eq. destruct (result !! j); simpl; [|done].
    by rewrite (bool_decide_false (j ∉ j :: ixs)) by set_solver; rewrite andb_false_r.
  - rewrite list_lookup_alter_ne by done. destruct (result !! i); simpl; [|done].
    do 2 f_equal. apply bool_decide_ext. set_solver.
Qed.

(** The entries that [clear_smallest] clears. *)
Definition smallest (vector : Vector) (count : nat) : list nat :=
  take count (sort_by (by_value vector) (seq 0 (length vector))).

Lemma clear_smallest_lookup vector count result i :
  clear_smallest vector count result !! i =
  (fun b : bool => b && bool_decide (i ∉ smallest vector count)) <$> result !! i.
Proof. apply foldl_clear. Qed.

Lemma smallest_before vector count i j :
  (i < length vector)%nat -> i ∉ smallest vector count -> j ∈ smallest vector count -> before vector j i.
Proof.
  intros Hi Hni Hj. pose proof (sort_seq_before vector 0 (length vector)) as Hs.
  rewrite <- (take_drop count (sort_by _ _)) in Hs. eapply StronglySorted_app_le; [done|done|].
  assert (i ∈ sort_by (by_value vector) (seq 0 (length vector))) as Hin
    by (rewrite sort_by_perm; apply elem_of_seq; lia).
  rewrite <- (take_drop count (sort_by _ _)) in Hin. apply elem_of_app in Hin as [?|?]; done.
Qed.

Lemma filter_not_take (l : list nat) (count : nat) :
  NoDup l -> filter (fun i => i ∉ take count l) l = drop count l.
Proof.
  intros Hnd. transitivity (filter (fun i => i ∉ take count l) (take count l ++ drop count l)); [by rewrite take_drop|].
  rewrite <- (take_drop count l) in Hnd. apply NoDup_app in Hnd as (_ & Hd & _).
  rewrite filter_app, filter_none, filter_all; [done|set_solver|]. intros i Hi Hni. by apply Hni.
Qed.

Lemma length_not_smallest vector count :
  (count <= length vector)%nat ->
  length (filter (fun i => i ∉ smallest vector count) (seq 0 (length vector))) = (length vector - count)%nat.
Proof.
  intros Hc. pose proof (sort_by_perm (by_value vector) (seq 0 (length vector))) as Hp.
  unfold smallest. set (l := sort_by (by_value vector) (seq 0 (length vector))) in *. clearbody l.
  assert (length l = length vector) as Hlen by (rewrite Hp; apply length_seq).
  transitivity (length (filter (fun i => i ∉ take count l) l)); [by rewrite Hp|].
  rewrite filter_not_take, length_drop by (rewrite Hp; apply NoDup_seq). lia.
Qed.

Lemma is_topk_lookup vector k i :
  is_topk vector k !! i =
  if decide (i < length vector)%nat then Some (bool_decide (i ∉ smallest vector (length vector - k))) else None.
Proof.
  assert ((if decide (i < length vector)%nat then Some (bool_decide (i ∉ smallest vector (length vector - k))) else None) =
    (fun b : bool => b && bool_decide (i ∉ smallest vector (length vector - k))) <$> replicate (length vector) true !! i) as ->.
  { case_decide; [by rewrite lookup_replicate_2|]. by rewrite lookup_ge_None_2 by (rewrite length_replicate; lia). }
  unfold is_topk. destruct (Nat.ltb_spec (length vector) k); [|apply clear_smallest_lookup].
  replace (length vector - k)%nat with 0%nat by lia.
  unfold smallest. rewrite take_0, bool_decide_true by apply not_elem_of_nil.
  by destruct (_ !! i) as [[]|].
Qed.

Lemma length_is_topk vector k : length (is_topk vector k) = length vector.
Proof.
  apply Nat.le_antisymm; apply Nat.nlt_ge; intros Hlt.
  - apply lookup_lt_is_Some in Hlt as [b Hb]. rewrite is_topk_lookup, decide_False in Hb by lia. done.
  - assert (is_topk vector k !! length (is_topk vector k) = None) as H by (by apply lookup_ge_None_2).
    by rewrite is_topk_lookup, decide_True in H by done.
Qed.

Lemma is_topk_seq vector k :
  is_topk vector k =
  (fun i => bool_decide (i ∉ smallest vector (length vector - k))) <$> seq 0 (length vector).
Proof.
  apply list_eq. intros i. rewrite is_topk_lookup, list_lookup_fmap.
  case_decide; [by rewrite lookup_seq_lt by lia|by rewrite lookup_seq_ge by lia].
Qed.

Lemma length_filter_bool {A} (f : A -> bool) (l : list A) :
  length (filter (fun b => b = true) (f <$> l)) = length (filter (fun x => f x = true) l).
Proof. induction l as [|x l IH]; [done|]. cbn [fmap list_fmap]. rewrite !filter_cons. repeat case_decide; simpl; lia || done. Qed.

(** [is_topk] marks as many entries as there are, up to
    [k]; each of them is larger than each of the others, or equal and at a later
    position; [is_topk_nonzero] marks those of them that are not zero. *)
Theorem topk_selects_largest (vector : Vector) (k : nat) :
  length (is_topk vector k) = length vector /\
  length (filter (fun b => b = true) (is_topk vector k)) = Nat.min k (length vector) /\
  (forall i j, is_topk vector k !! i = Some true -> is_topk vector k !! j = Some false -> before vector j i) /\
  (forall i, is_topk_nonzero vector k !! i = Some true <->
    is_topk vector k !! i = Some true /\ get_safe vector i <> 0).
Proof.
  split; [apply length_is_topk|split; [|split]].
  - rewrite is_topk_seq, length_filter_bool.
    rewrite (list_filter_iff _ (fun i => i ∉ smallest vector (length vector - k))) by (intros; apply bool_decide_eq_true).
    rewrite length_not_smallest; lia.
  - intros i j. rewrite !is_topk_lookup. do 2 case_decide; intros Hi Hj; simplify_eq.
    apply (smallest_before _ (length vector - k)); [done|by apply bool_decide_eq_true in Hi|].
    apply bool_decide_eq_false in Hj. destruct (decide (j ∈ smallest vector (length vector - k))); done.
  - intros i. rewrite is_topk_lookup.
    assert (is_topk_nonzero vector k !! i =
      (fun v => negb (v =? 0) && bool_decide (i ∉ smallest vector (length vector - k))) <$> vector !! i) as ->.
    { unfold is_topk_nonzero. destruct (Nat.ltb_spec (length vector) k).
      - rewrite list_lookup_fmap. replace (length vector - k)%nat with 0%nat by lia.
        unfold smallest. rewrite take_0, bool_decide_true by apply not_elem_of_nil.
        destruct (vector !! i); simpl; [by rewrite andb_true_r|done].
      - rewrite clear_smallest_lookup, list_lookup_fmap. by destruct (vector !! i). }
    unfold get_safe. case_decide as Hi.
    + apply lookup_lt_is_Some in Hi as [v ->]. cbn. rewrite !(inj_iff Some), andb_true_iff, negb_true_iff, Z.eqb_neq. tauto.
    + rewrite lookup_ge_None_2 by lia. naive_solver.
Qed.

(** ** Sums and quotients *)

Abbreviation total l := (foldr Z.add 0 l).

Definition nonnegs (l : Vector) : Prop := Forall (fun x => 0 <= x) l.

Lemma total_nonneg l : nonnegs l -> 0 <= total l.
Proof. induction 1; simpl; lia. Qed.

Lemma total_elem l x : nonnegs l -> x ∈ l -> x <= total l.
Proof.
  intros H. induction H as [|y l Hy Hl IH]; [by intros ?%not_elem_of_nil|].
  pose proof (total_nonneg l Hl). intros [->|Hx]%elem_of_cons; simpl; [lia|specialize (IH Hx); lia].
Qed.

Lemma maximum_spec l v : maximum l = Some v <-> v ∈ l /\ forall x, x ∈ l -> x <= v.
Proof.
  assert (forall l x, foldl Z.max x l ∈ x :: l /\ forall y, y ∈ x :: l -> y <= foldl Z.max x l) as H.
  { clear. induction l as [|y l IH]; intros x; simpl.
    - split; [set_solver|]. intros z [->|?%not_elem_of_nil]%elem_of_cons; [lia|done].
    - destruct (IH (Z.max x y)) as [Hin Hle]. split.
      + apply elem_of_cons in Hin as [Hin|Hin]; [|set_solver]. rewrite Hin.
        destruct (Z.max_spec x y) as [[_ ->]|[_ ->]]; set_solver.
      + pose proof (Hle (Z.max x y) ltac:(set_solver)). intros z [->|[->|Hz]%elem_of_cons]%elem_of_cons; [lia..|].
        apply Hle. set_solver. }
  destruct l as [|x l]; simpl; [split; [done|by intros [?%not_elem_of_nil _]]|].
  destruct (H l x) as [Hin Hle]. split; [by intros [= <-]|]. intros [Hv Hmax]. f_equal.
  apply Z.le_antisymm; auto.
Qed.

Section laws.
Context {lib : FixedLib} `{!FixedLaws lib}.

Lemma safe_div_nonneg a b :
  0 <= a <= FIXED_MAX -> 0 < b <= FIXED_MAX -> a * ONE / b <= FIXED_MAX -> safe_div lib a b = a * ONE / b.
Proof. intros Ha Hb Hq. unfold safe_div. by rewrite checked_fdiv_nonneg, (proj2 (Z.leb_le _ _) Hq). Qed.

Lemma safe_div_le a b : 0 <= a <= b -> 0 < b <= FIXED_MAX -> safe_div lib a b = a * ONE / b.
Proof.
  intros Ha Hb. apply safe_div_nonneg; [lia|done|]. transitivity ONE; [|done].
  apply Z.div_le_upper_bound; [lia|]. unfold ONE. nia.
Qed.

Lemma div_le_one a b : 0 <= a <= b -> 0 < b -> 0 <= a * ONE / b <= ONE.
Proof.
  intros Ha Hb. split; [apply Z.div_pos; [unfold ONE; lia|done]|].
  apply Z.div_le_upper_bound; [lia|]. unfold ONE. nia.
Qed.

Lemma safe_div_zero b : 0 < b <= FIXED_MAX -> safe_div lib 0 b = 0.
Proof. intros Hb. by rewrite safe_div_le by lia. Qed.

Lemma inplace_normalize_eq x :
  nonnegs x -> 0 < total x <= FIXED_MAX -> inplace_normalize lib x = (fun v => v * ONE / total x) <$> x.
Proof.
  intros Hx Ht. unfold inplace_normalize. rewrite fsum_nonneg by (done || lia).
  replace (total x =? 0) with false by lia. apply list_fmap_ext. intros i v Hv%list_elem_of_lookup_2.
  apply safe_div_le; [|done]. split; [by apply (proj1 (list.Forall_forall _ _) Hx)|by apply total_elem].
Qed.

Lemma length_inplace_normalize x : length (inplace_normalize lib x) = length x.
Proof. unfold inplace_normalize. case_match; [done|apply length_fmap]. Qed.

(** Each quotient loses less than one bit. *)
Lemma total_quotients t x :
  0 < t -> total x * ONE - (t - 1) * Z.of_nat (length x) <= t * total ((fun v => v * ONE / t) <$> x) <= total x * ONE.
Proof.
  intros Ht. induction x as [|v x IH]; [simpl; lia|]. cbn [fmap list_fmap foldr length].
  pose proof (Z.div_mod (v * ONE) t ltac:(lia)). pose proof (Z.mod_pos_bound (v * ONE) t Ht). nia.
Qed.

Lemma normalized_nonnegs x : nonnegs x -> total x <= FIXED_MAX -> nonnegs (inplace_normalize lib x).
Proof.
  intros Hx Ht. pose proof (total_nonneg x Hx). destruct (decide (total x = 0)) as [E|E].
  - unfold inplace_normalize. by rewrite fsum_nonneg, E by (done || lia).
  - rewrite inplace_normalize_eq by (done || lia). apply Forall_fmap, list.Forall_forall. intros v Hv.
    apply div_le_one; [|lia]. split; [by apply (proj1 (list.Forall_forall _ _) Hx)|by apply total_elem].
Qed.

Lemma normalized_total x : nonnegs x -> total x <= FIXED_MAX -> total (inplace_normalize lib x) <= ONE.
Proof.
  intros Hx Ht. pose proof (total_nonneg x Hx). destruct (decide (total x = 0)) as [E|E].
  - unfold inplace_normalize. rewrite fsum_nonneg, E by (done || lia). cbn [Z.eqb]. by rewrite E.
  - rewrite inplace_normalize_eq by (done || lia). pose proof (total_quotients (total x) x ltac:(lia)). nia.
Qed.

(** Normalising a vector without negative entries whose
    sum fits and is not zero yields entries between zero and one whose sum is at
    most one and less than one bit per entry below it.  The copying and the
    in-place version agree, and a normalised vector keeps the order of entries. *)
Theorem normalized_sums_to_one (x : Vector) :
  nonnegs x -> 0 < total x <= FIXED_MAX ->
  normalize lib x = inplace_normalize lib x /\
  Forall (fun v => 0 <= v <= ONE) (inplace_normalize lib x) /\
  ONE - Z.of_nat (length x) < total (inplace_normalize lib x) <= ONE /\
  (forall i j, get_safe x i <= get_safe x j ->
    get_safe (inplace_normalize lib x) i <= get_safe (inplace_normalize lib x) j).
Proof.
  intros Hx Ht. split; [unfold normalize, inplace_normalize; fold (sum lib x); by destruct (sum lib x =? 0)|].
  split; [|split].
  - rewrite inplace_normalize_eq by done. apply Forall_fmap, list.Forall_forall. intros v Hv.
    apply div_le_one; [|lia]. split; [by apply (proj1 (list.Forall_forall _ _) Hx)|by apply total_elem].
  - split; [|apply normalized_total; [done|lia]]. rewrite inplace_normalize_eq by done.
    pose proof (total_quotients (total x) x ltac:(lia)). destruct x; simpl in *; [lia|]. nia.
  - intros i j Hij. rewrite inplace_normalize_eq by done. unfold get_safe in *. rewrite !list_lookup_fmap.
    assert (forall o, default 0 ((fun v => v * ONE / total x) <$> o) = default 0 o * ONE / total x) as Hq
      by (by intros []).
    rewrite !Hq. apply Z.div_le_mono; [lia|]. unfold ONE. nia.
Qed.

(** ** Scaling to 16 bits *)

(** The scaled entry before it is rounded. *)
Definition scaled (v e : Z) : Z :=
  if from_num 32768 <? v then e * (u16_max * ONE * ONE / v) / ONE else e * u16_max * ONE / v.

Definition to_u16 (q : Z) : Z := (q + ONE / 2) / ONE.

Lemma scaled_range v e : 0 < v -> 0 <= e <= v -> 0 <= scaled v e <= u16_max * ONE.
Proof.
  intros Hv He. unfold scaled, u16_max, ONE. case_match.
  - pose proof (Z.div_pos (65535 * 2 ^ 32 * 2 ^ 32) v ltac:(lia) Hv) as Hr.
    pose proof (Z.mul_div_le (65535 * 2 ^ 32 * 2 ^ 32) v Hv) as Hle.
    split; [apply Z.div_pos; nia|]. apply Z.div_le_upper_bound; [lia|]. nia.
  - split; [apply Z.div_pos; lia|]. apply Z.div_le_upper_bound; lia.
Qed.

(** The largest entry loses less than half. *)
Lemma scaled_max v : 0 < v <= FIXED_MAX -> to_u16 (scaled v v) = u16_max.
Proof.
  intros Hv. pose proof (scaled_range v v ltac:(lia) ltac:(lia)) as Hr.
  assert (u16_max * ONE - ONE / 2 <= scaled v v) as Hlo.
  { unfold scaled, u16_max, ONE, FIXED_MAX in *. case_match.
    - apply Z.div_le_lower_bound; [lia|].
      pose proof (Z.div_mod (65535 * 2 ^ 32 * 2 ^ 32) v ltac:(lia)).
      pose proof (Z.mod_pos_bound (65535 * 2 ^ 32 * 2 ^ 32) v ltac:(lia)).
      clear Hr. generalize dependent ((65535 * 2 ^ 32 * 2 ^ 32) / v). generalize dependent ((65535 * 2 ^ 32 * 2 ^ 32) mod v).
      intros r Hr' q Hq. change (2 ^ 32 / 2) with (2 ^ 31). nia.
    - replace (v * 65535 * 2 ^ 32) with (65535 * 2 ^ 32 * v) by lia. rewrite Z.div_mul by lia.
      change (2 ^ 32 / 2) with (2 ^ 31). lia. }
  unfold to_u16, u16_max, ONE in *. change (2 ^ 32 / 2) with (2 ^ 31) in *. symmetry.
  apply Z.div_unique with (scaled v v + 2 ^ 31 - 65535 * 2 ^ 32); lia.
Qed.

Lemma scaled_mono v d e : 0 < v -> d <= e -> scaled v d <= scaled v e.
Proof.
  intros Hv Hde. unfold scaled. case_match.
  - apply Z.div_le_mono; [done|]. apply Z.mul_le_mono_nonneg_r; [|done]. apply Z.div_pos; [done|lia].
  - apply Z.div_le_mono; [done|]. unfold u16_max, ONE. lia.
Qed.

Lemma to_u16_range q : 0 <= q <= u16_max * ONE -> 0 <= to_u16 q <= u16_max.
Proof.
  intros Hq. unfold to_u16, u16_max, ONE in *. change (2 ^ 32 / 2) with (2 ^ 31). split; [apply Z.div_pos; lia|].
  apply Z.lt_succ_r. apply Z.div_lt_upper_bound; lia.
Qed.

Lemma round_to_u16 q : 0 <= q <= u16_max * ONE -> fixed_to_u16 (fround lib q) = to_u16 q.
Proof.
  intros Hq. unfold fixed_to_u16. rewrite fround_nonneg by (unfold u16_max, ONE, FIXED_MAX in *; lia).
  rewrite Z.div_mul by done. pose proof (to_u16_range q Hq). unfold to_u16, clamp in *. lia.
Qed.

Lemma upscale_eq vec v :
  nonnegs vec -> maximum vec = Some v -> 0 < v <= FIXED_MAX ->
  vec_max_upscale_to_u16 lib vec = (fun e => to_u16 (scaled v e)) <$> vec.
Proof.
  intros Hn Hm Hv. apply maximum_spec in Hm as Hmax. destruct Hmax as [_ Hmax].
  assert (forall e, e ∈ vec -> 0 <= e <= v) as Hr.
  { intros e He. split; [by apply (proj1 (list.Forall_forall _ _) Hn)|auto]. }
  unfold vec_max_upscale_to_u16. rewrite Hm. replace (v =? from_num 0) with false by (change (from_num 0) with 0; lia).
  pose proof (fun e He => scaled_range v e (proj1 Hv) (Hr e He)) as Hs. unfold scaled in *.
  change (from_num u16_max) with (u16_max * ONE). change (from_num 32768) with (32768 * ONE) in *.
  destruct (Z.ltb_spec (32768 * ONE) v) as [Hlt|Hge]; apply list_fmap_ext; intros i e He%list_elem_of_lookup_2;
    specialize (Hr e He); specialize (Hs e He).
  - assert (u16_max * ONE * ONE / v <= FIXED_MAX) as Hq.
    { apply Z.div_le_upper_bound; [lia|]. unfold u16_max, ONE, FIXED_MAX in *. lia. }
    pose proof (Z.div_pos (u16_max * ONE * ONE) v ltac:(done) ltac:(lia)).
    rewrite safe_div_nonneg by (done || lia). rewrite fmul_nonneg by lia. rewrite Z.min_r by (unfold u16_max, ONE, FIXED_MAX in *; lia).
    by apply round_to_u16.
  - rewrite fmul_nonneg by (done || lia). rewrite Z.mul_assoc, Z.div_mul by done.
    rewrite Z.min_r by (unfold u16_max, ONE, FIXED_MAX in *; lia).
    rewrite safe_div_nonneg by (unfold u16_max, ONE, FIXED_MAX in *; lia). by apply round_to_u16.
Qed.

(** Scaling a vector without negative entries by its
    largest entry yields 16-bit numbers of which the largest is exactly 65535,
    keeps zeros and the order of the entries; it is exact even where the division
    comes first. *)
Theorem upscale_reaches_max (vec : Vector) (v : Z) :
  nonnegs vec -> maximum vec = Some v -> 0 < v <= FIXED_MAX ->
  Forall (fun e => 0 <= e <= u16_max) (vec_max_upscale_to_u16 lib vec) /\
  maximum (vec_max_upscale_to_u16 lib vec) = Some u16_max /\
  (forall i, vec !! i = Some 0 -> vec_max_upscale_to_u16 lib vec !! i = Some 0) /\
  (forall i, vec !! i = Some v -> vec_max_upscale_to_u16 lib vec !! i = Some u16_max) /\
  (forall i j d e d' e', vec !! i = Some d -> vec !! j = Some e -> d <= e ->
    vec_max_upscale_to_u16 lib vec !! i = Some d' -> vec_max_upscale_to_u16 lib vec !! j = Some e' -> d' <= e').
Proof.
  intros Hn Hm Hv. rewrite (upscale_eq _ v) by done. apply maximum_spec in Hm as [Hin Hmax].
  assert (forall e, e ∈ vec -> 0 <= to_u16 (scaled v e) <= u16_max) as Hr.
  { intros e He. apply to_u16_range, scaled_range; [lia|]. split; [by apply (proj1 (list.Forall_forall _ _) Hn)|auto]. }
  split; [by apply Forall_fmap, list.Forall_forall|]. split; [|split; [|split]].
  - apply maximum_spec. split; [rewrite <- (scaled_max v) by done; by apply (list_elem_of_fmap_2 (fun e => to_u16 (scaled v e)))|].
    intros x (e & -> & He)%list_elem_of_fmap. by apply Hr.
  - intros i Hi. rewrite list_lookup_fmap, Hi. cbn. unfold scaled. by case_match.
  - intros i Hi. rewrite list_lookup_fmap, Hi. cbn. by rewrite scaled_max.
  - intros i j d e d' e' Hi Hj Hde. rewrite !list_lookup_fmap, Hi, Hj. intros [= <-] [= <-].
    apply Z.div_le_mono; [done|]. apply Z.add_le_mono_r. apply scaled_mono; [lia|done].
Qed.
End laws.

(** A vector of three weights. *)
Module Weights.
Definition weights : Vector := [ONE; 0; 2 * ONE].

Lemma normalized_sums_to_one_witness :
  normalize Exact.lib weights = inplace_normalize Exact.lib weights /\
  Forall (fun v => 0 <= v <= ONE) (inplace_normalize Exact.lib weights) /\
  ONE - 3 < total (inplace_normalize Exact.lib weights) <= ONE /\
  (forall i j, get_safe weights i <= get_safe weights j ->
    get_safe (inplace_normalize Exact.lib weights) i <= get_safe (inplace_normalize Exact.lib weights) j).
Proof.
  apply (normalized_sums_to_one weights); [repeat constructor; vm_compute; discriminate|].
  vm_compute. split; [reflexivity|discriminate].
Defined.

Lemma upscale_reaches_max_witness :
  vec_max_upscale_to_u16 Exact.lib weights = [32768; 0; 65535] /\
  maximum (vec_max_upscale_to_u16 Exact.lib weights) = Some u16_max.
Proof.
  split; [vm_compute; reflexivity|].
  apply (upscale_reaches_max weights (2 * ONE));
    [repeat constructor; vm_compute; discriminate|reflexivity|].
  vm_compute. split; [reflexivity|discriminate].
Defined.
End Weights.
