(* ===== verification/EpochMedian.v ===== *)
(** * EpochMedian: the stake-weighted median

    [weighted_median] of EpochMath.v narrows a partition of the validators around
    a pivot.  The theorems say what the number it returns is, that the loop never
    runs into its iteration limit, and that the sparse column-wise medians, which
    the epoch uses as consensus, are the dense ones. *)

From Stdlib Require Import ZArith Lia.
From stdpp Require Import base list sets.
From S2P Require Import Prelude EpochMath EpochMathSpec.

Section selection.
Context (stake score : Vector).

Abbreviation s i := (get_safe score i).

(** The indices whose score satisfies a test, and their stake. *)
Definition chosen (P : Z -> bool) (idxs : list nat) : list nat := filter (fun i => P (s i) = true) idxs.

Definition stake_of (P : Z -> bool) (idxs : list nat) : Z :=
  foldr Z.add 0 (get_safe stake <$> chosen P idxs).

(** [p] is a score; the stake of the lower scores is at most [minority], unless
    there is no lower score, and the stake up to [p] exceeds it, unless there is no
    higher score. *)
Definition is_median (idxs : list nat) (minority p : Z) : Prop :=
  p ∈ get_safe score <$> idxs /\
  (stake_of (fun x => x <? p) idxs <= minority \/ (forall i, i ∈ idxs -> p <= s i)) /\
  (minority < stake_of (fun x => x <=? p) idxs \/ (forall i, i ∈ idxs -> s i <= p)).

Lemma elem_of_chosen P idxs i : i ∈ chosen P idxs <-> P (s i) = true /\ i ∈ idxs.
Proof. unfold chosen. by rewrite list_elem_of_filter. Qed.

Lemma chosen_cons P i idxs :
  chosen P (i :: idxs) = if P (s i) then i :: chosen P idxs else chosen P idxs.
Proof. unfold chosen. rewrite filter_cons. by destruct (P (s i)) eqn:E; rewrite ?E; case_decide. Qed.

Lemma stake_of_cons P i idxs :
  stake_of P (i :: idxs) = (if P (s i) then get_safe stake i else 0) + stake_of P idxs.
Proof. unfold stake_of. rewrite chosen_cons. by destruct (P (s i)). Qed.

Lemma chosen_chosen P Q R idxs :
  (forall x, R x = P x && Q x) -> chosen P (chosen Q idxs) = chosen R idxs.
Proof.
  intros HR. induction idxs as [|i idxs IH]; first done.
  rewrite !chosen_cons, HR. destruct (Q (s i)); rewrite ?chosen_cons, IH; by destruct (P (s i)).
Qed.

Lemma chosen_ext P Q idxs : (forall x, P x = Q x) -> chosen P idxs = chosen Q idxs.
Proof. intros H. induction idxs as [|i idxs IH]; first done. by rewrite !chosen_cons, H, IH. Qed.

Lemma chosen_none P idxs : chosen P idxs = [] <-> forall i, i ∈ idxs -> P (s i) = false.
Proof.
  split.
  - intros H i Hi. destruct (P (s i)) eqn:E; last done.
    assert (i ∈ chosen P idxs) as Hc by (by apply elem_of_chosen). rewrite H in Hc. by apply not_elem_of_nil in Hc.
  - intros H. induction idxs as [|i idxs IH]; first done.
    rewrite chosen_cons, H by set_solver. apply IH. set_solver.
Qed.

Lemma chosen_all P idxs : (forall i, i ∈ idxs -> P (s i) = true) -> chosen P idxs = idxs.
Proof.
  intros H. induction idxs as [|i idxs IH]; first done.
  rewrite chosen_cons, H by set_solver. f_equal. apply IH. set_solver.
Qed.

(** A test that splits into two that exclude each other. *)
Lemma stake_of_split P Q R idxs :
  (forall x, P x = Q x || R x) -> (forall x, Q x && R x = false) ->
  stake_of P idxs = stake_of Q idxs + stake_of R idxs.
Proof.
  intros HP HD. induction idxs as [|i idxs IH]; first done.
  rewrite !stake_of_cons, IH, HP. specialize (HD (s i)).
  destruct (Q (s i)), (R (s i)); simpl in *; lia || done.
Qed.

Definition nonneg (idxs : list nat) : Prop := forall i, i ∈ idxs -> 0 <= get_safe stake i.

Lemma stake_of_nonneg P idxs : nonneg idxs -> 0 <= stake_of P idxs.
Proof.
  intros H. induction idxs as [|i idxs IH]; first done. rewrite stake_of_cons.
  assert (nonneg idxs) by (intros j Hj; apply H; set_solver).
  assert (0 <= get_safe stake i) by (apply H; set_solver). specialize (IH ltac:(done)).
  destruct (P (s i)); lia.
Qed.

Lemma stake_of_le P Q idxs :
  nonneg idxs -> (forall x, P x = true -> Q x = true) -> stake_of P idxs <= stake_of Q idxs.
Proof.
  intros H HPQ. rewrite (stake_of_split Q P (fun x => Q x && negb (P x))).
  - pose proof (stake_of_nonneg (fun x => Q x && negb (P x)) idxs H). lia.
  - intros x. specialize (HPQ x). destruct (P x), (Q x); naive_solver.
  - intros x. destruct (P x), (Q x); done.
Qed.

Lemma chosen_nonneg P idxs : nonneg idxs -> nonneg (chosen P idxs).
Proof. intros H i [_ Hi]%elem_of_chosen. by apply H. Qed.

Lemma stake_of_chosen P Q R idxs :
  (forall x, R x = P x && Q x) -> stake_of P (chosen Q idxs) = stake_of R idxs.
Proof. intros H. unfold stake_of. by rewrite (chosen_chosen P Q R). Qed.

(** There is only one such number. *)
Lemma is_median_unique idxs minority p q :
  nonneg idxs -> is_median idxs minority p -> is_median idxs minority q -> p = q.
Proof.
  intros Hn.
  assert (forall p q, p < q -> is_median idxs minority p -> is_median idxs minority q -> False) as Hlt.
  { clear p q. intros p q Hpq (Hp & _ & Hup) (Hq & Hlo & _).
    apply list_elem_of_fmap in Hp as (i & -> & Hi). apply list_elem_of_fmap in Hq as (j & -> & Hj).
    destruct Hlo as [Hlo|Hlo]; [|specialize (Hlo i Hi); lia].
    destruct Hup as [Hup|Hup]; [|specialize (Hup j Hj); lia].
    pose proof (stake_of_le (fun x => x <=? s i) (fun x => x <? s j) idxs Hn ltac:(intros x Hx; cbn in *; lia)). lia. }
  intros Hp Hq. destruct (Z.lt_trichotomy p q) as [?|[?|?]]; [|done|]; exfalso; eauto.
Qed.

(** One pass computes the parts below and above the pivot. *)
Lemma split_pass_eq pivot idxs :
  nonneg idxs -> stake_of (fun _ => true) idxs <= FIXED_MAX ->
  split_pass stake score pivot idxs =
    (stake_of (fun x => x <? pivot) idxs, stake_of (fun x => pivot <? x) idxs,
     chosen (fun x => x <? pivot) idxs, chosen (fun x => pivot <? x) idxs).
Proof.
  intros Hn Ht. unfold split_pass.
  enough (forall l h lo up, 0 <= l -> 0 <= h -> l + h + stake_of (fun _ => true) idxs <= FIXED_MAX ->
    foldl (fun '(lo_stake, hi_stake, lower, upper) idx =>
      if get_safe score idx =? pivot then (lo_stake, hi_stake, lower, upper)
      else if get_safe score idx <? pivot
      then (fadd lo_stake (get_safe stake idx), hi_stake, lower ++ [idx], upper)
      else (lo_stake, fadd hi_stake (get_safe stake idx), lower, upper ++ [idx])) (l, h, lo, up) idxs =
    (l + stake_of (fun x => x <? pivot) idxs, h + stake_of (fun x => pivot <? x) idxs,
     lo ++ chosen (fun x => x <? pivot) idxs, up ++ chosen (fun x => pivot <? x) idxs)) as Hg.
  { rewrite Hg by lia. done. }
  clear Ht. induction idxs as [|i idxs IH]; intros l h lo up Hl Hh Ht.
  { cbn. by rewrite !app_nil_r, !Z.add_0_r. }
  assert (nonneg idxs) as Hn' by (intros j Hj; apply Hn; set_solver).
  assert (0 <= get_safe stake i) by (apply Hn; set_solver).
  rewrite stake_of_cons in Ht. cbn beta iota in Ht. pose proof (stake_of_nonneg (fun _ => true) idxs Hn').
  assert (forall a, 0 <= a -> a + get_safe stake i <= FIXED_MAX ->
    fadd a (get_safe stake i) = a + get_safe stake i) as Hadd
    by (intros; unfold fadd, clamp, FIXED_MIN; lia).
  rewrite !stake_of_cons, !chosen_cons. cbn [foldl].
  destruct (Z.eqb_spec (s i) pivot) as [->|]; [|destruct (Z.ltb_spec (s i) pivot)].
  - rewrite Z.ltb_irrefl, IH by (done || lia). done.
  - replace (pivot <? s i) with false by lia. rewrite Hadd, IH by (done || lia).
    by rewrite <- app_assoc, Z.add_assoc.
  - replace (pivot <? s i) with true by lia. rewrite Hadd, IH by (done || lia).
    by rewrite <- app_assoc, (Z.add_assoc h).
Qed.
End selection.

Section median.
Context (stake score : Vector) (idxs : list nat) (minority : Z).
Hypothesis stake_nonneg : nonneg stake idxs.
Hypothesis stake_fits : stake_of stake score (fun _ => true) idxs <= FIXED_MAX.

Abbreviation s i := (get_safe score i).
Abbreviation weight P := (stake_of stake score P idxs).
Abbreviation sel P := (chosen score P idxs).

Definition between (a b : Z) (x : Z) : bool := (a <? x) && (x <? b).

(** The partition has the scores strictly between two numbers; [lo] is the stake
    below it and [hi] the stake up to its end. *)
Record narrowed (a b : Z) (part : list nat) (lo hi : Z) : Prop := {
  nar_part : part = sel (between a b);
  nar_some : part <> [];
  nar_lo : lo = weight (fun x => x <=? a);
  nar_hi : hi = weight (fun x => x <? b);
  nar_below : lo <= minority \/ sel (fun x => x <=? a) = [];
  nar_above : minority < hi \/ sel (fun x => b <=? x) = [];
}.

Lemma in_part a b part lo hi i : narrowed a b part lo hi -> i ∈ part -> i ∈ idxs /\ a < s i < b.
Proof. intros [-> _ _ _ _ _] [H Hi]%elem_of_chosen. unfold between in H. split; [done|lia]. Qed.

(** The stake split at a score of the partition. *)
Lemma weight_upto a p : a < p -> weight (fun x => x <? p) = weight (fun x => x <=? a) + weight (between a p).
Proof. intros. apply stake_of_split; intros x; unfold between; lia. Qed.

Lemma weight_from p b : p < b -> weight (fun x => x <? b) = weight (fun x => x <=? p) + weight (between p b).
Proof. apply weight_upto. Qed.

Lemma weight_none P : sel P = [] -> weight P = 0.
Proof. intros H. unfold stake_of. by rewrite H. Qed.

Lemma weight_fits P : 0 <= weight P <= FIXED_MAX.
Proof.
  split; [by apply stake_of_nonneg|]. etrans; [|exact stake_fits]. by apply stake_of_le.
Qed.

(** Returning a score of the partition. *)
Lemma median_here a b part lo hi i :
  narrowed a b part lo hi -> i ∈ part ->
  weight (fun x => x <? s i) <= minority \/ sel (between a (s i)) = [] ->
  minority < weight (fun x => x <=? s i) \/ sel (between (s i) b) = [] ->
  is_median stake score idxs minority (s i).
Proof.
  intros Hn Hi Hlo Hhi. pose proof (in_part _ _ _ _ _ _ Hn Hi) as [Hin Hb]. destruct Hn as [_ _ -> -> Hl Hh].
  split; [by apply (list_elem_of_fmap_2 (get_safe score))|split].
  - destruct Hlo as [?|Hlo]; [by left|]. destruct Hl as [Hl|Hl].
    + left. rewrite (weight_upto a), (weight_none (between _ _)) by (done || lia). lia.
    + right. intros j Hj. rewrite chosen_none in Hlo, Hl. specialize (Hlo j Hj). specialize (Hl j Hj).
      unfold between in Hlo. cbn in Hl. lia.
  - destruct Hhi as [?|Hhi]; [by left|]. destruct Hh as [Hh|Hh].
    + left. rewrite (weight_from (s i)), (weight_none (between _ _)) in Hh by (done || lia). lia.
    + right. intros j Hj. rewrite chosen_none in Hhi, Hh. specialize (Hhi j Hj). specialize (Hh j Hj).
      unfold between in Hhi. cbn in Hh. lia.
Qed.

(** What one pass over the partition yields. *)
Lemma split_part a b part lo hi p :
  narrowed a b part lo hi -> a < p < b ->
  split_pass stake score p part =
    (weight (between a p), weight (between p b), sel (between a p), sel (between p b)).
Proof.
  intros [-> _ _ _ _ _] Hp.
  assert (forall x, between a p x = (x <? p) && between a b x) as H1 by (intros; unfold between; lia).
  assert (forall x, between p b x = (p <? x) && between a b x) as H2 by (intros; unfold between; lia).
  rewrite split_pass_eq.
  - by rewrite (stake_of_chosen _ _ _ _ _ _ H1), (stake_of_chosen _ _ _ _ _ _ H2),
      (chosen_chosen _ _ _ _ _ H1), (chosen_chosen _ _ _ _ _ H2).
  - by apply chosen_nonneg.
  - rewrite (stake_of_chosen _ _ _ _ (between a b)); [apply weight_fits|done].
Qed.

Lemma fewer a b part lo hi i P :
  narrowed a b part lo hi -> i ∈ part -> (forall x, P x = true -> between a b x = true) -> P (s i) = false ->
  (length (sel P) < length part)%nat.
Proof.
  intros [-> _ _ _ _ _] Hi HP Hf.
  assert (sel P = chosen score P (sel (between a b))) as ->.
  { symmetry. apply chosen_chosen. intros x. specialize (HP x). destruct (P x); [by rewrite HP|done]. }
  apply length_filter_lt with i; [done|]. by rewrite Hf.
Qed.

(** The loop ends with the median before its fuel does. *)
Lemma median_loop_ok fuel a b part lo hi :
  narrowed a b part lo hi -> (length part <= fuel)%nat ->
  is_median stake score idxs minority (median_loop stake score minority fuel part lo hi).
Proof.
  revert a b part lo hi. induction fuel as [|fuel IH]; intros a b part lo hi Hn Hf.
  { destruct part; [by destruct (nar_some _ _ _ _ _ Hn)|simpl in Hf; lia]. }
  cbn [median_loop]. destruct (Nat.eqb_spec (length part) 0) as [E|_].
  { by destruct (nar_some _ _ _ _ _ Hn); apply nil_length_inv. }
  destruct (Nat.eqb_spec (length part) 1) as [E|E].
  { destruct part as [|i [|]]; try done. assert (i ∈ [i]) as Hi by set_solver.
    assert (forall P, (forall x, P x = true -> between a b x = true) -> P (s i) = false -> sel P = []) as Hnone.
    { intros P HP Hif. apply nil_length_inv. pose proof (fewer _ _ _ _ _ _ P Hn Hi HP Hif) as H. simpl in H. lia. }
    pose proof (in_part _ _ _ _ _ _ Hn Hi) as [_ ?].
    eapply median_here; [done|done|right; apply Hnone..]; unfold between; intros; lia. }
  assert (exists i, part !! (length part / 2)%nat = Some i) as [i Hi].
  { apply lookup_lt_is_Some. apply Nat.Div0.div_lt_upper_bound. destruct part; [by destruct (nar_some _ _ _ _ _ Hn)|simpl; lia]. }
  rewrite Hi. change (default 0%nat (Some i)) with i. apply list_elem_of_lookup_2 in Hi.
  pose proof (in_part _ _ _ _ _ _ Hn Hi) as [_ Hb]. rewrite (split_part _ _ _ _ _ _ Hn Hb).
  pose proof (weight_upto a (s i) ltac:(lia)). pose proof (weight_from (s i) b ltac:(lia)).
  pose proof (weight_fits (fun x => x <? s i)). pose proof (weight_fits (fun x => x <=? s i)).
  pose proof Hn as [_ _ -> -> Hl Hh].
  replace (fadd _ _) with (weight (fun x => x <? s i)) by (unfold fadd, clamp, FIXED_MIN; lia).
  replace (fsub _ _) with (weight (fun x => x <=? s i)) by (unfold fsub, clamp, FIXED_MIN; lia).
  assert (forall P, (forall x, P x = true -> between a b x = true) -> P (s i) = false -> (length (sel P) <= fuel)%nat)
    as Hless by (intros P HP Hif; pose proof (fewer _ _ _ _ _ _ P Hn Hi HP Hif); lia).
  destruct ((minority <? _) && _) eqn:E1; [|destruct ((_ <=? minority) && _) eqn:E2].
  - apply (IH a (s i)); [|apply Hless; unfold between; intros; lia].
    split; try done; [intros Hnil; rewrite Hnil in E1; simpl in E1; lia|left; lia].
  - apply (IH (s i) b); [|apply Hless; unfold between; intros; lia].
    split; try done; [intros Hnil; rewrite Hnil in E2; simpl in E2; lia|left; lia].
  - eapply median_here; [done|done| |].
    + destruct (sel (between a (s i))); [by right|left; simpl in E1; lia].
    + destruct (sel (between (s i) b)); [by right|left; simpl in E2; lia].
Qed.

Lemma scores_bounded : exists a b, forall i, i ∈ idxs -> a < s i < b.
Proof.
  clear. induction idxs as [|i l (a & b & IH)]; [by exists 0, 0; intros ? ?%not_elem_of_nil|].
  exists (Z.min a (s i - 1)), (Z.max b (s i + 1)). intros j [->|Hj]%elem_of_cons; [lia|specialize (IH j Hj); lia].
Qed.

Lemma narrowed_all :
  idxs <> [] -> exists a b, narrowed a b idxs 0 (weight (fun _ => true)).
Proof.
  intros Hne. destruct scores_bounded as (a & b & H). exists a, b.
  assert (forall P, (forall x, a < x < b -> P x = false) -> sel P = []) as Hnone
    by (intros P HP; apply chosen_none; auto).
  assert (forall P, (forall x, a < x < b -> P x = true) -> sel P = idxs) as Hall.
  { intros P HP. apply chosen_all. auto. }
  split; [symmetry; apply Hall|done| | |right; apply Hnone..]; unfold between; try (intros; lia).
  - rewrite weight_none; [done|apply Hnone; intros; lia].
  - unfold stake_of. by rewrite !Hall by (intros; lia || done).
Qed.

Lemma weighted_median_ok :
  length stake = length score -> idxs <> [] ->
  is_median stake score idxs minority (weighted_median stake score idxs minority 0 (weight (fun _ => true))).
Proof.
  intros Hlen Hne. unfold weighted_median. rewrite (proj2 (Nat.eqb_eq _ _) Hlen).
  destruct (narrowed_all Hne) as (a & b & Hn). apply (median_loop_ok _ a b); [done|lia].
Qed.
End median.

(** ** Column-wise medians *)

Lemma length_foldl_alter {A B} (f : B -> A -> A) (key : B -> nat) (l : list A) (es : list B) :
  length (foldl (fun l e => alter (f e) (key e) l) l es) = length l.
Proof. revert l. induction es as [|e es IH]; intros l; [done|]. cbn [foldl]. rewrite IH. apply length_alter. Qed.

Lemma length_densify columns row : length (densify columns row) = columns.
Proof. unfold densify. rewrite (length_foldl_alter (fun e _ => e.2) fst). apply length_replicate. Qed.

(** The rows of validators with positive stake. *)
Definition voting (stake : Vector) (score : SparseMatrix) : list (Z * SparseRow) :=
  filter (fun e => 0 < e.1) (zip stake score).

(** Their scores in a column. *)
Definition col_scores (columns c : nat) (rows : list (Z * SparseRow)) : Vector :=
  (fun e => get_safe (densify columns e.2) c) <$> rows.

Lemma alter_imap {A B} (g : nat -> A -> B) (f : A -> A) (h : B -> B) i (l : list A) :
  (forall x, h (g i x) = g i (f x)) -> alter h i (imap g l) = imap g (alter f i l).
Proof.
  intros H. apply list_eq. intros j. rewrite list_lookup_imap.
  destruct (decide (i = j)) as [->|Hne].
  - rewrite !list_lookup_alter_eq, list_lookup_imap. destruct (l !! j); simpl; [by rewrite H|done].
  - by rewrite !list_lookup_alter_ne, list_lookup_imap.
Qed.

(** Writing one sparse row into place [k] of each column. *)
Lemma fill_row columns k (pre : nat -> Vector) post row :
  (forall c, length (pre c) = k) ->
  foldl (fun use_score e => alter (alter (fun _ => e.2) k) e.1 use_score)
    (imap (fun c v => pre c ++ v :: post) (replicate columns 0)) row =
  imap (fun c v => pre c ++ v :: post) (densify columns row).
Proof.
  intros Hk. unfold densify. generalize (replicate columns 0). induction row as [|e row IH]; intros dense; [done|].
  cbn [foldl]. rewrite <- IH. f_equal. apply alter_imap. intros x.
  rewrite alter_app_r_alt by (rewrite Hk; lia). by rewrite Hk, Nat.sub_diag.
Qed.

Lemma fill_scores_eq columns stake score k (pre : nat -> Vector) :
  length stake = length score -> (forall c, length (pre c) = k) ->
  fill_scores stake score k
    ((fun c => pre c ++ replicate (length (voting stake score)) 0) <$> seq 0 columns) =
  (fun c => pre c ++ col_scores columns c (voting stake score)) <$> seq 0 columns.
Proof.
  revert score k pre. induction stake as [|st stake IH]; intros [|row score] k pre Hlen Hk; try done.
  simpl in Hlen. unfold voting. cbn [fill_scores zip zip_with]. rewrite filter_cons. fold (voting stake score).
  destruct (Z.ltb_spec 0 st); [rewrite decide_True by done|rewrite decide_False by (simpl; lia); auto].
  cbn [length replicate].
  assert (forall F : nat -> Z -> Vector, imap F (replicate columns 0) = (fun c => F c 0) <$> seq 0 columns) as Hrep.
  { intros F. apply list_eq. intros c. rewrite list_lookup_imap, list_lookup_fmap.
    destruct (decide (c < columns)%nat); [by rewrite lookup_replicate_2, lookup_seq_lt by lia|].
    by rewrite lookup_seq_ge, lookup_ge_None_2 by (rewrite ?length_replicate; lia). }
  rewrite <- (Hrep (fun c v => pre c ++ v :: replicate (length (voting stake score)) 0)), fill_row by done.
  transitivity (fill_scores stake score (S k)
    ((fun c => (pre c ++ [get_safe (densify columns row) c]) ++ replicate (length (voting stake score)) 0) <$> seq 0 columns)).
  - f_equal. apply list_eq. intros c. rewrite list_lookup_imap, list_lookup_fmap.
    destruct (decide (c < columns)%nat) as [Hc|Hc].
    + rewrite lookup_seq_lt by lia. assert (is_Some (densify columns row !! c)) as [v Hv]
        by (apply lookup_lt_is_Some; by rewrite length_densify).
      unfold get_safe. rewrite Hv. simpl. by rewrite <- app_assoc, Hv.
    + by rewrite lookup_seq_ge, lookup_ge_None_2 by (rewrite ?length_densify; lia).
  - rewrite (IH score (S k) (fun c => pre c ++ [get_safe (densify columns row) c]));
      [|lia|intros c; rewrite length_app, Hk; simpl; lia].
    apply list_fmap_ext. intros ? c _. by rewrite <- app_assoc.
Qed.

Lemma used_rows_eq columns c stake score :
  length stake = length score ->
  used_rows stake (densify columns <$> score) columns c =
  (fun e => (e.1, get_safe (densify columns e.2) c)) <$> voting stake score.
Proof.
  unfold used_rows. revert score. induction stake as [|st stake IH]; intros [|row score] Hlen; try done.
  simpl in Hlen. specialize (IH score ltac:(lia)).
  cbn [length seq]. rewrite <- fmap_S_seq. unfold voting. cbn [zip zip_with]. rewrite filter_cons.
  fold (voting stake score). cbn [omap list_omap]. rewrite omap_fmap.
  match goal with |- context [omap ?f (seq 0 (length stake))] =>
    assert (omap f (seq 0 (length stake)) = _) as -> by exact IH end.
  unfold get_safe at 1 2. cbn [lookup list_lookup fmap list_fmap default id from_option].
  rewrite length_densify, Nat.eqb_refl.
  destruct (Z.ltb_spec 0 st); [by rewrite decide_True|by rewrite decide_False by (simpl; lia)].
Qed.

Lemma voting_stake stake score :
  length stake = length score -> (voting stake score).*1 = filter (fun s => 0 < s) stake.
Proof.
  unfold voting. revert score. induction stake as [|st stake IH]; intros [|row score] Hlen; try done.
  simpl in Hlen. specialize (IH score ltac:(lia)). cbn [zip zip_with]. rewrite !filter_cons.
  destruct (decide (0 < st)); [rewrite decide_True by done|rewrite decide_False by done; done].
  cbn. by f_equal.
Qed.

Section columns.
Context (lib : FixedLib).

(** The sparse medians, column by column. *)
Lemma median_col_sparse_eq stake score columns majority :
  length stake = length score ->
  weighted_median_col_sparse lib stake score columns majority =
  (fun c =>
    let use_stake := inplace_normalize lib (voting stake score).*1 in
    weighted_median use_stake (col_scores columns c (voting stake score)) (seq 0 (length use_stake))
      (fsub (fsum lib use_stake) majority) 0 (fsum lib use_stake)) <$> seq 0 columns.
Proof.
  intros Hlen. unfold weighted_median_col_sparse. rewrite <- (voting_stake stake score) by done.
  assert (length (inplace_normalize lib (voting stake score).*1) = length (voting stake score)) as Hl
    by (rewrite length_inplace_normalize; apply length_fmap).
  rewrite Hl.
  assert (replicate columns (replicate (length (voting stake score)) 0) =
    (fun c => (fun _ => []) c ++ replicate (length (voting stake score)) 0) <$> seq 0 columns) as ->.
  { symmetry. apply (fmap_const_seq (replicate _ 0)). }
  rewrite (fill_scores_eq columns stake score 0 (fun _ => [])) by done.
  by rewrite <- list_fmap_compose.
Qed.

(** On sparse rows the column-wise medians are those of
    the dense matrix, whatever the order of a row's entries and whether columns
    repeat, for every fixed-point library. *)
Theorem median_sparse_is_dense (stake : Vector) (score : SparseMatrix) (columns : nat) (majority : Z) :
  length stake = length score -> score <> [] ->
  weighted_median_col_sparse lib stake score columns majority =
  weighted_median_col lib stake (densify columns <$> score) majority.
Proof.
  intros Hlen Hne. rewrite median_col_sparse_eq by done. unfold weighted_median_col.
  assert (match densify columns <$> score with [] => 0%nat | r :: _ => length r end = columns) as ->
    by (destruct score; [done|apply length_densify]).
  apply list_fmap_ext. intros ? c _. cbn zeta. rewrite used_rows_eq by done.
  rewrite length_fmap, <- !list_fmap_compose. unfold compose. cbn [fst snd].
  fold (col_scores columns c (voting stake score)).
  destruct (Nat.eqb_spec (length (voting stake score)) 0) as [E|E]; [|done].
  apply nil_length_inv in E. rewrite E. unfold inplace_normalize. cbn. by destruct (fsum lib [] =? 0).
Qed.

Context `{!FixedLaws lib}.

(** The stake of all indices is the sum of the vector. *)
Lemma stake_of_all stake score :
  stake_of stake score (fun _ => true) (seq 0 (length stake)) = foldr Z.add 0 stake.
Proof.
  unfold stake_of. rewrite chosen_all by done. f_equal. apply list_eq. intros i. rewrite list_lookup_fmap.
  destruct (stake !! i) as [v|] eqn:Hv.
  - rewrite lookup_seq_lt by (by apply lookup_lt_Some in Hv). unfold get_safe. cbn. by rewrite Hv.
  - rewrite lookup_seq_ge; [done|]. by apply lookup_ge_None in Hv.
Qed.

(** (C10) The consensus of a column is the stake-weighted median
    of its scores: the least score such that the normalised stake of the
    validators up to it exceeds the minority, or the largest one if there is none.
    The loop never runs into its iteration limit. *)
Theorem consensus_is_median (stake : Vector) (score : SparseMatrix) (columns : nat) (majority : Z) (c : nat) :
  length stake = length score -> foldr Z.add 0 (filter (fun s => 0 < s) stake) <= FIXED_MAX ->
  Exists (fun s => 0 < s) stake -> (c < columns)%nat ->
  let rows := voting stake score in
  let use_stake := inplace_normalize lib rows.*1 in
  exists p, weighted_median_col_sparse lib stake score columns majority !! c = Some p /\
    is_median use_stake (col_scores columns c rows) (seq 0 (length rows))
      (fsub (foldr Z.add 0 use_stake) majority) p /\
    (forall q, is_median use_stake (col_scores columns c rows) (seq 0 (length rows))
      (fsub (foldr Z.add 0 use_stake) majority) q -> q = p).
Proof.
  intros Hlen Hfit Hex Hc rows use_stake.
  rewrite median_col_sparse_eq, list_lookup_fmap, lookup_seq_lt by done. fold rows. fold use_stake.
  rewrite <- voting_stake with (score := score) in Hfit by done. fold rows in Hfit.
  assert (nonnegs rows.*1) as Hn.
  { unfold rows. rewrite voting_stake by done. apply list.Forall_forall. intros x [? _]%list_elem_of_filter. lia. }
  assert (rows <> []) as Hne.
  { intros E. apply (f_equal (fmap fst)) in E. unfold rows in E. rewrite voting_stake in E by done.
    apply Exists_exists in Hex as (x & Hx & Hpos). exact (filter_nil_not_elem_of _ stake x E Hpos Hx). }
  pose proof (normalized_nonnegs rows.*1 Hn Hfit) as Hnn. pose proof (normalized_total rows.*1 Hn Hfit) as Ht.
  assert (length use_stake = length rows) as Hl
    by (unfold use_stake; rewrite length_inplace_normalize; apply length_fmap).
  fold use_stake in Hnn, Ht.
  assert (fsum lib use_stake = foldr Z.add 0 use_stake) as Hs
    by (apply fsum_nonneg; [done|etrans; [exact Ht|done]]).
  clearbody use_stake. rewrite <- Hl.
  assert (nonneg use_stake (seq 0 (length use_stake))) as Hpos.
  { intros i Hi%elem_of_seq. unfold get_safe. destruct (use_stake !! i) as [v|] eqn:Hv; [|done].
    by apply list_elem_of_lookup_2, (proj1 (list.Forall_forall _ _) Hnn) in Hv. }
  assert (is_median use_stake (col_scores columns c rows) (seq 0 (length use_stake))
    (fsub (foldr Z.add 0 use_stake) majority)
    (weighted_median use_stake (col_scores columns c rows) (seq 0 (length use_stake))
      (fsub (foldr Z.add 0 use_stake) majority) 0 (foldr Z.add 0 use_stake))) as Hm.
  { rewrite <- (stake_of_all use_stake (col_scores columns c rows)) at 3. apply weighted_median_ok; [done|..].
    - rewrite stake_of_all. etrans; [exact Ht|done].
    - rewrite Hl. unfold col_scores. by rewrite length_fmap.
    - rewrite Hl. by destruct rows. }
  eexists. split; [cbn; by rewrite Hs|]. split; [done|]. intros q Hq. by eapply is_median_unique.
Qed.
End columns.

(** Five validators, one of them without stake, and two columns. *)
Module Voting.
Definition stakes : Vector := [ONE; 2 * ONE; 0; ONE; 3 * ONE].
Definition scores : SparseMatrix :=
  [[(0%nat, ONE / 2); (1%nat, ONE / 4)]; [(1%nat, ONE)]; [(0%nat, ONE)]; [(0%nat, ONE / 8)];
   [(1%nat, ONE / 2); (0%nat, ONE / 2)]].

Lemma consensus_is_median_witness :
  weighted_median_col_sparse Exact.lib stakes scores 2 (ONE / 2) = [ONE / 2; ONE / 2] /\
  exists p, weighted_median_col_sparse Exact.lib stakes scores 2 (ONE / 2) !! 1%nat = Some p /\
    is_median (inplace_normalize Exact.lib (voting stakes scores).*1) (col_scores 2 1 (voting stakes scores))
      (seq 0 4) (fsub (foldr Z.add 0 (inplace_normalize Exact.lib (voting stakes scores).*1)) (ONE / 2)) p /\
    (forall q, is_median (inplace_normalize Exact.lib (voting stakes scores).*1)
      (col_scores 2 1 (voting stakes scores)) (seq 0 4)
      (fsub (foldr Z.add 0 (inplace_normalize Exact.lib (voting stakes scores).*1)) (ONE / 2)) q -> q = p).
Proof.
  split; [vm_compute; reflexivity|].
  apply (consensus_is_median Exact.lib stakes scores 2 (ONE / 2) 1);
    [reflexivity|vm_compute; discriminate|constructor; reflexivity|lia].
Defined.

Lemma median_sparse_is_dense_witness :
  weighted_median_col_sparse Exact.lib stakes scores 2 (ONE / 2) =
  weighted_median_col Exact.lib stakes (densify 2 <$> scores) (ONE / 2).
Proof. apply (median_sparse_is_dense Exact.lib stakes scores 2 (ONE / 2)); [reflexivity|discriminate]. Defined.
End Voting.
