(* ===== verification/EpochSparse.v ===== *)
(** * EpochSparse: the sparse routines compute what the dense ones do

    The epoch runs on sparse matrices; the dense routines of EpochMath.v are the
    plain reading of each formula.  [densify], by which the code itself spreads a
    sparse row, relates the two: every theorem says that spreading the result of a
    sparse routine gives the result of the dense one on the spread arguments. *)

From Stdlib Require Import ZArith Lia Sorting.Sorted.
From stdpp Require Import base list sets.
From S2P Require Import Prelude EpochMath EpochMathSpec EpochMedian.

(** ** Sparse rows *)

(** No column twice. *)
Definition distinct (row : SparseRow) : Prop := NoDup row.*1.

(** Columns in increasing order and below [columns], as the chain stores them. *)
Definition ordered (columns : nat) (row : SparseRow) : Prop :=
  StronglySorted lt row.*1 /\ Forall (fun j => (j < columns)%nat) row.*1.

(** The value of a column. *)
Definition entry (row : SparseRow) (j : nat) : Z :=
  foldr (fun e v => if decide (e.1 = j) then e.2 else v) 0 row.

Lemma entry_cons e row j : entry (e :: row) j = if decide (e.1 = j) then e.2 else entry row j.
Proof. done. Qed.

Lemma entry_none row j : j ∉ row.*1 -> entry row j = 0.
Proof.
  induction row as [|e row IH]; [done|]. rewrite fmap_cons, not_elem_of_cons, entry_cons. intros [Hne Hn].
  rewrite decide_False by congruence. auto.
Qed.

Lemma entry_elem row j v : distinct row -> (j, v) ∈ row -> entry row j = v.
Proof.
  unfold distinct. induction row as [|e row IH]; [by intros _ ?%not_elem_of_nil|].
  rewrite fmap_cons, NoDup_cons, entry_cons. intros [Hn Hd] [<-|Hin]%elem_of_cons; [by rewrite decide_True|].
  rewrite decide_False; [auto|]. intros <-. apply Hn. by apply (list_elem_of_fmap_2 fst row (e.1, v)).
Qed.

Lemma StronglySorted_lt_NoDup (l : list nat) : StronglySorted lt l -> NoDup l.
Proof.
  induction 1 as [|x l Hs IH Hx]; constructor; [|done]. intros Hin.
  apply (proj1 (list.Forall_forall _ _) Hx) in Hin. lia.
Qed.

Lemma ordered_distinct columns row : ordered columns row -> distinct row.
Proof. intros [H _]. by apply StronglySorted_lt_NoDup. Qed.

(** A loop that updates a cell per entry of a row. *)
Lemma scatter_lookup {A} (f : A -> Z -> A) (acc : list A) row j :
  distinct row ->
  foldl (fun acc e => alter (fun a => f a e.2) e.1 acc) acc row !! j =
  (if decide (j ∈ row.*1) then fun a => f a (entry row j) else id) <$> acc !! j.
Proof.
  unfold distinct. revert acc. induction row as [|e row IH]; intros acc Hd.
  { cbn [foldl]. rewrite decide_False by apply not_elem_of_nil. by rewrite option_fmap_id. }
  rewrite fmap_cons in *. apply NoDup_cons in Hd as [Hn Hd]. cbn [foldl]. rewrite IH, entry_cons by done.
  destruct (decide (e.1 = j)) as [<-|Hne].
  - rewrite list_lookup_alter_eq, decide_False by done.
    rewrite decide_True by constructor. by rewrite option_fmap_id.
  - rewrite list_lookup_alter_ne by done. do 2 case_decide; set_solver.
Qed.

Lemma densify_lookup columns row j :
  distinct row -> densify columns row !! j = if decide (j < columns)%nat then Some (entry row j) else None.
Proof.
  intros Hd. unfold densify. rewrite (scatter_lookup (fun _ v => v)) by done.
  destruct (decide (j < columns)%nat) as [Hj|Hj].
  - rewrite lookup_replicate_2 by done. case_decide; simpl; [done|]. by rewrite entry_none.
  - by rewrite lookup_ge_None_2 by (rewrite length_replicate; lia).
Qed.

Lemma densify_eq columns row : distinct row -> densify columns row = entry row <$> seq 0 columns.
Proof.
  intros Hd. apply list_eq. intros j. rewrite densify_lookup, list_lookup_fmap by done.
  case_decide; [by rewrite lookup_seq_lt by done|by rewrite lookup_seq_ge by lia].
Qed.

(** A routine that changes or drops entries. *)
Section transform.
Context (h : nat * Z -> option (nat * Z)).
Context (g : nat -> Z -> Z).

Definition keeps_column (row : SparseRow) : Prop :=
  forall e, e ∈ row -> match h e with Some e' => e'.1 = e.1 /\ e'.2 = g e.1 e.2 | None => g e.1 e.2 = 0 end.

Lemma omap_columns row : keeps_column row -> (omap h row).*1 `sublist_of` row.*1.
Proof.
  induction row as [|e row IH]; intros Hk; [done|].
  assert (keeps_column row) as Hk' by (intros e' He'; apply Hk; by constructor).
  pose proof (Hk e ltac:(constructor)) as He. cbn. destruct (h e) as [e'|]; [|by apply sublist_cons, IH].
  destruct He as [E _]. cbn. rewrite E. by apply sublist_skip, IH.
Qed.

Lemma distinct_omap row : keeps_column row -> distinct row -> distinct (omap h row).
Proof. intros Hk Hd. eapply sublist_NoDup; [exact Hd|by apply omap_columns]. Qed.

Lemma entry_omap row j :
  keeps_column row -> distinct row ->
  entry (omap h row) j = if decide (j ∈ row.*1) then g j (entry row j) else 0.
Proof.
  unfold distinct. intros Hk. induction row as [|e row IH]; intros Hd; [done|].
  assert (keeps_column row) as Hk' by (intros e' He'; apply Hk; by constructor).
  pose proof (Hk e ltac:(constructor)) as He. rewrite fmap_cons in *. apply NoDup_cons in Hd as [Hn Hd].
  rewrite entry_cons. cbn [omap list_omap]. destruct (decide (e.1 = j)) as [<-|Hne].
  - rewrite decide_True by constructor. destruct (h e) as [e'|].
    + destruct He as [E1 E2]. by rewrite entry_cons, E1, decide_True.
    + by rewrite IH, He, decide_False.
  - assert (entry (omap h row) j = if decide (j ∈ e.1 :: row.*1) then g j (entry row j) else 0) as E
      by (rewrite IH by done; do 2 case_decide; set_solver).
    destruct (h e) as [e'|]; [|done]. destruct He as [E1 _]. by rewrite entry_cons, E1, decide_False.
Qed.

Lemma densify_omap columns row :
  keeps_column row -> (forall k, g k 0 = 0) -> distinct row ->
  densify columns (omap h row) = imap g (densify columns row).
Proof.
  intros Hk Hz Hd. apply list_eq. intros j.
  rewrite list_lookup_imap, !densify_lookup by (done || by apply distinct_omap).
  case_decide; [|done]. cbn. rewrite entry_omap by done. case_decide; [done|]. by rewrite entry_none, Hz.
Qed.
End transform.

Lemma zip_into_lookup f acc row j :
  zip_into f acc row !! j =
  match acc !! j, row !! j with Some a, Some v => Some (f a v) | o, _ => o end.
Proof.
  revert row j. induction acc as [|a acc IH]; intros [|v row] [|j]; try done; cbn.
  - by destruct (acc !! j).
  - apply IH.
Qed.

Lemma length_zip_into f acc row : length (zip_into f acc row) = length acc.
Proof. revert row. induction acc as [|a acc IH]; intros [|v row]; simpl; auto. Qed.

(** The sparse loop that accumulates a row is the dense one. *)
Lemma scatter_zip (P : Z -> Prop) (f : Z -> Z -> Z) (acc : Vector) row :
  distinct row -> Forall P acc -> (forall a, P a -> f a 0 = a) ->
  foldl (fun acc e => alter (fun a => f a e.2) e.1 acc) acc row = zip_into f acc (densify (length acc) row).
Proof.
  intros Hd HP Hz. apply list_eq. intros j. rewrite scatter_lookup, zip_into_lookup, densify_lookup by done.
  destruct (acc !! j) as [a|] eqn:Ha; [|done].
  rewrite (decide_True (P := (j < length acc)%nat)) by (by eapply lookup_lt_Some). cbn.
  destruct (decide (j ∈ row.*1)); [done|]. rewrite entry_none, Hz; [done|by eapply Forall_lookup_1|done].
Qed.

Lemma Forall_zip_into (P : Z -> Prop) f acc row :
  (forall a v, P a -> v ∈ row -> P (f a v)) -> Forall P acc -> Forall P (zip_into f acc row).
Proof.
  intros Hf HP. apply list.Forall_forall. intros x Hx. apply list_elem_of_lookup_1 in Hx as [j Hj].
  rewrite zip_into_lookup in Hj. destruct (acc !! j) as [a|] eqn:Ha; [|done].
  assert (P a) by (by eapply Forall_lookup_1). destruct (row !! j) as [v|] eqn:Hv; simplify_eq; [|done].
  apply Hf; [done|by eapply list_elem_of_lookup_2].
Qed.

Lemma fadd_fixed a b : is_fixed (fadd a b).
Proof. unfold is_fixed, fadd, clamp, FIXED_MIN, FIXED_MAX. lia. Qed.

Lemma fadd_0_r a : is_fixed a -> fadd a 0 = a.
Proof. unfold is_fixed, fadd, clamp. lia. Qed.

Lemma fadd_0_l a : is_fixed a -> fadd 0 a = a.
Proof. unfold is_fixed, fadd, clamp. lia. Qed.

Lemma zero_fixed : is_fixed 0.
Proof. by unfold is_fixed, FIXED_MIN, FIXED_MAX. Qed.

Lemma zeros_fixed n : Forall is_fixed (replicate n 0).
Proof. apply Forall_replicate, zero_fixed. Qed.

(** Spreading a matrix row by row. *)
Abbreviation dense columns m := (densify columns <$> (m : SparseMatrix)).

Lemma while_next_fmap {A A' B C C'} (f : B -> A -> C) (f' : B -> A' -> C') (d : A -> A') (r : C -> C') rows vec :
  (forall x row, row ∈ rows -> r (f x row) = f' x (d row)) ->
  r <$> while_next f rows vec = while_next f' (d <$> rows) vec.
Proof.
  intros H. revert vec. induction rows as [|row rows IH]; intros [|x vec]; try done.
  cbn. f_equal; [apply H; constructor|]. apply IH. intros y row' Hr. apply H. by constructor.
Qed.

Section products.
Context {lib : FixedLib} `{!FixedLaws lib}.
Context (columns : nat) (m : SparseMatrix).
Hypothesis columns_some : columns <> 0%nat.
Hypothesis rows_some : m <> [].

Lemma fmul_0_l a : fmul lib 0 a = 0.
Proof. by rewrite fmul_comm, fmul_zero. Qed.

(** The first row of the spread matrix has a column. *)
Lemma dense_cons : exists v row rows, dense columns m = (v :: row) :: rows /\ length (v :: row) = columns.
Proof.
  destruct m as [|row rows]; [done|]. cbn. pose proof (length_densify columns row) as Hl.
  destruct (densify columns row) as [|v row']; [simpl in Hl; lia|by exists v, row', (dense columns rows)].
Qed.

Lemma matmul_sparse_dense vector :
  Forall distinct m -> matmul_sparse lib m vector columns = matmul lib (dense columns m) vector.
Proof.
  intros Hd. destruct dense_cons as (v & row & rows & E & Hl). unfold matmul. rewrite E. rewrite Hl.
  rewrite (proj2 (Nat.eqb_neq _ _) columns_some). rewrite <- E. clear E Hl v row rows rows_some.
  unfold matmul_sparse. pose proof (zeros_fixed columns) as Hf. pose proof (length_replicate columns 0) as Hl.
  revert Hf Hl. generalize (replicate columns 0). revert vector.
  induction Hd as [|row rows Hr Hd IH]; intros vector acc Hf Hl; [done|].
  assert (forall s, foldl (fun result e => alter (fun r => fadd r (fmul lib s e.2)) e.1 result) acc row =
    zip_into (fun a m_val => fadd a (fmul lib s m_val)) acc (densify columns row)) as Hz.
  { intros s. rewrite <- Hl. apply (scatter_zip is_fixed (fun a v => fadd a (fmul lib s v))); [done|done|].
    intros a Ha. rewrite fmul_zero. by apply fadd_0_r. }
  assert (forall s, Forall is_fixed (zip_into (fun a m_val => fadd a (fmul lib s m_val)) acc (densify columns row))) as HF.
  { intros s. apply Forall_zip_into; [intros; apply fadd_fixed|done]. }
  cbn. destruct vector; rewrite Hz; apply IH; rewrite ?length_zip_into; auto.
Qed.

(** One row: the products of the missing columns add nothing. *)
Lemma dot_sparse vector w n k acc row :
  (forall j, (k <= j)%nat -> w j = entry row j) ->
  StronglySorted lt row.*1 -> Forall (fun j => (k <= j < k + n)%nat) row.*1 -> is_fixed acc ->
  foldl (fun acc e => fadd acc (fmul lib (default 0 (vector !! e.1)) e.2)) acc row =
  foldl (fun acc j => fadd acc (fmul lib (w j) (get_safe vector j))) acc (seq k n).
Proof.
  revert k acc row. induction n as [|n IH]; intros k acc row Hw Hs Hin Hf.
  { destruct row as [|e row]; [done|]. apply Forall_cons in Hin as [? _]. lia. }
  cbn [seq foldl]. rewrite (Hw k) by lia. destruct (decide (k ∈ row.*1)) as [Hk|Hk].
  - destruct row as [|e row]; [by apply not_elem_of_nil in Hk|]. rewrite fmap_cons in *.
    apply Forall_cons in Hin as [He Hin]. apply StronglySorted_inv in Hs as [Hs Hlt].
    rewrite list.Forall_forall in Hin, Hlt.
    assert (e.1 = k) as Ek by (apply elem_of_cons in Hk as [->|Hk]; [done|apply Hlt in Hk; lia]).
    cbn [foldl]. rewrite entry_cons, decide_True, Ek, (fmul_comm e.2) by done.
    apply IH; [|done| |apply fadd_fixed].
    + intros j Hj. rewrite Hw, entry_cons, decide_False by lia. done.
    + apply list.Forall_forall. intros j Hj. specialize (Hin j Hj). specialize (Hlt j Hj). lia.
  - rewrite entry_none, fmul_0_l, fadd_0_r by done. apply IH; [intros; apply Hw; lia|done| |done].
    rewrite list.Forall_forall in *. intros j Hj. specialize (Hin j Hj).
    assert (j <> k) by congruence. lia.
Qed.

Lemma dot_zip acc row vector :
  dot lib acc row vector = foldl (fun acc p => fadd acc (fmul lib p.1 p.2)) acc (zip row vector).
Proof. revert acc vector. induction row as [|v row IH]; intros acc [|x vector]; cbn; auto. Qed.

Lemma matmul_transpose_sparse_dense vector :
  Forall (ordered columns) m -> length vector = columns ->
  matmul_transpose_sparse lib m vector = matmul_transpose lib (dense columns m) vector.
Proof.
  intros Ho Hv. destruct dense_cons as (v & row & rows & E & _). unfold matmul_transpose. rewrite E. rewrite <- E.
  rewrite <- list_fmap_compose. apply list_fmap_ext. intros i r Hr%list_elem_of_lookup_2.
  apply (proj1 (list.Forall_forall _ _) Ho) in Hr as [Hs Hin]. cbn.
  rewrite (dot_sparse vector (entry r) columns 0); [|done|done| |apply zero_fixed].
  - rewrite dot_zip, <- foldl_fmap with (g := fun j => (entry r j, get_safe vector j))
      (f := fun acc p => fadd acc (fmul lib p.1 p.2)).
    f_equal. rewrite densify_eq by (by apply StronglySorted_lt_NoDup). apply list_eq. intros j.
    rewrite lookup_zip_with, !list_lookup_fmap. destruct (decide (j < columns)%nat).
    + rewrite lookup_seq_lt by done. unfold get_safe. cbn.
      assert (is_Some (vector !! j)) as [x ->] by (apply lookup_lt_is_Some; lia). done.
    + by rewrite lookup_seq_ge by lia.
  - eapply Forall_impl; [exact Hin|]. cbn. intros; lia.
Qed.

Lemma row_hadamard_sparse_dense vector :
  Forall distinct m -> dense columns (row_hadamard_sparse lib m vector) = row_hadamard lib (dense columns m) vector.
Proof.
  intros Hd. destruct dense_cons as (v & row & rows & E & _). unfold row_hadamard. rewrite E. rewrite <- E.
  apply while_next_fmap. intros scale r Hr. apply (proj1 (list.Forall_forall _ _) Hd) in Hr.
  rewrite list_fmap_alt, (densify_omap _ (fun _ x => fmul lib scale x)).
  - apply imap_const.
  - intros e _. cbn. by rewrite fmul_comm.
  - intros. apply fmul_zero.
  - done.
Qed.
End products.

(** On rows with increasing columns the sparse
    products are the dense ones: the column sums of the rows scaled by a vector,
    the row sums of the columns scaled by a vector, and the scaled rows.
    Saturating sums agree because the additions happen in the same order. *)
Theorem sparse_products_are_dense (lib : FixedLib) (laws : FixedLaws lib) (columns : nat) (m : SparseMatrix)
    (rowvec colvec : Vector) :
  columns <> 0%nat -> m <> [] -> Forall (ordered columns) m -> length colvec = columns ->
  matmul_sparse lib m rowvec columns = matmul lib (dense columns m) rowvec /\
  matmul_transpose_sparse lib m colvec = matmul_transpose lib (dense columns m) colvec /\
  dense columns (row_hadamard_sparse lib m rowvec) = row_hadamard lib (dense columns m) rowvec.
Proof.
  intros Hc Hm Ho Hv.
  assert (Forall distinct m) as Hd by (eapply Forall_impl; [exact Ho|apply ordered_distinct]).
  split; [by apply matmul_sparse_dense|split; [by apply matmul_transpose_sparse_dense|by apply row_hadamard_sparse_dense]].
Qed.

Section masks.
Context (columns : nat) (m : SparseMatrix).
Hypothesis rows_distinct : Forall distinct m.

Lemma dense_lookup i : dense columns m !! i = densify columns <$> m !! i.
Proof. apply list_lookup_fmap. Qed.

Lemma row_distinct i row : m !! i = Some row -> distinct row.
Proof. intros H. by eapply Forall_lookup_1 in H. Qed.

(** Dropping entries. *)
Lemma densify_filter (P : nat * Z -> Prop) `{!forall e, Decision (P e)} (keep : nat -> bool) row :
  distinct row -> (forall e, e ∈ row -> P e <-> keep e.1 = true) ->
  densify columns (filter P row) = imap (fun j v => if keep j then v else 0) (densify columns row).
Proof.
  intros Hd HP. rewrite omap_filter. apply densify_omap; [|by intros k; destruct (keep k)|done].
  intros e He. specialize (HP e He). case_decide as E; destruct (keep e.1); naive_solver.
Qed.

Lemma mask_rows_dense mask :
  dense columns (mask_rows_sparse mask m) = inplace_mask_rows mask (dense columns m).
Proof.
  unfold mask_rows_sparse, inplace_mask_rows. destruct (dense columns m) as [|first rows] eqn:E.
  { by destruct m. }
  assert (length first = columns) as -> by (destruct m; [done|]; injection E as <- _; apply length_densify).
  rewrite <- E. apply list_eq. intros i. rewrite list_lookup_fmap, !list_lookup_imap, dense_lookup.
  destruct (m !! i); [|done]. cbn. by case_match.
Qed.

Lemma alter_zero_imap (row : Vector) i :
  alter (fun _ => 0) i row = imap (fun j v => if negb (bool_decide (i = j)) then v else 0) row.
Proof.
  apply list_eq. intros j. rewrite list_lookup_imap, list_lookup_alter. case_decide as E.
  - subst. rewrite bool_decide_true by done. by destruct (row !! j).
  - rewrite bool_decide_false by done. by destruct (row !! j).
Qed.

Context (square : length m = columns).

Lemma dense_square first rows :
  dense columns m = first :: rows -> length (dense columns m) = length first.
Proof.
  intros E. rewrite length_fmap, square. destruct m; [done|]. injection E as <- _. symmetry. apply length_densify.
Qed.

Lemma inplace_mask_diag_eq :
  inplace_mask_diag (dense columns m) = imap (fun i row => alter (fun _ => 0) i row) (dense columns m).
Proof.
  unfold inplace_mask_diag. destruct (dense columns m) as [|first rows] eqn:E; [done|].
  pose proof (dense_square _ _ E) as Hl. rewrite E in Hl. destruct first as [|v first]; [done|].
  rewrite (proj2 (Nat.eqb_eq _ _) Hl). done.
Qed.

Lemma mask_diag_dense : dense columns (mask_diag_sparse m) = inplace_mask_diag (dense columns m).
Proof.
  rewrite inplace_mask_diag_eq. apply list_eq. intros i. unfold mask_diag_sparse.
  rewrite list_lookup_fmap, !list_lookup_imap, dense_lookup. destruct (m !! i) as [row|] eqn:Hr; [|done]. cbn.
  f_equal. rewrite alter_zero_imap. apply densify_filter; [by eapply row_distinct|].
  intros e _. by rewrite negb_true_iff, bool_decide_eq_false.
Qed.

Lemma mask_diag_except_dense except :
  dense columns (mask_diag_sparse_except_index m except) =
  inplace_mask_diag_except_index (dense columns m) except.
Proof.
  transitivity (alter (alter (fun value =>
      default value (row ← dense columns m !! except; row !! except)) except) except
    (inplace_mask_diag (dense columns m))).
  - rewrite inplace_mask_diag_eq. apply list_eq. intros i. unfold mask_diag_sparse_except_index.
    rewrite list_lookup_fmap, list_lookup_imap, list_lookup_alter, !list_lookup_imap, dense_lookup.
    destruct (decide (except = i)) as [->|Hne].
    + rewrite ?dense_lookup. destruct (m !! i) as [row|] eqn:Hr; [|done]. cbn. f_equal.
      rewrite filter_all by (intros e _; destruct (decide (e.1 = i)); [by right|left; congruence]).
      apply list_eq. intros j. rewrite list_lookup_alter. case_decide as E; [|by rewrite list_lookup_alter_ne].
      rewrite E, list_lookup_alter_eq. by destruct (_ !! j).
    + rewrite ?dense_lookup. destruct (m !! i) as [row|] eqn:Hr; [|done]. cbn. f_equal. rewrite alter_zero_imap.
      apply densify_filter; [by eapply row_distinct|]. intros e _.
      rewrite negb_true_iff, bool_decide_eq_false. naive_solver.
  - unfold inplace_mask_diag_except_index. destruct (dense columns m) as [|first rows] eqn:E; [done|].
    pose proof (dense_square _ _ E) as Hl. rewrite E in Hl. destruct first as [|v first]; [done|].
    rewrite (proj2 (Nat.eqb_eq _ _) Hl). done.
Qed.
End masks.

Lemma densify_row_fmap columns (f : SparseRow -> SparseRow) (g : Vector -> Vector) m :
  (forall row, row ∈ m -> densify columns (f row) = g (densify columns row)) ->
  dense columns (f <$> m) = g <$> dense columns m.
Proof.
  intros H. rewrite <- !list_fmap_compose. apply list_fmap_ext. intros i row Hr%list_elem_of_lookup_2. by apply H.
Qed.

Lemma zip_into_imap f (row vec : Vector) :
  (length row <= length vec)%nat -> zip_into f row vec = imap (fun j v => f v (get_safe vec j)) row.
Proof.
  intros Hl. apply list_eq. intros j. rewrite zip_into_lookup, list_lookup_imap.
  destruct (row !! j) as [v|] eqn:Hv; [|done]. unfold get_safe.
  assert (is_Some (vec !! j)) as [x ->] by (apply lookup_lt_is_Some; apply lookup_lt_Some in Hv; lia). done.
Qed.

Lemma col_clip_dense columns m col_threshold :
  Forall distinct m -> nonnegs col_threshold -> (columns <= length col_threshold)%nat ->
  dense columns (col_clip_sparse m col_threshold) = inplace_col_clip (dense columns m) col_threshold.
Proof.
  intros Hd Hth Hl. apply densify_row_fmap. intros row Hr. apply (proj1 (list.Forall_forall _ _) Hd) in Hr.
  assert (forall j, 0 <= get_safe col_threshold j) as Hpos.
  { intros j. unfold get_safe. destruct (_ !! j) as [x|] eqn:Hx; [|done]. by eapply Forall_lookup_1 in Hx. }
  rewrite zip_into_imap by (rewrite length_densify; lia). apply densify_omap; [|intros j; specialize (Hpos j); lia|done].
  intros e _. specialize (Hpos e.1). unfold clip_entry. fold (get_safe col_threshold e.1).
  repeat case_match; simplify_eq; cbn; lia.
Qed.

(** The mask that two vectors and a test describe. *)
Definition mask_of (first second : Vector) (mask_fn : Z -> Z -> bool) : list (list bool) :=
  (fun f => mask_fn f <$> second) <$> first.

Lemma with_next_lookup {A B} (f : B -> A -> A) d rows vec i :
  with_next f d rows vec !! i = f (default d (vec !! i)) <$> rows !! i.
Proof.
  revert vec i. induction rows as [|row rows IH]; intros [|v vec] [|i]; try done; cbn; rewrite IH; done.
Qed.

Lemma vec_mask_dense columns m first second mask_fn :
  Forall distinct m -> columns <> 0%nat -> length first = length m -> length second = columns ->
  dense columns (vec_mask_sparse_matrix m first second mask_fn) =
  inplace_mask_matrix (mask_of first second mask_fn) (dense columns m).
Proof.
  intros Hd Hc Hf Hs.
  transitivity (imap (fun r row => imap (fun c val =>
      if default true (mask_row ← mask_of first second mask_fn !! r; mask_row !! c) : bool then 0 else val) row)
    (dense columns m)).
  - apply list_eq. intros i. unfold vec_mask_sparse_matrix, mask_of.
    rewrite list_lookup_fmap, with_next_lookup, !list_lookup_imap, !list_lookup_fmap.
    destruct (m !! i) as [row|] eqn:Hr; [|done]. cbn. f_equal.
    assert (is_Some (first !! i)) as [f Hfi] by (apply lookup_lt_is_Some; apply lookup_lt_Some in Hr; lia).
    rewrite Hfi. cbn. eapply Forall_lookup_1 in Hr; [|done].
    etransitivity; [apply (densify_filter columns _ (fun j => negb (mask_fn f (get_safe second j))) row)|].
    + done.
    + intros e _. by rewrite negb_true_iff.
    + apply imap_ext. intros j v Hv. rewrite list_lookup_fmap.
      assert (is_Some (second !! j)) as [s Hsj]
        by (apply lookup_lt_is_Some; apply lookup_lt_Some in Hv; rewrite length_densify in Hv; lia).
      unfold get_safe. rewrite Hsj. cbn. by destruct (mask_fn f s).
  - unfold inplace_mask_matrix, mask_of. destruct m as [|row m'], first as [|f first]; try done.
    by destruct second as [|s second].
Qed.

(** Masking rows, the diagonal of a square matrix, the
    diagonal but for one entry, or the cells that two vectors and a test choose,
    and clipping each column at a threshold without negative entries, all agree
    with the dense routines. *)
Theorem sparse_masks_are_dense (columns : nat) (m : SparseMatrix) (mask : list bool) (except : nat)
    (first second th : Vector) (mask_fn : Z -> Z -> bool) :
  columns <> 0%nat -> Forall distinct m -> length m = columns ->
  length first = length m -> length second = columns -> nonnegs th -> (columns <= length th)%nat ->
  dense columns (mask_rows_sparse mask m) = inplace_mask_rows mask (dense columns m) /\
  dense columns (mask_diag_sparse m) = inplace_mask_diag (dense columns m) /\
  dense columns (mask_diag_sparse_except_index m except) = inplace_mask_diag_except_index (dense columns m) except /\
  dense columns (vec_mask_sparse_matrix m first second mask_fn) =
    inplace_mask_matrix (mask_of first second mask_fn) (dense columns m) /\
  dense columns (col_clip_sparse m th) = inplace_col_clip (dense columns m) th.
Proof.
  intros. split; [by apply mask_rows_dense|]. split; [by apply mask_diag_dense|].
  split; [by apply mask_diag_except_dense|]. split; [by apply vec_mask_dense|by apply col_clip_dense].
Qed.

(** ** Sums and normalisation *)

Lemma total_update (w : nat -> Z) k v a n :
  (a <= k < a + n)%nat ->
  total ((fun j => if decide (k = j) then v else w j) <$> seq a n) = total (w <$> seq a n) + v - w k.
Proof.
  revert a. induction n as [|n IH]; intros a Hk; [lia|]. cbn [seq fmap list_fmap foldr].
  destruct (decide (k = a)) as [<-|Hne]; [|rewrite IH by lia; lia].
  enough (total ((fun j => if decide (k = j) then v else w j) <$> seq (S k) n) = total (w <$> seq (S k) n)) by lia.
  f_equal. apply list_fmap_ext. intros i j Hj%list_elem_of_lookup_2%elem_of_seq. rewrite decide_False by lia. done.
Qed.

Lemma total_entries row n :
  distinct row -> Forall (fun j => (j < n)%nat) row.*1 -> total (entry row <$> seq 0 n) = total row.*2.
Proof.
  unfold distinct. induction row as [|e row IH]; intros Hd Hin.
  { cbn. clear. generalize 0%nat as a. induction n as [|n IH]; intros a; [done|apply IH]. }
  rewrite fmap_cons in *. apply NoDup_cons in Hd as [Hn Hd]. apply Forall_cons in Hin as [He Hin].
  change (entry (e :: row)) with (fun j => if decide (e.1 = j) then e.2 else entry row j).
  rewrite total_update, IH, entry_none by (done || lia). cbn. lia.
Qed.

(** Values that are not negative. *)
Definition in_bounds (row : SparseRow) : Prop := Forall (fun e => 0 <= e.2 <= FIXED_MAX) row.

Lemma entry_bounds row j : in_bounds row -> 0 <= entry row j <= FIXED_MAX.
Proof. induction 1 as [|e row He Hr IH]; [done|]. rewrite entry_cons. by case_decide. Qed.

Lemma densify_bounds columns row v : distinct row -> in_bounds row -> v ∈ densify columns row -> 0 <= v <= FIXED_MAX.
Proof.
  intros Hd Hb. rewrite densify_eq by done. intros (j & -> & _)%list_elem_of_fmap. by apply entry_bounds.
Qed.

(** Column sums and maxima of a whole matrix. *)
Lemma scatter_rows (P : Z -> Prop) (f : Z -> Z -> Z) columns m acc :
  Forall distinct m -> Forall in_bounds m -> length acc = columns -> Forall P acc ->
  (forall a, P a -> f a 0 = a) -> (forall a v, P a -> 0 <= v <= FIXED_MAX -> P (f a v)) ->
  foldl (foldl (fun acc e => alter (fun a => f a e.2) e.1 acc)) acc m = foldl (zip_into f) acc (dense columns m) /\
  length (foldl (zip_into f) acc (dense columns m)) = columns /\
  Forall P (foldl (zip_into f) acc (dense columns m)).
Proof.
  intros Hd Hb Hl HP Hz Hf. revert acc Hl HP. induction m as [|row m IH]; intros acc Hl HP; [done|].
  apply Forall_cons in Hd as [Hr Hd]. apply Forall_cons in Hb as [Hrb Hb]. cbn.
  rewrite (scatter_zip P), Hl by done. apply IH; [done|done|by rewrite length_zip_into|].
  apply Forall_zip_into; [|done]. intros a v Ha Hv. apply Hf; [done|by eapply densify_bounds].
Qed.

(** The dense sums start with an empty accumulator and grow it. *)
Lemma dense_sums columns m :
  m <> [] ->
  foldl (fun col_sums row =>
      let col_sums := if (length col_sums <? length row)%nat
                      then col_sums ++ replicate (length row - length col_sums) 0 else col_sums in
      zip_into fadd col_sums row) [] (dense columns m) =
  foldl (zip_into fadd) (replicate columns 0) (dense columns m).
Proof.
  assert (forall acc, length acc = columns ->
    foldl (fun col_sums row =>
      let col_sums := if (length col_sums <? length row)%nat
                      then col_sums ++ replicate (length row - length col_sums) 0 else col_sums in
      zip_into fadd col_sums row) acc (dense columns m) = foldl (zip_into fadd) acc (dense columns m)) as H.
  { induction m as [|row m' IH]; intros acc Hl; [done|].
    cbn [foldl fmap list_fmap]. cbn zeta. rewrite length_densify, Hl, Nat.ltb_irrefl.
    apply IH. by rewrite length_zip_into. }
  destruct m as [|row m']; [done|]. intros _. rewrite <- H by apply length_replicate. cbn [foldl fmap list_fmap].
  cbn zeta. rewrite length_densify, length_replicate, Nat.ltb_irrefl. f_equal. f_equal. by destruct columns.
Qed.

Lemma dense_widths columns m : m <> [] -> foldr Nat.max 0%nat (length <$> dense columns m) = columns.
Proof.
  assert (foldr Nat.max 0%nat (length <$> dense columns m) = if decide (m = []) then 0%nat else columns) as ->.
  { induction m as [|row m IH]; [done|]. cbn [fmap list_fmap foldr]. rewrite length_densify, IH.
    rewrite (decide_False (P := row :: m = [])) by done. case_decide; lia. }
  intros H. by rewrite decide_False.
Qed.

Section normalisation.
Context {lib : FixedLib} `{!FixedLaws lib}.
Context (columns : nat) (m : SparseMatrix).
Hypothesis columns_some : columns <> 0%nat.
Hypothesis rows_some : m <> [].
Hypothesis rows_ordered : Forall (ordered columns) m.
Hypothesis rows_bounds : Forall in_bounds m.
Hypothesis rows_fit : Forall (fun row => total row.*2 <= FIXED_MAX) m.

Lemma rows_distinct' : Forall distinct m.
Proof. eapply Forall_impl; [exact rows_ordered|apply ordered_distinct]. Qed.

Lemma row_facts row :
  row ∈ m -> distinct row /\ in_bounds row /\ fsum lib (densify columns row) = fsum lib row.*2 /\
  0 <= fsum lib row.*2 <= FIXED_MAX.
Proof.
  intros Hr. pose proof (proj1 (list.Forall_forall _ _) rows_ordered row Hr) as Ho.
  pose proof (proj1 (list.Forall_forall _ _) rows_bounds row Hr) as Hb.
  pose proof (proj1 (list.Forall_forall _ _) rows_fit row Hr) as Hf. cbn in Hf.
  pose proof (ordered_distinct _ _ Ho) as Hd. destruct Ho as [_ Hin].
  assert (nonnegs row.*2) as Hn.
  { apply Forall_fmap. eapply Forall_impl; [exact Hb|]. cbn. lia. }
  assert (nonnegs (densify columns row)) as Hn'.
  { apply list.Forall_forall. intros v Hv. by eapply densify_bounds. }
  assert (total (densify columns row) = total row.*2) as Ht by (rewrite densify_eq by done; by apply total_entries).
  pose proof (total_nonneg _ Hn). rewrite !fsum_nonneg by (done || lia). done.
Qed.

Lemma row_sum_dense : row_sum_sparse lib m = row_sum lib (dense columns m).
Proof.
  destruct (dense_cons columns m columns_some rows_some) as (v & row & rows & E & _).
  unfold row_sum. rewrite E. rewrite <- E. unfold row_sum_sparse. rewrite <- list_fmap_compose.
  apply list_fmap_ext. intros i r Hr%list_elem_of_lookup_2. symmetry. by apply row_facts.
Qed.

Lemma row_normalize_dense :
  dense columns (inplace_row_normalize_sparse lib m) = inplace_row_normalize lib (dense columns m).
Proof.
  apply densify_row_fmap. intros row Hr. destruct (row_facts row Hr) as (Hd & _ & -> & Hs).
  cbn zeta. destruct (Z.ltb_spec 0 (fsum lib row.*2)); [|done].
  rewrite list_fmap_alt, (densify_omap _ (fun _ v => safe_div lib v (fsum lib row.*2))).
  - apply imap_const.
  - done.
  - intros. apply safe_div_zero. lia.
  - done.
Qed.

(** Dividing each entry by what its column has in a vector. *)
Lemma col_div_dense sums :
  length sums = columns -> Forall (fun s => 0 <= s <= FIXED_MAX) sums ->
  dense columns ((fun sparse_row : SparseRow =>
    (fun e => (e.1, div_unless_zero lib e.2 (default 0 (sums !! e.1)))) <$> sparse_row) <$> m) =
  (fun row => zip_into (div_unless_zero lib) row sums) <$> dense columns m.
Proof.
  intros Hl Hs. apply densify_row_fmap. intros row Hr. destruct (row_facts row Hr) as (Hd & _).
  rewrite zip_into_imap by (rewrite length_densify; lia).
  rewrite list_fmap_alt, (densify_omap _ (fun j v => div_unless_zero lib v (get_safe sums j))); [done|done| |done].
  intros j. unfold div_unless_zero. case_match; [done|]. apply safe_div_zero. unfold get_safe in *.
  destruct (sums !! j) as [s|] eqn:Hj; [|done]. eapply Forall_lookup_1 in Hj; [|done]. cbn in *. lia.
Qed.

Lemma col_normalize_dense :
  dense columns (inplace_col_normalize_sparse lib m columns) = inplace_col_normalize lib (dense columns m).
Proof.
  unfold inplace_col_normalize_sparse, inplace_col_normalize. rewrite dense_sums by done.
  destruct (scatter_rows (fun a => 0 <= a <= FIXED_MAX) fadd columns m (replicate columns 0)) as (E & Hl & HP);
    [apply rows_distinct'|done|apply length_replicate|by apply Forall_replicate| | |].
  - intros a Ha. apply fadd_0_r. unfold is_fixed, FIXED_MIN. lia.
  - intros a v Ha Hv. unfold fadd, clamp, FIXED_MIN, FIXED_MAX in *. lia.
  - rewrite E, col_div_dense by done. rewrite decide_False; [done|]. intros Hnil. rewrite Hnil in Hl. simpl in Hl. lia.
Qed.

Lemma col_max_dense :
  dense columns (inplace_col_max_upscale_sparse lib m columns) = inplace_col_max_upscale lib (dense columns m).
Proof.
  unfold inplace_col_max_upscale_sparse, inplace_col_max_upscale. rewrite dense_widths by done.
  rewrite (proj2 (Nat.eqb_neq _ _) columns_some).
  destruct (scatter_rows (fun a => 0 <= a <= FIXED_MAX) keep_max columns m (replicate columns 0)) as (E & Hl & HP);
    [apply rows_distinct'|done|apply length_replicate|by apply Forall_replicate| | |].
  - intros a Ha. unfold keep_max. case_match; lia.
  - intros a v Ha Hv. unfold keep_max. case_match; lia.
  - rewrite E, col_div_dense by done. done.
Qed.
End normalisation.

(** Row sums, row and column normalisation and
    the upscaling of columns by their maximum agree with the dense routines on
    values that are not negative and whose row sums fit. *)
Theorem sparse_normalisation_is_dense (lib : FixedLib) (laws : FixedLaws lib) (columns : nat) (m : SparseMatrix) :
  columns <> 0%nat -> m <> [] -> Forall (ordered columns) m -> Forall in_bounds m ->
  Forall (fun row : SparseRow => total row.*2 <= FIXED_MAX) m ->
  row_sum_sparse lib m = row_sum lib (dense columns m) /\
  dense columns (inplace_row_normalize_sparse lib m) = inplace_row_normalize lib (dense columns m) /\
  dense columns (inplace_col_normalize_sparse lib m columns) = inplace_col_normalize lib (dense columns m) /\
  dense columns (inplace_col_max_upscale_sparse lib m columns) = inplace_col_max_upscale lib (dense columns m).
Proof.
  intros. split; [by apply row_sum_dense|]. split; [by apply row_normalize_dense|].
  split; [by apply col_normalize_dense|by apply col_max_dense].
Qed.

(** ** Interpolation and moving averages *)

Lemma indexed_columns {A} (l : list A) : (indexed l).*1 = seq 0 (length l).
Proof.
  unfold indexed. apply list_eq. intros i. rewrite list_lookup_fmap, list_lookup_imap.
  destruct (l !! i) eqn:E.
  - by rewrite lookup_seq_lt by (by eapply lookup_lt_Some).
  - by rewrite lookup_seq_ge by (by apply lookup_ge_None).
Qed.

Lemma densify_indexed (v : Vector) : densify (length v) (indexed v) = v.
Proof.
  assert (distinct (indexed v)) as Hd by (unfold distinct; rewrite indexed_columns; apply NoDup_seq).
  apply list_eq. intros j. rewrite densify_lookup by done. destruct (v !! j) as [x|] eqn:Hx.
  - rewrite decide_True by (by eapply lookup_lt_Some). f_equal. apply entry_elem; [done|].
    apply list_elem_of_lookup. exists j. unfold indexed. by rewrite list_lookup_imap, Hx.
  - rewrite decide_False; [done|]. apply lookup_ge_None in Hx. lia.
Qed.

(** Keeping the entries above zero cuts the others to zero. *)
Lemma densify_positives (v : Vector) : densify (length v) (positives v) = Z.max 0 <$> v.
Proof.
  unfold positives. rewrite omap_filter, (densify_omap _ (fun _ => Z.max 0)).
  - by rewrite densify_indexed, imap_const.
  - intros e _. case_decide; cbn; lia.
  - done.
  - unfold distinct. rewrite indexed_columns. apply NoDup_seq.
Qed.

Lemma densify_positives' n (v : Vector) : length v = n -> densify n (positives v) = Z.max 0 <$> v.
Proof. intros <-. apply densify_positives. Qed.

Lemma while_next_lookup {A B C} (f : B -> A -> C) rows vec i :
  while_next f rows vec !! i = match rows !! i, vec !! i with Some r, Some v => Some (f v r) | _, _ => None end.
Proof.
  revert vec i. induction rows as [|row rows IH]; intros [|v vec] [|i]; try done; cbn; [|apply IH].
  by destruct (rows !! i).
Qed.

Lemma interpolate_row_eq lib ratio row1 row2 n :
  length row1 = n -> length row2 = n ->
  interpolate_row lib ratio row1 row2 (replicate n 0) =
  (fun j => interp lib ratio (get_safe row1 j) (get_safe row2 j)) <$> seq 0 n.
Proof.
  revert row1 row2. induction n as [|n IH]; intros [|v1 row1] [|v2 row2] H1 H2; try done.
  cbn. f_equal. rewrite (IH row1 row2) by (simpl in *; lia). by rewrite <- fmap_S_seq, <- list_fmap_compose.
Qed.

Lemma interpolate_dense lib columns m1 m2 ratio :
  columns <> 0%nat -> m1 <> [] -> length m1 = length m2 -> ratio <> 0 -> ratio <> ONE ->
  dense columns (interpolate_sparse lib m1 m2 columns ratio) =
  fmap (Z.max 0) <$> interpolate lib (dense columns m1) (dense columns m2) ratio.
Proof.
  intros Hc Hm Hl Hr0 Hr1. unfold interpolate_sparse, interpolate. change (from_num 1) with ONE.
  rewrite (proj2 (Z.eqb_neq _ _) Hr0), (proj2 (Z.eqb_neq _ _) Hr1), (proj2 (Nat.eqb_eq _ _) Hl). cbn [negb].
  destruct (dense_cons columns m1 Hc Hm) as (v & row & rows & E & Hw). rewrite E. rewrite Hw, <- E.
  clear E Hw v row rows Hm. revert m2 Hl. induction m1 as [|row1 m1 IH]; intros [|row2 m2] Hl; try done.
  simpl in Hl. specialize (IH m2 ltac:(lia)). cbn [length seq]. rewrite <- fmap_S_seq. cbn [fmap list_fmap interpolate_rows].
  f_equal.
  - rewrite interpolate_row_eq by apply length_densify. cbn [lookup list_lookup default].
    rewrite <- densify_positives. by rewrite length_fmap, length_seq.
  - rewrite <- IH, <- !list_fmap_compose. done.
Qed.

Lemma fsub_fixed a b : is_fixed (fsub a b).
Proof. unfold is_fixed, fsub, clamp, FIXED_MIN, FIXED_MAX. lia. Qed.

Definition fixed_row (row : SparseRow) : Prop := Forall (fun e => is_fixed e.2) row.

Lemma entry_fixed row j : fixed_row row -> is_fixed (entry row j).
Proof. induction 1 as [|e row He Hr IH]; [apply zero_fixed|]. rewrite entry_cons. by case_decide. Qed.

Section averages.
Context {lib : FixedLib} `{!FixedLaws lib}.

Lemma add_scaled_eq scale acc row :
  distinct row -> Forall is_fixed acc ->
  add_scaled lib scale acc row =
  zip_into (fun cell v => fadd cell (fmul lib scale v)) acc (densify (length acc) row).
Proof.
  intros Hd Ha. apply (scatter_zip is_fixed (fun cell v => fadd cell (fmul lib scale v))); [done|done|].
  intros a H. rewrite fmul_zero. by apply fadd_0_r.
Qed.

Lemma ema_row_dense n alpha row orow :
  is_fixed alpha -> distinct row -> distinct orow -> fixed_row row ->
  densify n (positives (add_scaled lib (fsub (from_num 1) alpha) (add_scaled lib alpha (replicate n 0) row) orow)) =
  Z.max 0 <$> while_next (fun o v => fadd (fmul lib alpha v) (fmul lib (fsub (from_num 1) alpha) o))
    (densify n row) (densify n orow).
Proof.
  intros Ha Hd Ho Hf. pose proof (length_replicate n 0) as Hr.
  rewrite (add_scaled_eq alpha) by (done || apply zeros_fixed). rewrite Hr.
  set (acc := zip_into _ (replicate n 0) _).
  assert (length acc = n) as Hl by (unfold acc; by rewrite length_zip_into).
  assert (Forall is_fixed acc) as HF by (apply Forall_zip_into; [intros; apply fadd_fixed|apply zeros_fixed]).
  rewrite add_scaled_eq, Hl by done. rewrite densify_positives' by (by rewrite length_zip_into).
  f_equal. apply list_eq. intros j.
  unfold acc. rewrite while_next_lookup, !zip_into_lookup, !densify_lookup by done.
  destruct (decide (j < n)%nat).
  - rewrite lookup_replicate_2 by done. rewrite fadd_0_l; [done|]. apply fmul_range; [done|by apply entry_fixed].
  - by rewrite lookup_ge_None_2 by (rewrite length_replicate; lia).
Qed.

Lemma mat_ema_dense n new old alpha :
  n <> 0%nat -> length new = n -> length old = n -> is_fixed alpha ->
  Forall distinct new -> Forall distinct old -> Forall fixed_row new ->
  dense n (mat_ema_sparse lib new old alpha) = fmap (Z.max 0) <$> mat_ema lib (dense n new) (dense n old) alpha.
Proof.
  intros Hn Hnew Hold Ha Hd Hdo Hf.
  destruct (dense_cons n new Hn ltac:(intros ->; simpl in *; lia)) as (v & row & rows & E & _).
  unfold mat_ema. rewrite E. rewrite <- E. unfold mat_ema_sparse. rewrite Hnew. apply list_eq. intros i.
  rewrite !list_lookup_fmap, with_next_lookup, while_next_lookup, !list_lookup_fmap.
  destruct (new !! i) as [r|] eqn:Hr; [|done].
  assert (is_Some (old !! i)) as [o Ho] by (apply lookup_lt_is_Some; apply lookup_lt_Some in Hr; lia).
  rewrite Ho. cbn. f_equal. apply ema_row_dense; [done|exact (Forall_lookup_1 _ _ _ _ Hd Hr)|exact (Forall_lookup_1 _ _ _ _ Hdo Ho)|].
  exact (Forall_lookup_1 _ _ _ _ Hf Hr).
Qed.
End averages.

(** The moving average of bonds and the
    interpolation of weights are, on sparse matrices, the dense ones with negative
    results cut to zero: no entry of either matrix is lost. *)
Theorem sparse_averages_are_dense (lib : FixedLib) (laws : FixedLaws lib) (n : nat) (new old : SparseMatrix)
    (alpha ratio : Z) :
  n <> 0%nat -> length new = n -> length old = n -> is_fixed alpha -> ratio <> 0 -> ratio <> ONE ->
  Forall distinct new -> Forall distinct old -> Forall fixed_row new ->
  dense n (mat_ema_sparse lib new old alpha) = fmap (Z.max 0) <$> mat_ema lib (dense n new) (dense n old) alpha /\
  dense n (interpolate_sparse lib new old n ratio) =
    fmap (Z.max 0) <$> interpolate lib (dense n new) (dense n old) ratio.
Proof.
  intros Hn Hnew Hold. intros. split; [by apply mat_ema_dense|]. apply interpolate_dense; try done; [intros ->; simpl in *; lia|congruence].
Qed.

(** ** Bonds with an alpha for each pair *)

Section liquid.
Context {lib : FixedLib} `{!FixedLaws lib}.

Lemma decayed_row_eq alpha_row old_row :
  distinct old_row ->
  decayed_row lib alpha_row old_row =
  imap (fun j o => fmul lib (fsub (from_num 1) (get_safe alpha_row j)) o) (densify (length alpha_row) old_row).
Proof.
  intros Hd. set (f := fun e => (e.1, fmul lib (fsub (from_num 1) (get_safe alpha_row e.1)) e.2) : nat * Z).
  transitivity (densify (length alpha_row) (f <$> old_row)).
  - unfold decayed_row, densify. rewrite foldl_fmap.
    pose proof (length_replicate (length alpha_row) 0) as Hl. revert Hl. generalize (replicate (length alpha_row) 0).
    clear Hd. induction old_row as [|e row IH]; intros acc Hl; [done|]. cbn [foldl].
    assert (f e = (e.1, fmul lib (fsub (from_num 1) (default 0 (alpha_row !! e.1))) e.2)) as -> by done.
    cbn [fst snd]. destruct (alpha_row !! e.1) as [a|] eqn:Ha; [apply IH; by rewrite length_alter|].
    rewrite alter_out by (apply lookup_ge_None in Ha; lia). by apply IH.
  - rewrite list_fmap_alt, (densify_omap _ (fun j o => fmul lib (fsub (from_num 1) (get_safe alpha_row j)) o)); try done.
    intros k. apply fmul_zero.
Qed.

(** The dense entry of a pair. *)
Definition bond (alpha_row : Vector) (old_row new_row : SparseRow) (j : nat) : Z :=
  ema_entry lib (fmul lib (fsub (from_num 1) (get_safe alpha_row j)) (entry old_row j))
    (get_safe alpha_row j) (entry new_row j).

Lemma ema_alpha_row_entry alpha_row old_row new_row j :
  distinct old_row -> ordered (length alpha_row) new_row ->
  entry (ema_alpha_row lib alpha_row old_row new_row) j =
  if decide (j ∈ new_row.*1) then Z.max 0 (bond alpha_row old_row new_row j) else 0.
Proof.
  intros Ho Hn. pose proof (ordered_distinct _ _ Hn) as Hd. destruct Hn as [_ Hin].
  unfold ema_alpha_row. rewrite decayed_row_eq by done.
  rewrite (entry_omap _ (fun j v => Z.max 0 (ema_entry lib
    (fmul lib (fsub (from_num 1) (get_safe alpha_row j)) (entry old_row j)) (get_safe alpha_row j) v))); [done| |done].
  intros e He. assert (e.1 < length alpha_row)%nat as Hlt
    by (apply (proj1 (list.Forall_forall _ _) Hin); by apply (list_elem_of_fmap_2 fst)).
  rewrite list_lookup_imap, densify_lookup, decide_True by done. unfold get_safe.
  apply lookup_lt_is_Some in Hlt as [a ->]. cbn [fmap option_fmap option_map]. cbn zeta.
  change (default 0 (Some a)) with a.
  match goal with |- context [0 <? ?x] => destruct (Z.ltb_spec 0 x) end; cbn [fst snd]; lia.
Qed.

Lemma ema_alpha_dense_row_lookup nrow orow arow j :
  ema_alpha_dense_row lib nrow orow arow !! j =
  match nrow !! j, orow !! j, arow !! j with
  | Some n, Some o, Some a => Some (ema_entry lib (fmul lib (fsub (from_num 1) a) o) a n)
  | _, _, _ => None
  end.
Proof.
  revert orow arow j. induction nrow as [|n nrow IH]; intros [|o orow] [|a arow] [|j]; try done; cbn;
    try (by destruct (nrow !! j)); try (by destruct (nrow !! j), (orow !! j)). apply IH.
Qed.

Lemma ema_alpha_dense_row_eq alpha_row old_row new_row j :
  distinct old_row -> distinct new_row -> (j < length alpha_row)%nat ->
  get_safe (ema_alpha_dense_row lib (densify (length alpha_row) new_row) (densify (length alpha_row) old_row) alpha_row) j =
  bond alpha_row old_row new_row j.
Proof.
  intros Ho Hn Hj. unfold get_safe. rewrite ema_alpha_dense_row_lookup, !densify_lookup, !decide_True by done.
  unfold bond, get_safe. by apply lookup_lt_is_Some in Hj as [a ->].
Qed.
End liquid.

Lemma same_shape_dense columns new old alpha :
  length new = length old -> length new = length alpha -> Forall (fun a : Vector => length a = columns) alpha ->
  same_shape (dense columns new) (dense columns old) alpha = true.
Proof.
  intros Ho Ha Hw. revert old alpha Ho Ha Hw.
  induction new as [|n new IH]; intros [|o old] [|a alpha] Ho Ha Hw; try done.
  apply Forall_cons in Hw as [Hw Hws]. simpl in *. rewrite !length_densify, Hw, Nat.eqb_refl.
  apply IH; [lia|lia|done].
Qed.

(** With an alpha for each pair the sparse
    moving average has, in the columns the validator gives weight to, the bonds of
    the dense one, and none in the others: where the dense routine lets an old bond
    decay, the sparse one drops it at once. *)
Theorem liquid_bonds_keep_only_weighted (lib : FixedLib) (laws : FixedLaws lib) (columns : nat)
    (new old : SparseMatrix) (alpha : Matrix) (i : nat) (nrow : SparseRow) :
  columns <> 0%nat -> length new = length old -> length new = length alpha ->
  Forall (fun a : Vector => length a = columns) alpha -> Forall (ordered columns) new -> Forall distinct old ->
  new !! i = Some nrow ->
  exists row drow,
    mat_ema_alpha_sparse lib new old alpha !! i = Some row /\
    mat_ema_alpha lib (dense columns new) (dense columns old) alpha !! i = Some drow /\
    forall j, (j < columns)%nat -> entry row j = if decide (j ∈ nrow.*1) then Z.max 0 (get_safe drow j) else 0.
Proof.
  intros Hc Ho Ha Hw Hn Hd Hi.
  assert (is_Some (old !! i)) as [orow Hoi] by (apply lookup_lt_is_Some; apply lookup_lt_Some in Hi; lia).
  assert (is_Some (alpha !! i)) as [arow Hai] by (apply lookup_lt_is_Some; apply lookup_lt_Some in Hi; lia).
  pose proof (Forall_lookup_1 _ _ _ _ Hw Hai) as Hwi. pose proof (Forall_lookup_1 _ _ _ _ Hn Hi) as Hni.
  pose proof (Forall_lookup_1 _ _ _ _ Hd Hoi) as Hdi. cbn in Hwi.
  exists (ema_alpha_row lib arow orow nrow), (ema_alpha_dense_row lib (densify columns nrow) (densify columns orow) arow).
  split; [|split].
  - unfold mat_ema_alpha_sparse. rewrite (proj2 (Nat.eqb_eq _ _) Ho), (proj2 (Nat.eqb_eq _ _) Ha). cbn [negb orb].
    rewrite while_next_lookup, lookup_zip_with, Hi, Hoi, Hai. done.
  - destruct (dense_cons columns new Hc) as (v & r & rs & E & _); [by intros ->|].
    unfold mat_ema_alpha. rewrite E. rewrite <- E. rewrite !length_fmap.
    rewrite (proj2 (Nat.eqb_eq _ _) Ho), (proj2 (Nat.eqb_eq _ _) Ha), same_shape_dense by done. cbn [negb orb].
    rewrite while_next_lookup, lookup_zip_with, !list_lookup_fmap, Hi, Hoi, Hai. done.
  - intros j Hj. rewrite <- Hwi in *. rewrite ema_alpha_row_entry, ema_alpha_dense_row_eq by (done || by eapply ordered_distinct).
    done.
Qed.

(** ** Averages of bonds are bonds *)

Definition within_one (m : Matrix) : Prop := Forall (Forall (fun x => 0 <= x <= ONE)) m.

Section within.
Context {lib : FixedLib} `{!FixedLaws lib}.

Lemma fmul_le_one a b : 0 <= a <= ONE -> 0 <= b <= ONE -> 0 <= fmul lib a b /\ fmul lib a b * ONE <= a * b.
Proof.
  intros Ha Hb. rewrite fmul_nonneg by (unfold ONE, FIXED_MAX in *; lia).
  pose proof (Z.mul_div_le (a * b) ONE ltac:(done)). pose proof (Z.div_pos (a * b) ONE ltac:(nia) ltac:(done)).
  assert (a * b / ONE <= FIXED_MAX) as Hle by (unfold ONE, FIXED_MAX in *; nia).
  rewrite Z.min_r by done. lia.
Qed.

(** The average of two numbers between zero and one. *)
Lemma ema_within a n o :
  0 <= a <= ONE -> 0 <= n <= ONE -> 0 <= o <= ONE ->
  0 <= fadd (fmul lib a n) (fmul lib (fsub (from_num 1) a) o) <= ONE.
Proof.
  intros Ha Hn Ho. replace (fsub (from_num 1) a) with (ONE - a)
    by (unfold fsub, from_num, clamp, FIXED_MIN, FIXED_MAX, ONE in *; lia).
  pose proof (fmul_le_one a n Ha Hn). pose proof (fmul_le_one (ONE - a) o ltac:(lia) Ho).
  unfold fadd, clamp, FIXED_MIN, FIXED_MAX, ONE in *. nia.
Qed.

Lemma ema_entry_within a n o :
  0 <= a <= ONE -> 0 <= n <= ONE -> 0 <= o <= ONE ->
  0 <= ema_entry lib (fmul lib (fsub (from_num 1) a) o) a n <= ONE.
Proof.
  intros Ha Hn Ho. pose proof (ema_within a n o Ha Hn Ho) as H. unfold ema_entry.
  pose proof (fmul_le_one a n Ha Hn). rewrite Z.max_l by lia. change (from_num 1) with ONE in *.
  unfold fadd in *. rewrite Z.add_comm. lia.
Qed.

Lemma Forall_while_next {A B C} (PA : A -> Prop) (PB : B -> Prop) (PC : C -> Prop) f rows vec :
  Forall PA rows -> Forall PB vec -> (forall v r, PB v -> PA r -> PC (f v r)) -> Forall PC (while_next f rows vec).
Proof.
  intros Hr. revert vec. induction Hr as [|r rows Hr Hrs IH]; intros [|v vec] Hv Hf; try done.
  apply Forall_cons in Hv as [Hv Hvs]. constructor; auto.
Qed.

Lemma Forall_zip {A B} (P : A -> Prop) (Q : B -> Prop) (l : list A) (k : list B) :
  Forall P l -> Forall Q k -> Forall (fun p => P p.1 /\ Q p.2) (zip l k).
Proof.
  intros Hl. revert k. induction Hl as [|x l Hx Hl IH]; intros [|y k] Hk; try (by constructor).
  apply Forall_cons in Hk as [Hy Hk]. constructor; [done|by apply IH].
Qed.
End within.

(** Moving averages of bonds between zero and one are
    between zero and one, with one alpha or with an alpha for each pair, also where
    shapes do not match; the sparse bonds are positive besides. *)
Theorem bonds_stay_within_one (lib : FixedLib) (laws : FixedLaws lib) (new old alphas : Matrix) (alpha : Z)
    (snew sold : SparseMatrix) :
  within_one new -> within_one old -> within_one alphas -> 0 <= alpha <= ONE ->
  length snew = length sold -> length snew = length alphas ->
  within_one (mat_ema lib new old alpha) /\
  within_one (mat_ema_alpha lib new old alphas) /\
  Forall (Forall (fun e : nat * Z => 0 < e.2 <= ONE)) (mat_ema_alpha_sparse lib snew sold alphas).
Proof.
  intros Hn Ho Ha Hal Hs1 Hs2.
  assert (within_one [[]]) as H0 by (constructor; constructor).
  split; [|split].
  - unfold mat_ema. destruct new as [|[|v row] rows] eqn:E; [done|done|]. rewrite <- E in *.
    eapply Forall_while_next; [exact Hn|exact Ho|]. intros orow nrow Hor Hnr.
    eapply Forall_while_next; [exact Hnr|exact Hor|]. intros o n Hoo Hnn. by apply ema_within.
  - unfold mat_ema_alpha. destruct new as [|[|v row] rows] eqn:E; [done|done|]. rewrite <- E in *.
    case_match; [done|]. case_match; [done|].
    eapply Forall_while_next; [exact Hn|by apply Forall_zip; [exact Ho|exact Ha]|].
    intros [orow arow] nrow [Hor Har] Hnr. cbn in Hor, Har. revert orow arow Hor Har.
    induction Hnr as [|n nrow Hnn Hnr IH]; intros [|o orow] [|a arow] Hor Har; try (by constructor).
    apply Forall_cons in Hor as [Hoo Hor]. apply Forall_cons in Har as [Haa Har].
    constructor; [by apply ema_entry_within|by apply IH].
  - unfold mat_ema_alpha_sparse. rewrite (proj2 (Nat.eqb_eq _ _) Hs1), (proj2 (Nat.eqb_eq _ _) Hs2). cbn [negb orb].
    apply (Forall_while_next (fun _ => True) (fun _ => True)); [by apply list.Forall_forall..|].
    intros [orow arow] nrow _ _. apply list.Forall_forall. intros e He. unfold ema_alpha_row in He.
    apply list_elem_of_omap in He as (e' & _ & He). destruct (arow !! e'.1) as [a|]; [|done].
    destruct (decayed_row lib arow orow !! e'.1) as [d|]; [|done]. cbn zeta in He.
    destruct (Z.ltb_spec 0 (ema_entry lib d a e'.2)) as [Hpos|]; [|done]. injection He as <-. cbn.
    split; [done|]. unfold ema_entry. change (from_num 1) with ONE. lia.
Qed.

(** Two validators and two miners. *)
Module Bonds.
Definition weights : SparseMatrix := [[(1%nat, ONE / 2)]; [(0%nat, ONE); (1%nat, ONE / 8)]].
Definition bonds : SparseMatrix := [[(0%nat, ONE)]; [(0%nat, ONE / 2); (1%nat, ONE / 4)]].
Definition alphas : Matrix := replicate 2 (replicate 2 (ONE / 4)).

Lemma weights_ordered : Forall (ordered 2) weights.
Proof. repeat constructor; simpl; lia. Qed.

Lemma bonds_distinct : Forall distinct bonds.
Proof.
  eapply Forall_impl; [|apply ordered_distinct with (columns := 2%nat)]. repeat constructor; simpl; lia.
Qed.

Lemma weights_distinct : Forall distinct weights.
Proof. eapply Forall_impl; [exact weights_ordered|apply ordered_distinct]. Qed.

Lemma sparse_products_are_dense_witness :
  matmul_sparse Exact.lib weights [ONE; ONE] 2 = matmul Exact.lib (dense 2 weights) [ONE; ONE] /\
  matmul_transpose_sparse Exact.lib weights [ONE; ONE / 2] = matmul_transpose Exact.lib (dense 2 weights) [ONE; ONE / 2] /\
  dense 2 (row_hadamard_sparse Exact.lib weights [ONE; ONE]) = row_hadamard Exact.lib (dense 2 weights) [ONE; ONE].
Proof.
  apply (sparse_products_are_dense Exact.lib Exact.laws 2 weights [ONE; ONE] [ONE; ONE / 2]);
    [lia|discriminate|exact weights_ordered|reflexivity].
Defined.

Lemma sparse_masks_are_dense_witness :
  dense 2 (mask_diag_sparse weights) = inplace_mask_diag (dense 2 weights) /\
  dense 2 (col_clip_sparse weights [ONE / 2; 0]) = inplace_col_clip (dense 2 weights) [ONE / 2; 0].
Proof.
  split; apply (sparse_masks_are_dense 2 weights [true; false] 1 [0; 5] [3; 4] [ONE / 2; 0] Z.ltb);
    first [exact weights_distinct | reflexivity | lia | (repeat constructor; vm_compute; discriminate)].
Defined.

Lemma sparse_normalisation_is_dense_witness :
  row_sum_sparse Exact.lib weights = row_sum Exact.lib (dense 2 weights) /\
  dense 2 (inplace_row_normalize_sparse Exact.lib weights) = inplace_row_normalize Exact.lib (dense 2 weights) /\
  dense 2 (inplace_col_normalize_sparse Exact.lib weights 2) = inplace_col_normalize Exact.lib (dense 2 weights) /\
  dense 2 (inplace_col_max_upscale_sparse Exact.lib weights 2) = inplace_col_max_upscale Exact.lib (dense 2 weights).
Proof.
  apply (sparse_normalisation_is_dense Exact.lib Exact.laws 2 weights);
    first [exact weights_ordered | lia | discriminate | (repeat constructor; vm_compute; discriminate)].
Defined.

Lemma sparse_averages_are_dense_witness :
  dense 2 (mat_ema_sparse Exact.lib weights bonds (ONE / 4)) =
    fmap (Z.max 0) <$> mat_ema Exact.lib (dense 2 weights) (dense 2 bonds) (ONE / 4) /\
  dense 2 (interpolate_sparse Exact.lib weights bonds 2 (ONE / 2)) =
    fmap (Z.max 0) <$> interpolate Exact.lib (dense 2 weights) (dense 2 bonds) (ONE / 2).
Proof.
  apply (sparse_averages_are_dense Exact.lib Exact.laws 2 weights bonds (ONE / 4) (ONE / 2));
    first [exact weights_distinct | exact bonds_distinct | lia | reflexivity | discriminate
          | (repeat constructor; vm_compute; discriminate)].
Defined.

Lemma liquid_bonds_keep_only_weighted_witness :
  mat_ema_alpha_sparse Exact.lib weights bonds alphas !! 0%nat = Some [(1%nat, ONE / 8)] /\
  mat_ema_alpha Exact.lib (dense 2 weights) (dense 2 bonds) alphas !! 0%nat = Some [ONE / 4 * 3; ONE / 8] /\
  exists row drow,
    mat_ema_alpha_sparse Exact.lib weights bonds alphas !! 0%nat = Some row /\
    mat_ema_alpha Exact.lib (dense 2 weights) (dense 2 bonds) alphas !! 0%nat = Some drow /\
    forall j, (j < 2)%nat -> entry row j = if decide (j ∈ [1%nat]) then Z.max 0 (get_safe drow j) else 0.
Proof.
  split; [vm_compute; reflexivity|]. split; [vm_compute; reflexivity|].
  apply (liquid_bonds_keep_only_weighted Exact.lib Exact.laws 2 weights bonds alphas 0 [(1%nat, ONE / 2)]);
    first [exact weights_ordered | exact bonds_distinct | lia | reflexivity | (repeat constructor)].
Defined.

Lemma bonds_stay_within_one_witness :
  within_one (mat_ema Exact.lib (dense 2 weights) (dense 2 bonds) (ONE / 4)) /\
  within_one (mat_ema_alpha Exact.lib (dense 2 weights) (dense 2 bonds) alphas) /\
  Forall (Forall (fun e : nat * Z => 0 < e.2 <= ONE)) (mat_ema_alpha_sparse Exact.lib weights bonds alphas).
Proof.
  apply (bonds_stay_within_one Exact.lib Exact.laws (dense 2 weights) (dense 2 bonds) alphas (ONE / 4) weights bonds);
    first [reflexivity | (repeat constructor; vm_compute; discriminate)].
Defined.
End Bonds.
