(* ===== verification/Calls.v ===== *)
(** * Calls: the runtime's calls and the filters of the proxy types

    Models the calls a runtime origin can make, as far as the filters and the
    wrapper pallets look at them, and the allow-lists of the proxy types:
    [ProxyType] of src/common/src/proxy.rs, the call groups of
    src/runtime/src/proxy_filters/call_groups.rs, the filter, the order and the
    metadata of src/runtime/src/proxy_filters/mod.rs, and the base filter
    [NoNestingCallFilter] of src/runtime/src/lib.rs.

    The calls of the wrapper pallets (Utility, Proxy, Multisig) carry their
    arguments; a call of another pallet is its name, its numeric arguments and
    its boxed calls, which is what a filter rule can look at.  The two versions
    of a Multisig call, with the legacy and with the safe derivation of the
    account, are one constructor with the flag the pallet passes to the shared
    operation.  An account argument is the account that the lookup returns.

    The theorems say that the order on proxy types is sound for the filters
    (what a subordinate type may call its superset may call), that the metadata
    served to clients describes exactly the calls the filter lets through, that
    the groups are disjoint, and what no restricted type ever reaches. *)

From Stdlib Require Import ZArith Lia String.
From stdpp Require Import base list strings.
From S2P Require Import Prelude.

Local Open Scope string_scope.
Local Open Scope list_scope.
Local Open Scope Z_scope.

(** ** Accounts, origins and calls *)

Abbreviation AccountId := Z (only parsing).
Abbreviation Hash := Z (only parsing).
Abbreviation Balance := Z (only parsing).
Abbreviation BlockNumber := Z (only parsing).

(** The caller of an origin: the system's origins or one of another pallet. *)
Inductive OriginCaller : Type :=
| Root
| Signed (who : AccountId)
| NoneOrigin
| PalletOrigin (n : Z).

#[global] Instance OriginCaller_eq_dec : EqDecision OriginCaller.
Proof. solve_decision. Defined.

Inductive ProxyType : Type :=
| Any | Owner | NonCritical | NonTransfer | Senate | NonFungible | Triumvirate | Governance
| Staking | Registration | Transfer | SmallTransfer | RootWeights | ChildKeys
| SudoUncheckedSetCode | SwapHotkey | SubnetLeaseBeneficiary | RootClaim | BasketTrading
| Validate | Weights | Lock | GammaSpend.

#[global] Instance ProxyType_eq_dec : EqDecision ProxyType.
Proof. solve_decision. Defined.

Definition try_from (value : Z) : option ProxyType :=
  match value with
  | 0 => Some Any | 1 => Some Owner | 2 => Some NonCritical | 3 => Some NonTransfer
  | 4 => Some Senate | 5 => Some NonFungible | 6 => Some Triumvirate | 7 => Some Governance
  | 8 => Some Staking | 9 => Some Registration | 10 => Some Transfer
  | 11 => Some SmallTransfer | 12 => Some RootWeights | 13 => Some ChildKeys
  | 14 => Some SudoUncheckedSetCode | 15 => Some SwapHotkey
  | 16 => Some SubnetLeaseBeneficiary | 17 => Some RootClaim | 18 => Some BasketTrading
  | 19 => Some Validate | 20 => Some Weights | 21 => Some Lock | 22 => Some GammaSpend
  | _ => None
  end.

Definition from_proxy_type (proxy_type : ProxyType) : Z :=
  match proxy_type with
  | Any => 0 | Owner => 1 | NonCritical => 2 | NonTransfer => 3 | Senate => 4
  | NonFungible => 5 | Triumvirate => 6 | Governance => 7 | Staking => 8
  | Registration => 9 | Transfer => 10 | SmallTransfer => 11 | RootWeights => 12
  | ChildKeys => 13 | SudoUncheckedSetCode => 14 | SwapHotkey => 15
  | SubnetLeaseBeneficiary => 16 | RootClaim => 17 | BasketTrading => 18
  | Validate => 19 | Weights => 20 | Lock => 21 | GammaSpend => 22
  end.

Definition is_deprecated (t : ProxyType) : bool :=
  match t with Triumvirate | Senate | Governance | RootWeights => true | _ => false end.

(** [Default for ProxyType]. *)
Definition default_proxy_type : ProxyType := Any.

(** The block and the index of the extrinsic that started a multisig operation. *)
Record Timepoint : Type := mkTimepoint { height : BlockNumber; index : Z }.

#[global] Instance Timepoint_eq_dec : EqDecision Timepoint.
Proof. solve_decision. Defined.

(** [ref_time] and [proof_size]. *)
Abbreviation Weight := (Z * Z)%type (only parsing).

#[local] Set Warnings "-register-all".
Inductive RuntimeCall : Type :=
(* Utility *)
| Utility_batch (calls : list RuntimeCall)
| Utility_as_derivative (index : Z) (call : RuntimeCall)
| Utility_batch_all (calls : list RuntimeCall)
| Utility_dispatch_as (as_origin : OriginCaller) (call : RuntimeCall)
| Utility_force_batch (calls : list RuntimeCall)
| Utility_with_weight (call : RuntimeCall) (weight : Weight)
| Utility_if_else (main fallback : RuntimeCall)
| Utility_dispatch_as_fallible (as_origin : OriginCaller) (call : RuntimeCall)
| Utility_as_protected_derivative (index : Z) (call : RuntimeCall)
| Utility_as_safe_derivative (index : Z) (call : RuntimeCall)
(* Proxy *)
| Proxy_proxy (real : AccountId) (force_proxy_type : option ProxyType) (call : RuntimeCall)
| Proxy_add_proxy (delegate : AccountId) (proxy_type : ProxyType) (delay : BlockNumber)
| Proxy_remove_proxy (delegate : AccountId) (proxy_type : ProxyType) (delay : BlockNumber)
| Proxy_remove_proxies
| Proxy_create_pure (proxy_type : ProxyType) (delay : BlockNumber) (index : Z)
| Proxy_kill_pure (spawner : AccountId) (proxy_type : ProxyType) (index : Z)
    (height : BlockNumber) (ext_index : Z)
| Proxy_announce (real : AccountId) (call_hash : Hash)
| Proxy_remove_announcement (real : AccountId) (call_hash : Hash)
| Proxy_reject_announcement (delegate : AccountId) (call_hash : Hash)
| Proxy_proxy_announced (delegate real : AccountId) (force_proxy_type : option ProxyType)
    (call : RuntimeCall)
| Proxy_poke_deposit
| Proxy_set_real_pays_fee (delegate : AccountId) (pays_fee : bool)
| Proxy_create_protected_pure (proxy_type : ProxyType) (delay : BlockNumber) (index : Z)
| Proxy_create_safe_pure (proxy_type : ProxyType) (delay : BlockNumber) (index : Z)
| Proxy_kill_safe_pure (spawner : AccountId) (proxy_type : ProxyType) (index : Z)
    (height : BlockNumber) (ext_index : Z)
(* Multisig *)
| Multisig_as_multi_threshold_1 (safe : bool) (other_signatories : list AccountId)
    (call : RuntimeCall)
| Multisig_as_multi (safe : bool) (threshold : Z) (other_signatories : list AccountId)
    (maybe_timepoint : option Timepoint) (call : RuntimeCall) (max_weight : Weight)
| Multisig_approve_as_multi (safe : bool) (threshold : Z) (other_signatories : list AccountId)
    (maybe_timepoint : option Timepoint) (call_hash : Hash) (max_weight : Weight)
| Multisig_cancel_as_multi (safe : bool) (threshold : Z) (other_signatories : list AccountId)
    (timepoint : Timepoint) (call_hash : Hash)
| Multisig_poke_deposit (safe : bool) (threshold : Z) (other_signatories : list AccountId)
    (call_hash : Hash)
(* The calls of every other pallet. *)
| OtherCall (pallet name : string) (params : list (string * Z))
    (nested : list (string * RuntimeCall)).

(** Structural induction with the induction hypothesis for the calls a wrapper
    dispatches; the boxed calls of the other pallets get none. *)
Section RuntimeCall_ind.
Variable P : RuntimeCall -> Prop.
Variables (batch : forall cs, Forall P cs -> P (Utility_batch cs))
  (as_derivative : forall i c, P c -> P (Utility_as_derivative i c))
  (batch_all : forall cs, Forall P cs -> P (Utility_batch_all cs))
  (dispatch_as : forall o c, P c -> P (Utility_dispatch_as o c))
  (force_batch : forall cs, Forall P cs -> P (Utility_force_batch cs))
  (with_weight : forall c w, P c -> P (Utility_with_weight c w))
  (if_else : forall c d, P c -> P d -> P (Utility_if_else c d))
  (dispatch_as_fallible : forall o c, P c -> P (Utility_dispatch_as_fallible o c))
  (as_protected : forall i c, P c -> P (Utility_as_protected_derivative i c))
  (as_safe : forall i c, P c -> P (Utility_as_safe_derivative i c))
  (proxy : forall r f c, P c -> P (Proxy_proxy r f c))
  (announced : forall d r f c, P c -> P (Proxy_proxy_announced d r f c))
  (threshold_1 : forall s l c, P c -> P (Multisig_as_multi_threshold_1 s l c))
  (as_multi : forall s t l tp c w, P c -> P (Multisig_as_multi s t l tp c w)).
Variables (add_proxy : forall d t n, P (Proxy_add_proxy d t n))
  (remove_proxy : forall d t n, P (Proxy_remove_proxy d t n))
  (remove_proxies : P Proxy_remove_proxies)
  (create_pure : forall t d i, P (Proxy_create_pure t d i))
  (kill_pure : forall a t i h x, P (Proxy_kill_pure a t i h x))
  (announce : forall r h, P (Proxy_announce r h))
  (remove_announcement : forall r h, P (Proxy_remove_announcement r h))
  (reject_announcement : forall d h, P (Proxy_reject_announcement d h))
  (poke : P Proxy_poke_deposit)
  (set_real_pays_fee : forall d b, P (Proxy_set_real_pays_fee d b))
  (create_protected : forall t d i, P (Proxy_create_protected_pure t d i))
  (create_safe : forall t d i, P (Proxy_create_safe_pure t d i))
  (kill_safe : forall a t i h x, P (Proxy_kill_safe_pure a t i h x))
  (approve : forall s t l tp h w, P (Multisig_approve_as_multi s t l tp h w))
  (cancel : forall s t l tp h, P (Multisig_cancel_as_multi s t l tp h))
  (multisig_poke : forall s t l h, P (Multisig_poke_deposit s t l h))
  (other : forall p n ps cs, P (OtherCall p n ps cs)).

Fixpoint RuntimeCall_nested_ind (c : RuntimeCall) : P c :=
  let all := fix all (cs : list RuntimeCall) : Forall P cs :=
    match cs with
    | [] => Forall_nil_2 P
    | c :: cs' => Forall_cons_2 P c cs' (RuntimeCall_nested_ind c) (all cs')
    end in
  match c with
  | Utility_batch cs => batch cs (all cs)
  | Utility_as_derivative i c => as_derivative i c (RuntimeCall_nested_ind c)
  | Utility_batch_all cs => batch_all cs (all cs)
  | Utility_dispatch_as o c => dispatch_as o c (RuntimeCall_nested_ind c)
  | Utility_force_batch cs => force_batch cs (all cs)
  | Utility_with_weight c w => with_weight c w (RuntimeCall_nested_ind c)
  | Utility_if_else c d => if_else c d (RuntimeCall_nested_ind c) (RuntimeCall_nested_ind d)
  | Utility_dispatch_as_fallible o c => dispatch_as_fallible o c (RuntimeCall_nested_ind c)
  | Utility_as_protected_derivative i c => as_protected i c (RuntimeCall_nested_ind c)
  | Utility_as_safe_derivative i c => as_safe i c (RuntimeCall_nested_ind c)
  | Proxy_proxy r f c => proxy r f c (RuntimeCall_nested_ind c)
  | Proxy_proxy_announced d r f c => announced d r f c (RuntimeCall_nested_ind c)
  | Multisig_as_multi_threshold_1 s l c => threshold_1 s l c (RuntimeCall_nested_ind c)
  | Multisig_as_multi s t l tp c w => as_multi s t l tp c w (RuntimeCall_nested_ind c)
  | Proxy_add_proxy d t n => add_proxy d t n
  | Proxy_remove_proxy d t n => remove_proxy d t n
  | Proxy_remove_proxies => remove_proxies
  | Proxy_create_pure t d i => create_pure t d i
  | Proxy_kill_pure a t i h x => kill_pure a t i h x
  | Proxy_announce r h => announce r h
  | Proxy_remove_announcement r h => remove_announcement r h
  | Proxy_reject_announcement d h => reject_announcement d h
  | Proxy_poke_deposit => poke
  | Proxy_set_real_pays_fee d b => set_real_pays_fee d b
  | Proxy_create_protected_pure t d i => create_protected t d i
  | Proxy_create_safe_pure t d i => create_safe t d i
  | Proxy_kill_safe_pure a t i h x => kill_safe a t i h x
  | Multisig_approve_as_multi s t l tp h w => approve s t l tp h w
  | Multisig_cancel_as_multi s t l tp h => cancel s t l tp h
  | Multisig_poke_deposit s t l h => multisig_poke s t l h
  | OtherCall p n ps cs => other p n ps cs
  end.
End RuntimeCall_ind.

(** The pallet and the name of a call, as in the runtime's metadata. *)
Definition call_name (c : RuntimeCall) : string * string :=
  match c with
  | Utility_batch _ => ("Utility", "batch")
  | Utility_as_derivative _ _ => ("Utility", "as_derivative")
  | Utility_batch_all _ => ("Utility", "batch_all")
  | Utility_dispatch_as _ _ => ("Utility", "dispatch_as")
  | Utility_force_batch _ => ("Utility", "force_batch")
  | Utility_with_weight _ _ => ("Utility", "with_weight")
  | Utility_if_else _ _ => ("Utility", "if_else")
  | Utility_dispatch_as_fallible _ _ => ("Utility", "dispatch_as_fallible")
  | Utility_as_protected_derivative _ _ => ("Utility", "as_protected_derivative")
  | Utility_as_safe_derivative _ _ => ("Utility", "as_safe_derivative")
  | Proxy_proxy _ _ _ => ("Proxy", "proxy")
  | Proxy_add_proxy _ _ _ => ("Proxy", "add_proxy")
  | Proxy_remove_proxy _ _ _ => ("Proxy", "remove_proxy")
  | Proxy_remove_proxies => ("Proxy", "remove_proxies")
  | Proxy_create_pure _ _ _ => ("Proxy", "create_pure")
  | Proxy_kill_pure _ _ _ _ _ => ("Proxy", "kill_pure")
  | Proxy_announce _ _ => ("Proxy", "announce")
  | Proxy_remove_announcement _ _ => ("Proxy", "remove_announcement")
  | Proxy_reject_announcement _ _ => ("Proxy", "reject_announcement")
  | Proxy_proxy_announced _ _ _ _ => ("Proxy", "proxy_announced")
  | Proxy_poke_deposit => ("Proxy", "poke_deposit")
  | Proxy_set_real_pays_fee _ _ => ("Proxy", "set_real_pays_fee")
  | Proxy_create_protected_pure _ _ _ => ("Proxy", "create_protected_pure")
  | Proxy_create_safe_pure _ _ _ => ("Proxy", "create_safe_pure")
  | Proxy_kill_safe_pure _ _ _ _ _ => ("Proxy", "kill_safe_pure")
  | Multisig_as_multi_threshold_1 safe _ _ =>
      ("Multisig", if safe then "as_multi_threshold_1_safe" else "as_multi_threshold_1")
  | Multisig_as_multi safe _ _ _ _ _ => ("Multisig", if safe then "as_multi_safe" else "as_multi")
  | Multisig_approve_as_multi safe _ _ _ _ _ =>
      ("Multisig", if safe then "approve_as_multi_safe" else "approve_as_multi")
  | Multisig_cancel_as_multi safe _ _ _ _ =>
      ("Multisig", if safe then "cancel_as_multi_safe" else "cancel_as_multi")
  | Multisig_poke_deposit safe _ _ _ =>
      ("Multisig", if safe then "poke_deposit_safe" else "poke_deposit")
  | OtherCall pallet name _ _ => (pallet, name)
  end.

(** ** Filter rules

    The macro [call_filter_group!] turns a list of rules into the predicate
    [contains] and into the metadata [call_infos]; a group is that list. *)

Inductive CallConstraint : Type :=
| ParamLessThan (param_name : string) (limit : Z)
| NestedCallMustBe (param_name nested_pallet nested_name : string).

(** The indices of the pallet and the call, which the names determine, are left out. *)
Record CallInfo : Type := mkCallInfo {
  pallet_name : string;
  info_name : string;
  constraint : option CallConstraint;
}.

#[global] Instance CallConstraint_eq_dec : EqDecision CallConstraint.
Proof. solve_decision. Defined.
#[global] Instance CallInfo_eq_dec : EqDecision CallInfo.
Proof. solve_decision. Defined.

Abbreviation Group := (list CallInfo).

Definition rules (pallet : string) (names : list string) : Group :=
  (fun name => mkCallInfo pallet name None) <$> names.

Definition name_eqb (a b : string * string) : bool :=
  String.eqb (fst a) (fst b) && String.eqb (snd a) (snd b).

Fixpoint assoc {A} (k : string) (l : list (string * A)) : option A :=
  match l with
  | [] => None
  | (k', a) :: l' => if String.eqb k k' then Some a else assoc k l'
  end.

(** [generate_contains_rule]: the pattern of the rule and its condition on a
    field of the call. *)
Definition rule_matches (c : RuntimeCall) (r : CallInfo) : bool :=
  name_eqb (call_name c) (pallet_name r, info_name r) &&
  match constraint r with
  | None => true
  | Some (ParamLessThan field limit) =>
      match c with
      | OtherCall _ _ params _ =>
          match assoc field params with Some v => v <? limit | None => false end
      | _ => false
      end
  | Some (NestedCallMustBe field pallet name) =>
      match c with
      | OtherCall _ _ _ nested =>
          match assoc field nested with
          | Some inner => name_eqb (call_name inner) (pallet, name)
          | None => false
          end
      | _ => false
      end
  end.

(** [Contains::contains] of a group, and of a tuple of groups, which is their
    concatenation here: any member matches. *)
Definition contains (g : Group) (c : RuntimeCall) : bool := existsb (rule_matches c) g.

(** ** Call groups *)

Definition SystemCalls : Group :=
  rules "System" ["remark"; "remark_with_event"; "set_heap_pages"; "set_code";
    "set_code_without_checks"; "set_storage"; "kill_storage"; "kill_prefix"; "authorize_upgrade";
    "authorize_upgrade_without_checks"; "apply_authorized_upgrade"].

Definition TimestampCalls : Group :=
  rules "Timestamp" ["set"].

Definition GrandpaCalls : Group :=
  rules "Grandpa" ["report_equivocation"; "report_equivocation_unsigned"; "note_stalled"].

Definition SafeModeCalls : Group :=
  rules "SafeMode" ["enter"; "force_enter"; "extend"; "force_extend"; "force_exit";
    "force_slash_deposit"; "release_deposit"; "force_release_deposit"].

Definition EthereumCalls : Group :=
  rules "Ethereum" ["transact"].

Definition HashedAccountsCalls : Group :=
  rules "HashedAccounts" ["register"; "register_derived"; "register_derived_sponsored"].

Definition HashedAccountChecks : Group :=
  rules "HashedAccounts" ["check_registration_deposit"; "check_registered"; "check_derived"].

Definition RecipientGuardCalls : Group :=
  rules "HashedAccounts" ["check_registration_deposit"; "check_registered"; "check_derived"] ++
  rules "Utility" ["batch_all"].

Definition EvmCalls : Group :=
  rules "EVM" ["withdraw"; "call"; "create"; "create2"; "set_whitelist"; "disable_whitelist"].

Definition BaseFeeCalls : Group :=
  rules "BaseFee" ["set_base_fee_per_gas"; "set_elasticity"].

Definition DrandCalls : Group :=
  rules "Drand" ["write_pulse"; "set_beacon_config"; "set_oldest_stored_round"].

Definition CrowdloanCalls : Group :=
  rules "Crowdloan" ["create"; "contribute"; "withdraw"; "finalize"; "refund"; "dissolve";
    "update_min_contribution"; "update_end"; "update_cap"; "set_max_contribution"].

Definition SwapCalls : Group :=
  rules "Swap" ["toggle_user_liquidity"; "add_liquidity"; "remove_liquidity"; "modify_position";
    "disable_lp"; "set_fee_rate"].

Definition ContractsCalls : Group :=
  rules "Contracts" ["call_old_weight"; "instantiate_with_code_old_weight";
    "instantiate_old_weight"; "upload_code"; "remove_code"; "set_code"; "call";
    "instantiate_with_code"; "instantiate"; "migrate"].

Definition MevShieldCalls : Group :=
  rules "MevShield" ["announce_next_key"; "submit_encrypted"; "set_max_pending_extrinsics_number";
    "set_on_initialize_weight"; "set_stored_extrinsic_lifetime"; "set_max_extrinsic_weight"].

Definition MevShieldStoreEncryptedCalls : Group :=
  rules "MevShield" ["store_encrypted"].

Definition LimitOrdersCalls : Group :=
  rules "LimitOrders" ["execute_orders"; "execute_batched_orders"; "cancel_order";
    "set_pallet_status"; "prune_linked_output"].

Definition LimitOrderApprovalCalls : Group :=
  rules "LimitOrders" ["authorize_order"].

Definition ProtectedAccountCreationCalls : Group :=
  rules "Utility" ["as_protected_derivative"] ++
  rules "Proxy" ["create_protected_pure"].

Definition UtilityCalls : Group :=
  rules "Utility" ["batch"; "as_derivative"; "as_safe_derivative"; "batch_all"; "dispatch_as";
    "force_batch"; "with_weight"; "if_else"; "dispatch_as_fallible"].

Definition SudoCalls : Group :=
  rules "Sudo" ["sudo"; "sudo_unchecked_weight"; "set_key"; "sudo_as"; "remove_key"].

Definition MultisigCalls : Group :=
  rules "Multisig" ["as_multi_threshold_1"; "as_multi"; "approve_as_multi"; "cancel_as_multi";
    "poke_deposit"; "as_multi_threshold_1_safe"; "as_multi_safe"; "approve_as_multi_safe";
    "cancel_as_multi_safe"; "poke_deposit_safe"].

Definition PreimageCalls : Group :=
  rules "Preimage" ["note_preimage"; "unnote_preimage"; "request_preimage"; "unrequest_preimage";
    "ensure_updated"].

Definition SchedulerCalls : Group :=
  rules "Scheduler" ["schedule"; "cancel"; "schedule_named"; "cancel_named"; "schedule_after";
    "schedule_named_after"; "set_retry"; "set_retry_named"; "cancel_retry"; "cancel_retry_named"].

Definition RestrictedProxyCalls : Group :=
  rules "Proxy" ["proxy"; "add_proxy"; "remove_proxy"; "remove_proxies"; "create_pure"; "kill_pure";
    "create_safe_pure"; "kill_safe_pure"; "remove_announcement"; "reject_announcement";
    "proxy_announced"; "poke_deposit"; "set_real_pays_fee"].

Definition ProxyAnnouncementCalls : Group :=
  rules "Proxy" ["announce"].

Definition CommitmentCalls : Group :=
  rules "Commitments" ["set_commitment"].

Definition CommitmentsAdminCalls : Group :=
  rules "Commitments" ["set_max_space"].

Definition BalanceTransferCalls : Group :=
  rules "Balances" ["transfer_keep_alive"; "transfer_allow_death"; "transfer_all"] ++
  rules "EVM" ["deposit"].

Definition BalanceMaintenanceCalls : Group :=
  rules "Balances" ["force_transfer"; "force_unreserve"; "upgrade_accounts"; "force_set_balance";
    "force_adjust_total_issuance"; "burn"].

Definition StakeManagementCalls : Group :=
  rules "SubtensorModule" ["add_stake"; "add_stake_limit"; "remove_stake"; "remove_stake_limit";
    "remove_stake_full_limit"; "unstake_all"; "unstake_all_alpha"; "move_stake"; "move_stake_limit";
    "swap_stake"; "swap_stake_limit"; "stake_into_basket"; "add_collateral"; "set_min_collateral"].

Definition StakeTransferCalls : Group :=
  rules "SubtensorModule" ["transfer_stake"; "transfer_stake_and_hotkey"].

Definition PowRegistrationCalls : Group :=
  rules "SubtensorModule" ["pow_register"].

Definition BurnedRegistrationCalls : Group :=
  rules "SubtensorModule" ["register"; "register_limit"; "burned_register"].

Definition RootRegistrationCalls : Group :=
  rules "SubtensorModule" ["root_register"].

Definition HotkeySwapCalls : Group :=
  rules "SubtensorModule" ["swap_hotkey"; "swap_hotkey_v2"].

Definition ColdkeySwapCalls : Group :=
  rules "SubtensorModule" ["schedule_swap_coldkey"; "swap_coldkey"; "announce_coldkey_swap";
    "announce_coldkey_swap_v2"; "swap_coldkey_announced"; "clear_coldkey_swap_announcement";
    "dispute_coldkey_swap"; "reset_coldkey_swap"; "reset_coldkey_swap_keep_locked";
    "release_own_coldkey_swap_destination_reservation"].

Definition CriticalNetworkCalls : Group :=
  rules "SubtensorModule" ["dissolve_network"; "root_dissolve_network"].

Definition ChildKeyCalls : Group :=
  rules "SubtensorModule" ["set_children"; "set_childkey_take"].

Definition RootClaimCalls : Group :=
  rules "SubtensorModule" ["claim_root"; "claim_root_with_hotkey"].

Definition BasketTradingCalls : Group :=
  rules "SubtensorModule" ["swap_basket"; "swap_basket_many"].

Definition GammaSpendCalls : Group :=
  rules "SubtensorModule" ["spend_gamma"].

Definition GammaCreditCalls : Group :=
  rules "SubtensorModule" ["mint_gamma"; "mint_gamma_with_stake"; "move_gamma"].

Definition GammaDepositAuthorityCalls : Group :=
  rules "SubtensorModule" ["set_gamma_deposit_spender"; "set_gamma_deposit_daily_spend_cap"].

Definition ServiceCalls : Group :=
  rules "SubtensorModule" ["set_service"].

Definition SubnetIdentityCalls : Group :=
  rules "SubtensorModule" ["set_subnet_identity"; "update_symbol"].

Definition SubnetActivationCalls : Group :=
  rules "SubtensorModule" ["start_call"].

Definition LockCalls : Group :=
  rules "SubtensorModule" ["lock_stake"; "move_lock"; "set_perpetual_lock"].

Definition SubtensorValueCalls : Group :=
  rules "SubtensorModule" ["add_stake_burn"; "recycle_alpha"; "burn_alpha"; "register_network";
    "register_network_with_identity"; "register_leased_network"; "close_gamma_deposit"].

Definition WeightCalls : Group :=
  rules "SubtensorModule" ["set_weights"; "set_mechanism_weights"; "batch_set_weights";
    "commit_weights"; "commit_mechanism_weights"; "batch_commit_weights";
    "commit_crv3_mechanism_weights"; "commit_timelocked_weights";
    "commit_timelocked_mechanism_weights"; "reveal_weights"; "reveal_mechanism_weights";
    "batch_reveal_weights"].

Definition NeuronServingCalls : Group :=
  rules "SubtensorModule" ["serve_axon"; "serve_axon_tls"; "serve_prometheus"; "associate_evm_key"].

Definition SubtensorCommonCalls : Group :=
  rules "SubtensorModule" ["set_reject_locked_alpha"; "set_reject_staking_hotkey_growth";
    "decrease_take"; "increase_take"; "set_identity"; "try_associate_hotkey";
    "set_coldkey_auto_stake_hotkey"; "set_pending_childkey_cooldown";
    "set_auto_parent_delegation_enabled"; "sudo_set_tx_childkey_take_rate_limit";
    "sudo_set_min_childkey_take"; "sudo_set_max_childkey_take"; "terminate_lease"; "trigger_epoch";
    "sudo_set_root_claim_threshold"; "enable_voting_power_tracking";
    "disable_voting_power_tracking"; "sudo_set_voting_power_ema_alpha"].

Definition SubnetManagementCalls : Group :=
  rules "SubtensorModule" ["set_tempo"; "set_activity_cutoff_factor"] ++
  rules "AdminUtils" ["sudo_set_serving_rate_limit"; "sudo_set_max_difficulty";
    "sudo_set_network_pow_registration_allowed"; "sudo_set_difficulty"; "sudo_set_min_difficulty";
    "sudo_set_weights_version_key"; "sudo_set_adjustment_alpha"; "sudo_set_immunity_period";
    "sudo_set_min_allowed_weights"; "sudo_set_rho"; "sudo_set_activity_cutoff";
    "sudo_set_activity_cutoff_factor"; "sudo_set_tempo"; "sudo_set_min_burn"; "sudo_set_max_burn";
    "sudo_set_bonds_moving_average"; "sudo_set_bonds_penalty";
    "sudo_set_min_childkey_take_per_subnet"; "sudo_set_commit_reveal_weights_enabled";
    "sudo_set_liquid_alpha_enabled"; "sudo_set_alpha_values";
    "sudo_set_liquid_alpha_consensus_mode"; "sudo_set_commit_reveal_weights_interval";
    "sudo_set_toggle_transfer"; "sudo_set_recycle_or_burn"; "sudo_set_alpha_sigmoid_steepness";
    "sudo_set_yuma3_enabled"; "sudo_set_bonds_reset_enabled"; "sudo_set_owner_immune_neuron_limit";
    "sudo_set_mechanism_count"; "sudo_set_epoch_consensus"; "sudo_set_mechanism_emission_split";
    "sudo_set_subnet_emission_weights"; "sudo_trim_to_max_allowed_uids";
    "sudo_trim_null_uids_batch"; "sudo_set_max_allowed_uids"; "sudo_set_burn_half_life";
    "sudo_set_burn_increase_mult"; "sudo_set_owner_cut_enabled";
    "sudo_set_owner_cut_auto_lock_enabled"; "sudo_set_collateral_lock_share";
    "sudo_set_collateral_drain_ratio"; "sudo_set_subnet_gamma_enabled"].

Definition RootConfigCalls : Group :=
  rules "AdminUtils" ["swap_authorities"; "schedule_grandpa_change"; "sudo_set_default_take";
    "sudo_set_tx_rate_limit"; "sudo_set_weights_set_rate_limit"; "sudo_set_adjustment_interval";
    "sudo_set_kappa"; "sudo_set_network_registration_allowed";
    "sudo_set_target_registrations_per_interval"; "sudo_set_max_allowed_validators";
    "sudo_set_max_registrations_per_block"; "sudo_set_subnet_owner_cut";
    "sudo_set_network_rate_limit"; "sudo_set_total_issuance"; "sudo_set_network_immunity_period";
    "sudo_set_network_min_lock_cost"; "sudo_set_subnet_limit"; "sudo_set_lock_reduction_interval";
    "sudo_set_rao_recycled"; "sudo_set_stake_threshold"; "sudo_set_nominator_min_required_stake";
    "sudo_set_tx_delegate_take_rate_limit"; "sudo_set_min_delegate_take";
    "sudo_set_dissolve_network_schedule_duration"; "sudo_set_evm_chain_id";
    "sudo_toggle_evm_precompile"; "sudo_set_subnet_moving_alpha";
    "sudo_set_ema_price_halving_period"; "sudo_set_subtoken_enabled";
    "sudo_set_commit_reveal_version"; "sudo_set_ck_burn"; "sudo_set_admin_freeze_window";
    "sudo_set_owner_hparam_rate_limit"; "sudo_set_min_allowed_uids"; "sudo_set_min_non_immune_uids";
    "sudo_set_tao_flow_cutoff"; "sudo_set_tao_flow_normalization_exponent";
    "sudo_set_emission_bar_quantile"; "sudo_set_emission_bar_rank";
    "sudo_set_emission_gate_exponent"; "sudo_set_tao_flow_smoothing_factor";
    "sudo_set_net_tao_flow_enabled"; "sudo_set_max_mechanism_count"; "sudo_set_start_call_delay";
    "sudo_set_coldkey_swap_announcement_delay"; "sudo_set_coldkey_swap_reannouncement_delay";
    "sudo_set_subnet_emission_enabled"; "sudo_set_max_epochs_per_block";
    "sudo_set_basket_concentration_cap"; "sudo_set_basket_trading_enabled";
    "sudo_set_hashed_accounts_enabled"; "sudo_set_hashed_account_registration_deposit";
    "sudo_set_basket_trading_frozen"; "sudo_set_basket_daily_turnover_cap";
    "sudo_set_basket_liquidity_cap"; "sudo_set_basket_min_trade_tao"; "sudo_set_basket_claim_dust";
    "sudo_set_tao_usd_price_oracle"; "sudo_set_gamma_enabled"].

Definition OwnerKeyCalls : Group :=
  rules "AdminUtils" ["sudo_set_sn_owner_hotkey"].

Definition TaoUsdPriceFeedCalls : Group :=
  rules "SubtensorModule" ["feed_tao_usd_price"].

(** Without the feature [pow-faucet], as production builds are. *)
Definition FaucetCalls : Group := [].

Definition SMALL_TRANSFER_LIMIT : Balance := 500000000.
Definition SMALL_ALPHA_TRANSFER_LIMIT : Balance := 500000000.

Definition SmallTransferCalls : Group :=
  [ mkCallInfo "Balances" "transfer_keep_alive" (Some (ParamLessThan "value" SMALL_TRANSFER_LIMIT));
    mkCallInfo "Balances" "transfer_allow_death" (Some (ParamLessThan "value" SMALL_TRANSFER_LIMIT));
    mkCallInfo "SubtensorModule" "transfer_stake"
      (Some (ParamLessThan "alpha_amount" SMALL_ALPHA_TRANSFER_LIMIT));
    mkCallInfo "SubtensorModule" "transfer_stake_and_hotkey"
      (Some (ParamLessThan "alpha_amount" SMALL_ALPHA_TRANSFER_LIMIT)) ].

Definition SudoSetCodeCalls : Group :=
  [ mkCallInfo "Sudo" "sudo_unchecked_weight" (Some (NestedCallMustBe "call" "System" "set_code")) ].

Definition InfraCommonCalls : Group :=
  SystemCalls ++ TimestampCalls ++ GrandpaCalls ++ UtilityCalls ++ PreimageCalls ++
  SchedulerCalls ++ RestrictedProxyCalls ++ CommitmentCalls ++ CommitmentsAdminCalls ++
  SafeModeCalls ++ EthereumCalls ++ BaseFeeCalls ++ DrandCalls ++ SwapCalls ++ MevShieldCalls ++
  LimitOrdersCalls.

Definition WholesalePalletCalls : Group :=
  InfraCommonCalls ++ ProxyAnnouncementCalls ++ HashedAccountsCalls ++ HashedAccountChecks ++
  SudoCalls ++ MultisigCalls ++ MevShieldStoreEncryptedCalls ++ LimitOrderApprovalCalls ++
  ProtectedAccountCreationCalls ++ EvmCalls ++ CrowdloanCalls ++ ContractsCalls.

Definition SubtensorSplitCalls : Group :=
  BalanceTransferCalls ++ BalanceMaintenanceCalls ++ StakeManagementCalls ++ StakeTransferCalls ++
  PowRegistrationCalls ++ BurnedRegistrationCalls ++ RootRegistrationCalls ++ FaucetCalls ++
  HotkeySwapCalls ++ ColdkeySwapCalls ++ CriticalNetworkCalls ++ ChildKeyCalls ++
  RootClaimCalls ++ BasketTradingCalls ++ GammaSpendCalls ++ GammaCreditCalls ++
  GammaDepositAuthorityCalls ++ ServiceCalls ++ SubnetIdentityCalls ++ SubnetActivationCalls ++
  LockCalls ++ SubtensorValueCalls ++ WeightCalls ++ NeuronServingCalls ++
  SubtensorCommonCalls ++ TaoUsdPriceFeedCalls.

Definition AdminUtilsSplitCalls : Group :=
  SubnetManagementCalls ++ RootConfigCalls ++ OwnerKeyCalls.

Definition AllCalls : Group :=
  WholesalePalletCalls ++ SubtensorSplitCalls ++ AdminUtilsSplitCalls.

(** ** The allow-lists of the proxy types *)

Definition AdminAll : Group := SubnetManagementCalls ++ RootConfigCalls.
Definition TransferAllowed : Group := BalanceTransferCalls ++ StakeTransferCalls.
Definition StakingAllowed : Group := StakeManagementCalls ++ RootClaimCalls.
Definition LockAllowed : Group := LockCalls.
Definition RegistrationAllowed : Group := PowRegistrationCalls ++ BurnedRegistrationCalls.
Definition OwnerAllowed : Group := SubnetIdentityCalls ++ SubnetManagementCalls.
Definition SubnetLeaseAllowed : Group :=
  SubnetActivationCalls ++ SubnetIdentityCalls ++ SubnetManagementCalls ++ ServiceCalls.
Definition WeightsAllowed : Group := WeightCalls.
Definition ValidateAllowed : Group := WeightCalls ++ NeuronServingCalls ++ CommitmentCalls.
Definition NonTransferAllowed : Group :=
  InfraCommonCalls ++ AdminAll ++ StakeManagementCalls ++ PowRegistrationCalls ++
  BurnedRegistrationCalls ++ FaucetCalls ++ RootRegistrationCalls ++ HotkeySwapCalls ++
  CriticalNetworkCalls ++ ChildKeyCalls ++ RootClaimCalls ++ SubnetIdentityCalls ++
  SubnetActivationCalls ++ LockCalls ++ SubtensorValueCalls ++ WeightCalls ++
  NeuronServingCalls ++ SubtensorCommonCalls.
Definition NonFungibleAllowed : Group :=
  InfraCommonCalls ++ AdminAll ++ PowRegistrationCalls ++ FaucetCalls ++ CriticalNetworkCalls ++
  ChildKeyCalls ++ RootClaimCalls ++ SubnetIdentityCalls ++ SubnetActivationCalls ++
  WeightCalls ++ NeuronServingCalls ++ SubtensorCommonCalls.
Definition NonCriticalAllowed : Group :=
  InfraCommonCalls ++ ContractsCalls ++ AdminAll ++ BalanceTransferCalls ++
  BalanceMaintenanceCalls ++ StakeManagementCalls ++ StakeTransferCalls ++
  PowRegistrationCalls ++ FaucetCalls ++ HotkeySwapCalls ++ ChildKeyCalls ++ RootClaimCalls ++
  SubnetIdentityCalls ++ SubnetActivationCalls ++ LockCalls ++ SubtensorValueCalls ++
  WeightCalls ++ NeuronServingCalls ++ GammaCreditCalls ++ GammaDepositAuthorityCalls ++
  ServiceCalls ++ SubtensorCommonCalls.

Definition supports_recipient_guards (proxy_type : ProxyType) : bool :=
  negb (is_deprecated proxy_type) &&
  negb (match proxy_type with Validate | Weights => true | _ => false end).

Definition proxy_type_filter (proxy_type : ProxyType) (call : RuntimeCall) : bool :=
  if supports_recipient_guards proxy_type && contains RecipientGuardCalls call then true
  else match proxy_type with
  | Any => true
  | Owner => contains OwnerAllowed call
  | NonCritical => contains NonCriticalAllowed call
  | NonTransfer => contains NonTransferAllowed call
  | NonFungible => contains NonFungibleAllowed call
  | Staking => contains StakingAllowed call
  | Registration => contains RegistrationAllowed call
  | Transfer => contains TransferAllowed call
  | SmallTransfer => contains SmallTransferCalls call
  | ChildKeys => contains ChildKeyCalls call
  | SwapHotkey => contains HotkeySwapCalls call
  | SubnetLeaseBeneficiary => contains SubnetLeaseAllowed call
  | RootClaim => contains RootClaimCalls call
  | BasketTrading => contains BasketTradingCalls call
  | Validate => contains ValidateAllowed call
  | Weights => contains WeightsAllowed call
  | Lock => contains LockAllowed call
  | GammaSpend => contains GammaSpendCalls call
  | SudoUncheckedSetCode => contains SudoSetCodeCalls call
  | Triumvirate | Senate | Governance | RootWeights => false
  end.

Definition is_superset (self other : ProxyType) : bool :=
  if decide (self = other) then true
  else match self, other with
  | Any, _ => true
  | _, Any => false
  | NonTransfer,
    (Owner | Senate | NonFungible | Triumvirate | Governance | Staking | Registration
    | RootWeights | ChildKeys | SwapHotkey | RootClaim | Validate | Weights | Lock) => true
  | Transfer, SmallTransfer => true
  | Staking, RootClaim => true
  | Validate, Weights => true
  | _, _ => false
  end.

Inductive FilterMode : Type :=
| AllowAll
| Allow (infos : list CallInfo).

(** The [for] loop that pushes the guard calls that are not listed yet. *)
Definition push_missing (calls infos : list CallInfo) : list CallInfo :=
  foldl (fun calls call => if decide (call ∈ calls) then calls else calls ++ [call])
    calls infos.

Definition proxy_filter_mode (proxy_type : ProxyType) : FilterMode :=
  let mode := match proxy_type with
  | Any => AllowAll
  | Owner => Allow OwnerAllowed
  | NonCritical => Allow NonCriticalAllowed
  | NonTransfer => Allow NonTransferAllowed
  | NonFungible => Allow NonFungibleAllowed
  | Staking => Allow StakingAllowed
  | Registration => Allow RegistrationAllowed
  | Transfer => Allow TransferAllowed
  | SmallTransfer => Allow SmallTransferCalls
  | ChildKeys => Allow ChildKeyCalls
  | SwapHotkey => Allow HotkeySwapCalls
  | SubnetLeaseBeneficiary => Allow SubnetLeaseAllowed
  | RootClaim => Allow RootClaimCalls
  | BasketTrading => Allow BasketTradingCalls
  | Validate => Allow ValidateAllowed
  | Weights => Allow WeightsAllowed
  | Lock => Allow LockAllowed
  | GammaSpend => Allow GammaSpendCalls
  | SudoUncheckedSetCode => Allow SudoSetCodeCalls
  | Triumvirate | Senate | Governance | RootWeights => Allow []
  end in
  match mode with
  | Allow calls =>
      if supports_recipient_guards proxy_type then Allow (push_missing calls RecipientGuardCalls)
      else mode
  | AllowAll => mode
  end.

Record ProxyTypeInfo : Type := mkProxyTypeInfo {
  type_index : Z;
  type_deprecated : bool;
}.

Record ProxyFilterInfo : Type := mkProxyFilterInfo {
  filter_proxy_type : Z;
  filter_deprecated : bool;
  filter_mode : FilterMode;
}.

(** The indices of [0u8..=u8::MAX] that are proxy types. *)
Definition proxy_type_indices : list (Z * ProxyType) :=
  omap (fun index => (fun t => (index, t)) <$> try_from index) (Z.of_nat <$> seq 0 256).

Definition get_all_proxy_type_infos : list ProxyTypeInfo :=
  (fun '(index, t) => mkProxyTypeInfo index (is_deprecated t)) <$> proxy_type_indices.

Definition is_selected (proxy_types : option (list Z)) (index : Z) : bool :=
  match proxy_types with None => true | Some selected => existsb (Z.eqb index) selected end.

Definition get_proxy_filters (proxy_types : option (list Z)) : list ProxyFilterInfo :=
  (fun '(index, t) => mkProxyFilterInfo index (is_deprecated t) (proxy_filter_mode t)) <$>
  List.filter (fun '(index, _) => is_selected proxy_types index) proxy_type_indices.

(** ** The base filter of the runtime *)

Definition is_batch (c : RuntimeCall) : bool :=
  match c with Utility_force_batch _ | Utility_batch_all _ | Utility_batch _ => true | _ => false end.

(** [NoNestingCallFilter]. *)
Definition no_nesting (call : RuntimeCall) : bool :=
  match call with
  | Utility_force_batch calls | Utility_batch calls | Utility_batch_all calls =>
      negb (existsb is_batch calls)
  | _ => true
  end.

(** ** Soundness of the filters *)

Lemma name_eqb_eq a b : name_eqb a b = true <-> a = b.
Proof.
  destruct a, b; unfold name_eqb; cbn [fst snd].
  rewrite andb_true_iff, !String.eqb_eq. split; [intros []; congruence | by intros [= -> ->]].
Qed.

Definition rule_name (r : CallInfo) : string * string := (pallet_name r, info_name r).

(** [r'] lets through every call [r] does: the same call, unconditionally or
    under the same condition. *)
Definition covers (r r' : CallInfo) : bool :=
  name_eqb (rule_name r) (rule_name r') &&
  match constraint r' with None => true | Some k => bool_decide (constraint r = Some k) end.

Lemma rule_matches_name c r : rule_matches c r = true -> call_name c = rule_name r.
Proof. unfold rule_matches. by intros [?%name_eqb_eq _]%andb_true_iff. Qed.

Lemma covers_sound c r r' : covers r r' = true -> rule_matches c r = true -> rule_matches c r' = true.
Proof.
  unfold covers, rule_matches, rule_name. intros [En%name_eqb_eq Ek]%andb_true_iff.
  injection En as <- <-. destruct (constraint r') as [k|].
  - apply bool_decide_eq_true in Ek. by rewrite Ek.
  - by intros [-> _]%andb_true_iff.
Qed.

Definition included (g g' : Group) : bool := forallb (fun r => existsb (covers r) g') g.

Lemma included_sound g g' c : included g g' = true -> contains g c = true -> contains g' c = true.
Proof.
  unfold included, contains. rewrite forallb_forall, !existsb_exists.
  intros Hi (r & Hr & Hm). apply Hi, existsb_exists in Hr as (r' & Hr' & Hc).
  exists r'. eauto using covers_sound.
Qed.

Lemma contains_app g g' c : contains (g ++ g') c = contains g c || contains g' c.
Proof. apply existsb_app. Qed.

(** The allow-list of a restricted type, its guard calls included. *)
Definition allowed (t : ProxyType) : option Group :=
  match proxy_filter_mode t with AllowAll => None | Allow infos => Some infos end.

Lemma push_missing_contains c infos calls :
  contains (push_missing calls infos) c = contains calls c || contains infos c.
Proof.
  unfold push_missing. revert calls. induction infos as [|i infos IH]; intros calls; cbn [foldl].
  - by rewrite orb_false_r.
  - rewrite IH. change (contains (i :: infos) c) with (rule_matches c i || contains infos c).
    destruct (decide (i ∈ calls)) as [Hin|_].
    + destruct (rule_matches c i) eqn:Em; [|done].
      cut (contains calls c = true); [by intros -> |].
      apply existsb_exists. exists i. by rewrite <- list_elem_of_In.
    + rewrite contains_app. cbn [contains existsb]. by rewrite orb_false_r, orb_assoc.
Qed.

Lemma filter_allowed t c :
  proxy_type_filter t c = match allowed t with None => true | Some g => contains g c end.
Proof.
  unfold proxy_type_filter, allowed, proxy_filter_mode.
  destruct (supports_recipient_guards t) eqn:Es; cbn [andb].
  - destruct t; try discriminate Es; try rewrite push_missing_contains;
      by destruct (contains RecipientGuardCalls c); rewrite ?orb_true_r, ?orb_false_r.
  - by destruct t.
Qed.

(** The mapping to [u8] and back. *)
Lemma type_index_exact t : try_from (from_proxy_type t) = Some t.
Proof. by destruct t. Qed.

Lemma index_type_exact v t : try_from v = Some t -> from_proxy_type t = v.
Proof.
  intros H. destruct v as [|p|p]; try discriminate; [by injection H as <-|].
  do 5 (destruct p as [p|p|]; try discriminate; try (injection H as <-; reflexivity)).
Qed.

Lemma indexed_types v t : In (v, t) proxy_type_indices <-> try_from v = Some t.
Proof.
  unfold proxy_type_indices. rewrite <- list_elem_of_In, list_elem_of_omap. split.
  - intros (v' & _ & Hv). destruct (try_from v') as [t'|] eqn:E; [|done].
    by injection Hv as <- <-.
  - intros H. exists v. rewrite H. split; [|done]. apply list_elem_of_fmap.
    exists (Z.to_nat v). rewrite <- (index_type_exact v t H), elem_of_seq.
    by destruct t; cbn; lia.
Qed.

#[local] Opaque proxy_filter_mode proxy_type_indices.

(** The metadata served to clients and the filter the
    runtime applies agree: a proxy type lets a call through exactly when its
    published mode allows all calls or lists a rule that matches the call, and
    the published list has the entry of every type that was asked for under its
    own index. *)
Theorem filter_mode_exact (t : ProxyType) (selected : option (list Z)) :
  (forall c, proxy_type_filter t c =
     match proxy_filter_mode t with
     | AllowAll => true
     | Allow infos => existsb (rule_matches c) infos
     end) /\
  (is_selected selected (from_proxy_type t) = true <->
     mkProxyFilterInfo (from_proxy_type t) (is_deprecated t) (proxy_filter_mode t)
       ∈ get_proxy_filters selected) /\
  (forall info, info ∈ get_proxy_filters selected -> exists t',
     info = mkProxyFilterInfo (from_proxy_type t') (is_deprecated t') (proxy_filter_mode t')).
Proof.
  split; [|split].
  - intros c. rewrite filter_allowed. unfold allowed, contains. by destruct (proxy_filter_mode t).
  - unfold get_proxy_filters. rewrite list_elem_of_fmap. split.
    + intros Hs. exists (from_proxy_type t, t). split; [done|].
      apply list_elem_of_In, filter_In. split; [|done]. apply indexed_types. exact (type_index_exact t).
    + intros ([i t'] & [= <- _ _] & Hin). apply list_elem_of_In, filter_In in Hin. by destruct Hin.
  - intros info ([i t'] & -> & Hin)%list_elem_of_fmap. exists t'.
    apply list_elem_of_In, filter_In in Hin as [Hin _].
    apply indexed_types in Hin. by rewrite (index_type_exact _ _ Hin).
Qed.

#[local] Transparent proxy_filter_mode proxy_type_indices.

Definition proxy_types : list ProxyType :=
  [ Any; Owner; NonCritical; NonTransfer; Senate; NonFungible; Triumvirate; Governance; Staking;
    Registration; Transfer; SmallTransfer; RootWeights; ChildKeys; SudoUncheckedSetCode;
    SwapHotkey; SubnetLeaseBeneficiary; RootClaim; BasketTrading; Validate; Weights; Lock;
    GammaSpend ].

Lemma proxy_types_all t : In t proxy_types.
Proof. destruct t; cbn; tauto. Qed.

(** A decidable fact about every pair of types, checked by evaluation. *)
Lemma every_pair (P : ProxyType -> ProxyType -> bool) :
  forallb (fun x => forallb (P x) proxy_types) proxy_types = true -> forall x y, P x y = true.
Proof.
  intros H x y. rewrite forallb_forall in H. specialize (H x (proxy_types_all x)).
  rewrite forallb_forall in H. exact (H y (proxy_types_all y)).
Qed.

Lemma every_type (P : ProxyType -> bool) :
  forallb P proxy_types = true -> forall t, P t = true.
Proof. intros H t. rewrite forallb_forall in H. exact (H t (proxy_types_all t)). Qed.

Definition subordinate (x y : ProxyType) : bool :=
  match allowed x, allowed y with
  | None, _ => true
  | Some g, Some g' => included g' g
  | Some _, None => false
  end.

Lemma supersets_include x y : implb (is_superset x y) (subordinate x y) = true.
Proof.
  revert x y.
  apply (every_pair (fun x y => implb (is_superset x y) (subordinate x y))).
  vm_compute. reflexivity.
Qed.

Lemma supersets_compose x y z :
  is_superset x y = true -> is_superset y z = true -> is_superset x z = true.
Proof.
  assert (H : forall x y, forallb (fun z =>
    implb (is_superset x y && is_superset y z) (is_superset x z)) proxy_types = true).
  { apply (every_pair (fun x y => forallb (fun z =>
      implb (is_superset x y && is_superset y z) (is_superset x z)) proxy_types)).
    vm_compute. reflexivity. }
  intros H1 H2. specialize (H x y). rewrite forallb_forall in H.
  specialize (H z (proxy_types_all z)). by rewrite H1, H2 in H.
Qed.

(** (C28) The order on proxy types is a preorder that is sound for
    the filters: when a type is a superset of another, every call the other may
    make it may make as well.  So the proxies a delegate may add or remove for
    its principal never reach a call the delegate could not make itself. *)
Theorem superset_sound (x y : ProxyType) :
  is_superset x y = true ->
  (forall c, proxy_type_filter y c = true -> proxy_type_filter x c = true) /\
  (forall z, is_superset y z = true -> is_superset x z = true).
Proof.
  intros Hs. split; [|intros z; by apply supersets_compose].
  intros c. pose proof (supersets_include x y) as H. rewrite Hs in H. cbn [implb] in H.
  rewrite !filter_allowed. unfold subordinate in H.
  destruct (allowed x) as [g|]; [|done]. destruct (allowed y) as [g'|]; [|done].
  by apply included_sound.
Qed.

Lemma superset_sound_witness :
  proxy_type_filter NonTransfer (OtherCall "SubtensorModule" "add_stake" [] []) = true.
Proof.
  apply (superset_sound NonTransfer Staking eq_refl). vm_compute. reflexivity.
Defined.

(** No rule of the one group has the name of a rule of the other. *)
Definition disjoint (g g' : Group) : bool :=
  forallb (fun r => negb (existsb (fun r' => name_eqb (rule_name r) (rule_name r')) g')) g.

Lemma disjoint_sound g g' c : disjoint g g' = true -> contains g c = true -> contains g' c = false.
Proof.
  unfold disjoint, contains. rewrite forallb_forall, existsb_exists.
  intros Hd (r & Hr & Hm). apply Hd, negb_true_iff in Hr.
  apply not_true_iff_false. intros (r' & Hr' & Hm')%existsb_exists.
  apply not_true_iff_false in Hr. apply Hr, existsb_exists. exists r'. split; [done|].
  apply name_eqb_eq. by rewrite <- (rule_matches_name _ _ Hm), (rule_matches_name _ _ Hm').
Qed.

(** The calls that dispatch a supplied call on an origin without the proxy's
    filter, or that hand out an authority that outlives it. *)
Definition EscapingCalls : Group :=
  MultisigCalls ++ MevShieldStoreEncryptedCalls ++ LimitOrderApprovalCalls ++
  ProtectedAccountCreationCalls ++ ProxyAnnouncementCalls ++ EvmCalls ++ CrowdloanCalls ++
  HashedAccountsCalls ++ OwnerKeyCalls ++ ColdkeySwapCalls ++ TaoUsdPriceFeedCalls.

Definition confined (t : ProxyType) : bool :=
  match allowed t with
  | None => bool_decide (t = Any)
  | Some g =>
    disjoint g EscapingCalls &&
    (bool_decide (t = SudoUncheckedSetCode) || disjoint g SudoCalls) &&
    (bool_decide (t = Transfer \/ t = SmallTransfer \/ t = NonCritical) ||
     disjoint g TransferAllowed)
  end.

Lemma types_confined t : confined t = true.
Proof. revert t. apply (every_type confined). vm_compute. reflexivity. Qed.

(** What a restricted type lets through is not an escaping call, and it is a
    sudo call or a transfer only for the types made for them. *)
Lemma restricted_confined t c :
  t <> Any -> proxy_type_filter t c = true ->
  contains EscapingCalls c = false /\
  (t <> SudoUncheckedSetCode -> contains SudoCalls c = false) /\
  (~ (t = Transfer \/ t = SmallTransfer \/ t = NonCritical) -> contains TransferAllowed c = false).
Proof.
  intros Hn. rewrite filter_allowed. pose proof (types_confined t) as H. unfold confined in H.
  destruct (allowed t) as [g|]; [|by apply bool_decide_eq_true in H].
  intros Hc. apply andb_true_iff in H as [[He Hs]%andb_true_iff Ht].
  split; [by apply (disjoint_sound g)|]. split.
  - intros Hsudo. rewrite bool_decide_eq_false_2 in Hs by done. by apply (disjoint_sound g).
  - intros Htr. rewrite bool_decide_eq_false_2 in Ht by done. by apply (disjoint_sound g).
Qed.

(** The guard calls are none of the calls a type is made for. *)
Lemma guards_disjoint : disjoint RecipientGuardCalls (SudoCalls ++ TransferAllowed) = true.
Proof. vm_compute. reflexivity. Qed.

Lemma past_the_guards t c :
  proxy_type_filter t c = true -> contains (SudoCalls ++ TransferAllowed) c = true ->
  contains RecipientGuardCalls c = false.
Proof.
  intros _ H. apply not_true_iff_false. intros Hg.
  by rewrite (disjoint_sound _ _ c guards_disjoint Hg) in H.
Qed.

Lemma sudo_set_code_call c :
  contains SudoSetCodeCalls c = true -> exists ps ns inner,
  c = OtherCall "Sudo" "sudo_unchecked_weight" ps ns /\
  assoc "call" ns = Some inner /\ call_name inner = ("System", "set_code").
Proof.
  unfold contains. cbn [existsb SudoSetCodeCalls]. rewrite orb_false_r. intros H.
  pose proof (rule_matches_name _ _ H) as Hn. unfold rule_matches in H. bool_to_prop.
  destruct c; try discriminate Hn. cbn in *. injection Hn as -> ->.
  destruct (assoc "call" nested) as [inner|] eqn:E; [|naive_solver].
  exists params, nested, inner. rewrite <- name_eqb_eq. naive_solver.
Qed.

Lemma small_transfer_call c :
  contains SmallTransferCalls c = true -> exists p n ps ns v,
  c = OtherCall p n ps ns /\ (assoc "value" ps = Some v \/ assoc "alpha_amount" ps = Some v) /\
  v < SMALL_TRANSFER_LIMIT.
Proof.
  unfold contains. intros (r & Hr & H)%existsb_exists.
  destruct c as [| | | | | | | | | | | | | | | | | | | | | | | | | | | | | |p n ps ns];
    try (apply andb_true_iff in H as [_ H]; repeat destruct Hr as [<-|Hr]; done).
  exists p, n, ps, ns. apply andb_true_iff in H as [_ H].
  repeat destruct Hr as [<-|Hr]; [..|done]; cbn [constraint] in H;
    (case_match eqn:E; [|done]); eexists; (split; [done|]); (split; [eauto|]);
    by apply Z.ltb_lt.
Qed.

(** Which powers the proxy types separate.  Whatever a
    restricted type may call, it is never a wrapper that drops the proxy's
    filter nor a call that hands out a lasting authority (multisig wrappers,
    encrypted calls, order approvals, protected accounts, announcements, EVM,
    crowdloans, hashed accounts, owner-key and coldkey rotation, price feed).
    Only [SudoUncheckedSetCode] reaches sudo, and only to set the runtime code;
    only [Transfer], [NonCritical] and [SmallTransfer] reach a transfer, the
    last one only below the limit. *)
Theorem restricted_grants (t : ProxyType) (c : RuntimeCall) :
  t <> Any -> proxy_type_filter t c = true ->
  contains EscapingCalls c = false /\
  (contains SudoCalls c = true -> t = SudoUncheckedSetCode /\ exists ps ns inner,
     c = OtherCall "Sudo" "sudo_unchecked_weight" ps ns /\
     assoc "call" ns = Some inner /\ call_name inner = ("System", "set_code")) /\
  (contains TransferAllowed c = true -> (t = Transfer \/ t = SmallTransfer \/ t = NonCritical) /\
     (t = SmallTransfer -> exists p n ps ns v, c = OtherCall p n ps ns /\
        (assoc "value" ps = Some v \/ assoc "alpha_amount" ps = Some v) /\
        v < SMALL_TRANSFER_LIMIT)).
Proof.
  intros Hn Hf. pose proof (restricted_confined t c Hn Hf) as (He & Hs & Ht).
  pose proof (past_the_guards t c Hf) as Hg. rewrite contains_app in Hg.
  split; [done|]. split; intros Hc; rewrite Hc, ?orb_true_r in Hg; specialize (Hg eq_refl).
  - destruct (decide (t = SudoUncheckedSetCode)) as [->|Ht'].
    + split; [done|]. apply sudo_set_code_call. revert Hf. unfold proxy_type_filter. by rewrite Hg.
    + rewrite (Hs Ht') in Hc. discriminate.
  - destruct (decide (t = Transfer \/ t = SmallTransfer \/ t = NonCritical)) as [Ht'|Ht'].
    + split; [done|]. intros ->. apply small_transfer_call.
      revert Hf. unfold proxy_type_filter. by rewrite Hg.
    + rewrite (Ht Ht') in Hc. discriminate.
Qed.

Lemma restricted_grants_witness : exists p n ps ns v,
  OtherCall "Balances" "transfer_keep_alive" [("value", 7)] [] = OtherCall p n ps ns /\
  (assoc "value" ps = Some v \/ assoc "alpha_amount" ps = Some v) /\ v < SMALL_TRANSFER_LIMIT.
Proof.
  refine (proj2 (proj2 (proj2 (restricted_grants SmallTransfer
    (OtherCall "Balances" "transfer_keep_alive" [("value", 7)] []) _ _)) _) _);
    by vm_compute.
Defined.

Definition in_inventory (t : ProxyType) : bool :=
  match allowed t with None => true | Some g => included g AllCalls end.

Lemma types_in_inventory t : in_inventory t = true.
Proof. revert t. apply (every_type in_inventory). vm_compute. reflexivity. Qed.

(** The call groups partition the runtime's calls: no call is in two groups, and
    every rule of a restricted type is about a call of a group. *)
Lemma groups_partition :
  NoDup (rule_name <$> AllCalls) /\
  (forall t infos r, proxy_filter_mode t = Allow infos -> r ∈ infos ->
     rule_name r ∈ rule_name <$> AllCalls).
Proof.
  split; [apply (bool_decide_eq_true_1 (NoDup (rule_name <$> AllCalls))); vm_compute; reflexivity|].
  intros t infos r Hm Hr. pose proof (types_in_inventory t) as H.
  unfold in_inventory, allowed in H. rewrite Hm in H. unfold included in H.
  rewrite forallb_forall in H. apply list_elem_of_In, H, existsb_exists in Hr as (r' & Hr' & Hc).
  unfold covers in Hc. apply andb_true_iff in Hc as [Hc%name_eqb_eq _]. rewrite Hc.
  by apply list_elem_of_fmap_2, list_elem_of_In.
Qed.
