(* ===== verification/Dispatch.v ===== *)
(** * Dispatch: origins, filters and the pallets that dispatch calls

    Models the three pallets whose calls carry other calls,
    src/pallets/utility/src/lib.rs, src/pallets/proxy/src/lib.rs and
    src/pallets/multisig/src/lib.rs, and how the runtime runs a call: the
    filter of the origin, the guard of src/pallets/subtensor/src/guards/
    check_coldkey_swap.rs, the storage layer around each call.

    An origin is its caller and its filter, a function of the state as the
    closures of the source are.  [dispatch_bypass_filter] runs a call by
    structural recursion on it; the handlers of the wrapper calls take the inner
    calls together with the function that runs them.  Each call that runs is
    recorded in [executed] inside its storage layer, so that the record holds
    the calls whose effects are in the state, and nothing else.

    A call of another pallet is a program [OtherProg] that reads the state,
    changes the rest of the chain and reaches the storage of the Proxy pallet
    only through the functions this pallet exports to it.  The currency, the
    hash functions, the account policies and the remaining guards are fields of
    [Config].  Weights and fees are not modelled, except the comparison of the
    weight of a multisig call with the limit its sender gives. *)

From Stdlib Require Import ZArith Lia String.
From stdpp Require Import base gmap list fin_maps strings.
From S2P Require Import Prelude Calls.

Local Open Scope string_scope.
Local Open Scope list_scope.
Local Open Scope Z_scope.

(** ** Errors and events *)

Module Multisig.
Inductive Error : Type :=
| MinimumThreshold | AlreadyApproved | NoApprovalsNeeded | TooFewSignatories
| TooManySignatories | SignatoriesOutOfOrder | SenderInSignatories | NotFound | NotOwner
| NoTimepoint | WrongTimepoint | UnexpectedTimepoint | MaxWeightTooLow | AlreadyStored
| SafeDerivationFailed | InvalidSafeAccountId | ThresholdTooHigh.
End Multisig.

Module Proxy.
Inductive Error : Type :=
| TooMany | NotFound | NotProxy | Unproxyable | Duplicate | NoPermission | Unannounced
| NoSelfProxy | AnnouncementDepositInvariantViolated | InvalidDerivedAccountId
| AccountPolicyViolation | SafeDerivationFailed.
End Proxy.

Module Utility.
Inductive Error : Type :=
| TooManyCalls | InvalidDerivedAccount | SafeDerivationFailed.
End Utility.

Inductive DispatchError : Type :=
| CallFiltered
| BadOrigin
| ColdkeySwapDisputed
| ColdkeySwapAnnounced
| MultisigError (e : Multisig.Error)
| ProxyError (e : Proxy.Error)
| UtilityError (e : Utility.Error)
| OtherError (message : string)
| RuntimeError (code : Z).

Abbreviation DispatchResult := (result unit DispatchError).

Inductive DepositKind : Type := ProxiesDeposit | AnnouncementsDeposit.

Inductive Event : Type :=
(* Multisig *)
| NewMultisig (approving multisig : AccountId) (call_hash : Hash)
| MultisigApproval (approving : AccountId) (timepoint : Timepoint) (multisig : AccountId)
    (call_hash : Hash)
| MultisigExecuted (approving : AccountId) (timepoint : Timepoint) (multisig : AccountId)
    (call_hash : Hash) (res : DispatchResult)
| MultisigCancelled (cancelling : AccountId) (timepoint : Timepoint) (multisig : AccountId)
    (call_hash : Hash)
| MultisigDepositPoked (who : AccountId) (call_hash : Hash) (old_deposit new_deposit : Balance)
(* Proxy *)
| ProxyExecuted (res : DispatchResult)
| PureCreated (pure who : AccountId) (proxy_type : ProxyType) (disambiguation_index : Z)
| PureKilled (pure spawner : AccountId) (proxy_type : ProxyType) (disambiguation_index : Z)
| Announced (real proxy : AccountId) (call_hash : Hash)
| ProxyAdded (delegator delegatee : AccountId) (proxy_type : ProxyType) (delay : BlockNumber)
| ProxyRemoved (delegator delegatee : AccountId) (proxy_type : ProxyType) (delay : BlockNumber)
| DepositPoked (who : AccountId) (kind : DepositKind) (old_deposit new_deposit : Balance)
| RealPaysFeeSet (real delegate : AccountId) (pays_fee : bool)
(* Utility *)
| BatchInterrupted (index : Z) (error : DispatchError)
| BatchCompleted
| BatchCompletedWithErrors
| ItemCompleted
| ItemFailed (error : DispatchError)
| DispatchedAs (res : DispatchResult)
| IfElseMainSuccess
| IfElseFallbackCalled (main_error : DispatchError).

(** ** Constants of the runtime *)

Definition deposit (items bytes : Z) : Balance :=
  saturating_add u64_max (saturating_mul u64_max items (2000 * 10000))
    (saturating_mul u64_max bytes (100 * 10000)).

Definition DepositBase : Balance := deposit 1 112.
Definition DepositFactor : Balance := deposit 0 32.
Definition MaxSignatories : Z := 100.
Definition ProxyDepositBase : Balance := deposit 1 40.
Definition ProxyDepositFactor : Balance := deposit 0 33.
Definition MaxProxies : Z := 20.
Definition MaxPending : Z := 15 * 5.
Definition AnnouncementDepositBase : Balance := deposit 1 16.
Definition AnnouncementDepositFactor : Balance := deposit 0 68.
Definition MAX_DERIVATION_ATTEMPTS : nat := 64.

(** ** What the pallets take from the runtime *)

(** What a derived account is derived from; the three kinds are hashed under
    different domains. *)
Inductive Manifest : Type :=
| MultisigManifest (who : list AccountId) (threshold : Z)
| DerivativeManifest (who : AccountId) (index : Z)
| PureManifest (who : AccountId) (proxy_type : ProxyType) (index : Z)
    (height : BlockNumber) (ext_index : Z).

Class Config : Type := {
  (** The state of every other pallet. *)
  Chain : Type;

  (** [ReservableCurrency]: [unreserve] returns what it could not unreserve. *)
  reserve : AccountId -> Balance -> Chain -> result Chain DispatchError;
  unreserve : AccountId -> Balance -> Chain -> Balance * Chain;

  block_number : Chain -> BlockNumber;
  extrinsic_index : Chain -> option Z;

  (** Whether the safe mode lets a call through. *)
  safe_mode_contains : Chain -> RuntimeCall -> bool;
  ColdkeySwapDisputes : Chain -> AccountId -> option BlockNumber;
  ColdkeySwapAnnouncements_contains_key : Chain -> AccountId -> bool;
  (** The other dispatch guards: they may refuse a call, and change nothing. *)
  other_guards : OriginCaller -> RuntimeCall -> Chain -> DispatchResult;

  (** [AccountPolicy] and [DerivedAccountPolicy]. *)
  policy_contains : Chain -> AccountId -> AccountId -> bool;
  is_protected : Chain -> AccountId -> bool;
  requires_protection : Chain -> AccountId -> bool;
  on_create_protected_pure : AccountId -> AccountId -> ProxyType -> Z -> BlockNumber -> Z ->
    Chain -> result Chain DispatchError;
  on_protected_derivative : AccountId -> AccountId -> Z -> Chain -> result Chain DispatchError;

  (** Hashing: of a call, of a manifest the legacy way, and of a manifest under
      its safe domain with the number of the attempt. *)
  blake2_call : RuntimeCall -> Hash;
  blake2_legacy : Manifest -> AccountId;
  blake2_safe : Manifest -> Z -> AccountId;
  rejects_legacy_public_keys : AccountId -> bool;

  call_weight : RuntimeCall -> Weight;
  size_of_call : Z;
  MAX_POSSIBLE_ALLOCATION : Z;
}.

(** ** Storage *)

Record MultisigOp : Type := mkMultisig {
  when : Timepoint;
  ms_deposit : Balance;
  depositor : AccountId;
  approvals : list AccountId;
}.

Record ProxyDefinition : Type := mkProxyDefinition {
  delegate : AccountId;
  proxy_type : ProxyType;
  delay : BlockNumber;
}.

Record Announcement : Type := mkAnnouncement {
  real : AccountId;
  ann_hash : Hash;
  ann_height : BlockNumber;
}.

#[global] Instance ProxyDefinition_eq_dec : EqDecision ProxyDefinition.
Proof. solve_decision. Defined.
#[global] Instance Announcement_eq_dec : EqDecision Announcement.
Proof. solve_decision. Defined.

Section runtime.
Context {T : Config}.

Record State : Type := mkState {
  Multisigs : gmap (AccountId * Hash) MultisigOp;
  Proxies : gmap AccountId (list ProxyDefinition * Balance);
  Announcements : gmap AccountId (list Announcement * Balance);
  AnnouncementValidFrom : option BlockNumber;
  LastCallResult : gmap AccountId DispatchResult;
  RealPaysFee : gset (AccountId * AccountId);
  Events : list Event;
  chain : Chain;
  (** The calls that ran and whose effects stand, latest first. *)
  executed : list (OriginCaller * RuntimeCall);
}.

Abbreviation D := (M State DispatchError).

Definition set_multisigs (f : gmap (AccountId * Hash) MultisigOp -> gmap (AccountId * Hash) MultisigOp)
    (s : State) : State :=
  mkState (f (Multisigs s)) (Proxies s) (Announcements s) (AnnouncementValidFrom s)
    (LastCallResult s) (RealPaysFee s) (Events s) (chain s) (executed s).
Definition set_proxies (f : gmap AccountId (list ProxyDefinition * Balance) ->
    gmap AccountId (list ProxyDefinition * Balance)) (s : State) : State :=
  mkState (Multisigs s) (f (Proxies s)) (Announcements s) (AnnouncementValidFrom s)
    (LastCallResult s) (RealPaysFee s) (Events s) (chain s) (executed s).
Definition set_announcements (f : gmap AccountId (list Announcement * Balance) ->
    gmap AccountId (list Announcement * Balance)) (s : State) : State :=
  mkState (Multisigs s) (Proxies s) (f (Announcements s)) (AnnouncementValidFrom s)
    (LastCallResult s) (RealPaysFee s) (Events s) (chain s) (executed s).
Definition set_valid_from (b : option BlockNumber) (s : State) : State :=
  mkState (Multisigs s) (Proxies s) (Announcements s) b
    (LastCallResult s) (RealPaysFee s) (Events s) (chain s) (executed s).
Definition set_last_result (f : gmap AccountId DispatchResult -> gmap AccountId DispatchResult)
    (s : State) : State :=
  mkState (Multisigs s) (Proxies s) (Announcements s) (AnnouncementValidFrom s)
    (f (LastCallResult s)) (RealPaysFee s) (Events s) (chain s) (executed s).
Definition set_real_pays (f : gset (AccountId * AccountId) -> gset (AccountId * AccountId))
    (s : State) : State :=
  mkState (Multisigs s) (Proxies s) (Announcements s) (AnnouncementValidFrom s)
    (LastCallResult s) (f (RealPaysFee s)) (Events s) (chain s) (executed s).
Definition set_events (f : list Event -> list Event) (s : State) : State :=
  mkState (Multisigs s) (Proxies s) (Announcements s) (AnnouncementValidFrom s)
    (LastCallResult s) (RealPaysFee s) (f (Events s)) (chain s) (executed s).
Definition set_chain (c : Chain) (s : State) : State :=
  mkState (Multisigs s) (Proxies s) (Announcements s) (AnnouncementValidFrom s)
    (LastCallResult s) (RealPaysFee s) (Events s) c (executed s).
Definition set_executed (f : list (OriginCaller * RuntimeCall) -> list (OriginCaller * RuntimeCall))
    (s : State) : State :=
  mkState (Multisigs s) (Proxies s) (Announcements s) (AnnouncementValidFrom s)
    (LastCallResult s) (RealPaysFee s) (Events s) (chain s) (f (executed s)).

Definition deposit_event (e : Event) : D unit := modify (set_events (cons e)).

Definition currency_reserve (who : AccountId) (amount : Balance) : D unit :=
  c ← gets chain;
  match reserve who amount c with
  | Ok c' => modify (set_chain c')
  | Err e => fail e
  end.

Definition currency_unreserve (who : AccountId) (amount : Balance) : D Balance :=
  c ← gets chain;
  modify (set_chain (unreserve who amount c).2);;
  mret (unreserve who amount c).1.

(** The values of the [ValueQuery] maps. *)
Definition proxies_of (s : State) (a : AccountId) : list ProxyDefinition * Balance :=
  default ([], 0) (Proxies s !! a).
Definition announcements_of (s : State) (a : AccountId) : list Announcement * Balance :=
  default ([], 0) (Announcements s !! a).

(** ** Origins *)

Record Origin : Type := mkOrigin {
  caller : OriginCaller;
  origin_filter : State -> RuntimeCall -> bool;
}.

(** [BaseCallFilter], the safe mode and [NoNestingCallFilter]. *)
Definition base_filter (s : State) (c : RuntimeCall) : bool :=
  safe_mode_contains (chain s) c && no_nesting c.

(** A fresh origin: root without a filter, any other with the base filter. *)
Definition origin_from (c : OriginCaller) : Origin :=
  mkOrigin c (match c with Root => fun _ _ => true | _ => base_filter end).

Definition filter_call (o : Origin) (s : State) (c : RuntimeCall) : bool :=
  match caller o with Root => true | _ => origin_filter o s c end.

Definition add_filter (o : Origin) (f : State -> RuntimeCall -> bool) : Origin :=
  mkOrigin (caller o) (fun s c => origin_filter o s c && f s c).

(** The caller changes, the filter stays. *)
Definition set_caller_from (o : Origin) (c : OriginCaller) : Origin :=
  mkOrigin c (origin_filter o).

Definition ensure_signed (o : Origin) : D AccountId :=
  match caller o with Signed who => mret who | _ => fail BadOrigin end.
Definition ensure_root (o : Origin) : D unit :=
  match caller o with Root => mret () | _ => fail BadOrigin end.
Definition is_root (o : Origin) : bool := match caller o with Root => true | _ => false end.
Definition is_none (o : Origin) : bool := match caller o with NoneOrigin => true | _ => false end.

(** ** The guard against coldkey swaps *)

Definition is_call (c : RuntimeCall) (pallet : string) (names : list string) : bool :=
  existsb (fun n => name_eqb (call_name c) (pallet, n)) names.

Definition is_allowed_during_swap (c : RuntimeCall) (locked : bool) : bool :=
  is_call c "SubtensorModule" ["announce_coldkey_swap"; "announce_coldkey_swap_v2";
    "swap_coldkey_announced"; "dispute_coldkey_swap"] ||
  is_call c "MevShield" ["submit_encrypted"] ||
  (negb locked && is_call c "SubtensorModule" ["clear_coldkey_swap_announcement";
    "release_own_coldkey_swap_destination_reservation"]).

Definition check (ch : Chain) (who : AccountId) (c : RuntimeCall) : DispatchResult :=
  let dispute := ColdkeySwapDisputes ch who in
  if match dispute with Some at_block => negb (at_block =? 0) | None => false end
  then Err ColdkeySwapDisputed
  else
    let locked := match dispute with Some _ => true | None => false end in
    if negb locked && negb (ColdkeySwapAnnouncements_contains_key ch who) then Ok tt
    else if is_allowed_during_swap c locked then Ok tt else Err ColdkeySwapAnnounced.

Definition from_result (r : DispatchResult) : D unit :=
  match r with Ok _ => mret () | Err e => fail e end.

(** The guards of [DispatchExtension], which root bypasses: the coldkey swap
    guard looks at signed origins only. *)
Definition pre_dispatch (o : Origin) (c : RuntimeCall) : D unit :=
  ch ← gets chain;
  match caller o with
  | Root => mret ()
  | Signed who => from_result (check ch who c);; from_result (other_guards (caller o) c ch)
  | _ => from_result (other_guards (caller o) c ch)
  end.

(** ** Dispatching a call

    A call a wrapper carries, with the function that runs it without looking at
    the origin's filter. *)
Abbreviation Nested := (RuntimeCall * (Origin -> D unit))%type.

Definition nested_bypass (n : Nested) (o : Origin) : D unit := n.2 o.

(** [Dispatchable::dispatch]: the filter of the origin, the guards, the call. *)
Definition nested_dispatch (n : Nested) (o : Origin) : D unit :=
  s ← gets id;
  ensure (filter_call o s n.1) CallFiltered;;
  pre_dispatch o n.1;;
  n.2 o.

(** The result of a call as a value, for a wrapper that goes on after an error. *)
Definition attempt (m : D unit) : D DispatchResult := fun s =>
  let '(r, s') := m s in (Ok r, s').

(** ** Utility *)

Definition CALL_ALIGN : Z := 1024.

(** [div_ceil] and the rounding up of the size of a call to the alignment. *)
Definition batched_calls_limit : Z :=
  let call_size := saturating_mul u32_max ((size_of_call + CALL_ALIGN - 1) / CALL_ALIGN) CALL_ALIGN in
  unwrap_or (checked_div (MAX_POSSIBLE_ALLOCATION / 3) call_size) 0.

Definition derivative_account_id (who : AccountId) (index : Z) : AccountId :=
  blake2_legacy (DerivativeManifest who index).

Fixpoint derive_from (m : Manifest) (attempt : Z) (left : nat) : option AccountId :=
  match left with
  | O => None
  | S left' =>
      let account := blake2_safe m attempt in
      if rejects_legacy_public_keys account then Some account
      else derive_from m (attempt + 1) left'
  end.

Definition safe_derived_account (m : Manifest) : option AccountId :=
  derive_from m 0 MAX_DERIVATION_ATTEMPTS.

(** The checks the three batches start with. *)
Definition ensure_batch (o : Origin) (calls : list Nested) : D unit :=
  ensure (negb (is_none o)) BadOrigin;;
  ensure (Z.of_nat (length calls) <=? batched_calls_limit) (UtilityError Utility.TooManyCalls).

(** Root bypasses the filters of the calls it batches. *)
Definition batched_dispatch (o : Origin) (n : Nested) : D unit :=
  if is_root o then nested_bypass n o else nested_dispatch n o.

Fixpoint batch_loop (o : Origin) (index : Z) (calls : list Nested) : D unit :=
  match calls with
  | [] => deposit_event BatchCompleted
  | n :: rest =>
      r ← attempt (batched_dispatch o n);
      match r with
      | Err e => deposit_event (BatchInterrupted index e)
      | Ok _ => deposit_event ItemCompleted;; batch_loop o (index + 1) rest
      end
  end.

Definition batch (o : Origin) (calls : list Nested) : D unit :=
  ensure_batch o calls;; batch_loop o 0 calls.

Definition as_derivative (o : Origin) (index : Z) (n : Nested) : D unit :=
  who ← ensure_signed o;
  ch ← gets chain;
  ensure (negb (requires_protection ch who)) (OtherError "ProtectedDerivativeRequired");;
  nested_dispatch n (set_caller_from o (Signed (derivative_account_id who index))).

Definition not_batch_all (_ : State) (c : RuntimeCall) : bool :=
  match c with Utility_batch_all _ => false | _ => true end.

(** The calls of [batch_all] from a signed origin may not be [batch_all]. *)
Definition batch_all (o : Origin) (calls : list Nested) : D unit :=
  ensure_batch o calls;;
  for_each calls (fun n =>
    (if is_root o then nested_bypass n o
     else nested_dispatch n (add_filter o not_batch_all));;
    deposit_event ItemCompleted);;
  deposit_event BatchCompleted.

Definition dispatch_as (o : Origin) (as_origin : OriginCaller) (n : Nested) : D unit :=
  ensure_root o;;
  r ← attempt (nested_bypass n (origin_from as_origin));
  deposit_event (DispatchedAs r).

Definition force_batch (o : Origin) (calls : list Nested) : D unit :=
  ensure_batch o calls;;
  has_error ← fold_m calls false (fun has_error n =>
    r ← attempt (batched_dispatch o n);
    match r with
    | Err e => deposit_event (ItemFailed e);; mret true
    | Ok _ => deposit_event ItemCompleted;; mret has_error
    end);
  deposit_event (if has_error : bool then BatchCompletedWithErrors else BatchCompleted).

Definition with_weight (o : Origin) (n : Nested) : D unit :=
  ensure_root o;; nested_bypass n (origin_from Root).

Definition if_else (o : Origin) (main fallback : Nested) : D unit :=
  ensure (negb (is_none o)) BadOrigin;;
  r ← attempt (batched_dispatch o main);
  match r with
  | Ok _ => deposit_event IfElseMainSuccess
  | Err main_error =>
      batched_dispatch o fallback;; deposit_event (IfElseFallbackCalled main_error)
  end.

Definition dispatch_as_fallible (o : Origin) (as_origin : OriginCaller) (n : Nested) : D unit :=
  ensure_root o;;
  nested_bypass n (origin_from as_origin);;
  deposit_event (DispatchedAs (Ok tt)).

Definition as_protected_derivative (o : Origin) (index : Z) (n : Nested) : D unit :=
  who ← ensure_signed o;
  ch ← gets chain;
  ensure (requires_protection ch who) (OtherError "PqParentRequired");;
  let child := derivative_account_id who index in
  match on_protected_derivative who child index ch with
  | Err e => fail e
  | Ok ch' => modify (set_chain ch')
  end;;
  nested_dispatch n (set_caller_from o (Signed child)).

Definition as_safe_derivative (o : Origin) (index : Z) (n : Nested) : D unit :=
  who ← ensure_signed o;
  child ← ok_or (safe_derived_account (DerivativeManifest who index))
    (UtilityError Utility.SafeDerivationFailed);
  nested_dispatch n (set_caller_from o (Signed child)).

(** ** Searching a sorted list

    [binary_search] on a strictly sorted slice: the position of the element, or
    the position where it belongs. *)
Section search.
Context {A : Type} (ltb : A -> A -> bool).

Fixpoint binary_search (x : A) (l : list A) : result nat nat :=
  match l with
  | [] => Err 0%nat
  | y :: l' =>
      if ltb y x then
        match binary_search x l' with Ok i => Ok (S i) | Err i => Err (S i) end
      else if ltb x y then Err 0%nat else Ok 0%nat
  end.
End search.

Definition insert_at {A} (i : nat) (x : A) (l : list A) : list A := take i l ++ x :: drop i l.

(** ** Multisig *)

Definition multi_account_id (who : list AccountId) (threshold : Z) : AccountId :=
  blake2_legacy (MultisigManifest who threshold).

(** [windows(2).all(a < b)]. *)
Fixpoint windows_sorted (l : list AccountId) : bool :=
  match l with
  | a :: (b :: _) as l' => (a <? b) && windows_sorted l'
  | _ => true
  end.

Definition safe_multi_account_id (who : list AccountId) (threshold : Z) : D AccountId :=
  ensure (2 <=? Z.of_nat (length who)) (MultisigError Multisig.TooFewSignatories);;
  ensure (Z.of_nat (length who) <=? MaxSignatories) (MultisigError Multisig.TooManySignatories);;
  ensure (0 <? threshold) (MultisigError Multisig.MinimumThreshold);;
  ensure (threshold <=? Z.of_nat (length who)) (MultisigError Multisig.ThresholdTooHigh);;
  ensure (windows_sorted who) (MultisigError Multisig.SignatoriesOutOfOrder);;
  ok_or (safe_derived_account (MultisigManifest who threshold))
    (MultisigError Multisig.SafeDerivationFailed).

Definition account_id_for (who : list AccountId) (threshold : Z) (safe : bool) : D AccountId :=
  if safe then safe_multi_account_id who threshold else mret (multi_account_id who threshold).

(** The loop of [ensure_sorted_and_insert]: the position of the sender. *)
Fixpoint sender_index (who : AccountId) (maybe_last : option AccountId) (index : nat)
    (signatories : list AccountId) : result nat DispatchError :=
  match signatories with
  | [] => Ok index
  | item :: rest =>
      if match maybe_last with Some last => last <? item | None => true end then
        if item <=? who then
          if item =? who then Err (MultisigError Multisig.SenderInSignatories)
          else sender_index who (Some item) (S index) rest
        else sender_index who (Some item) index rest
      else Err (MultisigError Multisig.SignatoriesOutOfOrder)
  end.

Definition ensure_sorted_and_insert (other_signatories : list AccountId) (who : AccountId)
    : D (list AccountId) :=
  match sender_index who None 0 other_signatories with
  | Ok index => mret (insert_at index who other_signatories)
  | Err e => fail e
  end.

(** Unchecked arithmetic of the balance type, on a [u16] threshold. *)
Definition multisig_deposit (threshold : Z) : Balance := DepositBase + DepositFactor * threshold.

Definition timepoint (ch : Chain) : Timepoint :=
  mkTimepoint (block_number ch) (default 0 (extrinsic_index ch)).

(** The checks on the signatories that the operations share, and the account. *)
Definition signatories_account (who : AccountId) (threshold : Z) (other_signatories : list AccountId)
    (safe : bool) : D AccountId :=
  ensure (negb (bool_decide (other_signatories = []))) (MultisigError Multisig.TooFewSignatories);;
  ensure (Z.of_nat (length other_signatories) <? MaxSignatories)
    (MultisigError Multisig.TooManySignatories);;
  signatories ← ensure_sorted_and_insert other_signatories who;
  account_id_for signatories threshold safe.

Definition do_as_multi_threshold_1 (o : Origin) (other_signatories : list AccountId) (n : Nested)
    (safe : bool) : D unit :=
  who ← ensure_signed o;
  id ← signatories_account who 1 other_signatories safe;
  r ← attempt (nested_dispatch n (origin_from (Signed id)));
  ch ← gets chain;
  deposit_event (MultisigExecuted who (timepoint ch) id (blake2_call n.1) r);;
  from_result r.

Definition do_cancel_as_multi (o : Origin) (threshold : Z) (other_signatories : list AccountId)
    (tp : Timepoint) (call_hash : Hash) (safe : bool) : D unit :=
  who ← ensure_signed o;
  ensure (2 <=? threshold) (MultisigError Multisig.MinimumThreshold);;
  id ← signatories_account who threshold other_signatories safe;
  s ← gets Multisigs;
  m ← ok_or (s !! (id, call_hash)) (MultisigError Multisig.NotFound);
  ensure (bool_decide (when m = tp)) (MultisigError Multisig.WrongTimepoint);;
  ensure (depositor m =? who) (MultisigError Multisig.NotOwner);;
  currency_unreserve (depositor m) (ms_deposit m);;
  modify (set_multisigs (delete (id, call_hash)));;
  deposit_event (MultisigCancelled who tp id call_hash).

Definition do_poke_deposit (o : Origin) (threshold : Z) (other_signatories : list AccountId)
    (call_hash : Hash) (safe : bool) : D unit :=
  who ← ensure_signed o;
  ensure (2 <=? threshold) (MultisigError Multisig.MinimumThreshold);;
  id ← signatories_account who threshold other_signatories safe;
  s ← gets Multisigs;
  m ← ok_or (s !! (id, call_hash)) (MultisigError Multisig.NotFound);
  ensure (depositor m =? who) (MultisigError Multisig.NotOwner);;
  let new_deposit := multisig_deposit threshold in
  let old_deposit := ms_deposit m in
  if new_deposit =? old_deposit then mret ()
  else
    (if old_deposit <? new_deposit
     then currency_reserve who (saturating_sub new_deposit old_deposit)
     else currency_unreserve who (saturating_sub old_deposit new_deposit);; mret ());;
    modify (set_multisigs (insert (id, call_hash)
      (mkMultisig (when m) new_deposit (depositor m) (approvals m))));;
    deposit_event (MultisigDepositPoked who call_hash old_deposit new_deposit).

Inductive CallOrHash : Type :=
| TheCall (n : Nested)
| TheHash (h : Hash).

Definition all_lte (a b : Weight) : bool := (fst a <=? fst b) && (snd a <=? snd b).

(** Where the sender's approval goes: it is only taken below the threshold. *)
Definition maybe_pos (who : AccountId) (threshold : Z) (m : MultisigOp) : option nat :=
  match binary_search Z.ltb who (approvals m) with
  | Err pos => if Z.of_nat (length (approvals m)) <? threshold then Some pos else None
  | Ok _ => None
  end.

(** The number of approvals, with the sender's when it counts. *)
Definition approvals_with (m : MultisigOp) (pos : option nat) : Z :=
  Z.of_nat (length (approvals m)) + match pos with Some _ => 1 | None => 0 end.

(** The call is not run now: record the approval, if it is one. *)
Definition operate_approve (who : AccountId) (tp : Timepoint) (id : AccountId) (call_hash : Hash)
    (pos : option nat) (m : MultisigOp) : D unit :=
  match pos with
  | Some pos =>
      ensure (Z.of_nat (length (approvals m)) <? MaxSignatories)
        (MultisigError Multisig.TooManySignatories);;
      modify (set_multisigs (insert (id, call_hash)
        (mkMultisig (when m) (ms_deposit m) (depositor m) (insert_at pos who (approvals m)))));;
      deposit_event (MultisigApproval who tp id call_hash)
  | None => fail (MultisigError Multisig.AlreadyApproved)
  end.

(** The operation has started: approve it, or run the call when the approvals
    reach the threshold. *)
Definition operate_started (who : AccountId) (threshold : Z) (maybe_timepoint : option Timepoint)
    (id : AccountId) (call_hash : Hash) (maybe_call : option Nested) (max_weight : Weight)
    (m : MultisigOp) : D unit :=
  tp ← ok_or maybe_timepoint (MultisigError Multisig.NoTimepoint);
  ensure (bool_decide (when m = tp)) (MultisigError Multisig.WrongTimepoint);;
  let pos := maybe_pos who threshold m in
  match maybe_call with
  | Some n =>
      if threshold <=? approvals_with m pos then
        ensure (all_lte (call_weight n.1) max_weight) (MultisigError Multisig.MaxWeightTooLow);;
        modify (set_multisigs (delete (id, call_hash)));;
        currency_unreserve (depositor m) (ms_deposit m);;
        r ← attempt (nested_dispatch n (origin_from (Signed id)));
        deposit_event (MultisigExecuted who tp id call_hash r)
      else operate_approve who tp id call_hash pos m
  | None => operate_approve who tp id call_hash pos m
  end.

(** The operation starts: reserve the deposit and record the first approval. *)
Definition operate_start (who : AccountId) (threshold : Z) (maybe_timepoint : option Timepoint)
    (id : AccountId) (call_hash : Hash) : D unit :=
  ensure (bool_decide (maybe_timepoint = None)) (MultisigError Multisig.UnexpectedTimepoint);;
  let deposit := multisig_deposit threshold in
  currency_reserve who deposit;;
  ensure (1 <=? MaxSignatories) (MultisigError Multisig.TooManySignatories);;
  ch ← gets chain;
  modify (set_multisigs (insert (id, call_hash) (mkMultisig (timepoint ch) deposit who [who])));;
  deposit_event (NewMultisig who id call_hash).

Definition operate (who : AccountId) (threshold : Z) (other_signatories : list AccountId)
    (maybe_timepoint : option Timepoint) (call_or_hash : CallOrHash) (max_weight : Weight)
    (safe : bool) : D unit :=
  ensure (2 <=? threshold) (MultisigError Multisig.MinimumThreshold);;
  id ← signatories_account who threshold other_signatories safe;
  let '(call_hash, maybe_call) := match call_or_hash with
    | TheCall n => (blake2_call n.1, Some n)
    | TheHash h => (h, None)
    end in
  ms ← gets Multisigs;
  match ms !! (id, call_hash) with
  | Some m => operate_started who threshold maybe_timepoint id call_hash maybe_call max_weight m
  | None => operate_start who threshold maybe_timepoint id call_hash
  end.

Definition as_multi (o : Origin) (threshold : Z) (other_signatories : list AccountId)
    (maybe_timepoint : option Timepoint) (n : Nested) (max_weight : Weight) (safe : bool) : D unit :=
  who ← ensure_signed o;
  operate who threshold other_signatories maybe_timepoint (TheCall n) max_weight safe.

Definition approve_as_multi (o : Origin) (threshold : Z) (other_signatories : list AccountId)
    (maybe_timepoint : option Timepoint) (call_hash : Hash) (max_weight : Weight) (safe : bool)
    : D unit :=
  who ← ensure_signed o;
  operate who threshold other_signatories maybe_timepoint (TheHash call_hash) max_weight safe.

(** ** Proxy *)

(** The derived order of the definitions: delegate, type in the order of its
    declaration, delay. *)
Definition def_ltb (a b : ProxyDefinition) : bool :=
  (delegate a <? delegate b) ||
  ((delegate a =? delegate b) &&
   ((from_proxy_type (proxy_type a) <? from_proxy_type (proxy_type b)) ||
    ((from_proxy_type (proxy_type a) =? from_proxy_type (proxy_type b)) && (delay a <? delay b)))).

Definition pure_account (who : AccountId) (ty : ProxyType) (index : Z)
    (at_block : BlockNumber * Z) : AccountId :=
  blake2_legacy (PureManifest who ty index (fst at_block) (snd at_block)).

Definition safe_pure_account (who : AccountId) (ty : ProxyType) (index : Z)
    (at_block : BlockNumber * Z) : D AccountId :=
  ok_or (safe_derived_account (PureManifest who ty index (fst at_block) (snd at_block)))
    (ProxyError Proxy.SafeDerivationFailed).

Definition do_create_pure (who : AccountId) (ty : ProxyType) (del : BlockNumber) (index : Z)
    (protected safe : bool) : D unit :=
  ch ← gets chain;
  let height := block_number ch in
  let ext_index := default 0 (extrinsic_index ch) in
  pure ← (if safe then safe_pure_account who ty index (height, ext_index)
          else mret (pure_account who ty index (height, ext_index)));
  s ← gets Proxies;
  ensure (bool_decide (s !! pure = None)) (ProxyError Proxy.Duplicate);;
  ensure (1 <=? MaxProxies) (ProxyError Proxy.TooMany);;
  let dep := saturating_add u64_max ProxyDepositBase ProxyDepositFactor in
  currency_reserve who dep;;
  modify (set_proxies (insert pure ([mkProxyDefinition who ty del], dep)));;
  (if protected : bool then
     ch' ← gets chain;
     match on_create_protected_pure pure who ty index height ext_index ch' with
     | Ok ch'' => modify (set_chain ch'')
     | Err e => fail e
     end
   else mret ());;
  deposit_event (PureCreated pure who ty index).

(** [deposit] of the Proxy pallet. *)
Definition proxy_deposit (num_proxies : nat) : Balance :=
  if bool_decide (num_proxies = 0%nat) then 0
  else saturating_add u64_max ProxyDepositBase
         (saturating_mul u64_max ProxyDepositFactor (Z.of_nat num_proxies)).

(** Reserve or unreserve the difference between two deposits. *)
Definition adjust_deposit (who : AccountId) (old_deposit new_deposit : Balance) : D unit :=
  if old_deposit <? new_deposit then currency_reserve who (saturating_sub new_deposit old_deposit)
  else if new_deposit <? old_deposit
  then currency_unreserve who (saturating_sub old_deposit new_deposit);; mret ()
  else mret ().

(** The announcements of a delegate for one account are dropped; the deposit is
    returned when none is left. *)
Definition invalidate_announcements (real_ delegate_ : AccountId) : D unit :=
  s ← gets Announcements;
  match s !! delegate_ with
  | None => mret ()
  | Some (pending, dep) =>
      let pending' := base.filter (fun a => real a <> real_) pending in
      if bool_decide (pending' = []) then
        currency_unreserve delegate_ dep;; modify (set_announcements (delete delegate_))
      else modify (set_announcements (insert delegate_ (pending', dep)))
  end.

(** [HashedProxyPolicy::on_grant]. *)
Definition on_grant (real_ delegate_ : AccountId) : D unit :=
  ch ← gets chain;
  if is_protected ch real_ then invalidate_announcements real_ delegate_ else mret ().

Definition add_proxy_delegate (delegator delegatee : AccountId) (ty : ProxyType)
    (del : BlockNumber) : D unit :=
  ensure (negb (delegator =? delegatee)) (ProxyError Proxy.NoSelfProxy);;
  ch ← gets chain;
  ensure (policy_contains ch delegator delegatee) (ProxyError Proxy.AccountPolicyViolation);;
  s ← gets id;
  let '(defs, dep) := proxies_of s delegator in
  let def := mkProxyDefinition delegatee ty del in
  match binary_search def_ltb def defs with
  | Ok _ => fail (ProxyError Proxy.Duplicate)
  | Err i =>
      ensure (Z.of_nat (length defs) <? MaxProxies) (ProxyError Proxy.TooMany);;
      let defs' := insert_at i def defs in
      let new_deposit := proxy_deposit (length defs') in
      adjust_deposit delegator dep new_deposit;;
      deposit_event (ProxyAdded delegator delegatee ty del);;
      modify (set_proxies (insert delegator (defs', new_deposit)))
  end;;
  on_grant delegator delegatee.

Definition remove_proxy_delegate (delegator delegatee : AccountId) (ty : ProxyType)
    (del : BlockNumber) : D unit :=
  s ← gets Proxies;
  '(defs, old_deposit) ← ok_or (s !! delegator) (ProxyError Proxy.NotFound);
  match binary_search def_ltb (mkProxyDefinition delegatee ty del) defs with
  | Err _ => fail (ProxyError Proxy.NotFound)
  | Ok i =>
      let defs' := delete i defs in
      let new_deposit := proxy_deposit (length defs') in
      adjust_deposit delegator old_deposit new_deposit;;
      modify (set_real_pays (fun fees => fees ∖ {[(delegator, delegatee)]}));;
      deposit_event (ProxyRemoved delegator delegatee ty del);;
      modify (set_proxies (fun m =>
        if bool_decide (defs' = []) then delete delegator m
        else insert delegator (defs', new_deposit) m))
  end.

Definition remove_all_proxy_delegates (delegator : AccountId) : D unit :=
  s ← gets id;
  let old_deposit := snd (proxies_of s delegator) in
  modify (set_proxies (delete delegator));;
  currency_unreserve delegator old_deposit;;
  modify (set_real_pays (base.filter (fun p => fst p <> delegator))).

(** The new deposit, or none when nothing is left to hold a deposit for. *)
Definition rejig_deposit (who : AccountId) (old_deposit base factor : Balance) (len : nat)
    : D (option Balance) :=
  let new_deposit := if bool_decide (len = 0%nat) then 0
    else saturating_add u64_max base (saturating_mul u64_max factor (Z.of_nat len)) in
  adjust_deposit who old_deposit new_deposit;;
  mret (if bool_decide (len = 0%nat) then None else Some new_deposit).

Definition edit_announcements (delegate_ : AccountId) (f : Announcement -> bool) : D unit :=
  s ← gets Announcements;
  '(pending, old_deposit) ← ok_or (s !! delegate_) (ProxyError Proxy.NotFound);
  let pending' := List.filter f pending in
  ensure (bool_decide (length pending' < length pending)%nat) (ProxyError Proxy.NotFound);;
  d ← rejig_deposit delegate_ old_deposit AnnouncementDepositBase AnnouncementDepositFactor
        (length pending');
  modify (set_announcements (match d with
    | Some dep => insert delegate_ (pending', dep)
    | None => delete delegate_
    end)).

Definition find_proxy (real_ delegate_ : AccountId) (force_proxy_type : option ProxyType)
    : D ProxyDefinition :=
  s ← gets id;
  ensure (policy_contains (chain s) real_ delegate_) (ProxyError Proxy.AccountPolicyViolation);;
  ok_or (List.find (fun x => (delegate x =? delegate_) &&
           match force_proxy_type with None => true | Some y => bool_decide (proxy_type x = y) end)
           (proxies_of s real_).1)
    (ProxyError Proxy.NotProxy).

(** What a proxy of type [ty] may have run: the match of the filter that
    [do_proxy] adds, after the inherited filter. *)
Definition proxy_guard (ty : ProxyType) (c : RuntimeCall) : bool :=
  match c with
  | Proxy_add_proxy _ ty' _ | Proxy_remove_proxy _ ty' _ =>
      if negb (is_superset ty ty') then false else proxy_type_filter ty c
  | Proxy_remove_proxies | Proxy_kill_pure _ _ _ _ _ | Proxy_kill_safe_pure _ _ _ _ _
  | Proxy_set_real_pays_fee _ true | Proxy_announce _ _ =>
      if negb (bool_decide (ty = default_proxy_type)) then false else proxy_type_filter ty c
  | _ => proxy_type_filter ty c
  end.

(** The origin of a proxied call: the real account, with the filter inherited
    from the caller's origin and the guard of the proxy's type. *)
Definition proxied_origin (real_ : AccountId) (ty : ProxyType) (inherited_origin : Origin) : Origin :=
  add_filter (origin_from (Signed real_)) (fun s c =>
    if negb (filter_call inherited_origin s c) then false else proxy_guard ty c).

Definition do_proxy (def : ProxyDefinition) (real_ : AccountId) (n : Nested)
    (inherited_origin : Origin) : D unit :=
  let o := proxied_origin real_ (proxy_type def) inherited_origin in
  e ← attempt (nested_dispatch n o);
  modify (set_last_result (insert real_ e));;
  deposit_event (ProxyExecuted e).

Definition proxy (o : Origin) (real_ : AccountId) (force_proxy_type : option ProxyType)
    (n : Nested) : D unit :=
  who ← ensure_signed o;
  def ← find_proxy real_ who force_proxy_type;
  ensure (delay def =? 0) (ProxyError Proxy.Unannounced);;
  do_proxy def real_ n o.

Definition add_proxy (o : Origin) (delegate_ : AccountId) (ty : ProxyType) (del : BlockNumber)
    : D unit :=
  who ← ensure_signed o; add_proxy_delegate who delegate_ ty del.

Definition remove_proxy (o : Origin) (delegate_ : AccountId) (ty : ProxyType) (del : BlockNumber)
    : D unit :=
  who ← ensure_signed o; remove_proxy_delegate who delegate_ ty del.

Definition remove_proxies (o : Origin) : D unit :=
  who ← ensure_signed o; remove_all_proxy_delegates who.

Definition create_pure (o : Origin) (ty : ProxyType) (del : BlockNumber) (index : Z) : D unit :=
  who ← ensure_signed o;
  ch ← gets chain;
  ensure (negb (requires_protection ch who)) (ProxyError Proxy.AccountPolicyViolation);;
  do_create_pure who ty del index false false.

Definition create_protected_pure (o : Origin) (ty : ProxyType) (del : BlockNumber) (index : Z)
    : D unit :=
  transactional (
    who ← ensure_signed o;
    ch ← gets chain;
    ensure (requires_protection ch who) (ProxyError Proxy.AccountPolicyViolation);;
    do_create_pure who ty del index true false).

Definition create_safe_pure (o : Origin) (ty : ProxyType) (del : BlockNumber) (index : Z) : D unit :=
  who ← ensure_signed o; do_create_pure who ty del index false true.

(** The end of the two kill calls: the record goes, its deposit goes back to the
    spawner. *)
Definition kill_record (who spawner : AccountId) (ty : ProxyType) (index : Z) : D unit :=
  s ← gets id;
  let dep := snd (proxies_of s who) in
  modify (set_proxies (delete who));;
  currency_unreserve spawner dep;;
  deposit_event (PureKilled who spawner ty index).

Definition kill_pure (o : Origin) (spawner : AccountId) (ty : ProxyType) (index : Z)
    (height : BlockNumber) (ext_index : Z) : D unit :=
  who ← ensure_signed o;
  ensure (pure_account spawner ty index (height, ext_index) =? who) (ProxyError Proxy.NoPermission);;
  kill_record who spawner ty index.

Definition kill_safe_pure (o : Origin) (spawner : AccountId) (ty : ProxyType) (index : Z)
    (height : BlockNumber) (ext_index : Z) : D unit :=
  who ← ensure_signed o;
  pure ← safe_pure_account spawner ty index (height, ext_index);
  ensure (pure =? who) (ProxyError Proxy.NoPermission);;
  kill_record who spawner ty index.

Definition announce (o : Origin) (real_ : AccountId) (call_hash : Hash) : D unit :=
  who ← ensure_signed o;
  s ← gets id;
  ensure (existsb (fun x => delegate x =? who) (proxies_of s real_).1) (ProxyError Proxy.NotProxy);;
  let '(pending, dep) := announcements_of s who in
  ensure (Z.of_nat (length pending) <? MaxPending) (ProxyError Proxy.TooMany);;
  let pending' := pending ++ [mkAnnouncement real_ call_hash (block_number (chain s))] in
  d ← rejig_deposit who dep AnnouncementDepositBase AnnouncementDepositFactor (length pending');
  new_deposit ← ok_or d (ProxyError Proxy.AnnouncementDepositInvariantViolated);
  modify (set_announcements (insert who (pending', new_deposit)));;
  deposit_event (Announced real_ who call_hash).

Definition remove_announcement (o : Origin) (real_ : AccountId) (call_hash : Hash) : D unit :=
  who ← ensure_signed o;
  edit_announcements who (fun ann => negb (real ann =? real_) || negb (ann_hash ann =? call_hash)).

Definition reject_announcement (o : Origin) (delegate_ : AccountId) (call_hash : Hash) : D unit :=
  who ← ensure_signed o;
  edit_announcements delegate_ (fun ann => negb (real ann =? who) || negb (ann_hash ann =? call_hash)).

(** The announcements [proxy_announced] keeps: every one but those that are
    still valid, for this call and account, and old enough. *)
Definition kept_announcement (valid_from : option BlockNumber) (real_ : AccountId) (call_hash : Hash)
    (now del : BlockNumber) (ann : Announcement) : bool :=
  match valid_from with Some boundary => ann_height ann <? boundary | None => false end ||
  negb (real ann =? real_) || negb (ann_hash ann =? call_hash) ||
  (saturating_sub now (ann_height ann) <? del).

(** [map_err]. *)
Definition map_err (m : D unit) (e : DispatchError) : D unit := fun s =>
  match m s with (Err _, s') => (Err e, s') | r => r end.

Definition proxy_announced (o : Origin) (delegate_ real_ : AccountId)
    (force_proxy_type : option ProxyType) (n : Nested) : D unit :=
  ensure_signed o;;
  def ← find_proxy real_ delegate_ force_proxy_type;
  let call_hash := blake2_call n.1 in
  s ← gets id;
  map_err (edit_announcements delegate_ (kept_announcement (AnnouncementValidFrom s) real_ call_hash
             (block_number (chain s)) (delay def)))
    (ProxyError Proxy.Unannounced);;
  do_proxy def real_ n o.

(** One half of [poke_deposit], on either map: the entry with its deposit brought
    up to date, and whether the deposit changed. *)
Definition poke_entry {A} (who : AccountId) (kind : DepositKind) (entry : option (list A * Balance))
    (base factor : Balance) (store : option (list A * Balance) -> State -> State) : D bool :=
  let '(items, old_deposit) := default ([], 0) entry in
  d ← rejig_deposit who old_deposit base factor (length items);
  match d with
  | Some new_deposit =>
      if negb (new_deposit =? old_deposit) then
        modify (store (Some (items, new_deposit)));;
        deposit_event (DepositPoked who kind old_deposit new_deposit);;
        mret true
      else modify (store (Some (items, old_deposit)));; mret false
  | None =>
      modify (store None);;
      if negb (old_deposit =? 0) then
        deposit_event (DepositPoked who kind old_deposit 0);; mret true
      else mret false
  end.

Definition store_proxies (who : AccountId) (e : option (list ProxyDefinition * Balance)) : State -> State :=
  set_proxies (partial_alter (fun _ => e) who).
Definition store_announcements (who : AccountId) (e : option (list Announcement * Balance)) : State -> State :=
  set_announcements (partial_alter (fun _ => e) who).

(** The result says whether a deposit was updated, in which case no fee is paid. *)
Definition poke_deposit (o : Origin) : D bool :=
  who ← ensure_signed o;
  ps ← gets Proxies;
  p ← poke_entry who ProxiesDeposit (ps !! who) ProxyDepositBase ProxyDepositFactor (store_proxies who);
  anns ← gets Announcements;
  a ← poke_entry who AnnouncementsDeposit (anns !! who) AnnouncementDepositBase
        AnnouncementDepositFactor (store_announcements who);
  mret (p || a).

Definition set_real_pays_fee (o : Origin) (delegate_ : AccountId) (pays_fee : bool) : D unit :=
  who ← ensure_signed o;
  find_proxy who delegate_ None;;
  modify (set_real_pays (fun fees =>
    if pays_fee then {[(who, delegate_)]} ∪ fees else fees ∖ {[(who, delegate_)]}));;
  deposit_event (RealPaysFeeSet who delegate_ pays_fee).

Definition is_real_pays_fee (s : State) (real_ delegate_ : AccountId) : bool :=
  bool_decide ((real_, delegate_) ∈ RealPaysFee s).

(** The hooks. *)
Definition on_runtime_upgrade (s : State) : State :=
  match AnnouncementValidFrom s with
  | Some _ => s
  | None => set_valid_from (Some (saturating_add u32_max (block_number (chain s)) 1)) s
  end.

Definition on_finalize (s : State) : State := set_last_result (fun _ => ∅) s.

(** [Proxier], the interface of the Proxy pallet to the subnet leases. *)
Definition add_lease_beneficiary_proxy (lease beneficiary : AccountId) : D unit :=
  add_proxy_delegate lease beneficiary SubnetLeaseBeneficiary 0.
Definition remove_lease_beneficiary_proxy (lease beneficiary : AccountId) : D unit :=
  remove_proxy_delegate lease beneficiary SubnetLeaseBeneficiary 0.
Definition has_delegator_proxies (s : State) (delegator : AccountId) : bool :=
  negb (bool_decide (fst (proxies_of s delegator) = [])).

(** ** The calls of the other pallets *)

Inductive OtherProg : Type :=
| Return (r : DispatchResult)
| Read (k : State -> OtherProg)
| Update (c : Chain) (k : OtherProg)
| AddProxyDelegate (delegator delegatee : AccountId) (ty : ProxyType) (del : BlockNumber)
    (k : DispatchResult -> OtherProg)
| RemoveProxyDelegate (delegator delegatee : AccountId) (ty : ProxyType) (del : BlockNumber)
    (k : DispatchResult -> OtherProg)
| RemoveAllProxyDelegates (delegator : AccountId) (k : OtherProg).

Fixpoint run_other (p : OtherProg) : D unit :=
  match p with
  | Return r => from_result r
  | Read k => s ← gets id; run_other (k s)
  | Update c k => modify (set_chain c);; run_other k
  | AddProxyDelegate a b ty del k =>
      r ← attempt (add_proxy_delegate a b ty del); run_other (k r)
  | RemoveProxyDelegate a b ty del k =>
      r ← attempt (remove_proxy_delegate a b ty del); run_other (k r)
  | RemoveAllProxyDelegates a k => remove_all_proxy_delegates a;; run_other k
  end.

(** The program a call of another pallet runs for a caller. *)
Class OtherPallets : Type :=
  other_dispatch : string -> string -> list (string * Z) -> list (string * RuntimeCall) ->
    OriginCaller -> OtherProg.
Context {O : OtherPallets}.

(** ** Running a call *)

(** [UnfilteredDispatchable::dispatch_bypass_filter]: the call in its storage
    layer. *)
Fixpoint dispatch_bypass_filter (c : RuntimeCall) (o : Origin) : D unit :=
  let nested c' := (c', dispatch_bypass_filter c') in
  transactional (
    modify (set_executed (cons (caller o, c)));;
    match c with
    | Utility_batch calls => batch o (map (fun c' => (c', dispatch_bypass_filter c')) calls)
    | Utility_as_derivative i call => as_derivative o i (nested call)
    | Utility_batch_all calls => batch_all o (map (fun c' => (c', dispatch_bypass_filter c')) calls)
    | Utility_dispatch_as as_origin call => dispatch_as o as_origin (nested call)
    | Utility_force_batch calls => force_batch o (map (fun c' => (c', dispatch_bypass_filter c')) calls)
    | Utility_with_weight call _ => with_weight o (nested call)
    | Utility_if_else main fallback => if_else o (nested main) (nested fallback)
    | Utility_dispatch_as_fallible as_origin call => dispatch_as_fallible o as_origin (nested call)
    | Utility_as_protected_derivative i call => as_protected_derivative o i (nested call)
    | Utility_as_safe_derivative i call => as_safe_derivative o i (nested call)
    | Proxy_proxy r f call => proxy o r f (nested call)
    | Proxy_add_proxy d ty del => add_proxy o d ty del
    | Proxy_remove_proxy d ty del => remove_proxy o d ty del
    | Proxy_remove_proxies => remove_proxies o
    | Proxy_create_pure ty del i => create_pure o ty del i
    | Proxy_kill_pure sp ty i h x => kill_pure o sp ty i h x
    | Proxy_announce r h => announce o r h
    | Proxy_remove_announcement r h => remove_announcement o r h
    | Proxy_reject_announcement d h => reject_announcement o d h
    | Proxy_proxy_announced d r f call => proxy_announced o d r f (nested call)
    | Proxy_poke_deposit => poke_deposit o;; mret ()
    | Proxy_set_real_pays_fee d b => set_real_pays_fee o d b
    | Proxy_create_protected_pure ty del i => create_protected_pure o ty del i
    | Proxy_create_safe_pure ty del i => create_safe_pure o ty del i
    | Proxy_kill_safe_pure sp ty i h x => kill_safe_pure o sp ty i h x
    | Multisig_as_multi_threshold_1 safe others call =>
        do_as_multi_threshold_1 o others (nested call) safe
    | Multisig_as_multi safe thr others tp call w => as_multi o thr others tp (nested call) w safe
    | Multisig_approve_as_multi safe thr others tp h w => approve_as_multi o thr others tp h w safe
    | Multisig_cancel_as_multi safe thr others tp h => do_cancel_as_multi o thr others tp h safe
    | Multisig_poke_deposit safe thr others h => do_poke_deposit o thr others h safe
    | OtherCall p n params boxed => run_other (other_dispatch p n params boxed (caller o))
    end).

(** [Dispatchable::dispatch] of a call. *)
Definition dispatch (c : RuntimeCall) (o : Origin) : D unit :=
  nested_dispatch (c, dispatch_bypass_filter c) o.

End runtime.
Arguments State T : clear implicits.
Arguments Origin T : clear implicits.
Arguments OtherProg T : clear implicits.
Arguments OtherPallets T : clear implicits.
