(* ===== verification/DispatchLogic.v ===== *)
(** * DispatchLogic: what holds along every run of a call

    A run of a call goes through wrappers nested in any way.  This file proves
    once how a property follows such a run: [R] relates the state before to the
    state after, is reflexive and transitive, and holds for the bookkeeping
    around the calls; [ok] is a property of origins that the wrappers keep when
    they build the origin of an inner call.  [call_good] says that [R] then holds
    for every call dispatched with a good origin, given that it holds for the
    calls that carry no call and for the two multisig wrappers.  The theorems of
    DispatchSafety.v are instances of it. *)

From Stdlib Require Import ZArith Lia String.
From stdpp Require Import base gmap list fin_maps sets strings relations.
From S2P Require Import Prelude Calls Dispatch.

Local Open Scope Z_scope.

(** ** Runs that only read *)

Section runs.
Context {T : Config}.
Abbreviation D := (M (State T) DispatchError).

(** The computation leaves the state as it is. *)
Abbreviation reads := (fixed (@id (State T))).

Lemma reads_from_result r : reads (from_result r).
Proof. unfold from_result. solve_fixed. Qed.
Lemma reads_ensure_signed o : reads (ensure_signed o).
Proof. unfold ensure_signed. solve_fixed. Qed.
Lemma reads_ensure_root o : reads (ensure_root o).
Proof. unfold ensure_root. solve_fixed. Qed.
#[local] Hint Resolve reads_from_result : frame.
Lemma reads_pre_dispatch o c : reads (pre_dispatch o c).
Proof. unfold pre_dispatch. solve_fixed. Qed.
Lemma reads_find_proxy r d f : reads (find_proxy r d f).
Proof. unfold find_proxy. solve_fixed. Qed.
Lemma reads_safe_pure_account a ty i w : reads (safe_pure_account a ty i w).
Proof. unfold safe_pure_account. solve_fixed. Qed.
Lemma reads_account_id_for l t b : reads (account_id_for l t b).
Proof. unfold account_id_for, safe_multi_account_id. solve_fixed. Qed.
Lemma reads_sorted_and_insert l a : reads (ensure_sorted_and_insert l a).
Proof. unfold ensure_sorted_and_insert. solve_fixed. Qed.
#[local] Hint Resolve reads_account_id_for reads_sorted_and_insert : frame.
Lemma reads_signatories_account a t l b : reads (signatories_account a t l b).
Proof. unfold signatories_account. solve_fixed. Qed.
Lemma reads_ensure_batch o cs : reads (ensure_batch o cs).
Proof. unfold ensure_batch. solve_fixed. Qed.
End runs.

#[export] Hint Resolve reads_from_result reads_ensure_signed reads_ensure_root reads_pre_dispatch
  reads_find_proxy reads_safe_pure_account reads_account_id_for reads_sorted_and_insert
  reads_signatories_account reads_ensure_batch : frame.

(** ** A relation along a run *)

Section steps.
Context {T : Config} (R : State T -> State T -> Prop) `{!PreOrder R}.
Abbreviation D := (M (State T) DispatchError).

(** From [s] the computation ends, with any result, in a state related to [s]. *)
Definition step {A} (m : D A) (s : State T) : Prop := R s (m s).2.

Lemma step_reads {A} (m : D A) s : fixed id m -> step m s.
Proof. unfold step. intros H. specialize (H s). unfold id in H. by rewrite H. Qed.

Lemma step_modify f s : R s (f s) -> step (modify f) s.
Proof. done. Qed.

Lemma step_bind {A B} (m : D A) (f : A -> D B) s :
  step m s -> (forall a s1, m s = (Ok a, s1) -> step (f a) s1) -> step (m ≫= f) s.
Proof.
  unfold step, mbind, M_bind. destruct (m s) as [[a|e] s1]; cbn; [|done].
  intros H1 H2. etrans; [exact H1 | by apply H2].
Qed.

Lemma step_attempt m s : step m s -> step (attempt m) s.
Proof. unfold step, attempt. by destruct (m s). Qed.

Lemma step_map_err m e s : step m s -> step (map_err m e) s.
Proof. unfold step, map_err. by destruct (m s) as [[]]. Qed.

Lemma step_transactional {A} (m : D A) s : step m s -> step (transactional m) s.
Proof.
  unfold step, transactional. destruct (m s) as [[] s1]; cbn; [done|]. intros _. reflexivity.
Qed.

Lemma step_for_each {A} (l : list A) (body : A -> D unit) s :
  (forall x s1, x ∈ l -> step (body x) s1) -> step (for_each l body) s.
Proof.
  revert s. induction l as [|x l IH]; intros s H; [unfold step; reflexivity|].
  cbn. apply step_bind; [apply H; set_solver|]. intros _ s1 _. apply IH. intros. apply H. set_solver.
Qed.

Lemma step_fold_m {A B} (l : list A) (b : B) (body : B -> A -> D B) s :
  (forall b x s1, x ∈ l -> step (body b x) s1) -> step (fold_m l b body) s.
Proof.
  revert b s. induction l as [|x l IH]; intros b s H; [unfold step; reflexivity|].
  cbn. apply step_bind; [apply H; set_solver|]. intros b' s1 _. apply IH. intros. apply H. set_solver.
Qed.
End steps.

(** [step_run] walks through a computation; it leaves the statements that change
    the state. *)
Ltac step_run :=
  repeat first
    [ solve [apply step_reads; [apply _ | solve [solve_fixed]]]
    | match goal with
      | |- step _ (_ ≫= _) _ => apply step_bind; [apply _ | | intros ? ? ?]
      | |- step _ (transactional _) _ => apply step_transactional; [apply _ |]
      | |- step _ (attempt _) _ => apply step_attempt
      | |- step _ (match ?x with _ => _ end) _ => destruct x eqn:?
      | |- step _ (let _ := _ in _) _ => cbv zeta
      end ].

(** ** The run of a call *)

(** The events that make no claim about approvals. *)
Definition plain_event (e : Event) : bool :=
  match e with MultisigExecuted _ _ _ _ _ => false | _ => true end.

(** The calls that carry no call the wrappers dispatch. *)
Definition simple_call (c : RuntimeCall) : bool :=
  match c with
  | Utility_batch _ | Utility_as_derivative _ _ | Utility_batch_all _ | Utility_dispatch_as _ _
  | Utility_force_batch _ | Utility_with_weight _ _ | Utility_if_else _ _
  | Utility_dispatch_as_fallible _ _ | Utility_as_protected_derivative _ _
  | Utility_as_safe_derivative _ _ | Proxy_proxy _ _ _ | Proxy_proxy_announced _ _ _ _
  | Multisig_as_multi_threshold_1 _ _ _ | Multisig_as_multi _ _ _ _ _ _ => false
  | _ => true
  end.

Section run.
Context {T : Config} {O : OtherPallets T} (R : State T -> State T -> Prop) `{!PreOrder R}.
Context (ok : Origin T -> Prop).
Abbreviation Nested := (RuntimeCall * (Origin T -> M (State T) DispatchError unit))%type.

(** A root origin is among the good ones. *)
Definition with_root : Prop := exists o, ok o /\ caller o = Root.

(** The origin is good, and it passed the filter and the guards or root is
    behind the call. *)
Definition admitted (o : Origin T) (c : RuntimeCall) (s : State T) : Prop :=
  ok o /\ (filter_call o s c = true /\ (pre_dispatch o c s).1 = Ok tt \/ with_root).

(** The relation holds when the call is dispatched with a good origin. *)
Definition good (n : Nested) : Prop :=
  (forall o s, ok o -> step R (nested_dispatch n o) s) /\
  (with_root -> forall o s, ok o -> step R (n.2 o) s).

Class Along : Prop := {
  along_event e s : plain_event e = true -> R s (set_events (cons e) s);
  along_last f s : R s (set_last_result f s);
  along_log o c s : admitted o c s -> R s (set_executed (cons (caller o, c)) s);
  along_edit d f s : step R (edit_announcements d f) s;
  along_protect who child index ch s :
    on_protected_derivative who child index (chain s) = Ok ch -> R s (set_chain ch s);
  ok_child o who a : ok o -> caller o = Signed who -> ok (set_caller_from o (Signed a));
  ok_filter o f : ok o -> ok (add_filter o f);
  ok_proxied o who r ty : ok o -> caller o = Signed who -> ok (proxied_origin r ty o);
  ok_fresh c : with_root -> ok (origin_from c);
  along_simple o c s : admitted o c s -> simple_call c = true -> step R (dispatch_bypass_filter c o) s;
  along_threshold_1 o safe others c s :
    admitted o (Multisig_as_multi_threshold_1 safe others c) s -> good (c, dispatch_bypass_filter c) ->
    step R (dispatch_bypass_filter (Multisig_as_multi_threshold_1 safe others c) o) s;
  along_as_multi o safe thr others tp c w s :
    admitted o (Multisig_as_multi safe thr others tp c w) s -> good (c, dispatch_bypass_filter c) ->
    step R (dispatch_bypass_filter (Multisig_as_multi safe thr others tp c w) o) s;
}.

Context {HA : Along}.

Lemma step_event e s : plain_event e = true -> step R (deposit_event e) s.
Proof. intros. by apply step_modify, along_event. Qed.

Lemma batched_step o n s : ok o -> good n -> step R (batched_dispatch o n) s.
Proof.
  intros Ho [Hf Hr]. unfold batched_dispatch, is_root. destruct (caller o) eqn:E; auto.
  apply Hr; [|done]. by exists o.
Qed.

Lemma batch_loop_step o i ns s : ok o -> Forall good ns -> step R (batch_loop o i ns) s.
Proof.
  intros Ho Hn. revert i s. induction Hn as [|n ns Hg _ IH]; intros i s; cbn [batch_loop].
  - by apply step_event.
  - apply step_bind; [done | by apply step_attempt, batched_step|]. intros [] s1 _; [|by apply step_event].
    apply step_bind; [done | by apply step_event | auto].
Qed.

Lemma batch_all_step o ns s : ok o -> Forall good ns -> step R (batch_all o ns) s.
Proof.
  intros Ho Hn. unfold batch_all. step_run; [|by apply step_event].
  apply step_for_each; [done|]. intros n s2 Hin. rewrite Forall_forall in Hn.
  destruct (Hn n Hin) as [Hf Hr]. apply step_bind; [done | | intros; by apply step_event].
  destruct (is_root o) eqn:E; [|by apply Hf, ok_filter].
  apply Hr; [|done]. exists o. unfold is_root in E. by destruct (caller o).
Qed.

Lemma force_batch_step o ns s : ok o -> Forall good ns -> step R (force_batch o ns) s.
Proof.
  intros Ho Hn. rewrite Forall_forall in Hn. unfold force_batch. step_run; [|by apply step_event; destruct a0].
  apply step_fold_m; [done|]. intros b n s2 Hin.
  apply step_bind; [done | apply step_attempt, batched_step; auto|]. intros [] s3 _;
    (apply step_bind; [done | by apply step_event | intros; by apply step_reads]).
Qed.

Lemma if_else_step o n1 n2 s : ok o -> good n1 -> good n2 -> step R (if_else o n1 n2) s.
Proof.
  intros Ho H1 H2. unfold if_else. step_run; [by apply batched_step | by apply step_event | |].
  - by apply batched_step.
  - by apply step_event.
Qed.

Lemma ensure_signed_ok (o : Origin T) who s s' :
  ensure_signed o s = (Ok who, s') <-> caller o = Signed who /\ s' = s.
Proof.
  unfold ensure_signed. destruct (caller o); rewrite ?fail_ok, ?ret_ok; intuition congruence.
Qed.

Lemma signed_caller (o : Origin T) who s s' : ensure_signed o s = (Ok who, s') -> caller o = Signed who.
Proof. by intros [? _]%ensure_signed_ok. Qed.

Lemma root_caller (o : Origin T) u s s' : ensure_root o s = (Ok u, s') -> caller o = Root.
Proof. unfold ensure_root. destruct (caller o); intros H; minv; done. Qed.

Lemma child_step o who a n s :
  ok o -> caller o = Signed who -> good n -> step R (nested_dispatch n (set_caller_from o (Signed a))) s.
Proof. intros Ho Hc [Hf _]. apply Hf. by apply (ok_child o who). Qed.

Lemma do_proxy_step o who def r n s :
  ok o -> caller o = Signed who -> good n -> step R (do_proxy def r n o) s.
Proof.
  intros Ho Hc [Hf _]. unfold do_proxy. step_run.
  - by apply Hf, (ok_proxied o who).
  - apply step_modify, along_last.
  - by apply step_event.
Qed.

(** The handlers of the wrapper calls, the multisig ones apart. *)
Lemma wrapper_step o c s :
  admitted o c s -> simple_call c = false ->
  match c with
  | Utility_batch cs | Utility_batch_all cs | Utility_force_batch cs =>
      Forall (fun c => good (c, dispatch_bypass_filter c)) cs
  | Utility_if_else c1 c2 => good (c1, dispatch_bypass_filter c1) /\ good (c2, dispatch_bypass_filter c2)
  | Utility_as_derivative _ c | Utility_dispatch_as _ c | Utility_with_weight c _
  | Utility_dispatch_as_fallible _ c | Utility_as_protected_derivative _ c
  | Utility_as_safe_derivative _ c | Proxy_proxy _ _ c | Proxy_proxy_announced _ _ _ c
  | Multisig_as_multi_threshold_1 _ _ c | Multisig_as_multi _ _ _ _ c _ =>
      good (c, dispatch_bypass_filter c)
  | _ => True
  end -> step R (dispatch_bypass_filter c o) s.
Proof.
  intros Ha Hs Hg. pose proof Ha as [Ho _]. pose proof (along_log o c s Ha) as Hl.
  destruct c; try discriminate Hs;
    try solve [by apply along_threshold_1 | by apply along_as_multi];
    cbn [dispatch_bypass_filter]; apply step_transactional; try done;
    (apply step_bind; [done | by apply step_modify | intros _ s1 _]).
  - unfold batch. step_run. apply batch_loop_step; [done|]. by apply Forall_map.
  - unfold as_derivative. step_run. eapply child_step; eauto using signed_caller.
  - apply batch_all_step; [done|]. by apply Forall_map.
  - unfold dispatch_as. step_run; [|by apply step_event].
    apply (proj2 Hg), ok_fresh; exists o; eauto using root_caller.
  - apply force_batch_step; [done|]. by apply Forall_map.
  - unfold with_weight. step_run. apply (proj2 Hg), ok_fresh; exists o; eauto using root_caller.
  - destruct Hg. by apply if_else_step.
  - unfold dispatch_as_fallible. step_run; [|by apply step_event].
    apply (proj2 Hg), ok_fresh; exists o; eauto using root_caller.
  - unfold as_protected_derivative. step_run.
    + minv. by eapply step_modify, along_protect.
    + eapply child_step; eauto using signed_caller.
  - unfold as_safe_derivative. step_run. eapply child_step; eauto using signed_caller.
  - unfold proxy. step_run. eapply do_proxy_step; eauto using signed_caller.
  - unfold proxy_announced. step_run.
    + apply step_map_err, along_edit.
    + eapply do_proxy_step; eauto using signed_caller.
Qed.

Lemma guarded_step o c s :
  (forall s, admitted o c s -> step R (dispatch_bypass_filter c o) s) -> ok o ->
  step R (nested_dispatch (c, dispatch_bypass_filter c) o) s.
Proof.
  intros H Ho. unfold nested_dispatch. step_run.
  pose proof (reads_pre_dispatch o c s0) as Hr. cbn [fst snd] in *. minv.
  rewrite H2 in Hr. unfold id in Hr. cbn in Hr. subst.
  apply H. split; [done|]. left. by split; [|rewrite H2; destruct a1].
Qed.

Lemma good_of_admitted c :
  (forall o s, admitted o c s -> step R (dispatch_bypass_filter c o) s) ->
  good (c, dispatch_bypass_filter c).
Proof.
  intros H. split; [intros o s Ho; apply guarded_step; auto|].
  intros Hr o s Ho. apply H. by split; [|right].
Qed.

(** The relation holds along every run of every call with a good origin. *)
Theorem call_good c : good (c, dispatch_bypass_filter c).
Proof.
  induction c using RuntimeCall_nested_ind; apply good_of_admitted; intros ? ? ?;
    first [by apply along_simple | by apply wrapper_step].
Qed.

Corollary dispatch_step c o s : ok o -> step R (dispatch c o) s.
Proof. apply call_good. Qed.
End run.

(** ** What the calls leave alone

    A part of the state that does not depend on what the Proxy pallet stores and
    on the plain events, and that reserving, unreserving and registering an account
    leave alone. *)
Class Frame {T : Config} {B : Type} (g : State T -> B) : Prop := {
  frame_proxies f s : g (set_proxies f s) = g s;
  frame_announcements f s : g (set_announcements f s) = g s;
  frame_real_pays f s : g (set_real_pays f s) = g s;
  frame_events e s : plain_event e = true -> g (set_events (cons e) s) = g s;
  frame_reserve a n : fixed g (currency_reserve a n);
  frame_unreserve a n : fixed g (currency_unreserve a n);
  frame_protected pure who ty i h x s ch :
    on_create_protected_pure pure who ty i h x (chain s) = Ok ch -> g (set_chain ch s) = g s;
}.

(** A part that does not depend on the rest of the chain at all. *)
Lemma chain_free_frame {T : Config} {B} (g : State T -> B) :
  (forall f s, g (set_proxies f s) = g s) -> (forall f s, g (set_announcements f s) = g s) ->
  (forall f s, g (set_real_pays f s) = g s) ->
  (forall e s, plain_event e = true -> g (set_events (cons e) s) = g s) ->
  (forall c s, g (set_chain c s) = g s) -> Frame g.
Proof.
  intros H1 H2 H3 H4 H5. split; try done; intros; try apply H5;
    unfold currency_reserve, currency_unreserve; solve_fixed.
Qed.

Section proxy_frame.
Context {T : Config} {B : Type} (g : State T -> B) {F : Frame g}.

#[local] Hint Resolve frame_proxies frame_announcements frame_real_pays frame_events : frame.

Lemma reads_frame {A} (m : M (State T) DispatchError A) : fixed id m -> fixed g m.
Proof. intros H s. specialize (H s). unfold id in H. by rewrite H. Qed.
#[local] Hint Extern 2 (fixed g _) => apply reads_frame; solve [auto with frame] : frame.
Lemma frame_event e : plain_event e = true -> fixed g (deposit_event e).
Proof. intros He s. by apply frame_events. Qed.
#[local] Hint Resolve frame_event frame_reserve frame_unreserve : frame.
Lemma frame_adjust a n m : fixed g (adjust_deposit a n m).
Proof. unfold adjust_deposit. solve_fixed. Qed.
#[local] Hint Resolve frame_adjust : frame.
Lemma frame_rejig a n m k l : fixed g (rejig_deposit a n m k l).
Proof. unfold rejig_deposit. cbv zeta. solve_fixed. Qed.
#[local] Hint Resolve frame_rejig : frame.
Lemma frame_edit d f : fixed g (edit_announcements d f).
Proof. unfold edit_announcements. solve_fixed. Qed.
Lemma frame_add a d ty n : fixed g (add_proxy_delegate a d ty n).
Proof. unfold add_proxy_delegate, on_grant, invalidate_announcements. solve_fixed. Qed.
Lemma frame_remove a d ty n : fixed g (remove_proxy_delegate a d ty n).
Proof. unfold remove_proxy_delegate. solve_fixed. Qed.
Lemma frame_remove_all a : fixed g (remove_all_proxy_delegates a).
Proof. unfold remove_all_proxy_delegates. solve_fixed. Qed.
Lemma frame_create a ty n i p b : fixed g (do_create_pure a ty n i p b).
Proof.
  assert (Hp : forall pure h x, fixed g (
    ch ← gets chain;
    match on_create_protected_pure pure a ty i h x ch with
    | Ok ch' => modify (set_chain ch')
    | Err e => fail e
    end)).
  { intros pure h x s. rewrite bind_gets.
    destruct (on_create_protected_pure _ _ _ _ _ _ _) eqn:E; [|done]. by eapply frame_protected. }
  unfold do_create_pure. solve_fixed.
Qed.
Lemma frame_kill a b ty i : fixed g (kill_record a b ty i).
Proof. unfold kill_record. solve_fixed. Qed.
Lemma frame_attempt m : fixed g m -> fixed g (attempt m).
Proof. intros H s. specialize (H s). unfold attempt. by destruct (m s). Qed.
Lemma frame_map_err m e : fixed g m -> fixed g (map_err m e).
Proof. intros H s. specialize (H s). unfold map_err. by destruct (m s) as [[]]. Qed.
Lemma frame_transactional {A} (m : M (State T) DispatchError A) : fixed g m -> fixed g (transactional m).
Proof. intros H s. specialize (H s). unfold transactional. by destruct (m s) as [[]]. Qed.
#[local] Hint Resolve frame_edit frame_add frame_remove frame_remove_all frame_create frame_kill
  frame_attempt frame_transactional : frame.
Lemma frame_announce o a h : fixed g (announce o a h).
Proof. unfold announce. solve_fixed. Qed.
Lemma frame_poke o : fixed g (poke_deposit o).
Proof. unfold poke_deposit, poke_entry, store_proxies, store_announcements. solve_fixed. Qed.
#[local] Hint Resolve frame_announce frame_poke : frame.
Lemma frame_run_other p : (forall c s, g (set_chain c s) = g s) -> fixed g (run_other p).
Proof. intros Hc. induction p; cbn [run_other]; solve_fixed. Qed.

(** The simple calls of the Proxy pallet. *)
Definition storage_call (c : RuntimeCall) : bool :=
  match c with
  | Multisig_approve_as_multi _ _ _ _ _ _ | Multisig_cancel_as_multi _ _ _ _ _
  | Multisig_poke_deposit _ _ _ _ | OtherCall _ _ _ _ => false
  | _ => simple_call c
  end.

Context {O : OtherPallets T}.

Lemma storage_call_frame c o :
  storage_call c = true -> exists body : M (State T) DispatchError unit,
  dispatch_bypass_filter c o =
    transactional (modify (set_executed (cons (caller o, c)));; body) /\ fixed g body.
Proof.
  intros Hc. destruct c; try discriminate Hc; cbn [dispatch_bypass_filter];
    (eexists; split; [reflexivity|]).
  all: try (unfold add_proxy, remove_proxy, remove_proxies, create_pure, kill_pure,
    remove_announcement, reject_announcement, set_real_pays_fee, create_protected_pure,
    create_safe_pure, kill_safe_pure; try apply frame_transactional; solve_fixed; fail).
Qed.

Context (g_multisigs : forall f s, g (set_multisigs f s) = g s).
#[local] Hint Resolve g_multisigs : frame.

Lemma frame_operate_approve a tp id h p m : fixed g (operate_approve a tp id h p m).
Proof. unfold operate_approve. solve_fixed. Qed.
Lemma frame_operate_start a thr tp id h : fixed g (operate_start a thr tp id h).
Proof. unfold operate_start. solve_fixed. Qed.
#[local] Hint Resolve frame_operate_approve frame_operate_start : frame.

Lemma frame_operate_hash a thr l tp h w b : fixed g (operate a thr l tp (TheHash h) w b).
Proof. unfold operate, operate_started. solve_fixed. Qed.
#[local] Hint Resolve frame_operate_hash : frame.

Lemma simple_call_frame c o :
  simple_call c = true -> (forall p n ps ns, c <> OtherCall p n ps ns) ->
  exists body : M (State T) DispatchError unit,
  dispatch_bypass_filter c o =
    transactional (modify (set_executed (cons (caller o, c)));; body) /\ fixed g body.
Proof.
  intros Hc Hn. destruct (storage_call c) eqn:Es; [by apply storage_call_frame|].
  destruct c; try discriminate Hc; try discriminate Es; cbn [dispatch_bypass_filter];
    (eexists; split; [reflexivity|]);
    try (by destruct (Hn pallet name params nested)); unfold approve_as_multi, do_cancel_as_multi,
    do_poke_deposit; solve_fixed.
Qed.
End proxy_frame.

(** ** The states the chain reaches *)

Section reach.
Context {T : Config} {O : OtherPallets T}.

Inductive runtime_step : State T -> State T -> Prop :=
| step_extrinsic c who s : runtime_step s (dispatch c (origin_from who) s).2
| step_privileged c who s : runtime_step s (dispatch_bypass_filter c (origin_from who) s).2
| step_other p s : runtime_step s (run_other p s).2
| step_upgrade s : runtime_step s (on_runtime_upgrade s)
| step_finalize s : runtime_step s (on_finalize s)
| step_clear_events s : runtime_step s (set_events (fun _ => []) s).

(** The pallets have stored nothing and no call has run. *)
Definition genesis (ch : Chain) : State T := mkState ∅ ∅ ∅ None ∅ ∅ [] ch [].

Definition reachable (s : State T) : Prop := exists ch, rtc runtime_step (genesis ch) s.

(** A relation that holds along the calls holds along the steps. *)
Lemma steps_along R `{!PreOrder R} {HA : Along R (fun _ : Origin T => True)} :
  (forall p s, step R (run_other p) s) -> (forall b s, R s (set_valid_from b s)) ->
  (forall s, R s (set_events (fun _ => []) s)) ->
  forall s s', rtc runtime_step s s' -> R s s'.
Proof.
  intros Ho Hv He s s' Hr. induction Hr as [|s1 s2 s3 Hs _ IH]; [reflexivity|].
  etrans; [|exact IH]. destruct Hs as [c who s|c who s|p s|s|s|s].
  - by apply (dispatch_step R (fun _ => True)).
  - destruct (call_good R (fun _ => True) c) as [_ H]. apply H; [|done]. by exists (origin_from Root).
  - apply Ho.
  - unfold on_runtime_upgrade. destruct (AnnouncementValidFrom s); [reflexivity | apply Hv].
  - exact (along_last R (fun _ => True) (fun _ => ∅) s).
  - apply He.
Qed.
End reach.
