(* ===== verification/DispatchSearch.v ===== *)
(** * DispatchSearch: the sorted lists of the wrapper pallets

    Signatories, approvals and proxy definitions are kept in strictly sorted
    lists.  This file shows what [binary_search], the insertion at the position
    it returns and [ensure_sorted_and_insert] of Dispatch.v do on them. *)

From Stdlib Require Import ZArith Lia Sorted.
From stdpp Require Import base list sets.
From S2P Require Import Prelude Calls Dispatch.

Local Open Scope Z_scope.

(** ** Searching and inserting *)

Section search.
Context {A : Type} (ltb : A -> A -> bool).

(** The boolean is a strict total order. *)
Class StrictOrderB : Prop := {
  ltb_trans x y z : ltb x y = true -> ltb y z = true -> ltb x z = true;
  ltb_irrefl x : ltb x x = false;
  ltb_total x y : ltb x y = false -> ltb y x = false -> x = y;
}.
Context {HO : StrictOrderB}.

Abbreviation lt := (fun x y => ltb x y = true).
Abbreviation sorted := (StronglySorted lt).

Lemma search_found x l i : binary_search ltb x l = Ok i -> l !! i = Some x.
Proof.
  revert i. induction l as [|y l IH]; intros i; cbn; [done|].
  destruct (ltb y x) eqn:Eyx.
  - destruct (binary_search ltb x l) as [j|j]; [|done]. intros [= <-]. cbn. by apply IH.
  - destruct (ltb x y) eqn:Exy; [done|]. intros [= <-]. cbn. f_equal. by apply ltb_total.
Qed.

Lemma insert_at_perm i (x : A) l : insert_at i x l ≡ₚ x :: l.
Proof. unfold insert_at. by rewrite <- Permutation_middle, take_drop. Qed.

Lemma insert_at_length i (x : A) l : length (insert_at i x l) = S (length l).
Proof. by rewrite insert_at_perm. Qed.

Lemma elem_of_insert_at i (x y : A) l : y ∈ insert_at i x l <-> y = x \/ (y ∈ l).
Proof. by rewrite insert_at_perm, elem_of_cons. Qed.

(** An element that is not found is inserted where it belongs. *)
Lemma search_insert x l i :
  sorted l -> binary_search ltb x l = Err i -> (x ∉ l) /\ sorted (insert_at i x l).
Proof.
  intros Hs. revert i. induction Hs as [|y l Hs IH Hy]; intros i; cbn.
  - intros [= <-]. split; [set_solver | by repeat constructor].
  - destruct (ltb y x) eqn:Eyx.
    + destruct (binary_search ltb x l) as [j|j] eqn:Es; [done|]. intros [= <-].
      destruct (IH j eq_refl) as [Hn Hi]. split.
      * rewrite elem_of_cons. intros [->|?]; [|done]. by rewrite ltb_irrefl in Eyx.
      * change (insert_at (S j) x (y :: l)) with (y :: insert_at j x l).
        constructor; [done|]. rewrite insert_at_perm. by constructor.
    + destruct (ltb x y) eqn:Exy; [|done]. intros [= <-].
      assert (Hx : Forall (lt x) (y :: l)).
      { constructor; [done|]. apply (Forall_impl _ _ _ Hy). intros z Hz. exact (ltb_trans x y z Exy Hz). }
      split; [|constructor; [by constructor | done]].
      intros Hin. rewrite Forall_forall in Hx. specialize (Hx x Hin). cbn in Hx. by rewrite ltb_irrefl in Hx.
Qed.

Lemma sorted_delete l i : sorted l -> sorted (delete i l).
Proof.
  intros Hs. revert i. induction Hs as [|y l Hs IH Hy]; intros i; [constructor|].
  destruct i as [|i]; [done|]. change (delete (S i) (y :: l)) with (y :: delete i l).
  constructor; [apply IH | by apply Forall_delete].
Qed.

Lemma sorted_nodup l : sorted l -> NoDup l.
Proof.
  induction 1 as [|y l Hs IH Hy]; constructor; [|done].
  intros Hin. rewrite Forall_forall in Hy. specialize (Hy y Hin). cbn in Hy. by rewrite ltb_irrefl in Hy.
Qed.
End search.

#[global] Instance Zltb_order : StrictOrderB Z.ltb.
Proof. split; intros; lia. Qed.

#[global] Instance def_ltb_order : StrictOrderB def_ltb.
Proof.
  unfold def_ltb. split.
  - intros x y z. rewrite !orb_true_iff, !andb_true_iff, !orb_true_iff, !andb_true_iff. lia.
  - intros x. lia.
  - intros [d1 t1 n1] [d2 t2 n2]. cbn. intros H1 H2.
    assert (d1 = d2 /\ from_proxy_type t1 = from_proxy_type t2 /\ n1 = n2) as (-> & Ht & ->) by lia.
    f_equal. pose proof (type_index_exact t1) as E. rewrite Ht, type_index_exact in E. congruence.
Qed.

(** ** The signatories *)

Abbreviation sorted_accounts := (StronglySorted (fun x y => Z.ltb x y = true)).

(** Past the sender's position the index stays. *)
Lemma sender_index_stays who last i l j :
  Forall (fun x => who < x) l -> sender_index who last i l = Ok j -> j = i.
Proof.
  intros Hl. revert last. induction Hl as [|x l Hx _ IH]; intros last; cbn; [congruence|].
  destruct (match last with Some a => a <? x | None => true end); [|done].
  destruct (Z.leb_spec x who); [lia | apply IH].
Qed.

(** The loop of [ensure_sorted_and_insert] finds a sorted list without the
    sender, and the sender's position in it. *)
Lemma sender_index_ok who last i l j :
  sender_index who last i l = Ok j ->
  (forall a, last = Some a -> Forall (fun x => (a <? x) = true) l) /\
  (i <= j)%nat /\ (who ∉ l) /\ sorted_accounts l /\ sorted_accounts (insert_at (j - i) who l).
Proof.
  revert last i. induction l as [|x l IH]; intros last i; cbn.
  - intros [= <-]. rewrite Nat.sub_diag. cbn. split_and!; [done | lia | set_solver | |]; by repeat constructor.
  - destruct (match last with Some a => a <? x | None => true end) eqn:El; [|done].
    destruct (Z.leb_spec x who); [destruct (Z.eqb_spec x who); [done|]|].
    + intros (Hl & Hi & Hw & Hs & Hins)%IH. specialize (Hl x eq_refl).
      replace (j - i)%nat with (S (j - S i)) by lia.
      change (insert_at (S (j - S i)) who (x :: l)) with (x :: insert_at (j - S i) who l).
      split_and!; [| lia | rewrite not_elem_of_cons; by split; [lia|] | by constructor |].
      * intros a ->. constructor; [done|]. apply (Forall_impl _ _ _ Hl). intros. lia.
      * constructor; [done|]. rewrite insert_at_perm. constructor; [lia|done].
    + intros Hr. pose proof Hr as (Hl & Hi & Hw & Hs & Hins)%IH. specialize (Hl x eq_refl).
      assert (Hgt : Forall (fun y => who < y) l) by (apply (Forall_impl _ _ _ Hl); intros; lia).
      apply sender_index_stays in Hr as ->; [|done]. rewrite Nat.sub_diag in *.
      split_and!; [| lia | rewrite not_elem_of_cons; by split; [lia|] | by constructor |].
      * intros a ->. constructor; [done|]. apply (Forall_impl _ _ _ Hl). intros. lia.
      * constructor; [by constructor|]. constructor; [lia|].
        apply (Forall_impl _ _ _ Hgt). intros. lia.
Qed.

(** The accounts the operations of a multisig are for: the sender among sorted
    signatories, of which there are at least two. *)
Lemma sorted_and_insert_ok {T : Config} others who (s : State T) sigs s' :
  ensure_sorted_and_insert others who s = (Ok sigs, s') ->
  s' = s /\ sigs ≡ₚ who :: others /\ sorted_accounts sigs.
Proof.
  unfold ensure_sorted_and_insert. destruct (sender_index who None 0 others) as [j|e] eqn:E; intros H; minv.
  apply sender_index_ok in E as (_ & _ & _ & _ & Hs). rewrite Nat.sub_0_r in Hs.
  split_and!; [done | apply insert_at_perm | done].
Qed.
