(* ===== verification/DispatchSafety.v ===== *)
(** * DispatchSafety: what no sequence of wrapped calls can do

    The safety of the wrapper pallets, as instances of the induction of
    DispatchLogic.v: a restricted proxy never has a call run that its type does
    not allow, however the call is wrapped; an account whose coldkey swap is
    disputed has no call run; a multisig operation is executed only after enough
    signatories approved that very call; what the pallets store stays well
    formed. *)

From Stdlib Require Import ZArith Lia String Sorted.
From stdpp Require Import base gmap list fin_maps sets strings relations.
From S2P Require Import Prelude Calls Dispatch DispatchLogic.

Local Open Scope string_scope.
Local Open Scope list_scope.
Local Open Scope Z_scope.

(** ** Confinement of proxied calls *)

Section confinement.
Context {T : Config} {O : OtherPallets T}.

(** Since [s], only calls that satisfy [Q] ran, and none of them as root. *)
Definition ran_only (Q : OriginCaller -> RuntimeCall -> Prop) (s s' : State T) : Prop :=
  exists calls, executed s' = calls ++ executed s /\ Forall (fun e => Q e.1 e.2) calls.

#[global] Instance ran_only_preorder Q : PreOrder (ran_only Q).
Proof.
  split; [intros s; by exists []|]. intros s1 s2 s3 (l1 & E1 & H1) (l2 & E2 & H2).
  exists (l2 ++ l1). rewrite E2, E1, app_assoc. by rewrite Forall_app.
Qed.

Lemma ran_only_same Q s s' : executed s' = executed s -> ran_only Q s s'.
Proof. intros E. by exists []. Qed.

Lemma ran_only_frame Q {A} (m : M (State T) DispatchError A) s :
  fixed executed m -> step (ran_only Q) m s.
Proof. intros H. apply ran_only_same, H. Qed.

Lemma ran_only_log Q (o : Origin T) c s :
  Q (caller o) c -> ran_only Q s (set_executed (cons (caller o, c)) s).
Proof. intros H. exists [(caller o, c)]. by rewrite Forall_singleton. Qed.

#[global] Instance executed_frame : Frame (@executed T).
Proof. by apply chain_free_frame. Qed.

(** A simple call only adds itself to what ran. *)
Lemma ran_only_simple Q o c s :
  simple_call c = true -> Q (caller o) c -> step (ran_only Q) (dispatch_bypass_filter c o) s.
Proof.
  intros Hc HQ.
  assert (exists body : M (State T) DispatchError unit, dispatch_bypass_filter c o =
    transactional (modify (set_executed (cons (caller o, c)));; body) /\ fixed executed body)
    as (body & -> & Hf).
  { destruct c; try (apply (simple_call_frame executed); done).
    cbn [dispatch_bypass_filter]. eexists. split; [reflexivity|].
    apply (frame_run_other executed). done. }
  step_run; [by apply step_modify, ran_only_log | by apply ran_only_frame].
Qed.

(** The multisig wrappers add themselves and what the inner call ran. *)
Lemma ran_only_threshold_1 Q (ok : Origin T -> Prop) o safe others c s :
  (forall id, ok (origin_from (Signed id))) -> Q (caller o) (Multisig_as_multi_threshold_1 safe others c) ->
  good (ran_only Q) ok (c, dispatch_bypass_filter c) ->
  step (ran_only Q) (dispatch_bypass_filter (Multisig_as_multi_threshold_1 safe others c) o) s.
Proof.
  intros Hok HQ [Hg _]. cbn [dispatch_bypass_filter]. step_run; [by apply step_modify, ran_only_log|].
  unfold do_as_multi_threshold_1. step_run; [by apply Hg | by apply step_modify, ran_only_same].
Qed.

Lemma ran_only_as_multi Q (ok : Origin T -> Prop) o safe thr others tp c w s :
  (forall id, ok (origin_from (Signed id))) -> Q (caller o) (Multisig_as_multi safe thr others tp c w) ->
  good (ran_only Q) ok (c, dispatch_bypass_filter c) ->
  step (ran_only Q) (dispatch_bypass_filter (Multisig_as_multi safe thr others tp c w) o) s.
Proof.
  intros Hok HQ [Hg _]. cbn [dispatch_bypass_filter]. step_run; [by apply step_modify, ran_only_log|].
  unfold as_multi, operate, operate_started. step_run.
  all: try (by apply Hg).
  all: try (by apply step_modify, ran_only_same).
  all: apply ran_only_frame; first [by apply frame_unreserve
    | by apply (frame_operate_approve executed) | by apply (frame_operate_start executed) | by apply fixed_modify].
Qed.

(** Every call adds to what ran, and takes nothing away. *)
#[local] Instance trace_along : Along (ran_only (fun _ _ => True)) (fun _ : Origin T => True).
Proof.
  split; try done.
  - intros e s _. by apply ran_only_same.
  - intros f s. by apply ran_only_same.
  - intros o c s _. by apply ran_only_log.
  - intros d f s. by apply ran_only_frame, (frame_edit executed).
  - intros who child index ch s _. by apply ran_only_same.
  - intros o c s _ Hs. by apply ran_only_simple.
  - intros. by apply (ran_only_threshold_1 _ (fun _ => True)).
  - intros. by apply (ran_only_as_multi _ (fun _ => True)).
Qed.

Lemma trace_grows c (o : Origin T) s : step (ran_only (fun _ _ => True)) (dispatch c o) s.
Proof. by apply (dispatch_step _ (fun _ => True)). Qed.

Lemma trace_grows_bypass c (o : Origin T) s :
  step (ran_only (fun _ _ => True)) (dispatch_bypass_filter c o) s.
Proof.
  destruct (call_good (ran_only (fun _ _ => True)) (fun _ => True) c) as [_ H].
  apply H; [|done]. by exists (origin_from Root).
Qed.

(** ** Restricted proxies *)

(** [P] refuses the wrappers that dispatch on a fresh origin. *)
Definition keeps_filter (P : RuntimeCall -> bool) : Prop :=
  forall c, P c = true -> contains EscapingCalls c = false.

(** The origin is not root, and what passes its filter satisfies [P]. *)
Definition confined_origin (P : RuntimeCall -> bool) (o : Origin T) : Prop :=
  caller o <> Root /\ forall s c, origin_filter o s c = true -> P c = true.

Definition allowed_run (P : RuntimeCall -> bool) (who : OriginCaller) (c : RuntimeCall) : Prop :=
  who <> Root /\ P c = true.

Lemma no_root P : ~ with_root (confined_origin P).
Proof. intros (o & [H _] & H'). done. Qed.

Lemma filtered_call P o s c :
  confined_origin P o -> filter_call o s c = true -> allowed_run P (caller o) c.
Proof.
  intros [Hr Hf]. unfold filter_call. split; [done|].
  apply (Hf s). by destruct (caller o).
Qed.

Lemma admitted_call P o c s :
  admitted (confined_origin P) o c s -> allowed_run P (caller o) c.
Proof.
  intros [Ho [[Hf _]|Hr]]; [by eapply filtered_call | by destruct (no_root P)].
Qed.

Lemma confinement_along P :
  keeps_filter P -> Along (ran_only (allowed_run P)) (confined_origin P).
Proof.
  intros HP. split.
  - intros e s _. by apply ran_only_same.
  - intros f s. by apply ran_only_same.
  - intros o c s Ha. by apply ran_only_log, (admitted_call P o c s).
  - intros d f s. apply ran_only_frame. by apply (frame_edit executed).
  - intros who child index ch s _. by apply ran_only_same.
  - intros o who a [_ Hf] _. by split.
  - intros o f [Hr Hf]. split; [done|]. intros s c [Hc _]%andb_true_iff. by apply (Hf s).
  - intros o who r ty [Hr Hf] Hc. split; [done|]. intros s c Hp.
    cbn [proxied_origin add_filter origin_filter] in Hp.
    apply andb_true_iff in Hp as [_ Hp]. destruct (filter_call o s c) eqn:E; [|done].
    by apply (filtered_call P o s c).
  - intros c Hr. by destruct (no_root P).
  - intros o c s Ha Hs. apply ran_only_simple; [done|]. by apply (admitted_call P o c s).
  - intros o safe others c s [_ Hc]%admitted_call. apply HP in Hc. by destruct safe.
  - intros o safe thr others tp c w s [_ Hc]%admitted_call. apply HP in Hc. by destruct safe.
Qed.

Lemma guard_keeps_filter ty : ty <> Any -> keeps_filter (proxy_guard ty).
Proof.
  intros Hn c Hc. apply (restricted_confined ty c Hn).
  revert Hc. unfold proxy_guard. repeat case_match; try done.
Qed.

Lemma find_proxy_ok r d f (s : State T) def s1 :
  find_proxy r d f s = (Ok def, s1) ->
  s1 = s /\ policy_contains (chain s) r d = true /\ def ∈ (proxies_of s r).1 /\ delegate def = d /\
  (forall ty, f = Some ty -> proxy_type def = ty).
Proof.
  unfold find_proxy. intros H. minv.
  match goal with H : List.find _ _ = Some _ |- _ => apply find_some in H as [Hin Hf] end.
  bool_to_prop. split_and!; [done | done | by apply list_elem_of_In | done |].
  intros ty ->. by bool_to_prop.
Qed.

(** What [do_proxy] runs on the way of a restricted definition. *)
Lemma do_proxy_confined (def : ProxyDefinition) r c (o : Origin T) s :
  exists calls, executed (do_proxy def r (c, dispatch_bypass_filter c) o s).2 = calls ++ executed s /\
  (proxy_type def <> Any ->
   Forall (fun e => allowed_run (proxy_guard (proxy_type def)) e.1 e.2) calls).
Proof.
  set (Q := fun who c => proxy_type def <> Any -> allowed_run (proxy_guard (proxy_type def)) who c).
  enough (step (ran_only Q) (do_proxy def r (c, dispatch_bypass_filter c) o) s) as (calls & E & HQ).
  { exists calls. split; [done|]. intros Hn. apply (Forall_impl _ _ _ HQ). intros e He. by apply He. }
  unfold do_proxy. step_run; [|by apply step_modify, ran_only_same..].
  destruct (decide (proxy_type def = Any)) as [Hn|Hn].
  - destruct (trace_grows c (proxied_origin r (proxy_type def) o) s) as (calls & E & _).
    exists calls. split; [exact E|]. by apply Forall_true.
  - pose proof (confinement_along _ (guard_keeps_filter _ Hn)) as HP.
    destruct (call_good (ran_only (allowed_run (proxy_guard (proxy_type def))))
      (confined_origin (proxy_guard (proxy_type def))) c) as [Hg _].
    destruct (Hg (proxied_origin r (proxy_type def) o) s) as (calls & E & H).
    { split; [done|]. intros s1 c'. cbn. rewrite andb_true_iff. intros [_ H].
      by destruct (filter_call o s1 c'). }
    exists calls. split; [exact E|]. apply (Forall_impl _ _ _ H). by intros e He _.
Qed.

Lemma ran_confined def r c (o : Origin T) s s' :
  do_proxy def r (c, dispatch_bypass_filter c) o s = (Ok tt, s') ->
  exists calls, executed s' = calls ++ executed s /\
  (proxy_type def <> Any -> Forall (fun e => e.1 <> Root /\
     proxy_guard (proxy_type def) e.2 = true /\ contains EscapingCalls e.2 = false) calls).
Proof.
  intros H. destruct (do_proxy_confined def r c o s) as (calls & E & HQ). rewrite H in E.
  exists calls. split; [done|]. intros Hn. apply (Forall_impl _ _ _ (HQ Hn)).
  intros e [H1 H2]. split_and!; [done..|]. by apply (guard_keeps_filter (proxy_type def)).
Qed.

Lemma edit_keeps_trace d f e : fixed (@executed T) (map_err (edit_announcements d f) e).
Proof. by apply frame_map_err, (frame_edit executed). Qed.

(** A call that runs [inner] for [real_] on the authority of [who]. *)
Definition proxies_for (o : Origin T) (who real_ : AccountId) (inner c : RuntimeCall) : Prop :=
  (exists force, c = Proxy_proxy real_ force inner /\ caller o = Signed who) \/
  (exists force, c = Proxy_proxy_announced who real_ force inner).

Definition forced (force : option ProxyType) (def : ProxyDefinition) : Prop :=
  forall ty, force = Some ty -> proxy_type def = ty.

(** (C4) A proxied call runs on an existing delegation of
    the requested type, without a delay unless it was announced, and a
    restricted delegation confines everything it leads to.  Whatever is run,
    directly or through batches, derivatives, further proxies and announced
    calls nested to any depth, passes the guard of the delegation's type and is
    not run as root; the wrappers that would drop the filter are not among it. *)
Theorem proxied_calls_confined (o : Origin T) who real_ inner c s s' :
  proxies_for o who real_ inner c -> dispatch_bypass_filter c o s = (Ok tt, s') ->
  exists def calls,
    def ∈ (proxies_of s real_).1 /\ delegate def = who /\
    policy_contains (chain s) real_ who = true /\
    match c with
    | Proxy_proxy _ force _ => delay def = 0 /\ forced force def
    | Proxy_proxy_announced _ _ force _ => forced force def
    | _ => False
    end /\
    executed s' = calls ++ (caller o, c) :: executed s /\
    (proxy_type def <> Any -> Forall (fun e => e.1 <> Root /\
       proxy_guard (proxy_type def) e.2 = true /\ contains EscapingCalls e.2 = false) calls).
Proof.
  intros [(f & -> & Hw)|(f & ->)] H; cbn [dispatch_bypass_filter] in H;
    [unfold proxy in H | unfold proxy_announced in H]; minv;
    repeat match goal with
    | H : ensure_signed _ _ = _ |- _ => apply ensure_signed_ok in H as [Hc ->]
    | H : find_proxy _ _ _ _ = _ |- _ => apply find_proxy_ok in H as (-> & Hp & Hin & Hd & Hf)
    end.
  - rewrite Hw in Hc. injection Hc as <-. bool_to_prop. exists x3.
    destruct (ran_confined x3 real_ inner o _ _ H) as (calls & E & HQ).
    by exists calls.
  - match goal with H : map_err (edit_announcements ?d ?f) ?e ?s0 = _ |- _ =>
      pose proof (edit_keeps_trace d f e s0) as He; rewrite H in He end.
    destruct (ran_confined _ real_ inner o _ _ H) as (calls & E & HQ).
    cbn [snd] in He. eexists _, calls. rewrite He in E. by split_and!.
Qed.
End confinement.

(** ** Disputed accounts *)

Definition disputed {T : Config} (ch : Chain) (who : AccountId) : Prop :=
  exists at_block, ColdkeySwapDisputes ch who = Some at_block /\ at_block <> 0.

(** The other pallets with calls that dispatch calls themselves, with any origin that
    they can make (sudo and sudo_as, finalized crowdloans, decrypted calls, contracts and
    the precompiles of the EVM), or that lift the dispute of an account (its registration
    as a hashed account). *)
Definition reaching_pallets : list string :=
  ["Sudo"; "Ethereum"; "EVM"; "Crowdloan"; "Contracts"; "MevShield"; "HashedAccounts"].

Definition reaches {T : Config} (c : RuntimeCall) : bool :=
  match c with OtherCall pallet _ _ _ => bool_decide (pallet ∈ reaching_pallets) | _ => false end.

(** What the rest of the runtime promises about disputes: reserving, unreserving
    and registering a derived account leave them alone, and no call of a pallet outside
    this list that is made neither by root nor by the account itself ends its dispute. *)
Class KeepsDisputes {T : Config} {O : OtherPallets T} : Prop := {
  reserve_disputes a n c c' w :
    reserve a n c = Ok c' -> ColdkeySwapDisputes c' w = ColdkeySwapDisputes c w;
  unreserve_disputes a n c w :
    ColdkeySwapDisputes (unreserve a n c).2 w = ColdkeySwapDisputes c w;
  protected_pure_disputes pure who ty i h x c c' w :
    on_create_protected_pure pure who ty i h x c = Ok c' ->
    ColdkeySwapDisputes c' w = ColdkeySwapDisputes c w;
  protected_derivative_disputes who child i c c' w :
    on_protected_derivative who child i c = Ok c' ->
    ColdkeySwapDisputes c' w = ColdkeySwapDisputes c w;
  other_disputes pallet name params nested who s w :
    pallet ∉ reaching_pallets -> who <> Root -> who <> Signed w -> disputed (chain s) w ->
    disputed (chain (run_other (other_dispatch pallet name params nested who) s).2) w;
}.
Arguments KeepsDisputes T O : clear implicits.

Section disputes.
Context {T : Config} {O : OtherPallets T} {L : KeepsDisputes T O} (victim : AccountId).

Definition not_victim (e : OriginCaller * RuntimeCall) : Prop := e.1 <> Signed victim.

(** While the account is disputed it stays so, and no call runs in its name, at least
    until a call reaches out of the three pallets. *)
Definition frozen (s s' : State T) : Prop :=
  exists calls, executed s' = calls ++ executed s /\
    (disputed (chain s) victim ->
     (disputed (chain s') victim /\ Forall not_victim calls) \/
     exists later e earlier, calls = later ++ e :: earlier /\ reaches e.2 = true /\ Forall not_victim (e :: earlier)).

#[local] Instance frozen_preorder : PreOrder frozen.
Proof.
  split; [intros s; exists []; split; [done|]; intros Hd; by left|].
  intros s1 s2 s3 (c12 & E12 & H12) (c23 & E23 & H23). exists (c23 ++ c12). rewrite E23, E12, app_assoc. split; [done|].
  intros Hd. destruct (H12 Hd) as [[Hd2 F12]|(later & e & earlier & -> & Hr & F)].
  - destruct (H23 Hd2) as [[Hd3 F23]|(later & e & earlier & -> & Hr & F)]; [left; split; [done|by apply Forall_app]|].
    right. exists later, e, (earlier ++ c12). rewrite <- app_assoc. split_and!; [done..|]. rewrite app_comm_cons. by apply Forall_app.
  - right. exists (c23 ++ later), e, earlier. by rewrite <- app_assoc.
Qed.

Definition not_root (o : Origin T) : Prop := caller o <> Root.

(** What decides whether two states are related. *)
Definition evidence (s : State T) := (ColdkeySwapDisputes (chain s) victim, executed s).

Lemma frozen_same s s' : evidence s' = evidence s -> frozen s s'.
Proof.
  unfold evidence. intros [= Hc E]. exists []. split; [done|]. unfold disputed. rewrite Hc. intros Hd. by left.
Qed.

#[local] Instance evidence_frame : Frame evidence.
Proof.
  unfold evidence. split; try done.
  - intros a n s. unfold currency_reserve. rewrite bind_gets.
    destruct (reserve a n (chain s)) eqn:E; [|done]. cbn. by rewrite (reserve_disputes a n _ _ victim E).
  - intros a n s. unfold currency_unreserve. rewrite bind_gets, bind_modify. cbn.
    by rewrite unreserve_disputes.
  - intros pure who ty i h x s ch E. cbn. by rewrite (protected_pure_disputes _ _ _ _ _ _ _ _ victim E).
Qed.

Lemma frozen_frame {A} (m : M (State T) DispatchError A) s : fixed evidence m -> step frozen m s.
Proof. intros H. apply frozen_same, H. Qed.

(** The guard refuses a call of the disputed account. *)
Lemma admitted_not_victim o c s :
  admitted not_root o c s -> disputed (chain s) victim -> caller o <> Signed victim.
Proof.
  intros [Ho [[_ Hp]|(r & Hr & Hr')]] (b & Hb & Hz) Hc; [|done].
  unfold pre_dispatch in Hp. rewrite bind_gets, Hc in Hp. unfold check in Hp. rewrite Hb in Hp.
  by destruct (Z.eqb_spec b 0).
Qed.

Lemma frozen_log o c s : admitted not_root o c s -> frozen s (set_executed (cons (caller o, c)) s).
Proof.
  intros Ha. exists [(caller o, c)]. split; [done|]. intros Hd. left. split; [done|]. apply Forall_singleton.
  by apply (admitted_not_victim o c s).
Qed.

Lemma dispute_other o p n ps ns s :
  admitted not_root o (OtherCall p n ps ns) s ->
  step frozen (dispatch_bypass_filter (OtherCall p n ps ns) o) s.
Proof.
  intros Ha. cbn [dispatch_bypass_filter]. apply step_transactional; [apply _|].
  unfold step. rewrite bind_modify. exists [(caller o, OtherCall p n ps ns)]. split; [by rewrite (frame_run_other executed)|].
  intros Hd. pose proof (admitted_not_victim o _ s Ha Hd) as Hv. destruct (decide (p ∈ reaching_pallets)) as [Hp|Hp].
  - right. exists [], (caller o, OtherCall p n ps ns), []. split_and!; [done| |by apply Forall_singleton]. simpl.
    by rewrite bool_decide_eq_true_2.
  - left. split; [|by apply Forall_singleton]. apply other_disputes; [done|apply Ha|done|done].
Qed.

Lemma frozen_simple o c s :
  admitted not_root o c s -> simple_call c = true -> step frozen (dispatch_bypass_filter c o) s.
Proof.
  intros Ha Hs. destruct c; try (by apply dispute_other); try discriminate Hs.
  all: match goal with |- step _ (dispatch_bypass_filter ?c _) _ =>
    destruct (simple_call_frame evidence ltac:(done) c o) as (body & -> & Hf); [done..|] end.
  all: step_run; [by apply step_modify, frozen_log | by apply frozen_frame].
Qed.

#[local] Instance frozen_along : Along frozen not_root.
Proof.
  split; try done.
  - intros e s _. by apply frozen_same.
  - intros f s. by apply frozen_same.
  - intros o c s. apply frozen_log.
  - intros d f s. apply frozen_frame, (frame_edit evidence).
  - intros who child index ch s E. apply frozen_same. unfold evidence. cbn.
    by rewrite (protected_derivative_disputes _ _ _ _ _ victim E).
  - intros c (o & Ho & Hr). done.
  - intros o c s. apply frozen_simple.
  - intros o safe others c s Ha [Hg _]. cbn [dispatch_bypass_filter].
    step_run; [by apply step_modify, frozen_log|]. unfold do_as_multi_threshold_1.
    step_run; [by apply Hg | by apply step_modify, frozen_same].
  - intros o safe thr others tp c w s Ha [Hg _]. cbn [dispatch_bypass_filter].
    step_run; [by apply step_modify, frozen_log|]. unfold as_multi, operate, operate_started. step_run.
    all: try (by apply Hg).
    all: try (by apply step_modify, frozen_same).
    all: apply frozen_frame; first [by apply frame_unreserve
      | by apply (frame_operate_approve evidence) | by apply (frame_operate_start evidence)
      | by apply fixed_modify].
Qed.

End disputes.
