(* ===== verification/DispatchMultisig.v ===== *)
(** * DispatchMultisig: no multisig call without its approvals

    The invariant of the Multisig pallet.  Each stored operation is backed: its
    approvals are distinct signatories of the account, and each of them made a
    call that approves this very call hash for this very account.  An executed
    operation is authorised by as many such signatories as its threshold.  The
    invariant holds along every call, whatever wraps it, and so in every state
    the chain reaches.

    A multisig account is identified by its signatories and its threshold, so
    the derivation of the accounts is assumed to be free of collisions, as the
    hash functions behind it are meant to be. *)

From Stdlib Require Import ZArith Lia Sorted.
From stdpp Require Import base gmap list fin_maps sets.
From S2P Require Import Prelude Calls Dispatch DispatchLogic DispatchSearch DispatchSafety.

Local Open Scope list_scope.
Local Open Scope Z_scope.

Section multisig.
Context {T : Config}.

(** The account that belongs to sorted signatories and a threshold. *)
Definition is_account (sigs : list AccountId) (threshold : Z) (safe : bool) (id : AccountId) : Prop :=
  if safe then safe_derived_account (MultisigManifest sigs threshold) = Some id
  else multi_account_id sigs threshold = id.

(** Two multisigs with one account are one multisig. *)
Class CollisionFree : Prop :=
  collision_free sigs thr safe sigs' thr' safe' id :
    is_account sigs thr safe id -> is_account sigs' thr' safe' id -> sigs = sigs' /\ thr = thr'.

(** The call [c] of [a] is a vote for the call with hash [h] by the account [id],
    in the operation it names by its timepoint. *)
Definition approves (a : AccountId) (c : RuntimeCall) (id : AccountId) (h : Hash)
    (tp : option Timepoint) : Prop :=
  exists safe thr others sigs,
    sigs ≡ₚ a :: others /\ sorted_accounts sigs /\ is_account sigs thr safe id /\
    match c with
    | Multisig_as_multi safe' thr' others' tp' call _ =>
        (safe', thr', others', tp') = (safe, thr, others, tp) /\ blake2_call call = h
    | Multisig_approve_as_multi safe' thr' others' tp' h' _ =>
        (safe', thr', others', tp') = (safe, thr, others, tp) /\ h' = h
    | Multisig_as_multi_threshold_1 safe' others' call =>
        (safe', 1, others', None) = (safe, thr, others, tp) /\ blake2_call call = h
    | _ => False
    end.

Definition voted (s : State T) (a : AccountId) (id : AccountId) (h : Hash) (tp : option Timepoint) : Prop :=
  exists c, (Signed a, c) ∈ executed s /\ approves a c id h tp.

(** The operation that started at [tp] has the vote of [a]: it named the
    timepoint, or it is the call that started the operation. *)
Definition has_vote (s : State T) (starter : AccountId) (tp : Timepoint) (id : AccountId) (h : Hash)
    (a : AccountId) : Prop :=
  voted s a id h (Some tp) \/ a = starter /\ voted s a id h None.

Record backed_by (s : State T) (id : AccountId) (h : Hash) (m : MultisigOp)
    (sigs : list AccountId) (threshold : Z) (safe : bool) : Prop := {
  b_account : is_account sigs threshold safe id;
  b_sorted : sorted_accounts sigs;
  b_two : 2 <= threshold;
  b_approvals_sorted : sorted_accounts (approvals m);
  b_approvals : approvals m ⊆ sigs;
  b_below : Z.of_nat (length (approvals m)) <= threshold;
  b_bounded : Z.of_nat (length (approvals m)) <= MaxSignatories;
  b_depositor : depositor m ∈ approvals m;
  b_deposit : ms_deposit m = multisig_deposit threshold;
  b_voted a : a ∈ approvals m -> has_vote s (depositor m) (when m) id h a;
}.

Definition backed (s : State T) (id : AccountId) (h : Hash) (m : MultisigOp) : Prop :=
  exists sigs threshold safe, backed_by s id h m sigs threshold safe.

(** At least as many of the signatories as the threshold voted for the call. *)
Definition authorised (s : State T) (tp : Timepoint) (id : AccountId) (h : Hash) : Prop :=
  exists sigs threshold safe starter voters,
    is_account sigs threshold safe id /\ sorted_accounts sigs /\ 1 <= threshold /\
    NoDup voters /\ voters ⊆ sigs /\ threshold <= Z.of_nat (length voters) /\
    forall a, a ∈ voters -> has_vote s starter tp id h a.

Definition multisig_inv (s : State T) : Prop :=
  (forall id h m, Multisigs s !! (id, h) = Some m -> backed s id h m) /\
  (forall a tp id h r, MultisigExecuted a tp id h r ∈ Events s -> authorised s tp id h).

(** ** Votes stay *)

(** What ran is never forgotten. *)
Definition remembers (s s' : State T) : Prop := executed s ⊆ executed s'.

Lemma has_vote_mono s s' starter tp id h a :
  remembers s s' -> has_vote s starter tp id h a -> has_vote s' starter tp id h a.
Proof.
  intros Hr [(c & Hc & Ha)|(-> & c & Hc & Ha)]; [left|right; split; [done|]]; exists c; auto.
Qed.

Lemma backed_mono s s' id h m : remembers s s' -> backed s id h m -> backed s' id h m.
Proof.
  intros Hr (sigs & thr & safe & []). exists sigs, thr, safe. split; eauto using has_vote_mono.
Qed.

Lemma authorised_mono s s' tp id h : remembers s s' -> authorised s tp id h -> authorised s' tp id h.
Proof.
  intros Hr (sigs & thr & safe & st & voters & ? & ? & ? & ? & ? & ? & Hv).
  exists sigs, thr, safe, st, voters. split_and!; eauto using has_vote_mono.
Qed.

(** The invariant along a run. *)
Definition keeps_inv (s s' : State T) : Prop :=
  remembers s s' /\ (multisig_inv s -> multisig_inv s').

#[global] Instance keeps_inv_preorder : PreOrder keeps_inv.
Proof.
  split; [intros s; split; [by intros e | done]|]. intros s1 s2 s3 [R1 I1] [R2 I2]. split; [|by auto].
  intros e He. by apply R2, R1.
Qed.

(** What decides about the invariant: the operations, the events that report an
    execution, and what ran. *)
Definition reports (l : list Event) : list Event := List.filter (fun e => negb (plain_event e)) l.

Definition ledger (s : State T) := (Multisigs s, reports (Events s), executed s).

Lemma report_elem e l : plain_event e = false -> e ∈ l <-> e ∈ reports l.
Proof.
  intros He. unfold reports. rewrite !list_elem_of_In, filter_In, He. intuition.
Qed.

Lemma keeps_inv_grow s s' :
  Multisigs s' = Multisigs s -> reports (Events s') = reports (Events s) -> remembers s s' ->
  keeps_inv s s'.
Proof.
  intros EM EE Hr. split; [done|]. intros [Hm He]. split.
  - intros id h m. rewrite EM. intros Hl. by apply (backed_mono s), Hm.
  - intros a tp id h r. rewrite report_elem, EE, <- report_elem by done.
    intros Hl. by eapply (authorised_mono s), He.
Qed.

Lemma keeps_inv_same s s' : ledger s' = ledger s -> keeps_inv s s'.
Proof.
  unfold ledger. intros [= H1 H2 H3]. apply keeps_inv_grow; [done..|]. unfold remembers. by rewrite H3.
Qed.

#[global] Instance ledger_frame : Frame ledger.
Proof.
  apply chain_free_frame; try done. intros e s He. unfold ledger, reports. cbn. by rewrite He.
Qed.

Lemma keeps_inv_frame {A} (m : M (State T) DispatchError A) s : fixed ledger m -> step keeps_inv m s.
Proof. intros H. apply keeps_inv_same, H. Qed.

Lemma keeps_inv_log (o : Origin T) c s : keeps_inv s (set_executed (cons (caller o, c)) s).
Proof. apply keeps_inv_grow; [done..|]. unfold remembers. cbn. set_solver. Qed.

(** ** The operations *)

Lemma account_ok sigs thr safe (s : State T) id s' :
  account_id_for sigs thr safe s = (Ok id, s') ->
  s' = s /\ is_account sigs thr safe id /\ (safe = true -> thr <= Z.of_nat (length sigs)).
Proof.
  unfold account_id_for, safe_multi_account_id, is_account.
  destruct safe; intros H; minv; bool_to_prop; naive_solver.
Qed.

Lemma signatories_ok who thr others safe (s : State T) id s' :
  signatories_account who thr others safe s = (Ok id, s') ->
  s' = s /\ Z.of_nat (length others) < MaxSignatories /\ exists sigs,
  sigs ≡ₚ who :: others /\ sorted_accounts sigs /\ is_account sigs thr safe id /\
  (safe = true -> thr <= Z.of_nat (length sigs)).
Proof.
  unfold signatories_account. intros H. minv. bool_to_prop.
  match goal with H : ensure_sorted_and_insert _ _ _ = _ |- _ =>
    apply sorted_and_insert_ok in H as (-> & Hp & Hs) end.
  apply account_ok in H as (-> & Ha & Ht). eauto 10.
Qed.

(** Two states in which the same calls ran. *)
Lemma same_trace s s' : executed s' = executed s -> remembers s s'.
Proof. intros E e. by rewrite E. Qed.

Lemma insert_step s id h m : backed s id h m -> keeps_inv s (set_multisigs (insert (id, h) m) s).
Proof.
  intros Hb. split; [by apply same_trace|]. intros [Hm He]. split.
  - intros id' h' m'. cbn. rewrite lookup_insert_Some. intros [[[= -> ->] ->]|[_ Hl]];
      apply (backed_mono s); auto; by apply same_trace.
  - intros a tp id' h' r Hl. apply (authorised_mono s); [by apply same_trace | by eapply He].
Qed.

Lemma delete_step s k : keeps_inv s (set_multisigs (delete k) s).
Proof.
  split; [by apply same_trace|]. intros [Hm He]. split.
  - intros id h m. cbn. rewrite lookup_delete_Some. intros [_ Hl].
    apply (backed_mono s); auto; by apply same_trace.
  - intros a tp id' h' r Hl. apply (authorised_mono s); [by apply same_trace | by eapply He].
Qed.

Lemma report_step s a tp id h r :
  authorised s tp id h -> keeps_inv s (set_events (cons (MultisigExecuted a tp id h r)) s).
Proof.
  intros Ha. split; [by apply same_trace|]. intros [Hm He]. split.
  - intros id' h' m Hl. apply (backed_mono s); auto; by apply same_trace.
  - intros a' tp' id' h' r' Hl. apply (authorised_mono s); [by apply same_trace|].
    cbn in Hl. apply elem_of_cons in Hl as [[= -> -> -> -> ->]|Hl]; [done | by eapply He].
Qed.

(** The votes are the same after reserving or unreserving. *)
Lemma reserve_trace a n (s : State T) r s' : currency_reserve a n s = (r, s') -> executed s' = executed s.
Proof. intros H. pose proof (frame_reserve (g := executed) a n s) as E. by rewrite H in E. Qed.
Lemma unreserve_trace a n (s : State T) r s' : currency_unreserve a n s = (r, s') -> executed s' = executed s.
Proof. intros H. pose proof (frame_unreserve (g := executed) a n s) as E. by rewrite H in E. Qed.

Lemma voted_same s s' a id h tp : executed s' = executed s -> voted s a id h tp -> voted s' a id h tp.
Proof. unfold voted. by intros ->. Qed.

Lemma start_step who thr tp id h sigs safe s :
  2 <= thr -> is_account sigs thr safe id -> sorted_accounts sigs -> who ∈ sigs ->
  voted s who id h tp -> step keeps_inv (operate_start who thr tp id h) s.
Proof.
  intros H2 Ha Hs Hw Hv. unfold operate_start. step_run.
  - by apply keeps_inv_frame, frame_reserve.
  - minv. bool_to_prop. subst tp. apply step_modify, insert_step. exists sigs, thr, safe.
    split; cbn [approvals depositor ms_deposit when]; try done.
    + by repeat constructor.
    + by intros x ->%list_elem_of_singleton.
    + cbn. lia.
    + by apply list_elem_of_singleton.
    + intros x ->%list_elem_of_singleton. right. split; [done|].
      eapply voted_same; [eapply reserve_trace|]; eassumption.
  - by apply keeps_inv_frame, (frame_event ledger).
Qed.
Context {CF : CollisionFree}.

(** An operation of the account stays backed by the multisig it belongs to. *)
Lemma backed_by_account s id h m sigs thr safe :
  backed s id h m -> is_account sigs thr safe id -> backed_by s id h m sigs thr safe.
Proof.
  intros (sigs' & thr' & safe' & []) Ha.
  destruct (collision_free _ _ _ _ _ _ _ b_account0 Ha) as [-> ->]. by split.
Qed.

(** The votes with one more signatory. *)
Lemma approve_backed s id h m sigs thr safe who pos :
  backed_by s id h m sigs thr safe -> who ∈ sigs -> voted s who id h (Some (when m)) ->
  binary_search Z.ltb who (approvals m) = Err pos ->
  Z.of_nat (length (approvals m)) < thr -> Z.of_nat (length (approvals m)) < MaxSignatories ->
  backed_by s id h (mkMultisig (when m) (ms_deposit m) (depositor m) (insert_at pos who (approvals m)))
    sigs thr safe.
Proof.
  intros [] Hw Hv Hb Hlt Hmax.
  destruct (search_insert Z.ltb who (approvals m) pos) as [_ Hs]; [done..|].
  split; cbn [approvals depositor ms_deposit when]; try done.
  - intros a [->|?]%elem_of_insert_at; [done|auto].
  - rewrite insert_at_length. lia.
  - rewrite insert_at_length. lia.
  - apply elem_of_insert_at. by right.
  - intros a [->|?]%elem_of_insert_at; [by left | auto].
Qed.

Lemma maybe_pos_ok who thr m i :
  maybe_pos who thr m = Some i ->
  binary_search Z.ltb who (approvals m) = Err i /\ Z.of_nat (length (approvals m)) < thr.
Proof.
  unfold maybe_pos. destruct (binary_search Z.ltb who (approvals m)); [done|].
  destruct (Z.ltb_spec (Z.of_nat (length (approvals m))) thr); [|done]. by intros [= ->].
Qed.

(** Enough approvals, with the sender's where it is counted, authorise the call. *)
Lemma enough_votes s id h m sigs thr safe who :
  backed_by s id h m sigs thr safe -> who ∈ sigs -> voted s who id h (Some (when m)) ->
  thr <= approvals_with m (maybe_pos who thr m) ->
  authorised s (when m) id h.
Proof.
  intros Hb Hw Hv Hthr. pose proof Hb as [].
  assert (Hnd : NoDup (approvals m)) by by apply (sorted_nodup Z.ltb).
  destruct (decide (thr <= Z.of_nat (length (approvals m)))) as [Hle|Hgt].
  - exists sigs, thr, safe, (depositor m), (approvals m). split_and!; auto; lia.
  - unfold approvals_with in Hthr. destruct (maybe_pos who thr m) as [i|] eqn:Ep; [|lia].
    apply maybe_pos_ok in Ep as [Es _].
    destruct (search_insert Z.ltb who (approvals m) i) as [Hn _]; [done..|].
    exists sigs, thr, safe, (depositor m), (who :: approvals m).
    split_and!; auto; [lia | by constructor | | cbn [length]; lia |].
    + intros a [->|?]%elem_of_cons; auto.
    + intros a [->|?]%elem_of_cons; [by left | auto].
Qed.

Context {O : OtherPallets T}.
Abbreviation Nested := (RuntimeCall * (Origin T -> M (State T) DispatchError unit))%type.

Lemma approve_step s who tp id h m sigs thr safe :
  multisig_inv s -> Multisigs s !! (id, h) = Some m -> is_account sigs thr safe id -> who ∈ sigs ->
  voted s who id h (Some (when m)) ->
  step keeps_inv (operate_approve who tp id h (maybe_pos who thr m) m) s.
Proof.
  intros [Hm _] Hl Ha Hw Hv. unfold operate_approve.
  destruct (maybe_pos who thr m) as [pos|] eqn:Hpos; step_run.
  - minv. bool_to_prop. apply maybe_pos_ok in Hpos as [Hs Hlt]. apply step_modify, insert_step.
    exists sigs, thr, safe. eapply approve_backed; eauto using backed_by_account.
  - by apply keeps_inv_frame, (frame_event ledger).
Qed.

(** The operations of a multisig keep the invariant. *)
Lemma started_step s who thr tp id h (maybe_call : option Nested) w m sigs safe :
  multisig_inv s -> Multisigs s !! (id, h) = Some m -> is_account sigs thr safe id -> who ∈ sigs ->
  voted s who id h tp ->
  (forall n, maybe_call = Some n -> good keeps_inv (fun _ => True) n) ->
  step keeps_inv (operate_started who thr tp id h maybe_call w m) s.
Proof.
  intros Hinv Hl Ha Hw Hv Hg. unfold operate_started.
  apply step_bind; [apply _ | step_run |]. intros t s1 H1. apply ok_or_ok in H1 as [-> ->].
  apply step_bind; [apply _ | step_run |]. intros u s1 H1. minv. bool_to_prop. subst t.
  pose proof (approve_step s who (when m) id h m sigs thr safe) as Happ.
  destruct maybe_call as [n|]; [|by apply Happ].
  cbv zeta. destruct (Z.leb_spec thr (approvals_with m (maybe_pos who thr m))) as [Hthr|_]; [|by apply Happ].
  assert (Hauth : authorised s (when m) id h).
  { eapply enough_votes; eauto. eapply backed_by_account; [apply Hinv|]; eauto. }
  step_run.
  - apply step_modify, delete_step.
  - apply keeps_inv_frame, frame_unreserve.
  - by apply (Hg n).
  - minv. apply step_modify, report_step. apply (authorised_mono s); [|done].
    match goal with
    | H : currency_unreserve _ _ ?s1 = (_, ?s2), H' : attempt (nested_dispatch ?n ?o) ?s2 = (_, ?s3) |- _ =>
        pose proof (unreserve_trace _ _ _ _ _ H) as Eu;
        pose proof (step_attempt keeps_inv _ s2 (proj1 (Hg n eq_refl) o s2 I)) as [Hr _];
        rewrite H' in Hr end.
    intros e He. apply Hr. by rewrite Eu.
Qed.

Lemma operate_step s who thr others tp (ch : CallOrHash) w safe h :
  multisig_inv s ->
  match ch with TheCall n => h = blake2_call n.1 /\ good keeps_inv (fun _ => True) n | TheHash h' => h = h' end ->
  (forall id sigs, sigs ≡ₚ who :: others -> sorted_accounts sigs -> is_account sigs thr safe id ->
     voted s who id h tp) ->
  step keeps_inv (operate who thr others tp ch w safe) s.
Proof.
  intros Hinv Hch Hv. unfold operate. apply step_bind; [apply _ | step_run |].
  intros u s1 H1. minv. bool_to_prop.
  apply step_bind; [apply _ | step_run |].
  intros id s1 (-> & _ & sigs & Hp & Hs & Ha & _)%signatories_ok.
  assert (Hw : who ∈ sigs) by (rewrite Hp; by left). specialize (Hv id sigs Hp Hs Ha).
  destruct ch as [n|h'].
  - destruct Hch as [-> Hg]. step_run; minv.
    + eapply started_step; eauto. by intros n' [= <-].
    + by eapply start_step.
  - subst h'. step_run; minv.
    + eapply started_step; eauto. done.
    + by eapply start_step.
Qed.

(** ** The calls *)

Lemma inv_intro c o s :
  (multisig_inv s -> step keeps_inv (dispatch_bypass_filter c o) s) ->
  step keeps_inv (dispatch_bypass_filter c o) s.
Proof.
  intros H. split; [|intros Hi; by apply (H Hi)].
  destruct (trace_grows_bypass c o s) as (calls & E & _). intros e He. rewrite E.
  apply elem_of_app. by right.
Qed.

(** The call that is being run has been recorded. *)
Lemma logged_vote (o : Origin T) who c s id h tp :
  caller o = Signed who -> approves who c id h tp ->
  voted (set_executed (cons (caller o, c)) s) who id h tp.
Proof. intros Hc Ha. exists c. rewrite Hc. split; [by left | done]. Qed.

Lemma log_inv (o : Origin T) c s : multisig_inv s -> multisig_inv (set_executed (cons (caller o, c)) s).
Proof. apply keeps_inv_log. Qed.

Lemma approve_call_step o safe thr others tp h w s :
  step keeps_inv (dispatch_bypass_filter (Multisig_approve_as_multi safe thr others tp h w) o) s.
Proof.
  apply inv_intro. intros Hi. cbn [dispatch_bypass_filter]. step_run; [apply step_modify, keeps_inv_log|].
  unfold approve_as_multi. step_run. minv.
  match goal with H : ensure_signed _ _ = _ |- _ => apply ensure_signed_ok in H as [Hc ->] end.
  apply (operate_step _ _ _ _ _ _ _ _ h); [by apply log_inv | done|].
  intros id sigs Hp Hs Ha. apply logged_vote; [done|]. by exists safe, thr, others, sigs.
Qed.

Lemma as_multi_call_step o safe thr others tp c w s :
  good keeps_inv (fun _ => True) (c, dispatch_bypass_filter c) ->
  step keeps_inv (dispatch_bypass_filter (Multisig_as_multi safe thr others tp c w) o) s.
Proof.
  intros Hg. apply inv_intro. intros Hi. cbn [dispatch_bypass_filter].
  step_run; [apply step_modify, keeps_inv_log|]. unfold as_multi. step_run. minv.
  match goal with H : ensure_signed _ _ = _ |- _ => apply ensure_signed_ok in H as [Hc ->] end.
  apply (operate_step _ _ _ _ _ _ _ _ (blake2_call c)); [by apply log_inv | done|].
  intros id sigs Hp Hs Ha. apply logged_vote; [done|]. by exists safe, thr, others, sigs.
Qed.

Lemma threshold_1_call_step o safe others c s :
  good keeps_inv (fun _ => True) (c, dispatch_bypass_filter c) ->
  step keeps_inv (dispatch_bypass_filter (Multisig_as_multi_threshold_1 safe others c) o) s.
Proof.
  intros [Hg _]. cbn [dispatch_bypass_filter]. step_run; [apply step_modify, keeps_inv_log|].
  unfold do_as_multi_threshold_1. step_run; [by apply Hg|]. minv.
  repeat match goal with
  | H : ensure_signed _ _ = _ |- _ => apply ensure_signed_ok in H as [Hc ->]
  | H : signatories_account _ _ _ _ _ = _ |- _ =>
      apply signatories_ok in H as (-> & _ & sigs & Hp & Hs & Ha & _)
  end.
  match goal with H : attempt (nested_dispatch ?n ?o) ?s1 = _ |- _ =>
    destruct (step_attempt keeps_inv _ s1 (Hg o s1 I)) as [Hr _]; rewrite H in Hr end.
  apply step_modify, report_step. eapply authorised_mono; [exact Hr|].
  exists sigs, 1, safe, a0, [a0]. split_and!; try done.
  - apply NoDup_singleton.
  - intros x ->%list_elem_of_singleton. rewrite Hp. by left.
  - intros x ->%list_elem_of_singleton. right. split; [done|]. apply logged_vote; [done|].
    by exists safe, 1, others, sigs.
Qed.

Lemma cancel_call_step o safe thr others tp h s :
  step keeps_inv (dispatch_bypass_filter (Multisig_cancel_as_multi safe thr others tp h) o) s.
Proof.
  cbn [dispatch_bypass_filter]. step_run; [apply step_modify, keeps_inv_log|].
  unfold do_cancel_as_multi. step_run.
  - apply keeps_inv_frame, frame_unreserve.
  - apply step_modify, delete_step.
  - by apply keeps_inv_frame, (frame_event ledger).
Qed.

(** The account fixes the threshold, and with it the deposit. *)
Lemma stored_deposit s id h m sigs thr safe :
  multisig_inv s -> Multisigs s !! (id, h) = Some m -> is_account sigs thr safe id ->
  ms_deposit m = multisig_deposit thr.
Proof. intros [Hm _] Hl Ha. eapply b_deposit, backed_by_account; eauto. Qed.

Lemma poke_call_step o safe thr others h s :
  step keeps_inv (dispatch_bypass_filter (Multisig_poke_deposit safe thr others h) o) s.
Proof.
  apply inv_intro. intros Hi. cbn [dispatch_bypass_filter]. step_run; [apply step_modify, keeps_inv_log|].
  unfold do_poke_deposit. step_run.
  all: minv; repeat match goal with
  | H : ensure_signed _ _ = _ |- _ => apply ensure_signed_ok in H as [Hc ->]
  | H : signatories_account _ _ _ _ _ = _ |- _ =>
      apply signatories_ok in H as (-> & _ & sigs & Hp & Hs & Ha & _)
  | H : Multisigs _ !! _ = Some _ |- _ =>
      eapply stored_deposit in H; [|exact (log_inv o _ _ Hi)|exact Ha]
  end; bool_to_prop; congruence.
Qed.

#[local] Instance inv_along : Along keeps_inv (fun _ : Origin T => True).
Proof.
  split; try done.
  - intros e s He. by apply keeps_inv_same, ledger_frame.
  - intros f s. by apply keeps_inv_same.
  - intros o c s _. apply keeps_inv_log.
  - intros d f s. apply keeps_inv_frame, (frame_edit ledger).
  - intros who child index ch s _. by apply keeps_inv_same.
  - intros o c s _ Hs. destruct (storage_call c) eqn:Es.
    + destruct (storage_call_frame ledger c o Es) as (body & -> & Hf).
      step_run; [apply step_modify, keeps_inv_log | by apply keeps_inv_frame].
    + destruct c; try discriminate Hs; try discriminate Es;
        auto using approve_call_step, cancel_call_step, poke_call_step.
      cbn [dispatch_bypass_filter]. step_run; [apply step_modify, keeps_inv_log|].
      by apply keeps_inv_frame, (frame_run_other ledger).
  - intros. by apply threshold_1_call_step.
  - intros. by apply as_multi_call_step.
Qed.

Lemma dispatch_keeps_inv c (o : Origin T) s : step keeps_inv (dispatch c o) s.
Proof. by apply (dispatch_step keeps_inv (fun _ => True)). Qed.

Lemma reachable_inv s : reachable s -> multisig_inv s.
Proof.
  intros (ch & Hr). apply (steps_along keeps_inv) in Hr as [_ Hi].
  - apply Hi. split; [done|]. intros a tp id h r H. by apply not_elem_of_nil in H.
  - intros p s'. by apply keeps_inv_frame, (frame_run_other ledger).
  - intros b s'. by apply keeps_inv_same.
  - intros s'. split; [by apply same_trace|]. intros [Hm He]. split.
    + intros id h m Hl. apply (backed_mono s'); auto; by apply same_trace.
    + intros a tp id h r H. by apply not_elem_of_nil in H.
Qed.

(** (C6) A multisig call is only ever executed with the votes
    of as many distinct signatories as its threshold.  In every state the chain
    reaches, by any calls wrapped in any way: behind each reported execution
    there are at least [threshold] different signatories of the account, each of
    whom made a call, as a caller in its own name, that votes for the executed
    call hash in this very operation; and a stored operation holds only such
    votes, strictly sorted, no more than its threshold, with the deposit of its
    threshold paid by one of them. *)
Theorem multisig_needs_votes s :
  reachable s ->
  (forall a tp id h r, MultisigExecuted a tp id h r ∈ Events s -> authorised s tp id h) /\
  (forall id h m, Multisigs s !! (id, h) = Some m -> backed s id h m).
Proof. intros [Hm He]%reachable_inv. by split. Qed.
End multisig.
Arguments CollisionFree T : clear implicits.
