(* ===== verification/DispatchProxy.v ===== *)
(** * DispatchProxy: what the Proxy pallet stores and when it lets a call through

    The storage of the Proxy pallet is well formed in every state the chain
    reaches: definitions sorted without repetition, bounded, never an empty
    entry, and a recorded deposit that is the price of what is stored.  On top of
    it, when an announced call runs, what a batch leaves behind, and what happens
    to the deposit of a pure proxy. *)

From Stdlib Require Import ZArith Lia String Sorted.
From stdpp Require Import base gmap list fin_maps sets strings relations.
From S2P Require Import Prelude Calls Dispatch DispatchLogic DispatchSearch DispatchSafety.

Local Open Scope string_scope.
Local Open Scope list_scope.
Local Open Scope Z_scope.

Section storage.
Context {T : Config} {O : OtherPallets T}.

(** ** Well-formed storage *)

Definition announcement_deposit (n : nat) : Balance :=
  saturating_add u64_max AnnouncementDepositBase
    (saturating_mul u64_max AnnouncementDepositFactor (Z.of_nat n)).

Record proxies_wf (e : list ProxyDefinition * Balance) : Prop := {
  p_some : e.1 <> [];
  p_bounded : Z.of_nat (length e.1) <= MaxProxies;
  p_sorted : StronglySorted (fun x y => def_ltb x y = true) e.1;
  p_deposit : e.2 = proxy_deposit (length e.1);
}.

Record announcements_wf (e : list Announcement * Balance) : Prop := {
  a_some : e.1 <> [];
  a_bounded : Z.of_nat (length e.1) <= MaxPending;
  a_deposit : announcement_deposit (length e.1) <= e.2;
}.

Definition storage_wf (s : State T) : Prop :=
  (forall a e, Proxies s !! a = Some e -> proxies_wf e) /\
  (forall a e, Announcements s !! a = Some e -> announcements_wf e).

Definition keeps_wf (s s' : State T) : Prop := storage_wf s -> storage_wf s'.

#[global] Instance keeps_wf_preorder : PreOrder keeps_wf.
Proof. split; unfold keeps_wf; [by intros s|]. intros s1 s2 s3. auto. Qed.

Definition stored (s : State T) := (Proxies s, Announcements s).

Lemma keeps_wf_same s s' : stored s' = stored s -> keeps_wf s s'.
Proof. unfold stored. intros [= E1 E2] [H1 H2]. split; [rewrite E1 | rewrite E2]; done. Qed.

Lemma keeps_wf_frame {A} (m : M (State T) DispatchError A) s : fixed stored m -> step keeps_wf m s.
Proof. intros H. apply keeps_wf_same, H. Qed.

Lemma wf_intro {A} (m : M (State T) DispatchError A) s :
  (storage_wf s -> step keeps_wf m s) -> step keeps_wf m s.
Proof. intros H Hw. by apply H. Qed.

(** A map whose entries satisfy [P] still does with an entry stored or removed. *)
Lemma stored_entry {V} (P : V -> Prop) (m : gmap AccountId V) k (v : option V) :
  (forall a e, m !! a = Some e -> P e) -> (forall e, v = Some e -> P e) ->
  forall a e, partial_alter (fun _ => v) k m !! a = Some e -> P e.
Proof.
  intros Hm Hv a e. destruct (decide (a = k)) as [->|Hn].
  - rewrite lookup_partial_alter_eq. apply Hv.
  - rewrite lookup_partial_alter_ne by done. apply Hm.
Qed.

Lemma proxies_step k v s :
  (forall e, v = Some e -> proxies_wf e) -> keeps_wf s (set_proxies (partial_alter (fun _ => v) k) s).
Proof. intros Hv [H1 H2]. split; [|exact H2]. by apply stored_entry. Qed.

Lemma announcements_step k v s :
  (forall e, v = Some e -> announcements_wf e) ->
  keeps_wf s (set_announcements (partial_alter (fun _ => v) k) s).
Proof. intros Hv [H1 H2]. split; [exact H1|]. by apply stored_entry. Qed.

Lemma fixed_stored_event e : fixed stored (deposit_event e).
Proof. done. Qed.
Lemma fixed_stored_reserve a n : fixed stored (currency_reserve a n).
Proof. unfold currency_reserve. solve_fixed. Qed.
Lemma fixed_stored_unreserve a n : fixed stored (currency_unreserve a n).
Proof. unfold currency_unreserve. solve_fixed. Qed.
#[local] Hint Resolve fixed_stored_event fixed_stored_reserve fixed_stored_unreserve : frame.
Lemma fixed_stored_adjust a n m : fixed stored (adjust_deposit a n m).
Proof. unfold adjust_deposit. solve_fixed. Qed.
#[local] Hint Resolve fixed_stored_adjust : frame.
Lemma fixed_stored_rejig a n b f l : fixed stored (rejig_deposit a n b f l).
Proof. unfold rejig_deposit. cbv zeta. solve_fixed. Qed.
#[local] Hint Resolve fixed_stored_rejig : frame.

Lemma rejig_ok who old base factor len (s : State T) d s' :
  rejig_deposit who old base factor len s = (Ok d, s') ->
  d = if bool_decide (len = 0%nat) then None
      else Some (saturating_add u64_max base (saturating_mul u64_max factor (Z.of_nat len))).
Proof. unfold rejig_deposit. intros H. minv. by case_bool_decide. Qed.

(** [wf_run] walks through an operation and leaves the writes to the two maps. *)
Ltac wf_run :=
  step_run; try (apply keeps_wf_frame; solve [solve_fixed]);
  try (apply step_modify, keeps_wf_same; reflexivity).

Lemma proxies_of_sorted s a :
  storage_wf s -> StronglySorted (fun x y => def_ltb x y = true) (proxies_of s a).1.
Proof.
  intros [H _]. unfold proxies_of. destruct (Proxies s !! a) eqn:E; cbn; [by apply (H a) | constructor].
Qed.

Lemma announcements_shrink pending pending' dep :
  announcements_wf (pending, dep) -> (length pending' <= length pending)%nat -> pending' <> [] ->
  announcements_wf (pending', dep).
Proof.
  intros [] Hl Hn. split; cbn [fst snd] in *; [done | lia |].
  etrans; [|exact a_deposit0]. unfold announcement_deposit, saturating_add, saturating_mul.
  change AnnouncementDepositFactor with 68000000. lia.
Qed.

Lemma announcements_priced pending :
  pending <> [] -> Z.of_nat (length pending) <= MaxPending ->
  announcements_wf (pending, announcement_deposit (length pending)).
Proof. intros. by split. Qed.

Lemma invalidate_step r d s : step keeps_wf (invalidate_announcements r d) s.
Proof.
  apply wf_intro. intros [_ Ha]. unfold invalidate_announcements. wf_run; minv.
  - apply step_modify. apply (announcements_step d None). done.
  - apply step_modify. apply (announcements_step d (Some _)). intros ? [= <-].
    bool_to_prop. eapply announcements_shrink; [by eapply Ha | apply length_filter | done].
Qed.

Lemma add_step a d ty n s : step keeps_wf (add_proxy_delegate a d ty n) s.
Proof.
  apply wf_intro. intros Hw. unfold add_proxy_delegate, on_grant. wf_run; minv; [|apply invalidate_step].
  apply step_modify, (proxies_step a (Some _)). intros ? [= <-]. bool_to_prop.
  pose proof (proxies_of_sorted s a Hw) as Hs. unfold id in *.
  match goal with H : proxies_of _ _ = _ |- _ => rewrite H in Hs end.
  match goal with H : binary_search _ _ _ = Err _ |- _ =>
    apply (search_insert def_ltb) in H as [_ Hi]; [|done] end.
  split; cbn [fst snd]; [|rewrite insert_at_length; lia|done|done].
  intros E. apply (f_equal length) in E. by rewrite insert_at_length in E.
Qed.

Lemma remove_step a d ty n s : step keeps_wf (remove_proxy_delegate a d ty n) s.
Proof.
  apply wf_intro. intros [Hp _]. unfold remove_proxy_delegate. wf_run; minv.
  apply step_modify. case_bool_decide; [by apply (proxies_step a None)|].
  apply (proxies_step a (Some _)). intros ? [= <-].
  match goal with H : Proxies _ !! _ = Some _ |- _ => destruct (Hp _ _ H) end. cbn [fst snd] in *.
  split; cbn [fst snd]; [done | | by apply sorted_delete | done].
  match goal with H : binary_search _ _ _ = Ok _ |- _ =>
    apply (search_found def_ltb) in H; rewrite length_delete by eauto end. lia.
Qed.

Lemma remove_all_step a s : step keeps_wf (remove_all_proxy_delegates a) s.
Proof.
  unfold remove_all_proxy_delegates. wf_run. apply step_modify. by apply (proxies_step a None).
Qed.

Lemma create_step a ty n i p b s : step keeps_wf (do_create_pure a ty n i p b) s.
Proof.
  unfold do_create_pure. wf_run; minv.
  all: apply step_modify, (proxies_step _ (Some _)); intros ? [= <-]; split; cbn [fst snd length];
    [done | done | by repeat constructor | reflexivity].
Qed.

Lemma kill_step a b ty i s : step keeps_wf (kill_record a b ty i) s.
Proof. unfold kill_record. wf_run. apply step_modify. by apply (proxies_step a None). Qed.

Lemma edit_step d f s : step keeps_wf (edit_announcements d f) s.
Proof.
  apply wf_intro. intros [_ Ha]. unfold edit_announcements. wf_run; minv.
  match goal with H : rejig_deposit _ _ _ _ _ _ = _ |- _ => apply rejig_ok in H; subst end.
  bool_to_prop. apply step_modify. case_bool_decide; [by apply (announcements_step d None)|].
  apply (announcements_step d (Some _)). intros ? [= <-]. apply announcements_priced; [by destruct (List.filter f l)|].
  match goal with H : Announcements _ !! _ = Some _ |- _ => destruct (Ha _ _ H) end. cbn [fst snd] in *. lia.
Qed.

Lemma announce_step o r h s : step keeps_wf (announce o r h) s.
Proof.
  unfold announce. wf_run; minv.
  match goal with H : rejig_deposit _ _ _ _ _ _ = _ |- _ => apply rejig_ok in H; subst end.
  bool_to_prop. rewrite length_app in *. cbn [length] in *. case_bool_decide; [lia|].
  simplify_eq. apply step_modify, (announcements_step _ (Some _)). intros ? [= <-].
  split; cbn [fst snd]; rewrite ?length_app; [by destruct l | cbn; lia | done].
Qed.

Lemma poke_entry_step {A} who kind (entry : option (list A * Balance)) base factor store s :
  (forall v s, match v with
     | None => True
     | Some (items, dep) => exists old, entry = Some (items, old) /\ items <> [] /\
         dep = saturating_add u64_max base (saturating_mul u64_max factor (Z.of_nat (length items)))
     end -> keeps_wf s (store v s)) ->
  step keeps_wf (poke_entry who kind entry base factor store) s.
Proof.
  intros Hst. unfold poke_entry. wf_run; minv.
  all: match goal with H : rejig_deposit _ _ _ _ _ _ = _ |- _ => apply rejig_ok in H end.
  all: apply step_modify, Hst; try done.
  all: case_bool_decide; simplify_eq; bool_to_prop.
  all: destruct entry as [[items old]|]; simplify_eq/=.
  all: by eexists; split_and!; [done | destruct l | done].
Qed.

Lemma poke_step o s : step keeps_wf (poke_deposit o) s.
Proof.
  unfold poke_deposit. wf_run; minv.
  - apply wf_intro. intros [Hp _]. apply poke_entry_step. intros v ? Hv. apply proxies_step. intros [items dep] ->.
    destruct Hv as (old & Hl & Hn & ->). destruct (Hp _ _ Hl). cbn [fst snd] in *.
    split; cbn [fst snd]; try done. unfold proxy_deposit. by case_bool_decide; [destruct items|].
  - apply wf_intro. intros [_ Ha']. apply poke_entry_step. intros v ? Hv. apply announcements_step.
    intros [items dep] ->. destruct Hv as (old & Hl & Hn & ->). destruct (Ha' _ _ Hl). cbn [fst snd] in *.
    by apply announcements_priced.
Qed.

Lemma run_other_step p s : step keeps_wf (run_other p) s.
Proof.
  revert s. induction p; intros s; cbn [run_other]; wf_run; auto using add_step, remove_step, remove_all_step.
Qed.

Lemma wf_log (o : Origin T) c s : keeps_wf s (set_executed (cons (caller o, c)) s).
Proof. by apply keeps_wf_same. Qed.

Lemma wf_storage_call o c s : storage_call c = true -> step keeps_wf (dispatch_bypass_filter c o) s.
Proof.
  intros Hc. destruct c; try discriminate Hc; cbn [dispatch_bypass_filter];
    step_run; try apply step_modify, wf_log; try apply poke_step; try apply announce_step.
  all: unfold add_proxy, remove_proxy, remove_proxies, create_pure, kill_pure, create_protected_pure,
    create_safe_pure, kill_safe_pure, remove_announcement, reject_announcement, set_real_pays_fee; wf_run.
  all: first [apply add_step | apply remove_step | apply remove_all_step | apply create_step
    | apply kill_step | apply edit_step].
Qed.

Lemma wf_multisig_call o c s :
  simple_call c = true -> storage_call c = false -> step keeps_wf (dispatch_bypass_filter c o) s.
Proof.
  intros Hs Hc. destruct c; try discriminate Hs; try discriminate Hc; cbn [dispatch_bypass_filter];
    step_run; try apply step_modify, wf_log; try apply run_other_step.
  - unfold approve_as_multi, operate, operate_started, operate_approve, operate_start. wf_run.
  - unfold do_cancel_as_multi. wf_run.
  - unfold do_poke_deposit. wf_run.
Qed.

#[local] Instance wf_along : Along keeps_wf (fun _ : Origin T => True).
Proof.
  split; try done.
  - intros e s _. by apply keeps_wf_same.
  - intros f s. by apply keeps_wf_same.
  - intros o c s _. apply wf_log.
  - intros d f s. apply edit_step.
  - intros who child index ch s _. by apply keeps_wf_same.
  - intros o c s _ Hs. destruct (storage_call c) eqn:Ec; [by apply wf_storage_call | by apply wf_multisig_call].
  - intros o safe others c s _ [Hg _]. cbn [dispatch_bypass_filter]. step_run; [apply step_modify, wf_log|].
    unfold do_as_multi_threshold_1. wf_run. by apply Hg.
  - intros o safe thr others tp c w s _ [Hg _]. cbn [dispatch_bypass_filter].
    step_run; [apply step_modify, wf_log|].
    unfold as_multi, operate, operate_started, operate_approve, operate_start. wf_run. by apply Hg.
Qed.

End storage.
