(* ===== verification/DispatchOutcome.v ===== *)
(** * DispatchOutcome: what the wrapper calls do

    The functional behaviour of the wrappers: a call that fails changes nothing,
    when an announced call runs and what it uses up, what the batches leave
    behind, how a quorum of signatories gets a call executed, and what becomes of
    the deposit of a pure proxy. *)

From Stdlib Require Import ZArith Lia String Sorted.
From stdpp Require Import base gmap list fin_maps sets strings sorting.
From S2P Require Import Prelude Calls Dispatch DispatchLogic DispatchSearch DispatchSafety.
From S2P Require Import DispatchMultisig.

Local Open Scope string_scope.
Local Open Scope list_scope.
Local Open Scope Z_scope.

(** A check that holds. *)
Lemma bind_ensure {S E A} b (e : E) (m : M S E A) (s : S) : b = true -> (ensure b e;; m) s = m s.
Proof. by intros ->. Qed.

Section outcome.
Context {T : Config} {O : OtherPallets T}.

(** ** Failed calls *)

Lemma failed_bypass c (o : Origin T) s e s' : dispatch_bypass_filter c o s = (Err e, s') -> s' = s.
Proof.
  assert (Hm : exists m : M (State T) DispatchError unit, dispatch_bypass_filter c o = transactional m)
    by (destruct c; cbn [dispatch_bypass_filter]; by eexists).
  destruct Hm as (m & ->).
  intros H. by apply transactional_err in H.
Qed.

Lemma failed_dispatch c (o : Origin T) s e s' : dispatch c o s = (Err e, s') -> s' = s.
Proof.
  unfold dispatch, nested_dispatch. rewrite bind_gets. unfold id.
  pose proof (reads_pre_dispatch o c s) as Hr. unfold mbind, M_bind, ensure. cbn [fst snd].
  destruct (filter_call o s c); cbn; [|intros H; by injection H].
  destruct (pre_dispatch o c s) as [[u|e'] s1]; cbn in *; unfold id in Hr; subst.
  - apply failed_bypass.
  - intros H. by injection H.
Qed.

(** ** Announced calls *)

(** The announcement lets the call run: it is of this call for this account,
    still valid, and as old as the delegation asks. *)
Definition matured (s : State T) (def : ProxyDefinition) (r : AccountId) (inner : RuntimeCall)
    (ann : Announcement) : Prop :=
  real ann = r /\ ann_hash ann = blake2_call inner /\
  (forall b, AnnouncementValidFrom s = Some b -> b <= ann_height ann) /\
  delay def <= saturating_sub (block_number (chain s)) (ann_height ann).

Lemma kept_matured s def r inner ann :
  kept_announcement (AnnouncementValidFrom s) r (blake2_call inner) (block_number (chain s))
    (delay def) ann = false <-> matured s def r inner ann.
Proof.
  unfold kept_announcement, matured. rewrite !orb_false_iff, !negb_false_iff, !Z.eqb_eq, Z.ltb_ge.
  destruct (AnnouncementValidFrom s) as [b|]; [rewrite Z.ltb_ge|].
  - split; [intros [[[Hb Hr] Hh] Hd] | intros (Hr & Hh & Hb & Hd)]; split_and!; auto. by intros ? [= <-].
  - split; [intros [[[_ Hr] Hh] Hd] | intros (Hr & Hh & _ & Hd)]; by split_and!.
Qed.

Lemma filter_shorter {A} (f : A -> bool) (l : list A) :
  (length (List.filter f l) < length l)%nat <-> exists x, x ∈ l /\ f x = false.
Proof.
  induction l as [|x l IH]; cbn [List.filter length].
  - split; [lia|]. by intros (x & ?%not_elem_of_nil & _).
  - assert (length (List.filter f l) <= length l)%nat by apply filter_length_le.
    destruct (f x) eqn:Ef; cbn [length].
    + rewrite <- Nat.succ_lt_mono, IH. split; intros (y & Hy & E); exists y; (split; [|done]);
        [by right|]. apply elem_of_cons in Hy as [->|?]; congruence.
    + split; [intros _; exists x; split; [by left | done] | lia].
Qed.

Lemma edit_ok d f (s : State T) u s' :
  edit_announcements d f s = (Ok u, s') -> exists pending dep,
  Announcements s !! d = Some (pending, dep) /\ (exists ann, ann ∈ pending /\ f ann = false) /\
  (announcements_of s' d).1 = List.filter f pending.
Proof.
  unfold edit_announcements. intros H. apply bind_ok in H as (m & s1 & [-> ->]%gets_ok & H).
  apply bind_ok in H as ([pending dep] & s1 & [Hl ->]%ok_or_ok & H). minv. bool_to_prop.
  exists pending, dep. split_and!; [done | by apply filter_shorter |].
  match goal with H : rejig_deposit _ _ _ _ _ _ = _ |- _ => pose proof H as Hd; revert Hd end.
  unfold announcements_of, set_announcements, rejig_deposit. intros Hd. minv. cbn.
  case_bool_decide as Hz.
  - rewrite lookup_delete_eq. by destruct (List.filter f pending).
  - by rewrite lookup_insert_eq.
Qed.

Lemma map_err_ok (m : M (State T) DispatchError unit) e s u s' :
  map_err m e s = (Ok u, s') -> m s = (Ok u, s').
Proof. unfold map_err. by destruct (m s) as [[]]. Qed.

Lemma transactional_fails {A} (m : M (State T) DispatchError A) s e :
  (m s).1 = Err e -> transactional m s = (Err e, s).
Proof. unfold transactional. destruct (m s) as [[] ?]; cbn; congruence. Qed.

Lemma find_proxy_same (s s' : State T) r d f def :
  Proxies s' = Proxies s -> chain s' = chain s ->
  find_proxy r d f s = (Ok def, s) -> find_proxy r d f s' = (Ok def, s').
Proof.
  unfold find_proxy, proxies_of. rewrite !bind_gets. unfold id. intros -> ->.
  unfold mbind, M_bind, ensure, ok_or. destruct (policy_contains (chain s) r d); [|done].
  cbn. destruct (List.find _ _); [|done]. intros H. by injection H as ->.
Qed.

Lemma filter_all_true {A} (f : A -> bool) (l : list A) :
  (forall x, x ∈ l -> f x = true) -> List.filter f l = l.
Proof.
  induction l as [|x l IH]; intros H; [done|]. cbn. rewrite H by by left.
  f_equal. apply IH. intros y Hy. apply H. by right.
Qed.

(** An edit that keeps every announcement is refused. *)
Lemma edit_refused d f e (k : M (State T) DispatchError unit) s :
  (forall pending dep, Announcements s !! d = Some (pending, dep) -> List.filter f pending = pending) ->
  ((map_err (edit_announcements d f) e;; k) s).1 = Err e.
Proof.
  intros H. unfold edit_announcements, map_err, mbind, M_bind, gets, ok_or, ensure. cbn.
  destruct (Announcements s !! d) as [[pending dep]|]; [|done]. cbn.
  rewrite (H pending dep eq_refl), bool_decide_eq_false_2 by lia. done.
Qed.

(** An announced call runs exactly on a matured
    announcement.  When it runs, the delegate has a delegation of the requested
    type and had announced this very call for this very account, not before the
    boundary of valid announcements and at least the delay ago; the announcement
    is used up before the call is run, so that it serves once, while every
    announcement that had not matured stays.  Without such an announcement the
    call is refused as unannounced and nothing changes. *)
Theorem announced_calls_matured (o : Origin T) d r f inner s :
  (forall s', dispatch_bypass_filter (Proxy_proxy_announced d r f inner) o s = (Ok tt, s') ->
   exists def pending dep s1,
     def ∈ (proxies_of s r).1 /\ delegate def = d /\ forced f def /\
     Announcements s !! d = Some (pending, dep) /\
     (exists ann, ann ∈ pending /\ matured s def r inner ann) /\
     (forall ann, ann ∈ (announcements_of s1 d).1 <-> ann ∈ pending /\ ~ matured s def r inner ann) /\
     do_proxy def r (inner, dispatch_bypass_filter inner) o s1 = (Ok tt, s')) /\
  (forall who def, caller o = Signed who -> find_proxy r d f s = (Ok def, s) ->
   (forall ann, ann ∈ (announcements_of s d).1 -> ~ matured s def r inner ann) ->
   dispatch_bypass_filter (Proxy_proxy_announced d r f inner) o s =
     (Err (ProxyError Proxy.Unannounced), s)).
Proof.
  split.
  - intros s' H. cbn [dispatch_bypass_filter] in H. unfold proxy_announced in H. minv.
    match goal with H : ensure_signed _ _ = _ |- _ => apply ensure_signed_ok in H as [Hc ->] end.
    match goal with H : find_proxy _ _ _ _ = _ |- _ =>
      apply find_proxy_ok in H as (-> & _ & Hin & Hd & Hf) end.
    match goal with H : map_err _ _ _ = _ |- _ => apply map_err_ok, edit_ok in H as (pending & dep & Hl & Hex & Hk) end.
    eexists _, pending, dep, _. split_and!; [exact Hin | done | done | exact Hl | | | exact H].
    + destruct Hex as (ann & Ha & Hm). exists ann. split; [done|]. by apply kept_matured in Hm.
    + intros ann. rewrite Hk, list_elem_of_In, filter_In, <- list_elem_of_In.
      rewrite <- not_false_iff_true. by setoid_rewrite kept_matured.
  - intros who def Hc Hf Hno. cbn [dispatch_bypass_filter]. apply transactional_fails.
    rewrite bind_modify. unfold proxy_announced.
    erewrite bind_run by by apply ensure_signed_ok.
    erewrite bind_run by (apply (find_proxy_same s); [done | done | exact Hf]).
    rewrite bind_gets. apply edit_refused. intros pending dep Hl. apply filter_all_true.
    intros ann Ha. apply not_false_iff_true. rewrite kept_matured. apply Hno.
    unfold announcements_of. cbn in Hl. by rewrite Hl.
Qed.

(** ** Batches *)

(** The calls of a batch, as its loop dispatches them. *)
Definition run_item (o : Origin T) (all : bool) (c : RuntimeCall) : M (State T) DispatchError unit :=
  if is_root o then dispatch_bypass_filter c o
  else dispatch c (if all then add_filter o not_batch_all else o).

(** All the calls succeed, one after the other, each followed by its event. *)
Inductive completes (o : Origin T) (all : bool) : list RuntimeCall -> State T -> State T -> Prop :=
| completes_nil s : completes o all [] s s
| completes_cons c cs s s1 s2 :
    run_item o all c s = (Ok tt, s1) -> completes o all cs (set_events (cons ItemCompleted) s1) s2 ->
    completes o all (c :: cs) s s2.

Abbreviation nested_calls cs := (map (fun c => (c, dispatch_bypass_filter c)) cs).

Lemma failed_item o all c s e s' : run_item o all c s = (Err e, s') -> s' = s.
Proof. unfold run_item. destruct (is_root o); [apply failed_bypass | apply failed_dispatch]. Qed.

Lemma batch_loop_outcome o cs i s :
  exists done rest s1, cs = done ++ rest /\ completes o false done s s1 /\
  (rest = [] /\ batch_loop o i (nested_calls cs) s = (Ok tt, set_events (cons BatchCompleted) s1) \/
   exists c rest' e, rest = c :: rest' /\ run_item o false c s1 = (Err e, s1) /\
     batch_loop o i (nested_calls cs) s =
       (Ok tt, set_events (cons (BatchInterrupted (i + Z.of_nat (length done)) e)) s1)).
Proof.
  revert i s. induction cs as [|c cs IH]; intros i s.
  { exists [], [], s. split_and!; [done | constructor | by left]. }
  cbn [map batch_loop].
  assert (Ei : forall s, batched_dispatch o (c, dispatch_bypass_filter c) s = run_item o false c s)
    by (intros; unfold batched_dispatch, run_item, nested_bypass; by destruct (is_root o)).
  unfold mbind, M_bind, attempt. rewrite Ei.
  destruct (run_item o false c s) as [[[]|e] s1] eqn:Er; cbn [fst snd].
  - destruct (IH (i + 1) (set_events (cons ItemCompleted) s1)) as (dn & rest & s2 & -> & Hc & Hr).
    exists (c :: dn), rest, s2. split_and!; [done | by econstructor |].
    cbn [length]. replace (i + Z.of_nat (S (length dn))) with (i + 1 + Z.of_nat (length dn)) by lia.
    exact Hr.
  - pose proof (failed_item _ _ _ _ _ _ Er) as ->. exists [], (c :: cs), s.
    split_and!; [done | constructor |]. right. exists c, cs, e. split_and!; [done | done |].
    cbn [length]. by rewrite Z.add_0_r.
Qed.

Lemma batch_all_outcome o cs s r s' :
  for_each (nested_calls cs) (fun n =>
    (if is_root o then nested_bypass n o else nested_dispatch n (add_filter o not_batch_all));;
    deposit_event ItemCompleted) s = (r, s') ->
  match r with
  | Ok _ => completes o true cs s s'
  | Err e => exists done c rest s1, cs = done ++ c :: rest /\ completes o true done s s1 /\
      run_item o true c s1 = (Err e, s1)
  end.
Proof.
  revert s. induction cs as [|c cs IH]; intros s; cbn [map for_each].
  { intros [= <- <-]. constructor. }
  assert (Ei : forall s, (if is_root o then nested_bypass (c, dispatch_bypass_filter c) o
    else nested_dispatch (c, dispatch_bypass_filter c) (add_filter o not_batch_all)) s = run_item o true c s)
    by (intros; unfold run_item, nested_bypass; by destruct (is_root o)).
  unfold mbind, M_bind. rewrite Ei. destruct (run_item o true c s) as [[[]|e] s1] eqn:Er; cbn.
  - intros H. specialize (IH _ H). destruct r as [u|e].
    + by econstructor.
    + destruct IH as (dn & c' & rest & s2 & -> & Hc & He). exists (c :: dn), c', rest, s2.
      split_and!; [done | by econstructor | done].
  - intros [= <- <-]. pose proof (failed_item _ _ _ _ _ _ Er) as ->. exists [], c, cs, s.
    split_and!; [done | constructor | done].
Qed.

(** What a batch leaves behind.  [batch] never fails once its
    arguments are accepted: it keeps the effects of the calls before the first
    that fails, reports that one by its index and its error, and runs none after
    it.  [batch_all] either runs all its calls to success, or fails with the
    error of the first that fails and leaves the state as it was. *)
Theorem batches (o : Origin T) cs s :
  caller o <> NoneOrigin -> Z.of_nat (length cs) <= batched_calls_limit ->
  (exists done rest s1, cs = done ++ rest /\
     completes o false done (set_executed (cons (caller o, Utility_batch cs)) s) s1 /\
     (rest = [] /\ dispatch_bypass_filter (Utility_batch cs) o s =
        (Ok tt, set_events (cons BatchCompleted) s1) \/
      exists c rest' e, rest = c :: rest' /\ run_item o false c s1 = (Err e, s1) /\
        dispatch_bypass_filter (Utility_batch cs) o s =
        (Ok tt, set_events (cons (BatchInterrupted (Z.of_nat (length done)) e)) s1))) /\
  ((exists s1, completes o true cs (set_executed (cons (caller o, Utility_batch_all cs)) s) s1 /\
      dispatch_bypass_filter (Utility_batch_all cs) o s = (Ok tt, set_events (cons BatchCompleted) s1)) \/
   (exists done c rest s1 e, cs = done ++ c :: rest /\
      completes o true done (set_executed (cons (caller o, Utility_batch_all cs)) s) s1 /\
      run_item o true c s1 = (Err e, s1) /\
      dispatch_bypass_filter (Utility_batch_all cs) o s = (Err e, s))).
Proof.
  intros Hn Hl.
  assert (He : forall s', ensure_batch o (nested_calls cs) s' = (Ok tt, s')).
  { intros s'. unfold ensure_batch. rewrite length_map.
    rewrite (proj2 (Z.leb_le _ _) Hl). unfold is_none. by destruct (caller o). }
  split.
  - cbn [dispatch_bypass_filter]. unfold transactional, batch. rewrite bind_modify.
    erewrite bind_run by apply He.
    destruct (batch_loop_outcome o cs 0 (set_executed (cons (caller o, Utility_batch cs)) s))
      as (dn & rest & s1 & E & Hc & Hr).
    exists dn, rest, s1. split_and!; [done | done |].
    destruct Hr as [[-> ->]|(c & rest' & e & -> & Hr & ->)]; [by left|].
    right. by exists c, rest', e.
  - set (s0 := set_executed (cons (caller o, Utility_batch_all cs)) s).
    set (items := for_each (nested_calls cs) (fun n =>
      (if is_root o then nested_bypass n o else nested_dispatch n (add_filter o not_batch_all));;
      deposit_event ItemCompleted)).
    assert (Eb : dispatch_bypass_filter (Utility_batch_all cs) o s = match items s0 with
      | (Ok _, s1) => (Ok tt, set_events (cons BatchCompleted) s1) | (Err e, _) => (Err e, s) end).
    { cbn [dispatch_bypass_filter]. unfold transactional, batch_all. rewrite bind_modify.
      erewrite bind_run by apply He. fold s0 items. unfold mbind, M_bind. by destruct (items s0) as [[]]. }
    rewrite Eb. destruct (items s0) as [r s1] eqn:Ef. pose proof (batch_all_outcome _ _ _ _ _ Ef) as Ho.
    destruct r as [[]|e]; [left; exists s1; split; [exact Ho | reflexivity] | right].
    destruct Ho as (dn & c & rest & s2 & -> & Hc & Hr). exists dn, c, rest, s2, e.
    split_and!; [done | exact Hc | exact Hr | reflexivity].
Qed.
End outcome.

(** ** A quorum of signatories *)

(** The loop accepts every sorted list without the sender. *)
Lemma sender_index_total who last i l :
  sorted_accounts l -> who ∉ l -> (forall a, last = Some a -> Forall (fun x => (a <? x) = true) l) ->
  exists j, sender_index who last i l = Ok j.
Proof.
  intros Hs. revert last i. induction Hs as [|x l Hs IH Hx]; intros last i Hw Hl; cbn; [by eexists|].
  apply not_elem_of_cons in Hw as [Hn Hw].
  replace (match last with Some a => a <? x | None => true end) with true.
  - assert (forall a, Some x = Some a -> Forall (fun y => (a <? y) = true) l) by (by intros a [= <-]).
    destruct (x <=? who); [destruct (Z.eqb_spec x who); [done|]|]; by apply IH.
  - destruct last as [a|]; [|done]. specialize (Hl a eq_refl). by inversion Hl.
Qed.

Lemma windows_sorted_true l : sorted_accounts l -> windows_sorted l = true.
Proof.
  induction 1 as [|x l Hs IH Hx]; [done|]. destruct l as [|y l]; [done|].
  change (windows_sorted (x :: y :: l)) with ((x <? y) && windows_sorted (y :: l)).
  rewrite IH. inversion Hx as [|? ? Hxy]. by rewrite Hxy.
Qed.

Lemma sorted_filter (P : AccountId -> Prop) `{!forall x, Decision (P x)} l :
  sorted_accounts l -> sorted_accounts (base.filter P l).
Proof.
  induction 1 as [|x l Hs IH Hx]; [constructor|]. rewrite filter_cons. case_decide; [|exact IH].
  constructor; [exact IH|]. rewrite Forall_forall in *. intros y [_ Hy]%list_elem_of_filter. by apply Hx.
Qed.

Lemma search_missing x l :
  sorted_accounts l -> x ∉ l -> exists i, binary_search Z.ltb x l = Err i.
Proof.
  intros _ Hx. destruct (binary_search Z.ltb x l) as [i|i] eqn:E; [|by exists i].
  apply (search_found Z.ltb) in E. by apply list_elem_of_lookup_2 in E.
Qed.

Section quorum.
Context {T : Config} {O : OtherPallets T}.

(** A multisig account, a call and the weight its senders allow it. *)
Context (sigs : list AccountId) (thr : Z) (safe : bool) (id : AccountId) (call : RuntimeCall)
  (w : Weight).
Context (sigs_sorted : sorted_accounts sigs) (sigs_max : Z.of_nat (length sigs) <= MaxSignatories)
  (thr_two : 2 <= thr) (thr_sigs : thr <= Z.of_nat (length sigs)).
Context (account : is_account sigs thr safe id) (weight : all_lte (call_weight call) w = true).

Definition others (v : AccountId) : list AccountId := base.filter (fun x => x <> v) sigs.

(** The calls of the signatories: a vote by hash, and the one with the call. *)
Definition vote (tp : option Timepoint) (v : AccountId) : AccountId * RuntimeCall :=
  (v, Multisig_approve_as_multi safe thr (others v) tp (blake2_call call) w).
Definition final_vote (tp : Timepoint) (v : AccountId) : AccountId * RuntimeCall :=
  (v, Multisig_as_multi safe thr (others v) (Some tp) call w).

(** The calls, each in the name of its signatory; none of them may fail. *)
Fixpoint cast (votes : list (AccountId * RuntimeCall)) (s : State T) : option (State T) :=
  match votes with
  | [] => Some s
  | (v, c) :: votes' =>
      match dispatch_bypass_filter c (origin_from (Signed v)) s with
      | (Ok _, s') => cast votes' s'
      | (Err _, _) => None
      end
  end.

Lemma cast_app l l' s : cast (l ++ l') s = cast l s ≫= cast l'.
Proof.
  revert s. induction l as [|[v c] l IH]; intros s; [done|]. cbn [app cast].
  destruct (dispatch_bypass_filter c (origin_from (Signed v)) s) as [[] s1]; [apply IH | done].
Qed.

Lemma others_perm v : v ∈ sigs -> v :: others v ≡ₚ sigs.
Proof.
  intros Hv. unfold others. pose proof (sorted_nodup Z.ltb sigs sigs_sorted) as Hnd.
  apply NoDup_Permutation; [constructor; [|by apply NoDup_filter]| done |].
  - rewrite list_elem_of_filter. by intros [].
  - intros x. rewrite elem_of_cons, list_elem_of_filter. destruct (decide (x = v)) as [->|]; tauto.
Qed.

Lemma others_sorted v : sorted_accounts (others v).
Proof. by apply sorted_filter. Qed.

Lemma signatories_found v (s : State T) :
  v ∈ sigs -> signatories_account v thr (others v) safe s = (Ok id, s).
Proof.
  intros Hv. pose proof (others_perm v Hv) as Hp. pose proof (Permutation_length Hp) as Hlen.
  cbn [length] in Hlen. unfold signatories_account.
  rewrite bind_ensure by (destruct (others v); [cbn in Hlen; lia | done]).
  rewrite bind_ensure by (apply Z.ltb_lt; lia).
  destruct (sender_index_total v None 0 (others v)) as [j Hj]; [apply others_sorted | | done |].
  { unfold others. rewrite list_elem_of_filter. by intros []. }
  erewrite (bind_run (ensure_sorted_and_insert (others v) v) _ s sigs s).
  2: { assert (He : ensure_sorted_and_insert (others v) v s = (Ok (insert_at j v (others v)), s))
         by (unfold ensure_sorted_and_insert; by rewrite Hj).
       rewrite He. do 2 f_equal. apply sorted_and_insert_ok in He as (_ & Hi & Hs).
       apply (StronglySorted_unique_strong (fun x y => (x <? y) = true)); [lia | done | done |].
       by rewrite Hi. }
  unfold account_id_for, is_account in *. destruct safe; [|by rewrite account].
  unfold safe_multi_account_id. rewrite account, (windows_sorted_true _ sigs_sorted).
  rewrite !bind_ensure by first [apply Z.leb_le; lia | apply Z.ltb_lt; lia | done]. done.
Qed.

Abbreviation h := (blake2_call call).

(** How far the operation is: stored with these approvals. *)
Definition stored_op (s : State T) (ch : Chain) (starter : AccountId) (tp : Timepoint)
    (apps : list AccountId) : Prop :=
  chain s = ch /\ sorted_accounts apps /\
  Multisigs s !! (id, h) = Some (mkMultisig tp (multisig_deposit thr) starter apps).

Lemma operate_vote v tp ch_or_hash (m : option (RuntimeCall * (Origin T -> M (State T) DispatchError unit))) s :
  v ∈ sigs ->
  match ch_or_hash with TheCall n => (blake2_call n.1, Some n) | TheHash h' => (h', None) end = (h, m) ->
  operate v thr (others v) tp ch_or_hash w safe s =
  match Multisigs s !! (id, h) with
  | Some op => operate_started v thr tp id h m w op s
  | None => operate_start v thr tp id h s
  end.
Proof.
  intros Hv Hh. unfold operate. rewrite bind_ensure by by apply Z.leb_le.
  erewrite bind_run by by apply signatories_found. rewrite Hh, bind_gets.
  by destruct (Multisigs s !! (id, h)).
Qed.

(** A call in the name of a signatory whose body succeeds. *)
Lemma signatory_call c v (body : M (State T) DispatchError unit) s s' :
  dispatch_bypass_filter c (origin_from (Signed v)) =
    transactional (modify (set_executed (cons (Signed v, c)));; body) ->
  body (set_executed (cons (Signed v, c)) s) = (Ok tt, s') ->
  dispatch_bypass_filter c (origin_from (Signed v)) s = (Ok tt, s').
Proof. intros -> Hb. apply transactional_ok. by rewrite bind_modify. Qed.

Lemma first_vote v s ch :
  v ∈ sigs -> Multisigs s !! (id, h) = None -> reserve v (multisig_deposit thr) (chain s) = Ok ch ->
  exists s', dispatch_bypass_filter (vote None v).2 (origin_from (Signed v)) s = (Ok tt, s') /\
  stored_op s' ch v (timepoint ch) [v].
Proof.
  intros Hv Hn Hr. eexists. split.
  - eapply signatory_call; [reflexivity|]. unfold approve_as_multi. cbn [ensure_signed caller origin_from].
    erewrite bind_run by reflexivity. erewrite operate_vote; [|done|reflexivity].
    cbn [Multisigs set_executed]. rewrite Hn. unfold operate_start. rewrite bind_ensure by done.
    erewrite bind_run by (unfold currency_reserve; rewrite bind_gets; cbn [chain set_executed]; rewrite Hr; reflexivity).
    rewrite bind_ensure by done. rewrite bind_gets, bind_modify. reflexivity.
  - split_and!; [done | by repeat constructor |]. cbn. apply lookup_insert_eq.
Qed.

Lemma next_vote v s ch starter tp apps :
  v ∈ sigs -> v ∉ apps -> Z.of_nat (length apps) < thr -> stored_op s ch starter tp apps ->
  exists s' i, dispatch_bypass_filter (vote (Some tp) v).2 (origin_from (Signed v)) s = (Ok tt, s') /\
  stored_op s' ch starter tp (insert_at i v apps).
Proof.
  intros Hv Hn Hlt (Hch & Hs & Hm). destruct (search_missing v apps Hs Hn) as [i Hi].
  eexists _, i. split.
  - eapply signatory_call; [reflexivity|]. unfold approve_as_multi. cbn [ensure_signed caller origin_from].
    erewrite bind_run by reflexivity. erewrite operate_vote; [|done|reflexivity].
    cbn [Multisigs set_executed]. rewrite Hm. unfold operate_started.
    erewrite bind_run by reflexivity. cbn [when]. rewrite bind_ensure by by apply bool_decide_eq_true.
    unfold operate_approve, maybe_pos. cbn [approvals]. rewrite Hi, (proj2 (Z.ltb_lt _ _) Hlt).
    rewrite bind_ensure by (apply Z.ltb_lt; lia). rewrite bind_modify. reflexivity.
  - split_and!; [done | by apply (search_insert Z.ltb) | cbn; apply lookup_insert_eq].
Qed.

Lemma last_vote v s ch starter tp apps :
  v ∈ sigs -> v ∉ apps -> Z.of_nat (length apps) + 1 = thr -> stored_op s ch starter tp apps ->
  exists s1 s2 r, Multisigs s1 !! (id, h) = None /\
  chain s1 = (unreserve starter (multisig_deposit thr) ch).2 /\
  dispatch call (origin_from (Signed id)) s1 = (r, s2) /\
  dispatch_bypass_filter (final_vote tp v).2 (origin_from (Signed v)) s =
    (Ok tt, set_events (cons (MultisigExecuted v tp id h r)) s2).
Proof.
  intros Hv Hn Hlt (Hch & Hs & Hm). destruct (search_missing v apps Hs Hn) as [i Hi].
  set (s1 := set_chain (unreserve starter (multisig_deposit thr) ch).2
    (set_multisigs (delete (id, h)) (set_executed (cons (Signed v, (final_vote tp v).2)) s))).
  destruct (dispatch call (origin_from (Signed id)) s1) as [r s2] eqn:Ed.
  exists s1, s2, r. split_and!; [by cbn; apply lookup_delete_eq | done | done |].
  eapply signatory_call; [reflexivity|]. unfold as_multi. cbn [ensure_signed caller origin_from].
  erewrite bind_run by reflexivity. erewrite operate_vote; [|done|reflexivity].
  cbn [Multisigs set_executed]. rewrite Hm. unfold operate_started.
  erewrite bind_run by reflexivity. cbn [when]. rewrite bind_ensure by by apply bool_decide_eq_true.
  unfold maybe_pos. cbn [approvals]. rewrite Hi, (proj2 (Z.ltb_lt _ thr)) by lia. cbv zeta.
  unfold approvals_with. cbn [approvals]. rewrite (proj2 (Z.leb_le thr _)) by lia.
  rewrite bind_ensure by done. rewrite bind_modify.
  erewrite bind_run by (unfold currency_unreserve; rewrite bind_gets, bind_modify; reflexivity).
  cbn [depositor ms_deposit chain set_multisigs set_executed]. rewrite Hch. fold s1.
  unfold mbind, M_bind, attempt. match goal with |- context [nested_dispatch ?n ?o ?s0] =>
    change (nested_dispatch n o s0) with (dispatch call (origin_from (Signed id)) s1) end.
  by rewrite Ed.
Qed.

Lemma middle_votes vs s ch starter tp apps :
  vs ⊆ sigs -> NoDup (vs ++ apps) -> Z.of_nat (length vs + length apps) <= thr ->
  stored_op s ch starter tp apps ->
  exists s' apps', cast (vote (Some tp) <$> vs) s = Some s' /\ apps' ≡ₚ vs ++ apps /\
  stored_op s' ch starter tp apps'.
Proof.
  revert s apps. induction vs as [|v vs IH]; intros s apps Hin Hnd Hl Hop.
  { by exists s, apps. }
  cbn [length] in Hl. apply NoDup_cons in Hnd as [Hv Hnd].
  destruct (next_vote v s ch starter tp apps) as (s1 & i & Hs1 & Hop1);
    [apply Hin; by left | intros Hx; apply Hv, elem_of_app; by right | lia | done |].
  destruct (IH s1 (insert_at i v apps)) as (s2 & apps' & Hs2 & Hp & Hop2).
  - intros x Hx. apply Hin. by right.
  - rewrite insert_at_perm, Permutation_app_comm. cbn. constructor; [|by rewrite Permutation_app_comm].
    intros Hx. apply Hv, elem_of_app. apply elem_of_app in Hx. tauto.
  - rewrite insert_at_length. lia.
  - done.
  - exists s2, apps'. split_and!; [|by rewrite Hp, insert_at_perm, <- Permutation_middle | done].
    cbn [fmap list_fmap cast vote]. change (Multisig_approve_as_multi _ _ _ _ _ _) with (vote (Some tp) v).2.
    by rewrite Hs1.
Qed.

(** Any as many distinct signatories as the threshold get
    their call executed.  The first votes with enough balance for the deposit,
    the others vote in any order, the last one sends the call: none of the calls
    is refused, the operation is removed and the starter's deposit released
    before the call runs in the name of the multisig account, and the outcome of
    the call is reported, also when the call fails. *)
Theorem quorum_executes first vs last s ch :
  NoDup (first :: vs ++ [last]) -> first :: vs ++ [last] ⊆ sigs ->
  Z.of_nat (length (first :: vs ++ [last])) = thr ->
  Multisigs s !! (id, h) = None -> reserve first (multisig_deposit thr) (chain s) = Ok ch ->
  let tp := timepoint ch in
  exists s1 s2 r,
    Multisigs s1 !! (id, h) = None /\
    chain s1 = (unreserve first (multisig_deposit thr) ch).2 /\
    dispatch call (origin_from (Signed id)) s1 = (r, s2) /\
    cast (vote None first :: (vote (Some tp) <$> vs) ++ [final_vote tp last]) s =
      Some (set_events (cons (MultisigExecuted last tp id h r)) s2).
Proof.
  intros Hnd Hin Hl Hnone Hr tp. cbn [length] in Hl. rewrite length_app in Hl. cbn [length] in Hl.
  apply NoDup_cons in Hnd as [Hf Hnd]. apply NoDup_app in Hnd as (Hvs & Hlast & _).
  destruct (first_vote first s ch) as (s1 & Hs1 & Hop1); [apply Hin; by left | done | done |].
  destruct (middle_votes vs s1 ch first tp [first]) as (s2 & apps & Hs2 & Hp & Hop2).
  - intros x Hx. apply Hin. right. apply elem_of_app. by left.
  - rewrite Permutation_app_comm. cbn. constructor; [set_solver | done].
  - cbn [length]. lia.
  - done.
  - destruct (last_vote last s2 ch first tp apps) as (s3 & s4 & r & H1 & H2 & H3 & H4).
    + apply Hin. right. apply elem_of_app. right. by left.
    + rewrite Hp. intros [Hx|Hx]%elem_of_app; [apply (Hlast last Hx); by left|].
      apply list_elem_of_singleton in Hx as ->. apply Hf, elem_of_app. right. by left.
    + rewrite Hp, length_app. cbn [length]. lia.
    + done.
    + exists s3, s4, r. split_and!; [done..|]. cbn [cast vote].
      change (Multisig_approve_as_multi _ _ _ _ _ _) with (vote None first).2. rewrite Hs1, cast_app, Hs2.
      cbn [mbind option_bind cast final_vote].
      change (Multisig_as_multi _ _ _ _ _ _) with (final_vote tp last).2. by rewrite H4.
Qed.
End quorum.

(** ** The deposit of a pure proxy *)

(** What the currency promises about reserved balances. *)
Class ReservableCurrency (T : Config) (reserved : Chain -> AccountId -> Balance) : Prop := {
  reserve_reserved a n c c' :
    reserve a n c = Ok c' -> reserved c' a = reserved c a + n /\
    forall b, b <> a -> reserved c' b = reserved c b;
  unreserve_reserved a n c :
    reserved (unreserve a n c).2 a = reserved c a - Z.min n (reserved c a) /\
    forall b, b <> a -> reserved (unreserve a n c).2 b = reserved c b;
}.

Section pure.
Context {T : Config} {O : OtherPallets T} (reserved : Chain -> AccountId -> Balance)
  {L : ReservableCurrency T reserved}.

Lemma currency_reserve_ok a n (s : State T) u s' :
  currency_reserve a n s = (Ok u, s') -> exists c,
  s' = set_chain c s /\ reserved c a = reserved (chain s) a + n /\
  forall b, b <> a -> reserved c b = reserved (chain s) b.
Proof.
  unfold currency_reserve. rewrite bind_gets. destruct (reserve a n (chain s)) as [c|e] eqn:E; intros H.
  - apply modify_ok in H as ->. exists c. split; [done|]. by apply reserve_reserved.
  - by apply fail_ok in H.
Qed.

(** The announcements of the delegate are all that a grant may drop. *)
Lemma on_grant_reserved r d (s : State T) u s' b :
  on_grant r d s = (Ok u, s') -> b <> d ->
  Proxies s' = Proxies s /\ reserved (chain s') b = reserved (chain s) b.
Proof.
  unfold on_grant, invalidate_announcements. rewrite bind_gets. intros H Hb.
  destruct (is_protected (chain s) r); [|by apply ret_ok in H as [_ ->]].
  rewrite bind_gets in H. destruct (Announcements s !! d) as [[pending dep]|]; [|by apply ret_ok in H as [_ ->]].
  cbv zeta in H. case_bool_decide.
  - unfold currency_unreserve in H. minv. split; [done|]. cbn. by apply unreserve_reserved.
  - by apply modify_ok in H as ->.
Qed.

Lemma create_pure_ok ty del i a s0 s1 :
  let pure := pure_account a ty i (block_number (chain s0), default 0 (extrinsic_index (chain s0))) in
  dispatch_bypass_filter (Proxy_create_pure ty del i) (origin_from (Signed a)) s0 = (Ok tt, s1) ->
  Proxies s1 !! pure = Some ([mkProxyDefinition a ty del], proxy_deposit 1) /\
  reserved (chain s1) a = reserved (chain s0) a + proxy_deposit 1 /\
  forall b, b <> a -> reserved (chain s1) b = reserved (chain s0) b.
Proof.
  intros pure H. cbn [dispatch_bypass_filter] in H. unfold create_pure, do_create_pure in H. minv.
  repeat match goal with
  | H : ensure_signed _ _ = _ |- _ => apply ensure_signed_ok in H as [[= <-] ->]
  | H : currency_reserve _ _ _ = _ |- _ => apply currency_reserve_ok in H as (c & -> & Ha & Hb)
  | H : deposit_event _ _ = _ |- _ => apply modify_ok in H as ->
  end.
  cbn. rewrite lookup_insert_eq. split_and!; [done | exact Ha | exact Hb].
Qed.

Lemma add_proxy_ok d ty del a s1 s2 def :
  d <> a -> Proxies s1 !! a = Some ([def], proxy_deposit 1) ->
  dispatch_bypass_filter (Proxy_add_proxy d ty del) (origin_from (Signed a)) s1 = (Ok tt, s2) ->
  (proxies_of s2 a).2 = proxy_deposit 2 /\
  reserved (chain s2) a = reserved (chain s1) a + ProxyDepositFactor /\
  forall b, b <> a -> b <> d -> reserved (chain s2) b = reserved (chain s1) b.
Proof.
  intros Hd Hp H. cbn [dispatch_bypass_filter] in H. unfold add_proxy, add_proxy_delegate in H. minv.
  match goal with H : ensure_signed _ _ = _ |- _ => apply ensure_signed_ok in H as [[= <-] ->] end.
  match goal with H : (let '(_, _) := proxies_of ?s _ in _) _ = _ |- _ =>
    replace (proxies_of s a) with ([def], proxy_deposit 1) in H
      by (unfold proxies_of; cbn; by rewrite Hp); destruct (binary_search _ _ _) as [j|j]; minv end.
  repeat match goal with H : deposit_event _ _ = _ |- _ => apply modify_ok in H as -> end.
  match goal with H : adjust_deposit _ _ _ _ = _ |- _ =>
    rewrite insert_at_length in H; apply currency_reserve_ok in H as (c & -> & Ha & Hb) end.
  rewrite insert_at_length in H.
  destruct (on_grant_reserved _ _ _ _ _ a H) as [Ep Er]; [done|].
  split_and!.
  - unfold proxies_of. rewrite Ep. cbn. by rewrite lookup_insert_eq.
  - rewrite Er. exact Ha.
  - intros b Hba Hbd. destruct (on_grant_reserved _ _ _ _ _ b H Hbd) as [_ ->]. by apply Hb.
Qed.

Lemma kill_pure_ok spawner ty i hh x a s2 s3 :
  dispatch_bypass_filter (Proxy_kill_pure spawner ty i hh x) (origin_from (Signed a)) s2 = (Ok tt, s3) ->
  Proxies s3 !! a = None /\
  reserved (chain s3) spawner =
    reserved (chain s2) spawner - Z.min (proxies_of s2 a).2 (reserved (chain s2) spawner) /\
  forall b, b <> spawner -> reserved (chain s3) b = reserved (chain s2) b.
Proof.
  intros H. cbn [dispatch_bypass_filter] in H. unfold kill_pure, kill_record, currency_unreserve in H. minv.
  match goal with H : ensure_signed _ _ = _ |- _ => apply ensure_signed_ok in H as [[= <-] ->] end.
  apply modify_ok in H as ->. cbn. rewrite lookup_delete_eq. split; [done|]. apply unreserve_reserved.
Qed.

(** The deposit of a pure proxy is not returned to
    who paid it.  A spawner creates a pure proxy, the pure proxy grants one more
    delegation, which it pays itself, and is then killed: the price of the added
    delegation stays reserved from the pure proxy, whose record is gone, while
    the spawner is released that price on top of its own deposit, out of
    whatever else it has reserved. *)
Theorem pure_deposit_misdirected a d ty del i ty' del' hh x s0 s1 s2 s3 :
  let pure := pure_account a ty i (block_number (chain s0), default 0 (extrinsic_index (chain s0))) in
  pure <> a -> d <> a -> d <> pure -> 0 <= reserved (chain s0) a ->
  dispatch_bypass_filter (Proxy_create_pure ty del i) (origin_from (Signed a)) s0 = (Ok tt, s1) ->
  dispatch_bypass_filter (Proxy_add_proxy d ty' del') (origin_from (Signed pure)) s1 = (Ok tt, s2) ->
  dispatch_bypass_filter (Proxy_kill_pure a ty i hh x) (origin_from (Signed pure)) s2 = (Ok tt, s3) ->
  Proxies s3 !! pure = None /\
  reserved (chain s3) pure = reserved (chain s0) pure + ProxyDepositFactor /\
  reserved (chain s3) a =
    reserved (chain s0) a - Z.min ProxyDepositFactor (reserved (chain s0) a).
Proof.
  intros pure Hpa Hda Hdp Hnn H1 H2 H3.
  apply create_pure_ok in H1 as (Hp1 & Ha1 & Ho1). fold pure in Hp1.
  apply (add_proxy_ok d ty' del' pure s1 s2 (mkProxyDefinition a ty del)) in H2 as (Hd2 & Hp2 & Ho2); [|done..].
  apply kill_pure_ok in H3 as (Hp3 & Ha3 & Ho3). split; [done|].
  rewrite (Ho3 pure Hpa), Hp2, (Ho1 pure Hpa). split; [done|].
  rewrite Ha3, Hd2, (Ho2 a), Ha1 by done.
  change (proxy_deposit 2) with (proxy_deposit 1 + ProxyDepositFactor). lia.
Qed.
End pure.
