(* ===== verification/DispatchExample.v ===== *)
(** * DispatchExample: a concrete runtime

    An instance of the parameters of Dispatch.v with an actual ledger of free and
    reserved balances, and for each theorem about the wrapper pallets a run in
    which its hypotheses hold.  The hash functions of the instance are injective
    codes, so that it is free of collisions. *)

From Stdlib Require Import ZArith Lia String Sorted.
From stdpp Require Import base gmap list fin_maps sets strings countable relations.
From S2P Require Import Prelude Calls Dispatch DispatchLogic DispatchSearch DispatchSafety.
From S2P Require Import DispatchMultisig DispatchProxy DispatchOutcome.

Local Open Scope string_scope.
Local Open Scope list_scope.
Local Open Scope Z_scope.

Module Example.

Record Ledger : Type := mkLedger {
  free : gmap Z Z;
  held : gmap Z Z;
  now : Z;
  disputes : gmap Z Z;
}.

Definition held_of (c : Ledger) (a : Z) : Z := default 0 (held c !! a).

Definition ledger_reserve (a n : Z) (c : Ledger) : result Ledger DispatchError :=
  let f := default 0 (free c !! a) in
  if n <=? f then Ok (mkLedger (<[a := f - n]> (free c)) (<[a := held_of c a + n]> (held c)) (now c) (disputes c))
  else Err (RuntimeError 1).

Definition ledger_unreserve (a n : Z) (c : Ledger) : Z * Ledger :=
  let m := Z.min n (held_of c a) in
  (n - m, mkLedger (<[a := default 0 (free c !! a) + m]> (free c)) (<[a := held_of c a - m]> (held c))
    (now c) (disputes c)).

(** Codes for what is hashed. *)
Definition code_of (m : Manifest) : positive :=
  match m with
  | MultisigManifest who threshold => (encode (who, threshold))~1
  | DerivativeManifest who index => (encode (who, index))~0~0
  | PureManifest who ty index h x => (encode (who, from_proxy_type ty, index, h, x))~1~0
  end.

#[global] Instance config : Config := {|
  Chain := Ledger;
  reserve := ledger_reserve;
  unreserve := ledger_unreserve;
  block_number := now;
  extrinsic_index _ := Some 1;
  safe_mode_contains _ _ := true;
  ColdkeySwapDisputes c a := disputes c !! a;
  ColdkeySwapAnnouncements_contains_key _ _ := false;
  other_guards _ _ _ := Ok tt;
  policy_contains _ _ _ := true;
  is_protected _ _ := false;
  requires_protection _ _ := false;
  on_create_protected_pure _ _ _ _ _ _ _ := Err (RuntimeError 2);
  on_protected_derivative _ _ _ _ := Err (RuntimeError 2);
  blake2_call c := Z.of_nat (String.length (snd (call_name c)));
  blake2_legacy m := Zpos (code_of m);
  blake2_safe m _ := Zneg (code_of m);
  rejects_legacy_public_keys _ := true;
  call_weight _ := (1, 1);
  size_of_call := 512;
  MAX_POSSIBLE_ALLOCATION := 33554432;
|}.

#[global] Instance pallets : OtherPallets config := fun _ _ _ _ _ => Return (Ok tt).

#[global] Instance no_collisions : CollisionFree config.
Proof.
  assert (H : forall sigs thr safe id, is_account sigs thr safe id -> exists p,
    (id = Zpos p \/ id = Zneg p) /\ p = code_of (MultisigManifest sigs thr)).
  { intros sigs thr [] id Ha; eexists; (split; [|reflexivity]).
    - right. by injection Ha as <-.
    - left. by rewrite <- Ha. }
  intros sigs thr safe sigs' thr' safe' id (p & Hp & Ep)%H (q & Hq & Eq)%H.
  assert (E : p = q) by (destruct Hp, Hq; congruence).
  rewrite Ep, Eq in E. injection E as E. apply (inj encode) in E. by injection E.
Qed.

#[global] Instance keeps_disputes : KeepsDisputes config pallets.
Proof.
  split; try done.
  intros a n c c' w. cbn. unfold ledger_reserve. destruct (n <=? _); [|done]. by intros [= <-].
Qed.

#[global] Instance reserves : ReservableCurrency config held_of.
Proof.
  split.
  - intros a n c c'. cbn. unfold ledger_reserve, held_of. destruct (n <=? _); [|done]. intros [= <-].
    cbn. rewrite lookup_insert_eq. split; [done|]. intros b Hb. by rewrite lookup_insert_ne.
  - intros a n c. change (unreserve a n c) with (ledger_unreserve a n c).
    unfold ledger_unreserve, held_of. cbn. rewrite lookup_insert_eq. split; [done|].
    intros b Hb. by rewrite lookup_insert_ne.
Qed.

(** Accounts 1 to 5 with a balance, number 5 with a disputed coldkey swap. *)
Definition rich : Z := 1000000000000.
Definition start : Ledger :=
  mkLedger {[1 := rich; 2 := rich; 3 := rich; 4 := rich]} {[1 := 50000000]} 7 {[5 := 3]}.

Abbreviation run c who s := (dispatch_bypass_filter c (origin_from (Signed who)) s).
Abbreviation stake := (OtherCall "SubtensorModule" "add_stake" [("amount_staked", 5)] []).

(** Account 2 may stake for account 1; account 3 does so through account 2. *)
Definition delegated : State config :=
  mkState ∅ {[1 := ([mkProxyDefinition 2 Staking 0], proxy_deposit 1);
              2 := ([mkProxyDefinition 3 Any 0], proxy_deposit 1)]}
    ∅ None ∅ ∅ [] start [].

Lemma proxied_calls_confined_witness : exists def calls,
  def ∈ (proxies_of delegated 1).1 /\ delegate def = 2 /\ policy_contains (chain delegated) 1 2 = true /\
  (delay def = 0 /\ forced (Some Staking) def) /\
  executed (run (Proxy_proxy 1 (Some Staking) (Utility_batch_all [stake; stake])) 2 delegated).2 =
    calls ++ (Signed 2, Proxy_proxy 1 (Some Staking) (Utility_batch_all [stake; stake])) :: executed delegated /\
  (proxy_type def <> Any -> Forall (fun e => e.1 <> Root /\
     proxy_guard (proxy_type def) e.2 = true /\ contains EscapingCalls e.2 = false) calls).
Proof.
  refine (proxied_calls_confined (origin_from (Signed 2)) 2 1 (Utility_batch_all [stake; stake])
    (Proxy_proxy 1 (Some Staking) (Utility_batch_all [stake; stake])) delegated _ _ (ok_run (run _ 2 delegated) _)).
  - left. exists (Some Staking). split; reflexivity.
  - vm_compute. reflexivity.
Defined.

(** Account 4 tries to act for the disputed account 5. *)
Definition frozen_state : State config :=
  mkState ∅ {[5 := ([mkProxyDefinition 4 Any 0], proxy_deposit 1)]} ∅ None ∅ ∅ [] start [].

Definition attempts : RuntimeCall := Utility_force_batch [Proxy_proxy 5 None stake; stake].


(** Two of three signatories. *)
Definition trio : list AccountId := [1; 2; 3].
Definition trio_account : AccountId := multi_account_id trio 2.
Definition voted_1 : State config :=
  (dispatch (Multisig_approve_as_multi false 2 [2; 3] None (blake2_call stake) (9, 9))
    (origin_from (Signed 1)) (genesis start)).2.
Definition voted_2 : State config :=
  (dispatch (Multisig_as_multi false 2 [1; 2] (Some (mkTimepoint 7 1)) stake (9, 9))
    (origin_from (Signed 3)) voted_1).2.

Lemma multisig_needs_votes_witness :
  authorised voted_2 (mkTimepoint 7 1) trio_account (blake2_call stake).
Proof.
  apply (proj1 (multisig_needs_votes voted_2
    (ex_intro _ start (rtc_l _ _ _ _ (step_extrinsic _ (Signed 1) _)
      (rtc_l _ _ _ _ (step_extrinsic _ (Signed 3) _) (rtc_refl _ _)))))
    3 (mkTimepoint 7 1) trio_account (blake2_call stake) (Ok tt)).
  apply list_elem_of_In. vm_compute. left. reflexivity.
Defined.

Lemma quorum_executes_witness : exists s1 s2 r,
  Multisigs s1 !! (trio_account, blake2_call stake) = None /\
  chain s1 = (unreserve 2 (multisig_deposit 2)
    (default start (match reserve 2 (multisig_deposit 2) start with Ok c => Some c | Err _ => None end))).2 /\
  dispatch stake (origin_from (Signed trio_account)) s1 = (r, s2) /\
  cast (vote trio 2 false stake (9, 9) None 2 ::
    (vote trio 2 false stake (9, 9) (Some (mkTimepoint 7 1)) <$> []) ++
    [final_vote trio 2 false stake (9, 9) (mkTimepoint 7 1) 1]) (genesis start) =
    Some (set_events (cons (MultisigExecuted 1 (mkTimepoint 7 1) trio_account (blake2_call stake) r)) s2).
Proof.
  refine (quorum_executes trio 2 false trio_account stake (9, 9) _ _ _ _ _ _ 2 [] 1 (genesis start) _ _ _ _ _ _).
  all: try reflexivity; try done.
  - by repeat constructor.
  - apply (bool_decide_eq_true_1 (NoDup [2; 1])). reflexivity.
  - intros x. rewrite !list_elem_of_In. cbn. tauto.
Defined.

(** Account 1 grants and revokes, account 2 announces. *)
Definition granted : State config :=
  (dispatch (Proxy_add_proxy 2 Staking 3) (origin_from (Signed 1)) (genesis start)).2.
Definition announced : State config :=
  (dispatch (Proxy_announce 1 (blake2_call stake)) (origin_from (Signed 2)) granted).2.

Lemma announced_reachable : reachable announced.
Proof.
  exists start. eapply rtc_l; [apply (step_extrinsic (Proxy_add_proxy 2 Staking 3) (Signed 1))|].
  eapply rtc_l; [apply (step_extrinsic (Proxy_announce 1 (blake2_call stake)) (Signed 2))|]. apply rtc_refl.
Qed.


(** Three blocks later the announced call runs; before that it is refused. *)
Definition later : State config := set_chain (mkLedger (free (chain announced)) (held (chain announced)) 10
  (disputes (chain announced))) announced.

Lemma granted_delegation :
  find_proxy 1 2 None announced = (Ok (mkProxyDefinition 2 Staking 3), announced).
Proof.
  rewrite (surjective_pairing (find_proxy 1 2 None announced)). by f_equal.
Qed.

Lemma announced_calls_matured_witness :
  dispatch_bypass_filter (Proxy_proxy_announced 2 1 None stake) (origin_from (Signed 4)) announced =
    (Err (ProxyError Proxy.Unannounced), announced) /\
  exists def pending dep s1,
    def ∈ (proxies_of later 1).1 /\ delegate def = 2 /\ forced None def /\
    Announcements later !! 2 = Some (pending, dep) /\
    (exists ann, ann ∈ pending /\ matured later def 1 stake ann) /\
    (forall ann, ann ∈ (announcements_of s1 2).1 <-> ann ∈ pending /\ ~ matured later def 1 stake ann) /\
    do_proxy def 1 (stake, dispatch_bypass_filter stake) (origin_from (Signed 4)) s1 =
      (Ok tt, (run (Proxy_proxy_announced 2 1 None stake) 4 later).2).
Proof.
  split.
  - apply (proj2 (announced_calls_matured (origin_from (Signed 4)) 2 1 None stake announced) 4
      (mkProxyDefinition 2 Staking 3) eq_refl granted_delegation).
    intros ann Ha (_ & _ & _ & Hd). vm_compute in Ha. apply list_elem_of_In in Ha as [<-|[]].
    vm_compute in Hd. by apply Hd.
  - apply (proj1 (announced_calls_matured (origin_from (Signed 4)) 2 1 None stake later)).
    apply ok_run. vm_compute. reflexivity.
Defined.

(** A batch whose second call is refused. *)
Definition mixed : list RuntimeCall := [stake; Proxy_proxy 4 None stake; stake].

Lemma batches_witness :
  (exists done rest s1, mixed = done ++ rest /\
     completes (origin_from (Signed 2)) false done
       (set_executed (cons (Signed 2, Utility_batch mixed)) delegated) s1 /\
     (rest = [] /\ run (Utility_batch mixed) 2 delegated = (Ok tt, set_events (cons BatchCompleted) s1) \/
      exists c rest' e, rest = c :: rest' /\ run_item (origin_from (Signed 2)) false c s1 = (Err e, s1) /\
        run (Utility_batch mixed) 2 delegated =
        (Ok tt, set_events (cons (BatchInterrupted (Z.of_nat (length done)) e)) s1))).
Proof.
  refine (proj1 (batches (origin_from (Signed 2)) mixed delegated _ _)); [discriminate | by vm_compute].
Defined.

(** Account 1, with 50,000,000 reserved elsewhere, loses 33,000,000 of them. *)
Definition the_pure : AccountId := pure_account 1 Any 0 (7, 1).
Definition pure_0 : State config :=
  genesis (mkLedger (<[the_pure := rich]> (free start)) (held start) 7 ∅).
Definition pure_1 : State config := (run (Proxy_create_pure Any 0 0) 1 pure_0).2.
Definition pure_2 : State config := (run (Proxy_add_proxy 2 Staking 0) the_pure pure_1).2.
Definition pure_3 : State config := (run (Proxy_kill_pure 1 Any 0 7 1) the_pure pure_2).2.

Lemma pure_deposit_misdirected_witness :
  Proxies pure_3 !! the_pure = None /\
  held_of (chain pure_3) the_pure = held_of (chain pure_0) the_pure + ProxyDepositFactor /\
  held_of (chain pure_3) 1 =
    held_of (chain pure_0) 1 - Z.min ProxyDepositFactor (held_of (chain pure_0) 1).
Proof.
  refine (pure_deposit_misdirected held_of 1 2 Any 0 0 Staking 0 7 1 pure_0 pure_1 pure_2 pure_3 _ _ _ _
    (ok_run (run _ 1 pure_0) _) (ok_run (run _ the_pure pure_1) _) (ok_run (run _ the_pure pure_2) _)).
  all: vm_compute; first [reflexivity | discriminate].
Defined.
End Example.
