(* ===== verification/Schedule.v ===== *)
(** * The schedule of epochs

    Models src/pallets/subtensor/src/coinbase/tempo_control.rs, the scheduler in
    coinbase/run_coinbase.rs ([drain_pending], which decides each block whose
    epoch runs, and the functions it calls), the epoch a commit belongs to
    (subnets/weights.rs) and the window in which a subnet cannot be changed
    (utils/misc.rs).

    The storage maps that a subnet has for the scheduler are the record [Slot],
    those for its pending emission the record [Pending].  The rest of the chain is
    an abstract world; what the scheduler reads of it, and the change of a
    subnet's owner that a running epoch starts, are the class [Chain].
    ScheduleSafety.v has the theorems. *)

From Stdlib Require Import ZArith Lia.
From stdpp Require Import base gmap list fin_maps functions.
From S2P Require Import Prelude Neurons.

Definition MIN_TEMPO : Z := 360.
Definition MAX_TEMPO : Z := 50400.
Definition MIN_ACTIVITY_CUTOFF_FACTOR_MILLI : Z := 1000.
Definition MAX_ACTIVITY_CUTOFF_FACTOR_MILLI : Z := 50000.

Inductive Error : Type :=
| BadOrigin | SubnetNotExists | TempoOutOfBounds | AdminActionProhibitedDuringWeightsWindow
| TxRateLimitExceeded | ActivityCutoffFactorMilliOutOfBounds | DynamicTempoBlockedByCommitReveal
| EpochTriggerAlreadyPending | AutoEpochAlreadyImminent.

(** The hyperparameters whose changes the calls below limit. *)
Inductive Hyperparameter : Type := ActivityCutoffFactor | TriggerEpoch.
#[export] Instance Hyperparameter_eq_dec : EqDecision Hyperparameter.
Proof. solve_decision. Defined.

Inductive TransactionType : Type :=
| TempoUpdate
| OwnerHyperparamUpdate (h : Hyperparameter).

(** What the scheduler stores of one subnet: the period of its epochs, the blocks
    since one ran (counted up to [Tempo + 1]), the block of its last slot, the
    block of a triggered or deferred epoch (0 for none) and the epoch counter. *)
Record Slot : Type := mkSlot {
  Tempo : Z;
  BlocksSinceLastStep : Z;
  LastEpochBlock : Z;
  PendingEpochAt : Z;
  SubnetEpochIndex : Z;
}.

(** The alpha waiting for the next epoch of a subnet. *)
Record Pending : Type := mkPending {
  PendingServerEmission : Z;
  PendingValidatorEmission : Z;
  PendingRootAlphaDivs : Z;
  PendingOwnerCut : Z;
}.
Definition drained : Pending := mkPending 0 0 0 0.

Inductive Event (AccountId : Type) : Type :=
| TempoSet (netuid tempo : Z)
| EpochDeferred (netuid from_block to_block : Z)
| EpochSkipped (netuid block : Z)
| EpochTriggered (netuid : Z) (by_ : AccountId) (fires_at : Z)
| ActivityCutoffFactorMilliSet (netuid factor_milli : Z).
Arguments TempoSet {AccountId} netuid tempo.
Arguments EpochDeferred {AccountId} netuid from_block to_block.
Arguments EpochSkipped {AccountId} netuid block.
Arguments EpochTriggered {AccountId} netuid by_ fires_at.
Arguments ActivityCutoffFactorMilliSet {AccountId} netuid factor_milli.

(** The rest of the chain. *)
Class Chain (AccountId World : Type) : Type := {
  if_subnet_exist : World -> Z -> bool;
  SubnetOwner : World -> Z -> AccountId;
  get_epoch_consensus : World -> Z -> EpochConsensus;
  get_commit_reveal_weights_enabled : World -> Z -> bool;
  OwnerHyperparamRateLimit : World -> Z;
  (** The entries of [Keys] of a subnet in the order of storage. *)
  Keys_iter_prefix : World -> Z -> list AccountId;
  change_subnet_owner_if_needed : Z -> World -> World;
}.

Inductive Origin (AccountId : Type) : Type := Root | Signed (who : AccountId) | NoneOrigin.
Arguments Root {AccountId}.
Arguments Signed {AccountId} who.
Arguments NoneOrigin {AccountId}.

(** ** Reading the schedule of one subnet *)

Definition should_run_epoch_with_tempo (sl : Slot) (current_block tempo : Z) : bool :=
  if tempo =? 0 then false
  else if (0 <? PendingEpochAt sl) && (PendingEpochAt sl <=? current_block) then true
  else if tempo <? BlocksSinceLastStep sl then true
  else tempo <=? saturating_sub current_block (LastEpochBlock sl).

Definition should_run_epoch (sl : Slot) (current_block : Z) : bool :=
  should_run_epoch_with_tempo sl current_block (Tempo sl).

Definition blocks_until_next_auto_epoch (sl : Slot) (tempo block_number : Z) : Z :=
  if tempo =? 0 then u64_max
  else saturating_sub (saturating_add u64_max (LastEpochBlock sl) tempo) block_number.

Definition get_next_epoch_start_block (sl : Slot) : option Z :=
  if Tempo sl =? 0 then None
  else
    let auto_next := saturating_add u64_max (LastEpochBlock sl) (Tempo sl) in
    if 0 <? PendingEpochAt sl then Some (Z.min auto_next (PendingEpochAt sl)) else Some auto_next.

(** The epoch that a commit or a reveal in the current block belongs to. *)
Definition epoch_with_lookahead (sl : Slot) (block : Z) : Z :=
  if should_run_epoch sl block then saturating_add u64_max (SubnetEpochIndex sl) 1
  else SubnetEpochIndex sl.

(** ** Steps of one slot *)

(** The age of a slot grows by a block, up to [tempo + 1]. *)
Definition age (sl : Slot) : Slot :=
  mkSlot (Tempo sl)
    (Z.min (saturating_add u64_max (BlocksSinceLastStep sl) 1) (saturating_add u64_max (Tempo sl) 1))
    (LastEpochBlock sl) (PendingEpochAt sl) (SubnetEpochIndex sl).

Definition defer (next_block : Z) (sl : Slot) : Slot :=
  mkSlot (Tempo sl) (BlocksSinceLastStep sl) (LastEpochBlock sl) next_block (SubnetEpochIndex sl).

Definition reset_age (sl : Slot) : Slot :=
  mkSlot (Tempo sl) 0 (LastEpochBlock sl) (PendingEpochAt sl) (SubnetEpochIndex sl).

(** The slot is used up, whether or not the epoch could run. *)
Definition advance (current_block : Z) (sl : Slot) : Slot :=
  mkSlot (Tempo sl) (BlocksSinceLastStep sl) current_block 0
    (saturating_add u64_max (SubnetEpochIndex sl) 1).

Section schedule.
Context {AccountId : Type} `{Countable AccountId} {World : Type} `{!Chain AccountId World}.

Record State : Type := mkState {
  slot : Z -> Slot;
  pending : Z -> Pending;
  get_current_block_as_u64 : Z;
  AdminFreezeWindow : Z;
  MaxEpochsPerBlock : Z;
  ActivityCutoffFactorMilli : Z -> Z;
  (** [TransactionKeyLastBlock] for [TempoUpdate], and the last blocks of the
      hyperparameters, which are kept per subnet. *)
  last_tempo_update : AccountId -> Z -> Z;
  last_hyperparam_update : Z -> Hyperparameter -> Z;
  Events : list (Event AccountId);
  world : World;
}.

Abbreviation Call := (M State Error).

Definition set_slot (netuid : Z) (sl : Slot) (s : State) : State :=
  mkState (<[netuid := sl]> (slot s)) (pending s) (get_current_block_as_u64 s) (AdminFreezeWindow s)
    (MaxEpochsPerBlock s) (ActivityCutoffFactorMilli s) (last_tempo_update s)
    (last_hyperparam_update s) (Events s) (world s).
Definition set_pending (netuid : Z) (p : Pending) (s : State) : State :=
  mkState (slot s) (<[netuid := p]> (pending s)) (get_current_block_as_u64 s) (AdminFreezeWindow s)
    (MaxEpochsPerBlock s) (ActivityCutoffFactorMilli s) (last_tempo_update s)
    (last_hyperparam_update s) (Events s) (world s).
Definition deposit_event (e : Event AccountId) (s : State) : State :=
  mkState (slot s) (pending s) (get_current_block_as_u64 s) (AdminFreezeWindow s)
    (MaxEpochsPerBlock s) (ActivityCutoffFactorMilli s) (last_tempo_update s)
    (last_hyperparam_update s) (Events s ++ [e]) (world s).
Definition set_world (w : World) (s : State) : State :=
  mkState (slot s) (pending s) (get_current_block_as_u64 s) (AdminFreezeWindow s)
    (MaxEpochsPerBlock s) (ActivityCutoffFactorMilli s) (last_tempo_update s)
    (last_hyperparam_update s) (Events s) w.
Definition set_factor (netuid factor_milli : Z) (s : State) : State :=
  mkState (slot s) (pending s) (get_current_block_as_u64 s) (AdminFreezeWindow s)
    (MaxEpochsPerBlock s) (<[netuid := factor_milli]> (ActivityCutoffFactorMilli s))
    (last_tempo_update s) (last_hyperparam_update s) (Events s) (world s).

(** The next block begins. *)
Definition next_block (s : State) : State :=
  mkState (slot s) (pending s) (get_current_block_as_u64 s + 1) (AdminFreezeWindow s)
    (MaxEpochsPerBlock s) (ActivityCutoffFactorMilli s) (last_tempo_update s)
    (last_hyperparam_update s) (Events s) (world s).

Definition current_epoch_with_lookahead (s : State) (netuid : Z) : Z :=
  epoch_with_lookahead (slot s netuid) (get_current_block_as_u64 s).

(** ** Which epochs run in a block *)

Fixpoint distinct (seen : gset AccountId) (hotkeys : list AccountId) : bool :=
  match hotkeys with
  | [] => true
  | hotkey :: hotkeys =>
      if bool_decide (hotkey ∈ seen) then false else distinct ({[hotkey]} ∪ seen) hotkeys
  end.

Definition is_epoch_input_state_consistent (w : World) (netuid : Z) : bool :=
  distinct ∅ (Keys_iter_prefix w netuid).

Definition due_null (s : State) (current_block : Z) (netuid : Z) : bool :=
  negb (netuid =? 0) && bool_decide (get_epoch_consensus (world s) netuid = Null) &&
  should_run_epoch (slot s netuid) current_block.

(** The number of epochs that may run, and the order in which subnets take the
    slots: a subnet in [Null] mode that is due comes first and takes the only one. *)
Definition epoch_schedule_for_block (s : State) (subnets : list Z) (current_block : Z) : Z * list Z :=
  let configured := MaxEpochsPerBlock s in
  match List.find (due_null s current_block) subnets with
  | Some netuid => (Z.min configured 1, netuid :: filter (fun n => n <> netuid) subnets)
  | None => (configured, subnets)
  end.

(** The body of the loop of [epochs_deferred_this_block]. *)
Definition defer_one (s : State) (cap current_block : Z) (acc : gset Z * Z) (netuid : Z) : gset Z * Z :=
  let '(deferred, epochs_run) := acc in
  if negb (should_run_epoch (slot s netuid) current_block) then (deferred, epochs_run)
  else if cap <=? epochs_run then ({[netuid]} ∪ deferred, epochs_run)
  else if is_epoch_input_state_consistent (world s) netuid
       then (deferred, saturating_add u32_max epochs_run 1)
       else (deferred, epochs_run).

Definition epochs_deferred_this_block (s : State) (subnets : list Z) (current_block : Z) : gset Z :=
  let '(cap, slot_order) := epoch_schedule_for_block s subnets current_block in
  (foldl (defer_one s cap current_block) (∅, 0) slot_order).1.

(** The body of the loop of [drain_pending]: the emissions to distribute, the
    number of epochs run so far, and the state. *)
Definition drain_one (cap current_block : Z) (acc : gmap Z Pending * Z * State) (netuid : Z)
    : gmap Z Pending * Z * State :=
  let '(emissions, epochs_run, s) := acc in
  let tempo := Tempo (slot s netuid) in
  let s := set_slot netuid (age (slot s netuid)) s in
  if negb (should_run_epoch_with_tempo (slot s netuid) current_block tempo) then (emissions, epochs_run, s)
  else if cap <=? epochs_run then
    let next := saturating_add u64_max current_block 1 in
    (emissions, epochs_run,
     deposit_event (EpochDeferred netuid current_block next)
       (set_slot netuid (defer next (slot s netuid)) s))
  else if is_epoch_input_state_consistent (world s) netuid then
    let s := set_slot netuid (reset_age (slot s netuid)) s in
    let emission := pending s netuid in
    let s := set_pending netuid drained s in
    let s := set_world (change_subnet_owner_if_needed netuid (world s)) s in
    (<[netuid := emission]> emissions, saturating_add u32_max epochs_run 1,
     set_slot netuid (advance current_block (slot s netuid)) s)
  else
    let s := deposit_event (EpochSkipped netuid current_block) s in
    (emissions, epochs_run, set_slot netuid (advance current_block (slot s netuid)) s).

Definition drain_pending (subnets : list Z) (current_block : Z) (s : State) : gmap Z Pending * State :=
  let '(cap, slot_order) := epoch_schedule_for_block s subnets current_block in
  let '(emissions, _, s') := foldl (drain_one cap current_block) (∅, 0, s) slot_order in
  (emissions, s').

(** ** The window without changes *)

Definition is_in_admin_freeze_window (s : State) (netuid current_block : Z) : bool :=
  let sl := slot s netuid in
  let tempo := Tempo sl in
  if tempo =? 0 then false
  else if (0 <? PendingEpochAt sl) && (current_block <? PendingEpochAt sl) then true
  else blocks_until_next_auto_epoch sl tempo current_block <? AdminFreezeWindow s.

Definition ensure_admin_window_open (netuid : Z) : Call unit :=
  s ← gets id;
  ensure (negb (is_in_admin_freeze_window s netuid (get_current_block_as_u64 s)))
    AdminActionProhibitedDuringWeightsWindow.

Definition ensure_subnet_owner_or_root (o : Origin AccountId) (netuid : Z) : Call (option AccountId) :=
  s ← gets id;
  match o with
  | Signed who =>
      if bool_decide (SubnetOwner (world s) netuid = who) then mret (Some who) else fail BadOrigin
  | Root => mret None
  | NoneOrigin => fail BadOrigin
  end.

Definition ensure_subnet_owner (o : Origin AccountId) (netuid : Z) : Call AccountId :=
  s ← gets id;
  match o with
  | Signed who =>
      if bool_decide (SubnetOwner (world s) netuid = who) then mret who else fail BadOrigin
  | _ => fail BadOrigin
  end.

(** ** Rate limits *)

Definition rate_limit_on_subnet (tx : TransactionType) (s : State) (netuid : Z) : Z :=
  match tx with
  | TempoUpdate => MIN_TEMPO
  | OwnerHyperparamUpdate _ =>
      saturating_mul u64_max (Tempo (slot s netuid)) (OwnerHyperparamRateLimit (world s))
  end.

Definition last_block_on_subnet (tx : TransactionType) (s : State) (key : AccountId) (netuid : Z) : Z :=
  match tx with
  | TempoUpdate => last_tempo_update s key netuid
  | OwnerHyperparamUpdate h => last_hyperparam_update s netuid h
  end.

Definition check_passes_rate_limit (limit block last_block : Z) : bool :=
  (last_block =? 0) || (limit <=? saturating_sub block last_block).

Definition passes_rate_limit_on_subnet (tx : TransactionType) (s : State) (key : AccountId) (netuid : Z)
    : bool :=
  check_passes_rate_limit (rate_limit_on_subnet tx s netuid) (get_current_block_as_u64 s)
    (last_block_on_subnet tx s key netuid).

Definition set_last_block_on_subnet (tx : TransactionType) (key : AccountId) (netuid block : Z)
    (s : State) : State :=
  mkState (slot s) (pending s) (get_current_block_as_u64 s) (AdminFreezeWindow s) (MaxEpochsPerBlock s)
    (ActivityCutoffFactorMilli s)
    (match tx with
     | TempoUpdate => <[key := <[netuid := block]> (last_tempo_update s key)]> (last_tempo_update s)
     | _ => last_tempo_update s
     end)
    (match tx with
     | OwnerHyperparamUpdate h =>
         <[netuid := <[h := block]> (last_hyperparam_update s netuid)]> (last_hyperparam_update s)
     | _ => last_hyperparam_update s
     end)
    (Events s) (world s).

(** Recording the call of an owner; root has no limit. *)
Definition record_limit (tx : TransactionType) (maybe_who : option AccountId) (netuid : Z) : Call unit :=
  match maybe_who with
  | Some who =>
      now ← gets get_current_block_as_u64;
      modify (set_last_block_on_subnet tx who netuid now)
  | None => mret ()
  end.

Definition ensure_limit (tx : TransactionType) (maybe_who : option AccountId) (netuid : Z) : Call unit :=
  match maybe_who with
  | Some who =>
      s ← gets id;
      ensure (passes_rate_limit_on_subnet tx s who netuid) TxRateLimitExceeded
  | None => mret ()
  end.

(** ** The calls *)

Definition set_tempo_unchecked (netuid tempo : Z) (s : State) : State :=
  let sl := slot s netuid in
  deposit_event (TempoSet netuid tempo)
    (set_slot netuid (mkSlot tempo (BlocksSinceLastStep sl) (LastEpochBlock sl) (PendingEpochAt sl)
       (SubnetEpochIndex sl)) s).

Definition apply_tempo_with_cycle_reset (netuid tempo : Z) (s : State) : State :=
  let s := set_tempo_unchecked netuid tempo s in
  let sl := slot s netuid in
  set_slot netuid (mkSlot (Tempo sl) (BlocksSinceLastStep sl) (get_current_block_as_u64 s)
    (PendingEpochAt sl) (SubnetEpochIndex sl)) s.

Definition do_set_tempo (origin : Origin AccountId) (netuid tempo : Z) : Call unit :=
  maybe_who ← ensure_subnet_owner_or_root origin netuid;
  s ← gets id;
  ensure (if_subnet_exist (world s) netuid) SubnetNotExists;;
  ensure (match maybe_who with
          | Some _ => (MIN_TEMPO <=? tempo) && (tempo <=? MAX_TEMPO)
          | None => true
          end) TempoOutOfBounds;;
  ensure_admin_window_open netuid;;
  ensure_limit TempoUpdate maybe_who netuid;;
  modify (apply_tempo_with_cycle_reset netuid tempo);;
  record_limit TempoUpdate maybe_who netuid.

Definition do_set_activity_cutoff_factor (origin : Origin AccountId) (netuid factor_milli : Z) : Call unit :=
  maybe_who ← ensure_subnet_owner_or_root origin netuid;
  ensure ((MIN_ACTIVITY_CUTOFF_FACTOR_MILLI <=? factor_milli) &&
          (factor_milli <=? MAX_ACTIVITY_CUTOFF_FACTOR_MILLI)) ActivityCutoffFactorMilliOutOfBounds;;
  match maybe_who with Some _ => ensure_admin_window_open netuid | None => mret () end;;
  ensure_limit (OwnerHyperparamUpdate ActivityCutoffFactor) maybe_who netuid;;
  modify (fun s => deposit_event (ActivityCutoffFactorMilliSet netuid factor_milli)
                     (set_factor netuid factor_milli s));;
  record_limit (OwnerHyperparamUpdate ActivityCutoffFactor) maybe_who netuid.

Definition do_trigger_epoch (origin : Origin AccountId) (netuid : Z) : Call unit :=
  who ← ensure_subnet_owner origin netuid;
  s ← gets id;
  let sl := slot s netuid in
  let now := get_current_block_as_u64 s in
  let window := AdminFreezeWindow s in
  ensure (negb (get_commit_reveal_weights_enabled (world s) netuid)) DynamicTempoBlockedByCommitReveal;;
  ensure (PendingEpochAt sl =? 0) EpochTriggerAlreadyPending;;
  ensure (window <=? blocks_until_next_auto_epoch sl (Tempo sl) now) AutoEpochAlreadyImminent;;
  ensure (passes_rate_limit_on_subnet (OwnerHyperparamUpdate TriggerEpoch) s who netuid)
    TxRateLimitExceeded;;
  let fires_at := saturating_add u64_max now window in
  modify (set_slot netuid (defer fires_at sl));;
  modify (set_last_block_on_subnet (OwnerHyperparamUpdate TriggerEpoch) who netuid now);;
  modify (deposit_event (EpochTriggered netuid who fires_at)).
End schedule.
