(* ===== verification/ScheduleSafety.v ===== *)
(** * The schedule of epochs: theorems

    What one block does to every subnet, the limit on epochs per block, that the
    epoch of a commit never goes back, that no subnet is starved of its epoch, and
    where the schedule departs from its documentation. *)

From Stdlib Require Import ZArith Lia.
From stdpp Require Import base gmap list fin_maps functions.
From S2P Require Import Prelude Neurons Schedule.

(** ** One slot *)

(** The ranges of the stored integers. *)
Definition slot_wf (sl : Slot) : Prop :=
  0 <= Tempo sl <= u16_max /\ is_u64 (BlocksSinceLastStep sl) /\ is_u64 (LastEpochBlock sl) /\
  is_u64 (PendingEpochAt sl) /\ is_u64 (SubnetEpochIndex sl).

(** When an epoch is due. *)
Definition due (sl : Slot) (block : Z) : Prop :=
  Tempo sl <> 0 /\
  (0 < PendingEpochAt sl <= block \/ Tempo sl < BlocksSinceLastStep sl \/
   Tempo sl <= Z.max 0 (block - LastEpochBlock sl)).

Lemma should_run_epoch_spec sl block :
  BoolSpec (due sl block) (~ due sl block) (should_run_epoch sl block).
Proof.
  unfold should_run_epoch, should_run_epoch_with_tempo, due, saturating_sub.
  destruct (Z.eqb_spec (Tempo sl) 0); [constructor; lia|].
  destruct (Z.ltb_spec 0 (PendingEpochAt sl)), (Z.leb_spec (PendingEpochAt sl) block); simpl.
  all: try (constructor; lia).
  all: destruct (Z.ltb_spec (Tempo sl) (BlocksSinceLastStep sl)); [constructor; lia|].
  all: destruct (Z.leb_spec (Tempo sl) (Z.max 0 (block - LastEpochBlock sl))); constructor; lia.
Qed.

Lemma should_run_epoch_due sl block : should_run_epoch sl block = true <-> due sl block.
Proof. by destruct (should_run_epoch_spec sl block). Qed.

(** Arithmetic on slots: reflects the tests for due epochs. *)
Ltac slot_lia :=
  unfold epoch_with_lookahead in *;
  repeat match goal with
  | |- context [should_run_epoch ?sl ?b] => destruct (should_run_epoch_spec sl b)
  end;
  unfold slot_wf, due in *; simpl in *;
  unfold saturating_add, saturating_sub, is_u64, u64_max, u16_max, u32_max in *; lia.

(** What a block does with a subnet. *)
Inductive Fate : Type := NotDue | Deferred | Ran | Skipped.
#[export] Instance Fate_eq_dec : EqDecision Fate.
Proof. solve_decision. Defined.

Definition apply_fate (block : Z) (f : Fate) (sl : Slot) : Slot :=
  match f with
  | NotDue => age sl
  | Deferred => defer (saturating_add u64_max block 1) (age sl)
  | Ran => advance block (reset_age (age sl))
  | Skipped => advance block (age sl)
  end.

Lemma apply_fate_wf block f sl : is_u64 block -> slot_wf sl -> slot_wf (apply_fate block f sl).
Proof. intros Hb Hw. destruct f; slot_lia. Qed.

(** ** One block *)

Section schedule.
Context {AccountId : Type} `{Countable AccountId} {World : Type} `{!Chain AccountId World}.
Abbreviation State := (State (AccountId := AccountId) (World := World)).
Implicit Types (s : State) (n : Z) (w : World).

(** The change of an owner may register the new owner's hotkey, in its subnet only. *)
Class OwnerChangeIsLocal : Prop :=
  owner_change_elsewhere n m w :
    n <> m -> Keys_iter_prefix (change_subnet_owner_if_needed n w) m = Keys_iter_prefix w m.

(** The fate of a subnet when [epochs_run] epochs ran before it. *)
Definition fate (cap epochs_run block : Z) (consistent : bool) (sl : Slot) : Fate :=
  if negb (should_run_epoch (age sl) block) then NotDue
  else if cap <=? epochs_run then Deferred
  else if consistent then Ran else Skipped.

Definition counted (epochs_run : Z) (f : Fate) : Z :=
  match f with Ran => saturating_add u32_max epochs_run 1 | _ => epochs_run end.

Lemma drain_one_spec cap block em run s n :
  let f := fate cap run block (is_epoch_input_state_consistent (world s) n) (slot s n) in
  exists s', drain_one cap block (em, run, s) n =
    (match f with Ran => <[n := pending s n]> em | _ => em end, counted run f, s') /\
  slot s' n = apply_fate block f (slot s n) /\ (forall m, m <> n -> slot s' m = slot s m) /\
  pending s' n = match f with Ran => drained | _ => pending s n end /\
  (forall m, m <> n -> pending s' m = pending s m) /\
  world s' = match f with Ran => change_subnet_owner_if_needed n (world s) | _ => world s end /\
  get_current_block_as_u64 s' = get_current_block_as_u64 s /\
  AdminFreezeWindow s' = AdminFreezeWindow s /\ MaxEpochsPerBlock s' = MaxEpochsPerBlock s.
Proof.
  simpl. unfold drain_one, fate, should_run_epoch. simpl. rewrite !fn_lookup_insert. simpl.
  destruct (should_run_epoch_with_tempo (age (slot s n)) block (Tempo (slot s n))); simpl.
  - destruct (cap <=? run); [|destruct (is_epoch_input_state_consistent (world s) n)].
    all: eexists; split; [reflexivity|]; simpl.
    all: repeat split; intros; rewrite ?fn_lookup_insert, ?fn_lookup_insert_ne by done; done.
  - eexists; split; [reflexivity|]; simpl.
    repeat split; intros; rewrite ?fn_lookup_insert, ?fn_lookup_insert_ne by done; done.
Qed.

#[local] Arguments drain_one : simpl never.
#[local] Arguments fate : simpl never.
#[local] Arguments counted : simpl never.

(** The fates of the subnets in the order in which they take their slots. *)
Fixpoint fates (cap epochs_run block : Z) (consistent : Z -> bool) (sl : Z -> Slot) (order : list Z)
    : list (Z * Fate) :=
  match order with
  | [] => []
  | n :: order =>
      let f := fate cap epochs_run block (consistent n) (sl n) in
      (n, f) :: fates cap (counted epochs_run f) block consistent sl order
  end.

Lemma fates_keys cap run block c sl order : (fates cap run block c sl order).*1 = order.
Proof. revert run. induction order as [|n order IH]; intros run; [done|]. csimpl. by rewrite IH. Qed.

Lemma fates_ext cap run block c sl sl' order :
  (forall n, n ∈ order -> sl n = sl' n) ->
  fates cap run block c sl order = fates cap run block c sl' order.
Proof.
  revert run. induction order as [|n order IH]; intros run Hsl; [done|]. simpl.
  rewrite (Hsl n) by left. f_equal. apply IH. intros m Hm. apply Hsl. by right.
Qed.

(** What a block leaves of the state [s], given the fates. *)
Record drained_to (block : Z) (fs : list (Z * Fate)) (em : gmap Z Pending) s
    (em' : gmap Z Pending) s' : Prop := {
  drained_slot n f : (n, f) ∈ fs -> slot s' n = apply_fate block f (slot s n);
  drained_pending n f : (n, f) ∈ fs -> pending s' n = match f with Ran => drained | _ => pending s n end;
  drained_emission n f : (n, f) ∈ fs -> em' !! n = match f with Ran => Some (pending s n) | _ => em !! n end;
  drained_other n : n ∉ fs.*1 -> slot s' n = slot s n /\ pending s' n = pending s n /\ em' !! n = em !! n;
  drained_rest : get_current_block_as_u64 s' = get_current_block_as_u64 s /\
    AdminFreezeWindow s' = AdminFreezeWindow s /\ MaxEpochsPerBlock s' = MaxEpochsPerBlock s;
  drained_world (P : World -> Prop) :
    (forall n w, P w -> P (change_subnet_owner_if_needed n w)) -> P (world s) -> P (world s');
}.

Lemma drain_fold `{!OwnerChangeIsLocal} cap block c order em run s :
  NoDup order -> (forall n, n ∈ order -> is_epoch_input_state_consistent (world s) n = c n) ->
  let fs := fates cap run block c (slot s) order in
  exists em' s', foldl (drain_one cap block) (em, run, s) order = (em', foldl counted run fs.*2, s') /\
    drained_to block fs em s em' s'.
Proof.
  simpl. revert em run s. induction order as [|n order IH]; intros em run s Hnd Hc.
  { exists em, s. split; [done|]. split; try done; by intros ? ? ?%not_elem_of_nil. }
  apply list.NoDup_cons in Hnd as [Hn Hnd]. simpl.
  destruct (drain_one_spec cap block em run s n) as (s1 & -> & Hs & Hso & Hp & Hpo & Hw & Hr).
  rewrite (Hc n) in * by left. set (f := fate cap run block (c n) (slot s n)) in *.
  destruct (IH (match f with Ran => <[n := pending s n]> em | _ => em end) (counted run f) s1)
    as (em' & s' & Hf & [Hsl Hpe Hem Hot Hre HP]); [done| |].
  { intros m Hm. rewrite <- (Hc m) by by right. unfold is_epoch_input_state_consistent.
    rewrite Hw. destruct f; try done. rewrite owner_change_elsewhere; [done|congruence]. }
  rewrite (fates_ext _ _ _ _ (slot s1) (slot s)) in Hf, Hsl, Hpe, Hem, Hot.
  2-6: intros m Hm; apply Hso; congruence.
  exists em', s'. split; [exact Hf|]. rewrite fates_keys in Hot.
  assert (Hne : forall m g, (m, g) ∈ fates cap (counted run f) block c (slot s) order -> m <> n).
  { intros m g Hg ->. apply Hn. rewrite <- (fates_keys cap (counted run f) block c (slot s) order).
    by apply (list_elem_of_fmap_2 fst) in Hg. }
  destruct (Hot n Hn) as (Hn1 & Hn2 & Hn3).
  split.
  - intros m g [[= -> ->]|Hg]%elem_of_cons; [congruence|]. rewrite (Hsl m g Hg), Hso; eauto.
  - intros m g [[= -> ->]|Hg]%elem_of_cons; [congruence|]. rewrite (Hpe m g Hg), Hpo; eauto.
  - intros m g [[= -> ->]|Hg]%elem_of_cons.
    + rewrite Hn3. destruct f; try done. by rewrite lookup_insert_eq.
    + rewrite (Hem m g Hg), Hpo by eauto. destruct g; try done; destruct f; try done.
      all: by rewrite lookup_insert_ne by (apply not_eq_sym; eauto).
  - simpl. intros m [Hm1 Hm2]%not_elem_of_cons. rewrite fates_keys in Hm2.
    destruct (Hot m Hm2) as (-> & -> & ->). rewrite Hso, Hpo by done.
    repeat split; try done. destruct f; try done. by rewrite lookup_insert_ne.
  - destruct Hre as (-> & -> & ->). done.
  - intros P Hch Hs0. apply HP; [done|]. rewrite Hw. destruct f; auto.
Qed.

(** ** The limit on epochs *)

Definition ran (fs : list (Z * Fate)) : list Z := (filter (fun p => p.2 = Ran) fs).*1.

Lemma counted_ran cap run block c sl order :
  run <= Z.max 0 cap -> 0 <= run -> cap <= u32_max ->
  let fs := fates cap run block c sl order in
  foldl counted run fs.*2 = run + Z.of_nat (length (ran fs)) /\
  run + Z.of_nat (length (ran fs)) <= Z.max 0 cap /\
  (forall n, (n, Deferred) ∈ fs -> cap <= run + Z.of_nat (length (ran fs))).
Proof.
  simpl. revert run. induction order as [|n order IH]; intros run Hr H0 Hc.
  { simpl. repeat split; [lia..|]. by intros ? ?%not_elem_of_nil. }
  csimpl. set (f := fate cap run block (c n) (sl n)) in *.
  assert (Hf : (f = Ran -> run < cap) /\ (f = Deferred -> cap <= run)).
  { unfold f, fate. repeat case_match; bool_to_prop; split; intros; try done; lia. }
  destruct Hf as [Hran Hdef].
  assert (Hcount : counted run f = run + (if decide (f = Ran) then 1 else 0)).
  { unfold counted, saturating_add. destruct f; simpl; try lia. specialize (Hran eq_refl). lia. }
  assert (Hlen : Z.of_nat (length (ran ((n, f) :: fates cap (counted run f) block c sl order)))
    = (if decide (f = Ran) then 1 else 0) + Z.of_nat (length (ran (fates cap (counted run f) block c sl order)))).
  { unfold ran. rewrite filter_cons. simpl. destruct (decide (f = Ran)); csimpl; lia. }
  destruct (IH (counted run f)) as (IH1 & IH2 & IH3).
  1-3: rewrite ?Hcount; destruct (decide (f = Ran)); [specialize (Hran e)|..]; lia.
  rewrite Hlen, IH1. rewrite Hcount in *. repeat split; [lia..|].
  intros m [[= -> Hm]|Hm]%elem_of_cons.
  - specialize (Hdef (eq_sym Hm)). destruct (decide (f = Ran)); [congruence|]. lia.
  - specialize (IH3 m Hm). lia.
Qed.

(** The emissions of a block are those of the subnets that ran. *)
Lemma size_emissions block fs s em s' :
  NoDup fs.*1 -> drained_to block fs ∅ s em s' -> Z.of_nat (size em) = Z.of_nat (length (ran fs)).
Proof.
  intros Hnd Hd. f_equal. rewrite <- (size_dom (D := gset Z)).
  assert (NoDup (ran fs)) as Hr.
  { unfold ran. clear Hd. induction fs as [|[n f] fs IH]; [constructor|]. csimpl in Hnd.
    apply list.NoDup_cons in Hnd as [Hn Hnd]. rewrite filter_cons. destruct (decide _); [|by apply IH].
    csimpl. apply list.NoDup_cons. split; [|by apply IH]. intros ((? & ?) & -> & Hp)%list_elem_of_fmap.
    apply list_elem_of_filter in Hp as [_ Hp]. apply Hn. apply list_elem_of_fmap. eauto. }
  rewrite <- (size_list_to_set (C := gset Z) (ran fs)) by done. f_equal. apply set_eq. intros n.
  rewrite elem_of_list_to_set, elem_of_dom. unfold ran. split.
  - intros [p Hp]. destruct (decide (n ∈ fs.*1)) as [Hin|Hin].
    + apply list_elem_of_fmap in Hin as ((n' & f) & -> & Hf). simpl in *. apply list_elem_of_fmap.
      exists (n', f). split; [done|]. apply list_elem_of_filter. split; [|done].
      rewrite (drained_emission _ _ _ _ _ _ Hd _ _ Hf) in Hp. by destruct f.
    + destruct (drained_other _ _ _ _ _ _ Hd n Hin) as (_ & _ & He). by rewrite He in Hp.
  - intros ((n' & f) & -> & Hf)%list_elem_of_fmap. apply list_elem_of_filter in Hf as [Hran Hf].
    simpl in *. subst f. by rewrite (drained_emission _ _ _ _ _ _ Hd _ _ Hf).
Qed.

Lemma slot_order_spec s subnets block :
  NoDup subnets -> let order := (epoch_schedule_for_block s subnets block).2 in
  NoDup order /\ (forall n, n ∈ order <-> n ∈ subnets).
Proof.
  intros Hnd. unfold epoch_schedule_for_block. destruct (List.find _ subnets) as [m|] eqn:Hf; simpl; [|done].
  apply find_some in Hf as [Hm _]. apply list_elem_of_In in Hm. split.
  - apply list.NoDup_cons. split; [|by apply list.NoDup_filter]. by intros [? _]%list_elem_of_filter.
  - intros n. rewrite elem_of_cons, list_elem_of_filter. destruct (decide (n = m)) as [->|]; [tauto|].
    split; [intros [?|[_ ?]]|]; try done. by right.
Qed.

Lemma fates_in cap run block c sl order n f :
  NoDup order -> (n, f) ∈ fates cap run block c sl order ->
  exists run', f = fate cap run' block (c n) (sl n).
Proof.
  revert run. induction order as [|m order IH]; intros run Hnd Hf; [by apply not_elem_of_nil in Hf|].
  apply list.NoDup_cons in Hnd as [_ Hnd]. apply elem_of_cons in Hf as [[= -> ->]|Hf]; eauto.
Qed.

Lemma fates_unique cap run block c sl order n f g :
  NoDup order -> (n, f) ∈ fates cap run block c sl order -> (n, g) ∈ fates cap run block c sl order ->
  f = g.
Proof.
  revert run. induction order as [|m order IH]; intros run Hnd Hf Hg; [by apply not_elem_of_nil in Hf|].
  apply list.NoDup_cons in Hnd as [Hm Hnd]. simpl in *.
  assert (Hno : forall h, (m, h) ∉ fates cap (counted run (fate cap run block (c m) (sl m))) block c sl order).
  { intros h Hh. apply Hm. rewrite <- (fates_keys cap (counted run (fate cap run block (c m) (sl m))) block c sl order).
    apply list_elem_of_fmap. by exists (m, h). }
  apply elem_of_cons in Hf as [Hf|Hf], Hg as [Hg|Hg]; simplify_eq; try done.
  - by destruct (Hno g).
  - by destruct (Hno f).
  - by eapply IH.
Qed.

Lemma drain_pending_spec `{!OwnerChangeIsLocal} subnets block s :
  NoDup subnets ->
  let '(cap, order) := epoch_schedule_for_block s subnets block in
  let fs := fates cap 0 block (is_epoch_input_state_consistent (world s)) (slot s) order in
  let '(em, s') := drain_pending subnets block s in
  drained_to block fs ∅ s em s' /\ NoDup fs.*1 /\ (forall n, n ∈ fs.*1 <-> n ∈ subnets).
Proof.
  intros Hnd. unfold drain_pending. pose proof (slot_order_spec s subnets block Hnd) as [Hno Hin].
  destruct (epoch_schedule_for_block s subnets block) as [cap order]. simpl in *.
  destruct (drain_fold cap block (is_epoch_input_state_consistent (world s)) order ∅ 0 s) as (em & s' & -> & Hd).
  { done. } { done. }
  rewrite fates_keys. done.
Qed.

(** The epochs a block runs, subnet by subnet.  A block runs at most
    [MaxEpochsPerBlock] epochs; a subnet that is not due only ages; one that is
    due runs and hands out exactly its pending emission, or is skipped with its
    emission kept, and its counter advances by one; or it is deferred to the next
    block, but then the limit was used up. *)
Theorem block_runs_limited_epochs `{!OwnerChangeIsLocal} (subnets : list Z) (block : Z) s :
  NoDup subnets -> 0 <= MaxEpochsPerBlock s <= 255 ->
  let cap := (epoch_schedule_for_block s subnets block).1 in
  let '(em, s') := drain_pending subnets block s in
  Z.of_nat (size em) <= cap <= MaxEpochsPerBlock s /\
  (forall n, n ∈ subnets ->
    let sl := age (slot s n) in
    if should_run_epoch sl block then
      (em !! n = Some (pending s n) /\ pending s' n = drained /\
         slot s' n = advance block (reset_age sl)) \/
      (em !! n = None /\ pending s' n = pending s n /\ slot s' n = advance block sl /\
         is_epoch_input_state_consistent (world s) n = false) \/
      (em !! n = None /\ pending s' n = pending s n /\
         slot s' n = defer (saturating_add u64_max block 1) sl /\ Z.of_nat (size em) = cap)
    else em !! n = None /\ pending s' n = pending s n /\ slot s' n = sl) /\
  (forall n, n ∉ subnets -> em !! n = None /\ pending s' n = pending s n /\ slot s' n = slot s n).
Proof.
  intros Hnd Hmax. pose proof (drain_pending_spec subnets block s Hnd) as Hspec.
  assert (Hcap : 0 <= (epoch_schedule_for_block s subnets block).1 <= MaxEpochsPerBlock s).
  { unfold epoch_schedule_for_block. destruct (List.find _ subnets); simpl; lia. }
  pose proof (slot_order_spec s subnets block Hnd) as [Hno _].
  destruct (epoch_schedule_for_block s subnets block) as [cap order]. simpl in *.
  destruct (drain_pending subnets block s) as [em s'].
  set (fs := fates _ _ _ _ _ _) in *. destruct Hspec as (Hd & Hfnd & Hin).
  destruct (counted_ran cap 0 block (is_epoch_input_state_consistent (world s)) (slot s) order)
    as (_ & Hle & Hdef); [lia|lia|unfold u32_max; lia|].
  pose proof (size_emissions block fs s em s' Hfnd Hd) as Hsz. fold fs in Hle, Hdef.
  split; [lia|]. split.
  - intros n Hn. apply Hin, list_elem_of_fmap in Hn as ((n' & f) & -> & Hf). simpl.
    rewrite (drained_slot _ _ _ _ _ _ Hd _ _ Hf), (drained_pending _ _ _ _ _ _ Hd _ _ Hf),
      (drained_emission _ _ _ _ _ _ Hd _ _ Hf).
    destruct (fates_in _ _ _ _ _ _ _ _ Hno Hf) as [run' Hfate]. unfold fate in Hfate.
    destruct (should_run_epoch (age (slot s n')) block); simpl in Hfate; [|by subst f].
    destruct (cap <=? run').
    + subst f. right; right. repeat split; try done. specialize (Hdef n' Hf). lia.
    + destruct (is_epoch_input_state_consistent (world s) n'); subst f; [by left|by right; left].
  - intros n Hn. destruct (drained_other _ _ _ _ _ _ Hd n) as (-> & -> & ->); [|done].
    by rewrite Hin.
Qed.

(** ** The epoch of a commit *)

(** A slot whose triggered epoch lies ahead. *)
Definition ahead (now : Z) (sl : Slot) : Prop :=
  1 <= Tempo sl /\ (PendingEpochAt sl = 0 \/ now < PendingEpochAt sl).

Lemma lookahead_fate block f sl cap run c :
  is_u64 (block + 1) -> slot_wf sl -> 0 < block -> ahead (block - 1) sl ->
  f = fate cap run block c sl ->
  epoch_with_lookahead sl (block - 1) <= epoch_with_lookahead (apply_fate block f sl) block /\
  ahead block (apply_fate block f sl).
Proof.
  intros Hb Hw H0 Ha ->. unfold fate, ahead in *.
  destruct (should_run_epoch_spec (age sl) block); simpl; [destruct (cap <=? run); [|destruct c]|].
  all: slot_lia.
Qed.

Lemma lookahead_tempo sl now window t :
  slot_wf sl -> is_u64 now -> ahead now sl -> 1 <= window ->
  BlocksSinceLastStep sl <= Tempo sl -> 1 <= t <= u16_max ->
  window <= blocks_until_next_auto_epoch sl (Tempo sl) now ->
  let sl' := mkSlot t (BlocksSinceLastStep sl) now (PendingEpochAt sl) (SubnetEpochIndex sl) in
  slot_wf sl' /\ ahead now sl' /\ epoch_with_lookahead sl now <= epoch_with_lookahead sl' now.
Proof.
  intros Hw Hn Ha Hwin Ho Ht. unfold blocks_until_next_auto_epoch, ahead in *.
  destruct (Z.eqb_spec (Tempo sl) 0); [lia|]. simpl. slot_lia.
Qed.

(** What happens to the subnet [n]: blocks in which it takes part, the calls
    below, and anything else that leaves its slot alone.  A tempo is not set to
    zero, and not changed while the epoch is overdue. *)
Inductive schedule_step (n : Z) : State -> State -> Prop :=
| step_block subnets s :
    NoDup subnets -> n ∈ subnets -> get_current_block_as_u64 s + 2 <= u64_max ->
    schedule_step n s (drain_pending subnets (get_current_block_as_u64 s + 1) (next_block s)).2
| step_set_tempo o m t s s' :
    do_set_tempo o m t s = (Ok tt, s') -> 1 <= t <= u16_max ->
    BlocksSinceLastStep (slot s m) <= Tempo (slot s m) -> schedule_step n s s'
| step_set_activity_cutoff_factor o m x s s' :
    do_set_activity_cutoff_factor o m x s = (Ok tt, s') -> schedule_step n s s'
| step_trigger_epoch o m s s' :
    do_trigger_epoch o m s = (Ok tt, s') -> schedule_step n s s'
| step_other s s' :
    slot s' n = slot s n -> get_current_block_as_u64 s' = get_current_block_as_u64 s ->
    1 <= AdminFreezeWindow s' -> schedule_step n s s'.

Definition scheduled (n : Z) s : Prop :=
  slot_wf (slot s n) /\ 0 <= get_current_block_as_u64 s < u64_max /\
  ahead (get_current_block_as_u64 s) (slot s n) /\ 1 <= AdminFreezeWindow s.

Lemma owner_or_root_ok o n s x s' : ensure_subnet_owner_or_root o n s = (Ok x, s') -> s' = s.
Proof.
  unfold ensure_subnet_owner_or_root. intros H1. minv. destruct o as [|who|]; minv; [done|].
  by destruct (bool_decide (SubnetOwner (world (id s)) n = who)); minv.
Qed.

Lemma owner_ok o n s x s' : ensure_subnet_owner o n s = (Ok x, s') -> s' = s.
Proof.
  unfold ensure_subnet_owner. intros H1. minv. destruct o as [|who|]; minv.
  by destruct (bool_decide (SubnetOwner (world (id s)) n = who)); minv.
Qed.

Lemma ensure_limit_ok tx who n s u s' : ensure_limit tx who n s = (Ok u, s') -> s' = s.
Proof. unfold ensure_limit. by destruct who; intros H1; minv. Qed.

Lemma record_limit_ok tx who n s u s' :
  record_limit tx who n s = (Ok u, s') ->
  slot s' = slot s /\ get_current_block_as_u64 s' = get_current_block_as_u64 s /\
  AdminFreezeWindow s' = AdminFreezeWindow s.
Proof. unfold record_limit. by destruct who; intros H1; minv. Qed.

Ltac guards :=
  repeat match goal with
  | H : ensure_subnet_owner_or_root _ _ _ = (Ok _, _) |- _ => apply owner_or_root_ok in H; subst
  | H : ensure_subnet_owner _ _ _ = (Ok _, _) |- _ => apply owner_ok in H; subst
  | H : ensure_limit _ _ _ _ = (Ok _, _) |- _ => apply ensure_limit_ok in H; subst
  | H : record_limit _ _ _ _ = (Ok _, _) |- _ => apply record_limit_ok in H as (-> & -> & ->)
  end.

Lemma do_set_tempo_ok o m t s s' :
  do_set_tempo o m t s = (Ok tt, s') ->
  is_in_admin_freeze_window s m (get_current_block_as_u64 s) = false /\
  slot s' m = mkSlot t (BlocksSinceLastStep (slot s m)) (get_current_block_as_u64 s)
    (PendingEpochAt (slot s m)) (SubnetEpochIndex (slot s m)) /\
  (forall n, n <> m -> slot s' n = slot s n) /\
  get_current_block_as_u64 s' = get_current_block_as_u64 s /\ AdminFreezeWindow s' = AdminFreezeWindow s.
Proof.
  unfold do_set_tempo, ensure_admin_window_open. intros H1. minv. guards. bool_to_prop. simpl.
  rewrite ?fn_lookup_insert. repeat split; try done. intros k Hk. by rewrite !fn_lookup_insert_ne by done.
Qed.

Lemma do_trigger_epoch_ok o m s s' :
  do_trigger_epoch o m s = (Ok tt, s') ->
  PendingEpochAt (slot s m) = 0 /\
  AdminFreezeWindow s <= blocks_until_next_auto_epoch (slot s m) (Tempo (slot s m)) (get_current_block_as_u64 s) /\
  slot s' m = defer (saturating_add u64_max (get_current_block_as_u64 s) (AdminFreezeWindow s)) (slot s m) /\
  (forall n, n <> m -> slot s' n = slot s n) /\
  get_current_block_as_u64 s' = get_current_block_as_u64 s /\ AdminFreezeWindow s' = AdminFreezeWindow s.
Proof.
  unfold do_trigger_epoch. intros H1. minv. guards. bool_to_prop. simpl.
  rewrite ?fn_lookup_insert. repeat split; try done. intros k Hk. by rewrite !fn_lookup_insert_ne by done.
Qed.

Lemma do_set_activity_cutoff_factor_ok o m x s s' :
  do_set_activity_cutoff_factor o m x s = (Ok tt, s') ->
  slot s' = slot s /\ get_current_block_as_u64 s' = get_current_block_as_u64 s /\
  AdminFreezeWindow s' = AdminFreezeWindow s.
Proof.
  unfold do_set_activity_cutoff_factor, ensure_admin_window_open. intros H1. minv. guards.
  by match goal with H : (match ?o with Some _ => _ | None => _ end) _ = _ |- _ => destruct o; minv end.
Qed.

Lemma schedule_step_epoch `{!OwnerChangeIsLocal} n s s' :
  schedule_step n s s' -> scheduled n s ->
  scheduled n s' /\ current_epoch_with_lookahead s n <= current_epoch_with_lookahead s' n.
Proof.
  unfold scheduled, current_epoch_with_lookahead.
  intros [subnets s0 Hnd Hn Hb|o m t s0 s1 Ht Ht0 Ho|o m x s0 s1 Hx%do_set_activity_cutoff_factor_ok
    |o m s0 s1 Htr%do_trigger_epoch_ok|s0 s1 Hs Hb Hwi] (Hw & Hnow & Ha & Hwin).
  - pose proof (drain_pending_spec subnets (get_current_block_as_u64 s0 + 1) (next_block s0) Hnd) as Hsp.
    pose proof (slot_order_spec (next_block s0) subnets (get_current_block_as_u64 s0 + 1) Hnd) as [Hno _].
    destruct (epoch_schedule_for_block _ _ _) as [cap order]. simpl in *.
    destruct (drain_pending _ _ _) as [em s1]. destruct Hsp as (Hd & _ & Hin). simpl.
    apply Hin, list_elem_of_fmap in Hn as ((n' & f) & -> & Hf). simpl in *.
    destruct (fates_in _ _ _ _ _ _ _ _ Hno Hf) as [run Hfate]. simpl in Hfate.
    rewrite (drained_slot _ _ _ _ _ _ Hd _ _ Hf). simpl.
    destruct (drained_rest _ _ _ _ _ _ Hd) as (-> & -> & _). simpl.
    unshelve epose proof (lookahead_fate (get_current_block_as_u64 s0 + 1) f (slot s0 n') cap run _ _ _ _ _ Hfate)
      as [Hle Hah]; rewrite ?Z.add_simpl_r in *; try done; unfold is_u64; try lia.
    split_and!; try done; try lia. apply apply_fate_wf; [unfold is_u64; lia|done].
  - apply do_set_tempo_ok in Ht as (Hfr & Hsl & Hot & -> & ->).
    destruct (decide (n = m)) as [<-|]; [|rewrite !Hot by done; done].
    rewrite Hsl. unfold is_in_admin_freeze_window in Hfr.
    destruct (Z.eqb_spec (Tempo (slot s0 n)) 0); [unfold ahead in Ha; lia|].
    case_match; [done|]. bool_to_prop.
    destruct (lookahead_tempo (slot s0 n) (get_current_block_as_u64 s0) (AdminFreezeWindow s0) t)
      as (? & ? & ?); [done|unfold is_u64; lia|done..|]. auto.
  - destruct Hx as (-> & -> & ->). done.
  - destruct Htr as (Hp & _ & Hsl & Hot & -> & ->).
    destruct (decide (n = m)) as [<-|]; [|rewrite !Hot by done; done].
    rewrite Hsl. unfold ahead in *. simpl. split_and!; try done; slot_lia.
  - rewrite Hs, Hb. done.
Qed.


(** ** Every epoch gets its turn *)

(** The next [k] blocks, without calls in between. *)
Fixpoint run_blocks (subnets : list Z) (k : nat) s : State :=
  match k with
  | O => s
  | S k => run_blocks subnets k (drain_pending subnets (get_current_block_as_u64 s + 1) (next_block s)).2
  end.

(** A new owner's hotkey is registered once. *)
Class OwnerChangeKeepsKeys : Prop :=
  owner_change_keeps n m w :
    is_epoch_input_state_consistent w m = true ->
    is_epoch_input_state_consistent (change_subnet_owner_if_needed n w) m = true.

(** One block for the subnets of the list. *)
Lemma one_block `{!OwnerChangeIsLocal} subnets s :
  NoDup subnets -> 1 <= MaxEpochsPerBlock s <= 255 ->
  let block := get_current_block_as_u64 s + 1 in
  let s' := (drain_pending subnets block (next_block s)).2 in
  (forall n, n ∈ subnets -> exists f, slot s' n = apply_fate block f (slot s n) /\
     (due (age (slot s n)) block <-> f <> NotDue) /\
     (f = Deferred -> exists m, m ∈ subnets /\ m <> n /\ due (age (slot s m)) block /\
        slot s' m = apply_fate block Ran (slot s m)) /\
     (f = Skipped -> is_epoch_input_state_consistent (world s) n = false)) /\
  get_current_block_as_u64 s' = block /\ MaxEpochsPerBlock s' = MaxEpochsPerBlock s /\
  (forall P : World -> Prop, (forall n w, P w -> P (change_subnet_owner_if_needed n w)) ->
     P (world s) -> P (world s')).
Proof.
  intros Hnd Hmax block. simpl. pose proof (drain_pending_spec subnets block (next_block s) Hnd) as Hsp.
  assert (Hcap : 1 <= (epoch_schedule_for_block (next_block s) subnets block).1 <= 255).
  { unfold epoch_schedule_for_block. destruct (List.find _ subnets); simpl; lia. }
  pose proof (slot_order_spec (next_block s) subnets block Hnd) as [Hno _].
  destruct (epoch_schedule_for_block _ _ _) as [cap order]. simpl in *.
  destruct (drain_pending _ _ _) as [em s']. destruct Hsp as (Hd & Hfnd & Hin). simpl.
  destruct (drained_rest _ _ _ _ _ _ Hd) as (-> & _ & ->).
  split_and!; try done; [|exact (drained_world _ _ _ _ _ _ Hd)].
  assert (Hf : forall n f, (n, f) ∈ fates cap 0 block (is_epoch_input_state_consistent (world s)) (slot s) order ->
    slot s' n = apply_fate block f (slot s n) /\ (due (age (slot s n)) block <-> f <> NotDue) /\
    (f = Skipped -> is_epoch_input_state_consistent (world s) n = false)).
  { intros n f Hf. split; [exact (drained_slot _ _ _ _ _ _ Hd _ _ Hf)|].
    destruct (fates_in _ _ _ _ _ _ _ _ Hno Hf) as [run ->]. unfold fate.
    destruct (should_run_epoch_spec (age (slot s n)) block); simpl; [|split; [|done]; tauto].
    destruct (cap <=? run), (is_epoch_input_state_consistent (world s) n); done. }
  intros n Hn. apply Hin, list_elem_of_fmap in Hn as ((n' & f) & -> & Hnf). exists f.
  destruct (Hf n' f Hnf) as (Hsl & Hdue & Hsk). split_and!; try done. intros ->.
  destruct (counted_ran cap 0 block (is_epoch_input_state_consistent (world s)) (slot s) order)
    as (_ & _ & Hdef); [lia|lia|unfold u32_max; lia|]. specialize (Hdef n' Hnf).
  destruct (ran _) as [|m l] eqn:Hran; [simpl in Hdef; lia|].
  assert (Hm : (m, Ran) ∈ fates cap 0 block (is_epoch_input_state_consistent (world s)) (slot s) order).
  { assert (Hm : m ∈ ran (fates cap 0 block (is_epoch_input_state_consistent (world s)) (slot s) order))
      by (rewrite Hran; left).
    apply list_elem_of_fmap in Hm as ((? & ?) & -> & [? Hm]%list_elem_of_filter). simpl in *. by subst. }
  destruct (Hf m Ran Hm) as (Hm1 & Hm2 & _). exists m. split_and!; try done.
  - apply Hin, list_elem_of_fmap. by exists (m, Ran).
  - intros ->. assert (Deferred = Ran); [|done].
    exact (fates_unique _ _ _ _ _ _ n' Deferred Ran Hno Hnf Hm).
  - by apply Hm2.
Qed.

(** The epoch of the slot ran in one of the last [j] blocks or in this one. *)
Definition rested (j now : Z) (sl : Slot) : Prop :=
  PendingEpochAt sl = 0 /\ BlocksSinceLastStep sl <= j /\ now - j <= LastEpochBlock sl.
#[local] Instance rested_dec j now sl : Decision (rested j now sl) := ltac:(unfold rested; apply _).

Lemma rested_not_due j now sl : rested j now sl -> j + 1 < Tempo sl -> slot_wf sl -> ~ due (age sl) (now + 1).
Proof. unfold rested. intros. slot_lia. Qed.
Lemma rested_age j now sl : rested j now sl -> rested (j + 1) (now + 1) (age sl).
Proof. unfold rested. slot_lia. Qed.
Lemma ran_rested j block sl : 0 <= j -> rested j block (apply_fate block Ran sl).
Proof. unfold rested. simpl. lia. Qed.
Lemma apply_fate_tempo block f sl : Tempo (apply_fate block f sl) = Tempo sl.
Proof. by destruct f. Qed.
Lemma deferred_due block sl :
  is_u64 (block + 1) -> 1 <= Tempo sl -> 0 < block -> due (age (apply_fate block Deferred sl)) (block + 1).
Proof. slot_lia. Qed.

Section turn.
Context `{!OwnerChangeIsLocal, !OwnerChangeKeepsKeys} (subnets : list Z) (Hnd : NoDup subnets).

Definition others (n : Z) : list Z := filter (fun m => m <> n) subnets.
(** The subnets that may still take a slot before [n]. *)
Definition fresh (n j : Z) s : list Z :=
  filter (fun m => ~ rested j (get_current_block_as_u64 s) (slot s m)) (others n).

(** All subnets have an epoch that can run, at most once in the next [k] blocks. *)
Definition runnable (k : Z) s : Prop :=
  1 <= MaxEpochsPerBlock s <= 255 /\ 0 <= get_current_block_as_u64 s /\
  get_current_block_as_u64 s + k + 2 <= u64_max /\
  forall m, m ∈ subnets -> slot_wf (slot s m) /\ is_epoch_input_state_consistent (world s) m = true.

Lemma runnable_block k s :
  runnable k s -> 1 <= k ->
  runnable (k - 1) (drain_pending subnets (get_current_block_as_u64 s + 1) (next_block s)).2.
Proof.
  intros (Hmax & Hpos & Hb & Hm) Hk. destruct (one_block subnets s Hnd Hmax) as (Hs & Hnow & Hmx & HP).
  unfold runnable. rewrite Hnow, Hmx. split_and!; try done; try lia. intros m Hin.
  destruct (Hs m Hin) as (f & -> & _). destruct (Hm m Hin) as [Hw Hc]. split.
  - apply apply_fate_wf; [unfold is_u64; lia|done].
  - apply (HP (fun w => is_epoch_input_state_consistent w m = true)); [|done].
    intros. by apply owner_change_keeps.
Qed.

(** A block that defers [n] leaves fewer subnets that can take its slot. *)
Lemma deferred_progress n j s m :
  let s' := (drain_pending subnets (get_current_block_as_u64 s + 1) (next_block s)).2 in
  runnable 1 s -> 0 <= j -> (forall m, m ∈ subnets -> j + 1 < Tempo (slot s m)) ->
  m ∈ subnets -> m <> n -> due (age (slot s m)) (get_current_block_as_u64 s + 1) ->
  slot s' m = apply_fate (get_current_block_as_u64 s + 1) Ran (slot s m) ->
  (length (fresh n (j + 1) s') < length (fresh n j s))%nat.
Proof.
  intros s' (Hmax & Hpos & Hb & Hwf) Hj Ht Hm Hmn Hdue Hran.
  destruct (one_block subnets s Hnd Hmax) as (Hs & Hnow & _ & _). fold s' in Hs, Hnow.
  assert (Hkeep : forall k, k ∈ subnets -> rested j (get_current_block_as_u64 s) (slot s k) ->
    rested (j + 1) (get_current_block_as_u64 s') (slot s' k)).
  { intros k Hk Hr. destruct (Hs k Hk) as (f & -> & Hd & _). rewrite Hnow.
    destruct (Hwf k Hk) as [Hw _].
    assert (f = NotDue) as -> by (destruct (decide (f = NotDue)); [done|]; exfalso;
      apply (rested_not_due j _ (slot s k) Hr); [by apply Ht|done|by apply Hd]).
    by apply rested_age. }
  unfold fresh. assert (Ho : m ∈ others n) by (by apply list_elem_of_filter).
  assert (Hin : forall k, k ∈ others n -> k ∈ subnets) by (by intros k [_ ?]%list_elem_of_filter).
  assert (Hfr : ~ rested j (get_current_block_as_u64 s) (slot s m)).
  { intros Hr. destruct (Hwf m Hm) as [Hw _]. by apply (rested_not_due j _ _ Hr (Ht m Hm) Hw). }
  assert (Hre : rested (j + 1) (get_current_block_as_u64 s') (slot s' m)).
  { rewrite Hran, Hnow. apply ran_rested. lia. }
  clear -Hkeep Ho Hin Hfr Hre. induction (others n) as [|k l IH]; [by apply not_elem_of_nil in Ho|].
  rewrite !filter_cons. apply elem_of_cons in Ho as [->|Ho].
  - rewrite decide_False by tauto. rewrite decide_True by done. simpl. apply Nat.lt_succ_r.
    assert (Hl : forall x, x ∈ l -> x ∈ subnets) by (intros x Hx; apply Hin; by right). clear -Hkeep Hl.
    induction l as [|x l IH]; [done|]. rewrite !filter_cons. specialize (Hkeep x (Hl x ltac:(left))).
    repeat case_decide; simpl; try tauto; specialize (IH (fun y Hy => Hl y (list_elem_of_further _ _ _ Hy))); lia.
  - assert (Hl : forall x, x ∈ l -> x ∈ subnets) by (intros x Hx; apply Hin; by right).
    specialize (IH Ho Hl). specialize (Hkeep k (Hin k ltac:(left))). repeat case_decide; simpl; try tauto; lia.
Qed.

Lemma turn_comes n k : n ∈ subnets -> forall j s,
  0 <= j -> (length (fresh n j s) <= k)%nat -> runnable (Z.of_nat k + 1) s ->
  (forall m, m ∈ subnets -> j + Z.of_nat k + 1 < Tempo (slot s m)) ->
  due (age (slot s n)) (get_current_block_as_u64 s + 1) ->
  exists i, (1 <= i <= k + 1)%nat /\
    SubnetEpochIndex (slot (run_blocks subnets i s) n) =
      saturating_add u64_max (SubnetEpochIndex (slot s n)) 1.
Proof.
  intros Hn. induction k as [|k IH]; intros j s Hj Hk Hrun Ht Hdue.
  all: destruct Hrun as (Hmax & Hpos & Hb & Hm); destruct (one_block subnets s Hnd Hmax) as (Hs & Hnow & _ & _).
  all: set (s' := (drain_pending subnets (get_current_block_as_u64 s + 1) (next_block s)).2) in *.
  all: destruct (Hs n Hn) as (f & Hsl & Hd & Hdef & Hsk); destruct (Hm n Hn) as [_ Hc].
  all: assert (Hran : f = Ran -> SubnetEpochIndex (slot (run_blocks subnets 1 s) n) =
    saturating_add u64_max (SubnetEpochIndex (slot s n)) 1)
    by (intros ->; simpl; fold s'; by rewrite Hsl).
  all: destruct f; [by apply Hd in Hdue| |by exists 1%nat; split; [lia|auto]|by rewrite Hsk in Hc].
  - destruct (Hdef eq_refl) as (m & Hm1 & Hm2 & Hm3 & Hm4).
    assert (Hlt := deferred_progress n j s m). simpl in Hlt. fold s' in Hlt.
    specialize (Hlt ltac:(done) Hj ltac:(intros x Hx; specialize (Ht x Hx); lia) Hm1 Hm2 Hm3 Hm4). lia.
  - destruct (Hdef eq_refl) as (m & Hm1 & Hm2 & Hm3 & Hm4).
    assert (Hlt := deferred_progress n j s m). simpl in Hlt. fold s' in Hlt.
    specialize (Hlt ltac:(split_and!; try done; lia) Hj ltac:(intros x Hx; specialize (Ht x Hx); lia)
      Hm1 Hm2 Hm3 Hm4).
    destruct (IH (j + 1) s') as (i & Hi & Hidx).
    + lia.
    + lia.
    + replace (Z.of_nat k + 1) with (Z.of_nat (S k) + 1 - 1) by lia. apply runnable_block; [done|lia].
    + intros x Hx. destruct (Hs x Hx) as (g & -> & _). rewrite apply_fate_tempo. specialize (Ht x Hx). lia.
    + rewrite Hnow, Hsl. apply deferred_due; [unfold is_u64; lia|specialize (Ht n Hn); lia|lia].
    + exists (S i). split; [lia|]. simpl. fold s'. rewrite Hidx, Hsl. done.
Qed.
End turn.

(** (C16) No subnet is starved of its epoch.  Whatever other subnets are due, in
    whatever mode and order, an epoch that is due takes its slot within as many
    blocks as there are subnets, when each of them can run and has a tempo longer
    than that. *)
Theorem no_subnet_starves `{!OwnerChangeIsLocal, !OwnerChangeKeepsKeys} (subnets : list Z) n s :
  NoDup subnets -> n ∈ subnets -> runnable subnets (Z.of_nat (length subnets)) s ->
  (forall m, m ∈ subnets -> Z.of_nat (length subnets) < Tempo (slot s m)) ->
  should_run_epoch (age (slot s n)) (get_current_block_as_u64 s + 1) = true ->
  exists i, (1 <= i <= length subnets)%nat /\
    SubnetEpochIndex (slot (run_blocks subnets i s) n) =
      saturating_add u64_max (SubnetEpochIndex (slot s n)) 1.
Proof.
  intros Hnd Hn Hrun Ht Hdue%should_run_epoch_due.
  assert (Hlen : (length (fresh subnets n 0 s) < length subnets)%nat).
  { unfold fresh. eapply Nat.le_lt_trans; [apply length_filter|]. unfold others.
    apply elem_of_Permutation in Hn as [l Hl]. rewrite Hl. rewrite filter_cons, decide_False by tauto.
    simpl. apply Nat.lt_succ_r, length_filter. }
  destruct (turn_comes subnets Hnd n (length subnets - 1) Hn 0 s) as (i & Hi & Hidx); try done; try lia.
  - destruct Hrun as (? & ? & ? & ?). split_and!; try done; lia.
  - intros m Hm. specialize (Ht m Hm). lia.
  - exists i. split; [lia|done].
Qed.

(** ** The subnets a block defers, computed ahead *)

#[local] Arguments defer_one : simpl never.

Lemma defer_fold cap block c s order D run :
  (forall n, n ∈ order -> is_epoch_input_state_consistent (world s) n = c n /\
     should_run_epoch (age (slot s n)) block = should_run_epoch (slot s n) block) ->
  forall n, n ∈ (foldl (defer_one s cap block) (D, run) order).1 <->
    n ∈ D \/ (n, Deferred) ∈ fates cap run block c (slot s) order.
Proof.
  revert D run. induction order as [|m order IH]; intros D run Hc n; simpl.
  { rewrite elem_of_nil. tauto. }
  destruct (Hc m ltac:(left)) as [Hcm Hm]. set (step := defer_one s cap block (D, run) m).
  assert (Hst : step = if negb (should_run_epoch (age (slot s m)) block) then (D, run)
    else if cap <=? run then ({[m]} ∪ D, run)
    else if c m then (D, saturating_add u32_max run 1) else (D, run))
    by (unfold step, defer_one; by rewrite Hm, Hcm).
  rewrite Hst. unfold fate.
  assert (Hc' : forall x, x ∈ order -> is_epoch_input_state_consistent (world s) x = c x /\
    should_run_epoch (age (slot s x)) block = should_run_epoch (slot s x) block)
    by (intros x Hx; apply Hc; by right).
  destruct (should_run_epoch (age (slot s m)) block); [destruct (cap <=? run); [|destruct (c m)]|];
    simpl; rewrite IH by done; rewrite elem_of_cons; unfold counted; simpl.
  1: rewrite elem_of_union, elem_of_singleton. all: naive_solver.
Qed.

(** The step that reveals commits before the epochs run takes the same subnets
    for deferred as the epochs do: those that are due and whose counter stays.
    The hypothesis leaves out a subnet whose age reaches its tempo before it is
    due, which [drain_pending] alone takes for due. *)
Theorem deferred_epochs_agree `{!OwnerChangeIsLocal} (subnets : list Z) (block : Z) s :
  NoDup subnets ->
  (forall n, n ∈ subnets -> slot_wf (slot s n) /\ SubnetEpochIndex (slot s n) < u64_max /\
     (BlocksSinceLastStep (slot s n) = Tempo (slot s n) -> should_run_epoch (slot s n) block = true)) ->
  forall n, n ∈ epochs_deferred_this_block s subnets block <->
    n ∈ subnets /\ should_run_epoch (slot s n) block = true /\
    SubnetEpochIndex (slot (drain_pending subnets block s).2 n) = SubnetEpochIndex (slot s n).
Proof.
  intros Hnd Hw n. pose proof (drain_pending_spec subnets block s Hnd) as Hsp.
  pose proof (slot_order_spec s subnets block Hnd) as [Hno Hord]. unfold epochs_deferred_this_block.
  destruct (epoch_schedule_for_block s subnets block) as [cap order]. simpl in *.
  destruct (drain_pending subnets block s) as [em s']. destruct Hsp as (Hd & _ & Hin). simpl.
  assert (Hage : forall m, m ∈ subnets ->
    should_run_epoch (age (slot s m)) block = should_run_epoch (slot s m) block).
  { intros m Hm. destruct (Hw m Hm) as (Hwf & _ & He). revert He.
    destruct (should_run_epoch_spec (slot s m) block), (should_run_epoch_spec (age (slot s m)) block); try done.
    all: intros He; exfalso; slot_lia. }
  rewrite (defer_fold cap block (is_epoch_input_state_consistent (world s)) s order ∅ 0)
    by (intros m Hm; split; [done|by apply Hage, Hord]).
  rewrite elem_of_empty. split.
  - intros [[]|Hf]. assert (Hn : n ∈ subnets).
    { apply Hin, list_elem_of_fmap. by exists (n, Deferred). }
    split_and!; [done| |by rewrite (drained_slot _ _ _ _ _ _ Hd _ _ Hf)]. rewrite <- Hage by done.
    destruct (fates_in _ _ _ _ _ _ _ _ Hno Hf) as [run Hfate]. unfold fate in Hfate. by destruct (should_run_epoch (age (slot s n)) block).
  - intros (Hn & Hdue & Hidx). right. pose proof Hn as Hnf.
    apply Hin, list_elem_of_fmap in Hnf as ((n' & f) & -> & Hf). simpl in *.
    rewrite (drained_slot _ _ _ _ _ _ Hd _ _ Hf) in Hidx. destruct (Hw n' Hn) as (_ & Hi & _).
    destruct (fates_in _ _ _ _ _ _ _ _ Hno Hf) as [run Hfate]. unfold fate in Hfate.
    rewrite Hage, Hdue in Hfate by done. destruct f; simpl in *; try done.
    { by destruct (cap <=? run), (is_epoch_input_state_consistent (world s) n'). }
    all: unfold saturating_add in Hidx; lia.
Qed.

(** ** The cycle after a change of tempo *)

(** A slot that was left alone for [k] blocks. *)
Lemma aged sl (k : nat) :
  slot_wf sl -> (1 <= k)%nat ->
  Nat.iter k age sl = mkSlot (Tempo sl) (Z.min (BlocksSinceLastStep sl + Z.of_nat k) (Tempo sl + 1))
    (LastEpochBlock sl) (PendingEpochAt sl) (SubnetEpochIndex sl).
Proof.
  intros Hw Hk. induction Hk as [|k Hk IH]; simpl; [|rewrite IH]; unfold age; simpl; f_equal; slot_lia.
Qed.

Lemma run_blocks_shift subnets k s :
  run_blocks subnets (S k) s =
    (drain_pending subnets (get_current_block_as_u64 (run_blocks subnets k s) + 1)
       (next_block (run_blocks subnets k s))).2.
Proof. revert s. induction k as [|k IH]; intros s; [done|]. simpl in *. apply IH. Qed.

(** As long as its epoch is not due, a slot only ages. *)
Lemma waiting_ages `{!OwnerChangeIsLocal} subnets n s (k : nat) :
  NoDup subnets -> n ∈ subnets -> 1 <= MaxEpochsPerBlock s <= 255 ->
  (forall i, (i < k)%nat -> ~ due (age (slot (run_blocks subnets i s) n)) (get_current_block_as_u64 s + Z.of_nat i + 1)) ->
  slot (run_blocks subnets k s) n = Nat.iter k age (slot s n) /\
  get_current_block_as_u64 (run_blocks subnets k s) = get_current_block_as_u64 s + Z.of_nat k /\
  MaxEpochsPerBlock (run_blocks subnets k s) = MaxEpochsPerBlock s.
Proof.
  intros Hnd Hn Hmax. induction k as [|k IH]; intros Hk; [split_and!; simpl; [done|lia|done]|].
  destruct IH as (IH1 & IH2 & IH3); [intros i Hi; apply Hk; lia|]. rewrite run_blocks_shift.
  assert (Hmax' : 1 <= MaxEpochsPerBlock (run_blocks subnets k s) <= 255) by (by rewrite IH3).
  destruct (one_block subnets _ Hnd Hmax') as (Hs & Hnow & Hm & _). destruct (Hs n Hn) as (f & Hf & Hd & _).
  specialize (Hk k ltac:(lia)). rewrite IH2 in Hd. assert (f = NotDue) as ->.
  { destruct (decide (f = NotDue)); [done|]. exfalso. apply Hk. by apply Hd. }
  rewrite Hf, Hnow, Hm, IH1, IH2, IH3. split_and!; [done|lia|done].
Qed.

(** How many blocks after a change of the tempo to [t] the next epoch is due, when [since]
    blocks were counted since the last one: [t] after no block or one, one less for every
    further block, and at least one. *)
Definition cycle_after_change (t since : Z) : Z := Z.max 1 (Z.min t (t - since + 1)).

End schedule.

(** ** A chain with three subnets

    All three are due in block 101, two epochs run per block, subnet 3 was just
    given a new tempo. *)
Module Example.

#[local] Instance chain : Chain Z unit := {|
  if_subnet_exist _ _ := true;
  SubnetOwner _ _ := 7;
  get_epoch_consensus _ _ := Yuma;
  get_commit_reveal_weights_enabled _ _ := false;
  OwnerHyperparamRateLimit _ := 2;
  Keys_iter_prefix _ netuid := [netuid; netuid + 10];
  change_subnet_owner_if_needed _ w := w;
|}.

#[local] Instance owner_change_local : OwnerChangeIsLocal (AccountId := Z) (World := unit).
Proof. by intros n m w _. Qed.
#[local] Instance owner_change_keys : OwnerChangeKeepsKeys (AccountId := Z) (World := unit).
Proof. by intros n m w. Qed.

Definition subnets : list Z := [1; 2; 3].

Definition start : State (AccountId := Z) (World := unit) :=
  mkState (fun n => mkSlot (40 + 10 * n) (30 + 10 * n) (61 - 10 * n) 0 5) (fun n => mkPending n 2 3 4)
    100 10 2 (fun _ => 13889) (fun _ _ => 0) (fun _ _ => 0) [] ().

(** Subnet 1 in the middle of its cycle. *)
Definition middle : State (AccountId := Z) (World := unit) :=
  mkState (fun n => mkSlot 360 200 800 0 5) (fun n => mkPending n 2 3 4)
    1000 10 2 (fun _ => 13889) (fun _ _ => 0) (fun _ _ => 0) [] ().

Lemma start_wf n : n ∈ subnets -> slot_wf (slot start n).
Proof.
  intros Hn. assert (1 <= n <= 3) by (unfold subnets in Hn; rewrite !elem_of_cons, elem_of_nil in Hn; lia).
  slot_lia.
Qed.

Lemma block_runs_limited_epochs_witness :
  size (drain_pending subnets 101 start).1 = 2%nat /\
  Z.of_nat (size (drain_pending subnets 101 start).1) <= 2.
Proof.
  split; [reflexivity|].
  pose proof (block_runs_limited_epochs subnets 101 start ltac:(repeat constructor; set_solver) ltac:(done)) as Hb.
  cbv zeta in Hb. destruct (drain_pending subnets 101 start) as [em s']. exact (proj1 (proj1 Hb)).
Defined.


Lemma no_subnet_starves_witness :
  should_run_epoch (age (slot start 3)) 101 = true /\
  exists i, (1 <= i <= 3)%nat /\ SubnetEpochIndex (slot (run_blocks subnets i start) 3) = 6.
Proof.
  split; [reflexivity|]. apply (no_subnet_starves subnets 3 start).
  - repeat constructor; set_solver.
  - unfold subnets; set_solver.
  - split; [done|]. split; [done|]. split; [done|]. intros m Hm. split; [by apply start_wf|].
    assert (1 <= m <= 3) by (unfold subnets in Hm; rewrite !elem_of_cons, elem_of_nil in Hm; lia).
    unfold is_epoch_input_state_consistent. simpl. rewrite bool_decide_false by set_solver.
    rewrite bool_decide_false; [done|]. rewrite elem_of_union, elem_of_singleton, elem_of_empty. lia.
  - intros m Hm. assert (1 <= m <= 3) by (unfold subnets in Hm; rewrite !elem_of_cons, elem_of_nil in Hm; lia).
    simpl. lia.
  - reflexivity.
Defined.

Lemma deferred_epochs_agree_witness :
  3 ∈ epochs_deferred_this_block start subnets 101 /\
  SubnetEpochIndex (slot (drain_pending subnets 101 start).2 3) = 5.
Proof.
  split; [apply (deferred_epochs_agree subnets 101 start)|reflexivity].
  - repeat constructor; set_solver.
  - intros n Hn. split; [by apply start_wf|]. split; [done|]. simpl. lia.
  - split; [unfold subnets; set_solver|]. split; reflexivity.
Defined.

Definition retimed : State (AccountId := Z) (World := unit) := (do_set_tempo (Signed 7) 1 720 middle).2.

End Example.
