(* ===== verification/WeightSetting.v ===== *)
(** * Setting, committing and revealing weights

    Models src/pallets/subtensor/src/subnets/weights.rs, the reveal of timelocked
    commits in coinbase/reveal_commits.rs and coinbase/block_step.rs, the guard
    guards/check_weights.rs, the calls of macros/dispatches.rs and the getters they
    use (subnets/mechanism.rs, utils/misc.rs, lib.rs).

    A validator sets its row of weights at once, or, where commit-reveal is
    enabled, commits a hash (or a timelocked ciphertext) and reveals the weights
    [RevealPeriodEpochs] epochs later.  The epoch is that of Schedule.v, whose
    state is a part of this one.  What is read of the rest of the chain is the
    class [Registry]; hashing, timelock encryption and the fixed-point crate are
    the record [Libraries].  WeightSafety.v has the theorems. *)

From Stdlib Require Import ZArith Lia Strings.Byte.
From stdpp Require Import base gmap list fin_maps functions.
From S2P Require Import Prelude EpochMath Neurons Schedule.

Definition MAX_CRV3_COMMIT_SIZE_BYTES : Z := 32 * 1024.
Definition YUMA_COMMIT_SIZE_BYTES : Z := 5000.
Definition NULL_COMMIT_QUEUE_BYTES : Z := 64 * 1024.
Definition NULL_COMMIT_QUEUE_COUNT : Z := 64.
Definition MIN_COMMIT_REVEAL_PEROIDS : Z := 1.
Definition MAX_COMMIT_REVEAL_PEROIDS : Z := 100.
Definition MAX_MECHANISM_COUNT_PER_SUBNET : nat := 16.

Inductive Error : Type :=
| BadOrigin | SubnetNotExists | MechanismDoesNotExist | CanNotSetRootNetworkWeights
| WeightVecNotEqualSize | UidsLengthExceedUidsInSubNet | HotKeyNotRegisteredInSubNet
| NotEnoughStakeToSetWeights | IncorrectWeightVersionKey | SettingWeightsTooFast
| NeuronNoValidatorPermit | DuplicateUids | UidVecContainInvalidOne | WeightVecLengthIsLow
| MaxWeightExceeded | CommitRevealEnabled | CommitRevealDisabled | CommittingWeightsTooFast
| TooManyUnrevealedCommits | IncorrectCommitRevealVersion | CommitPayloadTooLarge | CommitQueueFull
| InvalidValue | NoWeightsCommitFound | ExpiredWeightCommit | RevealTooEarly
| InvalidRevealCommitHashNotMatch | InputLengthsUnequal | InvalidBatchLength | InvalidRevealRound
| RevealPeriodTooLarge | RevealPeriodTooSmall.

(** What the calls read of the rest of the chain. *)
Class Registry (AccountId World : Type) : Type := {
  MechanismCountCurrent : World -> Z -> Z;
  get_subnetwork_n : World -> Z -> nat;
  uid_of : World -> Z -> AccountId -> option nat;          (** [Uids] *)
  key_of : World -> Z -> nat -> option AccountId;          (** [Keys] *)
  ValidatorPermit : World -> Z -> list bool;
  SubnetOwnerHotkey : World -> Z -> option AccountId;
  CommitRevealWeightsVersion : World -> Z;
  WeightsVersionKey : World -> Z -> Z;
  WeightsSetRateLimit : World -> Z -> Z;
  MinAllowedWeights : World -> Z -> Z;
  StakeThreshold : World -> Z;
  TotalNetworks : World -> Z;
  LastStoredRound : World -> Z;
  (** The inherited stakes of a hotkey, and the TAO weight as an I64F64. *)
  get_inherited_for_hotkey_on_subnet : World -> AccountId -> Z -> Z;
  get_tao_inherited_for_hotkey_on_subnet : World -> AccountId -> Z -> Z;
  get_tao_weight : World -> Z;
  (** The signature of a round of the randomness beacon, [Pulses]. *)
  pulse_signature : World -> Z -> option (list byte);
  get_all_subnet_netuids : World -> list Z;
}.

Record WeightsTlockPayload : Type := mkPayload {
  payload_hotkey : list byte;
  payload_uids : list nat;
  payload_values : list Z;
  payload_version_key : Z;
}.

Record LegacyWeightsTlockPayload : Type := mkLegacyPayload {
  legacy_uids : list nat;
  legacy_values : list Z;
  legacy_version_key : Z;
}.

(** Third-party code. *)
Record Libraries (AccountId Hash : Type) : Type := mkLibraries {
  (** [BlakeTwo256::hash_of] of a reveal and [BlakeTwo256::hash] of bytes. *)
  hash_reveal : AccountId -> Z -> list nat -> list Z -> list Z -> Z -> Hash;
  hash_bytes : list byte -> Hash;
  (** The timelock: deserialisation of ciphertexts and signatures, the lengths of
      a header, decryption, and SCALE decoding. *)
  Ciphertext : Type;
  Signature : Type;
  deserialize_ciphertext : list byte -> option Ciphertext;
  header_v_len : Ciphertext -> Z;
  header_w_len : Ciphertext -> Z;
  deserialize_signature : list byte -> option Signature;
  tld : Ciphertext -> Signature -> option (list byte);
  decode_payload : list byte -> option WeightsTlockPayload;
  decode_legacy_payload : list byte -> option LegacyWeightsTlockPayload;
  decode_account : list byte -> option AccountId;
  (** [saturating_mul] of I64F64, and the arithmetic of I32F32. *)
  fixed64_mul : Z -> Z -> Z;
  fixed_lib : FixedLib;
}.
Arguments hash_reveal {_ _} _.
Arguments hash_bytes {_ _} _.
Arguments deserialize_ciphertext {_ _} _.
Arguments header_v_len {_ _} _.
Arguments header_w_len {_ _} _.
Arguments deserialize_signature {_ _} _.
Arguments tld {_ _} _.
Arguments decode_payload {_ _} _.
Arguments decode_legacy_payload {_ _} _.
Arguments decode_account {_ _} _.
Arguments fixed64_mul {_ _} _.
Arguments fixed_lib {_ _} _.

(** ** Helpers on vectors *)

Fixpoint scan_duplicates (seen : gset nat) (items : list nat) : bool :=
  match items with
  | [] => false
  | item :: items =>
      if bool_decide (item ∈ seen) then true else scan_duplicates ({[item]} ∪ seen) items
  end.
Definition has_duplicate_uids (items : list nat) : bool := scan_duplicates ∅ items.

Definition uids_match_values (uids : list nat) (values : list Z) : bool :=
  bool_decide (length uids = length values).

Definition is_self_weight (uid : nat) (uids : list nat) (weights : list Z) : bool :=
  if negb (bool_decide (length weights = 1%nat)) then false
  else match uids with
       | [] => false
       | first_uid :: _ => bool_decide (uid = first_uid)
       end.

(** Every weight times 65535, divided by the sum. *)
Definition normalize_weights (weights : list Z) : list Z :=
  let sum := foldl Z.add 0 weights in
  if sum =? 0 then weights
  else (fun x => (saturating_mul u64_max x u16_max / sum) mod (u16_max + 1)) <$> weights.

Definition get_max_weight_limit (netuid : Z) : Z := u16_max.

(** The prefix [0x] of a signature is dropped. *)
Definition strip_0x (bytes : list byte) : list byte :=
  match bytes with
  | x30 :: x78 :: rest => rest
  | _ => bytes
  end.

Section weights.
Context {AccountId : Type} `{Countable AccountId} {World Hash : Type} `{!EqDecision Hash}.
Context `{!Chain AccountId World, !Registry AccountId World} (lib : Libraries AccountId Hash).

(** ** State *)

(** The fourth component is a bound of an older version, always 0. *)
Record Commit : Type := mkCommit {
  hash : Hash;
  commit_epoch : Z;
  commit_block : Z;
  unused : Z;
}.

Record TimelockedCommit : Type := mkTimelocked {
  who : AccountId;
  tl_block : Z;
  ciphertext : list byte;
  reveal_round : Z;
}.

Inductive Event : Type :=
| WeightsSet (index : Z) (uid : nat)
| WeightsCommitted (hotkey : AccountId) (index : Z) (h : Hash)
| TimelockedWeightsCommitted (hotkey : AccountId) (index : Z) (h : Hash) (round : Z)
| WeightsRevealed (hotkey : AccountId) (index : Z) (h : Hash)
| WeightsBatchRevealed (hotkey : AccountId) (netuid : Z) (hs : list Hash)
| TimelockedWeightsRevealed (index : Z) (hotkey : AccountId)
| BatchCompletedWithErrors
| BatchWeightItemFailed (netuid : Z) (e : Error)
| BatchWeightsCompleted (netuids : list Z) (hotkey : AccountId)
| CommitRevealPeriodsSet (netuid period : Z).

Record State : Type := mkState {
  sched : Schedule.State (AccountId := AccountId) (World := World);
  WeightCommits : gmap (Z * AccountId) (list Commit);
  TimelockedWeightCommits : gmap (Z * Z) (list TimelockedCommit);
  Weights : gmap (Z * nat) (list (nat * Z));
  LastUpdate : gmap Z (list Z);
  RevealPeriodEpochs : Z -> Z;
  Events : list Event;
}.

Abbreviation Call := (M State Error).

Definition set_commits (f : gmap (Z * AccountId) (list Commit) -> gmap (Z * AccountId) (list Commit))
    (s : State) : State :=
  mkState (sched s) (f (WeightCommits s)) (TimelockedWeightCommits s) (Weights s) (LastUpdate s)
    (RevealPeriodEpochs s) (Events s).
Definition set_timelocked (f : gmap (Z * Z) (list TimelockedCommit) -> gmap (Z * Z) (list TimelockedCommit))
    (s : State) : State :=
  mkState (sched s) (WeightCommits s) (f (TimelockedWeightCommits s)) (Weights s) (LastUpdate s)
    (RevealPeriodEpochs s) (Events s).
Definition set_row (index : Z) (uid : nat) (row : list (nat * Z)) (s : State) : State :=
  mkState (sched s) (WeightCommits s) (TimelockedWeightCommits s) (<[(index, uid) := row]> (Weights s))
    (LastUpdate s) (RevealPeriodEpochs s) (Events s).
Definition set_updates (index : Z) (v : list Z) (s : State) : State :=
  mkState (sched s) (WeightCommits s) (TimelockedWeightCommits s) (Weights s)
    (<[index := v]> (LastUpdate s)) (RevealPeriodEpochs s) (Events s).
Definition deposit_event (e : Event) (s : State) : State :=
  mkState (sched s) (WeightCommits s) (TimelockedWeightCommits s) (Weights s) (LastUpdate s)
    (RevealPeriodEpochs s) (Events s ++ [e]).

Definition chain (s : State) : World := world (sched s).
Definition now (s : State) : Z := get_current_block_as_u64 (sched s).
Definition current_epoch (s : State) (netuid : Z) : Z := current_epoch_with_lookahead (sched s) netuid.

(** ** Getters *)

Definition ensure_signed (o : Origin AccountId) : Call AccountId :=
  match o with Signed a => mret a | _ => fail BadOrigin end.

Definition ensure_mechanism_exists (netuid sub_id : Z) : Call unit :=
  s ← gets id;
  ensure (if_subnet_exist (chain s) netuid) MechanismDoesNotExist;;
  ensure (sub_id <? MechanismCountCurrent (chain s) netuid) MechanismDoesNotExist.

Definition get_netuid_and_subid (w : World) (netuid_index : Z) : option (Z * Z) :=
  let netuid := netuid_index mod GLOBAL_MAX_SUBNET_COUNT in
  if negb (if_subnet_exist w netuid) then None
  else
    let sub_id := netuid_index / GLOBAL_MAX_SUBNET_COUNT in
    if negb (sub_id <=? 255) then None
    else if sub_id <? MechanismCountCurrent w netuid then Some (netuid, sub_id) else None.

Definition is_uid_exist_on_network (w : World) (netuid : Z) (uid : nat) : bool :=
  bool_decide (is_Some (key_of w netuid uid)).
Definition is_hotkey_registered_on_network (w : World) (netuid : Z) (hotkey : AccountId) : bool :=
  bool_decide (is_Some (uid_of w netuid hotkey)).
Definition get_uid_for_net_and_hotkey (netuid : Z) (hotkey : AccountId) : Call nat :=
  s ← gets id; ok_or (uid_of (chain s) netuid hotkey) HotKeyNotRegisteredInSubNet.
Definition get_validator_permit_for_uid (w : World) (netuid : Z) (uid : nat) : bool :=
  default false (ValidatorPermit w netuid !! uid).
Definition get_owner_uid (w : World) (netuid : Z) : option nat :=
  match SubnetOwnerHotkey w netuid with
  | Some owner_hotkey => uid_of w netuid owner_hotkey
  | None => None
  end.

Definition get_last_update_for_uid (s : State) (index : Z) (uid : nat) : Z :=
  default 0 (default [] (LastUpdate s !! index) !! uid).

Definition get_last_update (s : State) (index : Z) : list Z :=
  resize_to (get_subnetwork_n (chain s) (get_netuid index)) 0 (default [] (LastUpdate s !! index)).

Definition set_last_update_for_uid (index : Z) (uid : nat) (last_update : Z) (s : State) : State :=
  let v := get_last_update s index in
  match v !! uid with
  | None => s
  | Some _ => set_updates index (<[uid := last_update]> v) s
  end.

Definition ensure_null_weight_permit (netuid : Z) (hotkey : AccountId) : Call unit :=
  s ← gets id;
  if bool_decide (get_epoch_consensus (chain s) netuid = Null) then
    uid ← get_uid_for_net_and_hotkey netuid hotkey;
    ensure (get_validator_permit_for_uid (chain s) netuid uid) NeuronNoValidatorPermit
  else mret ().

(** An I64F64 is the integer of its bits. *)
Definition fixed64_from_u64 (x : Z) : Z := Z.min FIXED64_MAX (x * 2 ^ 64).

(** The first component of the triple: the total stake of a hotkey. *)
Definition get_stake_weights_for_hotkey_on_subnet (w : World) (hotkey : AccountId) (netuid : Z) : Z :=
  let alpha_stake := fixed64_from_u64 (get_inherited_for_hotkey_on_subnet w hotkey netuid) in
  let tao_stake := fixed64_from_u64 (get_tao_inherited_for_hotkey_on_subnet w hotkey netuid) in
  clamp FIXED64_MIN FIXED64_MAX
    (alpha_stake + fixed64_mul lib tao_stake (get_tao_weight (AccountId := AccountId) w)).

Definition check_weights_min_stake (w : World) (hotkey : AccountId) (netuid : Z) : bool :=
  match get_owner_uid w netuid with
  | Some owner_uid =>
      if bool_decide (uid_of w netuid hotkey = Some owner_uid) then true
      else StakeThreshold w * 2 ^ 64 <=? get_stake_weights_for_hotkey_on_subnet w hotkey netuid
  | None => StakeThreshold w * 2 ^ 64 <=? get_stake_weights_for_hotkey_on_subnet w hotkey netuid
  end.

(** ** Checks on weights *)

Definition check_version_key (w : World) (netuid version_key : Z) : bool :=
  (WeightsVersionKey w netuid =? 0) || (WeightsVersionKey w netuid <=? version_key).

Definition check_rate_limit (s : State) (netuid_index : Z) (neuron_uid : nat) (current_block : Z) : bool :=
  match get_netuid_and_subid (chain s) netuid_index with
  | Some (netuid, _) =>
      if is_uid_exist_on_network (chain s) netuid neuron_uid then
        let last_set_weights := get_last_update_for_uid s netuid_index neuron_uid in
        if last_set_weights =? 0 then true
        else WeightsSetRateLimit (chain s) netuid <=? saturating_sub current_block last_set_weights
      else false
  | None => false
  end.

Definition contains_invalid_uids (w : World) (netuid : Z) (uids : list nat) : bool :=
  existsb (fun uid => negb (is_uid_exist_on_network w netuid uid)) uids.

Definition check_validator_permit (w : World) (netuid : Z) (uid : nat) (uids : list nat)
    (weights : list Z) : bool :=
  if bool_decide (get_epoch_consensus w netuid = Null) then get_validator_permit_for_uid w netuid uid
  else if is_self_weight uid uids weights then true
  else if bool_decide (get_owner_uid w netuid = Some uid) then true
  else get_validator_permit_for_uid w netuid uid.

Definition check_length (w : World) (netuid : Z) (uid : nat) (uids : list nat) (weights : list Z) : bool :=
  let subnet_n := Z.of_nat (get_subnetwork_n w netuid) in
  let min_allowed_length := MinAllowedWeights w netuid in
  let min_allowed := if subnet_n <? min_allowed_length then subnet_n else min_allowed_length in
  if negb (netuid =? 0) && is_self_weight uid uids weights then true
  else min_allowed <=? Z.of_nat (length weights).

Definition max_weight_limited (netuid : Z) (uid : nat) (uids : list nat) (weights : list Z) : bool :=
  if is_self_weight uid uids weights then true
  else if get_max_weight_limit netuid =? u16_max then true
  else check_vec_max_limited (fixed_lib lib) weights (get_max_weight_limit netuid).

Definition check_len_uids_within_allowed (w : World) (netuid : Z) (uids : list nat) : bool :=
  (length uids <=? get_subnetwork_n w netuid)%nat.

(** The limit on the largest weight in [Null] mode, on the weights as given. *)
Definition null_max_limited (netuid : Z) (uid : nat) (uids : list nat) (weights : list Z) : bool :=
  let sum := foldl Z.add 0 weights in
  let max := default 0 (maximum weights) in
  is_self_weight uid uids weights ||
  (saturating_mul u64_max max u16_max <=? saturating_mul u64_max sum (get_max_weight_limit netuid)).

(** ** Setting weights *)

Definition internal_set_weights (origin : Origin AccountId) (netuid mecid : Z) (uids : list nat)
    (values : list Z) (version_key : Z) : Call unit :=
  let netuid_index := get_mechanism_storage_index netuid mecid in
  hotkey ← ensure_signed origin;
  ensure_null_weight_permit netuid hotkey;;
  ensure (negb (netuid =? 0)) CanNotSetRootNetworkWeights;;
  ensure (uids_match_values uids values) WeightVecNotEqualSize;;
  ensure_mechanism_exists netuid mecid;;
  s ← gets id;
  ensure (check_len_uids_within_allowed (chain s) netuid uids) UidsLengthExceedUidsInSubNet;;
  ensure (is_hotkey_registered_on_network (chain s) netuid hotkey) HotKeyNotRegisteredInSubNet;;
  ensure (check_weights_min_stake (chain s) hotkey netuid) NotEnoughStakeToSetWeights;;
  ensure (check_version_key (chain s) netuid version_key) IncorrectWeightVersionKey;;
  neuron_uid ← get_uid_for_net_and_hotkey netuid hotkey;
  (if get_commit_reveal_weights_enabled (chain s) netuid then mret ()
   else ensure (check_rate_limit s netuid_index neuron_uid (now s)) SettingWeightsTooFast);;
  ensure (check_validator_permit (chain s) netuid neuron_uid uids values) NeuronNoValidatorPermit;;
  ensure (negb (has_duplicate_uids uids)) DuplicateUids;;
  ensure (negb (contains_invalid_uids (chain s) netuid uids)) UidVecContainInvalidOne;;
  ensure (check_length (chain s) netuid neuron_uid uids values) WeightVecLengthIsLow;;
  let is_null := bool_decide (get_epoch_consensus (chain s) netuid = Null) in
  let max_upscaled_weights :=
    if is_null then values else vec_u16_max_upscale_to_u16 (fixed_lib lib) values in
  ensure (if is_null then null_max_limited netuid neuron_uid uids max_upscaled_weights
          else max_weight_limited netuid neuron_uid uids max_upscaled_weights) MaxWeightExceeded;;
  modify (set_row netuid_index neuron_uid (zip uids max_upscaled_weights));;
  (if get_commit_reveal_weights_enabled (chain s) netuid then mret ()
   else modify (set_last_update_for_uid netuid_index neuron_uid (now s)));;
  modify (deposit_event (WeightsSet netuid_index neuron_uid)).

Definition do_set_weights (origin : Origin AccountId) (netuid : Z) (uids : list nat) (values : list Z)
    (version_key : Z) : Call unit :=
  internal_set_weights origin netuid 0 uids values version_key.

Definition do_set_mechanism_weights (origin : Origin AccountId) (netuid mecid : Z) (uids : list nat)
    (values : list Z) (version_key : Z) : Call unit :=
  internal_set_weights origin netuid mecid uids values version_key.

(** ** The window of a reveal *)

Definition get_reveal_period (s : State) (netuid : Z) : Z := RevealPeriodEpochs s netuid.

Definition is_reveal_block_range (s : State) (netuid commit_epoch : Z) : bool :=
  current_epoch s netuid =? saturating_add u64_max commit_epoch (get_reveal_period s netuid).

Definition is_commit_expired (s : State) (netuid commit_epoch : Z) : bool :=
  saturating_add u64_max commit_epoch (get_reveal_period s netuid) <? current_epoch s netuid.

Definition is_batch_reveal_epoch_range (s : State) (netuid : Z) (commit_epochs : list Z) : bool :=
  forallb (is_reveal_block_range s netuid) commit_epochs.

Definition set_reveal_period (netuid reveal_period : Z) : Call unit :=
  ensure (reveal_period <=? MAX_COMMIT_REVEAL_PEROIDS) RevealPeriodTooLarge;;
  ensure (MIN_COMMIT_REVEAL_PEROIDS <=? reveal_period) RevealPeriodTooSmall;;
  modify (fun s =>
    mkState (sched s) (WeightCommits s) (TimelockedWeightCommits s) (Weights s) (LastUpdate s)
      (<[netuid := reveal_period]> (RevealPeriodEpochs s)) (Events s));;
  modify (deposit_event (CommitRevealPeriodsSet netuid reveal_period)).

(** ** Committing a hash *)

(** The commits that are left when the expired ones at the front are gone, and the
    hashes of those. *)
Fixpoint pop_expired (s : State) (netuid : Z) (commits : list Commit) : list Hash * list Commit :=
  match commits with
  | c :: rest =>
      if is_commit_expired s netuid (commit_epoch c) then
        let '(expired, commits) := pop_expired s netuid rest in (hash c :: expired, commits)
      else ([], commits)
  | [] => ([], [])
  end.

(** [try_mutate] and [try_mutate_exists]: the entry is written when the body
    succeeds, and removed when the body leaves none. *)
Definition try_mutate_commits (key : Z * AccountId)
    (body : option (list Commit) -> Call (option (list Commit))) : Call unit :=
  maybe_commits ← gets (fun s => WeightCommits s !! key);
  maybe_commits ← body maybe_commits;
  modify (set_commits (partial_alter (fun _ => maybe_commits) key)).

Definition internal_commit_weights (origin : Origin AccountId) (netuid mecid : Z) (commit_hash : Hash)
    : Call unit :=
  ensure_mechanism_exists netuid mecid;;
  let netuid_index := get_mechanism_storage_index netuid mecid in
  who ← ensure_signed origin;
  ensure_null_weight_permit netuid who;;
  s ← gets id;
  ensure (get_commit_reveal_weights_enabled (chain s) netuid) CommitRevealDisabled;;
  ensure (is_hotkey_registered_on_network (chain s) netuid who) HotKeyNotRegisteredInSubNet;;
  let commit_block := now s in
  neuron_uid ← get_uid_for_net_and_hotkey netuid who;
  ensure (check_rate_limit s netuid_index neuron_uid commit_block) CommittingWeightsTooFast;;
  let commit_epoch := current_epoch s netuid in
  try_mutate_commits (netuid_index, who) (fun maybe_commits =>
    let '(_, commits) := pop_expired s netuid (default [] maybe_commits) in
    ensure (Z.of_nat (length commits) <? 10) TooManyUnrevealedCommits;;
    modify (deposit_event (WeightsCommitted who netuid_index commit_hash));;
    modify (set_last_update_for_uid netuid_index neuron_uid commit_block);;
    mret (Some (commits ++ [mkCommit commit_hash commit_epoch commit_block 0]))).

Definition do_commit_weights (origin : Origin AccountId) (netuid : Z) (commit_hash : Hash) : Call unit :=
  internal_commit_weights origin netuid 0 commit_hash.

Definition do_commit_mechanism_weights (origin : Origin AccountId) (netuid mecid : Z)
    (commit_hash : Hash) : Call unit :=
  internal_commit_weights origin netuid mecid commit_hash.

(** ** Revealing *)

Definition get_commit_hash (who : AccountId) (netuid_index : Z) (uids : list nat) (values salt : list Z)
    (version_key : Z) : Hash :=
  hash_reveal lib who netuid_index uids values salt version_key.

Definition position_of (h : Hash) (commits : list Commit) : option (nat * Commit) :=
  list_find (fun c => hash c = h) commits.

Definition internal_reveal_weights (origin : Origin AccountId) (netuid mecid : Z) (uids : list nat)
    (values salt : list Z) (version_key : Z) : Call unit :=
  s ← gets id;
  ensure (if_subnet_exist (chain s) netuid) SubnetNotExists;;
  let netuid_index := get_mechanism_storage_index netuid mecid in
  who ← ensure_signed origin;
  ensure_null_weight_permit netuid who;;
  ensure (get_commit_reveal_weights_enabled (chain s) netuid) CommitRevealDisabled;;
  try_mutate_commits (netuid_index, who) (fun maybe_commits =>
    commits ← ok_or maybe_commits NoWeightsCommitFound;
    let '(expired_hashes, commits) := pop_expired s netuid commits in
    let provided_hash := get_commit_hash who netuid_index uids values salt version_key in
    if bool_decide (commits = []) then
      if bool_decide (provided_hash ∈ expired_hashes) then fail ExpiredWeightCommit
      else fail NoWeightsCommitFound
    else
      match position_of provided_hash commits with
      | Some (position, c) =>
          ensure (is_reveal_block_range s netuid (commit_epoch c)) RevealTooEarly;;
          let commits := drop (S position) commits in
          let maybe_commits := if bool_decide (commits = []) then None else Some commits in
          do_set_mechanism_weights origin netuid mecid uids values version_key;;
          modify (deposit_event (WeightsRevealed who netuid_index provided_hash));;
          mret maybe_commits
      | None =>
          if bool_decide (provided_hash ∈ expired_hashes) then fail ExpiredWeightCommit
          else fail InvalidRevealCommitHashNotMatch
      end).

Definition do_reveal_weights (origin : Origin AccountId) (netuid : Z) (uids : list nat)
    (values salt : list Z) (version_key : Z) : Call unit :=
  internal_reveal_weights origin netuid 0 uids values salt version_key.

Definition do_reveal_mechanism_weights (origin : Origin AccountId) (netuid mecid : Z) (uids : list nat)
    (values salt : list Z) (version_key : Z) : Call unit :=
  internal_reveal_weights origin netuid mecid uids values salt version_key.

(** One reveal of a batch: uids, values, version key and hash. *)
Record Reveal : Type := mkReveal {
  r_uids : list nat;
  r_values : list Z;
  r_version_key : Z;
  r_hash : Hash;
}.

Definition check_one_reveal (s : State) (netuid : Z) (expired_hashes : list Hash) (commits : list Commit)
    (r : Reveal) : Call unit :=
  match position_of (r_hash r) commits with
  | None => if bool_decide (r_hash r ∈ expired_hashes) then fail ExpiredWeightCommit
            else fail InvalidRevealCommitHashNotMatch
  | Some (_, c) => ensure (is_reveal_block_range s netuid (commit_epoch c)) RevealTooEarly
  end.

(** The commit is removed from the queue, wherever it is, and the weights are set. *)
Definition reveal_one (origin : Origin AccountId) (netuid : Z) (expired_hashes : list Hash)
    (acc : list Commit * list Hash) (r : Reveal) : Call (list Commit * list Hash) :=
  let '(commits, revealed_hashes) := acc in
  match position_of (r_hash r) commits with
  | Some (position, _) =>
      do_set_weights origin netuid (r_uids r) (r_values r) (r_version_key r);;
      mret (delete position commits, revealed_hashes ++ [r_hash r])
  | None => if bool_decide (r_hash r ∈ expired_hashes) then fail ExpiredWeightCommit
            else fail InvalidRevealCommitHashNotMatch
  end.

Fixpoint provided_reveals (who : AccountId) (netuid : Z) (uids_list : list (list nat))
    (values_list salts_list : list (list Z)) (version_keys : list Z) : list Reveal :=
  match uids_list, values_list, salts_list, version_keys with
  | uids :: uids_list, values :: values_list, salt :: salts_list, version_key :: version_keys =>
      mkReveal uids values version_key (hash_reveal lib who netuid uids values salt version_key) ::
      provided_reveals who netuid uids_list values_list salts_list version_keys
  | _, _, _, _ => []
  end.

Definition do_batch_reveal_weights (origin : Origin AccountId) (netuid : Z) (uids_list : list (list nat))
    (values_list salts_list : list (list Z)) (version_keys : list Z) : Call unit :=
  s ← gets id;
  ensure (if_subnet_exist (chain s) netuid) SubnetNotExists;;
  let netuid_index := get_mechanism_storage_index netuid 0 in
  let num_reveals := length uids_list in
  ensure (bool_decide (num_reveals = length values_list) && bool_decide (num_reveals = length salts_list) &&
          bool_decide (num_reveals = length version_keys)) InputLengthsUnequal;;
  who ← ensure_signed origin;
  ensure_null_weight_permit netuid who;;
  ensure (get_commit_reveal_weights_enabled (chain s) netuid) CommitRevealDisabled;;
  try_mutate_commits (netuid_index, who) (fun maybe_commits =>
    commits ← ok_or maybe_commits NoWeightsCommitFound;
    let '(expired_hashes, commits) := pop_expired s netuid commits in
    let reveals := provided_reveals who netuid uids_list values_list salts_list version_keys in
    for_each reveals (check_one_reveal s netuid expired_hashes commits);;
    '(commits, revealed_hashes) ← fold_m reveals (commits, []) (reveal_one origin netuid expired_hashes);
    modify (deposit_event (WeightsBatchRevealed who netuid revealed_hashes));;
    mret (if bool_decide (commits = []) then None else Some commits)).

(** ** Batches *)

(** The result of an item as a value; the item has no storage layer of its own. *)
Definition attempt (m : Call unit) : Call (result unit Error) :=
  fun s => let '(r, s') := m s in (Ok r, s').

Definition run_items (items : list (Z * Call unit)) : Call (list (Z * result unit Error)) :=
  fold_m items [] (fun results item =>
    r ← attempt item.2;
    mret (results ++ [(item.1, r)])).

Definition report_item (completed_with_errors : bool) (res : Z * result unit Error) : Call bool :=
  match res.2 with
  | Ok _ => mret completed_with_errors
  | Err err =>
      (if completed_with_errors then mret () else modify (deposit_event BatchCompletedWithErrors));;
      modify (deposit_event (BatchWeightItemFailed res.1 err));;
      mret true
  end.

Definition do_batch_commit_weights (origin : Origin AccountId) (netuids : list Z)
    (commit_hashes : list Hash) : Call unit :=
  hotkey ← ensure_signed origin;
  ensure (bool_decide (length netuids = length commit_hashes)) InputLengthsUnequal;;
  results ← run_items (zip_with (fun netuid h => (netuid, do_commit_weights origin netuid h))
                         netuids commit_hashes);
  _ ← fold_m results false report_item;
  modify (deposit_event (BatchWeightsCompleted netuids hotkey)).

Definition set_weights_item (origin : Origin AccountId) (netuid : Z) (w : list (nat * Z))
    (version_key : Z) : Call unit :=
  s ← gets id;
  if get_commit_reveal_weights_enabled (chain s) netuid then fail CommitRevealEnabled
  else do_set_weights origin netuid w.*1 w.*2 version_key.

Definition do_batch_set_weights (origin : Origin AccountId) (netuids : list Z)
    (weights : list (list (nat * Z))) (version_keys : list Z) : Call unit :=
  hotkey ← ensure_signed origin;
  ensure (bool_decide (length netuids = length weights) &&
          bool_decide (length netuids = length version_keys)) InputLengthsUnequal;;
  results ← run_items (zip_with (fun nw version_key =>
                                   (nw.1, set_weights_item origin nw.1 nw.2 version_key))
                         (zip netuids weights) version_keys);
  _ ← fold_m results false report_item;
  modify (deposit_event (BatchWeightsCompleted netuids hotkey)).

(** ** The queue of timelocked commits in [Null] mode *)

(** Eligibility, stake, and the uid, of which the smaller wins. *)
Record Priority : Type := mkPriority {
  eligible : bool;
  p_stake : Z;
  p_uid : nat;
}.

Definition priority_lt (a b : Priority) : bool :=
  if bool_decide (eligible a = eligible b) then
    if p_stake a =? p_stake b then (p_uid b <? p_uid a)%nat else p_stake a <? p_stake b
  else eligible b.
Definition priority_le (a b : Priority) : bool := negb (priority_lt b a).

Definition null_commit_priority (w : World) (netuid : Z) (who : AccountId) (owner_uid : option nat)
    : Priority :=
  match uid_of w netuid who with
  | None => mkPriority false 0 (Z.to_nat u16_max)
  | Some uid =>
      let is_owner := bool_decide (owner_uid = Some uid) in
      if negb is_owner && negb (get_validator_permit_for_uid w netuid uid) then mkPriority false 0 uid
      else
        let stake := get_stake_weights_for_hotkey_on_subnet w who netuid in
        let eligible := (0 <? stake) &&
          (is_owner || (StakeThreshold (AccountId := AccountId) w <=? fixed64_to_u64 stake)) in
        mkPriority eligible (if eligible then stake else 0) uid
  end.

Definition payload_len (c : TimelockedCommit) : Z := Z.of_nat (length (ciphertext c)).

Definition get_timelocked (s : State) (index epoch : Z) : list TimelockedCommit :=
  default [] (TimelockedWeightCommits s !! (index, epoch)).

Definition null_queues (s : State) (netuid epoch : Z) : list (Z * list TimelockedCommit) :=
  (fun mechanism =>
     let index := get_mechanism_storage_index netuid (Z.of_nat mechanism) in
     (index, get_timelocked s index epoch)) <$> seq 0 MAX_MECHANISM_COUNT_PER_SUBNET.

(** [usize] is 32 bits wide in the runtime. *)
Definition queue_bytes (queues : list (Z * list TimelockedCommit)) : Z :=
  foldl (fun sum c => saturating_add u32_max sum (payload_len c)) 0 (mjoin queues.*2).
Definition queue_entries (queues : list (Z * list TimelockedCommit)) : Z :=
  foldl (fun sum q => saturating_add u32_max sum (Z.of_nat (length q))) 0 queues.*2.

Definition queue_fits (bytes entries : Z) : bool :=
  (bytes <=? NULL_COMMIT_QUEUE_BYTES) && (entries <=? NULL_COMMIT_QUEUE_COUNT).

(** A row that may have to leave: whose it is, where it is and its length. *)
Record Candidate : Type := mkCandidate {
  c_priority : Priority;
  c_mechanism : nat;
  c_position : nat;
  c_len : Z;
}.

Definition null_candidates (w : World) (netuid : Z) (who' : AccountId) (owner_uid : option nat)
    (incoming : Priority) (queues : list (Z * list TimelockedCommit)) : list Candidate :=
  mjoin (imap (fun mechanism iq =>
    omap (fun pc =>
      let '(position, c) := pc in
      if bool_decide (who c = who') then None
      else
        let priority := null_commit_priority w netuid (who c) owner_uid in
        if priority_lt priority incoming
        then Some (mkCandidate priority mechanism position (payload_len c)) else None)
      (indexed iq.2)) queues).

(** The loop over the candidates, until what is left fits. *)
Fixpoint evict (candidates : list Candidate) (bytes entries : Z) (evicted : list (nat * nat))
    : Z * Z * list (nat * nat) :=
  match candidates with
  | [] => (bytes, entries, evicted)
  | c :: candidates =>
      if queue_fits bytes entries then (bytes, entries, evicted)
      else evict candidates (saturating_sub bytes (c_len c)) (saturating_sub entries 1)
             ((c_mechanism c, c_position c) :: evicted)
  end.

Definition retain_unless (evicted : list (nat * nat)) (mechanism : nat) (queue : list TimelockedCommit)
    : list TimelockedCommit :=
  omap (fun pc => if bool_decide ((mechanism, pc.1) ∈ evicted) then None else Some pc.2) (indexed queue).

Definition store_queue (mecid : Z) (epoch : Z) (evicted : list (nat * nat))
    (miq : nat * (Z * list TimelockedCommit)) (s : State) : State :=
  let '(mechanism, (index, queue)) := miq in
  let queue := retain_unless evicted mechanism queue in
  if bool_decide (mecid = Z.of_nat mechanism) || existsb (fun mp => bool_decide (mp.1 = mechanism)) evicted then
    if bool_decide (queue = []) then set_timelocked (delete (index, epoch)) s
    else set_timelocked <[(index, epoch) := queue]> s
  else s.

Definition enqueue_null_timelock (who' : AccountId) (netuid mecid : Z) (commit : list byte)
    (block epoch reveal_round : Z) : Call unit :=
  s ← gets id;
  payload_limit ← ok_or (checked_div MAX_CRV3_COMMIT_SIZE_BYTES
                           (MechanismCountCurrent (AccountId := AccountId) (chain s) netuid)) InvalidValue;
  ensure (Z.of_nat (length commit) <=? payload_limit) CommitPayloadTooLarge;;
  let queues := null_queues s netuid epoch in
  _ ← ok_or (queues !! Z.to_nat mecid) MechanismDoesNotExist;
  let queues := alter (fun iq => (iq.1, filter (fun c => who c <> who') iq.2 ++
                                          [mkTimelocked who' block commit reveal_round]))
                  (Z.to_nat mecid) queues in
  let bytes := queue_bytes queues in
  let entries := queue_entries queues in
  let '(bytes, entries, evicted) :=
    if queue_fits bytes entries then (bytes, entries, [])
    else
      let owner_uid := get_owner_uid (chain s) netuid in
      let incoming := null_commit_priority (chain s) netuid who' owner_uid in
      let candidates := null_candidates (chain s) netuid who' owner_uid incoming queues in
      evict (sort_by (fun a b => priority_le (c_priority a) (c_priority b)) candidates) bytes entries [] in
  ensure (queue_fits bytes entries) CommitQueueFull;;
  for_each (indexed queues) (fun miq => modify (store_queue mecid epoch evicted miq)).

(** ** Timelocked commits *)

Definition internal_commit_timelocked_weights (origin : Origin AccountId) (netuid mecid : Z)
    (commit : list byte) (reveal_round commit_reveal_version : Z) : Call unit :=
  ensure_mechanism_exists netuid mecid;;
  let netuid_index := get_mechanism_storage_index netuid mecid in
  who' ← ensure_signed origin;
  ensure_null_weight_permit netuid who';;
  s ← gets id;
  ensure (get_commit_reveal_weights_enabled (chain s) netuid) CommitRevealDisabled;;
  ensure (commit_reveal_version =? CommitRevealWeightsVersion (AccountId := AccountId) (chain s))
    IncorrectCommitRevealVersion;;
  ensure (is_hotkey_registered_on_network (chain s) netuid who') HotKeyNotRegisteredInSubNet;;
  let commit_block := now s in
  neuron_uid ← get_uid_for_net_and_hotkey netuid who';
  ensure (check_rate_limit s netuid_index neuron_uid commit_block) CommittingWeightsTooFast;;
  let cur_epoch := current_epoch s netuid in
  let commit_hash := hash_bytes lib commit in
  if bool_decide (get_epoch_consensus (chain s) netuid = Null) then
    enqueue_null_timelock who' netuid mecid commit commit_block cur_epoch reveal_round;;
    modify (deposit_event (TimelockedWeightsCommitted who' netuid_index commit_hash reveal_round));;
    modify (set_last_update_for_uid netuid_index neuron_uid commit_block)
  else
    ensure (Z.of_nat (length commit) <=? YUMA_COMMIT_SIZE_BYTES) CommitPayloadTooLarge;;
    let commits := get_timelocked s netuid_index cur_epoch in
    ensure (Z.of_nat (length (filter (fun c => who c = who') commits)) <? 10) TooManyUnrevealedCommits;;
    modify (deposit_event (TimelockedWeightsCommitted who' netuid_index commit_hash reveal_round));;
    modify (set_last_update_for_uid netuid_index neuron_uid commit_block);;
    modify (set_timelocked <[(netuid_index, cur_epoch) :=
      commits ++ [mkTimelocked who' commit_block commit reveal_round]]>).

Definition do_commit_timelocked_weights (origin : Origin AccountId) (netuid : Z) (commit : list byte)
    (reveal_round commit_reveal_version : Z) : Call unit :=
  internal_commit_timelocked_weights origin netuid 0 commit reveal_round commit_reveal_version.

Definition do_commit_timelocked_mechanism_weights (origin : Origin AccountId) (netuid mecid : Z)
    (commit : list byte) (reveal_round commit_reveal_version : Z) : Call unit :=
  internal_commit_timelocked_weights origin netuid mecid commit reveal_round commit_reveal_version.

(** ** Revealing timelocked commits *)

(** What becomes of an entry of the reveal epoch: it stays until its round is
    known, it is dropped, or its weights are set. *)
Inductive Opened : Type :=
| Unrevealed
| Dropped
| Decoded (uids : list nat) (values : list Z) (version_key : Z).

Definition decode_legacy (decrypted_bytes : list byte) : Opened :=
  match decode_legacy_payload lib decrypted_bytes with
  | Some legacy => Decoded (legacy_uids legacy) (legacy_values legacy) (legacy_version_key legacy)
  | None => Dropped
  end.

(** The new format carries the hotkey, which has to be the committer's. *)
Definition decode_weights (committer : AccountId) (decrypted_bytes : list byte) : Opened :=
  match decode_payload lib decrypted_bytes with
  | Some payload =>
      match decode_account lib (payload_hotkey payload) with
      | Some decoded_hotkey =>
          if bool_decide (decoded_hotkey = committer)
          then Decoded (payload_uids payload) (payload_values payload) (payload_version_key payload)
          else Dropped
      | None => decode_legacy decrypted_bytes
      end
  | None => decode_legacy decrypted_bytes
  end.

Definition open_entry (w : World) (c : TimelockedCommit) : Opened :=
  match pulse_signature (AccountId := AccountId) w (reveal_round c) with
  | None => Unrevealed
  | Some signature =>
      match deserialize_ciphertext lib (ciphertext c) with
      | None => Dropped
      | Some commit =>
          match deserialize_signature lib (strip_0x signature) with
          | None => Dropped
          | Some sig =>
              if negb (header_v_len lib commit =? 32) || negb (header_w_len lib commit =? 32) then Dropped
              else match tld lib commit sig with
                   | None => Dropped
                   | Some decrypted_bytes => decode_weights (who c) decrypted_bytes
                   end
          end
      end
  end.

(** The loop over the entries, with those that stay. *)
Definition reveal_entry (netuid mecid : Z) (unrevealed : list TimelockedCommit) (c : TimelockedCommit)
    : Call (list TimelockedCommit) :=
  s ← gets id;
  match open_entry (chain s) c with
  | Unrevealed => mret (unrevealed ++ [c])
  | Dropped => mret unrevealed
  | Decoded uids values version_key =>
      r ← attempt (do_set_mechanism_weights (Signed (who c)) netuid mecid uids values version_key);
      match r with
      | Err _ => mret unrevealed
      | Ok _ =>
          modify (deposit_event (TimelockedWeightsRevealed (get_mechanism_storage_index netuid mecid) (who c)));;
          mret unrevealed
      end
  end.

(** The keys of the expired epochs of a mechanism are removed. *)
Definition clean_expired (index reveal_epoch : Z) (s : State) : State :=
  set_timelocked (filter (fun kv => ~ (kv.1.1 = index /\ kv.1.2 < reveal_epoch))) s.

Fixpoint reveal_mechanisms (netuid reveal_period cur_epoch : Z) (mecids : list nat) : Call unit :=
  match mecids with
  | [] => mret ()
  | mecid :: mecids =>
      let reveal_epoch := saturating_sub cur_epoch reveal_period in
      let netuid_index := get_mechanism_storage_index netuid (Z.of_nat mecid) in
      modify (clean_expired netuid_index reveal_epoch);;
      if cur_epoch <? reveal_period then mret ()
      else
        entries ← gets (fun s => get_timelocked s netuid_index reveal_epoch);
        modify (set_timelocked (delete (netuid_index, reveal_epoch)));;
        unrevealed ← fold_m entries [] (reveal_entry netuid (Z.of_nat mecid));
        (if bool_decide (unrevealed = []) then mret ()
         else modify (set_timelocked <[(netuid_index, reveal_epoch) := unrevealed]>));;
        reveal_mechanisms netuid reveal_period cur_epoch mecids
  end.

Definition reveal_crv3_commits_for_subnet (netuid : Z) : Call unit :=
  s ← gets id;
  reveal_mechanisms netuid (get_reveal_period s netuid) (current_epoch s netuid)
    (seq 0 (Z.to_nat (MechanismCountCurrent (AccountId := AccountId) (chain s) netuid))).

Definition reveal_crv3_commits : Call unit :=
  s ← gets id;
  let subnets := filter (fun netuid => netuid <> 0)
                   (get_all_subnet_netuids (AccountId := AccountId) (chain s)) in
  let deferred := epochs_deferred_this_block (sched s) subnets (now s) in
  for_each subnets (fun netuid =>
    if bool_decide (netuid ∈ deferred) then mret ()
    else _ ← attempt (reveal_crv3_commits_for_subnet netuid); mret ()).

(** ** The calls and their guard *)

Inductive WeightCall : Type :=
| set_weights (netuid : Z) (dests : list nat) (weights : list Z) (version_key : Z)
| set_mechanism_weights (netuid mecid : Z) (dests : list nat) (weights : list Z) (version_key : Z)
| batch_set_weights (netuids : list Z) (weights : list (list (nat * Z))) (version_keys : list Z)
| commit_weights (netuid : Z) (commit_hash : Hash)
| commit_mechanism_weights (netuid mecid : Z) (commit_hash : Hash)
| batch_commit_weights (netuids : list Z) (commit_hashes : list Hash)
| reveal_weights (netuid : Z) (uids : list nat) (values salt : list Z) (version_key : Z)
| reveal_mechanism_weights (netuid mecid : Z) (uids : list nat) (values salt : list Z) (version_key : Z)
| batch_reveal_weights (netuid : Z) (uids_list : list (list nat)) (values_list salts_list : list (list Z))
    (version_keys : list Z)
| commit_crv3_mechanism_weights (netuid mecid : Z) (commit : list byte) (reveal_round : Z)
| commit_timelocked_weights (netuid : Z) (commit : list byte) (reveal_round commit_reveal_version : Z)
| commit_timelocked_mechanism_weights (netuid mecid : Z) (commit : list byte)
    (reveal_round commit_reveal_version : Z).

Definition dispatch_call (origin : Origin AccountId) (call : WeightCall) : Call unit :=
  match call with
  | set_weights netuid dests weights version_key =>
      s ← gets id;
      if get_commit_reveal_weights_enabled (chain s) netuid then fail CommitRevealEnabled
      else do_set_weights origin netuid dests weights version_key
  | set_mechanism_weights netuid mecid dests weights version_key =>
      s ← gets id;
      if get_commit_reveal_weights_enabled (chain s) netuid then fail CommitRevealEnabled
      else do_set_mechanism_weights origin netuid mecid dests weights version_key
  | batch_set_weights netuids weights version_keys =>
      do_batch_set_weights origin netuids weights version_keys
  | commit_weights netuid commit_hash => do_commit_weights origin netuid commit_hash
  | commit_mechanism_weights netuid mecid commit_hash =>
      do_commit_mechanism_weights origin netuid mecid commit_hash
  | batch_commit_weights netuids commit_hashes => do_batch_commit_weights origin netuids commit_hashes
  | reveal_weights netuid uids values salt version_key =>
      do_reveal_weights origin netuid uids values salt version_key
  | reveal_mechanism_weights netuid mecid uids values salt version_key =>
      do_reveal_mechanism_weights origin netuid mecid uids values salt version_key
  | batch_reveal_weights netuid uids_list values_list salts_list version_keys =>
      do_batch_reveal_weights origin netuid uids_list values_list salts_list version_keys
  | commit_crv3_mechanism_weights netuid mecid commit reveal_round =>
      do_commit_timelocked_mechanism_weights origin netuid mecid commit reveal_round 4
  | commit_timelocked_weights netuid commit reveal_round version =>
      do_commit_timelocked_weights origin netuid commit reveal_round version
  | commit_timelocked_mechanism_weights netuid mecid commit reveal_round version =>
      do_commit_timelocked_mechanism_weights origin netuid mecid commit reveal_round version
  end.

Definition check_input_lengths (call : WeightCall) : Call unit :=
  ensure
    match call with
    | batch_commit_weights netuids commit_hashes => bool_decide (length netuids = length commit_hashes)
    | batch_reveal_weights _ uids_list values_list salts_list version_keys =>
        bool_decide (length uids_list = length values_list) &&
        bool_decide (length uids_list = length salts_list) &&
        bool_decide (length uids_list = length version_keys)
    | batch_set_weights netuids weights version_keys =>
        bool_decide (length netuids = length weights) && bool_decide (length netuids = length version_keys)
    | _ => true
    end InputLengthsUnequal.

Definition check_batch_size (call : WeightCall) : Call unit :=
  s ← gets id;
  let bounded items :=
    ensure (negb ((items =? 0) || (TotalNetworks (AccountId := AccountId) (chain s) <? items)))
      InvalidBatchLength in
  match call with
  | batch_commit_weights netuids _ | batch_set_weights netuids _ _ => bounded (Z.of_nat (length netuids))
  | batch_reveal_weights _ uids_list _ _ _ => bounded (Z.of_nat (length uids_list))
  | _ => mret ()
  end.

Definition ensure_min_stake (who' : AccountId) (netuid : Z) : Call unit :=
  s ← gets id;
  (if bool_decide (get_epoch_consensus (chain s) netuid = Null) then
     uid ← get_uid_for_net_and_hotkey netuid who';
     ensure (get_validator_permit_for_uid (chain s) netuid uid) NeuronNoValidatorPermit
   else mret ());;
  ensure (check_weights_min_stake (chain s) who' netuid) NotEnoughStakeToSetWeights.

Definition check_min_stake (who' : AccountId) (call : WeightCall) : Call unit :=
  match call with
  | commit_weights netuid _ | commit_mechanism_weights netuid _ _ | reveal_weights netuid _ _ _ _
  | reveal_mechanism_weights netuid _ _ _ _ _ | batch_reveal_weights netuid _ _ _ _
  | set_weights netuid _ _ _ | set_mechanism_weights netuid _ _ _ _
  | commit_timelocked_weights netuid _ _ _ | commit_timelocked_mechanism_weights netuid _ _ _ _
  | commit_crv3_mechanism_weights netuid _ _ _ => ensure_min_stake who' netuid
  | batch_commit_weights netuids _ | batch_set_weights netuids _ _ =>
      for_each netuids (ensure_min_stake who')
  end.

Definition find_commit_epoch (commits : list Commit) (h : Hash) : option Z :=
  match position_of h commits with
  | Some (_, c) => Some (commit_epoch c)
  | None => None
  end.

Definition check_reveal (who' : AccountId) (netuid netuid_index : Z) (uids : list nat)
    (values salt : list Z) (version_key : Z) : Call unit :=
  s ← gets id;
  commits ← ok_or (WeightCommits s !! (netuid_index, who')) NoWeightsCommitFound;
  let h := get_commit_hash who' netuid_index uids values salt version_key in
  commit_epoch ← ok_or (find_commit_epoch commits h) NoWeightsCommitFound;
  ensure (is_reveal_block_range s netuid commit_epoch) RevealTooEarly.

Definition check_batch_reveal (who' : AccountId) (netuid : Z) (uids_list : list (list nat))
    (values_list salts_list : list (list Z)) (version_keys : list Z) : Call unit :=
  ensure (bool_decide (length uids_list = length values_list) &&
          bool_decide (length uids_list = length salts_list) &&
          bool_decide (length uids_list = length version_keys)) InputLengthsUnequal;;
  s ← gets id;
  commits ← ok_or (WeightCommits s !! (netuid, who')) NoWeightsCommitFound;
  for_each (provided_reveals who' netuid uids_list values_list salts_list version_keys) (fun r =>
    commit_epoch ← ok_or (find_commit_epoch commits (r_hash r)) NoWeightsCommitFound;
    ensure (is_reveal_block_range s netuid commit_epoch) RevealTooEarly).

Definition check_commit_reveal (who' : AccountId) (call : WeightCall) : Call unit :=
  s ← gets id;
  match call with
  | reveal_weights netuid uids values salt version_key =>
      check_reveal who' netuid netuid uids values salt version_key
  | reveal_mechanism_weights netuid mecid uids values salt version_key =>
      check_reveal who' netuid (get_mechanism_storage_index netuid mecid) uids values salt version_key
  | batch_reveal_weights netuid uids_list values_list salts_list version_keys =>
      check_batch_reveal who' netuid uids_list values_list salts_list version_keys
  | commit_timelocked_weights _ _ reveal_round _ | commit_timelocked_mechanism_weights _ _ _ reveal_round _
  | commit_crv3_mechanism_weights _ _ _ reveal_round =>
      ensure (negb (reveal_round <? LastStoredRound (AccountId := AccountId) (chain s))) InvalidRevealRound
  | set_weights netuid _ _ _ | set_mechanism_weights netuid _ _ _ _ =>
      ensure (negb (get_commit_reveal_weights_enabled (chain s) netuid)) CommitRevealEnabled
  | _ => mret ()
  end.

(** The guard [CheckWeights] before a call: only a signer is checked. *)
Definition check (who' : AccountId) (call : WeightCall) : Call unit :=
  check_input_lengths call;;
  check_batch_size call;;
  check_min_stake who' call;;
  check_commit_reveal who' call.

Definition pre_dispatch (origin : Origin AccountId) (call : WeightCall) : Call unit :=
  match origin with
  | Signed who' => check who' call
  | _ => mret ()
  end.

(** A call from outside: the guard, then the call in a storage layer. *)
Definition submit (origin : Origin AccountId) (call : WeightCall) : Call unit :=
  pre_dispatch origin call;; transactional (dispatch_call origin call).
End weights.
