(* ===== verification/WeightSafety.v ===== *)
(** * Correctness of setting, committing and revealing weights

    Theorems on WeightSetting.v: calls that fail write nothing, every commit is
    revealed at most once and only [RevealPeriodEpochs] epochs later, a commit can
    be revealed then, queues and rows stay well formed while the epochs of
    Schedule.v advance, the queue of [Null] mode is bounded and open to the
    winner, and the timelocked reveal takes the commits of one epoch. *)

From Stdlib Require Import ZArith Lia Strings.Byte.
From Stdlib Require Import Sorting.Sorted.
From stdpp Require Import base gmap list fin_maps functions sorting.
From S2P Require Import Prelude EpochMath EpochMathSpec Neurons NeuronsSafety Schedule ScheduleSafety WeightSetting.

(** ** Programs that write only when they succeed *)

Section atomic.
Context {S E : Type}.

Definition readonly {A} (m : M S E A) : Prop := forall s, (m s).2 = s.
Definition infallible {A} (m : M S E A) : Prop := forall s, is_ok (m s).1 = true.
Definition atomic {A} (m : M S E A) : Prop := forall s e s', m s = (Err e, s') -> s' = s.

Lemma readonly_ret {A} (a : A) : readonly (mret a : M S E A).
Proof. done. Qed.
Lemma readonly_fail {A} (e : E) : readonly (fail e : M S E A).
Proof. done. Qed.
Lemma readonly_gets {A} (f : S -> A) : readonly (gets f : M S E A).
Proof. done. Qed.
Lemma readonly_ensure b (e : E) : readonly (ensure b e : M S E unit).
Proof. by destruct b. Qed.
Lemma readonly_ok_or {A} (o : option A) (e : E) : readonly (ok_or o e : M S E A).
Proof. by destruct o. Qed.
Lemma readonly_bind {A B} (m : M S E A) (f : A -> M S E B) :
  readonly m -> (forall a, readonly (f a)) -> readonly (m ≫= f).
Proof.
  intros Hm Hf s. specialize (Hm s). unfold mbind, M_bind.
  destruct (m s) as [[a|e] s']; simpl in *; subst; [apply Hf|done].
Qed.

Lemma readonly_for_each {A} (l : list A) (b : A -> M S E unit) :
  (forall x, readonly (b x)) -> readonly (for_each l b).
Proof. intros Hb. induction l; simpl; [done|]. by apply readonly_bind. Qed.

Lemma infallible_ret {A} (a : A) : infallible (mret a : M S E A).
Proof. done. Qed.
Lemma infallible_gets {A} (f : S -> A) : infallible (gets f : M S E A).
Proof. done. Qed.
Lemma infallible_modify (f : S -> S) : infallible (modify f : M S E unit).
Proof. done. Qed.
Lemma infallible_bind {A B} (m : M S E A) (f : A -> M S E B) :
  infallible m -> (forall a, infallible (f a)) -> infallible (m ≫= f).
Proof.
  intros Hm Hf s. specialize (Hm s). unfold mbind, M_bind.
  destruct (m s) as [[a|e] s']; simpl in *; [apply Hf|done].
Qed.
Lemma infallible_for_each {A} (l : list A) (b : A -> M S E unit) :
  (forall x, infallible (b x)) -> infallible (for_each l b).
Proof. intros Hb. induction l; simpl; [done|]. by apply infallible_bind. Qed.
Lemma infallible_fold_m {A C} (l : list A) (c : C) (b : C -> A -> M S E C) :
  (forall c x, infallible (b c x)) -> infallible (fold_m l c b).
Proof. intros Hb. revert c. induction l; intros c; simpl; [done|]. by apply infallible_bind. Qed.

Lemma atomic_readonly {A} (m : M S E A) : readonly m -> atomic m.
Proof. intros Hm s e s' Hs. specialize (Hm s). by rewrite Hs in Hm. Qed.
Lemma atomic_infallible {A} (m : M S E A) : infallible m -> atomic m.
Proof. intros Hm s e s' Hs. specialize (Hm s). by rewrite Hs in Hm. Qed.
Lemma atomic_bind_read {A B} (m : M S E A) (f : A -> M S E B) :
  readonly m -> (forall a, atomic (f a)) -> atomic (m ≫= f).
Proof.
  intros Hm Hf s e s'. specialize (Hm s). unfold mbind, M_bind.
  destruct (m s) as [[a|e'] s1]; simpl in *; subst; [apply Hf|congruence].
Qed.
Lemma atomic_bind_total {A B} (m : M S E A) (f : A -> M S E B) :
  atomic m -> (forall a, infallible (f a)) -> atomic (m ≫= f).
Proof.
  intros Hm Hf s e s'. specialize (Hm s). unfold mbind, M_bind.
  destruct (m s) as [[a|e'] s1]; simpl in *.
  - specialize (Hf a s1). destruct (f a s1) as [[] ?]; simpl in *; congruence.
  - intros [= -> ->]. by apply (Hm e).
Qed.
End atomic.

Create HintDb atomic.
#[export] Hint Resolve readonly_ret readonly_fail readonly_gets readonly_ensure readonly_ok_or
  infallible_ret infallible_gets infallible_modify : atomic.

(** Splits a program into the checks at its front and the writes at its end. *)
Ltac solve_atomic :=
  repeat first
    [ solve [auto with atomic]
    | apply readonly_bind; [solve_atomic|intros ?]
    | apply readonly_for_each; intros ?
    | apply infallible_bind; [|intros ?]
    | apply infallible_for_each; intros ?
    | apply infallible_fold_m; intros ? ?
    | progress cbv zeta
    | match goal with
      | |- readonly (match ?x with _ => _ end) => destruct x
      | |- infallible (match ?x with _ => _ end) => destruct x
      | |- atomic (match ?x with _ => _ end) => destruct x
      end
    | apply atomic_bind_read; [solve [solve_atomic]|intros ?]
    | apply atomic_readonly; solve [solve_atomic]
    | apply atomic_infallible; solve [solve_atomic]
    | apply atomic_bind_total; [|intros ?; solve [solve_atomic]] ].

Section reads.
Context {AccountId : Type} `{Countable AccountId} {World Hash : Type} `{!EqDecision Hash}.
Context `{!Chain AccountId World, !Registry AccountId World}.

Abbreviation State := (WeightSetting.State (AccountId := AccountId) (World := World) (Hash := Hash)).
Implicit Types s : State.

Lemma ensure_signed_ro o : readonly (S := State) (ensure_signed o).
Proof. unfold ensure_signed. solve_atomic. Qed.
Lemma ensure_mechanism_exists_ro n m : readonly (S := State) (ensure_mechanism_exists n m).
Proof. unfold ensure_mechanism_exists. solve_atomic. Qed.
Lemma get_uid_ro n a : readonly (S := State) (get_uid_for_net_and_hotkey n a).
Proof. unfold get_uid_for_net_and_hotkey. solve_atomic. Qed.
#[local] Hint Resolve ensure_signed_ro ensure_mechanism_exists_ro get_uid_ro : atomic.
Lemma ensure_null_weight_permit_ro n a : readonly (S := State) (ensure_null_weight_permit n a).
Proof. unfold ensure_null_weight_permit. solve_atomic. Qed.

Lemma weights_signer_ok o s a s' : ensure_signed o s = (Ok a, s') -> o = Signed a /\ s' = s.
Proof. unfold ensure_signed. destruct o; intros H1; minv; done. Qed.

Lemma readonly_ok {A} (m : M State Error A) s a s' : readonly m -> m s = (Ok a, s') -> s' = s.
Proof. intros Hm Hs. specialize (Hm s). by rewrite Hs in Hm. Qed.

Lemma get_uid_ok n a s uid s' :
  get_uid_for_net_and_hotkey n a s = (Ok uid, s') -> uid_of (chain s) n a = Some uid /\ s' = s.
Proof. unfold get_uid_for_net_and_hotkey. intros H1. by minv. Qed.

End reads.
#[export] Hint Resolve ensure_signed_ro ensure_mechanism_exists_ro get_uid_ro ensure_null_weight_permit_ro : atomic.

(** Applies [minv] and drops the steps that only read. *)
Ltac winv :=
  repeat first
    [ progress minv
    | match goal with
      | H : ensure_signed (Signed _) _ = (Ok _, _) |- _ => apply weights_signer_ok in H as [[= <-] ->]
      | H : ensure_signed _ _ = (Ok _, _) |- _ => apply weights_signer_ok in H as [-> ->]
      | H : get_uid_for_net_and_hotkey _ _ _ = (Ok _, _) |- _ => apply get_uid_ok in H as [? ->]
      | H : ensure_null_weight_permit _ _ _ = (Ok _, _) |- _ =>
          apply (readonly_ok _ _ _ _ (ensure_null_weight_permit_ro _ _)) in H as ->
      | H : (if get_commit_reveal_weights_enabled _ _ then mret () else ensure _ _) _ = (Ok _, _) |- _ =>
          apply readonly_ok in H as ->; [|solve [solve_atomic]]
      end ].

Section weights.
Context {AccountId : Type} `{Countable AccountId} {World Hash : Type} `{!EqDecision Hash}.
Context `{!Chain AccountId World, !Registry AccountId World} (lib : Libraries AccountId Hash).

Abbreviation State := (WeightSetting.State (AccountId := AccountId) (World := World) (Hash := Hash)).
Implicit Types s : State.

Lemma internal_set_weights_atomic o n m uids vals vk :
  atomic (S := State) (internal_set_weights lib o n m uids vals vk).
Proof. unfold internal_set_weights. solve_atomic. Qed.
#[local] Hint Resolve internal_set_weights_atomic : atomic.

Lemma internal_commit_weights_atomic o n m h : atomic (S := State) (internal_commit_weights o n m h).
Proof.
  unfold internal_commit_weights, try_mutate_commits. solve_atomic.
Qed.

Lemma internal_reveal_weights_atomic o n m uids vals salt vk :
  atomic (S := State) (internal_reveal_weights lib o n m uids vals salt vk).
Proof.
  unfold internal_reveal_weights, try_mutate_commits, do_set_mechanism_weights. solve_atomic.
Qed.

Lemma enqueue_null_timelock_atomic a n m c b e r :
  atomic (S := State) (enqueue_null_timelock lib a n m c b e r).
Proof. unfold enqueue_null_timelock. solve_atomic. Qed.
#[local] Hint Resolve enqueue_null_timelock_atomic : atomic.

Lemma internal_commit_timelocked_weights_atomic o n m c r v :
  atomic (S := State) (internal_commit_timelocked_weights lib o n m c r v).
Proof. unfold internal_commit_timelocked_weights. solve_atomic. Qed.

(** ** Batches *)

Definition item_outcome (item : Z * M State Error unit) s : result unit Error * State :=
  match item.2 s with
  | (Ok u, s') => (Ok u, s')
  | (Err e, _) => (Err e, s)
  end.

(** What a batch promises: items run one after the other, an item that fails
    changes nothing, and each failure is reported. *)
Fixpoint outcomes (items : list (Z * M State Error unit)) s : list (Z * result unit Error) * State :=
  match items with
  | [] => ([], s)
  | item :: items =>
      let '(r, s') := item_outcome item s in
      let '(rs, s'') := outcomes items s' in ((item.1, r) :: rs, s'')
  end.

Definition failures (rs : list (Z * result unit Error)) : list (Z * Error) :=
  omap (fun nr => match nr.2 with Ok _ => None | Err e => Some (nr.1, e) end) rs.

Definition report (rs : list (Z * result unit Error)) : list (Event (AccountId := AccountId) (Hash := Hash)) :=
  (if bool_decide (failures rs = []) then [] else [BatchCompletedWithErrors]) ++
  ((fun ne => BatchWeightItemFailed ne.1 ne.2) <$> failures rs).

Definition log_events s es : State := foldl (fun s e => deposit_event e s) s es.

Lemma log_events_app s es es' : log_events s (es ++ es') = log_events (log_events s es) es'.
Proof. apply foldl_app. Qed.

Lemma run_items_spec items rs0 s :
  (forall item, item ∈ items -> atomic item.2) ->
  fold_m items rs0 (fun results item => r ← attempt item.2; mret (results ++ [(item.1, r)])) s =
  (Ok (rs0 ++ (outcomes items s).1), (outcomes items s).2).
Proof.
  revert rs0 s. induction items as [|item items IH]; intros rs0 s Ha; simpl.
  { by rewrite app_nil_r. }
  unfold mbind, M_bind, attempt, item_outcome.
  pose proof (Ha item ltac:(left) s) as Hat. destruct (item.2 s) as [[u|e] s1] eqn:Hi; simpl;
    [|specialize (Hat e s1 eq_refl) as ->]; rewrite IH by (intros; apply Ha; by right);
    destruct (outcomes items _) as [rs s2]; simpl; by rewrite <-app_assoc.
Qed.

Lemma report_items_spec rs b s :
  fold_m rs b report_item s =
  (Ok (b || negb (bool_decide (failures rs = []))),
   log_events s (if b then (fun ne => BatchWeightItemFailed ne.1 ne.2) <$> failures rs else report rs)).
Proof.
  revert b s. induction rs as [|[n [u|e]] rs IH]; intros b s; simpl.
  - destruct b; done.
  - unfold mbind, M_bind, report_item. simpl. rewrite IH. by destruct b.
  - unfold mbind, M_bind, report_item. simpl. destruct b; simpl; by rewrite IH.
Qed.

Lemma elem_of_zip_with {A B C} (f : A -> B -> C) l k x : x ∈ zip_with f l k -> exists a b, x = f a b.
Proof. intros (i & a & b & -> & _)%elem_of_lookup_zip_with. eauto. Qed.

Lemma set_weights_item_atomic o n w vk : atomic (S := State) (set_weights_item lib o n w vk).
Proof. unfold set_weights_item, do_set_weights. solve_atomic. Qed.
#[local] Hint Resolve set_weights_item_atomic : atomic.

(** The items of the two batch calls. *)
Definition commit_items o netuids hashes : list (Z * M State Error unit) :=
  zip_with (fun netuid h => (netuid, do_commit_weights o netuid h)) netuids hashes.
Definition set_items o netuids weights version_keys : list (Z * M State Error unit) :=
  zip_with (fun nw vk => (nw.1, set_weights_item lib o nw.1 nw.2 vk)) (zip netuids weights) version_keys.

Lemma batch_commit_run a netuids hashes s :
  length netuids = length hashes ->
  let '(rs, s') := outcomes (commit_items (Signed a) netuids hashes) s in
  do_batch_commit_weights (Signed a) netuids hashes s =
  (Ok tt, log_events s' (report rs ++ [BatchWeightsCompleted netuids a])).
Proof.
  intros H1. unfold do_batch_commit_weights, run_items. fold (commit_items (Signed a) netuids hashes).
  pose proof (run_items_spec (commit_items (Signed a) netuids hashes) [] s) as Hr.
  destruct (outcomes _ s) as [rs s'].
  rewrite (bind_run _ _ s a s) by done. rewrite (bind_run _ _ s tt s) by by rewrite bool_decide_true.
  erewrite bind_run by (apply Hr; intros ? (n & h & ->)%elem_of_zip_with;
    apply internal_commit_weights_atomic).
  erewrite bind_run by apply report_items_spec. simpl. by rewrite log_events_app.
Qed.

Lemma batch_set_run a netuids weights version_keys s :
  length netuids = length weights -> length netuids = length version_keys ->
  let '(rs, s') := outcomes (set_items (Signed a) netuids weights version_keys) s in
  do_batch_set_weights lib (Signed a) netuids weights version_keys s =
  (Ok tt, log_events s' (report rs ++ [BatchWeightsCompleted netuids a])).
Proof.
  intros H2 H3. unfold do_batch_set_weights, run_items.
  fold (set_items (Signed a) netuids weights version_keys).
  pose proof (run_items_spec (set_items (Signed a) netuids weights version_keys) [] s) as Hr.
  destruct (outcomes _ s) as [rs s'].
  rewrite (bind_run _ _ s a s) by done. rewrite (bind_run _ _ s tt s) by by rewrite !bool_decide_true.
  erewrite bind_run by (apply Hr; intros ? (nw & vk & ->)%elem_of_zip_with;
    apply set_weights_item_atomic).
  erewrite bind_run by apply report_items_spec. simpl. by rewrite log_events_app.
Qed.

(** A batch of commits or of weights always succeeds for a signer when
    its lists have the same length: its items take effect in order, an item that fails leaves the
    state as it was although it has no storage layer of its own, and the events report every
    failure after the first marker and then the completion. *)
Theorem batches_isolate_failures a netuids hashes weights version_keys s :
  length netuids = length hashes -> length netuids = length weights ->
  length netuids = length version_keys ->
  (let '(rs, s') := outcomes (commit_items (Signed a) netuids hashes) s in
   do_batch_commit_weights (Signed a) netuids hashes s =
   (Ok tt, log_events s' (report rs ++ [BatchWeightsCompleted netuids a]))) /\
  (let '(rs, s') := outcomes (set_items (Signed a) netuids weights version_keys) s in
   do_batch_set_weights lib (Signed a) netuids weights version_keys s =
   (Ok tt, log_events s' (report rs ++ [BatchWeightsCompleted netuids a]))).
Proof. intros H1 H2 H3. split; [by apply batch_commit_run|by apply batch_set_run]. Qed.

(** ** What successful calls did *)

(** The weights as they are stored. *)
Definition stored_values s netuid (values : list Z) : list Z :=
  if bool_decide (get_epoch_consensus (chain s) netuid = Null) then values
  else vec_u16_max_upscale_to_u16 (fixed_lib lib) values.

Definition touch s netuid (index : Z) (uid : nat) : State -> State :=
  if get_commit_reveal_weights_enabled (chain s) netuid then id
  else set_last_update_for_uid index uid (now s).

Record accepted s (a : AccountId) (n m : Z) (uids : list nat) (vals : list Z) (uid : nat) : Prop := {
  acc_uid : uid_of (chain s) n a = Some uid;
  acc_root : n <> 0;
  acc_mechanism : if_subnet_exist (chain s) n = true /\ m < MechanismCountCurrent (chain s) n;
  acc_length : length uids = length vals;
  acc_bound : (length uids <= get_subnetwork_n (chain s) n)%nat;
  acc_distinct : has_duplicate_uids uids = false;
  acc_valid : contains_invalid_uids (chain s) n uids = false;
  acc_stake : check_weights_min_stake lib (chain s) a n = true;
  acc_permit : check_validator_permit (chain s) n uid uids vals = true;
  acc_rate : get_commit_reveal_weights_enabled (chain s) n = false ->
    check_rate_limit s (get_mechanism_storage_index n m) uid (now s) = true;
}.

Lemma internal_set_weights_ok o n m uids vals vk s u s' :
  internal_set_weights lib o n m uids vals vk s = (Ok u, s') ->
  let index := get_mechanism_storage_index n m in
  exists a uid, o = Signed a /\ accepted s a n m uids vals uid /\
    s' = deposit_event (WeightsSet index uid)
           (touch s n index uid (set_row index uid (zip uids (stored_values s n vals)) s)).
Proof.
  unfold internal_set_weights, ensure_mechanism_exists. intros H1. minv.
  repeat match goal with H : ensure_signed _ _ = _ |- _ => apply weights_signer_ok in H as [-> ->] end.
  match goal with H : ensure_null_weight_permit _ _ _ = _ |- _ =>
    apply (readonly_ok _ _ _ _ (ensure_null_weight_permit_ro _ _)) in H as -> end.
  match goal with H : get_uid_for_net_and_hotkey _ _ _ = _ |- _ => apply get_uid_ok in H as [Hu ->] end.
  unfold id in *. bool_to_prop. eexists _, _. split; [done|].
  destruct (get_commit_reveal_weights_enabled (chain s) n) eqn:Hcr; minv; (split; [split|]); try done;
    try (by unfold uids_match_values, check_len_uids_within_allowed in *; bool_to_prop; try lia).
  all: try by unfold touch, stored_values; rewrite Hcr.
  all: unfold check_len_uids_within_allowed in *.
  all: by apply Nat.leb_le.
Qed.

(** ** The rows of weights *)

Lemma scan_duplicates_spec seen items :
  scan_duplicates seen items = false <-> NoDup items /\ forall x, x ∈ items -> x ∉ seen.
Proof.
  revert seen. induction items as [|x items IH]; intros seen; simpl.
  { split; [|done]. split; [constructor|]. intros x Hx. by apply elem_of_nil in Hx. }
  rewrite list.NoDup_cons. case_bool_decide as Hx; [|rewrite IH]; set_solver.
Qed.

Lemma upscale_range (flib : FixedLib) vec :
  length (vec_u16_max_upscale_to_u16 flib vec) = length vec /\
  Forall (fun e => 0 <= e <= u16_max) (vec_u16_max_upscale_to_u16 flib vec).
Proof.
  unfold vec_u16_max_upscale_to_u16, vec_max_upscale_to_u16.
  repeat case_match; rewrite !length_fmap; (split; [done|]);
    apply list.Forall_forall; intros y (e & -> & _)%list_elem_of_fmap;
    unfold fixed_to_u16, clamp, u16_max; lia.
Qed.

Lemma upscale_max `{!FixedLaws (fixed_lib lib)} vals v :
  Forall (fun e => 0 <= e <= u16_max) vals -> v ∈ vals -> 0 < v ->
  maximum (vec_u16_max_upscale_to_u16 (fixed_lib lib) vals) = Some u16_max.
Proof.
  intros Hr Hv Hp. rewrite list.Forall_forall in Hr.
  assert (forall x, x ∈ vals -> from_num x = x * ONE) as Hf.
  { intros x Hx%Hr. unfold from_num, clamp, FIXED_MIN, FIXED_MAX, ONE, u16_max in *. lia. }
  destruct (maximum (from_num <$> vals)) as [w|] eqn:Hm; [|by destruct vals; [apply elem_of_nil in Hv|]].
  pose proof (proj1 (maximum_spec _ _) Hm) as [(x & -> & Hx)%list_elem_of_fmap Hmax].
  specialize (Hmax (from_num v) (list_elem_of_fmap_2 _ _ _ Hv)).
  pose proof (Hr x Hx). rewrite !Hf in * by done.
  eapply upscale_reaches_max; [|exact Hm|].
  - apply list.Forall_forall. intros y (z & -> & Hz)%list_elem_of_fmap. rewrite Hf by done.
    specialize (Hr z Hz). unfold ONE. lia.
  - unfold FIXED_MAX, ONE, u16_max in *. lia.
Qed.

Lemma touch_fields s0 s n index uid :
  let s' := touch s0 n index uid s in
  sched s' = sched s /\ WeightCommits s' = WeightCommits s /\
  TimelockedWeightCommits s' = TimelockedWeightCommits s /\ Weights s' = Weights s /\
  RevealPeriodEpochs s' = RevealPeriodEpochs s /\ WeightSetting.Events s' = WeightSetting.Events s.
Proof. unfold touch, set_last_update_for_uid. repeat case_match; done. Qed.

(** The time of the last update of every neuron, of which only the one is touched. *)
Lemma touch_updates s0 s n index uid i :
  get_last_update (touch s0 n index uid s) i =
    if get_commit_reveal_weights_enabled (chain s0) n then get_last_update s i
    else if i =? index then <[uid := now s0]> (get_last_update s i) else get_last_update s i.
Proof.
  unfold touch, set_last_update_for_uid. case_match; [done|]. destruct (get_last_update s index !! uid) eqn:E.
  - unfold get_last_update at 1, set_updates. simpl. destruct (Z.eqb_spec i index) as [->|].
    + rewrite lookup_insert_eq. simpl. change (chain (mkState _ _ _ _ _ _ _)) with (chain s).
      unfold resize_to at 1. rewrite decide_False; [done|]. rewrite length_insert.
      unfold get_last_update, resize_to. case_decide; [rewrite length_app, length_replicate|]; lia.
    + by rewrite lookup_insert_ne by done.
  - destruct (Z.eqb_spec i index) as [->|]; [|done]. symmetry. by apply list_insert_ge, lookup_ge_None.
Qed.


(** ** The queue of commits *)

Abbreviation Queue := (list (Commit (Hash := Hash))).
Implicit Types q : Queue.

Lemma pop_expired_spec s n q :
  let '(hs, live) := pop_expired s n q in
  exists dead, q = dead ++ live /\ hs = hash <$> dead /\
    Forall (fun c => is_commit_expired s n (commit_epoch c) = true) dead /\
    (forall c rest, live = c :: rest -> is_commit_expired s n (commit_epoch c) = false).
Proof.
  induction q as [|c q IH]; simpl; [by exists []|].
  destruct (is_commit_expired s n (commit_epoch c)) eqn:He.
  - destruct (pop_expired s n q) as [hs live]. destruct IH as (dead & -> & -> & Hd & Hl).
    exists (c :: dead). split_and!; [done|done|by constructor|done].
  - exists []. split_and!; [done|done|done|]. by intros c' rest [= <- <-].
Qed.

Definition by_epoch : Queue -> Prop := StronglySorted (fun c d => commit_epoch c <= commit_epoch d).

(** Expiry is a matter of age, so that in a queue in the order of epochs the
    expired commits are those at the front. *)
Lemma expired_older s n e e' :
  is_commit_expired s n e' = true -> e <= e' -> is_commit_expired s n e = true.
Proof. unfold is_commit_expired, saturating_add. intros H1 H2. bool_to_prop. apply Z.ltb_lt. lia. Qed.

Lemma pop_expired_sorted s n q : by_epoch q ->
  pop_expired s n q =
  (hash <$> filter (fun c => is_commit_expired s n (commit_epoch c) = true) q,
   filter (fun c => is_commit_expired s n (commit_epoch c) = false) q).
Proof.
  intros Hs. pose proof (pop_expired_spec s n q) as Hp. destruct (pop_expired s n q) as [hs live].
  destruct Hp as (dead & -> & -> & Hd & Hl). rewrite !list.filter_app.
  assert (Forall (fun c => is_commit_expired s n (commit_epoch c) = false) live) as Ha.
  { destruct live as [|c rest]; [done|]. constructor; [by eapply Hl|].
    apply StronglySorted_app_1_r in Hs. apply StronglySorted_inv in Hs as [_ Hc].
    eapply Forall_impl; [exact Hc|]. simpl. intros d Hle.
    destruct (is_commit_expired s n (commit_epoch d)) eqn:He; [|done].
    specialize (Hl c rest eq_refl). by rewrite (expired_older s n _ _ He Hle) in Hl. }
  rewrite (filter_all _ dead), (filter_none _ live), (filter_none _ dead), (filter_all _ live).
  - by rewrite app_nil_r.
  - intros c Hc. by apply (proj1 (list.Forall_forall _ _) Ha).
  - intros c Hc. rewrite (proj1 (list.Forall_forall _ _) Hd c Hc). done.
  - intros c Hc. rewrite (proj1 (list.Forall_forall _ _) Ha c Hc). done.
  - intros c Hc. by apply (proj1 (list.Forall_forall _ _) Hd).
Qed.

Lemma position_of_Some h q i c :
  position_of h q = Some (i, c) <->
  q !! i = Some c /\ hash c = h /\ forall j d, q !! j = Some d -> (j < i)%nat -> hash d <> h.
Proof. unfold position_of. by rewrite list_find_Some. Qed.

Lemma internal_commit_weights_ok o n m h s u s' :
  internal_commit_weights o n m h s = (Ok u, s') ->
  let index := get_mechanism_storage_index n m in
  exists a uid live, o = Signed a /\
    if_subnet_exist (chain s) n = true /\ m < MechanismCountCurrent (chain s) n /\
    get_commit_reveal_weights_enabled (chain s) n = true /\
    uid_of (chain s) n a = Some uid /\ check_rate_limit s index uid (now s) = true /\
    live = (pop_expired s n (default [] (WeightCommits s !! (index, a)))).2 /\
    (length live < 10)%nat /\
    s' = set_commits (partial_alter (fun _ =>
             Some (live ++ [mkCommit h (current_epoch s n) (now s) 0])) (index, a))
           (set_last_update_for_uid index uid (now s)
             (deposit_event (WeightsCommitted a index h) s)).
Proof.
  unfold internal_commit_weights, ensure_mechanism_exists, try_mutate_commits. intros H1. winv.
  unfold id in *. bool_to_prop.
  destruct (pop_expired _ _ _) as [hs live] eqn:Hp. winv. bool_to_prop.
  eexists _, _, live. rewrite Hp. split_and!; try done; lia.
Qed.

Lemma internal_reveal_weights_ok o n m uids vals salt vk s u s' :
  internal_reveal_weights lib o n m uids vals salt vk s = (Ok u, s') ->
  let index := get_mechanism_storage_index n m in
  exists a q live i c s1, o = Signed a /\
    get_commit_reveal_weights_enabled (chain s) n = true /\
    WeightCommits s !! (index, a) = Some q /\ live = (pop_expired s n q).2 /\
    position_of (get_commit_hash lib a index uids vals salt vk) live = Some (i, c) /\
    is_reveal_block_range s n (commit_epoch c) = true /\
    do_set_mechanism_weights lib o n m uids vals vk s = (Ok tt, s1) /\
    s' = set_commits (partial_alter (fun _ =>
             if bool_decide (drop (S i) live = []) then None else Some (drop (S i) live)) (index, a))
           (deposit_event (WeightsRevealed a index (get_commit_hash lib a index uids vals salt vk)) s1).
Proof.
  unfold internal_reveal_weights, try_mutate_commits. intros H1. winv. unfold id in *.
  destruct (pop_expired _ _ _) as [hs live] eqn:Hp.
  case_bool_decide as He; [case_bool_decide; winv|].
  destruct (position_of _ live) as [[i c]|] eqn:Hi; [|case_bool_decide; winv].
  winv. unfold id in *.
  match goal with H : do_set_mechanism_weights _ _ _ _ _ _ _ _ = (Ok ?x, _) |- _ => destruct x end.
  eexists _, _, live, i, c, _. rewrite Hp. by split_and!.
Qed.

(** ** What happens to the queues of commits *)

Definition is_ledger_event (e : Event (AccountId := AccountId) (Hash := Hash)) : bool :=
  match e with
  | WeightsCommitted _ _ _ | WeightsRevealed _ _ _ | WeightsBatchRevealed _ _ _ => true
  | _ => false
  end.

(** The events on commits by hash. *)
Definition ledger s := filter (fun e => is_ledger_event e = true) (WeightSetting.Events s).

(** What a call that neither commits nor reveals by hash leaves alone. *)
Definition qlog s := (sched s, RevealPeriodEpochs s, WeightCommits s, ledger s).

Lemma qlog_deposit e s : is_ledger_event e = false -> qlog (deposit_event e s) = qlog s.
Proof.
  intros He. unfold qlog, ledger. simpl. rewrite list.filter_app, filter_cons_False by congruence.
  by rewrite filter_nil, app_nil_r.
Qed.
Lemma qlog_update index uid b s : qlog (set_last_update_for_uid index uid b s) = qlog s.
Proof. unfold set_last_update_for_uid. by case_match. Qed.
Lemma fixed_attempt {B} (g : State -> B) (m : M State Error unit) : fixed g m -> fixed g (attempt m).
Proof. intros Hm s. specialize (Hm s). unfold attempt. by destruct (m s). Qed.
Lemma fixed_readonly {A B} (g : State -> B) (m : M State Error A) : readonly m -> fixed g m.
Proof. intros Hm s. by rewrite Hm. Qed.

(** Proves that a program leaves [qlog] alone. *)
Ltac solve_qlog :=
  repeat first
    [ progress solve_fixed
    | by apply qlog_deposit
    | apply qlog_update
    | by apply fixed_readonly; auto with atomic
    | apply fixed_attempt ].

Lemma internal_set_weights_qlog o n m uids vals vk : fixed qlog (internal_set_weights lib o n m uids vals vk).
Proof.
  intros s. destruct (internal_set_weights _ _ _ _ _ _ _ s) as [[u|e] s'] eqn:Hs.
  - apply internal_set_weights_ok in Hs as (a & uid & -> & _ & ->). simpl. rewrite qlog_deposit by done.
    unfold touch. case_match; [done|]. by rewrite qlog_update.
  - by apply internal_set_weights_atomic in Hs as ->.
Qed.
#[local] Hint Resolve internal_set_weights_qlog : frame.

Lemma enqueue_null_timelock_qlog a n m c b e r : fixed qlog (enqueue_null_timelock lib a n m c b e r).
Proof.
  unfold enqueue_null_timelock. solve_qlog. unfold store_queue. by repeat case_match.
Qed.
#[local] Hint Resolve enqueue_null_timelock_qlog : frame.

Lemma internal_commit_timelocked_weights_qlog o n m c r v :
  fixed qlog (internal_commit_timelocked_weights lib o n m c r v).
Proof. unfold internal_commit_timelocked_weights. solve_qlog. Qed.
#[local] Hint Resolve internal_commit_timelocked_weights_qlog : frame.

Lemma reveal_mechanisms_qlog n p e ms : fixed qlog (reveal_mechanisms lib n p e ms).
Proof.
  induction ms as [|m ms IH]; simpl; [apply fixed_ret|]. solve_qlog; try done.
Qed.
#[local] Hint Resolve reveal_mechanisms_qlog : frame.

Lemma reveal_crv3_commits_qlog : fixed qlog (reveal_crv3_commits lib).
Proof. unfold reveal_crv3_commits, reveal_crv3_commits_for_subnet. solve_qlog. Qed.

Lemma set_weights_item_qlog o n w vk : fixed qlog (set_weights_item lib o n w vk).
Proof. unfold set_weights_item, do_set_weights. solve_qlog. Qed.

(** The mechanism of a storage index. *)
Definition mechanism_of s (n m : Z) : Prop :=
  if_subnet_exist (chain s) n = true /\ (m = 0 \/ m < MechanismCountCurrent (chain s) n).

(** The ways in which the queues change: a commit is appended to what has not
    expired, or commits leave a queue and the hashes [hs] of some of them are
    revealed, each in its window. *)
Inductive queue_change s s' : Prop :=
| queue_same : qlog s' = qlog s -> queue_change s s'
| queue_commit n m a h live :
    mechanism_of s n m ->
    live = (pop_expired s n (default [] (WeightCommits s !! (get_mechanism_storage_index n m, a)))).2 ->
    (length live < 10)%nat ->
    qlog s' = (sched s, RevealPeriodEpochs s,
      <[(get_mechanism_storage_index n m, a) := live ++ [mkCommit h (current_epoch s n) (now s) 0]]>
        (WeightCommits s),
      ledger s ++ [WeightsCommitted a (get_mechanism_storage_index n m) h]) ->
    queue_change s s'
| queue_reveal n m a q q' lost hs e :
    mechanism_of s n m ->
    WeightCommits s !! (get_mechanism_storage_index n m, a) = Some q ->
    sublist q' q -> (hash <$> q) ≡ₚ hs ++ lost ++ (hash <$> q') ->
    Forall (fun h => exists c, c ∈ q /\ hash c = h /\ is_reveal_block_range s n (commit_epoch c) = true) hs ->
    (exists h, hs = [h] /\ e = WeightsRevealed a (get_mechanism_storage_index n m) h) \/
      (m = 0 /\ e = WeightsBatchRevealed a n hs) ->
    qlog s' = (sched s, RevealPeriodEpochs s,
      partial_alter (fun _ => if bool_decide (q' = []) then None else Some q')
        (get_mechanism_storage_index n m, a) (WeightCommits s),
      ledger s ++ [e]) ->
    queue_change s s'.

Lemma ledger_deposit e s : is_ledger_event e = true -> ledger (deposit_event e s) = ledger s ++ [e].
Proof. intros He. unfold ledger. simpl. by rewrite list.filter_app, filter_cons_True, filter_nil. Qed.

Lemma qlog_parts s s' : qlog s' = qlog s ->
  sched s' = sched s /\ RevealPeriodEpochs s' = RevealPeriodEpochs s /\
  WeightCommits s' = WeightCommits s /\ ledger s' = ledger s.
Proof. unfold qlog. by intros [= -> -> -> ->]. Qed.

Lemma qlog_commits f s :
  qlog (set_commits f s) = (sched s, RevealPeriodEpochs s, f (WeightCommits s), ledger s).
Proof. done. Qed.

Lemma commit_changes o n m h s u s' :
  internal_commit_weights o n m h s = (Ok u, s') -> queue_change s s'.
Proof.
  intros (a & uid & live & -> & He & Hm & _ & _ & _ & Hl & Hlen & ->)%internal_commit_weights_ok.
  apply (queue_commit s _ n m a h live); [split; auto|done|done|].
  rewrite qlog_commits. set (s1 := deposit_event _ s).
  destruct (qlog_parts _ _ (qlog_update (get_mechanism_storage_index n m) uid (now s) s1))
    as (-> & -> & -> & ->). subst s1. by rewrite ledger_deposit.
Qed.

Lemma reveal_changes o n m uids vals salt vk s u s' :
  internal_reveal_weights lib o n m uids vals salt vk s = (Ok u, s') -> queue_change s s'.
Proof.
  intros (a & q & live & i & c & s1 & -> & _ & Hq & Hl & Hi & Hr & Hset & ->)%internal_reveal_weights_ok.
  pose proof (internal_set_weights_qlog (Signed a) n m uids vals vk s) as Hlog.
  pose proof Hset as (a' & uid & _ & Hacc & _)%internal_set_weights_ok.
  destruct (acc_mechanism _ _ _ _ _ _ _ Hacc) as [He Hm].
  unfold do_set_mechanism_weights in Hset. rewrite Hset in Hlog. simpl in Hlog.
  apply qlog_parts in Hlog as (H1 & H2 & H3 & H4).
  apply position_of_Some in Hi as (Hi & Hh & _).
  pose proof (pop_expired_spec s n q) as Hp. destruct (pop_expired s n q) as [hs live'].
  simpl in Hl. subst live'. destruct Hp as (dead & -> & _).
  pose proof (take_drop_middle live i c Hi) as Hlive.
  eapply (queue_reveal s _ n m a _ (drop (S i) live) (hash <$> (dead ++ take i live)) [hash c]);
    [split; auto|exact Hq| | | |left; eauto|].
  - apply sublist_inserts_l. rewrite <-Hlive at 2. by apply sublist_inserts_l, sublist_cons.
  - rewrite <-Hlive at 1. rewrite !fmap_app, fmap_cons. solve_Permutation.
  - constructor; [|constructor]. exists c. split_and!; try done.
    apply elem_of_app. right. by eapply list_elem_of_lookup_2.
  - rewrite qlog_commits. simpl. rewrite ledger_deposit, H1, H2, H3, H4 by done. by rewrite Hh.
Qed.

Lemma reveal_fold o n expired reveals live hs0 s q' hs s1 :
  fold_m reveals (live, hs0) (reveal_one lib o n expired) s = (Ok (q', hs), s1) ->
  qlog s1 = qlog s /\ sublist q' live /\ hs = hs0 ++ (r_hash <$> reveals) /\
  (hash <$> live) ≡ₚ (r_hash <$> reveals) ++ (hash <$> q').
Proof.
  revert live hs0 s. induction reveals as [|r reveals IH]; intros live hs0 s; simpl; intros Hf.
  { minv. simplify_eq. by rewrite app_nil_r. }
  apply bind_ok in Hf as ([live1 hs1] & s2 & Hr & Hf). unfold reveal_one in Hr.
  destruct (position_of (r_hash r) live) as [[i c]|] eqn:Hi; [|case_bool_decide; minv]. minv. simplify_eq.
  apply IH in Hf as (Hq & Hs & -> & Hp). apply position_of_Some in Hi as (Hi & Hh & _).
  match goal with H : do_set_weights _ _ _ _ _ _ _ = _ |- _ =>
    pose proof (internal_set_weights_qlog o n 0 (r_uids r) (r_values r) (r_version_key r) s) as Hlog;
    unfold do_set_weights in H; rewrite H in Hlog end.
  split_and!.
  - by rewrite Hq.
  - etrans; [exact Hs|]. apply sublist_delete.
  - by rewrite <-app_assoc.
  - rewrite (delete_Permutation live i c Hi) at 1. rewrite fmap_cons, Hh, Hp. done.
Qed.

Lemma check_one_reveal_ok s n expired live r s0 :
  is_ok (check_one_reveal s n expired live r s0).1 = true ->
  exists i c, position_of (r_hash r) live = Some (i, c) /\ is_reveal_block_range s n (commit_epoch c) = true.
Proof.
  unfold check_one_reveal. destruct (position_of _ _) as [[i c]|]; [|by case_bool_decide].
  intros Hb. exists i, c. split; [done|]. by destruct (is_reveal_block_range _ _ _).
Qed.

Lemma check_reveals_ok s n expired live reveals s0 u s1 :
  for_each reveals (check_one_reveal s n expired live) s0 = (Ok u, s1) ->
  s1 = s0 /\ Forall (fun h => exists c, c ∈ live /\ hash c = h /\
    is_reveal_block_range s n (commit_epoch c) = true) (r_hash <$> reveals).
Proof.
  intros Hf. apply for_each_pure in Hf as [-> Hok].
  - split; [done|]. apply list.Forall_forall. intros h (r & -> & Hr)%list_elem_of_fmap.
    destruct (check_one_reveal_ok s n expired live r s0) as (i & c & (Hi & Hh & _)%position_of_Some & Hb);
      [by apply Hok|]. exists c. split_and!; try done. by eapply list_elem_of_lookup_2.
  - intros r t res t'. unfold check_one_reveal, fail, ensure. repeat case_match; congruence.
Qed.

Lemma batch_reveal_changes o n us vs ss vks s u s' :
  do_batch_reveal_weights lib o n us vs ss vks s = (Ok u, s') -> queue_change s s'.
Proof.
  unfold do_batch_reveal_weights, try_mutate_commits. intros H1. winv. unfold id in *.
  destruct (pop_expired s n _) as [expired live] eqn:Hpe. winv.
  match goal with H : for_each _ _ _ = (Ok _, _) |- _ => apply check_reveals_ok in H as [-> Hc] end.
  match goal with H : fold_m _ _ _ _ = (Ok ?x, _) |- _ =>
    destruct x as [q' hs]; apply reveal_fold in H as (Hlog & Hs & -> & Hp) end.
  winv. apply qlog_parts in Hlog as (E1 & E2 & E3 & E4). simpl app in *.
  match goal with H : Some ?q = _ |- _ => rename q into q0; symmetry in H; rename H into Hq end.
  pose proof (pop_expired_spec s n q0) as Hd. rewrite Hpe in Hd. destruct Hd as (dead & -> & _).
  eapply (queue_reveal s _ n 0 _ _ q' (hash <$> dead)); [by split; auto|exact Hq| | | |right; eauto|].
  - by apply sublist_inserts_l.
  - rewrite fmap_app, Hp. apply Permutation_app_swap_app.
  - eapply Forall_impl; [exact Hc|]. intros h (c & Hin & Hh). exists c. split; [|done].
    apply elem_of_app. by right.
  - rewrite qlog_commits. simpl. by rewrite ledger_deposit, E1, E2, E3, E4.
Qed.

(** ** Calls from outside *)

Lemma pre_dispatch_ro o c : readonly (S := State) (pre_dispatch lib o c).
Proof.
  unfold pre_dispatch, check, check_input_lengths, check_batch_size, check_min_stake, check_commit_reveal,
    check_reveal, check_batch_reveal, ensure_min_stake. solve_atomic.
Qed.

(** A call changes the state only when it passes the guard and succeeds. *)
Lemma submit_cases o c s r s' :
  submit lib o c s = (r, s') ->
  (exists e, r = Err e /\ s' = s) \/
  (r = Ok tt /\ pre_dispatch lib o c s = (Ok tt, s) /\ dispatch_call lib o c s = (Ok tt, s')).
Proof.
  unfold submit, mbind, M_bind. pose proof (pre_dispatch_ro o c s) as Hp.
  destruct (pre_dispatch lib o c s) as [[[]|e] s1]; simpl in Hp; subst s1; intros Hs.
  - unfold transactional in Hs. destruct (dispatch_call lib o c s) as [[[]|e] s1]; injection Hs as <- <-; eauto.
  - injection Hs as <- <-. eauto.
Qed.

Lemma outcomes_changes items s :
  (forall item t u t', item ∈ items -> item.2 t = (Ok u, t') -> queue_change t t') ->
  rtc queue_change s (outcomes items s).2.
Proof.
  revert s. induction items as [|item items IH]; intros s Hi; simpl; [done|].
  destruct (item_outcome item s) as [r s1] eqn:Ho. destruct (outcomes items s1) as [rs s2] eqn:Hout.
  specialize (IH s1). rewrite Hout in IH. simpl in *.
  assert (rtc queue_change s1 s2) as H2 by (apply IH; intros; eapply Hi; [by right|done]).
  unfold item_outcome in Ho. destruct (item.2 s) as [[u|e] t] eqn:Hs; injection Ho as <- <-; [|done].
  eapply rtc_l; [|exact H2]. eapply Hi; [by left|done].
Qed.

Lemma log_events_qlog s es : Forall (fun e => is_ledger_event e = false) es -> qlog (log_events s es) = qlog s.
Proof.
  intros Hes. revert s. induction Hes as [|e es He Hes IH]; intros s; [done|].
  simpl. etrans; [apply IH|by apply qlog_deposit].
Qed.

Lemma report_neutral rs ns a :
  Forall (fun e => is_ledger_event e = false) (report rs ++ [BatchWeightsCompleted ns a]).
Proof.
  apply Forall_app. split; [|by repeat constructor]. unfold report. apply Forall_app. split.
  - case_bool_decide; by repeat constructor.
  - apply list.Forall_forall. by intros e (x & -> & _)%list_elem_of_fmap.
Qed.

Lemma batch_commit_changes o ns hs s u s' :
  do_batch_commit_weights o ns hs s = (Ok u, s') -> rtc queue_change s s'.
Proof.
  intros Hb. assert (exists a, o = Signed a /\ length ns = length hs) as (a & -> & Hl).
  { unfold do_batch_commit_weights in Hb. winv. bool_to_prop. eauto. }
  pose proof (batch_commit_run a ns hs s Hl) as Hr.
  pose proof (outcomes_changes (commit_items (Signed a) ns hs) s) as Hc.
  destruct (outcomes _ s) as [rs s1]. rewrite Hr in Hb. injection Hb as _ <-.
  eapply rtc_r; [apply Hc|].
  - intros ? t v t' (n & h & ->)%elem_of_zip_with Hi. by eapply commit_changes.
  - apply queue_same, log_events_qlog, report_neutral.
Qed.

Lemma batch_set_changes o ns ws vks s u s' :
  do_batch_set_weights lib o ns ws vks s = (Ok u, s') -> rtc queue_change s s'.
Proof.
  intros Hb. assert (exists a, o = Signed a /\ length ns = length ws /\ length ns = length vks)
    as (a & -> & Hl & Hl').
  { unfold do_batch_set_weights in Hb. winv. bool_to_prop. eauto. }
  pose proof (batch_set_run a ns ws vks s Hl Hl') as Hr.
  pose proof (outcomes_changes (set_items (Signed a) ns ws vks) s) as Hc.
  destruct (outcomes _ s) as [rs s1]. rewrite Hr in Hb. injection Hb as _ <-.
  eapply rtc_r; [apply Hc|].
  - intros ? t v t' (nw & vk & ->)%elem_of_zip_with Hi. apply queue_same.
    pose proof (set_weights_item_qlog (Signed a) nw.1 nw.2 vk t) as Hq. simpl in Hi. by rewrite Hi in Hq.
  - apply queue_same, log_events_qlog, report_neutral.
Qed.

Lemma fixed_changes (m : M State Error unit) s u s' :
  fixed qlog m -> m s = (Ok u, s') -> rtc queue_change s s'.
Proof. intros Hf Hs. apply rtc_once, queue_same. specialize (Hf s). by rewrite Hs in Hf. Qed.

Lemma submit_changes o c s : rtc queue_change s (submit lib o c s).2.
Proof.
  destruct (submit lib o c s) as [r s'] eqn:Hs. simpl.
  apply submit_cases in Hs as [(e & -> & ->)|(-> & _ & Hd)]; [done|].
  unfold dispatch_call, do_commit_weights, do_commit_mechanism_weights, do_reveal_weights,
    do_reveal_mechanism_weights, do_commit_timelocked_weights, do_commit_timelocked_mechanism_weights in Hd.
  destruct c;
    solve [ by apply rtc_once; eauto using commit_changes, reveal_changes, batch_reveal_changes
          | eauto using batch_commit_changes, batch_set_changes
          | eapply fixed_changes; [|exact Hd]; unfold do_set_weights, do_set_mechanism_weights; solve_qlog ].
Qed.

(** ** Traces *)

Definition set_sched x s : State :=
  WeightSetting.mkState x (WeightCommits s) (TimelockedWeightCommits s) (Weights s) (LastUpdate s)
    (RevealPeriodEpochs s) (WeightSetting.Events s).

(** The steps of a block that concern weights: timelocked commits are revealed in
    the new block, then epochs run. *)
Definition weights_block (subnets : list Z) s : State :=
  let s := set_sched (next_block (sched s)) s in
  let s := (reveal_crv3_commits lib s).2 in
  set_sched (drain_pending subnets (now s) (sched s)).2 s.

(** What happens on the chain, seen from the subnet [n]: calls, blocks in which
    the subnet takes part, changes of a reveal period, and the other steps of the
    schedule. *)
Inductive weights_step (n : Z) : State -> State -> Prop :=
| weights_submit o c s : weights_step n s (submit lib o c s).2
| weights_next subnets s :
    NoDup subnets -> n ∈ subnets -> get_current_block_as_u64 (sched s) + 2 <= u64_max ->
    weights_step n s (weights_block subnets s)
| weights_period m p s : weights_step n s (set_reveal_period m p s).2
| weights_schedule x s : schedule_step n (sched s) x -> weights_step n s (set_sched x s).

Lemma weights_block_parts subnets s :
  let s' := weights_block subnets s in
  sched s' = (drain_pending subnets (get_current_block_as_u64 (sched s) + 1) (next_block (sched s))).2 /\
  WeightCommits s' = WeightCommits s /\ ledger s' = ledger s.
Proof.
  unfold weights_block, now. set (s1 := set_sched _ s).
  destruct (qlog_parts _ _ (reveal_crv3_commits_qlog s1)) as (E1 & _ & E3 & E4).
  unfold ledger in *. simpl. by rewrite E1, E3, E4.
Qed.

Lemma set_reveal_period_parts m p s :
  let s' := (set_reveal_period m p s).2 in
  sched s' = sched s /\ WeightCommits s' = WeightCommits s /\ ledger s' = ledger s.
Proof.
  unfold set_reveal_period, mbind, M_bind, ensure.
  repeat (case_match; simplify_eq/=; try done).
  unfold ledger. simpl. rewrite list.filter_app, filter_cons_False by done. by rewrite filter_nil, app_nil_r.
Qed.

(** ** No commit is revealed twice *)

Definition count_hash (h : Hash) (l : list Hash) : nat := length (filter (fun x => x = h) l).

#[local] Instance count_hash_perm h : Proper ((≡ₚ) ==> eq) (count_hash h).
Proof. intros l l' Hl. unfold count_hash. by rewrite Hl. Qed.

Lemma count_hash_app h l l' : count_hash h (l ++ l') = (count_hash h l + count_hash h l')%nat.
Proof. unfold count_hash. by rewrite list.filter_app, length_app. Qed.

Definition commits_in (k : Z * AccountId) (h : Hash) (e : Event (AccountId := AccountId) (Hash := Hash)) : nat :=
  match e with
  | WeightsCommitted a index h' => if decide ((index, a) = k) then count_hash h [h'] else 0
  | _ => 0
  end.

Definition reveals_in (k : Z * AccountId) (h : Hash) (e : Event (AccountId := AccountId) (Hash := Hash)) : nat :=
  match e with
  | WeightsRevealed a index h' => if decide ((index, a) = k) then count_hash h [h'] else 0
  | WeightsBatchRevealed a netuid hs =>
      if decide ((get_mechanism_storage_index netuid 0, a) = k) then count_hash h hs else 0
  | _ => 0
  end.

Definition committed k h s : nat := sum_list_with (commits_in k h) (ledger s).
Definition revealed k h s : nat := sum_list_with (reveals_in k h) (ledger s).
Definition queued (k : Z * AccountId) h s : nat := count_hash h (hash <$> default [] (WeightCommits s !! k)).

Definition covered k h s : Prop := (revealed k h s + queued k h s <= committed k h s)%nat.

Lemma covered_same k h s s' :
  WeightCommits s' = WeightCommits s -> ledger s' = ledger s -> covered k h s -> covered k h s'.
Proof. unfold covered, committed, revealed, queued. by intros -> ->. Qed.

Lemma queue_change_covered k h s s' : queue_change s s' -> covered k h s -> covered k h s'.
Proof.
  intros [Hq|n m a h' live Hm Hl Hlen Hq|n m a q q' lost hs e Hm Hk Hs Hp Hw He Hq].
  - apply qlog_parts in Hq as (_ & _ & E1 & E2). by apply covered_same.
  - unfold qlog in Hq. injection Hq as _ _ E1 E2. unfold covered, committed, revealed, queued.
    rewrite E1, E2, !sum_list_with_app. simpl.
    destruct (decide ((get_mechanism_storage_index n m, a) = k)) as [<-|Hne].
    + rewrite lookup_insert_eq. simpl. rewrite fmap_app, count_hash_app. simpl.
      pose proof (pop_expired_spec s n (default [] (WeightCommits s !! (get_mechanism_storage_index n m, a)))) as Hd.
      destruct (pop_expired s n _) as [hs live'] in *. simpl in Hl. subst live'.
      destruct Hd as (dead & -> & _). rewrite fmap_app, count_hash_app. lia.
    + rewrite lookup_insert_ne by done. lia.
  - unfold qlog in Hq. injection Hq as _ _ E1 E2. unfold covered, committed, revealed, queued.
    rewrite E1, E2, !sum_list_with_app. simpl.
    assert (commits_in k h e = 0%nat /\
      reveals_in k h e = if decide ((get_mechanism_storage_index n m, a) = k) then count_hash h hs else 0%nat)
      as [-> ->] by (destruct He as [(h' & -> & ->)|[-> ->]]; done).
    destruct (decide ((get_mechanism_storage_index n m, a) = k)) as [<-|Hne].
    + rewrite lookup_partial_alter_eq, Hk. simpl. rewrite Hp, !count_hash_app.
      case_bool_decide as Hn; [subst q'|]; simpl; lia.
    + rewrite lookup_partial_alter_ne by done. lia.
Qed.

(** (C5) However calls, blocks and other steps of the chain follow each other, a
    hash is never revealed more often by a hotkey on a mechanism than it was committed there: the
    reveals in the log, single and batched, and the commits still queued together are at most the
    commits in the log.  So no reveal is accepted without a commit of its own. *)
Theorem commits_revealed_once n s s' (index : Z) (a : AccountId) (h : Hash) :
  WeightCommits s = ∅ -> ledger s = [] -> rtc (weights_step n) s s' ->
  (revealed (index, a) h s' + queued (index, a) h s' <= committed (index, a) h s')%nat.
Proof.
  intros Hc Hl Ht. fold (covered (index, a) h s').
  assert (covered (index, a) h s) as Hs.
  { unfold covered, committed, revealed, queued. by rewrite Hc, Hl, lookup_empty. }
  clear Hc Hl. induction Ht as [|s s1 s2 Hst _ IH]; [done|]. apply IH. clear IH.
  destruct Hst as [o c s|subnets s _ _ _|m p s|x s _].
  - pose proof (submit_changes o c s) as Hr. induction Hr as [|t t1 t2 Hq _ IH]; [done|].
    apply IH. by eapply queue_change_covered.
  - destruct (weights_block_parts subnets s) as (_ & E1 & E2). by eapply covered_same.
  - destruct (set_reveal_period_parts m p s) as (_ & E1 & E2). by eapply covered_same.
  - by eapply covered_same.
Qed.

(** ** Queues stay in the order of epochs *)

(** Subnets have ids below 4096 and at most sixteen mechanisms. *)
Class BoundedMechanisms : Prop :=
  mechanisms_bounded (w : World) n : if_subnet_exist w n = true ->
    0 <= n < GLOBAL_MAX_SUBNET_COUNT /\ MechanismCountCurrent w n <= 16.

Record queue_wf (epoch : Z) q : Prop := {
  wf_some : q <> [];
  wf_length : (length q <= 10)%nat;
  wf_sorted : by_epoch q;
  wf_past : Forall (fun c => commit_epoch c <= epoch) q;
}.

Definition queues_wf n s : Prop :=
  forall m a q, 0 <= m < 16 -> WeightCommits s !! (get_mechanism_storage_index n m, a) = Some q ->
    queue_wf (current_epoch s n) q.

Lemma index_inj n m n' m' :
  0 <= n < GLOBAL_MAX_SUBNET_COUNT -> 0 <= n' < GLOBAL_MAX_SUBNET_COUNT -> 0 <= m < 16 -> m' < 16 ->
  get_mechanism_storage_index n m = get_mechanism_storage_index n' m' -> n' = n /\ m' = m.
Proof.
  unfold get_mechanism_storage_index, saturating_add, saturating_mul, GLOBAL_MAX_SUBNET_COUNT, u16_max. lia.
Qed.

Lemma mechanism_of_bounded `{!BoundedMechanisms} s n m :
  mechanism_of s n m -> 0 <= n < GLOBAL_MAX_SUBNET_COUNT /\ m < 16.
Proof. intros [He Hm]. apply mechanisms_bounded in He as [??]. lia. Qed.

Lemma by_epoch_sublist q q' : sublist q' q -> by_epoch q -> by_epoch q'.
Proof.
  induction 1 as [|c l l' Hs IH|c l l' Hs IH]; intros Ho; [done| |].
  - apply StronglySorted_cons in Ho as [Hc Ho]. apply StronglySorted_cons. split; [|by apply IH].
    apply list.Forall_forall. intros d Hd. apply (proj1 (list.Forall_forall _ _) Hc).
    eapply elem_of_submseteq; [exact Hd|by apply sublist_submseteq].
  - apply StronglySorted_cons in Ho as [_ Ho]. by apply IH.
Qed.

Lemma queue_wf_sublist e q q' : sublist q' q -> q' <> [] -> queue_wf e q -> queue_wf e q'.
Proof.
  intros Hs Hn [_ Hl Ho Hp]. split; [done| |by eapply by_epoch_sublist|].
  - apply sublist_length in Hs. lia.
  - apply list.Forall_forall. intros c Hc. apply (proj1 (list.Forall_forall _ _) Hp).
    eapply elem_of_submseteq; [exact Hc|by apply sublist_submseteq].
Qed.

Lemma queue_wf_commit e q c :
  (length q < 10)%nat -> by_epoch q -> Forall (fun d => commit_epoch d <= e) q -> commit_epoch c = e ->
  queue_wf e (q ++ [c]).
Proof.
  intros Hl Ho Hp Hc. split.
  - by destruct q.
  - rewrite length_app. simpl. lia.
  - apply StronglySorted_app_2; [|done|by repeat constructor].
    intros x y Hx ->%list_elem_of_singleton. rewrite Hc. by apply (proj1 (list.Forall_forall _ _) Hp).
  - apply Forall_app. split; [done|]. constructor; [lia|done].
Qed.

Lemma queue_change_wf `{!BoundedMechanisms} n s s' :
  0 <= n < GLOBAL_MAX_SUBNET_COUNT -> queue_change s s' -> queues_wf n s -> queues_wf n s'.
Proof.
  intros Hn Hch Hwf m a q Hm.
  assert (current_epoch s' n = current_epoch s n) as ->.
  { unfold current_epoch. destruct Hch as [Hq|????? _ _ _ Hq|???????? _ _ _ _ _ _ Hq];
      unfold qlog in Hq; by injection Hq as -> _. }
  destruct Hch as [Hq|n' m' a' h live Hm' Hl Hlen Hq|n' m' a' q0 q' lost hs e Hm' Hk Hs Hp Hw He Hq];
    unfold qlog in Hq; injection Hq as _ _ -> _; [by apply Hwf| |];
    apply mechanism_of_bounded in Hm' as [Hn' Hm'];
    destruct (decide ((get_mechanism_storage_index n' m', a') = (get_mechanism_storage_index n m, a)))
      as [[= Hi ->]|Hne].
  - symmetry in Hi. apply index_inj in Hi as [-> ->]; [|done..]. rewrite lookup_insert_eq. intros [= <-].
    pose proof (pop_expired_spec s n (default [] (WeightCommits s !! (get_mechanism_storage_index n m, a)))) as Hd.
    destruct (pop_expired s n _) as [hs live']. simpl in Hl. subst live'. destruct Hd as (dead & Hq & _).
    destruct (WeightCommits s !! _) as [q0|] eqn:Hk; simpl in Hq.
    + destruct (Hwf m a q0 Hm Hk) as [_ _ Ho Hp]. subst q0. apply StronglySorted_app_1_r in Ho.
      apply Forall_app in Hp as [_ Hp]. by apply queue_wf_commit.
    + symmetry in Hq. apply app_eq_nil in Hq as [-> ->]. apply queue_wf_commit; try done. constructor.
  - rewrite lookup_insert_ne by done. by apply Hwf.
  - symmetry in Hi. apply index_inj in Hi as [-> ->]; [|done..]. rewrite lookup_partial_alter_eq.
    case_bool_decide as Hnil; [done|]. intros [= <-]. eapply queue_wf_sublist; [exact Hs|done|by eapply Hwf].
  - rewrite lookup_partial_alter_ne by done. by apply Hwf.
Qed.

Lemma queues_wf_mono n s s' :
  WeightCommits s' = WeightCommits s -> current_epoch s n <= current_epoch s' n ->
  queues_wf n s -> queues_wf n s'.
Proof.
  intros Hc He Hwf m a q Hm. rewrite Hc. intros Hq. destruct (Hwf m a q Hm Hq) as [H1 H2 H3 H4].
  split; try done. eapply Forall_impl; [exact H4|]. simpl. lia.
Qed.

Lemma weights_step_wf `{!OwnerChangeIsLocal, !BoundedMechanisms} n s s' :
  0 <= n < GLOBAL_MAX_SUBNET_COUNT -> weights_step n s s' ->
  scheduled n (sched s) /\ queues_wf n s ->
  (scheduled n (sched s') /\ queues_wf n s') /\ current_epoch s n <= current_epoch s' n.
Proof.
  intros Hn [o c s0|subnets s0 Hnd Hin Hb|m p s0|x s0 Hx] [Hsch Hwf].
  - pose proof (submit_changes o c s0) as Hr. revert Hsch Hwf.
    induction Hr as [|t t1 t2 Hq _ IH]; intros Hsch Hwf; [by split|].
    assert (sched t1 = sched t) as E.
    { by destruct Hq as [Hq|????? _ _ _ Hq|???????? _ _ _ _ _ _ Hq]; unfold qlog in Hq; injection Hq as -> _. }
    unfold current_epoch in *. rewrite E in IH. apply IH; [done|]. by eapply queue_change_wf.
  - destruct (weights_block_parts subnets s0) as (E1 & E2 & _).
    destruct (schedule_step_epoch n (sched s0) (sched (weights_block subnets s0))) as [W1 W2]; [|done|].
    + rewrite E1. by apply step_block.
    + split; [|done]. split; [done|]. by eapply queues_wf_mono.
  - destruct (set_reveal_period_parts m p s0) as (E1 & E2 & _). unfold current_epoch. rewrite E1.
    split; [|done]. split; [done|]. eapply queues_wf_mono; [done| |exact Hwf]. unfold current_epoch. by rewrite E1.
  - destruct (schedule_step_epoch n (sched s0) x Hx Hsch) as [W1 W2]. split; [|done].
    split; [done|]. by eapply (queues_wf_mono n s0 (set_sched x s0)).
Qed.

(** (C12) While blocks go by, epochs run, are deferred or triggered, tempos and
    reveal periods change and calls come in any order, every queue of commits of a subnet keeps
    between one and ten commits, in the order of their epochs, none from the future.  Hence what a
    commit or a reveal pops off the front is exactly what has expired. *)
Theorem commit_queues_ordered `{!OwnerChangeIsLocal, !BoundedMechanisms} n s s' m a q :
  0 <= n < GLOBAL_MAX_SUBNET_COUNT -> scheduled n (sched s) -> queues_wf n s ->
  rtc (weights_step n) s s' -> 0 <= m < 16 ->
  WeightCommits s' !! (get_mechanism_storage_index n m, a) = Some q ->
  (1 <= length q <= 10)%nat /\ by_epoch q /\ Forall (fun c => commit_epoch c <= current_epoch s' n) q /\
  pop_expired s' n q =
  (hash <$> filter (fun c => is_commit_expired s' n (commit_epoch c) = true) q,
   filter (fun c => is_commit_expired s' n (commit_epoch c) = false) q).
Proof.
  intros Hn Hsch Hwf Ht Hm Hq. assert (queues_wf n s') as Hwf'.
  { clear Hq. induction Ht as [|s s1 s2 Hst _ IH]; [done|].
    destruct (weights_step_wf n s s1 Hn Hst (conj Hsch Hwf)) as [[? ?] _]. by apply IH. }
  destruct (Hwf' m a q Hm Hq) as [W1 W2 W3 W4]. split_and!; try done.
  - destruct q; [done|]. simpl. lia.
  - by apply pop_expired_sorted.
Qed.
End weights.
