(* ===== verification/WeightReveal.v ===== *)
(** * Commits can be revealed, and when

    The round trip of WeightSetting.v: what was committed can be revealed
    [RevealPeriodEpochs] epochs later, directly and through the guard of the call
    (with the one case in which the guard stands in the way), the distance between
    two uses of a neuron, and what the timelocked reveal of a subnet does to every
    queue and row. *)

From Stdlib Require Import ZArith Lia Strings.Byte.
From Stdlib Require Import Sorting.Sorted.
From stdpp Require Import base gmap list fin_maps functions sorting.
From S2P Require Import Prelude EpochMath EpochMathSpec Neurons NeuronsSafety Schedule ScheduleSafety WeightSetting WeightSafety.

Section weights.
Context {AccountId : Type} `{Countable AccountId} {World Hash : Type} `{!EqDecision Hash}.
Context `{!Chain AccountId World, !Registry AccountId World} (lib : Libraries AccountId Hash).

Abbreviation State := (WeightSetting.State (AccountId := AccountId) (World := World) (Hash := Hash)).
Implicit Types s : State.
Implicit Types q : list (Commit (Hash := Hash)).

(** ** Revealing what was committed *)

Lemma set_weights_permit a n m uids vals vk s u s' :
  internal_set_weights lib (Signed a) n m uids vals vk s = (Ok u, s') ->
  ensure_null_weight_permit n a s = (Ok tt, s).
Proof.
  unfold internal_set_weights. intros Hs. apply bind_ok in Hs as (a' & s1 & Ha & Hs).
  apply weights_signer_ok in Ha as [[= <-] ->]. apply bind_ok in Hs as ([] & s1 & Hp & _).
  pose proof (ensure_null_weight_permit_ro n a s) as Hr. rewrite Hp in Hr. simpl in Hr. by subst s1.
Qed.

Lemma internal_reveal_weights_run a n m uids vals salt vk s q expired live i c s1 :
  let index := get_mechanism_storage_index n m in
  let h := get_commit_hash lib a index uids vals salt vk in
  get_commit_reveal_weights_enabled (chain s) n = true ->
  WeightCommits s !! (index, a) = Some q -> pop_expired s n q = (expired, live) ->
  position_of h live = Some (i, c) -> is_reveal_block_range s n (commit_epoch c) = true ->
  do_set_mechanism_weights lib (Signed a) n m uids vals vk s = (Ok tt, s1) ->
  internal_reveal_weights lib (Signed a) n m uids vals salt vk s =
  (Ok tt, set_commits (partial_alter (fun _ =>
             if bool_decide (drop (S i) live = []) then None else Some (drop (S i) live)) (index, a))
           (deposit_event (WeightsRevealed a index h) s1)).
Proof.
  intros index h Hcr Hq Hpop Hi Hr Hset.
  pose proof Hset as (a' & uid & _ & Hacc & _)%internal_set_weights_ok.
  destruct (acc_mechanism _ _ _ _ _ _ _ _ Hacc) as [He _].
  unfold internal_reveal_weights, try_mutate_commits. rewrite bind_gets. unfold id.
  rewrite (bind_run _ _ s tt s) by by rewrite He. rewrite (bind_run _ _ s a s) by done.
  rewrite (bind_run _ _ s tt s) by by apply set_weights_permit in Hset.
  rewrite (bind_run _ _ s tt s) by by rewrite Hcr.
  fold index. rewrite bind_gets, Hq. unfold mbind, M_bind. simpl. rewrite Hpop.
  rewrite bool_decide_false by (intros ->; discriminate). fold h. rewrite Hi, Hr. simpl. by rewrite Hset.
Qed.

(** A queue of commits up to the current epoch, [p] epochs later: what has not
    expired is of that epoch. *)
Lemma live_is_current s2 n e q c h :
  by_epoch q -> Forall (fun d => commit_epoch d <= e) q -> c ∈ q -> hash c = h -> commit_epoch c = e ->
  current_epoch s2 n = e + get_reveal_period s2 n -> current_epoch s2 n <= u64_max ->
  exists i d, position_of h (pop_expired s2 n q).2 = Some (i, d) /\
    is_reveal_block_range s2 n (commit_epoch d) = true.
Proof.
  intros Ho Hp Hc Hh He Hcur Hmax. rewrite pop_expired_sorted by done. simpl.
  set (live := filter _ q).
  assert (c ∈ live) as Hin.
  { apply list_elem_of_filter. split; [|done]. unfold is_commit_expired, saturating_add. apply Z.ltb_ge. lia. }
  destruct (position_of h live) as [[i d]|] eqn:Hi.
  - exists i, d. split; [done|]. apply position_of_Some in Hi as (Hi & _ & _).
    apply list_elem_of_lookup_2, list_elem_of_filter in Hi as [Hx Hd].
    pose proof (proj1 (list.Forall_forall _ _) Hp d Hd). simpl in *.
    unfold is_commit_expired, is_reveal_block_range, saturating_add in *. bool_to_prop. apply Z.eqb_eq. lia.
  - unfold position_of in Hi. apply list_find_None in Hi.
    by destruct (proj1 (list.Forall_forall _ _) Hi c Hin).
Qed.

Section roundtrip.
Context (a : AccountId) (n m : Z) (uids : list nat) (vals salt : list Z) (vk : Z) (s s1 s2 s3 : State).
Let index := get_mechanism_storage_index n m.
Let h := get_commit_hash lib a index uids vals salt vk.

(** The queue in the order of epochs, the commit, and its reveal epoch, in which
    weights could be set at once. *)
Context (queue_ok : forall q, WeightCommits s !! (index, a) = Some q ->
  by_epoch q /\ Forall (fun c => commit_epoch c <= current_epoch s n) q).
Context (commit_ok : submit lib (Signed a) (commit_mechanism_weights n m h) s = (Ok tt, s1)).
Context (kept : WeightCommits s2 !! (index, a) = WeightCommits s1 !! (index, a)).
Context (in_window : current_epoch s2 n = current_epoch s n + get_reveal_period s2 n).
Context (no_overflow : current_epoch s2 n <= u64_max).
Context (enabled : get_commit_reveal_weights_enabled (chain s2) n = true).
Context (settable : do_set_mechanism_weights lib (Signed a) n m uids vals vk s2 = (Ok tt, s3)).

Lemma committed_queue : exists q c,
  WeightCommits s2 !! (index, a) = Some (q ++ [c]) /\ hash c = h /\ commit_epoch c = current_epoch s n /\
  sublist q (default [] (WeightCommits s !! (index, a))) /\
  by_epoch (q ++ [c]) /\ Forall (fun d => commit_epoch d <= current_epoch s n) (q ++ [c]).
Proof using commit_ok kept queue_ok.
  apply submit_cases in commit_ok as [(e & [=] & _)|(_ & _ & Hc)]. simpl in Hc.
  apply internal_commit_weights_ok in Hc as (a' & uid & live & [= <-] & _ & _ & _ & _ & _ & Hl & Hlen & ->).
  rewrite kept. simpl. rewrite lookup_partial_alter_eq. fold index in Hl.
  eexists live, _. split; [done|]. split; [done|]. split; [done|].
  pose proof (pop_expired_spec s n (default [] (WeightCommits s !! (index, a)))) as Hd.
  destruct (pop_expired s n _) as [hs live']. simpl in Hl. subst live'. destruct Hd as (dead & Hq & _).
  assert (by_epoch live /\ Forall (fun d => commit_epoch d <= current_epoch s n) live) as [Ho Hp].
  { destruct (WeightCommits s !! (index, a)) as [q|] eqn:Hk; simpl in Hq.
    - destruct (queue_ok q eq_refl) as [Ho Hp]. subst q. split; [by apply StronglySorted_app_1_r in Ho|].
      by apply Forall_app in Hp as [_ ?].
    - symmetry in Hq. apply app_eq_nil in Hq as [_ ->]. split; constructor. }
  destruct (queue_wf_commit (current_epoch s n) live (mkCommit h (current_epoch s n) (now s) 0)) as [_ _ ? ?];
    try done. split; [|done]. rewrite Hq. by apply sublist_inserts_l.
Qed.

Lemma reveal_dispatched : exists s4,
  dispatch_call lib (Signed a) (reveal_mechanism_weights n m uids vals salt vk) s2 = (Ok tt, s4) /\
  Weights s4 = Weights s3.
Proof using All.
  destruct committed_queue as (q & c & Hq & Hh & He & _ & Ho & Hp).
  destruct (live_is_current s2 n (current_epoch s n) (q ++ [c]) c h) as (i & d & Hi & Hr); try done.
  { apply elem_of_app. right. by left. }
  destruct (pop_expired s2 n (q ++ [c])) as [expired live] eqn:Hpop.
  eexists. split; [|shelve]. simpl. eapply internal_reveal_weights_run; done.
  Unshelve. done.
Qed.

Lemma guard_min_stake call u : check_min_stake lib a call = ensure_min_stake lib a n ->
  check_min_stake lib a call s2 = (Ok u, s2).
Proof using settable.
  intros ->. destruct u. unfold ensure_min_stake. rewrite bind_gets. unfold id.
  rewrite (bind_run _ _ s2 tt s2).
  - pose proof settable as (a' & uid & [= <-] & Hacc & _)%internal_set_weights_ok.
    by rewrite (acc_stake _ _ _ _ _ _ _ _ Hacc).
  - apply (set_weights_permit a n m uids vals vk s2 tt s3) in settable. exact settable.
Qed.

(** What the guard says is decided by the first commit with the hash. *)
Lemma guard_of_first q i d r :
  WeightCommits s2 !! (index, a) = Some q -> position_of h q = Some (i, d) ->
  r = (if is_reveal_block_range s2 n (commit_epoch d) then Ok tt else Err RevealTooEarly) ->
  pre_dispatch lib (Signed a) (reveal_mechanism_weights n m uids vals salt vk) s2 = (r, s2).
Proof using settable.
  intros Hq Hi ->. unfold pre_dispatch, check.
  rewrite (bind_run _ _ s2 tt s2) by done. rewrite (bind_run _ _ s2 tt s2) by done.
  rewrite (bind_run _ _ s2 tt s2) by by apply guard_min_stake.
  unfold check_commit_reveal, check_reveal. rewrite !bind_gets. unfold id. fold index.
  rewrite Hq. rewrite (bind_run _ _ s2 q s2) by done. fold h.
  rewrite (bind_run _ _ s2 (commit_epoch d) s2) by by unfold find_commit_epoch; rewrite Hi.
  unfold ensure. by destruct (is_reveal_block_range s2 n (commit_epoch d)).
Qed.

Lemma first_of_hash q d : d ∈ q -> hash d = h -> exists i x, position_of h q = Some (i, x) /\
  (by_epoch q -> commit_epoch x <= commit_epoch d).
Proof using Type.
  intros (j & Hj)%list_elem_of_lookup Hd. destruct (position_of h q) as [[i x]|] eqn:Hi.
  - exists i, x. split; [done|]. intros Ho. apply position_of_Some in Hi as (Hi & _ & Hfirst).
    destruct (decide (j = i)) as [->|Hne]; [by simplify_eq|].
    destruct (decide (j < i)%nat) as [Hlt|]; [by destruct (Hfirst j d Hj Hlt)|].
    rewrite <-(take_drop_middle q i x Hi) in Ho. apply StronglySorted_app_1_r, StronglySorted_cons in Ho as [Hx _].
    apply (proj1 (list.Forall_forall _ _) Hx). apply list_elem_of_lookup. exists (j - S i)%nat.
    rewrite lookup_drop. rewrite <-Hj. f_equal. lia.
  - unfold position_of in Hi. apply list_find_None in Hi.
    by destruct (proj1 (list.Forall_forall _ _) Hi d (list_elem_of_lookup_2 _ _ _ Hj)).
Qed.

(** (C20) What a validator commits it can reveal: when its queue is in the
    order of epochs, the commit went through, the queue was kept and the epoch is exactly the reveal
    period after the commit's, then revealing succeeds whenever setting the same weights would, and
    stores the same rows.  The guard of the call lets it through when no commit of an older epoch in
    the queue has the same hash. *)
Theorem committed_weights_revealed : exists s4,
  dispatch_call lib (Signed a) (reveal_mechanism_weights n m uids vals salt vk) s2 = (Ok tt, s4) /\
  Weights s4 = Weights s3 /\
  ((forall q d, WeightCommits s !! (index, a) = Some q -> d ∈ q -> hash d = h ->
      commit_epoch d = current_epoch s n) ->
   submit lib (Signed a) (reveal_mechanism_weights n m uids vals salt vk) s2 = (Ok tt, s4)).
Proof using All.
  destruct reveal_dispatched as (s4 & Hd & Hw). exists s4. split_and!; try done. intros Hfresh.
  destruct committed_queue as (q & c & Hq & Hh & He & Hs & Ho & Hp).
  destruct (first_of_hash (q ++ [c]) c) as (i & x & Hi & _); [|done|].
  { apply elem_of_app. right. by left. }
  pose proof (guard_of_first _ _ _ _ Hq Hi eq_refl) as Hg.
  assert (commit_epoch x = current_epoch s n) as Hx.
  { apply position_of_Some in Hi as (Hi & Hxh & _).
    apply list_elem_of_lookup_2, elem_of_app in Hi as [Hx|Hx%list_elem_of_singleton]; [|by subst].
    destruct (WeightCommits s !! (index, a)) as [q0|] eqn:Hk; simpl in Hs.
    - apply (Hfresh q0); [done| |done]. eapply elem_of_submseteq; [exact Hx|by apply sublist_submseteq].
    - apply sublist_nil_r in Hs as ->. by apply elem_of_nil in Hx. }
  assert (is_reveal_block_range s2 n (commit_epoch x) = true) as Hr.
  { unfold is_reveal_block_range, saturating_add. rewrite Hx. apply Z.eqb_eq. lia. }
  rewrite Hr in Hg. unfold submit. erewrite bind_run by exact Hg. unfold transactional. by rewrite Hd.
Qed.

(** (C38) The guard looks at the first commit with the given hash, expired or
    not, the call only at those that have not expired: when a commit of an older epoch with the same
    hash was still queued at the time of the commit, the guard refuses the reveal with
    [RevealTooEarly] in the very window in which the call would succeed. *)
Theorem recommitted_hash_blocked (q : list (Commit (Hash := Hash))) (d : Commit) :
  WeightCommits s !! (index, a) = Some q -> d ∈ q -> hash d = h ->
  is_commit_expired s n (commit_epoch d) = false -> commit_epoch d < current_epoch s n ->
  submit lib (Signed a) (reveal_mechanism_weights n m uids vals salt vk) s2 = (Err RevealTooEarly, s2) /\
  exists s4,
    dispatch_call lib (Signed a) (reveal_mechanism_weights n m uids vals salt vk) s2 = (Ok tt, s4).
Proof using All.
  intros Hq Hd Hdh Hlive Hold. destruct reveal_dispatched as (s4 & Hr & _). split; [|by exists s4]. clear Hr s4.
  pose proof (submit_cases _ _ _ _ _ _ commit_ok) as [(e & [=] & _)|(_ & _ & Hc)]. simpl in Hc.
  apply internal_commit_weights_ok in Hc as (a' & uid & live & [= <-] & _ & _ & _ & _ & _ & Hl & _ & Hs1).
  fold index in Hl. rewrite Hq in Hl. simpl in Hl. destruct (queue_ok q Hq) as [Ho Hp].
  rewrite pop_expired_sorted in Hl by done. simpl in Hl.
  set (c := mkCommit h (current_epoch s n) (now s) 0) in *.
  assert (WeightCommits s2 !! (index, a) = Some (live ++ [c])) as Hq2.
  { rewrite kept, Hs1. simpl. by rewrite lookup_partial_alter_eq. }
  destruct (first_of_hash (live ++ [c]) d) as (i & x & Hi & Hx); [|done|].
  { apply elem_of_app. left. subst live. by apply list_elem_of_filter. }
  destruct committed_queue as (q' & c' & Hq' & _ & _ & _ & Ho' & _). rewrite Hq2 in Hq'. injection Hq' as Hq'.
  rewrite <-Hq' in Ho'. specialize (Hx Ho').
  assert (is_reveal_block_range s2 n (commit_epoch x) = false) as Hno.
  { unfold is_reveal_block_range, saturating_add. apply Z.eqb_neq. lia. }
  pose proof (guard_of_first _ _ _ _ Hq2 Hi eq_refl) as Hg. rewrite Hno in Hg.
  unfold submit, mbind, M_bind. by rewrite Hg.
Qed.
End roundtrip.

(** ** The distance between two uses of a neuron *)

(** The calls that count as a use: plain setting does where commit-reveal is off. *)
Inductive neuron_use (a : AccountId) (n m : Z) s : M State Error unit -> Prop :=
| use_commit h : neuron_use a n m s (internal_commit_weights (Signed a) n m h)
| use_timelocked c r v : neuron_use a n m s (internal_commit_timelocked_weights lib (Signed a) n m c r v)
| use_set uids vals vk : get_commit_reveal_weights_enabled (chain s) n = false ->
    neuron_use a n m s (internal_set_weights lib (Signed a) n m uids vals vk).

Lemma set_last_update_ext index uid b (s t : State) :
  LastUpdate s = LastUpdate t -> chain s = chain t ->
  LastUpdate (set_last_update_for_uid index uid b s) = LastUpdate (set_last_update_for_uid index uid b t).
Proof.
  intros E1 E2. unfold set_last_update_for_uid, get_last_update. rewrite E1, E2. case_match; simpl; by rewrite E1.
Qed.

Lemma enqueue_updates a n m c b e r :
  fixed (fun s => (LastUpdate s, sched s)) (enqueue_null_timelock lib a n m c b e r).
Proof. unfold enqueue_null_timelock. solve_fixed. unfold store_queue. by repeat case_match. Qed.

Lemma neuron_use_ok a n m s p u s' :
  neuron_use a n m s p -> p s = (Ok u, s') ->
  let index := get_mechanism_storage_index n m in
  exists uid, uid_of (chain s) n a = Some uid /\ if_subnet_exist (chain s) n = true /\
    m < MechanismCountCurrent (chain s) n /\ check_rate_limit s index uid (now s) = true /\
    LastUpdate s' = LastUpdate (set_last_update_for_uid index uid (now s) s).
Proof.
  intros [h|c r v|uids vals vk Hcr] Hp index.
  - apply internal_commit_weights_ok in Hp as (? & uid & live & [= <-] & ? & ? & _ & ? & ? & _ & _ & ->).
    exists uid. split_and!; try done. by apply set_last_update_ext.
  - unfold internal_commit_timelocked_weights, ensure_mechanism_exists in Hp. winv. unfold id in *. bool_to_prop.
    match goal with H : uid_of _ _ _ = Some ?x |- _ => exists x end. split_and!; try done.
    case_bool_decide; winv; [|by apply set_last_update_ext].
    match goal with H : enqueue_null_timelock _ ?a ?n ?m ?c ?b ?e ?r ?s = _ |- _ =>
      pose proof (enqueue_updates a n m c b e r s) as Hf; rewrite H in Hf; simpl in Hf; injection Hf as E1 E2 end.
    apply set_last_update_ext; [done|]. unfold chain. simpl. by rewrite E2.
  - apply internal_set_weights_ok in Hp as (? & uid & [= <-] & Hacc & ->). exists uid.
    destruct Hacc as [Hu _ [He Hm] _ _ _ _ _ _ Hr]. split_and!; auto.
    simpl. unfold touch. rewrite Hcr. by apply set_last_update_ext.
Qed.

Lemma last_update_written index uid b s :
  (uid < get_subnetwork_n (chain s) (get_netuid index))%nat ->
  exists v, LastUpdate (set_last_update_for_uid index uid b s) !! index = Some v /\ v !! uid = Some b.
Proof.
  intros Hu. unfold set_last_update_for_uid.
  assert (uid < length (get_last_update s index))%nat as Hl.
  { unfold get_last_update, resize_to. case_decide; [rewrite length_app, length_replicate|]; lia. }
  destruct (get_last_update s index !! uid) as [x|] eqn:Hx; [|apply lookup_ge_None in Hx; lia].
  eexists. simpl. rewrite lookup_insert_eq. split; [done|]. by apply list_lookup_insert_eq.
Qed.

(** Between two calls of a neuron on a mechanism that commit weights, by hash
    or timelocked, or set them where commit-reveal is off, at least [WeightsSetRateLimit] blocks pass:
    the first writes its block where the second looks, as long as nothing else writes it. *)
Theorem neuron_uses_spaced `{!BoundedMechanisms} a n m uid p p' s s1 s2 s3 u u' :
  neuron_use a n m s p -> p s = (Ok u, s1) -> neuron_use a n m s2 p' -> p' s2 = (Ok u', s3) ->
  0 <= m -> 0 < now s -> uid_of (chain s) n a = Some uid -> uid_of (chain s2) n a = Some uid ->
  (uid < get_subnetwork_n (chain s) n)%nat ->
  LastUpdate s2 !! get_mechanism_storage_index n m = LastUpdate s1 !! get_mechanism_storage_index n m ->
  WeightsSetRateLimit (chain s2) n <= saturating_sub (now s2) (now s).
Proof.
  intros Hu Hp Hu' Hp' Hm Hnow Huid Huid' Hlt Hsame.
  destruct (neuron_use_ok _ _ _ _ _ _ _ Hu Hp) as (uid1 & E1 & He & Hm1 & _ & Hl).
  destruct (neuron_use_ok _ _ _ _ _ _ _ Hu' Hp') as (uid2 & E2 & He' & Hm2 & Hr & _). simplify_eq.
  destruct (mechanisms_bounded _ _ He) as [Hn Hc]. destruct (mechanisms_bounded _ _ He') as [_ Hc'].
  destruct (mechanism_index_roundtrip n m n m) as [Hg _]; [done|done|lia|lia|].
  destruct (last_update_written (get_mechanism_storage_index n m) uid (now s) s) as (v & Hv & Hvu);
    [by rewrite Hg|].
  assert (get_last_update_for_uid s2 (get_mechanism_storage_index n m) uid = now s) as Hlast.
  { unfold get_last_update_for_uid. rewrite Hsame, Hl, Hv. simpl. by rewrite Hvu. }
  unfold get_netuid in Hg. simpl in Hg.
  unfold check_rate_limit, get_netuid_and_subid in Hr. rewrite Hg, Hlast in Hr.
  repeat (case_match; simplify_eq/=; try done); bool_to_prop; lia.
Qed.

(** ** The timelocked reveal *)

Abbreviation Entries := (list (TimelockedCommit (AccountId := AccountId))).

Definition waits (w : World) (c : TimelockedCommit) : bool :=
  match open_entry lib w c with Unrevealed => true | _ => false end.
Definition waiting (w : World) (entries : Entries) : Entries := filter (fun c => waits w c = true) entries.

(** A row that changed belongs to the author of one of the [entries]. *)
Definition rows_from (n m : Z) (entries : Entries) s s' : Prop :=
  forall index uid, Weights s' !! (index, uid) <> Weights s !! (index, uid) ->
    index = get_mechanism_storage_index n m /\
    exists c uids vals vk, c ∈ entries /\ open_entry lib (chain s) c = Decoded uids vals vk /\
      uid_of (chain s) n (who c) = Some uid /\
      Weights s' !! (index, uid) = Some (zip uids (stored_values lib s n vals)).

(** What a set of weights in the reveal leaves alone. *)
Definition tl_frame s := (sched s, TimelockedWeightCommits s).

Lemma stored_values_ext s s' n vals : chain s' = chain s -> stored_values lib s' n vals = stored_values lib s n vals.
Proof. unfold stored_values. by intros ->. Qed.

Lemma reveal_entry_run n m unrevealed c s :
  exists s', reveal_entry lib n m unrevealed c s =
    (Ok (if waits (chain s) c then unrevealed ++ [c] else unrevealed), s') /\
    tl_frame s' = tl_frame s /\ rows_from n m [c] s s'.
Proof.
  unfold reveal_entry. rewrite bind_gets. unfold id.
  assert (rows_from n m [c] s s) as Hrefl by (intros ? ? []; done).
  destruct (open_entry lib (chain s) c) as [| |uids vals vk] eqn:Ho; unfold waits; rewrite Ho; simpl; [by eauto|by eauto|].
  unfold mbind, M_bind, attempt, do_set_mechanism_weights.
  destruct (internal_set_weights lib (Signed (who c)) n m uids vals vk s) as [[[]|e] s1] eqn:Hset; simpl.
  - apply internal_set_weights_ok in Hset as (a & uid & [= <-] & Hacc & ->).
    eexists. split; [done|]. set (s2 := set_row _ _ _ s).
    destruct (touch_fields s s2 n (get_mechanism_storage_index n m) uid) as (E1 & _ & E3 & E4 & _).
    split; [unfold tl_frame; simpl; by rewrite E1, E3|].
    intros index uid'. simpl. rewrite E4. subst s2. simpl.
    destruct (decide ((get_mechanism_storage_index n m, uid) = (index, uid'))) as [[= <- <-]|Hne].
    + intros _. split; [done|]. exists c, uids, vals, vk. rewrite lookup_insert_eq.
      split_and!; try done; [by left|by apply (acc_uid _ _ _ _ _ _ _ _ Hacc)].
    + by rewrite lookup_insert_ne.
  - apply internal_set_weights_atomic in Hset as ->. by eauto.
Qed.

Lemma rows_from_trans n m e1 e2 s1 s2 s3 :
  chain s2 = chain s1 -> rows_from n m e1 s1 s2 -> rows_from n m e2 s2 s3 -> rows_from n m (e1 ++ e2) s1 s3.
Proof.
  intros Hc H1 H2 index uid Hne.
  destruct (decide (Weights s3 !! (index, uid) = Weights s2 !! (index, uid))) as [E|E].
  - rewrite E in *. destruct (H1 index uid Hne) as (-> & c & uids & vals & vk & Hin & H3).
    split; [done|]. exists c, uids, vals, vk. split; [|done]. apply elem_of_app. by left.
  - destruct (H2 index uid E) as (-> & c & uids & vals & vk & Hin & Ho & Hu & Hw). rewrite Hc in Ho, Hu.
    rewrite (stored_values_ext s1 s2) in Hw by done.
    split; [done|]. exists c, uids, vals, vk. split_and!; try done. apply elem_of_app. by right.
Qed.

Lemma reveal_entries_run n m entries unrevealed s :
  exists s', fold_m entries unrevealed (reveal_entry lib n m) s =
    (Ok (unrevealed ++ waiting (chain s) entries), s') /\
    tl_frame s' = tl_frame s /\ rows_from n m entries s s'.
Proof.
  revert unrevealed s. induction entries as [|c entries IH]; intros unrevealed s.
  { exists s. simpl. unfold waiting. rewrite filter_nil, app_nil_r. split_and!; try done; intros ? ? []; done. }
  destruct (reveal_entry_run n m unrevealed c s) as (s1 & Hr & Hf & Hw). simpl.
  erewrite bind_run by exact Hr.
  destruct (IH (if waits (chain s) c then unrevealed ++ [c] else unrevealed) s1) as (s2 & -> & Hf2 & Hw2).
  assert (chain s1 = chain s) as Hc by (unfold chain; by injection Hf as -> _).
  exists s2. rewrite Hc. split_and!.
  - do 2 f_equal. unfold waiting. rewrite filter_cons. destruct (waits (chain s) c); simpl; [by rewrite <-app_assoc|done].
  - by rewrite Hf2.
  - change (c :: entries) with ([c] ++ entries). by eapply rows_from_trans.
Qed.

(** What becomes of the queue of the epoch [ep] when [re] is the reveal epoch. *)
Definition after_reveal (w : World) (re ep : Z) (o : option Entries) : option Entries :=
  if ep <? re then None
  else if ep =? re then
    let unrevealed := waiting w (default [] o) in
    if bool_decide (unrevealed = []) then None else Some unrevealed
  else o.

Lemma mechanism_index_inj n m m' :
  0 <= n < GLOBAL_MAX_SUBNET_COUNT -> (m < 16)%nat -> (m' < 16)%nat ->
  get_mechanism_storage_index n (Z.of_nat m) = get_mechanism_storage_index n (Z.of_nat m') -> m = m'.
Proof. intros Hn Hm Hm' Hi. apply index_inj in Hi as [_ Hi]; lia. Qed.

Section mechanisms.
Context (n period cur : Z) (n_ok : 0 <= n < GLOBAL_MAX_SUBNET_COUNT).
Let re := saturating_sub cur period.
Abbreviation idx m := (get_mechanism_storage_index n (Z.of_nat m)).

Lemma lookup_clean index s i ep :
  TimelockedWeightCommits (clean_expired index re s) !! (i, ep) =
  if decide (i = index /\ ep < re) then None else TimelockedWeightCommits s !! (i, ep).
Proof using Type.
  unfold clean_expired. simpl. case_decide as Hd.
  - apply map_lookup_filter_None. right. intros q _. simpl. by intros [].
  - destruct (TimelockedWeightCommits s !! (i, ep)) as [q|] eqn:Hq.
    + by apply map_lookup_filter_Some.
    + apply map_lookup_filter_None. by left.
Qed.

(** One mechanism. *)
Lemma reveal_one_mechanism m s :
  exists s1, (forall ms, period <= cur ->
      reveal_mechanisms lib n period cur (m :: ms) s = reveal_mechanisms lib n period cur ms s1) /\
    sched s1 = sched s /\
    (forall i ep, TimelockedWeightCommits s1 !! (i, ep) =
      if decide (i = idx m) then after_reveal (chain s) re ep (TimelockedWeightCommits s !! (i, ep))
      else TimelockedWeightCommits s !! (i, ep)) /\
    rows_from n (Z.of_nat m) (get_timelocked s (idx m) re) s s1.
Proof using n_ok.
  set (s0 := set_timelocked (delete (idx m, re)) (clean_expired (idx m) re s)).
  assert (get_timelocked (clean_expired (idx m) re s) (idx m) re = get_timelocked s (idx m) re) as Hget.
  { unfold get_timelocked. rewrite lookup_clean, decide_False by lia. done. }
  destruct (reveal_entries_run n (Z.of_nat m) (get_timelocked s (idx m) re) [] s0) as (s1 & Hr & Hf & Hw).
  simpl in Hr. unfold tl_frame in Hf. injection Hf as Hsch Htl.
  set (u := waiting (chain s) (get_timelocked s (idx m) re)).
  exists (if bool_decide (u = []) then s1 else set_timelocked <[(idx m, re) := u]> s1). split_and!.
  - intros ms Hle. simpl. fold re. rewrite bind_modify. replace (cur <? period) with false by lia.
    rewrite bind_gets, Hget, bind_modify. fold s0. erewrite bind_run by exact Hr. change (chain s0) with (chain s).
    fold u. by case_bool_decide; [rewrite (bind_run _ _ s1 tt s1)|rewrite bind_modify].
  - by case_bool_decide.
  - intros i ep. assert (forall j ep', TimelockedWeightCommits s1 !! (j, ep') =
      if decide (j = idx m /\ ep' <= re) then None else TimelockedWeightCommits s !! (j, ep')) as Hs1.
    { intros j ep'. rewrite Htl. subst s0. simpl.
      destruct (decide ((idx m, re) = (j, ep'))) as [[= <- <-]|Hne].
      - rewrite lookup_delete_eq, decide_True by lia. done.
      - rewrite lookup_delete_ne by done. pose proof (lookup_clean (idx m) s j ep') as Hc. simpl in Hc. rewrite Hc.
        destruct (decide (j = idx m /\ ep' < re)); [rewrite decide_True by lia; done|].
        rewrite decide_False; [done|]. intros [-> ?]. assert (ep' = re) as -> by lia. done. }
    unfold after_reveal. destruct (decide (i = idx m)) as [->|Hi].
    + destruct (Z.ltb_spec ep re); [|destruct (Z.eqb_spec ep re) as [->|]].
      * case_bool_decide; simpl; [|rewrite lookup_insert_ne by (intros [=]; lia)]; rewrite Hs1, decide_True by lia; done.
      * change (default [] (TimelockedWeightCommits s !! (idx m, re))) with (get_timelocked s (idx m) re). fold u.
        case_bool_decide; simpl; [rewrite Hs1, decide_True by lia; done|by rewrite lookup_insert_eq].
      * case_bool_decide; simpl; [|rewrite lookup_insert_ne by (intros [=]; lia)]; rewrite Hs1, decide_False by lia; done.
    + case_bool_decide; simpl; [|rewrite lookup_insert_ne by congruence]; rewrite Hs1, decide_False by tauto; done.
  - intros index uid. assert (Weights (if bool_decide (u = []) then s1
      else set_timelocked <[(idx m, re) := u]> s1) = Weights s1) as -> by by case_bool_decide.
    intros Hne. by apply Hw.
Qed.

Lemma reveal_mechanisms_run ms s :
  period <= cur -> NoDup ms -> Forall (fun m => m < 16)%nat ms ->
  exists s', reveal_mechanisms lib n period cur ms s = (Ok tt, s') /\ sched s' = sched s /\
    (forall i ep, TimelockedWeightCommits s' !! (i, ep) =
      if decide (i ∈ (fun m => idx m) <$> ms)
      then after_reveal (chain s) re ep (TimelockedWeightCommits s !! (i, ep))
      else TimelockedWeightCommits s !! (i, ep)) /\
    (forall index uid, Weights s' !! (index, uid) <> Weights s !! (index, uid) ->
      exists m c uids vals vk, m ∈ ms /\ index = idx m /\ c ∈ get_timelocked s (idx m) re /\
        open_entry lib (chain s) c = Decoded uids vals vk /\ uid_of (chain s) n (who c) = Some uid /\
        Weights s' !! (index, uid) = Some (zip uids (stored_values lib s n vals))).
Proof using n_ok.
  intros Hle. revert s. induction ms as [|m ms IH]; intros s Hnd Hms.
  { by exists s. }
  apply list.NoDup_cons in Hnd as [Hm Hnd]. apply Forall_cons in Hms as [Hm16 Hms].
  destruct (reveal_one_mechanism m s) as (s1 & Hrun & Hs1 & Ht1 & Hw1). rewrite Hrun by done.
  destruct (IH s1 Hnd Hms) as (s' & Hr & Hs' & Ht & Hw). assert (chain s1 = chain s) as Hc by (unfold chain; by rewrite Hs1).
  assert (forall m', m' ∈ ms -> idx m' <> idx m) as Hne.
  { intros m' Hin Hi. apply mechanism_index_inj in Hi as ->; [done|done| |done]. by apply (proj1 (list.Forall_forall _ _) Hms). }
  exists s'. split_and!; [done|by rewrite Hs'| |].
  - intros i ep. rewrite Ht, Ht1, Hc.
    destruct (decide (i ∈ (fun m => idx m) <$> ms)) as [Hi|Hi].
    + rewrite (decide_True (P := i ∈ (fun m => idx m) <$> m :: ms)) by (rewrite fmap_cons; by right).
      apply list_elem_of_fmap in Hi as (m' & -> & Hin). by rewrite decide_False by auto.
    + rewrite fmap_cons. destruct (decide (i = idx m)) as [->|].
      * by rewrite decide_True by (by left).
      * rewrite decide_False; [done|]. by intros [?|?]%elem_of_cons.
  - intros index uid Hch.
    destruct (decide (Weights s' !! (index, uid) = Weights s1 !! (index, uid))) as [E|E].
    + rewrite E. rewrite E in Hch. destruct (Hw1 index uid Hch) as (-> & c & uids & vals & vk & Hin & Ho).
      exists m, c, uids, vals, vk. split; [by left|]. by split_and!; try apply Ho.
    + destruct (Hw index uid E) as (m' & c & uids & vals & vk & Hin & -> & Hg & Ho & Hu & Hv).
      rewrite Hc in Ho, Hu. rewrite (stored_values_ext s s1) in Hv by done.
      exists m', c, uids, vals, vk. split_and!; try done; [by right|].
      unfold get_timelocked in *. by rewrite Ht1, decide_False in Hg by auto.
Qed.
End mechanisms.

(** (C30) Revealing the timelocked commits of a subnet always succeeds and takes
    exactly those committed [RevealPeriodEpochs] epochs before the epoch at hand.  For each of its
    mechanisms the queues of older epochs are removed, later ones and those of other indices are
    untouched, and of the reveal epoch only the commits whose round is not known yet stay, in their
    order.  A row of weights changes only for the author of such a commit, to what was decrypted. *)
Theorem timelocked_reveal_exact `{!BoundedMechanisms} n s :
  if_subnet_exist (chain s) n = true -> get_reveal_period s n <= current_epoch s n ->
  let re := current_epoch s n - get_reveal_period s n in
  let ms := seq 0 (Z.to_nat (MechanismCountCurrent (chain s) n)) in
  exists s', reveal_crv3_commits_for_subnet lib n s = (Ok tt, s') /\ sched s' = sched s /\
    (forall i ep, TimelockedWeightCommits s' !! (i, ep) =
      if decide (i ∈ (fun m => get_mechanism_storage_index n (Z.of_nat m)) <$> ms)
      then after_reveal (chain s) re ep (TimelockedWeightCommits s !! (i, ep))
      else TimelockedWeightCommits s !! (i, ep)) /\
    (forall index uid, Weights s' !! (index, uid) <> Weights s !! (index, uid) ->
      exists m c uids vals vk, m ∈ ms /\ index = get_mechanism_storage_index n (Z.of_nat m) /\
        c ∈ get_timelocked s index re /\ open_entry lib (chain s) c = Decoded uids vals vk /\
        uid_of (chain s) n (who c) = Some uid /\
        Weights s' !! (index, uid) = Some (zip uids (stored_values lib s n vals))).
Proof.
  intros He Hle. destruct (mechanisms_bounded _ _ He) as [Hn Hc].
  destruct (reveal_mechanisms_run n (get_reveal_period s n) (current_epoch s n) Hn
    (seq 0 (Z.to_nat (MechanismCountCurrent (chain s) n))) s) as (s' & Hr & Hs & Ht & Hw); try done.
  - apply NoDup_seq.
  - apply list.Forall_forall. intros m Hm%elem_of_seq. lia.
  - unfold saturating_sub in Ht, Hw. rewrite Z.max_r in Ht, Hw by lia.
    exists s'. split_and!; try done.
    intros index uid Hch. destruct (Hw index uid Hch) as (m & c & uids & vals & vk & ? & -> & Hrest).
    exists m, c, uids, vals, vk. split_and!; try done; apply Hrest.
Qed.
End weights.
