(* ===== verification/WeightQueue.v ===== *)
(** * The bounded queue of timelocked commits in [Null] mode

    [enqueue_null_timelock] of WeightSetting.v keeps the queues of all mechanisms
    of a subnet and an epoch together within 64 KiB and 64 rows.  When a new row
    does not fit, rows of lower priority leave; the theorems show that the bound
    holds, that nobody else loses a row, and that the winning validator is always
    admitted. *)

From Stdlib Require Import ZArith Lia Strings.Byte.
From Stdlib Require Import Sorting.Sorted.
From stdpp Require Import base gmap list fin_maps functions sorting.
From S2P Require Import Prelude EpochMath EpochMathSpec Neurons NeuronsSafety Schedule ScheduleSafety WeightSetting WeightSafety WeightReveal.

(** ** Lists of queues with their positions *)

Section flat.
Context {A B : Type}.

Fixpoint each_from (f : nat -> list A -> list B) (k : nat) (qs : list (list A)) : list B :=
  match qs with
  | [] => []
  | q :: qs => f k q ++ each_from f (S k) qs
  end.

Lemma join_imap_from (f : nat -> list A -> list B) k qs :
  mjoin (imap (fun m q => f (k + m)%nat q) qs) = each_from f k qs.
Proof.
  revert k. induction qs as [|q qs IH]; intros k; [done|]. rewrite imap_cons. simpl. rewrite Nat.add_0_r.
  f_equal. rewrite <-IH. f_equal. apply imap_ext. intros m q' _. simpl. f_equal. lia.
Qed.

Lemma join_imap (f : nat -> list A -> list B) qs : mjoin (imap f qs) = each_from f 0 qs.
Proof. by rewrite <-join_imap_from. Qed.
End flat.

(** The entries with their keys: the queue and the position in it. *)
Definition flat {A} (qs : list (list A)) : list (nat * nat * A) :=
  each_from (fun m q => imap (fun p c => ((m, p), c)) q) 0 qs.

Section flat.
Context {A : Type}.
Implicit Types qs : list (list A).

Lemma elem_of_flat_from k qs m p c :
  ((m, p), c) ∈ each_from (fun m q => imap (fun p c => ((m, p), c)) q) k qs <->
  exists q, (k <= m)%nat /\ qs !! (m - k)%nat = Some q /\ q !! p = Some c.
Proof.
  revert k. induction qs as [|q qs IH]; intros k; simpl.
  { split; [by intros ?%elem_of_nil|]. by intros (q & _ & ? & _). }
  rewrite elem_of_app, IH. split.
  - intros [(p' & c' & [= -> -> ->] & Hp)%elem_of_lookup_imap|(q' & Hle & Hq & Hp)].
    + exists q. rewrite Nat.sub_diag. split_and!; [lia|done|done].
    + exists q'. split_and!; [lia| |done]. by replace (m - k)%nat with (S (m - S k)) by lia.
  - intros (q' & Hle & Hq & Hp). destruct (decide (m = k)) as [->|].
    + left. rewrite Nat.sub_diag in Hq. injection Hq as <-. apply elem_of_lookup_imap. eauto.
    + right. exists q'. split_and!; [lia| |done]. by replace (m - k)%nat with (S (m - S k)) in Hq by lia.
Qed.

Lemma elem_of_flat qs m p c : ((m, p), c) ∈ flat qs <-> exists q, qs !! m = Some q /\ q !! p = Some c.
Proof.
  unfold flat. rewrite elem_of_flat_from. rewrite Nat.sub_0_r. split; intros (q & Hq); exists q; [tauto|].
  split; [lia|done].
Qed.

Lemma flat_keys_from k qs :
  NoDup (each_from (fun m q => imap (fun p c => ((m, p), c)) q) k qs).*1.
Proof.
  revert k. induction qs as [|q qs IH]; intros k; simpl; [constructor|].
  rewrite fmap_app. apply NoDup_app. split_and!; [| |apply IH].
  - rewrite fmap_imap. simpl. apply NoDup_alt. intros i j [m p] Hi Hj.
    apply list_lookup_imap_Some in Hi as (x & _ & [= <- ->]).
    by apply list_lookup_imap_Some in Hj as (y & _ & [= ->]).
  - intros [m p] Hi Hr. apply list_elem_of_fmap in Hr as ([[m' p'] c] & [= <- <-] & Hr).
    apply elem_of_flat_from in Hr as (_ & Hr & _).
    apply list_elem_of_fmap in Hi as ([x c'] & E & (i & y & E' & _)%elem_of_lookup_imap). simplify_eq/=. lia.
Qed.

Lemma flat_keys qs : NoDup (flat qs).*1.
Proof. apply flat_keys_from. Qed.

Lemma flat_values_from k qs :
  (each_from (fun m q => imap (fun p c => ((m, p), c)) q) k qs).*2 = mjoin qs.
Proof.
  revert k. induction qs as [|q qs IH]; intros k; simpl; [done|]. rewrite fmap_app, IH. f_equal.
  rewrite fmap_imap. etrans; [exact (imap_const id q)|apply list_fmap_id].
Qed.

Lemma flat_values qs : (flat qs).*2 = mjoin qs.
Proof. apply flat_values_from. Qed.
End flat.

Lemma indexed_values {A} (l : list A) : (indexed l).*2 = l.
Proof. unfold indexed. rewrite fmap_imap. etrans; [exact (imap_const id l)|apply list_fmap_id]. Qed.

(** ** Sums *)

Lemma total_app l l' : total (l ++ l') = total l + total l'.
Proof. induction l; simpl; lia. Qed.

Lemma total_perm l l' : l ≡ₚ l' -> total l = total l'.
Proof. induction 1; simpl; lia. Qed.

Lemma total_partition {A} (w : A -> Z) (P : A -> Prop) `{!forall x, Decision (P x)} (l : list A) :
  total (w <$> filter P l) + total (w <$> filter (fun x => ~ P x) l) = total (w <$> l).
Proof.
  induction l as [|x l IH]; [done|]. rewrite fmap_cons. cbn [foldr]. destruct (decide (P x)) as [Hx|Hx].
  - rewrite filter_cons_True, filter_cons_False, fmap_cons by tauto. cbn [foldr]. lia.
  - rewrite filter_cons_False, filter_cons_True, fmap_cons by tauto. cbn [foldr]. lia.
Qed.

Lemma total_filter_impl {A} (w : A -> Z) (P R : A -> Prop) `{!forall x, Decision (P x), !forall x, Decision (R x)}
    (l : list A) :
  (forall x, 0 <= w x) -> (forall x, x ∈ l -> P x -> R x) -> total (w <$> filter P l) <= total (w <$> filter R l).
Proof.
  intros Hw. induction l as [|x l IH]; intros Hi; [done|].
  assert (total (w <$> filter P l) <= total (w <$> filter R l)) by (apply IH; intros; apply Hi; [by right|done]).
  pose proof (Hw x). destruct (decide (P x)) as [Hx|Hx].
  - rewrite !filter_cons_True by (try apply Hi; try left; done). rewrite !fmap_cons. cbn [foldr]. lia.
  - rewrite (filter_cons_False P) by done. destruct (decide (R x));
      [rewrite filter_cons_True, fmap_cons by done; cbn [foldr]; lia|by rewrite filter_cons_False].
Qed.

Lemma total_filter_le {A} (w : A -> Z) (P : A -> Prop) `{!forall x, Decision (P x)} (l : list A) :
  (forall x, 0 <= w x) -> total (w <$> filter P l) <= total (w <$> l).
Proof.
  intros Hw. rewrite <-(total_partition w P l).
  assert (0 <= total (w <$> filter (fun x => ~ P x) l)); [|lia].
  apply total_nonneg, list.Forall_forall. intros x (y & -> & _)%list_elem_of_fmap. apply Hw.
Qed.

Lemma foldl_saturating {A} (w : A -> Z) max z (l : list A) :
  0 <= z <= max -> (forall x, x ∈ l -> 0 <= w x) ->
  foldl (fun sum x => saturating_add max sum (w x)) z l = Z.min max (z + total (w <$> l)).
Proof.
  revert z. induction l as [|x l IH]; intros z Hz Hw; [simpl; lia|].
  rewrite fmap_cons. cbn [foldl foldr]. assert (0 <= w x) by (apply Hw; by left).
  assert (0 <= total (w <$> l)).
  { apply total_nonneg, list.Forall_forall. intros y (x' & -> & Hx')%list_elem_of_fmap. apply Hw. by right. }
  rewrite IH; [|unfold saturating_add; lia|intros; apply Hw; by right]. unfold saturating_add. lia.
Qed.

Lemma omap_each_from {A B C} (g : B -> option C) (f : nat -> list A -> list B) k qs :
  omap g (each_from f k qs) = each_from (fun m q => omap g (f m q)) k qs.
Proof. revert k. induction qs as [|q qs IH]; intros k; simpl; [done|]. by rewrite omap_app, IH. Qed.

Lemma each_from_ext {A B} (f g : nat -> list A -> list B) k qs :
  (forall m q, f m q = g m q) -> each_from f k qs = each_from g k qs.
Proof. intros Hfg. revert k. induction qs as [|q qs IH]; intros k; simpl; [done|]. by rewrite Hfg, IH. Qed.

Lemma omap_pointwise {A B} (f g : A -> option B) (l : list A) : (forall x, f x = g x) -> omap f l = omap g l.
Proof. intros Hfg. induction l as [|x l IH]; [done|]. cbn. by rewrite Hfg, IH. Qed.

(** A pass over all queues with positions is a pass over the flat list. *)
Lemma join_omap_indexed {A C} (g : nat * nat * A -> option C) (qs : list (list A)) :
  mjoin (imap (fun m q => omap (fun pc => g ((m, pc.1), pc.2)) (indexed q)) qs) = omap g (flat qs).
Proof.
  rewrite (join_imap (fun m q => omap (fun pc => g ((m, pc.1), pc.2)) (indexed q))).
  unfold flat. rewrite omap_each_from. apply each_from_ext. intros m q.
  replace (imap (fun p c => ((m, p), c)) q) with ((fun pc => ((m, pc.1), pc.2)) <$> indexed q).
  - by rewrite omap_fmap.
  - unfold indexed. by rewrite fmap_imap.
Qed.

Section queue.
Context {AccountId : Type} `{Countable AccountId} {World Hash : Type} `{!EqDecision Hash}.
Context `{!Chain AccountId World, !Registry AccountId World} (lib : Libraries AccountId Hash).

Abbreviation State := (WeightSetting.State (AccountId := AccountId) (World := World) (Hash := Hash)).
Abbreviation Entry := (TimelockedCommit (AccountId := AccountId)).
Implicit Types s : State.
Implicit Types queues : list (Z * list Entry).

Definition ckey (c : Candidate) : nat * nat := (c_mechanism c, c_position c).

Lemma evict_spec cands b e ev :
  nonnegs (c_len <$> cands) -> total (c_len <$> cands) <= b -> Z.of_nat (length cands) <= e ->
  exists gone rest, cands = gone ++ rest /\
    let b' := b - total (c_len <$> gone) in let e' := e - Z.of_nat (length gone) in
    evict cands b e ev = (b', e', rev (ckey <$> gone) ++ ev) /\ (queue_fits b' e' = true \/ rest = []).
Proof.
  revert b e ev. induction cands as [|c cands IH]; intros b e ev Hn Hb He.
  { exists [], []. simpl. split; [done|]. rewrite !Z.sub_0_r. auto. }
  rewrite fmap_cons in Hn, Hb. cbn [foldr] in Hb. apply Forall_cons in Hn as [Hc Hn].
  pose proof (total_nonneg _ Hn). simpl in He. cbn [evict]. destruct (queue_fits b e) eqn:Hf.
  { exists [], (c :: cands). simpl. rewrite !Z.sub_0_r. auto. }
  unfold saturating_sub. rewrite !Z.max_r by lia.
  destruct (IH (b - c_len c) (e - 1) (ckey c :: ev)) as (gone & rest & -> & Hev & Hfit); [done|lia|lia|].
  exists (c :: gone), rest. split; [done|]. cbv zeta in *. rewrite fmap_cons. cbn [foldr length].
  replace (b - (c_len c + total (c_len <$> gone))) with (b - c_len c - total (c_len <$> gone)) by lia.
  replace (e - Z.of_nat (S (length gone))) with (e - 1 - Z.of_nat (length gone)) by lia.
  split; [|done]. fold (ckey c). rewrite Hev. cbn [fmap list_fmap rev]. by rewrite <-app_assoc.
Qed.

(** The candidate that an entry of another hotkey with lower priority is. *)
Definition candidate_of (w : World) n (a : AccountId) ow inc (x : nat * nat * Entry) : option Candidate :=
  if bool_decide (who x.2 = a) then None
  else
    let priority := null_commit_priority lib w n (who x.2) ow in
    if priority_lt priority inc
    then Some (mkCandidate priority x.1.1 x.1.2 (payload_len x.2)) else None.

Lemma null_candidates_flat w n a ow inc queues :
  null_candidates lib w n a ow inc queues = omap (candidate_of w n a ow inc) (flat queues.*2).
Proof.
  rewrite <-join_omap_indexed. unfold null_candidates. f_equal. rewrite imap_fmap. apply imap_ext.
  intros m iq _. simpl. apply omap_pointwise. by intros [p c].
Qed.

Definition kept_flat (ev : list (nat * nat)) queues : list (nat * nat * Entry) :=
  filter (fun x => x.1 ∉ ev) (flat queues.*2).

Lemma retained_flat ev queues :
  mjoin (imap (fun m iq => retain_unless ev m iq.2) queues) = (kept_flat ev queues).*2.
Proof.
  transitivity (omap (fun x => if bool_decide (x.1 ∈ ev) then None else Some x.2) (flat queues.*2)).
  - rewrite <-join_omap_indexed. f_equal. rewrite imap_fmap. apply imap_ext. by intros.
  - unfold kept_flat. induction (flat queues.*2) as [|x l IH]; [done|]. rewrite filter_cons.
    case_decide as Hx; cbn [omap list_omap]; rewrite IH; [by rewrite bool_decide_false|].
    by rewrite bool_decide_true.
Qed.

Lemma NoDup_keys_inj {K V} (l : list (K * V)) x y : NoDup l.*1 -> x ∈ l -> y ∈ l -> x.1 = y.1 -> x = y.
Proof.
  intros Hn (i & Hi)%list_elem_of_lookup (j & Hj)%list_elem_of_lookup Hk.
  assert (i = j) as ->; [|congruence]. eapply (NoDup_lookup l.*1); [done| |];
    rewrite list_lookup_fmap; [by rewrite Hi|by rewrite Hj, Hk].
Qed.

Section eviction.
Context (w : World) (n : Z) (a : AccountId) (ow : option nat) (inc : Priority) (queues : list (Z * list Entry)).
Abbreviation all := (flat queues.*2).
Abbreviation weight x := (payload_len (snd x)).

Lemma candidate_of_Some x c : candidate_of w n a ow inc x = Some c ->
  ckey c = x.1 /\ c_len c = weight x /\ who x.2 <> a /\
  priority_lt (null_commit_priority lib w n (who x.2) ow) inc = true.
Proof.
  unfold candidate_of. case_bool_decide; [done|]. destruct (priority_lt _ _) eqn:Hp; [|done].
  intros [= <-]. simpl. split_and!; try done. by destruct x as [[]].
Qed.

Lemma candidate_keys : NoDup (ckey <$> omap (candidate_of w n a ow inc) all).
Proof.
  eapply sublist_NoDup; [apply (flat_keys queues.*2)|].
  induction all as [|x l IH]; [done|]. rewrite fmap_cons. cbn [omap list_omap].
  destruct (candidate_of w n a ow inc x) as [c|] eqn:Hc; [|by apply sublist_cons].
  apply candidate_of_Some in Hc as (Hk & _). rewrite fmap_cons, Hk. by apply sublist_skip.
Qed.

(** The rows that left, of a list [gone] of candidates. *)
Lemma evicted_rows gone rest (ev : list (nat * nat)) :
  gone ++ rest ≡ₚ omap (candidate_of w n a ow inc) all -> (forall k, k ∈ ev <-> k ∈ ckey <$> gone) ->
  ((fun x => (x.1, weight x)) <$> filter (fun x => x.1 ∈ ev) all) ≡ₚ ((fun c => (ckey c, c_len c)) <$> gone).
Proof.
  intros Hp Hev.
  assert (forall c, c ∈ gone -> exists x, x ∈ all /\ candidate_of w n a ow inc x = Some c) as Hsrc.
  { intros c Hc. apply list_elem_of_omap. rewrite <-Hp. apply elem_of_app. by left. }
  apply NoDup_Permutation.
  - apply (NoDup_fmap_1 fst). rewrite <-list_fmap_compose. eapply sublist_NoDup; [apply (flat_keys queues.*2)|].
    apply (fmap_sublist fst), sublist_filter.
  - apply (NoDup_fmap_1 fst). rewrite <-list_fmap_compose. pose proof candidate_keys as Hn.
    rewrite <-Hp, fmap_app in Hn. by apply NoDup_app in Hn as [? _].
  - intros [k l]. rewrite !list_elem_of_fmap. split.
    + intros (x & [= -> ->] & [Hx Hin]%list_elem_of_filter). apply Hev, list_elem_of_fmap in Hx as (c & Hk & Hc).
      exists c. split; [|done]. destruct (Hsrc c Hc) as (x' & Hin' & (Hk' & Hl & _)%candidate_of_Some).
      assert (x' = x) as ->; [|by rewrite Hk', Hl].
      eapply NoDup_keys_inj; [apply flat_keys|done|done|congruence].
    + intros (c & [= -> ->] & Hc). destruct (Hsrc c Hc) as (x & Hin & (Hk & Hl & _)%candidate_of_Some).
      exists x. split; [by rewrite Hk, Hl|]. apply list_elem_of_filter. split; [|done].
      apply Hev, list_elem_of_fmap. eauto.
Qed.

Lemma kept_sums gone rest (ev : list (nat * nat)) :
  gone ++ rest ≡ₚ omap (candidate_of w n a ow inc) all -> (forall k, k ∈ ev <-> k ∈ ckey <$> gone) ->
  total ((fun x => weight x) <$> kept_flat ev queues) =
    total ((fun x => weight x) <$> all) - total (c_len <$> gone) /\
  Z.of_nat (length (kept_flat ev queues)) = Z.of_nat (length all) - Z.of_nat (length gone).
Proof.
  intros Hp Hev. pose proof (evicted_rows gone rest ev Hp Hev) as Hrows. split.
  - pose proof (total_partition (fun x => weight x) (fun x => x.1 ∈ ev) all) as Ht.
    assert (total ((fun x => weight x) <$> filter (fun x => x.1 ∈ ev) all) = total (c_len <$> gone)) as He.
    { apply (fmap_Permutation snd) in Hrows. rewrite <-!list_fmap_compose in Hrows. apply total_perm, Hrows. }
    rewrite <-Ht, He. symmetry. apply Z.add_simpl_l.
  - apply Permutation_length in Hrows. rewrite !length_fmap in Hrows.
    unfold kept_flat. rewrite <-Hrows. clear. induction all as [|x l IH]; [done|].
    rewrite !filter_cons. destruct (decide (x.1 ∈ ev)).
    + rewrite decide_False by tauto. simpl. lia.
    + rewrite decide_True by done. simpl. lia.
Qed.

Lemma evicted_lower gone rest (ev : list (nat * nat)) m p iq c :
  gone ++ rest ≡ₚ omap (candidate_of w n a ow inc) all -> (forall k, k ∈ ev <-> k ∈ ckey <$> gone) ->
  queues !! m = Some iq -> iq.2 !! p = Some c -> (m, p) ∈ ev ->
  who c <> a /\ priority_lt (null_commit_priority lib w n (who c) ow) inc = true.
Proof.
  intros Hp Hev Hiq Hpc Hin. apply Hev, list_elem_of_fmap in Hin as (x & Hk & Hx).
  assert (x ∈ gone ++ rest) as Hcand by (apply elem_of_app; by left).
  rewrite Hp in Hcand. apply list_elem_of_omap in Hcand as (y & Hy & (Hky & _ & Hwho & Hlt)%candidate_of_Some).
  assert (y = ((m, p), c)) as ->; [|done]. eapply NoDup_keys_inj; [apply flat_keys|done| |simpl; congruence].
  apply elem_of_flat. exists iq.2. by rewrite list_lookup_fmap, Hiq.
Qed.
End eviction.

(** ** Admission *)

Definition row_bytes queues : Z := total (payload_len <$> mjoin queues.*2).
Definition row_count queues : Z := Z.of_nat (length (mjoin queues.*2)).

Lemma payload_nonneg (c : Entry) : 0 <= payload_len c.
Proof. unfold payload_len. lia. Qed.

Lemma row_bytes_nonneg (l : list Entry) : 0 <= total (payload_len <$> l).
Proof. apply total_nonneg, list.Forall_forall. intros x (c & -> & _)%list_elem_of_fmap. apply payload_nonneg. Qed.

Lemma queue_bytes_eq queues : row_bytes queues <= u32_max -> queue_bytes queues = row_bytes queues.
Proof.
  intros Hb. unfold queue_bytes. rewrite foldl_saturating; [fold (row_bytes queues); lia|unfold u32_max; lia|].
  intros c _. apply payload_nonneg.
Qed.

Lemma total_lengths {A} (qs : list (list A)) :
  total ((fun q => Z.of_nat (length q)) <$> qs) = Z.of_nat (length (mjoin qs)).
Proof.
  induction qs as [|q qs IH]; [done|]. rewrite fmap_cons. cbn [foldr].
  change (mjoin (q :: qs)) with (q ++ mjoin qs). rewrite length_app. lia.
Qed.

Lemma queue_entries_eq queues : row_count queues <= u32_max -> queue_entries queues = row_count queues.
Proof.
  intros Hb. unfold queue_entries. rewrite (foldl_saturating (fun q => Z.of_nat (length q)));
    [|unfold u32_max; lia|intros; lia].
  rewrite total_lengths. fold (row_count queues). lia.
Qed.

Lemma flat_sums queues :
  total ((fun x => payload_len (snd x)) <$> flat queues.*2) = row_bytes queues /\
  Z.of_nat (length (flat queues.*2)) = row_count queues.
Proof.
  unfold row_bytes, row_count. rewrite <-flat_values. split; [by rewrite <-list_fmap_compose|by rewrite length_fmap].
Qed.

(** The queues with the new row, which replaces an older one of its author in
    the same mechanism. *)
Definition arrival (a : AccountId) (mecid : Z) (new : Entry) queues : list (Z * list Entry) :=
  alter (fun iq => (iq.1, filter (fun c => who c <> a) iq.2 ++ [new])) (Z.to_nat mecid) queues.

Definition stored (mecid e : Z) ev queues s : State :=
  foldl (fun s miq => store_queue mecid e ev miq s) s (indexed queues).

(** Past its checks, the program is the eviction from the queues with the new row. *)
Lemma enqueue_unfold a n mecid commit block e round s :
  let w := chain s in
  let Q := arrival a mecid (mkTimelocked a block commit round) (null_queues s n e) in
  let ow := get_owner_uid w n in
  let inc := null_commit_priority lib w n a ow in
  0 <= mecid < 16 -> 0 < MechanismCountCurrent w n ->
  Z.of_nat (length commit) <= MAX_CRV3_COMMIT_SIZE_BYTES / MechanismCountCurrent w n ->
  row_bytes Q <= u32_max -> row_count Q <= u32_max ->
  enqueue_null_timelock lib a n mecid commit block e round s =
  let '(bytes, entries, evicted) :=
    if queue_fits (row_bytes Q) (row_count Q) then (row_bytes Q, row_count Q, [])
    else evict (sort_by (fun x y => priority_le (c_priority x) (c_priority y))
                  (omap (candidate_of w n a ow inc) (flat Q.*2))) (row_bytes Q) (row_count Q) [] in
  if queue_fits bytes entries then (Ok tt, stored mecid e evicted Q s) else (Err CommitQueueFull, s).
Proof.
  intros w Q ow inc Hm Hc Hl Hb Hn. unfold enqueue_null_timelock. rewrite bind_gets. unfold id, checked_div.
  replace (MechanismCountCurrent (chain s) n =? 0) with false by (fold w; lia).
  rewrite (bind_run _ _ s (MAX_CRV3_COMMIT_SIZE_BYTES / MechanismCountCurrent w n) s) by done.
  rewrite (bind_run _ _ s tt s) by (unfold ensure; by replace (_ <=? _) with true by lia).
  destruct (null_queues s n e !! Z.to_nat mecid) as [iq|] eqn:Hiq.
  2:{ apply lookup_ge_None in Hiq. unfold null_queues in Hiq. rewrite length_fmap, length_seq in Hiq.
      unfold MAX_MECHANISM_COUNT_PER_SUBNET in Hiq. lia. }
  rewrite (bind_run _ _ s iq s) by done.
  fold (arrival a mecid (mkTimelocked a block commit round) (null_queues s n e)).
  fold Q. rewrite queue_bytes_eq, queue_entries_eq by done. rewrite null_candidates_flat. fold w ow inc.
  destruct (if queue_fits _ _ then _ else _) as [[bytes entries] ev].
  unfold mbind, M_bind, ensure. destruct (queue_fits bytes entries); simpl; [|done]. by rewrite for_each_modify.
Qed.

Lemma enqueue_run a n mecid commit block e round s :
  let w := chain s in
  let Q := arrival a mecid (mkTimelocked a block commit round) (null_queues s n e) in
  let ow := get_owner_uid w n in
  let inc := null_commit_priority lib w n a ow in
  0 <= mecid < 16 -> 0 < MechanismCountCurrent w n ->
  Z.of_nat (length commit) <= MAX_CRV3_COMMIT_SIZE_BYTES / MechanismCountCurrent w n ->
  row_bytes Q <= u32_max -> row_count Q <= u32_max ->
  exists gone rest ev,
    gone ++ rest ≡ₚ omap (candidate_of w n a ow inc) (flat Q.*2) /\
    (forall k, k ∈ ev <-> k ∈ ckey <$> gone) /\
    let b := row_bytes Q - total (c_len <$> gone) in
    let c := row_count Q - Z.of_nat (length gone) in
    (queue_fits b c = true \/ rest = []) /\
    enqueue_null_timelock lib a n mecid commit block e round s =
      if queue_fits b c then (Ok tt, stored mecid e ev Q s) else (Err CommitQueueFull, s).
Proof.
  intros w Q ow inc Hm Hc Hl Hb Hn. rewrite enqueue_unfold by done. fold w. fold ow Q. fold inc.
  set (cands := omap _ _). destruct (queue_fits (row_bytes Q) (row_count Q)) eqn:Hf.
  { exists [], cands, []. split_and!; [done|done|]. cbn [fmap list_fmap foldr length]. rewrite !Z.sub_0_r. auto. }
  set (sorted := sort_by _ cands). assert (sorted ≡ₚ cands) as Hperm by apply sort_by_perm.
  pose proof (flat_sums Q) as [Hfb Hfc].
  destruct (kept_sums w n a ow inc Q cands [] (ckey <$> cands)) as [Hk1 Hk2]; [by rewrite app_nil_r|done|].
  assert (total (c_len <$> sorted) = total (c_len <$> cands)) as Ht by by apply total_perm; rewrite Hperm.
  pose proof (Permutation_length Hperm) as Hlen.
  destruct (evict_spec sorted (row_bytes Q) (row_count Q) []) as (gone & rest & Hs & Hev & Hfit).
  - apply list.Forall_forall. intros x (c & -> & Hc')%list_elem_of_fmap. rewrite Hperm in Hc'.
    apply list_elem_of_omap in Hc' as (y & _ & (_ & -> & _)%candidate_of_Some). apply payload_nonneg.
  - assert (0 <= total ((fun x => payload_len x.2) <$> kept_flat (ckey <$> cands) Q)); [|lia].
    apply total_nonneg, list.Forall_forall. intros x (c & -> & _)%list_elem_of_fmap. apply payload_nonneg.
  - lia.
  - exists gone, rest, (rev (ckey <$> gone) ++ []). split_and!; [by rewrite <-Hs| |].
    + intros k. rewrite app_nil_r. by rewrite !list_elem_of_In, <-in_rev.
    + cbv zeta in *. split; [done|]. by rewrite Hev.
Qed.

(** ** What is stored *)

Definition written (mecid : Z) (ev : list (nat * nat)) (mechanism : nat) : bool :=
  bool_decide (mecid = Z.of_nat mechanism) || existsb (fun mp => bool_decide (mp.1 = mechanism)) ev.

Lemma store_queue_other mecid e ev m i q s i' ep :
  (i', ep) <> (i, e) ->
  TimelockedWeightCommits (store_queue mecid e ev (m, (i, q)) s) !! (i', ep) =
  TimelockedWeightCommits s !! (i', ep).
Proof.
  intros Hne. unfold store_queue. repeat case_match; simpl; [by rewrite lookup_delete_ne|by rewrite lookup_insert_ne|done].
Qed.

Lemma store_queue_same mecid e ev m i q s :
  get_timelocked (store_queue mecid e ev (m, (i, q)) s) i e =
  if written mecid ev m then retain_unless ev m q else get_timelocked s i e.
Proof.
  unfold store_queue, written, get_timelocked. destruct (bool_decide _ || _); [|done].
  destruct (decide (retain_unless ev m q = [])) as [Hq|Hq];
    [rewrite (bool_decide_true (retain_unless ev m q = [])) by done|rewrite (bool_decide_false (retain_unless ev m q = [])) by done]; simpl.
  - by rewrite lookup_delete_eq, Hq.
  - by rewrite lookup_insert_eq.
Qed.

Lemma store_all_other mecid e ev (l : list (nat * (Z * list Entry))) s i ep :
  (ep = e -> i ∉ l.*2.*1) ->
  TimelockedWeightCommits (foldl (fun s miq => store_queue mecid e ev miq s) s l) !! (i, ep) =
  TimelockedWeightCommits s !! (i, ep).
Proof.
  revert s. induction l as [|[m [j q]] l IH]; intros s Hi; [done|]. cbn [foldl]. rewrite IH.
  - apply store_queue_other. intros [= -> ->]. apply Hi; [done|]. by left.
  - intros He Hin. apply Hi; [done|]. by right.
Qed.

Lemma store_all mecid e ev (l : list (nat * (Z * list Entry))) s m i q :
  NoDup l.*2.*1 -> (m, (i, q)) ∈ l ->
  get_timelocked (foldl (fun s miq => store_queue mecid e ev miq s) s l) i e =
  if written mecid ev m then retain_unless ev m q else get_timelocked s i e.
Proof.
  revert s. induction l as [|[m' [j q']] l IH]; intros s Hnd Hin; [by apply elem_of_nil in Hin|].
  rewrite !fmap_cons in Hnd. apply list.NoDup_cons in Hnd as [Hj Hnd]. simpl in Hj.
  cbn [foldl]. apply elem_of_cons in Hin as [[= <- <- <-]|Hin].
  - unfold get_timelocked at 1. rewrite store_all_other by done. apply store_queue_same.
  - rewrite (IH _ Hnd Hin). destruct (written mecid ev m); [done|]. unfold get_timelocked.
    rewrite store_queue_other; [done|]. intros [= <-]. apply Hj.
    apply list_elem_of_fmap. exists (i, q). split; [done|]. apply list_elem_of_fmap. by exists (m, (i, q)).
Qed.

Lemma retain_untouched ev m (q : list Entry) :
  existsb (fun mp => bool_decide (mp.1 = m)) ev = false -> retain_unless ev m q = q.
Proof.
  intros Hev. unfold retain_unless.
  rewrite (omap_pointwise _ (fun pc => Some pc.2)).
  - unfold indexed. rewrite <-(list_fmap_id q) at 2. rewrite <-(imap_const id q).
    induction q as [|c q IH] using rev_ind; [done|]. rewrite !imap_app, omap_app, IH. done.
  - intros [p c]. rewrite bool_decide_false; [done|]. intros Hin.
    assert (existsb (fun mp => bool_decide (mp.1 = m)) ev = true); [|congruence].
    apply existsb_exists. exists (m, p). split; [by apply list_elem_of_In|]. by apply bool_decide_true.
Qed.

Lemma join_snd_cons (iq : Z * list Entry) queues : mjoin (iq :: queues).*2 = iq.2 ++ mjoin queues.*2.
Proof. done. Qed.

Lemma arrival_sums a mecid new queues :
  row_bytes (arrival a mecid new queues) <= row_bytes queues + payload_len new /\
  row_count (arrival a mecid new queues) <= row_count queues + 1.
Proof.
  unfold arrival. generalize (Z.to_nat mecid) as k. pose proof (payload_nonneg new).
  induction queues as [|[i q] queues IH]; intros k; [unfold row_bytes, row_count; simpl; lia|].
  unfold row_bytes, row_count in *. destruct k as [|k].
  - change (alter _ 0%nat ((i, q) :: queues)) with ((i, filter (fun c => who c <> a) q ++ [new]) :: queues).
    rewrite !join_snd_cons, !fmap_app, !total_app, !length_app. cbn [fmap list_fmap foldr length snd].
    rewrite fmap_app, total_app, length_app. cbn [fmap list_fmap foldr length].
    pose proof (length_filter (fun c => who c <> a) q).
    pose proof (total_filter_le payload_len (fun c => who c <> a) q payload_nonneg). lia.
  - specialize (IH k). change (alter ?f (S k) ((i, q) :: queues)) with ((i, q) :: alter f k queues).
    rewrite !join_snd_cons, !fmap_app, !total_app, !length_app. cbn [snd]. lia.
Qed.

Section stored.
Context (n : Z) (n_ok : 0 <= n < GLOBAL_MAX_SUBNET_COUNT).
Abbreviation idx m := (get_mechanism_storage_index n (Z.of_nat m)).

Lemma null_queues_lookup s e m : (m < 16)%nat -> null_queues s n e !! m = Some (idx m, get_timelocked s (idx m) e).
Proof using Type.
  intros Hm. unfold null_queues, MAX_MECHANISM_COUNT_PER_SUBNET. by rewrite list_lookup_fmap, lookup_seq_lt.
Qed.

Lemma null_queues_length s e : length (null_queues s n e) = 16%nat.
Proof using Type. unfold null_queues. by rewrite length_fmap, length_seq. Qed.

Lemma arrival_indices a mecid new queues : (arrival a mecid new queues).*1 = queues.*1.
Proof using Type.
  apply list_eq. intros i. unfold arrival. rewrite !list_lookup_fmap.
  destruct (decide (Z.to_nat mecid = i)) as [<-|]; [rewrite list_lookup_alter_eq|by rewrite list_lookup_alter_ne].
  by destruct (queues !! Z.to_nat mecid).
Qed.

Lemma null_queues_indices s e : NoDup (null_queues s n e).*1.
Proof using n_ok.
  unfold null_queues, MAX_MECHANISM_COUNT_PER_SUBNET. rewrite <-list_fmap_compose.
  apply NoDup_alt. intros i j x. rewrite !list_lookup_fmap_Some.
  intros (m & -> & Hi) (m' & Hx & Hj). apply lookup_seq in Hi as [-> Hi], Hj as [-> Hj]. simpl in *.
  eapply mechanism_index_inj; [exact n_ok|done|done|done].
Qed.

Lemma stored_queues a mecid new e ev s :
  0 <= mecid -> let Q := arrival a mecid new (null_queues s n e) in
  null_queues (stored mecid e ev Q s) n e = imap (fun m iq => (iq.1, retain_unless ev m iq.2)) Q.
Proof using n_ok.
  intros Hm Q. apply list_eq. intros m. rewrite list_lookup_imap.
  destruct (decide (m < 16)%nat) as [Hlt|Hge].
  2:{ rewrite !lookup_ge_None_2; [done| |rewrite null_queues_length; lia].
      unfold Q, arrival. rewrite length_alter, null_queues_length. lia. }
  rewrite null_queues_lookup by done.
  assert (exists q, Q !! m = Some (idx m, q) /\ (mecid <> Z.of_nat m -> q = get_timelocked s (idx m) e)) as (q & Hq & Hsame).
  { unfold Q, arrival. destruct (decide (Z.to_nat mecid = m)) as [<-|Hne].
    - rewrite list_lookup_alter_eq, null_queues_lookup by lia. eexists. split; [done|]. lia.
    - rewrite list_lookup_alter_ne, null_queues_lookup by done. by eexists. }
  rewrite Hq. simpl. do 2 f_equal. unfold stored. rewrite (store_all mecid e ev (indexed Q) s m (idx m) q).
  - unfold written. destruct (bool_decide (mecid = Z.of_nat m)) eqn:Hd; [done|]. simpl. bool_to_prop.
    destruct (existsb _ ev) eqn:Hev; [done|]. by rewrite retain_untouched, Hsame by done.
  - rewrite indexed_values. unfold Q. rewrite arrival_indices. apply null_queues_indices.
  - unfold indexed. apply elem_of_lookup_imap. eauto.
Qed.

Lemma stored_sums a mecid new e ev s :
  0 <= mecid -> let Q := arrival a mecid new (null_queues s n e) in
  let Q' := null_queues (stored mecid e ev Q s) n e in
  mjoin Q'.*2 = (kept_flat ev Q).*2.
Proof using n_ok.
  intros Hm Q Q'. unfold Q', Q. rewrite stored_queues by done. rewrite <-retained_flat. by rewrite fmap_imap.
Qed.
End stored.

(** ** The bound, and who pays for it *)

Definition within_bound s n e : Prop :=
  row_bytes (null_queues s n e) <= NULL_COMMIT_QUEUE_BYTES /\
  row_count (null_queues s n e) <= NULL_COMMIT_QUEUE_COUNT.

Lemma queue_fits_spec b c : queue_fits b c = true <-> b <= NULL_COMMIT_QUEUE_BYTES /\ c <= NULL_COMMIT_QUEUE_COUNT.
Proof. unfold queue_fits. rewrite andb_true_iff. lia. Qed.

Lemma enqueue_guards a n mecid commit block e round s u s' :
  enqueue_null_timelock lib a n mecid commit block e round s = (Ok u, s') ->
  0 <= MechanismCountCurrent (chain s) n -> 0 <= mecid ->
  mecid < 16 /\ 0 < MechanismCountCurrent (chain s) n /\
  Z.of_nat (length commit) <= MAX_CRV3_COMMIT_SIZE_BYTES / MechanismCountCurrent (chain s) n.
Proof.
  unfold enqueue_null_timelock. intros He Hc Hm. minv. clear He. unfold id, checked_div in *.
  destruct (Z.eqb_spec (MechanismCountCurrent (chain s) n) 0); [done|]. simplify_eq.
  match goal with H : null_queues _ _ _ !! _ = Some _ |- _ => apply lookup_lt_Some in H;
    rewrite null_queues_length in H end.
  bool_to_prop. split_and!; lia.
Qed.

Lemma arrival_bounded s n e a mecid block commit round :
  within_bound s n e -> 0 < MechanismCountCurrent (chain s) n ->
  Z.of_nat (length commit) <= MAX_CRV3_COMMIT_SIZE_BYTES / MechanismCountCurrent (chain s) n ->
  let Q := arrival a mecid (mkTimelocked a block commit round) (null_queues s n e) in
  row_bytes Q <= u32_max /\ row_count Q <= u32_max.
Proof.
  intros [Hb Hc] Hn Hl Q.
  pose proof (arrival_sums a mecid (mkTimelocked a block commit round) (null_queues s n e)) as [H1 H2]. fold Q in H1, H2.
  assert (MAX_CRV3_COMMIT_SIZE_BYTES / MechanismCountCurrent (chain s) n <= MAX_CRV3_COMMIT_SIZE_BYTES).
  { apply Z.div_le_upper_bound; unfold MAX_CRV3_COMMIT_SIZE_BYTES; nia. }
  unfold payload_len in H1. simpl in H1.
  unfold NULL_COMMIT_QUEUE_BYTES, NULL_COMMIT_QUEUE_COUNT, MAX_CRV3_COMMIT_SIZE_BYTES, u32_max in *. lia.
Qed.

Lemma elem_of_retain ev m (q : list Entry) p c : q !! p = Some c -> (m, p) ∉ ev -> c ∈ retain_unless ev m q.
Proof.
  intros Hp Hev. unfold retain_unless. apply list_elem_of_omap. exists (p, c). split.
  - unfold indexed. apply elem_of_lookup_imap. eauto.
  - simpl. by rewrite bool_decide_false.
Qed.

Lemma stored_queue n s e a mecid new ev m :
  0 <= n < GLOBAL_MAX_SUBNET_COUNT -> 0 <= mecid -> (m < 16)%nat ->
  let Q := arrival a mecid new (null_queues s n e) in
  exists iq, Q !! m = Some iq /\
    get_timelocked (stored mecid e ev Q s) (get_mechanism_storage_index n (Z.of_nat m)) e = retain_unless ev m iq.2.
Proof.
  intros Hn Hm Hlt Q. pose proof (stored_queues n Hn a mecid new e ev s Hm) as Hs. fold Q in Hs.
  assert (m < length Q)%nat as Hl by (unfold Q, arrival; rewrite length_alter, null_queues_length; lia).
  destruct (lookup_lt_is_Some_2 Q m Hl) as [iq Hq]. exists iq. split; [done|].
  apply (f_equal (fun l => l !! m)) in Hs. rewrite list_lookup_imap, Hq in Hs. rewrite null_queues_lookup in Hs by done.
  simpl in Hs. by injection Hs as _ ->.
Qed.

(** (C17) In [Null] mode a timelocked commit that is accepted leaves the queues of all
    sixteen mechanisms for its epoch within 64 KiB and 64 rows together.  The new row is queued; any
    other row is still there, or is the author's own older row on the same mechanism, or belongs to
    a hotkey of strictly lower priority.  Other subnets and epochs are untouched. *)
Theorem null_queue_bounded a n mecid commit block e round s u s' :
  0 <= n < GLOBAL_MAX_SUBNET_COUNT -> 0 <= mecid -> 0 <= MechanismCountCurrent (chain s) n ->
  within_bound s n e ->
  enqueue_null_timelock lib a n mecid commit block e round s = (Ok u, s') ->
  let w := chain s in
  let priority b := null_commit_priority lib w n b (get_owner_uid w n) in
  within_bound s' n e /\
  mkTimelocked a block commit round ∈ get_timelocked s' (get_mechanism_storage_index n mecid) e /\
  (forall m c, 0 <= m < 16 -> c ∈ get_timelocked s (get_mechanism_storage_index n m) e ->
    c ∈ get_timelocked s' (get_mechanism_storage_index n m) e \/
    (who c = a /\ m = mecid) \/ priority_lt (priority (who c)) (priority a) = true) /\
  (forall i ep, ep <> e \/ get_netuid i <> n ->
    TimelockedWeightCommits s' !! (i, ep) = TimelockedWeightCommits s !! (i, ep)).
Proof.
  intros Hn Hm Hc Hb He w priority.
  destruct (enqueue_guards _ _ _ _ _ _ _ _ _ _ He Hc Hm) as (Hm16 & Hc0 & Hl).
  pose proof (arrival_bounded s n e a mecid block commit round Hb Hc0 Hl) as [Hq1 Hq2].
  destruct (enqueue_run a n mecid commit block e round s) as (gone & rest & ev & Hp & Hev & _ & Hrun);
    [lia|done|done|done|done|].
  set (new := mkTimelocked a block commit round) in *. set (Q := arrival a mecid new (null_queues s n e)) in *.
  rewrite Hrun in He. clear Hrun. fold w in Hp.
  destruct (queue_fits _ _) eqn:Hfit; [|done]. injection He as _ <-.
  destruct (kept_sums w n a _ _ Q gone rest ev Hp Hev) as [K1 K2]. pose proof (flat_sums Q) as [F1 F2].
  assert (forall m p iq c, Q !! m = Some iq -> iq.2 !! p = Some c -> (m, p) ∈ ev ->
    who c <> a /\ priority_lt (priority (who c)) (priority a) = true) as Hlow.
  { intros m p iq c. by eapply evicted_lower. }
  split_and!.
  - pose proof (stored_sums n Hn a mecid new e ev s Hm) as Hst. cbv zeta in Hst. fold Q in Hst.
    unfold within_bound, row_bytes, row_count. rewrite Hst.
    rewrite <-list_fmap_compose, length_fmap. apply queue_fits_spec in Hfit.
    unfold compose. rewrite K1, K2, F1, F2. lia.
  - destruct (stored_queue n s e a mecid new ev (Z.to_nat mecid)) as (iq & Hiq & Hget); [done|done|lia|].
    fold Q in Hiq, Hget. rewrite Z2Nat.id in Hget by lia. rewrite Hget.
    assert (exists q, iq.2 = q ++ [new]) as [q Hiq2].
    { unfold Q, arrival in Hiq. rewrite list_lookup_alter_eq in Hiq.
      destruct (null_queues s n e !! _); simpl in Hiq; [|done]. injection Hiq as <-. by eexists. }
    apply (elem_of_retain ev _ _ (length q)); [by rewrite Hiq2, list_lookup_middle|].
    intros Hin. by destruct (Hlow _ _ _ new Hiq ltac:(by rewrite Hiq2, list_lookup_middle) Hin).
  - intros m c Hm' Hin. destruct (stored_queue n s e a mecid new ev (Z.to_nat m)) as (iq & Hiq & Hget); [done|done|lia|].
    fold Q in Hiq, Hget. rewrite Z2Nat.id in Hget by lia. rewrite Hget.
    destruct (decide (who c = a /\ m = mecid)) as [?|Hother]; [auto|].
    assert (c ∈ iq.2) as (p & Hpc)%list_elem_of_lookup.
    { unfold Q, arrival in Hiq. destruct (decide (m = mecid)) as [->|].
      - rewrite list_lookup_alter_eq, null_queues_lookup, Z2Nat.id in Hiq by lia. simpl in Hiq. injection Hiq as <-.
        simpl. apply elem_of_app. left. apply list_elem_of_filter. tauto.
      - rewrite list_lookup_alter_ne, null_queues_lookup, Z2Nat.id in Hiq by lia. injection Hiq as <-. done. }
    destruct (decide ((Z.to_nat m, p) ∈ ev)) as [Hin'|Hin']; [right; right; by eapply Hlow|].
    left. by eapply elem_of_retain.
  - intros i ep Hi. unfold stored. apply store_all_other. intros -> Hin. destruct Hi as [|Hi]; [done|]. apply Hi.
    rewrite indexed_values in Hin. unfold Q in Hin. rewrite arrival_indices in Hin. unfold null_queues in Hin.
    rewrite <-list_fmap_compose in Hin. apply list_elem_of_fmap in Hin as (k & -> & Hk%elem_of_seq). simpl.
    unfold MAX_MECHANISM_COUNT_PER_SUBNET in Hk.
    apply (mechanism_index_roundtrip n (Z.of_nat k) n (Z.of_nat k)); lia.
Qed.

(** ** The winner *)

(** At most [L] per queue, in the first [count] queues only. *)
Lemma total_per_queue {A} (w : A -> Z) (P : A -> Prop) `{!forall x, Decision (P x)} (qs : list (list A)) L count k :
  0 <= L ->
  (forall m q, qs !! m = Some q -> total (w <$> filter P q) <= if k + Z.of_nat m <? count then L else 0) ->
  total (w <$> filter P (mjoin qs)) <= L * Z.max 0 (count - k).
Proof.
  intros HL. revert k. induction qs as [|q qs IH]; intros k Hq.
  { cbn. nia. }
  change (mjoin (q :: qs)) with (q ++ mjoin qs). rewrite list.filter_app, fmap_app, total_app.
  pose proof (Hq 0%nat q eq_refl) as Hfst. rewrite Z.add_0_r in Hfst.
  assert (total (w <$> filter P (mjoin qs)) <= L * Z.max 0 (count - (k + 1))) as Hrest.
  { apply IH. intros m q' Hm. specialize (Hq (S m) q' Hm).
    by replace (k + 1 + Z.of_nat m) with (k + Z.of_nat (S m)) by lia. }
  destruct (Z.ltb_spec k count); nia.
Qed.

Lemma total_ones {A} (l : list A) : total ((fun _ => 1) <$> l) = Z.of_nat (length l).
Proof. induction l; [done|]. rewrite fmap_cons. cbn [foldr length]. lia. Qed.

(** The rows of [a]: one per mechanism at most, each within the limit on a row. *)
Definition own_rows (a : AccountId) n e s : Prop :=
  forall m, 0 <= m < 16 ->
    let own := filter (fun c => who c = a) (get_timelocked s (get_mechanism_storage_index n m) e) in
    (length own <= 1)%nat /\ (own <> [] -> m < MechanismCountCurrent (chain s) n) /\
    Forall (fun c => payload_len c <= MAX_CRV3_COMMIT_SIZE_BYTES / MechanismCountCurrent (chain s) n) own.

Lemma own_after_arrival a n e s mecid new m q :
  own_rows a n e s -> who new = a -> 0 <= mecid < MechanismCountCurrent (chain s) n -> mecid < 16 ->
  payload_len new <= MAX_CRV3_COMMIT_SIZE_BYTES / MechanismCountCurrent (chain s) n ->
  (arrival a mecid new (null_queues s n e)).*2 !! m = Some q ->
  let L := MAX_CRV3_COMMIT_SIZE_BYTES / MechanismCountCurrent (chain s) n in
  total (payload_len <$> filter (fun c => who c = a) q) <=
    (if 0 + Z.of_nat m <? MechanismCountCurrent (chain s) n then L else 0) /\
  total ((fun _ => 1) <$> filter (fun c => who c = a) q) <=
    (if 0 + Z.of_nat m <? MechanismCountCurrent (chain s) n then 1 else 0).
Proof.
  intros Hown Hwho Hm Hm16 Hl Hq L. rewrite list_lookup_fmap in Hq. unfold arrival in Hq.
  assert (0 <= L) as HL by (apply Z.div_pos; [unfold MAX_CRV3_COMMIT_SIZE_BYTES; lia|lia]).
  destruct (decide (Z.to_nat mecid = m)) as [<-|Hne].
  - rewrite list_lookup_alter_eq, null_queues_lookup in Hq by lia. simpl in Hq. injection Hq as <-.
    rewrite list.filter_app, (filter_none _ (filter _ _)), filter_cons_True, filter_nil; [|done|].
    + cbn [app fmap list_fmap foldr]. fold L in Hl.
      destruct (Z.ltb_spec (0 + Z.of_nat (Z.to_nat mecid)) (MechanismCountCurrent (chain s) n)); lia.
    + intros c [Hc _]%list_elem_of_filter. done.
  - rewrite list_lookup_alter_ne in Hq by done.
    destruct (decide (m < 16)%nat) as [Hlt|].
    2:{ by rewrite lookup_ge_None_2 in Hq by (rewrite null_queues_length; lia). }
    rewrite null_queues_lookup in Hq by done. injection Hq as <-.
    destruct (Hown (Z.of_nat m) ltac:(lia)) as (H1 & H2 & H3). set (own := filter _ _) in *.
    destruct own as [|c [|? ?]]; simpl in H1; [|apply Forall_cons in H3 as [H3 _]|lia].
    + cbn. destruct (_ <? _); lia.
    + specialize (H2 ltac:(done)). cbn [fmap list_fmap foldr].
      fold L in H3. destruct (Z.ltb_spec (0 + Z.of_nat m) (MechanismCountCurrent (chain s) n)); lia.
Qed.

(** Rows of others in the queues after the arrival were there before. *)
Lemma winner_above a n e s mecid new :
  (let w := chain s in
   let priority b := null_commit_priority lib w n b (get_owner_uid w n) in
   forall m c, 0 <= m < 16 -> c ∈ get_timelocked s (get_mechanism_storage_index n m) e ->
     who c <> a -> priority_lt (priority (who c)) (priority a) = true) ->
  forall x, x ∈ flat (arrival a mecid new (null_queues s n e)).*2 -> who x.2 <> a -> who new = a ->
  priority_lt (null_commit_priority lib (chain s) n (who x.2) (get_owner_uid (chain s) n))
    (null_commit_priority lib (chain s) n a (get_owner_uid (chain s) n)) = true.
Proof.
  intros Hwin [[m p] c] Hx Hwho Hnew. simpl in *. apply elem_of_flat in Hx as (q & Hq & Hc%list_elem_of_lookup_2).
  rewrite list_lookup_fmap in Hq. unfold arrival in Hq.
  destruct (decide (m < 16)%nat) as [Hlt|Hge].
  2:{ rewrite lookup_ge_None_2 in Hq by (rewrite length_alter, null_queues_length; lia). done. }
  apply (Hwin (Z.of_nat m)); [lia| |done].
  destruct (decide (Z.to_nat mecid = m)) as [<-|Hne].
  - rewrite list_lookup_alter_eq, null_queues_lookup in Hq by done. simpl in Hq. injection Hq as <-.
    apply elem_of_app in Hc as [[_ Hc]%list_elem_of_filter| ->%list_elem_of_singleton]; [done|congruence].
  - rewrite list_lookup_alter_ne, null_queues_lookup in Hq by done. by injection Hq as <-.
Qed.

Lemma kept_own_total (w : Entry -> Z) a ev queues :
  (forall c, 0 <= w c) -> (forall x, x ∈ flat queues.*2 -> x.1 ∉ ev -> who x.2 = a) ->
  total ((fun x => w x.2) <$> kept_flat ev queues) <= total (w <$> filter (fun c => who c = a) (mjoin queues.*2)).
Proof.
  intros Hw Hk. etrans; [apply (total_filter_impl _ _ (fun x => who x.2 = a)); [intros; apply Hw|exact Hk]|].
  rewrite <-flat_values. apply Z.eq_le_incl. clear Hk. induction (flat queues.*2) as [|x l IH]; [done|].
  rewrite fmap_cons. destruct (decide (who x.2 = a)).
  - rewrite !filter_cons_True, !fmap_cons by done. cbn [foldr]. by rewrite IH.
  - by rewrite !filter_cons_False by done.
Qed.

(** (C29) The validator with the highest priority among the authors of queued rows can
    always commit one row per mechanism in [Null] mode, however full the queue is: while its own rows
    keep to the limit on a row, a further row within that limit is accepted. *)
Theorem winner_admitted a n mecid commit block e round s :
  0 <= n < GLOBAL_MAX_SUBNET_COUNT -> within_bound s n e ->
  0 <= mecid < MechanismCountCurrent (chain s) n -> MechanismCountCurrent (chain s) n <= 16 ->
  Z.of_nat (length commit) <= MAX_CRV3_COMMIT_SIZE_BYTES / MechanismCountCurrent (chain s) n ->
  own_rows a n e s ->
  (let w := chain s in
   let priority b := null_commit_priority lib w n b (get_owner_uid w n) in
   forall m c, 0 <= m < 16 -> c ∈ get_timelocked s (get_mechanism_storage_index n m) e ->
     who c <> a -> priority_lt (priority (who c)) (priority a) = true) ->
  exists s', enqueue_null_timelock lib a n mecid commit block e round s = (Ok tt, s').
Proof.
  intros Hn Hb Hm H16 Hl Hown Hwin.
  pose proof (arrival_bounded s n e a mecid block commit round Hb ltac:(lia) Hl) as [Hq1 Hq2].
  destruct (enqueue_run a n mecid commit block e round s) as (gone & rest & ev & Hp & Hev & Hor & Hrun);
    [lia|lia|done|done|done|].
  set (new := mkTimelocked a block commit round) in *. set (Q := arrival a mecid new (null_queues s n e)) in *.
  rewrite Hrun. destruct (queue_fits _ _) eqn:Hfit; [by eexists|]. exfalso.
  destruct Hor as [|Hrest]; [congruence|]. subst rest.
  destruct (kept_sums (chain s) n a _ _ Q gone [] ev Hp Hev) as [K1 K2]. pose proof (flat_sums Q) as [F1 F2].
  assert (forall x, x ∈ flat Q.*2 -> x.1 ∉ ev -> who x.2 = a) as Hkept.
  { intros x Hx Hnot. apply dec_stable. intros Hwho. apply Hnot, Hev, list_elem_of_fmap.
    assert (exists c, candidate_of (chain s) n a (get_owner_uid (chain s) n)
      (null_commit_priority lib (chain s) n a (get_owner_uid (chain s) n)) x = Some c) as [c Hc].
    { unfold candidate_of. rewrite bool_decide_false by done. rewrite (winner_above a n e s mecid new Hwin x); eauto. }
    exists c. split; [by apply candidate_of_Some in Hc as (-> & _)|].
    rewrite app_nil_r in Hp. rewrite Hp. apply list_elem_of_omap. eauto. }
  apply not_true_iff_false in Hfit. apply Hfit, queue_fits_spec. rewrite <-F1, <-K1, <-F2, <-K2, <-total_ones.
  set (count := MechanismCountCurrent (chain s) n) in *. set (L := MAX_CRV3_COMMIT_SIZE_BYTES / count) in *.
  assert (L * count <= MAX_CRV3_COMMIT_SIZE_BYTES) by (unfold L; pose proof (Z.mul_div_le MAX_CRV3_COMMIT_SIZE_BYTES count); lia).
  pose proof (fun m q => own_after_arrival a n e s mecid new m q Hown eq_refl Hm ltac:(lia) Hl) as Hper.
  fold Q count L in Hper. assert (0 <= L) by (apply Z.div_pos; [unfold MAX_CRV3_COMMIT_SIZE_BYTES; lia|lia]).
  pose proof (total_per_queue payload_len (fun c => who c = a) Q.*2 L count 0 ltac:(done) (fun m q Hq => proj1 (Hper m q Hq))).
  pose proof (total_per_queue (fun _ => 1) (fun c => who c = a) Q.*2 1 count 0 ltac:(lia) (fun m q Hq => proj2 (Hper m q Hq))).
  pose proof (kept_own_total payload_len a ev Q payload_nonneg Hkept).
  pose proof (kept_own_total (fun _ => 1) a ev Q ltac:(lia) Hkept).
  unfold NULL_COMMIT_QUEUE_BYTES, NULL_COMMIT_QUEUE_COUNT, MAX_CRV3_COMMIT_SIZE_BYTES in *. lia.
Qed.
End queue.
