(* ===== verification/WeightExample.v ===== *)
(** * Weights: a concrete subnet

    Instances of the classes and records of WeightSetting.v: subnet 1 with two
    mechanisms and four neurons, and libraries that hash and encrypt by the
    identity.  On them the theorems of WeightSafety.v, WeightReveal.v and
    WeightQueue.v are applied. *)

From Stdlib Require Import ZArith Lia Strings.Byte.
From Stdlib Require Import Sorting.Sorted.
From stdpp Require Import base gmap list fin_maps functions sorting.
From S2P Require Import Prelude EpochMath EpochMathSpec Neurons NeuronsSafety Schedule ScheduleSafety.
From S2P Require Import WeightSetting WeightSafety WeightReveal WeightQueue.

(** The mode of the subnet and whether commit-reveal is on. *)
Abbreviation World := (EpochConsensus * bool)%type.

(** A hash is the data itself. *)
Abbreviation Hash := (Z * Z * list nat * list Z * list Z * Z)%type.

#[local] Instance chain_ex : Chain Z World := {|
  if_subnet_exist _ n := n =? 1;
  SubnetOwner _ _ := 7;
  get_epoch_consensus w _ := w.1;
  get_commit_reveal_weights_enabled w _ := w.2;
  OwnerHyperparamRateLimit _ := 2;
  Keys_iter_prefix _ _ := [0; 1; 2; 3];
  change_subnet_owner_if_needed _ w := w;
|}.

#[local] Instance registry_ex : Registry Z World := {|
  MechanismCountCurrent _ _ := 2;
  get_subnetwork_n _ _ := 4%nat;
  uid_of _ _ a := if (0 <=? a) && (a <? 4) then Some (Z.to_nat a) else None;
  key_of _ _ uid := if (uid <? 4)%nat then Some (Z.of_nat uid) else None;
  ValidatorPermit _ _ := [true; true; true; false];
  SubnetOwnerHotkey _ _ := None;
  CommitRevealWeightsVersion _ := 4;
  WeightsVersionKey _ _ := 0;
  WeightsSetRateLimit _ _ := 100;
  MinAllowedWeights _ _ := 1;
  StakeThreshold _ := 10;
  TotalNetworks _ := 2;
  LastStoredRound _ := 500;
  get_inherited_for_hotkey_on_subnet _ a _ := 100 + a;
  get_tao_inherited_for_hotkey_on_subnet _ _ _ := 0;
  get_tao_weight _ := 0;
  pulse_signature _ round := if round <=? 500 then Some [] else None;
  get_all_subnet_netuids _ := [0; 1];
|}.

(** A ciphertext is its author's weight on uid 1, as one byte. *)
Definition lib_ex : Libraries Z Hash := {|
  hash_reveal a index uids vals salt vk := (a, index, uids, vals, salt, vk);
  hash_bytes _ := (0, 0, [], [], [], 0);
  Ciphertext := list byte;
  Signature := unit;
  deserialize_ciphertext := Some;
  header_v_len _ := 32;
  header_w_len _ := 32;
  deserialize_signature _ := Some ();
  tld c _ := Some c;
  decode_payload _ := None;
  decode_legacy_payload bytes := Some (mkLegacyPayload [1%nat; 2%nat] [Z.of_nat (length bytes); 9] 0);
  decode_account _ := None;
  fixed64_mul a b := a * b / 2 ^ 64;
  fixed_lib := Exact.lib;
|}.

#[local] Instance owner_change_ex : OwnerChangeIsLocal (AccountId := Z) (World := World).
Proof. by intros n m w _. Qed.
#[local] Instance bounded_ex : BoundedMechanisms (AccountId := Z) (World := World).
Proof. intros w n Hn%Z.eqb_eq. unfold GLOBAL_MAX_SUBNET_COUNT. simpl. lia. Qed.
#[local] Instance laws_ex : FixedLaws (fixed_lib lib_ex) := Exact.laws.

Abbreviation St := (WeightSetting.State (AccountId := Z) (World := World) (Hash := Hash)).

(** The schedule at a block, in an epoch that began at the block [last]. *)
Definition sched_at (block last epoch : Z) (w : World) : Schedule.State (AccountId := Z) (World := World) :=
  Schedule.mkState (fun _ => mkSlot 360 (block - last) last 0 epoch) (fun _ => drained)
    block 10 2 (fun _ => 13889) (fun _ _ => 0) (fun _ _ => 0) [] w.

Definition start (w : World) : St :=
  WeightSetting.mkState (sched_at 1000 990 5 w) ∅ ∅ ∅ ∅ (fun _ => 1) [].

Definition at_block (block last epoch : Z) (s : St) : St := set_sched (sched_at block last epoch (chain s)) s.

Definition after {A} (m : M St Error A) (s : St) : St := (m s).2.

Lemma after_ok (m : M St Error unit) (s : St) : is_ok (m s).1 = true -> m s = (Ok tt, after m s).
Proof. apply ok_run. Qed.

Definition some_hash : Hash := (2, 1, [], [], [], 0).

Lemma batches_isolate_failures_witness :
  do_batch_commit_weights (Signed 2) [1; 9] [some_hash; some_hash] (start (Yuma, true)) =
  (Ok tt, log_events (outcomes (commit_items (Signed 2) [1; 9] [some_hash; some_hash]) (start (Yuma, true))).2
     [WeightSetting.BatchCompletedWithErrors; BatchWeightItemFailed 9 MechanismDoesNotExist;
      BatchWeightsCompleted [1; 9] 2]).
Proof.
  exact (proj1 (batches_isolate_failures lib_ex 2 [1; 9] [some_hash; some_hash] [[]; []] [0; 0]
    (start (Yuma, true)) eq_refl eq_refl eq_refl)).
Defined.


(** ** Committing and revealing *)

Definition uids_ex : list nat := [0%nat; 1%nat].
Definition vals_ex : list Z := [3; 6].
Definition index_ex : Z := get_mechanism_storage_index 1 1.
Definition hash_ex : Hash := get_commit_hash lib_ex 2 index_ex uids_ex vals_ex [8] 0.
Definition commit_ex : WeightCall (Hash := Hash) := commit_mechanism_weights 1 1 hash_ex.
Definition reveal_ex : WeightCall (Hash := Hash) := reveal_mechanism_weights 1 1 uids_ex vals_ex [8] 0.

(** A commit in epoch 5, the same again in epoch 6, and what is in epochs 6 and 7. *)
Definition committed5 : St := after (submit lib_ex (Signed 2) commit_ex) (start (Yuma, true)).
Definition epoch6 : St := at_block 1360 1350 6 committed5.
Definition committed6 : St := after (submit lib_ex (Signed 2) commit_ex) epoch6.
Definition epoch7 : St := at_block 1720 1710 7 committed6.

Definition set_ex : M St Error unit := do_set_mechanism_weights lib_ex (Signed 2) 1 1 uids_ex vals_ex 0.

Lemma start_scheduled w : scheduled 1 (sched (start w)).
Proof.
  split; [slot_lia|]. split; [done|]. split; [|done]. unfold ahead. simpl. lia.
Qed.

Lemma commits_revealed_once_witness :
  (revealed (index_ex, 2%Z) hash_ex committed5 + queued (index_ex, 2%Z) hash_ex committed5 <=
   committed (index_ex, 2%Z) hash_ex committed5)%nat /\ queued (index_ex, 2%Z) hash_ex committed5 = 1%nat.
Proof.
  split; [|vm_compute; reflexivity].
  apply (commits_revealed_once lib_ex 1 (start (Yuma, true)) committed5 index_ex 2 hash_ex);
    [reflexivity|reflexivity|]. apply rtc_once, weights_submit.
Defined.

Lemma commit_queues_ordered_witness :
  exists q, WeightCommits committed5 !! (index_ex, 2%Z) = Some q /\ (1 <= length q <= 10)%nat.
Proof.
  destruct (WeightCommits committed5 !! (index_ex, 2%Z)) as [q|] eqn:Hq; [|vm_compute in Hq; discriminate].
  exists q. split; [reflexivity|].
  apply (commit_queues_ordered lib_ex 1 (start (Yuma, true)) committed5 1 2 q).
  - unfold GLOBAL_MAX_SUBNET_COUNT. lia.
  - apply start_scheduled.
  - intros m a q' _ Hq'. unfold start in Hq'. simpl in Hq'. by rewrite lookup_empty in Hq'.
  - apply rtc_once, weights_submit.
  - lia.
  - exact Hq.
Defined.

Lemma committed_weights_revealed_witness : exists s4,
  dispatch_call lib_ex (Signed 2) reveal_ex epoch6 = (Ok tt, s4) /\ Weights s4 = Weights (after set_ex epoch6).
Proof.
  destruct (committed_weights_revealed lib_ex 2 1 1 uids_ex vals_ex [8] 0 (start (Yuma, true)) committed5
    epoch6 (after set_ex epoch6)) as (s4 & Hd & Hw & _).
  - intros q Hq. unfold start in Hq. simpl in Hq. by rewrite lookup_empty in Hq.
  - apply after_ok. vm_compute. reflexivity.
  - reflexivity.
  - vm_compute. reflexivity.
  - vm_compute. discriminate.
  - reflexivity.
  - apply after_ok. vm_compute. reflexivity.
  - exists s4. split; [exact Hd|exact Hw].
Defined.

Lemma recommitted_hash_blocked_witness :
  submit lib_ex (Signed 2) reveal_ex epoch7 = (Err RevealTooEarly, epoch7) /\
  exists s4, dispatch_call lib_ex (Signed 2) reveal_ex epoch7 = (Ok tt, s4).
Proof.
  apply (recommitted_hash_blocked lib_ex 2 1 1 uids_ex vals_ex [8] 0 epoch6 committed6 epoch7
    (after set_ex epoch7)) with (q := [mkCommit hash_ex 5 1000 0]) (d := mkCommit hash_ex 5 1000 0).
  - intros q Hq. vm_compute in Hq. injection Hq as <-.
    split; [repeat constructor|]. constructor; [vm_compute; discriminate|constructor].
  - apply after_ok. vm_compute. reflexivity.
  - reflexivity.
  - vm_compute. reflexivity.
  - vm_compute. discriminate.
  - reflexivity.
  - apply after_ok. vm_compute. reflexivity.
  - vm_compute. reflexivity.
  - by left.
  - reflexivity.
  - vm_compute. reflexivity.
  - vm_compute. reflexivity.
Defined.

Lemma neuron_uses_spaced_witness :
  WeightsSetRateLimit (AccountId := Z) (chain epoch6) 1 <= saturating_sub (now epoch6) (now (start (Yuma, true))).
Proof.
  apply (neuron_uses_spaced lib_ex 2 1 1 2%nat
    (internal_commit_weights (Signed 2) 1 1 hash_ex) (internal_commit_weights (Signed 2) 1 1 hash_ex)
    (start (Yuma, true)) committed5 epoch6 committed6 tt tt).
  all: try (apply use_commit). all: try reflexivity. all: try lia.
  all: try (apply after_ok; vm_compute; reflexivity).
  all: vm_compute; lia.
Defined.

(** ** Timelocked commits *)

Definition with_timelocked (w : World) (q : list (TimelockedCommit (AccountId := Z))) : St :=
  WeightSetting.mkState (sched_at 1360 1350 6 w) ∅ {[(1, 5) := q]} ∅ ∅ (fun _ => 1) [].

(** The round of the first is known, that of the second is not yet. *)
Definition known : TimelockedCommit (AccountId := Z) := mkTimelocked 2 1000 [x01] 400.
Definition unknown : TimelockedCommit (AccountId := Z) := mkTimelocked 1 1000 [x01] 600.

Lemma timelocked_reveal_exact_witness : exists s',
  reveal_crv3_commits_for_subnet lib_ex 1 (with_timelocked (Yuma, true) [known; unknown]) = (Ok tt, s') /\
  TimelockedWeightCommits s' !! (1, 5) = Some [unknown] /\ Weights s' !! (1, 2%nat) = Some [(1%nat, 7282); (2%nat, 65535)].
Proof.
  pose (s := with_timelocked (Yuma, true) [known; unknown]).
  destruct (timelocked_reveal_exact lib_ex 1 s) as (s' & Hr & _ & Ht & _);
    [reflexivity|vm_compute; discriminate|].
  exists s'. split; [exact Hr|]. split; [rewrite Ht; vm_compute; reflexivity|].
  assert (s' = (reveal_crv3_commits_for_subnet lib_ex 1 s).2) as -> by (rewrite Hr; reflexivity).
  vm_compute. reflexivity.
Defined.

(** Sixty-four rows of one validator fill the queue. *)
Definition full : St := with_timelocked (Null, true) (replicate 64 unknown).

Lemma full_lookup m : m <> 0 -> get_timelocked full (get_mechanism_storage_index 1 m) 5 = [].
Proof.
  intros Hm. unfold get_timelocked, full, with_timelocked. simpl. rewrite lookup_singleton_ne; [done|].
  unfold get_mechanism_storage_index, saturating_add, saturating_mul, GLOBAL_MAX_SUBNET_COUNT, u16_max.
  intros [=]. lia.
Qed.

Lemma full_bound : within_bound full 1 5.
Proof. split; vm_compute; discriminate. Qed.

Lemma winner_admitted_witness :
  exists s', enqueue_null_timelock lib_ex 2 1 1 [x01; x02] 1360 5 600 full = (Ok tt, s').
Proof.
  apply winner_admitted.
  - unfold GLOBAL_MAX_SUBNET_COUNT. lia.
  - exact full_bound.
  - simpl. lia.
  - simpl. lia.
  - vm_compute. discriminate.
  - intros m Hm. destruct (decide (m = 0)) as [->|Hne].
    + assert (filter (fun c => who c = 2) (get_timelocked full (get_mechanism_storage_index 1 0) 5) = []) as ->
        by (vm_compute; reflexivity). by repeat constructor.
    + rewrite full_lookup by done. by repeat constructor.
  - intros w priority m c Hm Hc Hwho. destruct (decide (m = 0)) as [->|Hne].
    + assert (c = unknown) as ->; [|vm_compute; reflexivity].
      change (c ∈ replicate 64 unknown) in Hc. by apply elem_of_replicate in Hc as [-> _].
    + rewrite full_lookup in Hc by done. by apply elem_of_nil in Hc.
Defined.

Lemma null_queue_bounded_witness :
  within_bound (after (enqueue_null_timelock lib_ex 2 1 1 [x01; x02] 1360 5 600) full) 1 5.
Proof.
  apply (null_queue_bounded lib_ex 2 1 1 [x01; x02] 1360 5 600 full tt).
  - unfold GLOBAL_MAX_SUBNET_COUNT. lia.
  - lia.
  - simpl. lia.
  - exact full_bound.
  - apply after_ok. vm_compute. reflexivity.
Defined.
