(* ===== verification/LimitOrders.v ===== *)
(** * Limit orders

    The pallet pallets/limit-orders (lib.rs, authorization.rs and v2.rs): orders
    that their owners sign off chain, or approve on chain, and that relayers
    execute, one by one or netted against each other in a batch.  The state is the
    storage of the pallet with the rest of the chain as an abstract [Ledger].  The
    trait OrderSwapInterface, which trades and moves assets there, is a class; the
    state records the calls made to it, each with the order it is made for, and the
    accounts reaped in the ghost list [trace] that nothing reads.  Hashing, encoding, signatures, addresses and the
    fixed-point and Perbill arithmetic are the record [Libraries]. *)

From Stdlib Require Import ZArith Lia Strings.String Strings.Byte.
From stdpp Require Import base gmap list fin_maps strings pretty.
From S2P Require Import Prelude.

(** ** Data *)

Definition LEDGER_MAX_SIGN_SIZE : nat := 256.
Definition MaxAuthorizedOrders : Z := 8.
Definition MaxPendingOrders : nat := 8.
Definition ORDER_ID_DOMAIN : list byte := list_byte_of_string "bittensor/ms/v2/order-id".
Definition LimitOrdersMaxOrdersPerBatch : nat := 100.
Definition LimitOrdersLinkedOutputTtl : Z := 180 * 24 * 60 * 60 * 1000.

Inductive OrderSide : Type := Buy | Sell.
Inductive OrderType : Type := LimitBuy | TakeProfit | StopLoss.

Definition is_buy (t : OrderType) : bool := match t with LimitBuy => true | _ => false end.

Inductive OrderStatus : Type := Fulfilled | PartiallyFilled (filled : Z) | Cancelled.

#[global] Instance OrderStatus_eq_dec : EqDecision OrderStatus.
Proof. solve_decision. Defined.

Inductive Error : Type :=
| InvalidSignature | OrderAlreadyProcessed | ErrorOrderCancelled | OrderExpired | PriceConditionNotMet
| Unauthorized | SwapReturnedZero | RootNetUidNotAllowed | OrderNetUidMismatch | LimitOrdersDisabled
| RelayerMissMatch | PartialFillsNotEnabled | IncorrectPartialFillAmount | RelayerRequiredForPartialFill
| ChainIdMismatch | PalletHotkeyNotRegistered | ArithmeticOverflow | DuplicateOrderInBatch
| ZeroShareInBatch | NoLinkedOutput | LinkedOutputSignerMismatch | LinkedOutputAssetMismatch
| LinkedOutputExpired | LinkedAmountResolvedToZero | PartialFillNotSupportedForLinkedAmount
| PartialFillNotSupportedForProvider | LinkedOutputNotPrunable | OrderSignerFrozen | OrderNonceUsed
| OrderNotApproved | OrderBatchTooLarge | InvalidAuthorizationMode | TooManyApprovedOrders
| OrderAccountMissing.

(** An error of this pallet, of a bad origin, or one that the swap interface
    reports. *)
Inductive DispatchError (OtherError : Type) : Type :=
| ModuleError (e : Error)
| BadOrigin
| OtherModule (e : OtherError).
Arguments ModuleError {OtherError} e.
Arguments BadOrigin {OtherError}.
Arguments OtherModule {OtherError} e.

Section orders.
Context {AccountId Hash Signature Commitment OtherError Ledger : Type}.
Context `{Countable AccountId} `{Countable Hash} `{!EqDecision Commitment}.

Inductive Origin : Type := Root | Signed (who : AccountId) | NoneOrigin.

Inductive LinkedAsset : Type := Tao | Alpha (netuid : Z) (hotkey : AccountId).

Inductive OrderAmount : Type :=
| Fixed (amount : Z)
| LinkedPercentage (provider : Hash) (pct : Z).

Definition is_linked (a : OrderAmount) : bool :=
  match a with LinkedPercentage _ _ => true | Fixed _ => false end.
Definition fixed_amount (a : OrderAmount) : option Z :=
  match a with Fixed amount => Some amount | LinkedPercentage _ _ => None end.
Definition linked (a : OrderAmount) : option (Hash * Z) :=
  match a with LinkedPercentage provider pct => Some (provider, pct) | Fixed _ => None end.

Record Order : Type := mkOrder {
  o_signer : AccountId;
  o_hotkey : AccountId;
  o_netuid : Z;
  o_order_type : OrderType;
  o_amount : Z;
  o_limit_price : Z;
  o_expiry : Z;
  o_fee_rate : Z;
  o_fee_recipient : AccountId;
  o_relayer : option (list AccountId);
  o_max_slippage : option Z;
  o_chain_id : Z;
  o_partial_fills_enabled : bool;
}.

Record OrderV2 : Type := mkOrderV2 {
  o2_signer : AccountId;
  o2_hotkey : AccountId;
  o2_netuid : Z;
  o2_order_type : OrderType;
  o2_amount : OrderAmount;
  o2_limit_price : Z;
  o2_expiry : Z;
  o2_fee_rate : Z;
  o2_fee_recipient : AccountId;
  o2_relayer : option (list AccountId);
  o2_max_slippage : option Z;
  o2_chain_id : Z;
  o2_partial_fills_enabled : bool;
  o2_has_linked_order : bool;
}.

Inductive OrderTerms : Type := TermsV1 (order : Order) | TermsV2 (order : OrderV2).

Inductive VersionedOrder : Type :=
| V1 (order : Order)
| V2 (order : OrderV2)
| Authorized (nonce : Z) (terms : OrderTerms).

(** The projection that all execution paths read. *)
Record OrderView : Type := mkView {
  authorization_nonce : option Z;
  signer : AccountId;
  hotkey : AccountId;
  netuid : Z;
  order_type : OrderType;
  amount : OrderAmount;
  limit_price : Z;
  expiry : Z;
  fee_rate : Z;
  fee_recipient : AccountId;
  relayer : option (list AccountId);
  max_slippage : option Z;
  chain_id : Z;
  partial_fills_enabled : bool;
  has_linked_order : bool;
}.

Record LinkedOutput : Type := mkLinkedOutput {
  l_signer : AccountId;
  l_asset : LinkedAsset;
  l_total : Z;
  l_expires_at : Z;
}.

Inductive MultiSignature : Type :=
| MultiEd25519 (sig : Signature) | MultiSr25519 (sig : Signature) | MultiEcdsa (sig : Signature).

Inductive OrderSignature : Type :=
| Ed25519 (sig : Signature) | Sr25519 (sig : Signature) | Ecdsa (sig : Signature) | AccountApproved.

Definition is_authenticated (sig : OrderSignature) : bool :=
  match sig with AccountApproved => true | _ => false end.

Definition from_multi_signature (sig : MultiSignature) : OrderSignature :=
  match sig with
  | MultiEd25519 sig => Ed25519 sig
  | MultiSr25519 sig => Sr25519 sig
  | MultiEcdsa sig => Ecdsa sig
  end.

Record SignedOrder : Type := mkSignedOrder {
  order : VersionedOrder;
  signature : OrderSignature;
  partial_fill : option Z;
}.

Inductive OrderAuthorization : Type := ByAccount.

Record AuthorizedOrder : Type := mkAuthorizedOrder {
  a_nonce : Z;
  a_order : VersionedOrder;
  a_authorization : OrderAuthorization;
  a_partial_fill : option Z;
}.

Record OrderApproval : Type := mkApproval {
  ap_id : Hash;
  ap_commitment : Commitment;
  ap_expiry : Z;
  ap_status : option OrderStatus;
}.

Record AccountOrderApprovals : Type := mkApprovals {
  highest_nonce : option Z;
  approved : gmap Z OrderApproval;
}.

Record OrderEntry : Type := mkEntry {
  e_order_id : Hash;
  e_authorization_nonce : option Z;
  e_signer : AccountId;
  e_hotkey : AccountId;
  e_side : OrderType;
  e_gross : Z;
  e_order_amount : Z;
  e_net : Z;
  e_fee_rate : Z;
  e_fee_recipient : AccountId;
  e_effective_swap_limit : Z;
  e_partial_fill : option Z;
  e_has_linked_order : bool;
  e_provider : option Hash;
}.

(** ** Orders *)

Definition versioned (t : OrderTerms) : VersionedOrder :=
  match t with TermsV1 o => V1 o | TermsV2 o => V2 o end.

Definition with_nonce (o : VersionedOrder) (nonce : Z) : option VersionedOrder :=
  match o with
  | V1 o => Some (Authorized nonce (TermsV1 o))
  | V2 o => Some (Authorized nonce (TermsV2 o))
  | Authorized _ _ => None
  end.

(** [impl TryFrom<AuthorizedOrder> for SignedOrder]. *)
Definition try_from_authorized (a : AuthorizedOrder) : option SignedOrder :=
  o ← with_nonce (a_order a) (a_nonce a);
  Some (mkSignedOrder o (match a_authorization a with ByAccount => AccountApproved end) (a_partial_fill a)).

Definition is_authorized (o : VersionedOrder) : bool :=
  match o with Authorized _ _ => true | _ => false end.

Definition authorized_terms (o : VersionedOrder) : option (Z * VersionedOrder) :=
  match o with Authorized nonce terms => Some (nonce, versioned terms) | _ => None end.

Definition from_v1 (o : Order) : OrderView :=
  mkView None (o_signer o) (o_hotkey o) (o_netuid o) (o_order_type o) (Fixed (o_amount o))
    (o_limit_price o) (o_expiry o) (o_fee_rate o) (o_fee_recipient o) (o_relayer o)
    (o_max_slippage o) (o_chain_id o) (o_partial_fills_enabled o) false.

Definition from_v2 (o : OrderV2) : OrderView :=
  mkView None (o2_signer o) (o2_hotkey o) (o2_netuid o) (o2_order_type o) (o2_amount o)
    (o2_limit_price o) (o2_expiry o) (o2_fee_rate o) (o2_fee_recipient o) (o2_relayer o)
    (o2_max_slippage o) (o2_chain_id o) (o2_partial_fills_enabled o) (o2_has_linked_order o).

Definition set_authorization_nonce (n : option Z) (v : OrderView) : OrderView :=
  mkView n (signer v) (hotkey v) (netuid v) (order_type v) (amount v) (limit_price v) (expiry v)
    (fee_rate v) (fee_recipient v) (relayer v) (max_slippage v) (chain_id v)
    (partial_fills_enabled v) (has_linked_order v).

Definition view (o : VersionedOrder) : OrderView :=
  match o with
  | V1 o => from_v1 o
  | V2 o => from_v2 o
  | Authorized nonce terms =>
      set_authorization_nonce (Some nonce)
        match terms with TermsV1 o => from_v1 o | TermsV2 o => from_v2 o end
  end.

Definition order_signer (o : VersionedOrder) : AccountId :=
  match o with
  | V1 o | Authorized _ (TermsV1 o) => o_signer o
  | V2 o | Authorized _ (TermsV2 o) => o2_signer o
  end.

Definition version_tag (o : VersionedOrder) : string :=
  match o with V1 _ => "v1" | V2 _ => "v2" | Authorized _ _ => "authorized" end.

Definition input_asset (v : OrderView) : LinkedAsset :=
  if is_buy (order_type v) then Tao else Alpha (netuid v) (hotkey v).
Definition output_asset (v : OrderView) : LinkedAsset :=
  if is_buy (order_type v) then Alpha (netuid v) (hotkey v) else Tao.

#[global] Instance LinkedAsset_eq_dec : EqDecision LinkedAsset.
Proof. solve_decision. Defined.

(** ** Code outside the repository *)

Record Libraries : Type := mkLibraries {
  (** [Perbill::mul_floor], and [saturating_mul] and [checked_div] of U64F64. *)
  mul_floor : Z -> Z -> Z;
  fixed_mul : Z -> Z -> Z;
  fixed_div : Z -> Z -> option Z;
  (** SCALE encodings of an order, and of a chain, an account, a nonce and an order. *)
  encode : VersionedOrder -> list byte;
  encode_terms : Hash -> AccountId -> Z -> VersionedOrder -> list byte;
  blake2_256 : list byte -> Hash;
  as_bytes : Hash -> list byte;
  shake256 : list byte -> Commitment;
  multi_verify : MultiSignature -> list byte -> AccountId -> bool;
  (** [to_ss58check_with_version] at the prefix of the chain. *)
  to_ss58check : AccountId -> string;
}.

(** ** The swap interface and the configuration *)

(** A call to the interface fails and changes nothing, or answers with the new
    ledger and the accounts that it reaped. *)
Class OrderSwapInterface : Type := {
  buy_alpha : AccountId -> AccountId -> Z -> Z -> Z -> bool -> Ledger ->
    result (Z * Ledger * list AccountId) OtherError;
  sell_alpha : AccountId -> AccountId -> Z -> Z -> Z -> bool -> Ledger ->
    result (Z * Ledger * list AccountId) OtherError;
  transfer_tao : AccountId -> AccountId -> Z -> Ledger ->
    result (unit * Ledger * list AccountId) OtherError;
  transfer_staked_alpha : AccountId -> AccountId -> AccountId -> AccountId -> Z -> Z -> bool -> bool ->
    Ledger -> result (unit * Ledger * list AccountId) OtherError;
  register_pallet_hotkey : AccountId -> AccountId -> Ledger ->
    result (unit * Ledger * list AccountId) OtherError;
  current_alpha_price : Ledger -> Z -> Z;
  pallet_hotkey_registered : Ledger -> AccountId -> AccountId -> bool;
}.

(** What is read of the rest of the chain. *)
Class Config : Type := {
  is_protected : Ledger -> AccountId -> bool;
  swap_announced : Ledger -> AccountId -> bool;
  swap_disputed : Ledger -> AccountId -> bool;
  providers : Ledger -> AccountId -> Z;
  sufficients : Ledger -> AccountId -> Z;
  ChainId : Ledger -> Z;
  genesis_hash : Hash;
  pallet_account : AccountId;
  PalletHotkey : AccountId;
}.

Context (lib : Libraries) `{!OrderSwapInterface} `{!Config}.

Definition AuthenticatedLimitOrderSignerFilter (l : Ledger) (signer : AccountId) : bool :=
  negb (swap_announced l signer) && negb (swap_disputed l signer).

Definition LimitOrderSignerFilter (l : Ledger) (signer : AccountId) : bool :=
  negb (is_protected l signer) && negb (swap_announced l signer) && negb (swap_disputed l signer).

(** ** State *)

Inductive Event : Type :=
| OrderExecuted (order_id : Hash) (signer : AccountId) (netuid : Z) (order_type : OrderType)
    (amount_in amount_out : Z)
| OrderSkipped (order_id : Hash) (reason : DispatchError OtherError)
| OrderCancelled (order_id : Hash) (signer : AccountId)
| GroupExecutionSummary (netuid : Z) (net_side : OrderSide) (net_amount actual_out executed_count : Z)
| LimitOrdersPalletStatusChanged (enabled : bool)
| LinkedOutputRecorded (order_id : Hash) (signer : AccountId) (asset : LinkedAsset) (total expires_at : Z)
| LinkedOutputConsumed (provider consumer : Hash) (amount undrawn : Z)
| LinkedOutputPruned (order_id : Hash) (total : Z)
| OrderApproved (order_id : Hash) (signer : AccountId) (nonce : Z).

(** The ghost trace: successful calls to the swap interface with their answers, and
    the accounts reaped.  [why] is the order that a call is made for; it is [None] for
    the calls that serve a batch as a whole. *)
Inductive Trace : Type :=
| Bought (why : option Hash) (coldkey hotkey : AccountId) (netuid tao alpha : Z)
| Sold (why : option Hash) (coldkey hotkey : AccountId) (netuid alpha tao : Z)
| MovedTao (why : option Hash) (from to : AccountId) (tao : Z)
| MovedAlpha (why : option Hash) (from_coldkey from_hotkey to_coldkey to_hotkey : AccountId) (netuid alpha : Z)
| Reaped (who : AccountId).

Record State : Type := mkState {
  Orders : gmap Hash OrderStatus;
  ApprovedOrders : gmap AccountId AccountOrderApprovals;
  LimitOrdersEnabled : bool;
  LinkedOutputs : gmap Hash LinkedOutput;
  HasMigrationRun : bool;
  (** [T::TimeProvider::now()], in milliseconds. *)
  now : Z;
  ledger : Ledger;
  events : list Event;
  trace : list Trace;
}.

Definition set_orders (f : gmap Hash OrderStatus -> gmap Hash OrderStatus) (s : State) : State :=
  mkState (f (Orders s)) (ApprovedOrders s) (LimitOrdersEnabled s) (LinkedOutputs s)
    (HasMigrationRun s) (now s) (ledger s) (events s) (trace s).
Definition set_approved (f : gmap AccountId AccountOrderApprovals -> gmap AccountId AccountOrderApprovals)
    (s : State) : State :=
  mkState (Orders s) (f (ApprovedOrders s)) (LimitOrdersEnabled s) (LinkedOutputs s)
    (HasMigrationRun s) (now s) (ledger s) (events s) (trace s).
Definition set_enabled (b : bool) (s : State) : State :=
  mkState (Orders s) (ApprovedOrders s) b (LinkedOutputs s)
    (HasMigrationRun s) (now s) (ledger s) (events s) (trace s).
Definition set_linked (f : gmap Hash LinkedOutput -> gmap Hash LinkedOutput) (s : State) : State :=
  mkState (Orders s) (ApprovedOrders s) (LimitOrdersEnabled s) (f (LinkedOutputs s))
    (HasMigrationRun s) (now s) (ledger s) (events s) (trace s).
Definition set_migrated (s : State) : State :=
  mkState (Orders s) (ApprovedOrders s) (LimitOrdersEnabled s) (LinkedOutputs s)
    true (now s) (ledger s) (events s) (trace s).
Definition set_ledger (l : Ledger) (s : State) : State :=
  mkState (Orders s) (ApprovedOrders s) (LimitOrdersEnabled s) (LinkedOutputs s)
    (HasMigrationRun s) (now s) l (events s) (trace s).
Definition deposit_event (e : Event) (s : State) : State :=
  mkState (Orders s) (ApprovedOrders s) (LimitOrdersEnabled s) (LinkedOutputs s)
    (HasMigrationRun s) (now s) (ledger s) (events s ++ [e]) (trace s).
Definition note (t : Trace) (s : State) : State :=
  mkState (Orders s) (ApprovedOrders s) (LimitOrdersEnabled s) (LinkedOutputs s)
    (HasMigrationRun s) (now s) (ledger s) (events s) (trace s ++ [t]).

Definition on_killed_account (who : AccountId) (s : State) : State :=
  note (Reaped who) (set_approved (delete who) s).

Abbreviation Call := (M State (DispatchError OtherError)).

(** One call to the interface. *)
Definition interface {A} (record : A -> option Trace)
    (op : Ledger -> result (A * Ledger * list AccountId) OtherError) : Call A := fun s =>
  match op (ledger s) with
  | Ok (a, l, killed) =>
      let s := foldl (fun s who => on_killed_account who s) (set_ledger l s) killed in
      (Ok a, match record a with Some t => note t s | None => s end)
  | Err e => (Err (OtherModule e), s)
  end.

Definition swap_buy (why : option Hash) (coldkey hotkey : AccountId) (netuid tao limit : Z) (validate : bool)
    : Call Z :=
  interface (fun alpha => Some (Bought why coldkey hotkey netuid tao alpha))
    (buy_alpha coldkey hotkey netuid tao limit validate).
Definition swap_sell (why : option Hash) (coldkey hotkey : AccountId) (netuid alpha limit : Z) (validate : bool)
    : Call Z :=
  interface (fun tao => Some (Sold why coldkey hotkey netuid alpha tao))
    (sell_alpha coldkey hotkey netuid alpha limit validate).
Definition move_tao (why : option Hash) (from to : AccountId) (tao : Z) : Call unit :=
  interface (fun _ => Some (MovedTao why from to tao)) (transfer_tao from to tao).
Definition move_alpha (why : option Hash) (from_coldkey from_hotkey to_coldkey to_hotkey : AccountId)
    (netuid alpha : Z) (validate_sender set_receiver_limit : bool) : Call unit :=
  interface (fun _ => Some (MovedAlpha why from_coldkey from_hotkey to_coldkey to_hotkey netuid alpha))
    (transfer_staked_alpha from_coldkey from_hotkey to_coldkey to_hotkey netuid alpha
       validate_sender set_receiver_limit).

Definition ensure_signed (o : Origin) : Call AccountId :=
  match o with Signed who => mret who | _ => fail BadOrigin end.
Definition ensure_root (o : Origin) : Call unit :=
  match o with Root => mret () | _ => fail BadOrigin end.

(** ** Numbers *)

Definition as_u64 (x : Z) : Z := x mod 2 ^ 64.

(** U64F64 by its 128 bits. *)
Definition from_num (n : Z) : Z := n * 2 ^ 64.
Definition saturating_from_num (n : Z) : Z := Z.min u128_max (n * 2 ^ 64).
Definition to_num (x : Z) : Z := x / 2 ^ 64.

Definition tao_to_alpha (tao price : Z) : Call Z :=
  if price =? from_num 0 then mret 0
  else ok_or (to_num <$> fixed_div lib (saturating_from_num tao) price) (ModuleError ArithmeticOverflow).

Definition alpha_to_tao (alpha price : Z) : Z :=
  to_num (fixed_mul lib price (saturating_from_num alpha)).

Definition compute_effective_swap_limit (is_buy : bool) (limit_price : Z) (max_slippage : option Z) : Z :=
  match max_slippage with
  | None => if is_buy then u64_max else 0
  | Some slippage =>
      let delta := mul_floor lib slippage limit_price in
      if is_buy then saturating_add u64_max limit_price delta else saturating_sub limit_price delta
  end.

(** ** Identity and signatures *)

Definition shake256_64 (parts : list (list byte)) : Commitment := shake256 lib (concat parts).

Definition derive_authorized_order_id (nonce : Z) (order : VersionedOrder) : Hash :=
  blake2_256 lib (ORDER_ID_DOMAIN ++ encode_terms lib genesis_hash (order_signer order) nonce order).

Definition order_approval_commitment (nonce : Z) (order : VersionedOrder) : Commitment :=
  let terms := encode_terms lib genesis_hash (order_signer order) nonce order in
  shake256_64 [list_byte_of_string "bittensor/ms/v2/order-approval"; terms].

Definition derive_order_id (order : VersionedOrder) : Hash :=
  match authorized_terms order with
  | Some (nonce, terms) => derive_authorized_order_id nonce terms
  | None => blake2_256 lib (encode lib order)
  end.

Definition verify (sig : OrderSignature) (message : list byte) (signer : AccountId) : bool :=
  match sig with
  | Ed25519 sig => multi_verify lib (MultiEd25519 sig) message signer
  | Sr25519 sig => multi_verify lib (MultiSr25519 sig) message signer
  | Ecdsa sig => multi_verify lib (MultiEcdsa sig) message signer
  | AccountApproved => false
  end.

Definition is_supported (sig : OrderSignature) : bool :=
  match sig with Sr25519 _ | Ed25519 _ => true | _ => false end.

Definition verify_order (so : SignedOrder) : bool :=
  is_supported (signature so) && verify (signature so) (encode lib (order so)) (order_signer (order so)).

Definition bytes_envelope (payload : list byte) : list byte :=
  list_byte_of_string "<Bytes>" ++ payload ++ list_byte_of_string "</Bytes>".

Definition verify_wrapped (so : SignedOrder) (order_id : Hash) : bool :=
  is_supported (signature so) &&
  verify (signature so) (bytes_envelope (as_bytes lib order_id)) (order_signer (order so)).

Definition render_account (who : AccountId) : string := to_ss58check lib who.

(** Formatting of a number and of bytes, [{}] and [HexDisplay]. *)
Definition render_number (n : Z) : string := pretty (Z.to_N n).
Definition hex_digit (n : N) : string :=
  default EmptyString (["0"; "1"; "2"; "3"; "4"; "5"; "6"; "7"; "8"; "9"; "a"; "b"; "c"; "d"; "e"; "f"]
    !! N.to_nat n).
Fixpoint render_hex (l : list byte) : string :=
  match l with
  | [] => EmptyString
  | b :: l => hex_digit (Byte.to_N b / 16) +:+ hex_digit (Byte.to_N b `mod` 16) +:+ render_hex l
  end.
Definition render_bool (b : bool) : string := if b then "true" else "false".

Definition render (a : OrderAmount) : string :=
  match a with
  | Fixed amount => render_number amount
  | LinkedPercentage provider pct =>
      render_number pct +:+ " ppb of order 0x" +:+ render_hex (as_bytes lib provider) +:+ " output"
  end.

Fixpoint render_list (l : list AccountId) : string :=
  match l with
  | [] => EmptyString
  | [r] => render_account r
  | r :: l => render_account r +:+ "+" +:+ render_list l
  end.

Definition render_relayer (relayer : option (list AccountId)) : string :=
  match relayer with
  | None => "none"
  | Some [] => "[]"
  | Some l => render_list l
  end.

Definition render_slippage (max_slippage : option Z) : string :=
  match max_slippage with None => "none" | Some p => render_number p end.

Definition render_tail (order : VersionedOrder) : string :=
  match order with
  | V1 _ => EmptyString
  | V2 o => ", has-linked-order " +:+ render_bool (o2_has_linked_order o)
  | Authorized nonce _ =>
      ", nonce " +:+ render_number nonce +:+ ", has-linked-order " +:+
      render_bool (has_linked_order (view order))
  end.

Definition label (t : OrderType) : string :=
  match t with LimitBuy => "Limit buy" | TakeProfit => "Take-profit" | StopLoss => "Stop-loss" end.
Definition price_word (t : OrderType) : string :=
  match t with LimitBuy => "limit price" | TakeProfit | StopLoss => "trigger price" end.

Definition render_order (order : VersionedOrder) : string :=
  let o := view order in
  "TAO.com order " +:+ version_tag order +:+ ": " +:+ label (order_type o) +:+ " " +:+
  render (amount o) +:+ " on subnet " +:+ render_number (netuid o) +:+ ", " +:+
  price_word (order_type o) +:+ " " +:+ render_number (limit_price o) +:+ ", expiry " +:+
  render_number (expiry o) +:+ ", hotkey " +:+ render_account (hotkey o) +:+ ", fee " +:+
  render_number (fee_rate o) +:+ " to " +:+ render_account (fee_recipient o) +:+ ", relayer " +:+
  render_relayer (relayer o) +:+ ", max slippage " +:+ render_slippage (max_slippage o) +:+
  ", chain " +:+ render_number (chain_id o) +:+ ", partial fills " +:+
  render_bool (partial_fills_enabled o) +:+ ", signer " +:+ render_account (signer o) +:+
  render_tail order.

(** The bytes a hardware wallet signs for the readable message. *)
Definition readable_bytes (order : VersionedOrder) : list byte :=
  let payload := bytes_envelope (list_byte_of_string (render_order order)) in
  if bool_decide (LEDGER_MAX_SIGN_SIZE < length payload)%nat
  then as_bytes lib (blake2_256 lib payload) else payload.

Definition verify_readable (so : SignedOrder) : bool :=
  is_supported (signature so) &&
  verify (signature so) (readable_bytes (order so)) (order_signer (order so)).

(** ** Approvals and the status of an order *)

Definition authenticated_order (so : SignedOrder) : Call (option AuthorizedOrder) :=
  match authorized_terms (order so) with
  | None =>
      ensure (negb (is_authenticated (signature so))) (ModuleError InvalidAuthorizationMode);;
      mret None
  | Some (nonce, terms) =>
      match signature so with
      | AccountApproved => mret (Some (mkAuthorizedOrder nonce terms ByAccount (partial_fill so)))
      | _ => fail (ModuleError InvalidAuthorizationMode)
      end
  end.

Definition attempts_approval (so : SignedOrder) : bool :=
  is_authorized (order so) || is_authenticated (signature so).

Definition check_authorized_batch_bound (orders : list SignedOrder) : Call unit :=
  let count := length (filter (fun so => attempts_approval so = true) orders) in
  ensure (Z.of_nat count <=? MaxAuthorizedOrders) (ModuleError OrderBatchTooLarge).

Definition is_terminal (status : option OrderStatus) : bool :=
  match status with Some (Fulfilled | Cancelled) => true | _ => false end.

Definition set_status (status : OrderStatus) (a : OrderApproval) : OrderApproval :=
  mkApproval (ap_id a) (ap_commitment a) (ap_expiry a) (Some status).

Definition approved_order (s : State) (owner : AccountId) (nonce : Z) : option OrderApproval :=
  st ← ApprovedOrders s !! owner; approved st !! nonce.

Definition order_status (s : State) (owner : AccountId) (nonce : option Z) (order_id : Hash)
    : option OrderStatus :=
  match nonce with
  | Some nonce =>
      a ← approved_order s owner nonce;
      if bool_decide (ap_id a = order_id) then ap_status a else None
  | None => Orders s !! order_id
  end.

Definition set_order_status (owner : AccountId) (nonce : option Z) (order_id : Hash) (status : OrderStatus)
    : State -> State :=
  match nonce with
  | Some nonce =>
      set_approved (alter (fun st => mkApprovals (highest_nonce st)
        (alter (fun a => if bool_decide (ap_id a = order_id) then set_status status a else a)
           nonce (approved st))) owner)
  | None => set_orders <[order_id := status]>
  end.

Definition cancel_authenticated_order (who : AccountId) (nonce : Z) (order : VersionedOrder) : Call unit :=
  transactional (
    let order_id := derive_authorized_order_id nonce order in
    a ← gets (fun s => approved_order s who nonce);
    match a with
    | None => mret ()
    | Some a =>
        ensure (bool_decide (ap_id a = order_id)) (ModuleError OrderNonceUsed);;
        ensure (negb (is_terminal (ap_status a))) (ModuleError OrderAlreadyProcessed);;
        modify (set_order_status who (Some nonce) order_id Cancelled)
    end;;
    modify (deposit_event (OrderCancelled order_id who))).

Definition approve_order (owner : AccountId) (nonce : Z) (order : VersionedOrder) : Call Hash :=
  s ← gets id;
  ensure ((0 <? providers (ledger s) owner) || (0 <? sufficients (ledger s) owner))
    (ModuleError OrderAccountMissing);;
  let order_id := derive_authorized_order_id nonce order in
  let expiry := expiry (view order) in
  ensure (now s <=? expiry) (ModuleError OrderExpired);;
  let st := default (mkApprovals None ∅) (ApprovedOrders s !! owner) in
  match approved st !! nonce with
  | Some a =>
      ensure (bool_decide (ap_id a = order_id)) (ModuleError OrderNonceUsed);;
      ensure (negb (is_terminal (ap_status a))) (ModuleError OrderAlreadyProcessed);;
      let a := mkApproval (ap_id a) (order_approval_commitment nonce order) (ap_expiry a) (ap_status a) in
      modify (set_approved <[owner := mkApprovals (highest_nonce st) (<[nonce := a]> (approved st))]>)
  | None =>
      ensure (match highest_nonce st with None => true | Some highest => highest <? nonce end)
        (ModuleError OrderNonceUsed);;
      let kept := filter (fun na => (now s <=? ap_expiry na.2) && negb (is_terminal (ap_status na.2)) = true)
        (approved st) in
      ensure (bool_decide (size kept < MaxPendingOrders)%nat) (ModuleError TooManyApprovedOrders);;
      let a := mkApproval order_id (order_approval_commitment nonce order) expiry None in
      modify (set_approved <[owner := mkApprovals (Some nonce) (<[nonce := a]> kept)]>)
  end;;
  mret order_id.

(** ** Validation *)

Definition resolve_amount (o : OrderView) (now_ms : Z) : Call (Z * option Hash) :=
  match linked (amount o) with
  | None => mret (default 0 (fixed_amount (amount o)), None)
  | Some (provider, pct) =>
      s ← gets id;
      record ← ok_or (LinkedOutputs s !! provider) (ModuleError NoLinkedOutput);
      ensure (bool_decide (l_signer record = signer o)) (ModuleError LinkedOutputSignerMismatch);;
      ensure (bool_decide (l_asset record = input_asset o)) (ModuleError LinkedOutputAssetMismatch);;
      ensure (now_ms <=? l_expires_at record) (ModuleError LinkedOutputExpired);;
      let amount := mul_floor lib pct (l_total record) in
      ensure (0 <? amount) (ModuleError LinkedAmountResolvedToZero);;
      mret (amount, Some provider)
  end.

Definition scaled_price (current_price : Z) : Z := fixed_mul lib current_price (from_num 1000000000).

Definition price_condition (o : OrderView) (current_price : Z) : bool :=
  let scaled_price := to_num (scaled_price current_price) in
  match order_type o with
  | TakeProfit => limit_price o <=? scaled_price
  | StopLoss | LimitBuy => scaled_price <=? limit_price o
  end.

Definition relayer_allowed (o : OrderView) (who : AccountId) : bool :=
  match relayer o with Some forced_relayers => bool_decide (who ∈ forced_relayers) | None => true end.

Definition check_fill (o : OrderView) (partial : option Z) (status : option OrderStatus) (amount' : Z)
    : Call unit :=
  match partial with
  | Some fill =>
      ensure (negb (is_linked (amount o))) (ModuleError PartialFillNotSupportedForLinkedAmount);;
      ensure (negb (has_linked_order o)) (ModuleError PartialFillNotSupportedForProvider);;
      ensure (bool_decide (is_Some (relayer o))) (ModuleError RelayerRequiredForPartialFill);;
      ensure (partial_fills_enabled o) (ModuleError PartialFillsNotEnabled);;
      let max_fill := match status with
        | Some (PartiallyFilled already_filled) => saturating_sub amount' already_filled
        | _ => amount' end in
      ensure ((0 <? fill) && (fill <=? max_fill)) (ModuleError IncorrectPartialFillAmount)
  | None =>
      ensure (match status with Some (PartiallyFilled _) => false | _ => true end)
        (ModuleError IncorrectPartialFillAmount)
  end.

Definition validate_order_execution (o : OrderView) (partial : option Z) (order_id : Hash)
    (now_ms current_price : Z) (who : AccountId) : Call (Z * option Hash) :=
  status ← gets (fun s => order_status s (signer o) (authorization_nonce o) order_id);
  ensure (bool_decide (status <> Some Fulfilled)) (ModuleError OrderAlreadyProcessed);;
  ensure (bool_decide (status <> Some Cancelled)) (ModuleError ErrorOrderCancelled);;
  ensure (now_ms <=? expiry o) (ModuleError OrderExpired);;
  ensure (price_condition o current_price) (ModuleError PriceConditionNotMet);;
  ensure (relayer_allowed o who) (ModuleError RelayerMissMatch);;
  r ← resolve_amount o now_ms;
  check_fill o partial status r.1;;
  mret r.

Definition validate_authorized_order (a : AuthorizedOrder) (o : OrderView) (order_id : Hash)
    (now_ms price : Z) (who : AccountId) : Call (Z * option Hash) :=
  s ← gets id;
  ensure (negb (netuid o =? 0)) (ModuleError RootNetUidNotAllowed);;
  ensure (AuthenticatedLimitOrderSignerFilter (ledger s) (signer o)) (ModuleError OrderSignerFrozen);;
  ensure (chain_id o =? ChainId (ledger s)) (ModuleError ChainIdMismatch);;
  approval ← ok_or (approved_order s (signer o) (a_nonce a)) (ModuleError OrderNotApproved);
  ensure (bool_decide (ap_id approval = order_id)) (ModuleError OrderNonceUsed);;
  r ← validate_order_execution o (a_partial_fill a) order_id now_ms price who;
  match a_authorization a with
  | ByAccount =>
      ensure (bool_decide (ap_commitment approval = order_approval_commitment (a_nonce a) (a_order a)))
        (ModuleError OrderNotApproved)
  end;;
  mret r.

Definition is_order_valid (so : SignedOrder) (order_id : Hash) (now_ms current_price : Z) (who : AccountId)
    : Call (Z * option Hash) :=
  authenticated ← authenticated_order so;
  match authenticated with
  | Some a => validate_authorized_order a (view (order so)) order_id now_ms current_price who
  | None =>
      s ← gets id;
      let o := view (order so) in
      ensure (negb (netuid o =? 0)) (ModuleError RootNetUidNotAllowed);;
      ensure (LimitOrderSignerFilter (ledger s) (signer o)) (ModuleError OrderSignerFrozen);;
      ensure (chain_id o =? ChainId (ledger s)) (ModuleError ChainIdMismatch);;
      ensure (verify_order so || verify_wrapped so order_id || verify_readable so)
        (ModuleError InvalidSignature);;
      validate_order_execution o (partial_fill so) order_id now_ms current_price who
  end.

(** ** Execution of one order *)

Definition forward_fee (why : option Hash) (from recipient : AccountId) (fee_tao : Z) : Call unit :=
  if fee_tao =? 0 then mret () else move_tao why from recipient fee_tao.

Definition consume_linked_output (provider consumer : Hash) (amount : Z) : Call unit :=
  s ← gets id;
  record ← ok_or (LinkedOutputs s !! provider) (ModuleError NoLinkedOutput);
  modify (set_linked (delete provider));;
  modify (deposit_event (LinkedOutputConsumed provider consumer amount
    (saturating_sub (l_total record) amount))).

Definition consume_provider (provider : option Hash) (consumer : Hash) (amount : Z) : Call unit :=
  match provider with Some provider => consume_linked_output provider consumer amount | None => mret () end.

Definition record_linked_output (order_id : Hash) (who : AccountId) (asset : LinkedAsset)
    (has_linked_order : bool) (amount_out : Z) : Call unit :=
  if negb has_linked_order || (amount_out =? 0) then mret ()
  else
    s ← gets id;
    let expires_at := saturating_add u64_max (now s) LimitOrdersLinkedOutputTtl in
    modify (set_linked <[order_id := mkLinkedOutput who asset amount_out expires_at]>);;
    modify (deposit_event (LinkedOutputRecorded order_id who asset amount_out expires_at)).

Definition compute_order_status (s : State) (owner : AccountId) (nonce : option Z) (order_id : Hash)
    (fill_amount : option Z) (order_amount : Z) : OrderStatus :=
  match fill_amount with
  | None => Fulfilled
  | Some fill =>
      let already_filled := match order_status s owner nonce order_id with
        | Some (PartiallyFilled n) => n | _ => 0 end in
      let new_total := saturating_add u64_max already_filled fill in
      if order_amount <=? new_total then Fulfilled else PartiallyFilled new_total
  end.

(** The status of an executed order. *)
Definition settle (owner : AccountId) (nonce : option Z) (order_id : Hash) (fill_amount : option Z)
    (order_amount : Z) : Call unit :=
  status ← gets (fun s => compute_order_status s owner nonce order_id fill_amount order_amount);
  modify (set_order_status owner nonce order_id status).

Definition execute_validated_order (o : OrderView) (partial : option Z) (order_id : Hash) (amount' : Z)
    (provider : option Hash) : Call unit :=
  let effective_swap_limit :=
    compute_effective_swap_limit (is_buy (order_type o)) (limit_price o) (max_slippage o) in
  let gross := default amount' partial in
  amounts ←
    (if is_buy (order_type o) then
       let fee_tao := mul_floor lib (fee_rate o) gross in
       let tao_after_fee := saturating_sub gross fee_tao in
       alpha_out ← swap_buy (Some order_id) (signer o) (hotkey o) (netuid o) tao_after_fee effective_swap_limit true;
       forward_fee (Some order_id) (signer o) (fee_recipient o) fee_tao;;
       mret (tao_after_fee, alpha_out)
     else
       tao_out ← swap_sell (Some order_id) (signer o) (hotkey o) (netuid o) gross effective_swap_limit true;
       let fee_tao := mul_floor lib (fee_rate o) tao_out in
       forward_fee (Some order_id) (signer o) (fee_recipient o) fee_tao;;
       mret (gross, saturating_sub tao_out fee_tao));
  consume_provider provider order_id amount';;
  settle (signer o) (authorization_nonce o) order_id partial amount';;
  record_linked_output order_id (signer o) (output_asset o) (has_linked_order o) amounts.2;;
  modify (deposit_event (OrderExecuted order_id (signer o) (netuid o) (order_type o) amounts.1 amounts.2)).

Definition try_execute_authorized_order (a : AuthorizedOrder) (order_id : Hash) (who : AccountId) : Call unit :=
  transactional (
    let o := set_authorization_nonce (Some (a_nonce a)) (view (a_order a)) in
    s ← gets id;
    let price := current_alpha_price (ledger s) (netuid o) in
    r ← validate_authorized_order a o order_id (now s) price who;
    execute_validated_order o (a_partial_fill a) order_id r.1 r.2).

Definition try_execute_order (so : SignedOrder) (order_id : Hash) (who : AccountId) : Call unit :=
  transactional (
    authenticated ← authenticated_order so;
    match authenticated with
    | Some a => try_execute_authorized_order a order_id who
    | None =>
        let o := view (order so) in
        s ← gets id;
        let current_price := current_alpha_price (ledger s) (netuid o) in
        r ← is_order_valid so order_id (now s) current_price who;
        execute_validated_order o (partial_fill so) order_id r.1 r.2
    end).

(** ** Execution of a batch *)

Definition classify_order (o : OrderView) (partial : option Z) (order_id : Hash) (amount' : Z)
    (provider : option Hash) : OrderEntry :=
  let amount_in := default amount' partial in
  let net := if is_buy (order_type o) then saturating_sub amount_in (mul_floor lib (fee_rate o) amount_in)
             else amount_in in
  mkEntry order_id (authorization_nonce o) (signer o) (hotkey o) (order_type o) amount_in amount' net
    (fee_rate o) (fee_recipient o)
    (compute_effective_swap_limit (is_buy (order_type o)) (limit_price o) (max_slippage o))
    partial (has_linked_order o) provider.

(** [BoundedVec::try_push]. *)
Definition try_push {A} (l : list A) (x : A) : option (list A) :=
  if bool_decide (length l < LimitOrdersMaxOrdersPerBatch)%nat then Some (l ++ [x]) else None.

(** What the loops that classify a batch carry: the two sides, the orders and the
    providers seen. *)
Record Classified : Type := mkClassified {
  buys : list OrderEntry;
  sells : list OrderEntry;
  seen_order_ids : gset Hash;
  seen_providers : gset Hash;
}.

Definition classify_step (netuid' now_ms current_price : Z) (who : AccountId)
    (push : list OrderEntry -> OrderEntry -> Call (list OrderEntry)) (c : Classified) (so : SignedOrder)
    : Call Classified :=
  let order_id := derive_order_id (order so) in
  ensure (bool_decide (order_id ∉ seen_order_ids c)) (ModuleError DuplicateOrderInBatch);;
  let o := view (order so) in
  ensure (netuid o =? netuid') (ModuleError OrderNetUidMismatch);;
  r ← is_order_valid so order_id now_ms current_price who;
  match r.2 with
  | Some provider => ensure (bool_decide (provider ∉ seen_providers c)) (ModuleError NoLinkedOutput)
  | None => mret ()
  end;;
  let providers' := match r.2 with Some provider => {[provider]} ∪ seen_providers c | None => seen_providers c end in
  let entry := classify_order o (partial_fill so) order_id r.1 r.2 in
  if is_buy (e_side entry) then
    l ← push (buys c) entry;
    mret (mkClassified l (sells c) ({[order_id]} ∪ seen_order_ids c) providers')
  else
    l ← push (sells c) entry;
    mret (mkClassified (buys c) l ({[order_id]} ∪ seen_order_ids c) providers').

Definition validate_and_classify (netuid' : Z) (orders : list SignedOrder) (now_ms current_price : Z)
    (who : AccountId) : Call (list OrderEntry * list OrderEntry) :=
  c ← fold_m orders (mkClassified [] [] ∅ ∅)
        (classify_step netuid' now_ms current_price who (fun l e => mret (default l (try_push l e))));
  mret (buys c, sells c).

Definition sum_net (l : list OrderEntry) : Z := foldr (fun e acc => e_net e + acc) 0 l.

(** [iter().min()] and [iter().max()]. *)
Definition list_min (l : list Z) : option Z :=
  match l with [] => None | x :: l => Some (foldl Z.min x l) end.
Definition list_max (l : list Z) : option Z :=
  match l with [] => None | x :: l => Some (foldl Z.max x l) end.

Definition collect_assets (bs ss : list OrderEntry) (pallet_acct pallet_hotkey : AccountId) (netuid' : Z)
    : Call unit :=
  for_each bs (fun e => move_tao (Some (e_order_id e)) (e_signer e) pallet_acct (e_gross e));;
  for_each ss (fun e =>
    move_alpha (Some (e_order_id e)) (e_signer e) (e_hotkey e) pallet_acct pallet_hotkey netuid' (e_gross e)
      true false).

Definition net_pool_swap (total_buy_net total_sell_net total_sell_tao_equiv current_price : Z)
    (pallet_acct pallet_hotkey : AccountId) (netuid' price_limit : Z) : Call (OrderSide * Z) :=
  if total_sell_tao_equiv <=? total_buy_net then
    let net_tao := as_u64 (saturating_sub total_buy_net total_sell_tao_equiv) in
    if 0 <? net_tao then
      out ← swap_buy None pallet_acct pallet_hotkey netuid' net_tao price_limit false;
      ensure (0 <? out) (ModuleError SwapReturnedZero);;
      mret (Buy, out)
    else mret (Buy, 0)
  else
    total_buy_alpha_equiv ← tao_to_alpha total_buy_net current_price;
    let net_alpha := as_u64 (saturating_sub total_sell_net total_buy_alpha_equiv) in
    if 0 <? net_alpha then
      out ← swap_sell None pallet_acct pallet_hotkey netuid' net_alpha price_limit false;
      ensure (0 <? out) (ModuleError SwapReturnedZero);;
      mret (Sell, out)
    else mret (Sell, 0).

(** A share of [total] in the proportion [part / whole]. *)
Definition pro_rata (total part whole : Z) : Z :=
  if 0 <? whole then as_u64 (default 0 (checked_div (saturating_mul u128_max total part) whole)) else 0.

Definition pay_buyer (total_alpha total_buy_net : Z) (pallet_acct pallet_hotkey : AccountId) (netuid' : Z)
    (e : OrderEntry) : Call unit :=
  let share := pro_rata total_alpha (e_net e) total_buy_net in
  ensure (0 <? share) (ModuleError ZeroShareInBatch);;
  ensure ((e_effective_swap_limit e =? u64_max) ||
    (saturating_mul u128_max (e_net e) 1000000000 <=?
     saturating_mul u128_max share (e_effective_swap_limit e))) (ModuleError PriceConditionNotMet);;
  move_alpha (Some (e_order_id e)) pallet_acct pallet_hotkey (e_signer e) (e_hotkey e) netuid' share false true;;
  settle (e_signer e) (e_authorization_nonce e) (e_order_id e) (e_partial_fill e) (e_order_amount e);;
  consume_provider (e_provider e) (e_order_id e) (e_order_amount e);;
  record_linked_output (e_order_id e) (e_signer e) (Alpha netuid' (e_hotkey e)) (e_has_linked_order e) share;;
  modify (deposit_event (OrderExecuted (e_order_id e) (e_signer e) netuid' (e_side e) (e_gross e) share)).

Definition distribute_alpha_pro_rata (bs : list OrderEntry) (actual_out total_buy_net total_sell_net : Z)
    (net_side : OrderSide) (current_price : Z) (pallet_acct pallet_hotkey : AccountId) (netuid' : Z)
    : Call unit :=
  total_alpha ← match net_side with
    | Buy => mret (saturating_add u128_max actual_out total_sell_net)
    | Sell => tao_to_alpha total_buy_net current_price end;
  for_each bs (pay_buyer total_alpha total_buy_net pallet_acct pallet_hotkey netuid').

Fixpoint add_fee (recipient : AccountId) (fee : Z) (fees : list (AccountId * Z)) : list (AccountId * Z) :=
  match fees with
  | [] => [(recipient, fee)]
  | (r, x) :: fees =>
      if bool_decide (r = recipient) then (r, saturating_add u64_max x fee) :: fees
      else (r, x) :: add_fee recipient fee fees
  end.

Definition pay_seller (total_tao total_sell_tao_equiv current_price : Z) (pallet_acct : AccountId) (netuid' : Z)
    (sell_fees : list (AccountId * Z)) (e : OrderEntry) : Call (list (AccountId * Z)) :=
  let sell_tao_equiv := alpha_to_tao (e_net e) current_price in
  let gross_share := pro_rata total_tao sell_tao_equiv total_sell_tao_equiv in
  let fee := mul_floor lib (e_fee_rate e) gross_share in
  let net_share := saturating_sub gross_share fee in
  ensure (0 <? net_share) (ModuleError ZeroShareInBatch);;
  ensure (saturating_mul u128_max (e_net e) (e_effective_swap_limit e) <=?
    saturating_mul u128_max gross_share 1000000000) (ModuleError PriceConditionNotMet);;
  let sell_fees := if 0 <? fee then add_fee (e_fee_recipient e) fee sell_fees else sell_fees in
  move_tao (Some (e_order_id e)) pallet_acct (e_signer e) net_share;;
  settle (e_signer e) (e_authorization_nonce e) (e_order_id e) (e_partial_fill e) (e_order_amount e);;
  consume_provider (e_provider e) (e_order_id e) (e_order_amount e);;
  record_linked_output (e_order_id e) (e_signer e) Tao (e_has_linked_order e) net_share;;
  modify (deposit_event (OrderExecuted (e_order_id e) (e_signer e) netuid' (e_side e) (e_gross e) net_share));;
  mret sell_fees.

Definition distribute_tao_pro_rata (ss : list OrderEntry) (actual_out total_buy_net total_sell_tao_equiv : Z)
    (net_side : OrderSide) (current_price : Z) (pallet_acct : AccountId) (netuid' : Z)
    : Call (list (AccountId * Z)) :=
  let total_tao := match net_side with
    | Sell => saturating_add u128_max actual_out total_buy_net
    | Buy => total_sell_tao_equiv end in
  fold_m ss [] (pay_seller total_tao total_sell_tao_equiv current_price pallet_acct netuid').

Definition merge_fees (bs : list OrderEntry) (sell_fees : list (AccountId * Z)) : list (AccountId * Z) :=
  foldl (fun fees e =>
    let fee := saturating_sub (e_gross e) (e_net e) in
    if 0 <? fee then add_fee (e_fee_recipient e) fee fees else fees) sell_fees bs.

Definition collect_fees (bs : list OrderEntry) (sell_fees : list (AccountId * Z)) (pallet_acct : AccountId)
    : Call unit :=
  for_each (merge_fees bs sell_fees) (fun rf => forward_fee None pallet_acct rf.1 rf.2).

Definition net_amount_for_event (net_side : OrderSide)
    (total_buy_net total_sell_net total_sell_tao_equiv current_price : Z) : Call Z :=
  match net_side with
  | Buy => mret (as_u64 (saturating_sub total_buy_net total_sell_tao_equiv))
  | Sell =>
      alpha ← tao_to_alpha total_buy_net current_price;
      mret (saturating_sub (as_u64 total_sell_net) (as_u64 alpha))
  end.

Definition execute_classified_batch (netuid' current_price : Z) (valid_buys valid_sells : list OrderEntry)
    : Call unit :=
  let executed_count := Z.of_nat (length valid_buys) + Z.of_nat (length valid_sells) in
  if executed_count =? 0 then mret () else
  let scaled_price := scaled_price current_price in
  for_each valid_buys (fun e =>
    ensure ((e_effective_swap_limit e =? u64_max) || (scaled_price <=? from_num (e_effective_swap_limit e)))
      (ModuleError PriceConditionNotMet));;
  for_each valid_sells (fun e =>
    ensure (from_num (e_effective_swap_limit e) <=? scaled_price) (ModuleError PriceConditionNotMet));;
  let total_buy_net := sum_net valid_buys in
  let total_sell_net := sum_net valid_sells in
  let total_sell_tao_equiv := alpha_to_tao total_sell_net current_price in
  let pallet_acct := pallet_account in
  let pallet_hotkey := PalletHotkey in
  collect_assets valid_buys valid_sells pallet_acct pallet_hotkey netuid';;
  let pool_price_limit :=
    if total_sell_tao_equiv <=? total_buy_net
    then default u64_max (list_min (e_effective_swap_limit <$> valid_buys))
    else default 0 (list_max (e_effective_swap_limit <$> valid_sells)) in
  side_out ← net_pool_swap total_buy_net total_sell_net total_sell_tao_equiv current_price
    pallet_acct pallet_hotkey netuid' pool_price_limit;
  distribute_alpha_pro_rata valid_buys side_out.2 total_buy_net total_sell_net side_out.1 current_price
    pallet_acct pallet_hotkey netuid';;
  sell_fees ← distribute_tao_pro_rata valid_sells side_out.2 total_buy_net total_sell_tao_equiv side_out.1
    current_price pallet_acct netuid';
  collect_fees valid_buys sell_fees pallet_acct;;
  net_amount ← net_amount_for_event side_out.1 total_buy_net total_sell_net total_sell_tao_equiv current_price;
  modify (deposit_event (GroupExecutionSummary netuid' side_out.1 net_amount (as_u64 side_out.2) executed_count)).

Definition do_execute_authenticated_batch (netuid' : Z) (orders : list SignedOrder) (who : AccountId)
    : Call unit :=
  transactional (
    ensure (negb (netuid' =? 0)) (ModuleError RootNetUidNotAllowed);;
    ensure (bool_decide (length orders <= LimitOrdersMaxOrdersPerBatch)%nat) (ModuleError OrderBatchTooLarge);;
    s ← gets id;
    let price := current_alpha_price (ledger s) netuid' in
    c ← fold_m orders (mkClassified [] [] ∅ ∅)
          (classify_step netuid' (now s) price who
             (fun l e => ok_or (try_push l e) (ModuleError OrderBatchTooLarge)));
    execute_classified_batch netuid' price (buys c) (sells c)).

Definition do_execute_batched_orders (netuid' : Z) (orders : list SignedOrder) (who : AccountId) : Call unit :=
  if existsb attempts_approval orders then do_execute_authenticated_batch netuid' orders who
  else
    ensure (negb (netuid' =? 0)) (ModuleError RootNetUidNotAllowed);;
    s ← gets id;
    let current_price := current_alpha_price (ledger s) netuid' in
    valid ← validate_and_classify netuid' orders (now s) current_price who;
    execute_classified_batch netuid' current_price valid.1 valid.2.

(** ** The calls *)

(** [if let Err(reason) = m { handler }]. *)
Definition or_else (m : Call unit) (handler : DispatchError OtherError -> Call unit) : Call unit := fun s =>
  match m s with (Ok u, s') => (Ok u, s') | (Err reason, s') => handler reason s' end.

Definition ensure_enabled : Call unit :=
  enabled ← gets LimitOrdersEnabled; ensure enabled (ModuleError LimitOrdersDisabled).

Definition execute_orders (origin : Origin) (orders : list SignedOrder) (should_fail : bool) : Call unit :=
  who ← ensure_signed origin;
  ensure_enabled;;
  check_authorized_batch_bound orders;;
  for_each orders (fun so =>
    let order_id := derive_order_id (order so) in
    or_else (try_execute_order so order_id who) (fun reason =>
      if should_fail then fail reason else modify (deposit_event (OrderSkipped order_id reason)))).

Definition execute_batched_orders (origin : Origin) (netuid' : Z) (orders : list SignedOrder) : Call unit :=
  who ← ensure_signed origin;
  ensure_enabled;;
  check_authorized_batch_bound orders;;
  do_execute_batched_orders netuid' orders who.

Definition cancel_order (origin : Origin) (order : VersionedOrder) : Call unit :=
  who ← ensure_signed origin;
  ensure (bool_decide (order_signer order = who)) (ModuleError Unauthorized);;
  match authorized_terms order with
  | Some (nonce, terms) => cancel_authenticated_order who nonce terms
  | None =>
      let order_id := derive_order_id order in
      s ← gets id;
      ensure (bool_decide (Orders s !! order_id = None)) (ModuleError OrderAlreadyProcessed);;
      modify (set_orders <[order_id := Cancelled]>);;
      modify (deposit_event (OrderCancelled order_id who))
  end.

Definition set_pallet_status (origin : Origin) (enabled : bool) : Call unit :=
  ensure_root origin;;
  s ← gets id;
  (if enabled
   then ensure (pallet_hotkey_registered (ledger s) pallet_account PalletHotkey)
          (ModuleError PalletHotkeyNotRegistered)
   else mret ());;
  modify (set_enabled enabled);;
  modify (deposit_event (LimitOrdersPalletStatusChanged enabled)).

Definition prune_linked_output (origin : Origin) (order_id : Hash) : Call unit :=
  who ← ensure_signed origin;
  s ← gets id;
  record ← ok_or (LinkedOutputs s !! order_id) (ModuleError NoLinkedOutput);
  ensure (bool_decide (l_signer record = who) || (l_expires_at record <? now s))
    (ModuleError LinkedOutputNotPrunable);;
  modify (set_linked (delete order_id));;
  modify (deposit_event (LinkedOutputPruned order_id (l_total record))).

Definition authorize_order (origin : Origin) (order : VersionedOrder) : Call unit :=
  transactional (
    who ← ensure_signed origin;
    ensure (bool_decide (order_signer order = who)) (ModuleError Unauthorized);;
    terms ← ok_or (authorized_terms order) (ModuleError InvalidAuthorizationMode);
    ensure_enabled;;
    s ← gets id;
    ensure (AuthenticatedLimitOrderSignerFilter (ledger s) who) (ModuleError OrderSignerFrozen);;
    order_id ← approve_order who terms.1 terms.2;
    modify (deposit_event (OrderApproved order_id who terms.1))).

Inductive OrderCall : Type :=
| call_execute_orders (orders : list SignedOrder) (should_fail : bool)
| call_execute_batched_orders (netuid : Z) (orders : list SignedOrder)
| call_cancel_order (order : VersionedOrder)
| call_set_pallet_status (enabled : bool)
| call_prune_linked_output (order_id : Hash)
| call_authorize_order (order : VersionedOrder).

(** A call in the storage layer of its dispatch. *)
Definition dispatch (origin : Origin) (call : OrderCall) : Call unit :=
  transactional
    match call with
    | call_execute_orders orders should_fail => execute_orders origin orders should_fail
    | call_execute_batched_orders netuid orders => execute_batched_orders origin netuid orders
    | call_cancel_order order => cancel_order origin order
    | call_set_pallet_status enabled => set_pallet_status origin enabled
    | call_prune_linked_output order_id => prune_linked_output origin order_id
    | call_authorize_order order => authorize_order origin order
    end.

(** ** Genesis and upgrades *)

Definition register_hotkey : Call unit :=
  or_else (interface (fun _ => None) (register_pallet_hotkey pallet_account PalletHotkey)) (fun _ => mret ()).

Definition genesis_build : Call unit :=
  register_hotkey;; modify (set_enabled true).

Definition migrate_register_pallet_hotkey : Call unit :=
  s ← gets id;
  if HasMigrationRun s then mret ()
  else
    (if pallet_hotkey_registered (ledger s) pallet_account PalletHotkey then mret () else register_hotkey);;
    modify set_migrated.
End orders.
