(* ===== verification/LimitOrdersLogic.v ===== *)
(** * Limit orders: the rules their theorems rest on

    Both ways of executing an order, one by one and in a batch, validate it in the
    state they start from and then settle an entry for it.  This file shows it
    ([try_execute_order_ok], [execute_batched_orders_ok]), what a valid entry is
    ([valid_entry_facts]), and gives the steps of the chain ([order_step]). *)

From Stdlib Require Import ZArith Lia.
From stdpp Require Import base gmap list fin_maps relations.
From S2P Require Import Prelude LimitOrders.

(** Sums over a list. *)
Definition total {A} (w : A -> Z) (l : list A) : Z := foldr (fun x acc => w x + acc) 0 l.

Lemma total_append {A} (w : A -> Z) l1 l2 : total w (l1 ++ l2) = total w l1 + total w l2.
Proof. induction l1 as [|x l1 IH]; [done|]. cbn. fold (total w (l1 ++ l2)) (total w l1). lia. Qed.

Lemma total_zero {A} (w : A -> Z) l : (forall x, x ∈ l -> w x = 0) -> total w l = 0.
Proof.
  induction l as [|x l IH]; intros Hl; [done|]. cbn. fold (total w l).
  rewrite IH, (Hl x) by (try intros; try apply Hl; by constructor). done.
Qed.

Section rules.
Context {AccountId Hash Signature Commitment OtherError Ledger : Type}.
Context `{Countable AccountId} `{Countable Hash} `{!EqDecision Commitment}.
Context (lib : Libraries (AccountId := AccountId) (Hash := Hash) (Signature := Signature)
  (Commitment := Commitment)).
Context {swap : OrderSwapInterface (AccountId := AccountId) (OtherError := OtherError) (Ledger := Ledger)}.
Context {cfg : Config (AccountId := AccountId) (Hash := Hash) (Ledger := Ledger)}.
Abbreviation St := (State (AccountId := AccountId) (Hash := Hash) (Commitment := Commitment)
  (OtherError := OtherError) (Ledger := Ledger)).
Abbreviation Call := (M St (DispatchError OtherError)).
Abbreviation Entry := (OrderEntry (AccountId := AccountId) (Hash := Hash)).
Abbreviation Tr := (Trace (AccountId := AccountId) (Hash := Hash)).
Abbreviation View := (OrderView (AccountId := AccountId) (Hash := Hash)).
Implicit Types (s t : St) (e : Entry).
Implicit Types (so : SignedOrder (AccountId := AccountId) (Hash := Hash) (Signature := Signature)).

(** ** Frames *)

(** Parts of the state that neither the interface nor events touch. *)
Lemma fixed_interface {A B} (g : St -> B) (record : A -> option Trace) op :
  (forall s l, g (set_ledger l s) = g s) -> (forall s who, g (on_killed_account who s) = g s) ->
  (forall s a tr, record a = Some tr -> g (note tr s) = g s) ->
  fixed g (interface record op : Call A).
Proof.
  intros Hl Hk Hn s. unfold interface. destruct (op (ledger s)) as [[[a l] killed]|]; [|done]. simpl.
  set (s1 := foldl _ _ _). assert (Hs1 : g s1 = g s).
  { unfold s1. rewrite <- (Hl s l). apply (foldl_fixed g). intros. apply Hk. }
  destruct (record a) as [tr|] eqn:Hr; [by rewrite (Hn _ _ _ Hr)|done].
Qed.

Lemma fixed_transactional {A B} (g : St -> B) (m : Call A) : fixed g m -> fixed g (transactional m).
Proof. intros Hm s. specialize (Hm s). unfold transactional. by destruct (m s) as [[?|?] ?]. Qed.

Lemma fixed_or_else {B} (g : St -> B) (m : Call unit) h :
  fixed g m -> (forall r, fixed g (h r)) -> fixed g (or_else m h).
Proof.
  intros Hm Hh s. specialize (Hm s). unfold or_else. destruct (m s) as [[?|r] s1]; simpl in *; [done|].
  by rewrite Hh.
Qed.

(** Checks change nothing. *)
Lemma fixed_id {A} (m : Call A) s r s' : fixed id m -> m s = (r, s') -> s' = s.
Proof. intros Hm E. specialize (Hm s). by rewrite E in Hm. Qed.

Lemma is_order_valid_readonly so i n p who : fixed id (is_order_valid lib so i n p who : Call _).
Proof.
  unfold is_order_valid, validate_authorized_order, validate_order_execution, authenticated_order,
    resolve_amount, check_fill. cbv zeta. solve_fixed.
Qed.

(** ** Valid entries *)

(** [e] is what the signed order [so] becomes when [who] relays it in the state [s]. *)
Definition valid_entry s (who : AccountId) so e : Prop :=
  exists price amount' provider,
    price = current_alpha_price (ledger s) (netuid (view (order so))) /\
    is_order_valid lib so (derive_order_id lib (order so)) (now s) price who s = (Ok (amount', provider), s) /\
    e = classify_order lib (view (order so)) (partial_fill so) (derive_order_id lib (order so)) amount' provider.

Lemma view_versioned (n : Z) (terms : OrderTerms (AccountId := AccountId) (Hash := Hash)) :
  set_authorization_nonce (Some n) (view (versioned terms)) = view (Authorized n terms).
Proof. by destruct terms. Qed.

Lemma try_execute_order_ok so who s s' :
  try_execute_order lib so (derive_order_id lib (order so)) who s = (Ok tt, s') ->
  exists amount' provider,
    valid_entry s who so (classify_order lib (view (order so)) (partial_fill so)
      (derive_order_id lib (order so)) amount' provider) /\
    execute_validated_order lib (view (order so)) (partial_fill so) (derive_order_id lib (order so))
      amount' provider s = (Ok tt, s').
Proof.
  intros He. unfold try_execute_order in He. minv_step. apply bind_ok in He as (a & s1 & Ha & He).
  assert (s1 = s) as -> by (eapply (fixed_id (authenticated_order so)); [|done]; unfold authenticated_order; solve_fixed).
  destruct a as [a|].
  - unfold try_execute_authorized_order in He. minv_step. cbv zeta in He. minv_step.
    apply gets_ok in H1 as [-> ->]. apply bind_ok in He as ([amount' provider] & s1 & Hv & He).
    unfold authenticated_order in Ha. destruct (order so) as [o|o|n terms] eqn:Ho; simpl in Ha; minv; try done.
    destruct (signature so) eqn:Hsig; minv. simplify_eq. simpl in *. rewrite view_versioned in *.
    assert (s1 = s) as ->.
    { eapply fixed_id; [|done]. unfold validate_authorized_order, validate_order_execution, resolve_amount, check_fill.
      cbv zeta. solve_fixed. }
    exists amount', provider. split; [|done]. eexists _, _, _. rewrite Ho. split_and!; [done| |done].
    unfold is_order_valid. rewrite (bind_run _ _ s (Some (mkAuthorizedOrder n (versioned terms) ByAccount (partial_fill so))) s).
    2: { unfold authenticated_order. by rewrite Ho, Hsig. } rewrite Ho. by destruct terms.
  - cbv zeta in He. minv_step. apply gets_ok in H1 as [-> ->].
    apply bind_ok in He as ([amount' provider] & s1 & Hv & He).
    pose proof (fixed_id _ _ _ _ (is_order_valid_readonly _ _ _ _ _) Hv) as ->.
    exists amount', provider. split; [|done]. by eexists _, _, _.
Qed.

(** *** What validation checks *)

(** The input of an order: a fixed amount, or a part of a recorded output. *)
Definition resolves s (v : OrderView) (amount' : Z) (provider : option Hash) : Prop :=
  match amount v with
  | Fixed a => amount' = a /\ provider = None
  | LinkedPercentage p pct => exists r, LinkedOutputs s !! p = Some r /\ l_signer r = signer v /\
      l_asset r = input_asset v /\ now s <= l_expires_at r /\ amount' = mul_floor lib pct (l_total r) /\
      0 < amount' /\ provider = Some p
  end.

(** A fill fits the status of its order. *)
Definition fill_fits (v : OrderView (AccountId := AccountId) (Hash := Hash)) (partial : option Z)
    (status : option OrderStatus) (amount' : Z) : Prop :=
  match partial, status with
  | Some fill, None => 0 < fill <= amount'
  | Some fill, Some (PartiallyFilled n) => 0 < fill <= saturating_sub amount' n
  | None, None => True
  | _, _ => False
  end /\
  (is_Some partial -> is_linked (amount v) = false /\ has_linked_order v = false /\
    is_Some (relayer v) /\ partial_fills_enabled v = true).

Lemma resolve_amount_ok v s r s' :
  resolve_amount lib v (now s) s = (Ok r, s') -> resolves s v r.1 r.2.
Proof.
  unfold resolve_amount, resolves. destruct (amount v); simpl; intros Hr; [by minv|].
  apply bind_ok in Hr as (? & ? & [-> ->]%gets_ok & Hr).
  apply bind_ok in Hr as (rec & ? & [Hrec ->]%ok_or_ok & Hr). cbv zeta in Hr.
  do 4 apply bind_ok in Hr as ([] & ? & [? ->]%ensure_ok & Hr). apply ret_ok in Hr as [-> ->]. bool_to_prop. eauto 10.
Qed.

Lemma check_fill_ok v partial status amount' s s' :
  status <> Some Fulfilled -> status <> Some Cancelled ->
  (check_fill v partial status amount' : Call unit) s = (Ok tt, s') -> fill_fits v partial status amount'.
Proof.
  intros H1 H2 Hc. unfold check_fill in Hc. destruct partial as [fill|].
  - do 4 apply bind_ok in Hc as ([] & ? & [? ->]%ensure_ok & Hc). cbv zeta in Hc. apply ensure_ok in Hc as [? ->].
    bool_to_prop. split; [|by eauto]. by destruct status as [[| |]|].
  - apply ensure_ok in Hc as [? ->]. split; [by destruct status as [[| |]|]|]. by intros [? ?].
Qed.

Lemma validate_order_execution_ok v partial i s price who amount' provider s' :
  validate_order_execution lib v partial i (now s) price who s = (Ok (amount', provider), s') ->
  now s <= expiry v /\ price_condition lib v price = true /\ relayer_allowed v who = true /\
  resolves s v amount' provider /\
  fill_fits v partial (order_status s (signer v) (authorization_nonce v) i) amount'.
Proof.
  intros Hv. unfold validate_order_execution in Hv. apply bind_ok in Hv as (st & ? & [-> ->]%gets_ok & Hv).
  do 5 apply bind_ok in Hv as ([] & ? & [? ->]%ensure_ok & Hv). bool_to_prop.
  apply bind_ok in Hv as (r & s1 & Hr & Hv).
  assert (s1 = s) as -> by (eapply fixed_id; [|done]; unfold resolve_amount; cbv zeta; solve_fixed).
  apply resolve_amount_ok in Hr. apply bind_ok in Hv as ([] & s1 & Hc & [<- ->]%ret_ok). simpl in *.
  apply check_fill_ok in Hc; [by split_and!|done..].
Qed.

(** The owner consents: by a signature on one of three renderings of the order, or
    by an approval of exactly these terms in the storage. *)
Definition authorised s so : Prop :=
  let who := signer (view (order so)) in
  match order so with
  | Authorized n terms => signature so = AccountApproved /\
      AuthenticatedLimitOrderSignerFilter (ledger s) who = true /\
      exists a, approved_order s who n = Some a /\ ap_id a = derive_order_id lib (order so) /\
        ap_commitment a = order_approval_commitment lib n (versioned terms)
  | _ => is_supported (signature so) = true /\ LimitOrderSignerFilter (ledger s) who = true /\
      exists message, verify lib (signature so) message who = true /\
        (message = encode lib (order so) \/
         message = bytes_envelope (as_bytes lib (derive_order_id lib (order so))) \/
         message = readable_bytes lib (order so))
  end.

Lemma signer_view (o : VersionedOrder (AccountId := AccountId) (Hash := Hash)) : signer (view o) = order_signer o.
Proof. by destruct o as [| |? []]. Qed.

Lemma valid_entry_facts s who so e :
  valid_entry s who so e ->
  let v := view (order so) in
  authorised s so /\ netuid v <> 0 /\ chain_id v = ChainId (ledger s) /\ now s <= expiry v /\
  price_condition lib v (current_alpha_price (ledger s) (netuid v)) = true /\ relayer_allowed v who = true /\
  resolves s v (e_order_amount e) (e_provider e) /\
  fill_fits v (partial_fill so) (order_status s (signer v) (authorization_nonce v) (e_order_id e)) (e_order_amount e) /\
  e = classify_order lib v (partial_fill so) (derive_order_id lib (order so)) (e_order_amount e) (e_provider e).
Proof.
  intros (price & amount' & provider & -> & Hv & ->). simpl. unfold is_order_valid in Hv.
  apply bind_ok in Hv as (a & s1 & Ha & Hv). unfold authenticated_order in Ha.
  destruct (authorized_terms (order so)) as [[n terms]|] eqn:Ht.
  - destruct (order so) as [| |n' terms'] eqn:Ho; simplify_eq/=.
    destruct (signature so) eqn:Hsig; minv; try done. unfold validate_authorized_order in Hv.
    apply bind_ok in Hv as (? & ? & [-> ->]%gets_ok & Hv).
    do 3 apply bind_ok in Hv as ([] & ? & [? ->]%ensure_ok & Hv).
    apply bind_ok in Hv as (ap & ? & [? ->]%ok_or_ok & Hv). apply bind_ok in Hv as ([] & ? & [? ->]%ensure_ok & Hv).
    apply bind_ok in Hv as ([? ?] & s2 & Hx & Hv). apply bind_ok in Hv as ([] & ? & [? ->]%ensure_ok & [? ->]%ret_ok).
    simplify_eq/=. bool_to_prop. unfold id in *. apply validate_order_execution_ok in Hx as (?&?&?&?&?).
    split_and!; try done. unfold authorised. rewrite Ho. eauto 10.
  - apply bind_ok in Ha as ([] & ? & [? ->]%ensure_ok & [-> ->]%ret_ok). cbv zeta in Hv.
    apply bind_ok in Hv as (? & ? & [-> ->]%gets_ok & Hv).
    do 4 apply bind_ok in Hv as ([] & ? & [? ->]%ensure_ok & Hv). unfold id in *.
    apply validate_order_execution_ok in Hv as (?&?&?&?&?). bool_to_prop. split_and!; try done.
    unfold authorised. rewrite signer_view in *. destruct (order so) as [o|o|] eqn:Ho; [..|done].
    all: repeat match goal with Hx : (_ || _)%bool = true |- _ => apply orb_true_iff in Hx as [Hx|Hx] end.
    all: unfold verify_order, verify_wrapped, verify_readable in *; rewrite Ho in *; bool_to_prop; eauto 10.
Qed.

(** ** Batches *)

Lemma fold_m_inv {A C} (P : C -> Prop) (l : list A) (body : C -> A -> Call C) c c' s s' :
  (forall c x c' s', x ∈ l -> P c -> body c x s = (Ok c', s') -> s' = s /\ P c') ->
  P c -> fold_m l c body s = (Ok c', s') -> s' = s /\ P c'.
Proof.
  intros Hb. revert c. induction l as [|x l IH]; intros c Hc Hf; simpl in Hf; [by minv|].
  apply bind_ok in Hf as (c1 & s1 & H1 & Hf). apply Hb in H1 as [-> Hc1]; [|by left|done].
  eapply IH; [|done..]. intros. eapply Hb; [by right|done..].
Qed.

(** [e] is the entry of an order of the batch, which is for this subnet. *)
Definition batch_entry s (who : AccountId) (n : Z) (orders : list SignedOrder) e : Prop :=
  exists so, so ∈ orders /\ netuid (view (order so)) = n /\ valid_entry s who so e.

Record classified s (who : AccountId) (n : Z) (orders : list SignedOrder)
    (bs ss : list Entry) : Prop := {
  classified_buys e : e ∈ bs -> is_buy (e_side e) = true /\ batch_entry s who n orders e;
  classified_sells e : e ∈ ss -> is_buy (e_side e) = false /\ batch_entry s who n orders e;
  classified_ids : NoDup (e_order_id <$> bs ++ ss);
}.

Lemma classify_step_ok s who n orders push c so c' s' :
  (forall l e s1 l' s2, push l e s1 = (Ok l', s2) -> s2 = s1 /\ (l' = l ++ [e] \/ l' = l)) ->
  so ∈ orders ->
  classified s who n orders (buys c) (sells c) /\ (forall e, e ∈ buys c ++ sells c -> e_order_id e ∈ seen_order_ids c) ->
  classify_step lib n (now s) (current_alpha_price (ledger s) n) who push c so s = (Ok c', s') ->
  s' = s /\ classified s who n orders (buys c') (sells c') /\
    (forall e, e ∈ buys c' ++ sells c' -> e_order_id e ∈ seen_order_ids c').
Proof.
  intros Hpush Hso [[Hb Hs Hnd] Hseen] Hc. unfold classify_step in Hc. cbv zeta in Hc.
  apply bind_ok in Hc as ([] & s1 & [Hnew ->]%ensure_ok & Hc).
  apply bind_ok in Hc as ([] & s1 & [Hn ->]%ensure_ok & Hc).
  apply bind_ok in Hc as ([amount' provider] & s1 & Hv & Hc).
  pose proof (fixed_id _ _ _ _ (is_order_valid_readonly _ _ _ _ _) Hv) as ->. bool_to_prop.
  apply bind_ok in Hc as ([] & s1 & Hp & Hc).
  assert (s1 = s) as -> by (simpl in Hp; destruct provider; by minv).
  set (e := classify_order _ _ _ _ _ _) in Hc. set (i := derive_order_id lib (order so)) in *.
  assert (He : batch_entry s who n orders e).
  { exists so. split_and!; [done..|]. eexists _, _, _. subst n. by split_and!. }
  assert (Hfresh : i ∉ e_order_id <$> buys c ++ sells c).
  { intros (x & Hx & Hin)%list_elem_of_fmap. apply Hnew. rewrite Hx. by apply Hseen. }
  destruct (is_buy (e_side e)) eqn:Hside; apply bind_ok in Hc as (l & s1 & [-> Hl]%Hpush & Hc); minv; (split; [done|]); simpl.
  - destruct Hl as [-> | ->]; [|split; [done|intros x Hx; apply elem_of_union_r; by apply Hseen]]. split.
    + split; [|done|].
      * intros x [Hx| ->%list_elem_of_singleton]%elem_of_app; [by apply Hb|done].
      * rewrite <- app_assoc. cbn [app]. rewrite fmap_app, fmap_cons. change (e_order_id e) with i.
        rewrite <- Permutation_middle. constructor; by rewrite <- fmap_app.
    + intros x Hx. apply elem_of_app in Hx as [[Hx| ->%list_elem_of_singleton]%elem_of_app|Hx].
      2: by apply elem_of_union_l, elem_of_singleton.
      all: apply elem_of_union_r, Hseen, elem_of_app; tauto.
  - destruct Hl as [-> | ->]; [|split; [done|intros x Hx; apply elem_of_union_r; by apply Hseen]]. split.
    + split; [done| |].
      * intros x [Hx| ->%list_elem_of_singleton]%elem_of_app; [by apply Hs|done].
      * rewrite app_assoc, fmap_app. simpl. change (e_order_id e) with i.
        rewrite <- Permutation_cons_append. by constructor.
    + intros x Hx. apply elem_of_app in Hx as [Hx|[Hx| ->%list_elem_of_singleton]%elem_of_app].
      3: by apply elem_of_union_l, elem_of_singleton.
      all: apply elem_of_union_r, Hseen, elem_of_app; tauto.
Qed.

Lemma classify_ok s who n orders push c' s' :
  (forall l e s1 l' s2, push l e s1 = (Ok l', s2) -> s2 = s1 /\ (l' = l ++ [e] \/ l' = l)) ->
  fold_m orders (mkClassified [] [] ∅ ∅) (classify_step lib n (now s) (current_alpha_price (ledger s) n) who push) s
    = (Ok c', s') ->
  s' = s /\ classified s who n orders (buys c') (sells c').
Proof.
  intros Hp Hf.
  apply (fold_m_inv (fun c => classified s who n orders (buys c) (sells c) /\
    (forall e, e ∈ buys c ++ sells c -> e_order_id e ∈ seen_order_ids c))) in Hf as [-> [? _]]; [done| |].
  { intros c x c1 s1 Hx Hc. by apply classify_step_ok. }
  split; [|by intros ? ?%not_elem_of_nil]. split; [by intros ? ?%not_elem_of_nil..|constructor].
Qed.

(** Each order gets its entry, as long as the two sides have room. *)
Lemma classify_step_adds s who n push c so c' s' :
  (forall l e s1 l' s2, push l e s1 = (Ok l', s2) ->
    s2 = s1 /\ ((length l < LimitOrdersMaxOrdersPerBatch)%nat -> l' = l ++ [e])) ->
  (length (buys c) + length (sells c) < LimitOrdersMaxOrdersPerBatch)%nat ->
  classify_step lib n (now s) (current_alpha_price (ledger s) n) who push c so s = (Ok c', s') ->
  s' = s /\ exists e, (valid_entry s who so e /\ netuid (view (order so)) = n) /\ buys c' ++ sells c' ≡ₚ e :: buys c ++ sells c /\
    (length (buys c') + length (sells c') = S (length (buys c) + length (sells c)))%nat.
Proof.
  intros Hpush Hlen Hc. unfold classify_step in Hc. cbv zeta in Hc.
  apply bind_ok in Hc as ([] & s1 & [_ ->]%ensure_ok & Hc).
  apply bind_ok in Hc as ([] & s1 & [Hn ->]%ensure_ok & Hc).
  apply bind_ok in Hc as ([amount' provider] & s1 & Hv & Hc).
  pose proof (fixed_id _ _ _ _ (is_order_valid_readonly _ _ _ _ _) Hv) as ->. bool_to_prop.
  apply bind_ok in Hc as ([] & s1 & Hp & Hc). assert (s1 = s) as -> by (simpl in Hp; destruct provider; by minv).
  set (e := classify_order _ _ _ _ _ _) in Hc.
  destruct (is_buy (e_side e)); apply bind_ok in Hc as (l & s2 & [-> Hl]%Hpush & [-> ->]%ret_ok);
    (split; [done|]); (exists e); (split; [split; [eexists _, _, _; subst n; by split_and!|done]|]); rewrite Hl by lia; simpl; rewrite length_app; simpl;
    (split; [solve_Permutation|lia]).
Qed.

Lemma classify_all s who n push orders c c' s' :
  (forall l e s1 l' s2, push l e s1 = (Ok l', s2) ->
    s2 = s1 /\ ((length l < LimitOrdersMaxOrdersPerBatch)%nat -> l' = l ++ [e])) ->
  (length orders + (length (buys c) + length (sells c)) <= LimitOrdersMaxOrdersPerBatch)%nat ->
  fold_m orders c (classify_step lib n (now s) (current_alpha_price (ledger s) n) who push) s = (Ok c', s') ->
  (forall e, e ∈ buys c ++ sells c -> e ∈ buys c' ++ sells c') /\
  forall so, so ∈ orders -> exists e, e ∈ buys c' ++ sells c' /\ valid_entry s who so e /\ netuid (view (order so)) = n.
Proof.
  intros Hpush. revert c. induction orders as [|so orders IH]; intros c Hlen Hf; simpl in Hf.
  { minv. split; [done|]. by intros so ?%not_elem_of_nil. }
  apply bind_ok in Hf as (c1 & s1 & Hc & Hf). cbn [length] in Hlen.
  apply (classify_step_adds _ _ _ _ _ _ _ _ Hpush) in Hc as (-> & e & Hv & Hp & Hl); [|lia].
  destruct (IH c1) as [Hk Ha]; [lia|done|]. split.
  - intros x Hx. apply Hk. rewrite Hp. by right.
  - intros so' [->|Hin]%elem_of_cons; [|by apply Ha]. exists e. split; [|done]. apply Hk. rewrite Hp. by left.
Qed.

Lemma execute_batched_orders_ok origin n orders s s' :
  execute_batched_orders lib origin n orders s = (Ok tt, s') ->
  exists who bs ss, origin = Signed who /\ LimitOrdersEnabled s = true /\ classified s who n orders bs ss /\
    execute_classified_batch lib n (current_alpha_price (ledger s) n) bs ss s = (Ok tt, s') /\
    ((length orders <= LimitOrdersMaxOrdersPerBatch)%nat ->
     forall so, so ∈ orders -> exists e, e ∈ bs ++ ss /\ valid_entry s who so e /\ netuid (view (order so)) = n).
Proof.
  intros He. unfold execute_batched_orders, ensure_enabled, check_authorized_batch_bound in He. cbv zeta in He.
  apply bind_ok in He as (who & s1 & Hw & He).
  destruct origin as [|who'|]; simpl in Hw; [by minv| |by minv]. apply ret_ok in Hw as [-> ->].
  apply bind_ok in He as ([] & s1 & Hen & He). apply bind_ok in Hen as (b & s2 & [-> ->]%gets_ok & [Hen ->]%ensure_ok).
  apply bind_ok in He as ([] & s1 & [_ ->]%ensure_ok & He). exists who'.
  unfold do_execute_batched_orders in He. destruct (existsb attempts_approval orders).
  - unfold do_execute_authenticated_batch in He. minv_step. cbv zeta in He.
    apply bind_ok in He as ([] & s1 & [_ ->]%ensure_ok & He).
    apply bind_ok in He as ([] & s1 & [_ ->]%ensure_ok & He).
    apply bind_ok in He as (? & s1 & [-> ->]%gets_ok & He).
    apply bind_ok in He as (c & s1 & Hc & He). assert (Hc' := Hc). apply classify_ok in Hc as [-> Hc].
    2: { intros l e s2 l' s3 Hl. minv. split; [done|]. left. unfold try_push in *. by case_match; simplify_eq. }
    exists (buys c), (sells c). split_and!; [done..|]. intros Hlen. refine (proj2 (classify_all _ _ _ _ _ _ _ _ _ _ Hc')); [|cbn [length buys sells]; lia].
    intros l e s2 l' s3 Hl. minv. split; [done|]. intros _. unfold try_push in *. by case_match; simplify_eq.
  - apply bind_ok in He as ([] & s1 & [_ ->]%ensure_ok & He).
    apply bind_ok in He as (? & s1 & [-> ->]%gets_ok & He). cbv zeta in He.
    apply bind_ok in He as (v & s1 & Hv & He). unfold validate_and_classify in Hv.
    apply bind_ok in Hv as (c & s2 & Hc & [-> ->]%ret_ok). assert (Hc' := Hc). apply classify_ok in Hc as [-> Hc].
    2: { intros l e s1 l' s3 Hl. minv. split; [done|]. unfold try_push. case_match; [by left|by right]. }
    exists (buys c), (sells c). split_and!; [done..|]. intros Hlen. refine (proj2 (classify_all _ _ _ _ _ _ _ _ _ _ Hc')); [|cbn [length buys sells]; lia].
    intros l e s1 l' s3 Hl. minv. split; [done|]. intros Hll. unfold try_push. by rewrite bool_decide_eq_true_2.
Qed.

(** ** Steps of the chain *)

(** The rest of the chain moves on: time passes, accounts are reaped. *)
Definition set_chain (l : Ledger) (ms : Z) s : St :=
  mkState (Orders s) (ApprovedOrders s) (LimitOrdersEnabled s) (LinkedOutputs s)
    (HasMigrationRun s) ms l (events s) (trace s).

Inductive order_step : St -> St -> Prop :=
| step_call origin call s r s' : dispatch lib origin call s = (r, s') -> order_step s s'
| step_chain l (ms : Z) s : now s <= ms -> order_step s (set_chain l ms s)
| step_reap who s : order_step s (on_killed_account who s)
| step_upgrade s r s' : migrate_register_pallet_hotkey s = (r, s') -> order_step s s'.

(** Events about recorded outputs, which only executions emit. *)
Definition is_linked_event (ev : Event (AccountId := AccountId) (Hash := Hash) (OtherError := OtherError)) : bool :=
  match ev with LinkedOutputRecorded _ _ _ _ _ | LinkedOutputConsumed _ _ _ _ => true | _ => false end.

(** What an invariant must survive. *)
Record order_invariant (P : St -> Prop) : Prop := {
  inv_event ev s : is_linked_event ev = false -> P s -> P (deposit_event ev s);
  inv_single s who so amount' provider s' :
    valid_entry s who so (classify_order lib (view (order so)) (partial_fill so)
      (derive_order_id lib (order so)) amount' provider) ->
    execute_validated_order lib (view (order so)) (partial_fill so) (derive_order_id lib (order so))
      amount' provider s = (Ok tt, s') -> P s -> P s';
  inv_batch s who n orders bs ss s' :
    classified s who n orders bs ss ->
    execute_classified_batch lib n (current_alpha_price (ledger s) n) bs ss s = (Ok tt, s') -> P s -> P s';
  inv_cancel s (o : VersionedOrder) :
    authorized_terms o = None -> Orders s !! derive_order_id lib o = None -> P s ->
    P (set_orders <[derive_order_id lib o := Cancelled]> s);
  inv_cancel_approved s who n a :
    approved_order s who n = Some a -> is_terminal (ap_status a) = false -> P s ->
    P (set_order_status who (Some n) (ap_id a) Cancelled s);
  inv_approve s n (o : VersionedOrder) i s' :
    approve_order lib (order_signer o) n o s = (Ok i, s') -> P s -> P s';
  inv_prune s i : P s -> P (set_linked (delete i) s);
  inv_enabled s b : P s -> P (set_enabled b s);
  inv_migrated s : P s -> P (set_migrated s);
  inv_ledger s l : P s -> P (set_ledger l s);
  inv_chain s l (ms : Z) : now s <= ms -> P s -> P (set_chain l ms s);
  inv_reap s who : P s -> P (on_killed_account who s);
}.

(** Executing orders one by one runs the valid ones and reports the others. *)
Lemma execute_orders_loop (P : St -> Prop) origin orders should_fail s :
  (forall ev s, is_linked_event ev = false -> P s -> P (deposit_event ev s)) ->
  (forall who so amount' provider t t', origin = Signed who -> so ∈ orders -> LimitOrdersEnabled s = true ->
    valid_entry t who so (classify_order lib (view (order so)) (partial_fill so)
      (derive_order_id lib (order so)) amount' provider) ->
    execute_validated_order lib (view (order so)) (partial_fill so) (derive_order_id lib (order so))
      amount' provider t = (Ok tt, t') -> P t -> P t') ->
  P s -> P (execute_orders lib origin orders should_fail s).2.
Proof.
  intros Hev Hex Hs. unfold execute_orders, ensure_enabled, check_authorized_batch_bound, mbind, M_bind.
  destruct origin as [|who|]; simpl; [done| |done]. unfold ensure.
  destruct (LimitOrdersEnabled s) eqn:Hen; simpl; [|done]. destruct (_ <=? MaxAuthorizedOrders); simpl; [|done].
  clear Hen. revert s Hs Hex. induction orders as [|so orders IH]; intros s Hs Hex; simpl; [done|].
  assert (Hex' : forall who0 so amount' provider t t', Signed who = Signed who0 -> so ∈ orders -> true = true ->
    valid_entry t who0 so (classify_order lib (view (order so)) (partial_fill so)
      (derive_order_id lib (order so)) amount' provider) ->
    execute_validated_order lib (view (order so)) (partial_fill so) (derive_order_id lib (order so))
      amount' provider t = (Ok tt, t') -> P t -> P t').
  { intros who0 so0 x p t t' ? ?. apply Hex; [done|by right]. }
  unfold mbind, M_bind, or_else.
  destruct (try_execute_order lib so (derive_order_id lib (order so)) who s) as [[[]|reason] s1] eqn:He.
  - apply IH; [|done]. apply try_execute_order_ok in He as (amount' & provider & Hv & He). eapply Hex; try done. by left.
  - assert (s1 = s) as ->.
    { unfold try_execute_order, transactional in He. case_match; simplify_eq. case_match; by simplify_eq. }
    destruct should_fail; simpl; [done|]. apply IH; [by apply Hev|done].
Qed.

Section invariants.
Context (P : St -> Prop) (HP : order_invariant P).

Lemma execute_orders_inv origin orders should_fail s :
  P s -> P (execute_orders lib origin orders should_fail s).2.
Proof.
  apply execute_orders_loop; [apply (inv_event _ HP)|]. intros who so x p t t' _ _ _. apply (inv_single _ HP).
Qed.

Lemma interface_inv {A} record (op : Ledger -> result (A * Ledger * list AccountId) OtherError) s :
  (forall a, record a = None) -> P s -> P (interface record op s).2.
Proof.
  intros Hr Hs. unfold interface. destruct (op (ledger s)) as [[[a l] killed]|]; [|done]. simpl. rewrite Hr.
  apply foldl_inv; [intros; by apply (inv_reap _ HP)|by apply (inv_ledger _ HP)].
Qed.

Lemma register_hotkey_inv s : P s -> P ((register_hotkey : Call unit) s).2.
Proof.
  intros Hs. unfold register_hotkey, or_else.
  assert (Hi := interface_inv (fun _ => None) (register_pallet_hotkey pallet_account PalletHotkey) s (fun _ => eq_refl) Hs).
  by destruct (interface _ _ s) as [[[]|] ?].
Qed.

Lemma dispatch_inv origin call s : P s -> P (dispatch lib origin call s).2.
Proof.
  intros Hs. unfold dispatch, transactional. destruct (match call with _ => _ end s) as [[[]|] s'] eqn:Hc; [|done]. simpl.
  destruct call as [orders should_fail|n orders|o|enabled|i|o].
  - assert (Hx := execute_orders_inv origin orders should_fail s Hs). by rewrite Hc in Hx.
  - apply execute_batched_orders_ok in Hc as (who & bs & ss & _ & _ & Hcl & He & _). by eapply (inv_batch _ HP).
  - unfold cancel_order in Hc. apply bind_ok in Hc as (who & s1 & Hw & Hc).
    destruct origin as [|who'|]; simpl in Hw; [by minv| |by minv]. apply ret_ok in Hw as [-> ->].
    apply bind_ok in Hc as ([] & s1 & [_ ->]%ensure_ok & Hc).
    destruct (authorized_terms o) as [[n terms]|] eqn:Ht.
    + unfold cancel_authenticated_order in Hc. minv_step. cbv zeta in Hc. apply bind_ok in Hc as (a & s1 & [-> ->]%gets_ok & Hc).
      apply bind_ok in Hc as ([] & s1 & Ha & Hc%modify_ok). subst s'. apply (inv_event _ HP); [done|].
      destruct (approved_order s who' n) as [a|] eqn:Hap; [|by minv].
      do 2 apply bind_ok in Ha as ([] & ? & [? ->]%ensure_ok & Ha). apply modify_ok in Ha as ->. bool_to_prop.
      rewrite <- H1. by apply (inv_cancel_approved _ HP).
    + cbv zeta in Hc. apply bind_ok in Hc as (? & ? & [-> ->]%gets_ok & Hc).
      apply bind_ok in Hc as ([] & ? & [? ->]%ensure_ok & Hc). bool_to_prop.
      apply bind_ok in Hc as ([] & ? & ->%modify_ok & ->%modify_ok). apply (inv_event _ HP); [done|]. by apply (inv_cancel _ HP).
  - unfold set_pallet_status in Hc. apply bind_ok in Hc as ([] & s1 & Hw & Hc).
    destruct origin; simpl in Hw; [|by minv..]. apply ret_ok in Hw as [_ ->].
    apply bind_ok in Hc as (? & ? & [-> ->]%gets_ok & Hc). apply bind_ok in Hc as ([] & s1 & Hx & Hc).
    assert (s1 = s) as -> by (destruct enabled; by minv).
    apply bind_ok in Hc as ([] & ? & ->%modify_ok & ->%modify_ok). apply (inv_event _ HP); [done|]. by apply (inv_enabled _ HP).
  - unfold prune_linked_output in Hc. apply bind_ok in Hc as (who & s1 & Hw & Hc).
    destruct origin as [|who'|]; simpl in Hw; [by minv| |by minv]. apply ret_ok in Hw as [-> ->].
    apply bind_ok in Hc as (? & ? & [-> ->]%gets_ok & Hc). apply bind_ok in Hc as (r & ? & [? ->]%ok_or_ok & Hc).
    apply bind_ok in Hc as ([] & ? & [_ ->]%ensure_ok & Hc).
    apply bind_ok in Hc as ([] & ? & ->%modify_ok & ->%modify_ok). apply (inv_event _ HP); [done|]. by apply (inv_prune _ HP).
  - unfold authorize_order, ensure_enabled in Hc. minv_step. apply bind_ok in Hc as (who & s1 & Hw & Hc).
    destruct origin as [|who'|]; simpl in Hw; [by minv| |by minv]. apply ret_ok in Hw as [-> ->].
    apply bind_ok in Hc as ([] & ? & [Hsig ->]%ensure_ok & Hc). apply bind_ok in Hc as ([n terms] & ? & [Ht ->]%ok_or_ok & Hc).
    apply bind_ok in Hc as ([] & ? & Hen & Hc). apply bind_ok in Hen as (b & s2 & [-> ->]%gets_ok & [_ ->]%ensure_ok).
    apply bind_ok in Hc as (? & ? & [-> ->]%gets_ok & Hc). apply bind_ok in Hc as ([] & ? & [_ ->]%ensure_ok & Hc).
    apply bind_ok in Hc as (i & s1 & Ha & ->%modify_ok). apply (inv_event _ HP); [done|]. bool_to_prop. subst who'.
    destruct o as [| |n' terms']; simplify_eq/=. eapply (inv_approve _ HP); [|done].
    instantiate (2 := versioned terms'). by destruct terms'.
Qed.

Lemma order_step_inv s s' : order_step s s' -> P s -> P s'.
Proof.
  intros [origin call s1 r s2 Hd|l ms s1 Ht|who s1|s1 r s2 Hm] Hs.
  - assert (Hx := dispatch_inv origin call s1 Hs). by rewrite Hd in Hx.
  - by apply (inv_chain _ HP).
  - by apply (inv_reap _ HP).
  - assert (Hx : P ((migrate_register_pallet_hotkey : Call unit) s1).2); [|by rewrite Hm in Hx].
    unfold migrate_register_pallet_hotkey. rewrite bind_gets. destruct (HasMigrationRun _); [done|].
    unfold mbind, M_bind. destruct (pallet_hotkey_registered _ _ _); simpl; [by apply (inv_migrated _ HP)|].
    assert (Hx := register_hotkey_inv s1 Hs). destruct (register_hotkey s1) as [[?|?] s3]; simpl in *; [|done].
    by apply (inv_migrated _ HP).
Qed.

Lemma order_steps_inv s s' : rtc order_step s s' -> P s -> P s'.
Proof. induction 1; [done|]. intros. by eauto using order_step_inv. Qed.
End invariants.

(** ** What calls to the interface change *)

(** The order that a call to the interface is made for. *)
Definition tag (tr : Tr) : option Hash :=
  match tr with
  | Bought why _ _ _ _ _ | Sold why _ _ _ _ _ | MovedTao why _ _ _ | MovedAlpha why _ _ _ _ _ _ => why
  | Reaped _ => None
  end.

Definition is_reap (tr : Tr) : bool :=
  match tr with Reaped _ => true | _ => false end.

(** The calls to the interface, in order. *)
Definition moves s : list Tr := filter (fun tr => is_reap tr = false) (trace s).

(** The rest of the chain changed, and accounts may have been reaped. *)
Record moved s t : Prop := {
  moved_orders : Orders t = Orders s;
  moved_linked : LinkedOutputs t = LinkedOutputs s;
  moved_now : now t = now s;
  moved_events : events t = events s;
  moved_reaped : exists new, trace t = trace s ++ new /\
    forall who, ApprovedOrders t !! who = ApprovedOrders s !! who \/ (ApprovedOrders t !! who = None /\ Reaped who ∈ new);
}.

Lemma moved_refl s : moved s s.
Proof. split; try done. exists []. rewrite app_nil_r. split; [done|by left]. Qed.

Lemma moved_trans s t u : moved s t -> moved t u -> moved s u.
Proof.
  intros [A1 A2 A3 A4 (n1 & A5 & A6)] [B1 B2 B3 B4 (n2 & B5 & B6)]. split; try congruence.
  exists (n1 ++ n2). split; [by rewrite B5, A5, app_assoc|]. setoid_rewrite elem_of_app. intros who.
  destruct (B6 who) as [B|[? ?]]; [|by auto]. destruct (A6 who) as [A|[A HA]]; [left; congruence|]. right. split; [congruence|by left].
Qed.

Lemma moved_trace s t : moved s t -> exists new, trace t = trace s ++ new.
Proof. intros [_ _ _ _ (new & ? & _)]. by exists new. Qed.

Lemma moved_note tr s : moved s (note tr s).
Proof. split; try done. exists [tr]. split; [done|by left]. Qed.

Lemma moved_ledger l s : moved s (set_ledger l s).
Proof. split; try done. exists []. simpl. rewrite app_nil_r. split; [done|by left]. Qed.

Lemma moved_reap s killed : moved s (foldl (fun s who => on_killed_account who s) s killed) /\
  trace (foldl (fun s who => on_killed_account who s) s killed) = trace s ++ (Reaped <$> killed).
Proof.
  revert s. induction killed as [|w l IH]; intros s; simpl; [split; [apply moved_refl|by rewrite app_nil_r]|].
  destruct (IH (on_killed_account w s)) as [Hm Ht]. split; [|by rewrite Ht; simpl; rewrite <- app_assoc].
  eapply moved_trans; [|done]. split; try done; simpl. exists [Reaped w]. split; [done|].
  intros who. destruct (decide (w = who)) as [->|]; [right|left; by rewrite lookup_delete_ne].
  rewrite lookup_delete_eq. split; [done|]. by apply list_elem_of_singleton.
Qed.

Lemma interface_ok {A} (record : A -> Trace) (op : Ledger -> result (A * Ledger * list AccountId) OtherError) s a t :
  interface (fun a => Some (record a)) op s = (Ok a, t) ->
  moved s t /\ (is_reap (record a) = false -> moves t = moves s ++ [record a]) /\
  exists l killed, op (ledger s) = Ok (a, l, killed).
Proof.
  unfold interface. destruct (op (ledger s)) as [[[a' l] killed]|]; [|done]. intros [= -> <-].
  destruct (moved_reap (set_ledger l s) killed) as [Hm Ht]. set (s1 := foldl _ _ _) in *. split_and!; [|intros Hr|by eauto].
  - eapply moved_trans; [apply (moved_ledger l)|]. eapply moved_trans; [exact Hm|apply moved_note].
  - unfold moves. simpl. rewrite Ht, !filter_app, filter_cons_True by done.
    assert (filter (fun tr => is_reap tr = false) (Reaped <$> killed) = []) as ->; [|by rewrite app_nil_r].
    clear. induction killed as [|w l IH]; [done|]. rewrite fmap_cons, filter_cons_False by done. done.
Qed.

Lemma moved_for_each {A} (l : list A) (body : A -> Call unit) s t :
  (forall x s t, body x s = (Ok tt, t) -> moved s t) -> for_each l body s = (Ok tt, t) -> moved s t.
Proof.
  intros Hb. revert s. induction l as [|x l IH]; intros s Hf; simpl in Hf; [minv; apply moved_refl|].
  apply bind_ok in Hf as ([] & s1 & H1%Hb & Hf%IH). by eapply moved_trans.
Qed.

Lemma move_tao_ok why from to x s t :
  (move_tao why from to x : Call unit) s = (Ok tt, t) -> moved s t /\ moves t = moves s ++ [MovedTao why from to x].
Proof. intros (? & Hm & _)%interface_ok. by split; [|apply Hm]. Qed.
Lemma move_alpha_ok why a b c d n x v w s t :
  (move_alpha why a b c d n x v w : Call unit) s = (Ok tt, t) ->
  moved s t /\ moves t = moves s ++ [MovedAlpha why a b c d n x].
Proof. intros (? & Hm & _)%interface_ok. by split; [|apply Hm]. Qed.
Lemma forward_fee_ok why from to x s t :
  (forward_fee why from to x : Call unit) s = (Ok tt, t) ->
  moved s t /\ moves t = moves s ++ (if x =? 0 then [] else [MovedTao why from to x]).
Proof.
  unfold forward_fee. destruct (x =? 0); [|apply move_tao_ok]. intros; minv. split; [apply moved_refl|by rewrite app_nil_r].
Qed.

Lemma for_each_moves {A} (f : A -> list Tr) (l : list A) (body : A -> Call unit) s t :
  (forall x s t, x ∈ l -> body x s = (Ok tt, t) -> moves t = moves s ++ f x) ->
  for_each l body s = (Ok tt, t) -> moves t = moves s ++ (l ≫= f).
Proof.
  revert s. induction l as [|x l IH]; intros s Hb Hf; simpl in Hf; [minv; by rewrite app_nil_r|].
  apply bind_ok in Hf as ([] & s1 & H1 & Hf). apply Hb in H1; [|by left].
  apply IH in Hf; [|intros; apply Hb; [by right|done]]. cbn. by rewrite Hf, H1, <- app_assoc.
Qed.

Lemma bind_singletons {A B} (f : A -> B) (l : list A) : (l ≫= fun x => [f x]) = f <$> l.
Proof. induction l as [|x l IH]; [done|]. cbn. by f_equal. Qed.

(** ** The parts of an execution *)

(** The calls that a single execution makes: the trade, and the fee if there is one. *)
Definition single_moves (v : View) (i : Hash) (gross out : Z) : list Tr :=
  let fee_tao := mul_floor lib (fee_rate v) (if is_buy (order_type v) then gross else out) in
  (if is_buy (order_type v)
   then Bought (Some i) (signer v) (hotkey v) (netuid v) (saturating_sub gross fee_tao) out
   else Sold (Some i) (signer v) (hotkey v) (netuid v) gross out) ::
  (if fee_tao =? 0 then [] else [MovedTao (Some i) (signer v) (fee_recipient v) fee_tao]).

(** The bookkeeping of one executed order, in the order of a single execution. *)
Lemma execute_validated_order_ok v partial i amount' provider s s' :
  execute_validated_order lib v partial i amount' provider s = (Ok tt, s') ->
  exists s1 s2 s3 s4 out amount_in amount_out,
    moved s s1 /\ moves s1 = moves s ++ single_moves v i (default amount' partial) out /\
    consume_provider provider i amount' s1 = (Ok tt, s2) /\
    settle (signer v) (authorization_nonce v) i partial amount' s2 = (Ok tt, s3) /\
    record_linked_output i (signer v) (output_asset v) (has_linked_order v) amount_out s3 = (Ok tt, s4) /\
    s' = deposit_event (OrderExecuted i (signer v) (netuid v) (order_type v) amount_in amount_out) s4.
Proof.
  intros He. unfold execute_validated_order in He. cbv zeta in He.
  apply bind_ok in He as ([ain aout] & s1 & Ht & He). apply bind_ok in He as ([] & s2 & Hc & He).
  apply bind_ok in He as ([] & s3 & Hs & He). apply bind_ok in He as ([] & s4 & Hr & ->%modify_ok).
  unfold single_moves. cbv zeta. destruct (is_buy (order_type v)).
  all: apply bind_ok in Ht as (out & s5 & (Ht & Hx & _)%interface_ok & Hf); specialize (Hx eq_refl).
  all: apply bind_ok in Hf as ([] & s6 & [Hf Hy]%forward_fee_ok & [_ ->]%ret_ok).
  all: exists s6, s2, s3, s4, out, ain, aout; (split; [by eapply moved_trans|]); (split; [|done]).
  all: by rewrite Hy, Hx, <- app_assoc.
Qed.

(** The bookkeeping of one order of a batch. *)
Definition booked (n : Z) (asset : LinkedAsset) (out : Z) e s s' : Prop :=
  exists s1 s2 s3,
    settle (e_signer e) (e_authorization_nonce e) (e_order_id e) (e_partial_fill e) (e_order_amount e) s
      = (Ok tt, s1) /\
    consume_provider (e_provider e) (e_order_id e) (e_order_amount e) s1 = (Ok tt, s2) /\
    record_linked_output (e_order_id e) (e_signer e) asset (e_has_linked_order e) out s2 = (Ok tt, s3) /\
    s' = deposit_event (OrderExecuted (e_order_id e) (e_signer e) n (e_side e) (e_gross e) out) s3.

Definition buyer_share (total_alpha total_buy_net : Z) e : Z := pro_rata total_alpha (e_net e) total_buy_net.
Definition seller_share (total_tao total_sell_tao_equiv price : Z) e : Z :=
  pro_rata total_tao (alpha_to_tao lib (e_net e) price) total_sell_tao_equiv.
Definition seller_fee (total_tao total_sell_tao_equiv price : Z) e : Z :=
  mul_floor lib (e_fee_rate e) (seller_share total_tao total_sell_tao_equiv price e).
Definition seller_payout (total_tao total_sell_tao_equiv price : Z) e : Z :=
  saturating_sub (seller_share total_tao total_sell_tao_equiv price e)
    (seller_fee total_tao total_sell_tao_equiv price e).

Lemma pay_buyer_ok ta tb acct hot n e s s' :
  pay_buyer ta tb acct hot n e s = (Ok tt, s') ->
  let share := buyer_share ta tb e in
  0 < share /\
  (e_effective_swap_limit e = u64_max \/
   saturating_mul u128_max (e_net e) 1000000000 <= saturating_mul u128_max share (e_effective_swap_limit e)) /\
  exists s1, move_alpha (Some (e_order_id e)) acct hot (e_signer e) (e_hotkey e) n share false true s = (Ok tt, s1) /\
    booked n (Alpha n (e_hotkey e)) share e s1 s'.
Proof.
  intros Hp. unfold pay_buyer in Hp. cbv zeta in Hp. fold (buyer_share ta tb e) in Hp.
  apply bind_ok in Hp as ([] & ? & [H1 ->]%ensure_ok & Hp). apply bind_ok in Hp as ([] & ? & [H2 ->]%ensure_ok & Hp).
  apply bind_ok in Hp as ([] & s1 & Hm & Hp). do 3 (apply bind_ok in Hp as ([] & ? & ? & Hp)). apply modify_ok in Hp.
  apply orb_true_iff in H2. bool_to_prop. split_and!; [done| |].
  - destruct H2; bool_to_prop; auto.
  - exists s1. split; [done|]. by eexists _, _, _.
Qed.

Lemma pay_seller_ok tt' te price acct n fees e s s' fees' :
  pay_seller lib tt' te price acct n fees e s = (Ok fees', s') ->
  let share := seller_share tt' te price e in
  let fee := seller_fee tt' te price e in
  let payout := seller_payout tt' te price e in
  0 < payout /\
  saturating_mul u128_max (e_net e) (e_effective_swap_limit e) <= saturating_mul u128_max share 1000000000 /\
  fees' = (if 0 <? fee then add_fee (e_fee_recipient e) fee fees else fees) /\
  exists s1, move_tao (Some (e_order_id e)) acct (e_signer e) payout s = (Ok tt, s1) /\ booked n Tao payout e s1 s'.
Proof.
  intros Hp. unfold pay_seller in Hp. cbv zeta in Hp. fold (seller_share tt' te price e) in Hp.
  fold (seller_fee tt' te price e) in Hp. fold (seller_payout tt' te price e) in Hp.
  apply bind_ok in Hp as ([] & ? & [H1 ->]%ensure_ok & Hp). apply bind_ok in Hp as ([] & ? & [H2 ->]%ensure_ok & Hp).
  apply bind_ok in Hp as ([] & s1 & Hm & Hp). do 3 (apply bind_ok in Hp as ([] & ? & ? & Hp)).
  apply bind_ok in Hp as ([] & ? & ?%modify_ok & [-> ->]%ret_ok). bool_to_prop. split_and!; [done..|].
  exists s1. split; [done|]. by eexists _, _, _.
Qed.

(** The call to the pool, for [x], that trades the difference. *)
Definition swap_moves (side : OrderSide) (acct hot : AccountId) (n x out : Z) : list Tr :=
  if 0 <? x
  then [match side with Buy => Bought None acct hot n x out | Sell => Sold None acct hot n x out end] else [].

Definition answered (side : OrderSide) (acct hot : AccountId) (n x out : Z) : Prop :=
  if 0 <? x then exists limit l l' k, match side with
    | Buy => buy_alpha acct hot n x limit false l = Ok (out, l', k)
    | Sell => sell_alpha acct hot n x limit false l = Ok (out, l', k) end
  else out = 0.

Lemma tao_to_alpha_ok tb price s a t :
  (tao_to_alpha lib tb price : Call Z) s = (Ok a, t) -> t = s /\ forall u, (tao_to_alpha lib tb price : Call Z) u = (Ok a, u).
Proof.
  unfold tao_to_alpha. destruct (price =? from_num 0); [intros; by minv|]. intros [Ha ->]%ok_or_ok.
  split; [done|]. intros u. by rewrite Ha.
Qed.

Lemma net_pool_swap_ok tb ts te price acct hot n limit s side out t :
  net_pool_swap lib tb ts te price acct hot n limit s = (Ok (side, out), t) ->
  moved s t /\ exists x, moves t = moves s ++ swap_moves side acct hot n x out /\ answered side acct hot n x out /\
  match side with
  | Buy => te <= tb /\ x = as_u64 (saturating_sub tb te)
  | Sell => tb < te /\ exists b, (forall u, (tao_to_alpha lib tb price : Call Z) u = (Ok b, u)) /\
      x = as_u64 (saturating_sub ts b)
  end.
Proof.
  unfold net_pool_swap, swap_moves, answered. cbv zeta. intros Hn. destruct (Z.leb_spec te tb).
  - destruct (0 <? as_u64 (saturating_sub tb te)) eqn:Hx.
    + apply bind_ok in Hn as (a & s1 & (Hi & Hv & l & k & Hop)%interface_ok & Hn).
      apply bind_ok in Hn as ([] & ? & [_ ->]%ensure_ok & [[= -> ->] ->]%ret_ok). specialize (Hv eq_refl).
      split; [done|]. eexists. rewrite Hx. split_and!; [done| |done|done]. eauto.
    + apply ret_ok in Hn as [[= -> ->] ->]. split; [apply moved_refl|]. eexists. rewrite Hx, app_nil_r. split_and!; done.
  - apply bind_ok in Hn as (b & s1 & [-> Hb]%tao_to_alpha_ok & Hn).
    destruct (0 <? as_u64 (saturating_sub ts b)) eqn:Hx.
    + apply bind_ok in Hn as (a & s1 & (Hi & Hv & l & k & Hop)%interface_ok & Hn).
      apply bind_ok in Hn as ([] & ? & [_ ->]%ensure_ok & [[= -> ->] ->]%ret_ok). specialize (Hv eq_refl).
      split; [done|]. eexists. rewrite Hx. split_and!; [done|eauto|done|by eexists].
    + apply ret_ok in Hn as [[= -> ->] ->]. split; [apply moved_refl|]. eexists. rewrite Hx, app_nil_r.
      split_and!; [done..|by eexists].
Qed.

Lemma execute_classified_batch_ok n price bs ss s s' :
  execute_classified_batch lib n price bs ss s = (Ok tt, s') ->
  (bs = [] /\ ss = [] /\ s' = s) \/
  let tb := sum_net bs in let ts := sum_net ss in let te := alpha_to_tao lib ts price in
  exists limit side out s1 s2 s3 s4 s5 fees net ev,
    collect_assets bs ss pallet_account PalletHotkey n s = (Ok tt, s1) /\
    net_pool_swap lib tb ts te price pallet_account PalletHotkey n limit s1 = (Ok (side, out), s2) /\
    distribute_alpha_pro_rata lib bs out tb ts side price pallet_account PalletHotkey n s2 = (Ok tt, s3) /\
    distribute_tao_pro_rata lib ss out tb te side price pallet_account n s3 = (Ok fees, s4) /\
    collect_fees bs fees pallet_account s4 = (Ok tt, s5) /\
    net_amount_for_event lib side tb ts te price s5 = (Ok net, s5) /\
    ev = GroupExecutionSummary n side net (as_u64 out) (Z.of_nat (length bs) + Z.of_nat (length ss)) /\
    s' = deposit_event ev s5.
Proof.
  intros He. unfold execute_classified_batch in He. cbv zeta in He.
  destruct (Z.eqb_spec (Z.of_nat (length bs) + Z.of_nat (length ss)) 0) as [Hl|Hl].
  { left. apply ret_ok in He as [_ ->]. split_and!; [apply nil_length_inv; lia..|done]. }
  right. apply bind_ok in He as ([] & u1 & Hx1 & He). apply bind_ok in He as ([] & u2 & Hx2 & He).
  assert (u1 = s) as -> by (eapply fixed_id; [|exact Hx1]; solve_fixed).
  assert (u2 = s) as -> by (eapply fixed_id; [|exact Hx2]; solve_fixed).
  apply bind_ok in He as ([] & s1 & H1 & He). apply bind_ok in He as ([side out] & s2 & H2 & He).
  apply bind_ok in He as ([] & s3 & H3 & He). apply bind_ok in He as (fees & s4 & H4 & He).
  apply bind_ok in He as ([] & s5 & H5 & He). apply bind_ok in He as (net & s6 & H6 & ->%modify_ok).
  assert (s6 = s5) as -> by (eapply fixed_id; [|exact H6]; unfold net_amount_for_event, tao_to_alpha; solve_fixed).
  eexists _, side, out, s1, s2, s3, s4, s5, fees, net, _. split_and!; done.
Qed.

Definition collect_buy e : Tr := MovedTao (Some (e_order_id e)) (e_signer e) pallet_account (e_gross e).
Definition collect_sell (n : Z) e : Tr :=
  MovedAlpha (Some (e_order_id e)) (e_signer e) (e_hotkey e) pallet_account PalletHotkey n (e_gross e).

Lemma collect_assets_ok bs ss n s t :
  (collect_assets bs ss pallet_account PalletHotkey n : Call unit) s = (Ok tt, t) ->
  moved s t /\ moves t = moves s ++ (collect_buy <$> bs) ++ (collect_sell n <$> ss).
Proof.
  unfold collect_assets. intros ([] & s1 & H1 & H2)%bind_ok. split.
  - eapply moved_trans; (eapply moved_for_each; [|done]); intros; simpl in *; [by eapply move_tao_ok|by eapply move_alpha_ok].
  - apply (for_each_moves (fun e => [collect_buy e])) in H1; [|intros e u v _ Hm; simpl in Hm; by apply move_tao_ok in Hm as [_ ->]].
    apply (for_each_moves (fun e => [collect_sell n e])) in H2; [|intros e u v _ Hm; simpl in Hm; by apply move_alpha_ok in Hm as [_ ->]].
    rewrite bind_singletons in H1, H2. by rewrite H2, H1, <- app_assoc.
Qed.

Definition fee_moves (fees : list (AccountId * Z)) : list Tr :=
  fees ≫= fun rf => if rf.2 =? 0 then [] else [MovedTao None pallet_account rf.1 rf.2].

Lemma collect_fees_ok bs fees s t :
  (collect_fees bs fees pallet_account : Call unit) s = (Ok tt, t) ->
  moved s t /\ moves t = moves s ++ fee_moves (merge_fees bs fees).
Proof.
  unfold collect_fees. intros Hf. split; [eapply moved_for_each; [|done]; intros; simpl in *; by eapply forward_fee_ok|].
  eapply for_each_moves; [|done]. intros rf u v _ Hm. by apply forward_fee_ok in Hm as [_ ->].
Qed.

(** *** The steps of the bookkeeping *)

Lemma settle_ok owner nonce i fill x s t :
  settle owner nonce i fill x s = (Ok tt, t) ->
  t = set_order_status owner nonce i (compute_order_status s owner nonce i fill x) s.
Proof. unfold settle. by intros (st & ? & [-> ->]%gets_ok & ->%modify_ok)%bind_ok. Qed.

Lemma consume_provider_ok provider i x s t :
  consume_provider provider i x s = (Ok tt, t) ->
  (provider = None /\ t = s) \/ exists p r, provider = Some p /\ LinkedOutputs s !! p = Some r /\
    t = deposit_event (LinkedOutputConsumed p i x (saturating_sub (l_total r) x)) (set_linked (delete p) s).
Proof.
  unfold consume_provider. destruct provider as [p|]; [|intros; minv; by left]. unfold consume_linked_output.
  intros (? & ? & [-> ->]%gets_ok & (r & ? & [? ->]%ok_or_ok & ([] & ? & ->%modify_ok & ->%modify_ok)%bind_ok)%bind_ok)%bind_ok.
  right. eauto 10.
Qed.

Lemma record_linked_output_ok i who asset flag out s t :
  record_linked_output i who asset flag out s = (Ok tt, t) ->
  t = s \/ exists at', flag = true /\
    t = deposit_event (LinkedOutputRecorded i who asset out at')
          (set_linked <[i := mkLinkedOutput who asset out at']> s).
Proof.
  unfold record_linked_output. destruct flag; simpl; [|intros; minv; by left].
  destruct (out =? 0); simpl; [intros; minv; by left|].
  intros (? & ? & [-> ->]%gets_ok & ([] & ? & ->%modify_ok & ->%modify_ok)%bind_ok)%bind_ok. right. eauto.
Qed.

(** ** A rule for executions

    [P l] holds while the entries [l] are still to be settled, [Q e l] between the
    settlement of [e] and the record of its output. *)
Record execution_rule (P : list Entry -> St -> Prop)
    (Q : Entry -> list Entry -> St -> Prop) : Prop := {
  rule_moved l s t : moved s t -> P l s -> P l t;
  rule_event l s ev : is_linked_event ev = false -> P l s -> P l (deposit_event ev s);
  rule_consume l p i x s t : consume_provider p i x s = (Ok tt, t) -> P l s -> P l t;
  rule_settle e l s t :
    settle (e_signer e) (e_authorization_nonce e) (e_order_id e) (e_partial_fill e) (e_order_amount e) s = (Ok tt, t) ->
    P (e :: l) s -> Q e l t;
  rule_consume_settled e l p i x s t : consume_provider p i x s = (Ok tt, t) -> Q e l s -> Q e l t;
  rule_record e l asset out s t :
    record_linked_output (e_order_id e) (e_signer e) asset (e_has_linked_order e) out s = (Ok tt, t) ->
    Q e l s -> P l t;
}.

Section execution.
Context {P : list Entry -> St -> Prop}.
Context {Q : Entry -> list Entry -> St -> Prop}.
Context (R : execution_rule P Q).

Lemma single_rule v partial i amount' provider s s' :
  execute_validated_order lib v partial i amount' provider s = (Ok tt, s') ->
  P [classify_order lib v partial i amount' provider] s -> P [] s'.
Proof.
  intros (s1 & s2 & s3 & s4 & out & ain & aout & Hm & _ & Hc & Hs & Hr & ->)%execute_validated_order_ok HP.
  apply (rule_event _ _ R); [done|]. set (e := classify_order _ _ _ _ _ _) in HP.
  eapply (rule_record _ _ R e); [exact Hr|]. eapply (rule_settle _ _ R e); [exact Hs|].
  eapply (rule_consume _ _ R); [exact Hc|]. by eapply (rule_moved _ _ R).
Qed.

Lemma booked_rule n asset out e l s s' : booked n asset out e s s' -> P (e :: l) s -> P l s'.
Proof.
  intros (s1 & s2 & s3 & Hs & Hc & Hr & ->) HP. apply (rule_event _ _ R); [done|].
  eapply (rule_record _ _ R); [exact Hr|]. eapply (rule_consume_settled _ _ R); [exact Hc|].
  by eapply (rule_settle _ _ R).
Qed.

Lemma batch_rule n price bs ss s s' :
  execute_classified_batch lib n price bs ss s = (Ok tt, s') -> P (bs ++ ss) s -> P [] s'.
Proof.
  intros [(-> & -> & ->)|(limit & side & out & s1 & s2 & s3 & s4 & s5 & fees & net & ev & H1 & H2 & H3 & H4 & H5 & _ & -> & ->)]%execute_classified_batch_ok HP; [done|].
  apply (rule_event _ _ R); [done|]. eapply (rule_moved _ _ R); [by eapply collect_fees_ok|].
  apply collect_assets_ok in H1 as [H1 _]. apply net_pool_swap_ok in H2 as [H2 _].
  apply (rule_moved _ _ R _ _ _ H1) in HP. apply (rule_moved _ _ R _ _ _ H2) in HP. clear H1 H2 H5.
  assert (HP3 : P ss s3).
  { unfold distribute_alpha_pro_rata in H3. apply bind_ok in H3 as (ta & s2' & Hta & H3).
    assert (s2' = s2) as -> by (destruct side; [by minv|eapply fixed_id; [|exact Hta]; unfold tao_to_alpha; solve_fixed]).
    clear H4 Hta. revert H3. generalize (sum_net bs). intros tb H3. revert s2 HP H3. induction bs as [|e bs IH]; intros s2 HP H3; simpl in H3; [by minv|].
    apply bind_ok in H3 as ([] & s6 & Hp & H3). eapply IH; [|exact H3].
    apply pay_buyer_ok in Hp as (_ & _ & s7 & [Hm _]%move_alpha_ok & Hb). eapply booked_rule; [exact Hb|].
    by eapply (rule_moved _ _ R). }
  unfold distribute_tao_pro_rata in H4. cbv zeta in H4. clear H3 HP.
  revert H4. generalize (alpha_to_tao lib (sum_net ss) price), (sum_net bs), ([] : list (AccountId * Z)).
  intros te tb fees0 H4. revert s3 fees0 HP3 H4. induction ss as [|e ss IH]; intros s3 fees0 HP H4; simpl in H4; [by minv|].
  apply bind_ok in H4 as (fees1 & s6 & Hp & H4). eapply IH; [|exact H4].
  apply pay_seller_ok in Hp as (_ & _ & _ & s7 & [Hm _]%move_tao_ok & Hb). eapply booked_rule; [exact Hb|].
  by eapply (rule_moved _ _ R).
Qed.
End execution.

(** Executions only add to the trace. *)
Lemma trace_rule (tr0 : list Trace) :
  execution_rule (fun _ s => exists new, trace s = tr0 ++ new) (fun _ _ s => exists new, trace s = tr0 ++ new).
Proof.
  split; try done.
  - intros _ s t Hm [new Ht]. destruct (moved_trace _ _ Hm) as (new' & ->). exists (new ++ new'). by rewrite Ht, app_assoc.
  - by intros _ p i x s t [[_ ->]|(? & ? & _ & _ & ->)]%consume_provider_ok.
  - intros e _ s t ->%settle_ok. by destruct (e_authorization_nonce e).
  - by intros e _ p i x s t [[_ ->]|(? & ? & _ & _ & ->)]%consume_provider_ok.
  - by intros e _ asset out s t [->|(? & _ & ->)]%record_linked_output_ok.
Qed.
End rules.
