(* ===== verification/LimitOrdersMoves.v ===== *)
(** * Limit orders: what executions move

    The calls to the swap interface that an execution makes, as explicit lists
    ([single_moves], [batch_moves]), and what follows for one order: every call made
    for it belongs to an execution of it, and the input it is charged is the sum over
    these calls ([taken]). *)

From Stdlib Require Import ZArith Lia.
From stdpp Require Import base gmap list fin_maps relations.
From S2P Require Import Prelude LimitOrders LimitOrdersLogic.

(** ** Sums *)

Lemma total_ext {A} (f g : A -> Z) l : (forall x, x ∈ l -> f x = g x) -> total f l = total g l.
Proof.
  induction l as [|x l IH]; intros Hl; [done|]. cbn. fold (total f l) (total g l).
  rewrite (Hl x), IH by (try intros; try apply Hl; by constructor). done.
Qed.

Lemma total_fmap {A B} (f : A -> B) (w : B -> Z) l : total w (f <$> l) = total (fun x => w (f x)) l.
Proof. induction l as [|x l IH]; [done|]. cbn. fold (total w (f <$> l)) (total (fun x => w (f x)) l). by rewrite IH. Qed.

Lemma total_bind {A B} (f : A -> list B) (w : B -> Z) l : total w (l ≫= f) = total (fun x => total w (f x)) l.
Proof.
  induction l as [|x l IH]; [done|]. change ((x :: l) ≫= f) with (f x ++ (l ≫= f)). by rewrite total_append, IH.
Qed.

(** A sum in which only one element counts. *)
Lemma total_single {A} (w : A -> Z) l x :
  NoDup l -> x ∈ l -> (forall y, y ∈ l -> y <> x -> w y = 0) -> total w l = w x.
Proof.
  induction l as [|y l IH]; intros Hnd Hx Hw; [by apply not_elem_of_nil in Hx|]. cbn. fold (total w l).
  apply list.NoDup_cons in Hnd as [Hy Hnd]. apply elem_of_cons in Hx as [->|Hx].
  - rewrite total_zero; [lia|]. intros z Hz. apply Hw; [by right|]. by intros ->.
  - rewrite (Hw y), IH; [lia|done|done| |by left|by intros ->]. intros z Hz. apply Hw. by right.
Qed.

Section moves.
Context {AccountId Hash Signature Commitment OtherError Ledger : Type}.
Context `{Countable AccountId} `{Countable Hash} `{!EqDecision Commitment}.
Context (lib : Libraries (AccountId := AccountId) (Hash := Hash) (Signature := Signature)
  (Commitment := Commitment)).
Context {swap : OrderSwapInterface (AccountId := AccountId) (OtherError := OtherError) (Ledger := Ledger)}.
Context {cfg : Config (AccountId := AccountId) (Hash := Hash) (Ledger := Ledger)}.
Abbreviation St := (State (AccountId := AccountId) (Hash := Hash) (Commitment := Commitment)
  (OtherError := OtherError) (Ledger := Ledger)).
Abbreviation Call := (M St (DispatchError OtherError)).
Abbreviation Entry := (OrderEntry (AccountId := AccountId) (Hash := Hash)).
Abbreviation Tr := (Trace (AccountId := AccountId) (Hash := Hash)).
Abbreviation Ev := (Event (AccountId := AccountId) (Hash := Hash) (OtherError := OtherError)).
Implicit Types (s t : St) (e : Entry).
Implicit Types (so : SignedOrder (AccountId := AccountId) (Hash := Hash) (Signature := Signature)).

(** Perbill and U64F64 as documented: multiplication and division round down,
    multiplication saturates, division reports an overflow. *)
Class LibraryLaws : Prop := {
  mul_floor_spec p x : 0 <= p <= 1000000000 -> 0 <= x <= u64_max -> mul_floor lib p x = p * x / 1000000000;
  fixed_mul_spec a b : 0 <= a <= u128_max -> 0 <= b <= u128_max ->
    fixed_mul lib a b = Z.min u128_max (a * b / 2 ^ 64);
  fixed_div_spec a b : 0 <= a <= u128_max -> 0 < b <= u128_max ->
    fixed_div lib a b = if a * 2 ^ 64 / b <=? u128_max then Some (a * 2 ^ 64 / b) else None;
}.

Lemma mul_floor_le {laws : LibraryLaws} p x :
  0 <= p <= 1000000000 -> 0 <= x <= u64_max -> 0 <= mul_floor lib p x <= x.
Proof.
  intros Hp Hx. rewrite mul_floor_spec by done. split; [apply Z.div_pos; lia|].
  apply Z.div_le_upper_bound; [lia|]. nia.
Qed.

(** At most one entry of a list is for a given order. *)
Lemma total_entry (w : Entry -> Z) l e :
  NoDup (e_order_id <$> l) -> e ∈ l -> (forall y, y ∈ l -> e_order_id y <> e_order_id e -> w y = 0) -> total w l = w e.
Proof.
  intros Hnd He Hw. apply total_single; [by eapply NoDup_fmap_1|done|]. intros y Hy Hne. apply Hw; [done|]. intros Hid. apply Hne.
  clear w Hw Hne. induction l as [|a l IH]; [by apply not_elem_of_nil in Hy|].
  rewrite fmap_cons in Hnd. apply list.NoDup_cons in Hnd as [Hni Hnd].
  apply elem_of_cons in Hy as [->|Hy], He as [->|He]; [done|..|by apply IH]; destruct Hni; [rewrite Hid|rewrite <- Hid];
    by apply list_elem_of_fmap_2.
Qed.

(** ** The trace and the calls in it *)

Lemma trace_moves (w : Tr -> Z) s : (forall who, w (Reaped who) = 0) -> total w (trace s) = total w (moves s).
Proof.
  intros Hw. unfold moves. induction (trace s) as [|tr l IH]; [done|]. rewrite filter_cons. cbn. fold (total w l).
  rewrite IH. destruct tr; simpl; rewrite ?Hw; done.
Qed.

Lemma new_moves s s' new ms tr :
  trace s' = trace s ++ new -> moves s' = moves s ++ ms -> tr ∈ new -> is_reap tr = true \/ tr ∈ ms.
Proof.
  unfold moves. intros -> Hm Htr. rewrite filter_app in Hm. apply app_inv_head in Hm as <-.
  destruct (is_reap tr) eqn:Hr; [by left|right]. by apply list_elem_of_filter.
Qed.

Lemma booked_moves m asset out e s t : booked m asset out e s t -> moves t = moves s.
Proof.
  intros (s1 & s2 & s3 & Hs%settle_ok & Hc & Hr & ->). unfold moves. simpl.
  assert (trace s3 = trace s2) as -> by (by apply record_linked_output_ok in Hr as [->|(? & _ & ->)]).
  assert (trace s2 = trace s1) as -> by (by apply consume_provider_ok in Hc as [[_ ->]|(? & ? & _ & _ & ->)]).
  subst s1. by destruct (e_authorization_nonce e).
Qed.

(** The events of an executed order. *)
Definition announced (n : Z) e (out : Z) (new : list Ev) : Prop :=
  OrderExecuted (e_order_id e) (e_signer e) n (e_side e) (e_gross e) out ∈ new /\
  forall q, e_provider e = Some q -> exists u, LinkedOutputConsumed q (e_order_id e) (e_order_amount e) u ∈ new.

Lemma announced_mono n e out new new' : (forall ev, ev ∈ new -> ev ∈ new') -> announced n e out new -> announced n e out new'.
Proof. intros Hs [Ho Hq]. split; [by apply Hs|]. intros q [u Hu]%Hq. exists u. by apply Hs. Qed.

Lemma booked_events n asset out e s t :
  booked n asset out e s t -> exists new, events t = events s ++ new /\ announced n e out new.
Proof.
  intros (s1 & s2 & s3 & Hs%settle_ok & Hc & Hr & ->).
  assert (E1 : events s1 = events s) by (rewrite Hs; by destruct (e_authorization_nonce e)).
  assert (exists k, events s2 = events s ++ k /\ forall q, e_provider e = Some q ->
    exists u, LinkedOutputConsumed q (e_order_id e) (e_order_amount e) u ∈ k) as (k2 & E2 & C2).
  { apply consume_provider_ok in Hc as [[Hp ->]|(q & r & Hp & _ & ->)]; simpl; rewrite E1.
    - exists []. rewrite app_nil_r. split; [done|]. by rewrite Hp.
    - eexists. split; [done|]. intros q' Hq'. rewrite Hp in Hq'. simplify_eq. eexists. by apply list_elem_of_singleton. }
  assert (exists k, events s3 = events s ++ k2 ++ k) as [k3 E3].
  { apply record_linked_output_ok in Hr as [->|(? & _ & ->)]; simpl; rewrite E2; [exists []; by rewrite app_nil_r|].
    rewrite <- app_assoc. by eexists. }
  simpl. rewrite E3, <- !app_assoc. eexists. split; [done|]. split.
  - rewrite !elem_of_app. right. right. by left.
  - intros q [u Hu]%C2. exists u. rewrite elem_of_app. by left.
Qed.

(** ** Paying one side of a batch *)

Definition pay_buy (n ta tb : Z) e : Tr :=
  MovedAlpha (Some (e_order_id e)) pallet_account PalletHotkey (e_signer e) (e_hotkey e) n (buyer_share ta tb e).
Definition pay_sell (total_tao te price : Z) e : Tr :=
  MovedTao (Some (e_order_id e)) pallet_account (e_signer e) (seller_payout lib total_tao te price e).
Definition sell_fees_of (total_tao te price : Z) (fees : list (AccountId * Z)) (ss : list Entry) : list (AccountId * Z) :=
  foldl (fun fees e => if 0 <? seller_fee lib total_tao te price e
                       then add_fee (e_fee_recipient e) (seller_fee lib total_tao te price e) fees else fees) fees ss.

(** Everyone in [l] gets [out], by the call [pay]. *)
Record paid (n : Z) (l : list Entry) (pay : Entry -> Tr) (out : Entry -> Z) (good : Entry -> Prop) s t : Prop := {
  paid_moves : moves t = moves s ++ (pay <$> l);
  paid_good e : e ∈ l -> good e;
  paid_events : exists new, events t = events s ++ new /\ forall e, e ∈ l -> announced n e (out e) new;
}.

Lemma paid_nil n pay out good s : paid n [] pay out good s s.
Proof.
  split; [by rewrite app_nil_r|by intros e ?%not_elem_of_nil|]. exists []. rewrite app_nil_r. split; [done|].
  by intros e ?%not_elem_of_nil.
Qed.

Lemma paid_cons n asset e l pay out (good : Entry -> Prop) s s1 t u :
  moved s s1 -> moves s1 = moves s ++ [pay e] -> good e -> booked n asset (out e) e s1 t ->
  paid n l pay out good t u -> paid n (e :: l) pay out good s u.
Proof.
  intros Hm Hmv Hg Hb [P1 P2 (k2 & E2 & P3)]. pose proof (booked_moves _ _ _ _ _ _ Hb) as Hbm.
  apply booked_events in Hb as (k1 & E1 & Ha). rewrite (moved_events _ _ Hm) in E1. split.
  - by rewrite P1, Hbm, Hmv, <- app_assoc.
  - intros x [->|Hx]%elem_of_cons; [done|by apply P2].
  - exists (k1 ++ k2). rewrite E2, E1, app_assoc. split; [done|]. intros x [->|Hx]%elem_of_cons.
    + eapply announced_mono; [|done]. intros ev Hev. apply elem_of_app. by left.
    + eapply announced_mono; [|by apply P3]. intros ev Hev. apply elem_of_app. by right.
Qed.

Definition buyer_ok (ta tb : Z) e : Prop :=
  let share := buyer_share ta tb e in
  0 < share /\ (e_effective_swap_limit e = u64_max \/
    saturating_mul u128_max (e_net e) 1000000000 <= saturating_mul u128_max share (e_effective_swap_limit e)).
Definition seller_ok (total_tao te price : Z) e : Prop :=
  0 < seller_payout lib total_tao te price e /\
  saturating_mul u128_max (e_net e) (e_effective_swap_limit e) <=
    saturating_mul u128_max (seller_share lib total_tao te price e) 1000000000.

Lemma pay_buyers_ok n ta tb bs s t :
  for_each bs (pay_buyer ta tb pallet_account PalletHotkey n) s = (Ok tt, t) ->
  paid n bs (pay_buy n ta tb) (buyer_share ta tb) (buyer_ok ta tb) s t.
Proof.
  revert s. induction bs as [|e bs IH]; intros s Hf; simpl in Hf; [minv; apply paid_nil|].
  apply bind_ok in Hf as ([] & s1 & (Hp & Hl & s2 & [Hm Hv]%move_alpha_ok & Hb)%pay_buyer_ok & Hf%IH).
  by eapply paid_cons.
Qed.

Lemma pay_sellers_ok n tt' te price fees ss s fees' t :
  fold_m ss fees (pay_seller lib tt' te price pallet_account n) s = (Ok fees', t) ->
  paid n ss (pay_sell tt' te price) (seller_payout lib tt' te price) (seller_ok tt' te price) s t /\
  fees' = sell_fees_of tt' te price fees ss.
Proof.
  revert fees s. induction ss as [|e ss IH]; intros fees s Hf; simpl in Hf; [minv; split; [apply paid_nil|done]|].
  apply bind_ok in Hf as (fees1 & s1 & (Hp & Hl & Hfees & s2 & [Hm Hv]%move_tao_ok & Hb)%pay_seller_ok & Hf).
  apply IH in Hf as [Hf ->]. split; [by eapply paid_cons|]. by rewrite Hfees.
Qed.

(** ** A whole batch *)

Definition total_tao_of (side : OrderSide) (out tb te : Z) : Z :=
  match side with Sell => saturating_add u128_max out tb | Buy => te end.

(** All calls of a batch: inputs collected, the difference traded with the pool for
    [x], outputs and fees paid. *)
Definition batch_moves (n price : Z) (bs ss : list Entry) (side : OrderSide) (out ta x : Z) : list Tr :=
  let tb := sum_net bs in
  let te := alpha_to_tao lib (sum_net ss) price in
  let tt' := total_tao_of side out tb te in
  (collect_buy <$> bs) ++ (collect_sell n <$> ss) ++ swap_moves side pallet_account PalletHotkey n x out ++
  (pay_buy n ta tb <$> bs) ++ (pay_sell tt' te price <$> ss) ++
  fee_moves (merge_fees bs (sell_fees_of tt' te price [] ss)).

Record batch_run (n price : Z) (bs ss : list Entry) s s' (side : OrderSide) (out ta x : Z) : Prop := {
  run_answer : answered side pallet_account PalletHotkey n x out;
  run_side : let tb := sum_net bs in let te := alpha_to_tao lib (sum_net ss) price in
    match side with
    | Buy => te <= tb /\ ta = saturating_add u128_max out (sum_net ss) /\ x = as_u64 (saturating_sub tb te)
    | Sell => tb < te /\ (forall u, (tao_to_alpha lib tb price : Call Z) u = (Ok ta, u)) /\
        x = as_u64 (saturating_sub (sum_net ss) ta)
    end;
  run_moves : moves s' = moves s ++ batch_moves n price bs ss side out ta x;
  run_buyer e : e ∈ bs -> buyer_ok ta (sum_net bs) e;
  run_seller e : e ∈ ss -> let te := alpha_to_tao lib (sum_net ss) price in
    seller_ok (total_tao_of side out (sum_net bs) te) te price e;
  run_events : let te := alpha_to_tao lib (sum_net ss) price in
    exists new, events s' = events s ++ new /\
      (forall e, e ∈ bs -> announced n e (buyer_share ta (sum_net bs) e) new) /\
      (forall e, e ∈ ss -> announced n e (seller_payout lib (total_tao_of side out (sum_net bs) te) te price e) new);
}.

Lemma batch_run_ok n price bs ss s s' :
  execute_classified_batch lib n price bs ss s = (Ok tt, s') ->
  (bs = [] /\ ss = [] /\ s' = s) \/ exists side out ta x, batch_run n price bs ss s s' side out ta x.
Proof.
  intros [?|(limit & side & out & s1 & s2 & s3 & s4 & s5 & fees & net & ev & H1 & H2 & H3 & H4 & H5 & _ & _ & ->)]%execute_classified_batch_ok;
    [by left|right].
  apply collect_assets_ok in H1 as [M1 V1]. apply net_pool_swap_ok in H2 as (M2 & x & V2 & Ha & Hside).
  unfold distribute_alpha_pro_rata in H3. apply bind_ok in H3 as (ta & s2' & Hta & H3%pay_buyers_ok).
  unfold distribute_tao_pro_rata in H4. cbv zeta in H4. apply pay_sellers_ok in H4 as [H4 ->].
  apply collect_fees_ok in H5 as [M5 V5]. set (te := alpha_to_tao lib (sum_net ss) price) in *.
  assert (Hs : s2' = s2 /\ match side with
    | Buy => te <= sum_net bs /\ ta = saturating_add u128_max out (sum_net ss) /\ x = as_u64 (saturating_sub (sum_net bs) te)
    | Sell => sum_net bs < te /\ (forall u, (tao_to_alpha lib (sum_net bs) price : Call Z) u = (Ok ta, u)) /\
        x = as_u64 (saturating_sub (sum_net ss) ta) end).
  { destruct side; [apply ret_ok in Hta as [-> ->]; by destruct Hside as [? ->]|].
    destruct Hside as (Hlt & b & Hb & ->). rewrite Hb in Hta. by simplify_eq. }
  destruct Hs as [-> Hs]. exists side, out, ta, x. destruct H3 as [P1 P2 (k1 & E1 & P3)], H4 as [Q1 Q2 (k2 & E2 & Q3)].
  split; [done|done| |done|done|].
  - change (moves (deposit_event ev s5)) with (moves s5). rewrite V5, Q1, P1, V2, V1. unfold batch_moves. cbv zeta.
    by rewrite <- !app_assoc.
  - cbv zeta. exists (k1 ++ k2 ++ [ev]). simpl. rewrite (moved_events _ _ M5), E2, E1, (moved_events _ _ M2), (moved_events _ _ M1).
    split; [by rewrite <- !app_assoc|]. split; intros e He; (eapply announced_mono; [|by first [apply P3|apply Q3]]);
      intros v Hv; rewrite !elem_of_app; tauto.
Qed.

(** ** The input of an order *)

(** What a call takes in the asset that the order [i] pays with: TAO of a buy, alpha
    of a sell. *)
Definition input_of (i : Hash) (buy : bool) (tr : Tr) : Z :=
  match tr with
  | Bought (Some j) _ _ _ tao _ | MovedTao (Some j) _ _ tao => if bool_decide (j = i) && buy then tao else 0
  | Sold (Some j) _ _ _ alpha _ | MovedAlpha (Some j) _ _ _ _ _ alpha =>
      if bool_decide (j = i) && negb buy then alpha else 0
  | _ => 0
  end.

(** All that was taken for the order: traded, moved to the pallet, paid as a fee. *)
Definition taken (o : VersionedOrder) s : Z :=
  total (input_of (derive_order_id lib o) (is_buy (order_type (view o)))) (trace s).

Definition charge (i : Hash) e : Z := if decide (e_order_id e = i) then e_gross e else 0.

(** The entries of [i] are on this side, and the fee of a buy fits into its input. *)
Definition chargeable (i : Hash) (buy : bool) e : Prop :=
  e_order_id e = i -> is_buy (e_side e) = buy /\ 0 <= mul_floor lib (e_fee_rate e) (e_gross e) <= e_gross e.

(** What all executions of the entries [l] have in common. *)
Record executes (l : list Entry) s s' : Prop := {
  ex_trace : exists new, trace s' = trace s ++ new /\
    forall tr i, tr ∈ new -> tag tr = Some i -> exists e, e ∈ l /\ e_order_id e = i;
  ex_taken i buy : (forall e, e ∈ l -> chargeable i buy e) ->
    total (input_of i buy) (trace s') = total (input_of i buy) (trace s) + total (charge i) l;
  ex_consumed e q : e ∈ l -> e_provider e = Some q ->
    exists u, LinkedOutputConsumed q (e_order_id e) (e_order_amount e) u ∈ events s';
}.

Lemma single_run_moves v partial i amount' provider s s' :
  execute_validated_order lib v partial i amount' provider s = (Ok tt, s') ->
  exists out, moves s' = moves s ++ single_moves lib v i (default amount' partial) out.
Proof.
  intros (s1 & s2 & s3 & s4 & out & ain & aout & Hm & Hv & Hc & Hs%settle_ok & Hr & ->)%execute_validated_order_ok.
  assert (T4 : trace s4 = trace s3) by (by apply record_linked_output_ok in Hr as [->|(? & _ & ->)]).
  assert (T3 : trace s3 = trace s2) by (rewrite Hs; by destruct (authorization_nonce v)).
  assert (T2 : trace s2 = trace s1) by (by apply consume_provider_ok in Hc as [[_ ->]|(? & ? & _ & _ & ->)]).
  exists out. rewrite <- Hv. unfold moves. simpl. by rewrite T4, T3, T2.
Qed.

Lemma single_run_consumed v partial i amount' q s s' :
  execute_validated_order lib v partial i amount' (Some q) s = (Ok tt, s') ->
  exists u, LinkedOutputConsumed q i amount' u ∈ events s'.
Proof.
  intros (s1 & s2 & s3 & s4 & out & ain & aout & _ & _ & Hc & Hs%settle_ok & Hr & ->)%execute_validated_order_ok.
  apply consume_provider_ok in Hc as [[? _]|(q' & r & [= <-] & _ & ->)]; [done|]. exists (saturating_sub (l_total r) amount').
  assert (Hin : LinkedOutputConsumed q i amount' (saturating_sub (l_total r) amount') ∈ events s3).
  { rewrite Hs. destruct (authorization_nonce v); simpl; rewrite elem_of_app; right; by left. }
  simpl. rewrite elem_of_app. left. apply record_linked_output_ok in Hr as [->|(? & _ & ->)]; [done|]. simpl. rewrite elem_of_app. by left.
Qed.

Lemma single_moves_tag v i gross out tr j : tr ∈ single_moves lib v i gross out -> tag tr = Some j -> j = i.
Proof.
  unfold single_moves. cbv zeta. intros [->|Hin]%elem_of_cons; [destruct (is_buy _); by intros [=]|].
  destruct (_ =? 0); [by apply not_elem_of_nil in Hin|]. apply list_elem_of_singleton in Hin as ->. by intros [=].
Qed.

Lemma single_moves_input v i gross out j buy :
  (i = j -> is_buy (order_type v) = buy /\ 0 <= mul_floor lib (fee_rate v) gross <= gross) ->
  total (input_of j buy) (single_moves lib v i gross out) = if decide (i = j) then gross else 0.
Proof.
  intros Hch. unfold single_moves. cbv zeta. destruct (decide (i = j)) as [Hij|Hij].
  - destruct (Hch Hij) as [Hb Hf]. destruct (is_buy (order_type v)); subst buy; cbn; rewrite bool_decide_eq_true_2 by done; cbn.
    + unfold saturating_sub. destruct (Z.eqb_spec (mul_floor lib (fee_rate v) gross) 0); cbn; rewrite ?bool_decide_eq_true_2 by done; cbn; lia.
    + destruct (_ =? 0); cbn; rewrite ?bool_decide_eq_true_2 by done; cbn; lia.
  - destruct (is_buy (order_type v)); cbn; rewrite bool_decide_eq_false_2 by done; cbn;
      (destruct (_ =? 0); cbn; rewrite ?bool_decide_eq_false_2 by done; cbn; lia).
Qed.

Lemma single_executes v partial i amount' provider s s' :
  execute_validated_order lib v partial i amount' provider s = (Ok tt, s') ->
  executes [classify_order lib v partial i amount' provider] s s'.
Proof.
  intros He. destruct (single_rule lib (trace_rule (trace s)) _ _ _ _ _ _ _ He) as [new Hnew]; [exists []; by rewrite app_nil_r|].
  destruct (single_run_moves _ _ _ _ _ _ _ He) as [out Hmv]. set (e := classify_order _ _ _ _ _ _). split.
  - exists new. split; [done|]. intros tr j Htr Htag. exists e. split; [by apply list_elem_of_singleton|].
    destruct (new_moves _ _ _ _ _ Hnew Hmv Htr) as [Hr'|Hin]; [by destruct tr|]. by apply (single_moves_tag _ _ _ _ _ _ Hin) in Htag.
  - intros j buy Hch. rewrite !trace_moves by done. rewrite Hmv, total_append. f_equal. specialize (Hch e (list_elem_of_here _ _)).
    rewrite single_moves_input; [|done]. unfold charge. cbn. lia.
  - intros x q ->%list_elem_of_singleton Hq. simpl in Hq. subst provider. by eapply single_run_consumed.
Qed.

Section batch.
Context (n price : Z) (bs ss : list Entry) (side : OrderSide) (out ta x : Z).
Context (Hbs : forall e, e ∈ bs -> is_buy (e_side e) = true) (Hss : forall e, e ∈ ss -> is_buy (e_side e) = false).

Lemma batch_moves_elem tr :
  tr ∈ batch_moves n price bs ss side out ta x ->
  (exists e, e ∈ bs /\ (tr = collect_buy e \/ tr = pay_buy n ta (sum_net bs) e)) \/
  (exists e, e ∈ ss /\ (tr = collect_sell n e \/ exists tt' te, tr = pay_sell tt' te price e)) \/
  (exists y, tr = Bought None pallet_account PalletHotkey n x y \/ tr = Sold None pallet_account PalletHotkey n x y) \/
  (exists to y, tr = MovedTao None pallet_account to y).
Proof.
  unfold batch_moves, swap_moves, fee_moves. cbv zeta. rewrite !elem_of_app, !list_elem_of_fmap, list_elem_of_bind.
  intros [(e & -> & He)|[(e & -> & He)|[Hin|[(e & -> & He)|[(e & -> & He)|([to y] & Hin & _)]]]]]; eauto 10.
  - right; right; left. exists out. destruct (0 <? x); [|by apply not_elem_of_nil in Hin].
    apply list_elem_of_singleton in Hin as ->. destruct side; tauto.
  - right; right; right. simpl in Hin. destruct (y =? 0); [by apply not_elem_of_nil in Hin|].
    apply list_elem_of_singleton in Hin as ->. eauto.
Qed.

Lemma batch_moves_tag tr i :
  tr ∈ batch_moves n price bs ss side out ta x -> tag tr = Some i -> exists e, e ∈ bs ++ ss /\ e_order_id e = i.
Proof.
  intros [(e & He & [->| ->])|[(e & He & [->|(? & ? & ->)])|[(y & [->| ->])|(to & y & ->)]]]%batch_moves_elem Ht;
    simplify_eq/=; exists e; rewrite elem_of_app; auto.
Qed.

Lemma batch_moves_input i buy :
  (forall e, e ∈ bs ++ ss -> chargeable i buy e) ->
  total (input_of i buy) (batch_moves n price bs ss side out ta x) = total (charge i) (bs ++ ss).
Proof.
  intros Hch. setoid_rewrite elem_of_app in Hch.
  assert (Hb : forall e, e ∈ bs -> e_order_id e = i -> buy = true).
  { intros e He Hi. destruct (Hch e (or_introl He) Hi) as [<- _]. by apply Hbs. }
  assert (Hs : forall e, e ∈ ss -> e_order_id e = i -> buy = false).
  { intros e He Hi. destruct (Hch e (or_intror He) Hi) as [<- _]. by apply Hss. }
  unfold batch_moves, swap_moves, fee_moves. cbv zeta. rewrite !total_append, !total_fmap, total_bind.
  rewrite (total_ext (fun e => input_of i buy (collect_buy e)) (charge i)).
  2: { intros e He. unfold charge. simpl. destruct (decide (e_order_id e = i)) as [Hi|Hi].
       - by rewrite bool_decide_eq_true_2, (Hb e He Hi).
       - by rewrite bool_decide_eq_false_2. }
  rewrite (total_ext (fun e => input_of i buy (collect_sell n e)) (charge i)).
  2: { intros e He. unfold charge. simpl. destruct (decide (e_order_id e = i)) as [Hi|Hi].
       - by rewrite bool_decide_eq_true_2, (Hs e He Hi).
       - by rewrite bool_decide_eq_false_2. }
  rewrite (total_zero (fun e => input_of i buy (pay_buy n ta _ e))).
  2: { intros e He. simpl. destruct (bool_decide_reflect (e_order_id e = i)) as [Hi|Hi]; [by rewrite (Hb e He Hi)|done]. }
  rewrite (total_zero (fun e => input_of i buy (pay_sell _ _ price e))).
  2: { intros e He. simpl. destruct (bool_decide_reflect (e_order_id e = i)) as [Hi|Hi]; [by rewrite (Hs e He Hi)|done]. }
  rewrite (total_zero (fun rf => total (input_of i buy) (if rf.2 =? 0 then [] else _))) by (intros [? y] _; simpl; by destruct (y =? 0)).
  destruct (0 <? x), side; cbn; lia.
Qed.

(** What a batch does for one order. *)
Lemma batch_moves_entry (w : Tr -> Z) e :
  let tb := sum_net bs in
  let te := alpha_to_tao lib (sum_net ss) price in
  (forall tr, tag tr <> Some (e_order_id e) -> w tr = 0) -> NoDup (e_order_id <$> bs ++ ss) ->
  (e ∈ bs -> total w (batch_moves n price bs ss side out ta x) = w (collect_buy e) + w (pay_buy n ta tb e)) /\
  (e ∈ ss -> total w (batch_moves n price bs ss side out ta x) =
     w (collect_sell n e) + w (pay_sell (total_tao_of side out tb te) te price e)).
Proof.
  intros tb te Hw Hnd. rewrite fmap_app in Hnd. apply NoDup_app in Hnd as (Hnb & Hdis & Hns).
  assert (Hother : forall (f : Entry -> Tr) l, (forall y, tag (f y) = Some (e_order_id y)) ->
    e_order_id e ∉ e_order_id <$> l -> total (fun y => w (f y)) l = 0).
  { intros f l Hf Hni. apply total_zero. intros y Hy. apply Hw. rewrite Hf. intros [= Hid]. apply Hni. rewrite <- Hid.
    by apply list_elem_of_fmap_2. }
  assert (Hone : forall (f : Entry -> Tr) l, (forall y, tag (f y) = Some (e_order_id y)) -> NoDup (e_order_id <$> l) ->
    e ∈ l -> total (fun y => w (f y)) l = w (f e)).
  { intros f l Hf Hnd He. apply (total_entry (fun y => w (f y)) l e Hnd He). intros y _ Hy. apply Hw. rewrite Hf. by intros [=]. }
  unfold batch_moves, swap_moves, fee_moves. cbv zeta. rewrite !total_append, !total_fmap, total_bind. fold tb te.
  rewrite (total_zero (fun rf => total w (if rf.2 =? 0 then [] else _))).
  2: { intros [? y] _. simpl. destruct (y =? 0); [done|]. cbn. rewrite Hw by done. done. }
  assert (total w (if 0 <? x then [match side with Buy => Bought None pallet_account PalletHotkey n x out
    | Sell => Sold None pallet_account PalletHotkey n x out end] else []) = 0) as ->.
  { destruct (0 <? x); [|done]. cbn. rewrite Hw; [done|]. by destruct side. }
  split; intros He.
  - assert (e_order_id e ∉ e_order_id <$> ss) by (by apply Hdis, list_elem_of_fmap_2).
    rewrite (Hone collect_buy), (Hone (pay_buy n ta tb)), (Hother (collect_sell n)), (Hother (pay_sell _ te price)) by done. lia.
  - assert (e_order_id e ∉ e_order_id <$> bs) by (intros Hin; by eapply Hdis, list_elem_of_fmap_2).
    rewrite (Hother collect_buy), (Hother (pay_buy n ta tb)), (Hone (collect_sell n)), (Hone (pay_sell _ te price)) by done. lia.
Qed.
End batch.

Lemma batch_executes n price bs ss s s' :
  (forall e, e ∈ bs -> is_buy (e_side e) = true) -> (forall e, e ∈ ss -> is_buy (e_side e) = false) ->
  execute_classified_batch lib n price bs ss s = (Ok tt, s') -> executes (bs ++ ss) s s'.
Proof.
  intros Hbs Hss He. destruct (batch_rule lib (trace_rule (trace s)) _ _ _ _ _ _ He) as [new Hnew]; [exists []; by rewrite app_nil_r|].
  apply batch_run_ok in He as [(-> & -> & ->)|(side & out & ta & x & [_ _ Hmv _ _ (evs & Hev & E1 & E2)])].
  { split.
    - exists []. rewrite app_nil_r. split; [done|]. by intros tr i ?%not_elem_of_nil.
    - intros. cbn. lia.
    - by intros e q ?%not_elem_of_nil. }
  split.
  - exists new. split; [done|]. intros tr i Htr Htag. destruct (new_moves _ _ _ _ _ Hnew Hmv Htr) as [Hr|Hin]; [by destruct tr|].
    by eapply batch_moves_tag.
  - intros i buy Hch. rewrite !trace_moves by done. rewrite Hmv, total_append. f_equal. by apply batch_moves_input.
  - intros e q [Hin|Hin]%elem_of_app Hq; [apply E1 in Hin as [_ Hu]|apply E2 in Hin as [_ Hu]];
      destruct (Hu q Hq) as [u ?]; exists u; rewrite Hev, elem_of_app; by right.
Qed.

(** ** Executions, single or in a batch *)

Record execution (who : AccountId) (l : list Entry) s s' : Prop := {
  execution_valid e : e ∈ l -> exists so, valid_entry lib s who so e;
  execution_ids : NoDup (e_order_id <$> l);
  execution_effect : executes l s s';
  execution_rules P Q : execution_rule P Q -> P l s -> P [] s';
}.

Lemma single_execution who so x provider s s' :
  let e := classify_order lib (view (order so)) (partial_fill so) (derive_order_id lib (order so)) x provider in
  valid_entry lib s who so e ->
  execute_validated_order lib (view (order so)) (partial_fill so) (derive_order_id lib (order so)) x provider s = (Ok tt, s') ->
  execution who [e] s s'.
Proof.
  intros e Hv He. split.
  - intros y ->%list_elem_of_singleton. by exists so.
  - apply NoDup_singleton.
  - by apply single_executes.
  - intros P Q R. by apply (single_rule lib R).
Qed.

Lemma batch_execution who n orders bs ss price s s' :
  classified lib s who n orders bs ss -> execute_classified_batch lib n price bs ss s = (Ok tt, s') ->
  execution who (bs ++ ss) s s'.
Proof.
  intros [Hb Hs Hnd] He. split; [|done| |].
  - intros e [Hin|Hin]%elem_of_app; [apply Hb in Hin|apply Hs in Hin]; destruct Hin as (_ & so & _ & _ & ?); by exists so.
  - eapply batch_executes; [| |done]; intros e Hin; [by apply Hb in Hin as [? _]|by apply Hs in Hin as [? _]].
  - intros P Q R. by eapply (batch_rule lib R).
Qed.

Lemma charge_none i l : (forall e, e ∈ l -> e_order_id e <> i) -> total (charge i) l = 0.
Proof. intros Hl. apply total_zero. intros e He. unfold charge. by rewrite decide_False by by apply Hl. Qed.

Lemma charge_once i l e : NoDup (e_order_id <$> l) -> e ∈ l -> e_order_id e = i -> total (charge i) l = e_gross e.
Proof.
  intros Hnd He Hi. rewrite (total_entry _ l e Hnd He); unfold charge; [by rewrite decide_True|].
  intros y _ Hy. by rewrite decide_False by congruence.
Qed.
End moves.
