(* ===== verification/LimitOrdersSafety.v ===== *)
(** * Limit orders: what is filled, and on whose authority

    Theorems over all histories of the limit orders of LimitOrders.v. *)

From Stdlib Require Import ZArith Lia.
From stdpp Require Import base gmap list fin_maps relations.
From S2P Require Import Prelude LimitOrders LimitOrdersLogic LimitOrdersMoves.

Section safety.
Context {AccountId Hash Signature Commitment OtherError Ledger : Type}.
Context `{Countable AccountId} `{Countable Hash} `{!EqDecision Commitment}.
Context (lib : Libraries (AccountId := AccountId) (Hash := Hash) (Signature := Signature)
  (Commitment := Commitment)).
Context {swap : OrderSwapInterface (AccountId := AccountId) (OtherError := OtherError) (Ledger := Ledger)}.
Context {cfg : Config (AccountId := AccountId) (Hash := Hash) (Ledger := Ledger)}.
Abbreviation St := (State (AccountId := AccountId) (Hash := Hash) (Commitment := Commitment)
  (OtherError := OtherError) (Ledger := Ledger)).
Abbreviation Entry := (OrderEntry (AccountId := AccountId) (Hash := Hash)).
Abbreviation Tr := (Trace (AccountId := AccountId) (Hash := Hash)).
Implicit Types (s t : St) (e : Entry).
Implicit Types (so : SignedOrder (AccountId := AccountId) (Hash := Hash) (Signature := Signature)).

(** ** Fills of signed orders *)

Definition new_status (st : option OrderStatus) (fill : option Z) (order_amount : Z) : OrderStatus :=
  match fill with
  | None => Fulfilled
  | Some fill =>
      let new_total := saturating_add u64_max (match st with Some (PartiallyFilled n) => n | _ => 0 end) fill in
      if order_amount <=? new_total then Fulfilled else PartiallyFilled new_total
  end.

Definition settles (i : Hash) e : Prop := e_order_id e = i /\ e_authorization_nonce e = None.
Definition settle_status (i : Hash) (st : option OrderStatus) e : option OrderStatus :=
  if decide (settles i e) then Some (new_status st (e_partial_fill e) (e_order_amount e)) else st.

Lemma status_rule i X : execution_rule (fun l s => foldl (settle_status i) (Orders s !! i) l = X)
  (fun _ l s => foldl (settle_status i) (Orders s !! i) l = X).
Proof.
  split.
  - intros l s t Hm. by rewrite (moved_orders _ _ Hm).
  - done.
  - intros l p j x s t [[_ ->]|(p' & r & _ & _ & ->)]%consume_provider_ok; done.
  - intros e l s t ->%settle_ok. simpl. intros <-. f_equal. unfold settle_status, settles.
    destruct (e_authorization_nonce e) as [n|] eqn:Hn; simpl; [by rewrite decide_False by (by intros [_ ?])|].
    destruct (decide (e_order_id e = i)) as [->|Hne].
    + by rewrite decide_True, lookup_insert_eq.
    + by rewrite decide_False, lookup_insert_ne by tauto.
  - intros e l p j x s t [[_ ->]|(p' & r & _ & _ & ->)]%consume_provider_ok; done.
  - intros e l asset out s t [->|(? & _ & ->)]%record_linked_output_ok; done.
Qed.

(** Entries of one execution have different ids, so at most one of those that share
    an id has an effect. *)
Lemma foldl_once {T} (f : T -> Entry -> T) (K : Entry -> Prop) `{!forall e, Decision (K e)} l (tk : T) :
  (forall tk e, ~ K e -> f tk e = tk) ->
  (forall e e', e ∈ l -> e' ∈ l -> K e -> K e' -> e_order_id e = e_order_id e') ->
  NoDup (e_order_id <$> l) ->
  (foldl f tk l = tk /\ forall e, e ∈ l -> ~ K e) \/ exists e, e ∈ l /\ K e /\ foldl f tk l = f tk e.
Proof.
  intros Hf. revert tk. induction l as [|e l IH]; intros tk HK Hnd; [left; split; [done|]; by intros e ?%not_elem_of_nil|]. cbn [foldl].
  rewrite fmap_cons in Hnd. apply list.NoDup_cons in Hnd as [Hni Hnd].
  assert (HK' : forall e e', e ∈ l -> e' ∈ l -> K e -> K e' -> e_order_id e = e_order_id e')
    by (intros; apply HK; by try right).
  destruct (decide (K e)) as [He|He].
  - right. exists e. split_and!; [by left|done|]. destruct (IH (f tk e) HK' Hnd) as [[-> _]|(e' & He' & Hk & _)]; [done|].
    destruct Hni. rewrite (HK e e') by (done || by left || by right). by apply list_elem_of_fmap_2.
  - rewrite (Hf tk e He). destruct (IH tk HK' Hnd) as [[-> Hno]|(e' & ? & ? & ?)].
    + left. split; [done|]. intros x [->|Hx]%elem_of_cons; [done|by apply Hno].
    + right. exists e'. split_and!; try done. by right.
Qed.

(** The status of a signed order changes at most once in an execution, by the entry of
    a valid order. *)
Lemma execution_status i who l s s' :
  execution lib who l s s' ->
  (Orders s' !! i = Orders s !! i /\ forall e, e ∈ l -> ~ settles i e) \/
  exists so e, e ∈ l /\ valid_entry lib s who so e /\ settles i e /\ Orders s' !! i = settle_status i (Orders s !! i) e.
Proof.
  intros [Hv Hnd _ Hrules].
  specialize (Hrules _ _ (status_rule i (foldl (settle_status i) (Orders s !! i) l)) eq_refl). cbn [foldl] in Hrules. rewrite Hrules.
  destruct (foldl_once (settle_status i) (settles i) l (Orders s !! i)) as [[-> Hno]|(e & Hin & Hi & ->)]; [..|by left|].
  { intros st e Hn. unfold settle_status. by rewrite decide_False. }
  { by intros e e' _ _ [-> _] [-> _]. }
  { done. }
  right. destruct (Hv e Hin) as [so Hso]. by exists so, e.
Qed.

(** *** Approvals touch no signed order *)

Definition approvals_of s (who : AccountId) : AccountOrderApprovals (Hash := Hash) (Commitment := Commitment) :=
  default (mkApprovals None ∅) (ApprovedOrders s !! who).

(** Renewing an approval, or making a new one, which drops the ones that are done. *)
Definition renewed (n : Z) (o : VersionedOrder) (st st' : AccountOrderApprovals) : Prop :=
  exists a, approved st !! n = Some a /\ ap_id a = derive_authorized_order_id lib n o /\
    is_terminal (ap_status a) = false /\
    st' = mkApprovals (highest_nonce st)
      (<[n := mkApproval (ap_id a) (order_approval_commitment lib n o) (ap_expiry a) (ap_status a)]> (approved st)).
Definition added (n : Z) (o : VersionedOrder) (st st' : AccountOrderApprovals) : Prop :=
  approved st !! n = None /\ (forall h, highest_nonce st = Some h -> h < n) /\
  exists kept, kept ⊆ approved st /\ (size kept < MaxPendingOrders)%nat /\
    st' = mkApprovals (Some n)
      (<[n := mkApproval (derive_authorized_order_id lib n o) (order_approval_commitment lib n o)
                (expiry (view o)) None]> kept).

Lemma approve_order_ok who n (o : VersionedOrder) s i t :
  approve_order lib who n o s = (Ok i, t) ->
  exists st', t = set_approved <[who := st']> s /\
    (renewed n o (approvals_of s who) st' \/ added n o (approvals_of s who) st').
Proof.
  intros Ha. unfold approve_order in Ha. apply bind_ok in Ha as (? & ? & [-> ->]%gets_ok & Ha).
  apply bind_ok in Ha as ([] & ? & [_ ->]%ensure_ok & Ha). cbv zeta in Ha.
  apply bind_ok in Ha as ([] & ? & [_ ->]%ensure_ok & Ha). unfold id in Ha.
  change (from_option (fun x => x) (mkApprovals None ∅) (ApprovedOrders s !! who)) with (approvals_of s who) in Ha.
  apply bind_ok in Ha as ([] & s1 & Ha & [_ ->]%ret_ok).
  destruct (approved (approvals_of s who) !! n) as [a|] eqn:Hn.
  - do 2 apply bind_ok in Ha as ([] & ? & [? ->]%ensure_ok & Ha). apply modify_ok in Ha as ->. bool_to_prop.
    eexists. split; [done|]. left. by exists a.
  - do 2 apply bind_ok in Ha as ([] & ? & [? ->]%ensure_ok & Ha). apply modify_ok in Ha as ->. bool_to_prop.
    eexists. split; [done|]. right. split_and!; [done| |].
    + intros h Hh. rewrite Hh in *. by bool_to_prop.
    + eexists. split_and!; [|done..]. apply map_filter_subseteq.
Qed.

(** *** Every input is accounted for *)

(** The status of a signed order of a fixed amount tells what it was charged. *)
Definition accounted (x : Z) (tk : option OrderStatus * Z) : Prop :=
  match tk.1 with
  | None | Some Cancelled => tk.2 = 0
  | Some (PartiallyFilled n) => tk.2 = n /\ 0 < n < x
  | Some Fulfilled => tk.2 = x
  end.

Lemma accounted_settle i x e (v : OrderView (AccountId := AccountId) (Hash := Hash)) st f :
  0 <= x <= u64_max -> settles i e -> e_order_amount e = x -> e_gross e = default x (e_partial_fill e) ->
  fill_fits v (e_partial_fill e) st x -> accounted x (st, f) -> accounted x (settle_status i st e, f + e_gross e).
Proof.
  intros Hx Hs Ha Hg [Hf _] Hacc. unfold settle_status. rewrite decide_True by done. unfold accounted, new_status in *.
  simpl. rewrite Hg, Ha. simpl in *. unfold saturating_add, saturating_sub in *.
  destruct (e_partial_fill e) as [fill|], st as [[|n|]|]; simpl in *; try done; try lia.
  all: match goal with |- context [if ?b then _ else _] => destruct b eqn:Hb end; bool_to_prop; lia.
Qed.

Lemma valid_settles s who so e i :
  valid_entry lib s who so e -> settles i e ->
  derive_order_id lib (order so) = i /\ authorized_terms (order so) = None /\
  order_status s (signer (view (order so))) (authorization_nonce (view (order so))) (e_order_id e) = Orders s !! i.
Proof.
  intros (price & x & p & _ & _ & ->) [Hi Hn]. simpl in *. rewrite Hn, Hi. split_and!; [done| |done].
  by destruct (order so) as [| |? []].
Qed.

(** One order whose id no other order has. *)
Section order.
Context (o : VersionedOrder (AccountId := AccountId) (Hash := Hash)).
Context (Hinj : forall o', derive_order_id lib o' = derive_order_id lib o -> o' = o).
Abbreviation i := (derive_order_id lib o).
Abbreviation status_in := (fun s => order_status s (signer (view o)) (authorization_nonce (view o)) i).

Lemma valid_order s who so e :
  valid_entry lib s who so e -> e_order_id e = i ->
  order so = o /\ e = classify_order lib (view o) (partial_fill so) i (e_order_amount e) (e_provider e) /\
  resolves lib s (view o) (e_order_amount e) (e_provider e) /\
  fill_fits (view o) (e_partial_fill e) (status_in s) (e_order_amount e) /\ authorised lib s so.
Proof.
  intros Hv Hi. apply valid_entry_facts in Hv as (Hau & _ & _ & _ & _ & _ & Hres & Hfit & He).
  assert (Ho : order so = o) by (apply Hinj; rewrite <- Hi; by rewrite He). rewrite Hi in Hfit. rewrite Ho in *. split_and!; try done.
  by rewrite He.
Qed.

Lemma signed_settles s who so e :
  authorized_terms o = None -> valid_entry lib s who so e -> e_order_id e = i -> settles i e.
Proof.
  intros Hcl Hv Hi. split; [done|]. destruct (valid_order _ _ _ _ Hv Hi) as (_ & -> & _). simpl. by destruct o.
Qed.

Section fixed_amount.
Context {laws : LibraryLaws lib} (x : Z).
Context (Hx : amount (view o) = Fixed x) (Hrange : 0 <= x <= u64_max) (Hfee : 0 <= fee_rate (view o) <= 1000000000).

Lemma valid_amount s who so e :
  valid_entry lib s who so e -> e_order_id e = i -> e_order_amount e = x /\ e_gross e = default x (e_partial_fill e).
Proof.
  intros Hv Hi. destruct (valid_order _ _ _ _ Hv Hi) as (_ & He & Hres & _). unfold resolves in Hres. rewrite Hx in Hres.
  destruct Hres as [Ha _]. split; [done|]. rewrite He, Ha. done.
Qed.

Lemma valid_chargeable s who so e :
  valid_entry lib s who so e -> (forall n, status_in s = Some (PartiallyFilled n) -> 0 <= n) ->
  chargeable lib i (is_buy (order_type (view o))) e.
Proof.
  intros Hv Hn Hi. destruct (valid_order _ _ _ _ Hv Hi) as (_ & He & _ & [Hfit _] & _).
  destruct (valid_amount _ _ _ _ Hv Hi) as [Ha Hg].
  assert (Hs : e_side e = order_type (view o) /\ e_fee_rate e = fee_rate (view o)) by (rewrite He; done). destruct Hs as [-> ->].
  split; [done|]. apply mul_floor_le; [done..|]. rewrite Hg. rewrite Ha in Hfit.
  destruct (e_partial_fill e) as [fill|]; simpl in *; [|done]. destruct (order_status _ _ _ _) as [[|n|]|]; try done; [|lia].
  specialize (Hn n eq_refl). unfold saturating_sub in Hfit. lia.
Qed.

Lemma accounted_execution who l s s' :
  authorized_terms o = None -> execution lib who l s s' ->
  accounted x (Orders s !! i, taken lib o s) -> accounted x (Orders s' !! i, taken lib o s').
Proof.
  intros Hcl Hex Hacc. pose proof Hex as [Hv Hnd Heff _].
  assert (Hst : status_in s = Orders s !! i) by (by destruct o).
  assert (Htk : taken lib o s' = taken lib o s + total (charge i) l).
  { apply (ex_taken _ _ _ _ Heff). intros e [so Hso]%Hv. eapply valid_chargeable; [done|]. rewrite Hst.
    intros n Hn. unfold accounted in Hacc. rewrite Hn in Hacc. simpl in Hacc. lia. }
  rewrite Htk. destruct (execution_status i _ _ _ _ Hex) as [[-> Hno]|(so & e & Hin & Hso & Hi & ->)].
  - rewrite charge_none, Z.add_0_r; [done|]. intros e He Hi. destruct (Hv e He) as [so Hso]. by eapply Hno, signed_settles.
  - rewrite (charge_once i l e) by (done || apply Hi). destruct (valid_amount _ _ _ _ Hso (proj1 Hi)) as [Ha Hg].
    destruct (valid_order _ _ _ _ Hso (proj1 Hi)) as (_ & _ & _ & Hfit & _). rewrite Hst, Ha in Hfit.
    by eapply accounted_settle.
Qed.

Lemma accounted_invariant :
  authorized_terms o = None -> order_invariant lib (fun s => accounted x (Orders s !! i, taken lib o s)).
Proof.
  intros Hcl. split; try done.
  - intros s who so x' p s' Hv He. eapply accounted_execution; [done|]. by eapply single_execution.
  - intros s who n orders bs ss s' Hc He. eapply accounted_execution; [done|]. by eapply batch_execution.
  - intros s o' _ Hnone. simpl. destruct (decide (derive_order_id lib o' = i)) as [He|He].
    + rewrite He in *. rewrite lookup_insert_eq, Hnone. done.
    + by rewrite lookup_insert_ne.
  - intros s n o' j s' (st' & -> & _)%approve_order_ok. done.
  - intros s who. unfold taken. simpl. rewrite total_append. cbn. by rewrite Z.add_0_r.
Qed.
End fixed_amount.
End order.

(** (C3) The storage never loses count of a signed order, and no
    more is taken for it than its owner signed.  Along all calls of all parties,
    blocks and upgrades, what was really taken for an order of a fixed amount, traded
    with the pool, moved to the account of the pallet or paid as a fee, is at most that
    amount: nothing while the order is unknown or once it is cancelled, the number in its
    status while it is partially filled, and exactly the amount when it is fulfilled.
    Ids of different orders are taken to differ. *)
Theorem fills_accounted {laws : LibraryLaws lib} (o : VersionedOrder) (x : Z) s s' :
  authorized_terms o = None -> amount (view o) = Fixed x -> 0 <= x <= u64_max ->
  0 <= fee_rate (view o) <= 1000000000 ->
  (forall o', derive_order_id lib o' = derive_order_id lib o -> o' = o) ->
  Orders s !! derive_order_id lib o = None -> taken lib o s = 0 ->
  rtc (order_step lib) s s' ->
  taken lib o s' <= x /\
  match Orders s' !! derive_order_id lib o with
  | None | Some Cancelled => taken lib o s' = 0
  | Some (PartiallyFilled n) => taken lib o s' = n /\ 0 < n < x
  | Some Fulfilled => taken lib o s' = x
  end.
Proof.
  intros Hcl Hx Hr Hf Hinj H1 H2 Hsteps.
  assert (Hacc : accounted x (Orders s' !! derive_order_id lib o, taken lib o s')).
  { eapply (order_steps_inv lib _ (accounted_invariant o Hinj x Hx Hr Hf Hcl)); [done|]. unfold accounted. by rewrite H1. }
  unfold accounted in Hacc. simpl in Hacc. split; [|done]. destruct (Orders s' !! _) as [[]|]; lia.
Qed.

(** ** Fills of approved orders *)

Section approved.
Context (w : AccountId) (n : Z).

Abbreviation approval := (OrderApproval (Hash := Hash) (Commitment := Commitment)).

Definition approves e : Prop := e_signer e = w /\ e_authorization_nonce e = Some n.
Definition settle_approval (st : option approval) e : option approval :=
  if decide (approves e) then
    (fun a => if bool_decide (ap_id a = e_order_id e)
              then set_status (new_status (ap_status a) (e_partial_fill e) (e_order_amount e)) a else a) <$> st
  else st.

Lemma settle_approved e s t :
  settle (e_signer e) (e_authorization_nonce e) (e_order_id e) (e_partial_fill e) (e_order_amount e) s = (Ok tt, t) ->
  approved_order t w n = settle_approval (approved_order s w n) e.
Proof.
  intros ->%settle_ok. unfold settle_approval, approves.
  destruct (e_authorization_nonce e) as [m|] eqn:Hn; simpl; [|by rewrite decide_False by naive_solver].
  unfold approved_order. simpl. destruct (decide (e_signer e = w)) as [->|Hw];
    [|by rewrite decide_False, lookup_alter_ne by naive_solver].
  rewrite lookup_alter_eq. destruct (decide (m = n)) as [->|Hm].
  - rewrite decide_True by done. destruct (ApprovedOrders s !! w) as [st|] eqn:Hst; [|done]. simpl. rewrite lookup_alter_eq.
    destruct (approved st !! n) as [a|] eqn:Ha; [|done]. simpl. f_equal.
    destruct (bool_decide_reflect (ap_id a = e_order_id e)) as [Hid|]; [|done]. f_equal.
    unfold compute_order_status, order_status, approved_order. rewrite Hst. simpl. rewrite Ha. simpl.
    by rewrite bool_decide_eq_true_2.
  - rewrite decide_False by naive_solver. destruct (ApprovedOrders s !! w) as [st|]; [|done]. simpl. by rewrite lookup_alter_ne.
Qed.

(** Trace entries are never removed, so that a reaped owner stays on record. *)
Lemma approval_rule (tr0 : list Tr) X :
  execution_rule
    (fun l s => exists new, trace s = tr0 ++ new /\ (Reaped w ∈ new \/ foldl settle_approval (approved_order s w n) l = X))
    (fun _ l s => exists new, trace s = tr0 ++ new /\ (Reaped w ∈ new \/ foldl settle_approval (approved_order s w n) l = X)).
Proof.
  split.
  - intros l s t Hm (new & Ht & HX). destruct (moved_reaped _ _ Hm) as (new' & Ht' & Ha). exists (new ++ new').
    rewrite Ht', Ht, app_assoc. split; [done|]. destruct HX as [Hr|HX]; [left; apply elem_of_app; by left|].
    unfold approved_order. destruct (Ha w) as [->|[_ ?]]; [by right|left; apply elem_of_app; by right].
  - done.
  - intros l p j x s t [[_ ->]|(p' & r & _ & _ & ->)]%consume_provider_ok; done.
  - intros e l s t Hs (new & Ht & HX). exists new. split; [apply settle_ok in Hs as ->; by destruct (e_authorization_nonce e)|].
    destruct HX as [Hr|HX]; [by left|right]. by rewrite (settle_approved _ _ _ Hs).
  - intros e l p j x s t [[_ ->]|(p' & r & _ & _ & ->)]%consume_provider_ok; done.
  - intros e l asset out s t [->|(? & _ & ->)]%record_linked_output_ok; done.
Qed.

Lemma valid_approves s who so e :
  valid_entry lib s who so e -> approves e ->
  exists a, approved_order s w n = Some a /\ ap_id a = e_order_id e /\
    fill_fits (view (order so)) (e_partial_fill e) (ap_status a) (e_order_amount e).
Proof.
  intros (Hau & _ & _ & _ & _ & _ & Hres & Hfit & He)%valid_entry_facts [Hw Hn].
  rewrite He in Hw, Hn. simpl in Hw, Hn. unfold authorised in Hau. rewrite Hw in Hau.
  destruct (order so) as [| |m terms] eqn:Ho; [done..|]. assert (m = n) as -> by (simpl in Hn; congruence).
  destruct Hau as (_ & _ & a & Ha & Hid & _). exists a. rewrite Hw in Hfit. simpl in Hfit. rewrite Ha in Hfit. simpl in Hfit.
  rewrite He in Hfit |- *. simpl in Hfit |- *. rewrite bool_decide_eq_true_2 in Hfit by done. by split_and!.
Qed.

(** An approval changes at most once in an execution, by the entry of a valid order. *)
Lemma execution_approval who l s s' :
  execution lib who l s s' ->
  exists new, trace s' = trace s ++ new /\
    (Reaped w ∈ new \/
     (approved_order s' w n = approved_order s w n /\ forall e, e ∈ l -> ~ approves e) \/
     exists so e, e ∈ l /\ valid_entry lib s who so e /\ approves e /\
       approved_order s' w n = settle_approval (approved_order s w n) e).
Proof.
  intros [Hv Hnd _ Hrules].
  destruct (Hrules _ _ (approval_rule (trace s) (foldl settle_approval (approved_order s w n) l))) as (new & Ht & HX).
  { exists []. rewrite app_nil_r. split; [done|by right]. }
  exists new. split; [done|]. destruct HX as [?|HX]; [by left|right]. cbn [foldl] in HX. rewrite HX.
  destruct (foldl_once settle_approval approves l (approved_order s w n)) as [[-> Hno]|(e & Hin & Hi & ->)]; [..|by left|].
  { intros st e Hn. unfold settle_approval. by rewrite decide_False. }
  { intros e e' [so Hso]%Hv [so' Hso']%Hv Ha Ha'. apply (valid_approves _ _ _ _ Hso) in Ha as (a & ? & <- & _).
    apply (valid_approves _ _ _ _ Hso') in Ha' as (a' & ? & <- & _). by simplify_eq. }
  { done. }
  right. destruct (Hv e Hin) as [so Hso]. by exists so, e.
Qed.

(** *** The nonces of an account *)

Definition below (m : Z) (highest : option Z) : Prop := exists h, highest = Some h /\ m <= h.

Definition nonces_below s : Prop :=
  forall m a, approved (approvals_of s w) !! m = Some a -> below m (highest_nonce (approvals_of s w)).

Lemma approved_approvals s : approved_order s w n = approved (approvals_of s w) !! n.
Proof. unfold approved_order, approvals_of. destruct (ApprovedOrders s !! w); [done|]. simpl. by rewrite lookup_empty. Qed.

(** Executions neither make nor drop approvals. *)
Definition nonces s : option Z * gset Z :=
  (highest_nonce (approvals_of s w), dom (approved (approvals_of s w))).

Lemma set_order_status_nonces who m j st s : nonces (set_order_status who m j st s) = nonces s.
Proof.
  destruct m as [m|]; [|done]. unfold nonces, approvals_of. simpl.
  destruct (decide (who = w)) as [->|]; [|by rewrite lookup_alter_ne]. rewrite lookup_alter_eq.
  destruct (ApprovedOrders s !! w) as [a|]; [|done]. simpl. by rewrite dom_alter_L.
Qed.

Lemma nonces_rule (tr0 : list Tr) X :
  execution_rule (fun _ s => exists new, trace s = tr0 ++ new /\ (Reaped w ∈ new \/ nonces s = X))
    (fun _ _ s => exists new, trace s = tr0 ++ new /\ (Reaped w ∈ new \/ nonces s = X)).
Proof.
  split.
  - intros l s t Hm (new & Ht & HX). destruct (moved_reaped _ _ Hm) as (new' & Ht' & Ha). exists (new ++ new').
    rewrite Ht', Ht, app_assoc, elem_of_app. split; [done|]. destruct HX as [Hr|HX]; [by auto|].
    destruct (Ha w) as [Hw|[_ Hw]]; [right|by auto]. rewrite <- HX. unfold nonces, approvals_of. by rewrite Hw.
  - done.
  - intros l p j x s t [[_ ->]|(p' & r & _ & _ & ->)]%consume_provider_ok; done.
  - intros e l s t ->%settle_ok (new & Ht & HX). exists new. split; [by destruct (e_authorization_nonce e)|].
    destruct HX as [Hr|HX]; [by left|right]. rewrite <- HX. apply set_order_status_nonces.
  - intros e l p j x s t [[_ ->]|(p' & r & _ & _ & ->)]%consume_provider_ok; done.
  - intros e l asset out s t [->|(? & _ & ->)]%record_linked_output_ok; done.
Qed.

Lemma nonces_highest s s' : nonces s' = nonces s -> highest_nonce (approvals_of s' w) = highest_nonce (approvals_of s w).
Proof. by intros [= ? _]. Qed.

Lemma nonces_below_eq s s' : nonces s' = nonces s -> nonces_below s -> nonces_below s'.
Proof.
  unfold nonces, nonces_below. intros [= Hh Hd] Hn m a Ha. rewrite Hh.
  assert (m ∈ dom (approved (approvals_of s w))) as [a' Ha']%elem_of_dom by (rewrite <- Hd; by apply elem_of_dom).
  by eapply Hn.
Qed.

(** Approving under other nonces keeps an approval, or forgets it under a nonce that
    is used up; approving under the same nonce needs a new nonce or an open approval. *)
Lemma approve_order_kept m (o' : VersionedOrder) s j s' :
  order_signer o' = w -> approve_order lib (order_signer o') m o' s = (Ok j, s') -> nonces_below s ->
  nonces_below s' /\ (below n (highest_nonce (approvals_of s w)) -> below n (highest_nonce (approvals_of s' w))) /\
  match approved_order s w n with
  | None => approved_order s' w n = None \/
      (~ below n (highest_nonce (approvals_of s w)) /\ exists a, approved_order s' w n = Some a /\ ap_status a = None)
  | Some a => approved_order s' w n = Some a \/
      (approved_order s' w n = None /\ below n (highest_nonce (approvals_of s' w))) \/
      (is_terminal (ap_status a) = false /\ exists c, approved_order s' w n = Some (mkApproval (ap_id a) c (ap_expiry a) (ap_status a)))
  end.
Proof.
  intros Hw (st' & -> & Hst)%approve_order_ok Hn. rewrite Hw in *.
  assert (Hap : approvals_of (set_approved <[w := st']> s) w = st') by (unfold approvals_of; simpl; by rewrite lookup_insert_eq).
  unfold nonces_below in *. rewrite !approved_approvals, Hap.
  destruct Hst as [(a & Ha & Hid & Ht & ->)|(Hnone & Hlt & kept & Hkept & _ & ->)]; simpl.
  - split_and!; [|done|].
    + intros k a' Hk. destruct (decide (m = k)) as [->|]; [by eapply Hn|]. rewrite lookup_insert_ne in Hk by done. by eapply Hn.
    + destruct (decide (m = n)) as [->|]; [|rewrite lookup_insert_ne by done; case_match; by left].
      rewrite Ha, lookup_insert_eq. right; right. split; [done|by eexists].
  - assert (Hup : forall k, below k (highest_nonce (approvals_of s w)) -> below k (Some m)).
    { intros k (h & Hh & ?). specialize (Hlt h Hh). exists m. split; [done|lia]. }
    split_and!; [|by apply Hup|].
    + intros k a' Hk. destruct (decide (m = k)) as [->|]; [exists k; split; [done|lia]|].
      rewrite lookup_insert_ne in Hk by done. eapply Hup, Hn. by eapply lookup_weaken.
    + destruct (decide (m = n)) as [->|].
      * rewrite Hnone, lookup_insert_eq. right. split; [|by eexists]. intros (h & Hh & ?). specialize (Hlt h Hh). lia.
      * rewrite lookup_insert_ne by done. destruct (kept !! n) as [a|] eqn:Hk; [rewrite (lookup_weaken _ _ _ _ Hk Hkept); by left|].
        destruct (approved (approvals_of s w) !! n) as [a|] eqn:Ha; [|by left]. right; left. split; [done|]. by eapply Hup, Hn.
Qed.

Lemma approve_order_other m (o' : VersionedOrder) s j s' :
  order_signer o' <> w -> approve_order lib (order_signer o') m o' s = (Ok j, s') ->
  approvals_of s' w = approvals_of s w /\ approved_order s' w n = approved_order s w n.
Proof.
  intros Hw (st' & -> & _)%approve_order_ok. unfold approvals_of, approved_order. simpl. by rewrite lookup_insert_ne.
Qed.

Lemma approve_order_trace m (o' : VersionedOrder) s j s' :
  approve_order lib (order_signer o') m o' s = (Ok j, s') -> trace s' = trace s.
Proof. by intros (st' & -> & _)%approve_order_ok. Qed.

(** Cancelling. *)
Lemma cancel_approved who m a s :
  approved_order s who m = Some a ->
  approved_order (set_order_status who (Some m) (ap_id a) Cancelled s) w n =
    if decide (who = w /\ m = n) then Some (set_status Cancelled a) else approved_order s w n.
Proof.
  intros Ha. unfold approved_order in *. simpl. destruct (decide (who = w)) as [->|Hw].
  - rewrite lookup_alter_eq. destruct (ApprovedOrders s !! w) as [st|]; [|done]. simpl in *. destruct (decide (m = n)) as [->|Hm].
    + rewrite decide_True, lookup_alter_eq, Ha by done. simpl. by rewrite bool_decide_eq_true_2.
    + by rewrite decide_False, lookup_alter_ne by tauto.
  - by rewrite decide_False, lookup_alter_ne by tauto.
Qed.

Lemma reaped_rule : execution_rule (fun _ s => Reaped w ∈ trace s) (fun _ _ s => Reaped w ∈ trace s).
Proof.
  split.
  - intros l s t Hm Hr. destruct (moved_trace _ _ Hm) as (new & ->). apply elem_of_app. by left.
  - done.
  - intros l p j y s t [[_ ->]|(p' & r & _ & _ & ->)]%consume_provider_ok; done.
  - intros e l s t ->%settle_ok Hr. by destruct (e_authorization_nonce e).
  - intros e l p j y s t [[_ ->]|(p' & r & _ & _ & ->)]%consume_provider_ok; done.
  - intros e l asset out s t [->|(? & _ & ->)]%record_linked_output_ok; done.
Qed.

(** *** What holds of an approval while its account lives *)

Definition unless_reaped s0 (I : St -> Prop) s : Prop :=
  exists new, trace s = trace s0 ++ new /\ (Reaped w ∈ new \/ I s).

Record approval_invariant (I : St -> Prop) : Prop := {
  ai_frame s t : ApprovedOrders t = ApprovedOrders s -> trace t = trace s -> I s -> I t;
  ai_reap s who : who <> w -> I s -> I (on_killed_account who s);
  ai_cancel s who m a : approved_order s who m = Some a -> is_terminal (ap_status a) = false -> I s ->
    I (set_order_status who (Some m) (ap_id a) Cancelled s);
  ai_approve s m (o' : VersionedOrder) j s' : approve_order lib (order_signer o') m o' s = (Ok j, s') -> I s -> I s';
  ai_execution who l s s' : execution lib who l s s' -> nonces s' = nonces s ->
    (approved_order s' w n = approved_order s w n /\ forall e, e ∈ l -> ~ approves e) \/
    (exists so e, e ∈ l /\ valid_entry lib s who so e /\ approves e /\
       approved_order s' w n = settle_approval (approved_order s w n) e) -> I s -> I s';
}.

Lemma unless_reaped_invariant s0 I : approval_invariant I -> order_invariant lib (unless_reaped s0 I).
Proof.
  intros HI.
  assert (Hframe : forall s t, ApprovedOrders t = ApprovedOrders s -> trace t = trace s -> unless_reaped s0 I s -> unless_reaped s0 I t).
  { intros s t Ha Ht (new & Hn & Hs). exists new. rewrite Ht. split; [done|]. destruct Hs as [?|Hs]; [by left|right]. by eapply (ai_frame _ HI). }
  assert (Hexec : forall who l s s', execution lib who l s s' -> unless_reaped s0 I s -> unless_reaped s0 I s').
  { intros who l s s' Hex (new & Hn & Hs). destruct (execution_approval _ _ _ _ Hex) as (new' & Ht & Hst).
    destruct (execution_rules _ _ _ _ _ Hex _ _ (nonces_rule (trace s) (nonces s))) as (new'' & Ht' & Hns).
    { exists []. rewrite app_nil_r. split; [done|by right]. }
    rewrite Ht in Ht'. apply app_inv_head in Ht' as <-. exists (new ++ new'). rewrite Ht, Hn, app_assoc, elem_of_app. split; [done|].
    destruct Hs as [?|Hs]; [by auto|]. destruct Hst as [?|Hst], Hns as [?|Hns]; [by auto..|]. right. by eapply (ai_execution _ HI). }
  split; try (intros; match goal with Hu : unless_reaped _ _ ?y |- _ => by apply (Hframe y) end).
  - intros s who so x p s' Hv He. eapply Hexec. by eapply single_execution.
  - intros s who m orders bs ss s' Hc He. eapply Hexec. by eapply batch_execution.
  - intros s who m a Ha Ht (new & Hn & Hs). exists new. split; [done|]. destruct Hs as [?|Hs]; [by left|right]. by apply (ai_cancel _ HI).
  - intros s m o' j s' Ha (new & Hn & Hs). exists new. rewrite (approve_order_trace _ _ _ _ _ Ha). split; [done|].
    destruct Hs as [?|Hs]; [by left|right]. by eapply (ai_approve _ HI).
  - intros s who (new & Hn & Hs). exists (new ++ [Reaped who]). simpl. rewrite Hn, app_assoc, elem_of_app. split; [done|].
    destruct (decide (who = w)) as [->|Hw]; [left; right; by left|]. destruct Hs as [?|Hs]; [by auto|right]. by apply (ai_reap _ HI).
Qed.
End approved.

(** *** The orders approved under one nonce *)

Section approval.
Context (n : Z) (terms : OrderTerms (AccountId := AccountId) (Hash := Hash)).
Abbreviation o := (Authorized n terms).
Abbreviation w := (order_signer (Authorized n terms)).
Abbreviation i := (derive_order_id lib (Authorized n terms)).
Abbreviation highest := (fun s => highest_nonce (approvals_of s w)).
Context (Hinj : forall o', derive_order_id lib o' = i -> o' = o).

Lemma approved_entry s who so e :
  valid_entry lib s who so e -> e_order_id e = i ->
  approves w n e /\ exists a, approved_order s w n = Some a /\ ap_id a = i /\
    fill_fits (view o) (e_partial_fill e) (ap_status a) (e_order_amount e).
Proof.
  intros Hv Hi. destruct (valid_order o Hinj _ _ _ _ Hv Hi) as (Ho & He & _).
  assert (Ha : approves w n e) by (rewrite He; split; [apply signer_view|done]). split; [done|].
  destruct (valid_approves _ _ _ _ _ _ Hv Ha) as (a & ? & Hid & Hfit). rewrite Ho in Hfit. exists a. split_and!; [done|congruence|done].
Qed.

Definition approval_accounted (x : Z) (st : option (OrderApproval (Hash := Hash) (Commitment := Commitment))) (f : Z)
    (top : option Z) : Prop :=
  0 <= f <= x /\
  match st with
  | Some a =>
      if decide (ap_id a = i) then
        match ap_status a with
        | None => f = 0
        | Some (PartiallyFilled k) => f = k /\ 0 < k < x
        | Some _ => True
        end
      else f = 0
  | None => f = 0 \/ below n top
  end.

Section charged.
Context {laws : LibraryLaws lib} (x : Z).
Context (Hx : amount (view o) = Fixed x) (Hrange : 0 <= x <= u64_max) (Hfee : 0 <= fee_rate (view o) <= 1000000000).

Definition approval_ok s : Prop :=
  nonces_below w s /\ approval_accounted x (approved_order s w n) (taken lib o s) (highest s).

Lemma approval_accounted_settle s who so e f :
  valid_entry lib s who so e -> approves w n e -> approval_accounted x (approved_order s w n) f (highest s) ->
  approval_accounted x (settle_approval w n (approved_order s w n) e) (f + (if decide (e_order_id e = i) then e_gross e else 0)) (highest s).
Proof.
  intros Hv Ha [Hr Hm]. destruct (valid_approves _ _ _ _ _ _ Hv Ha) as (a & Hap & Hid & [Hf _]).
  unfold settle_approval. rewrite decide_True by done. unfold approval_accounted. rewrite Hap in Hm |- *. simpl.
  rewrite (bool_decide_eq_true_2 (ap_id a = e_order_id e)) by done. simpl. rewrite Hid in *.
  destruct (decide (e_order_id e = i)) as [Hi|Hi]; [|by rewrite Z.add_0_r].
  destruct (valid_amount o Hinj x Hx _ _ _ _ Hv Hi) as [Hamt Hg]. rewrite Hg. rewrite Hamt in *.
  unfold new_status, saturating_add, saturating_sub in *.
  destruct (e_partial_fill e) as [fill|], (ap_status a) as [[|k|]|]; simpl in *; try done; try (split; [lia|done]).
  all: match goal with |- context [if ?b then _ else _] => destruct b eqn:Hb end; bool_to_prop; (split; [lia|]); try done; lia.
Qed.

Lemma approval_execution who l s s' :
  execution lib who l s s' -> nonces w s' = nonces w s ->
  (approved_order s' w n = approved_order s w n /\ forall e, e ∈ l -> ~ approves w n e) \/
  (exists so e, e ∈ l /\ valid_entry lib s who so e /\ approves w n e /\
     approved_order s' w n = settle_approval w n (approved_order s w n) e) -> approval_ok s -> approval_ok s'.
Proof.
  intros [Hv Hnd Heff _] Hn Hst [Hb Hacc]. split; [by eapply nonces_below_eq|]. rewrite (nonces_highest _ _ _ Hn).
  assert (Htk : taken lib o s' = taken lib o s + total (charge i) l).
  { apply (ex_taken _ _ _ _ Heff). intros e [so Hso]%Hv. eapply (valid_chargeable o Hinj x Hx Hrange Hfee); [done|].
    rewrite signer_view. change (authorization_nonce (view o)) with (Some n). unfold order_status. destruct Hacc as [_ Hm].
    intros k. destruct (approved_order s w n) as [a|]; [|done]. cbn [mbind option_bind]. destruct (decide (ap_id a = i)) as [Hi|Hi]; [rewrite bool_decide_eq_true_2 by done|by rewrite bool_decide_eq_false_2].
    intros Hk. rewrite Hk in Hm. lia. }
  rewrite Htk. destruct Hst as [[-> Hno]|(so & e & Hin & Hso & Ha & ->)].
  - rewrite charge_none, Z.add_0_r; [done|]. intros e He Hi. destruct (Hv e He) as [so Hso]. by eapply Hno, approved_entry.
  - replace (total (charge i) l) with (if decide (e_order_id e = i) then e_gross e else 0); [by eapply approval_accounted_settle|].
    destruct (decide (e_order_id e = i)) as [Hi|Hi]; [by rewrite (charge_once i l e)|]. rewrite charge_none; [done|].
    intros e' He' Hi'. destruct (Hv e' He') as [so' Hso']. destruct (approved_entry _ _ _ _ Hso' Hi') as (_ & a & Hap & Hid & _).
    destruct (valid_approves _ _ _ _ _ _ Hso Ha) as (a' & Hap' & Hid' & _). apply Hi. congruence.
Qed.

Lemma approval_ok_invariant : approval_invariant w n approval_ok.
Proof.
  split.
  - intros s t Ha Ht [Hb Hacc]. unfold approval_ok, nonces_below, approvals_of, approved_order, taken in *. by rewrite Ha, Ht.
  - intros s who Hw [Hb Hacc]. unfold approval_ok, nonces_below, approvals_of, approved_order, taken in *. simpl.
    rewrite lookup_delete_ne, total_append by done. cbn. by rewrite Z.add_0_r.
  - intros s who m a Ha Ht [Hb Hacc]. pose proof (set_order_status_nonces w who (Some m) (ap_id a) Cancelled s) as Hn.
    split; [by eapply nonces_below_eq|]. rewrite (nonces_highest _ _ _ Hn), (cancel_approved w n _ _ _ _ Ha).
    change (taken lib o (set_order_status who (Some m) (ap_id a) Cancelled s)) with (taken lib o s).
    case_decide as Heq; [|done]. destruct Heq as [-> ->], Hacc as [Hr Hm]. rewrite Ha in Hm. split; [done|]. simpl.
    by destruct (decide (ap_id a = i)).
  - intros s m o' j s' Ha [Hb [Hr Hacc]]. unfold approval_ok, approval_accounted.
    assert (Htk : taken lib o s' = taken lib o s) by (unfold taken; by rewrite (approve_order_trace _ _ _ _ _ Ha)). rewrite Htk.
    destruct (decide (order_signer o' = w)) as [Hw|Hw].
    + destruct (approve_order_kept w n _ _ _ _ _ Hw Ha Hb) as (Hb' & Hmono & Hk). split; [done|]. split; [done|].
      destruct (approved_order s w n) as [a|].
      * destruct Hk as [->|[[-> Hbel]|(_ & c & ->)]]; [done|by right|done].
      * destruct Hk as [->|(Hnb & a & -> & Hs)]; [destruct Hacc; auto|]. destruct Hacc as [Hf|?]; [|done]. rewrite Hs. by case_decide.
    + destruct (approve_order_other w n _ _ _ _ _ Hw Ha) as [E1 E2]. unfold nonces_below. by rewrite E1, E2.
  - apply approval_execution.
Qed.
End charged.
End approval.

(** (C13) No more than its amount is ever taken for an order that
    its owner approves on chain, under a nonce, counting what was really traded, moved to
    the pallet's account and paid as fees, however the order is filled, renewed,
    cancelled or reclaimed and whatever is approved under other nonces.  Approvals live
    with their account: the theorem is about histories in which the owner's account is
    not reaped, since that forgets the nonces. *)
Theorem approved_fills_bounded {laws : LibraryLaws lib} n (terms : OrderTerms) (x : Z) s s' new :
  let o := Authorized n terms in
  let w := order_signer o in
  amount (view o) = Fixed x -> 0 <= x <= u64_max -> 0 <= fee_rate (view o) <= 1000000000 ->
  (forall o', derive_order_id lib o' = derive_order_id lib o -> o' = o) ->
  ApprovedOrders s !! w = None -> taken lib o s = 0 ->
  rtc (order_step lib) s s' -> trace s' = trace s ++ new -> Reaped w ∉ new ->
  0 <= taken lib o s' <= x.
Proof.
  intros o w Hx Hr Hf Hinj Hnone H0' Hsteps Ht Hnr.
  destruct (order_steps_inv lib _ (unless_reaped_invariant w n s _ (approval_ok_invariant n terms Hinj x Hx Hr Hf)) s s' Hsteps)
    as (new' & Ht' & [?|[_ [Hb _]]]); [|rewrite Ht in Ht'; apply app_inv_head in Ht' as <-; done|done].
  exists []. rewrite app_nil_r. split; [done|right].
  unfold approval_ok, nonces_below, approval_accounted, approved_order, approvals_of. fold o w. rewrite Hnone, H0'. simpl.
  split; [by intros m a; rewrite lookup_empty|]. split; [lia|by left].
Qed.

(** ** Orders that are done *)

(** No call was made for the order [i] since [s]. *)
Definition untouched (i : Hash) s s' : Prop :=
  exists new, trace s' = trace s ++ new /\ forall tr, tr ∈ new -> tag tr <> Some i.

Lemma untouched_refl i s : untouched i s s.
Proof. exists []. rewrite app_nil_r. split; [done|]. by intros tr ?%not_elem_of_nil. Qed.

Lemma untouched_reap i s0 who s : untouched i s0 s -> untouched i s0 (on_killed_account who s).
Proof.
  intros (new & Ht & Hn). exists (new ++ [Reaped who]). simpl. rewrite Ht, app_assoc. split; [done|].
  intros tr [?| ->%list_elem_of_singleton]%elem_of_app; [by apply Hn|done].
Qed.

Lemma untouched_execution i s0 who l s s' :
  execution lib who l s s' -> (forall e, e ∈ l -> e_order_id e <> i) -> untouched i s0 s -> untouched i s0 s'.
Proof.
  intros [_ _ Heff _] Hno (new & Ht & Hn). destruct (ex_trace _ _ _ _ Heff) as (new' & Ht' & Hn').
  exists (new ++ new'). rewrite Ht', Ht, app_assoc. split; [done|]. intros tr [?|Hin]%elem_of_app Htag; [by eapply Hn|].
  destruct (Hn' tr i Hin Htag) as (e & He & Hi). by eapply Hno.
Qed.

Lemma terminal_unfit (v : OrderView (AccountId := AccountId) (Hash := Hash)) partial st x :
  is_terminal st = true -> ~ fill_fits v partial st x.
Proof. intros Ht [Hf _]. by destruct st as [[| |]|], partial. Qed.

Section terminal.
Context (o : VersionedOrder (AccountId := AccountId) (Hash := Hash)).
Context (Hinj : forall o', derive_order_id lib o' = derive_order_id lib o -> o' = o).
Abbreviation i := (derive_order_id lib o).

Lemma terminal_invariant st s0 :
  authorized_terms o = None -> is_terminal st = true ->
  order_invariant lib (fun s => Orders s !! i = st /\ untouched i s0 s).
Proof.
  intros Hcl Ht.
  assert (Hexec : forall who l s s', execution lib who l s s' ->
    Orders s !! i = st /\ untouched i s0 s -> Orders s' !! i = st /\ untouched i s0 s').
  { intros who l s s' Hex [Hs Hu].
    assert (Hno : forall e, e ∈ l -> e_order_id e <> i).
    { intros e [so Hso]%(execution_valid _ _ _ _ _ Hex) Hi. destruct (valid_order o Hinj _ _ _ _ Hso Hi) as (_ & _ & _ & Hfit & _).
      assert (Hn : authorization_nonce (view o) = None) by (by destruct o). rewrite Hn in Hfit. simpl in Hfit. rewrite Hs in Hfit.
      by eapply terminal_unfit. }
    split; [|by eapply untouched_execution].
    destruct (execution_status i _ _ _ _ Hex) as [[-> _]|(so & e & Hin & _ & [Hi _] & _)]; [done|]. by destruct (Hno e Hin). }
  split; try done.
  - intros s who so x' p s' Hv He. eapply Hexec. by eapply single_execution.
  - intros s who n orders bs ss s' Hc He. eapply Hexec. by eapply batch_execution.
  - intros s o' _ Hnone [Hs Hu]. split; [|done]. simpl. destruct (decide (derive_order_id lib o' = i)) as [He|He].
    + rewrite He, Hs in Hnone. by rewrite Hnone in Ht.
    + by rewrite lookup_insert_ne.
  - intros s n o' j s' (st' & -> & _)%approve_order_ok. done.
  - intros s who [Hs Hu]. split; [done|]. by apply untouched_reap.
Qed.

Definition closed n s0 s : Prop :=
  let w := order_signer o in
  nonces_below w s /\ below n (highest_nonce (approvals_of s w)) /\
  (forall a, approved_order s w n = Some a -> ap_id a = i /\ is_terminal (ap_status a) = true) /\ untouched i s0 s.

Lemma closed_invariant n terms s0 : o = Authorized n terms -> approval_invariant (order_signer o) n (closed n s0).
Proof.
  intros Ho. split.
  - intros s t Ha Ht Hs. unfold closed, nonces_below, approvals_of, approved_order, untouched in *. by rewrite Ha, Ht.
  - intros s who Hw (Hb & Hn & Ha & Hu). unfold closed, nonces_below, approvals_of, approved_order in *. simpl.
    rewrite lookup_delete_ne by done. split_and!; [done..|]. by apply untouched_reap.
  - intros s who m a Ha Ht (Hb & Hn & Hc & Hu). pose proof (set_order_status_nonces (order_signer o) who (Some m) (ap_id a) Cancelled s) as Hns.
    split_and!; [by eapply nonces_below_eq|by rewrite (nonces_highest _ _ _ Hns)| |done]. intros a'.
    rewrite (cancel_approved _ n _ _ _ _ Ha). case_decide as Heq; [|apply Hc]. destruct Heq as [-> ->]. destruct (Hc a Ha). congruence.
  - intros s m o' j s' Ha (Hb & Hn & Hc & Hu). unfold closed, untouched. rewrite (approve_order_trace _ _ _ _ _ Ha).
    destruct (decide (order_signer o' = order_signer o)) as [Hw|Hw].
    + destruct (approve_order_kept _ n _ _ _ _ _ Hw Ha Hb) as (Hb' & Hmono & Hk). split_and!; [done|by apply Hmono| |done].
      intros a' Ha'. destruct (approved_order s (order_signer o) n) as [a|].
      * destruct (Hc a eq_refl) as [? Ht]. destruct Hk as [Hk|[[Hk _]|[Hk _]]]; rewrite Hk in *; by simplify_eq.
      * destruct Hk as [Hk|[Hk _]]; [congruence|done].
    + destruct (approve_order_other _ n _ _ _ _ _ Hw Ha) as [E1 E2]. unfold nonces_below. by rewrite E1, E2.
  - intros who l s s' Hex Hns Hst (Hb & Hn & Hc & Hu).
    assert (Hno : forall so e, valid_entry lib s who so e -> ~ approves (order_signer o) n e).
    { intros so e Hso Ha. destruct (valid_approves _ _ _ _ _ _ Hso Ha) as (a & Hap & _ & Hfit). destruct (Hc a Hap) as [_ Ht].
      by eapply terminal_unfit. }
    destruct Hst as [[Hs _]|(so & e & _ & Hso & Ha & _)]; [|by destruct (Hno so e Hso)].
    split_and!; [by eapply nonces_below_eq|by rewrite (nonces_highest _ _ _ Hns)|by rewrite Hs|].
    eapply untouched_execution; [done| |done]. intros e [so Hso]%(execution_valid _ _ _ _ _ Hex) Hi. apply (Hno so e Hso). subst o.
    by eapply approved_entry.
Qed.
End terminal.


(** ** Approvals are few, and nonces are used once *)

Definition approvals_bounded s : Prop :=
  forall w, (size (approved (approvals_of s w)) <= MaxPendingOrders)%nat /\ nonces_below w s.

Lemma approvals_bounded_eq w s s' :
  nonces w s' = nonces w s \/ ApprovedOrders s' !! w = None ->
  (size (approved (approvals_of s w)) <= MaxPendingOrders)%nat /\ nonces_below w s ->
  (size (approved (approvals_of s' w)) <= MaxPendingOrders)%nat /\ nonces_below w s'.
Proof.
  intros [Hn|Hn] [Hs Hb].
  - split; [|by eapply nonces_below_eq]. injection Hn as _ Hd. by rewrite <- size_dom, Hd, size_dom.
  - unfold nonces_below, approvals_of. rewrite Hn. simpl. split; [rewrite map_size_empty; unfold MaxPendingOrders; lia|].
    intros m a. by rewrite lookup_empty.
Qed.

Lemma bounded_rule w :
  let B := fun s => (size (approved (approvals_of s w)) <= MaxPendingOrders)%nat /\ nonces_below w s in
  execution_rule (fun _ => B) (fun _ _ => B).
Proof.
  intros B. split.
  - intros l s t Hm. apply approvals_bounded_eq. destruct (moved_reaped _ _ Hm) as (new & _ & Hw).
    destruct (Hw w) as [Ha|[Ha _]]; [left|by right].
    unfold nonces, approvals_of. by rewrite Ha.
  - done.
  - intros l p j x s t [[_ ->]|(p' & r & _ & _ & ->)]%consume_provider_ok; done.
  - intros e l s t ->%settle_ok. apply approvals_bounded_eq. left. apply (set_order_status_nonces w).
  - intros e l p j x s t [[_ ->]|(p' & r & _ & _ & ->)]%consume_provider_ok; done.
  - intros e l asset out s t [->|(? & _ & ->)]%record_linked_output_ok; done.
Qed.

Lemma approve_bounded s (m : Z) (o : VersionedOrder) st' :
  let w := order_signer o in
  renewed m o (approvals_of s w) st' \/ added m o (approvals_of s w) st' ->
  (size (approved (approvals_of s w)) <= MaxPendingOrders)%nat /\ nonces_below w s ->
  ((size (approved st') <= MaxPendingOrders)%nat /\
   forall k a, approved st' !! k = Some a -> below k (highest_nonce st')) /\
  forall h, below h (highest_nonce (approvals_of s w)) -> below h (highest_nonce st').
Proof.
  intros w [(a & Ha & _ & _ & ->)|(Hnone & Hlt & kept & Hk & Hsz & ->)] [Hs Hb]; simpl.
  - split_and!; [|intros k a' Hk|done].
    + by rewrite map_size_insert_Some by (by eexists).
    + destruct (decide (m = k)) as [->|]; [by eapply Hb|]. rewrite lookup_insert_ne in Hk by done. by eapply Hb.
  - assert (Hlt' : forall h, below h (highest_nonce (approvals_of s w)) -> below h (Some m)).
    { intros h (h' & Hh & ?). specialize (Hlt h' Hh). exists m. split; [done|lia]. }
    split_and!; [|intros k a' Hk'|done].
    + destruct (kept !! m) eqn:Hm; [by rewrite (lookup_weaken _ _ _ _ Hm Hk) in Hnone|].
      rewrite map_size_insert_None by done. lia.
    + destruct (decide (m = k)) as [->|]; [exists k; split; [done|lia]|]. rewrite lookup_insert_ne in Hk' by done.
      apply Hlt'. eapply Hb. by eapply lookup_weaken.
Qed.

Lemma bounded_invariant s0 :
  order_invariant lib (fun s => approvals_bounded s /\
    forall w, Reaped w ∈ trace s \/
      (forall h, highest_nonce (approvals_of s0 w) = Some h -> below h (highest_nonce (approvals_of s w)))).
Proof.
  split; try done.
  - intros s who so x p s' Hv He [Hb Hh]. split; [intros w; by eapply (single_rule lib (bounded_rule w))|].
    intros w. destruct (Hh w) as [Hr|Hh']; [left; by eapply (single_rule lib (reaped_rule w))|].
    destruct (single_rule lib (nonces_rule w (trace s) (nonces w s)) _ _ _ _ _ _ _ He) as (new & -> & [Hr|Hn]);
      [exists []; rewrite app_nil_r; split; [done|by right]|left; apply elem_of_app; by right|right].
    injection Hn as -> _. done.
  - intros s who m orders bs ss s' Hc He [Hb Hh]. split; [intros w; by eapply (batch_rule lib (bounded_rule w))|].
    intros w. destruct (Hh w) as [Hr|Hh']; [left; by eapply (batch_rule lib (reaped_rule w))|].
    destruct (batch_rule lib (nonces_rule w (trace s) (nonces w s)) _ _ _ _ _ _ He) as (new & -> & [Hr|Hn]);
      [exists []; rewrite app_nil_r; split; [done|by right]|left; apply elem_of_app; by right|right].
    injection Hn as -> _. done.
  - intros s who m a Ha Ht [Hb Hh].
    split; intros w; [|destruct (Hh w) as [Hr|Hh']; [by left|right; intros h Hx]].
    + apply (approvals_bounded_eq w s); [left; apply (set_order_status_nonces w)|done].
    + rewrite (nonces_highest _ _ _ (set_order_status_nonces w who (Some m) (ap_id a) Cancelled s)). by apply Hh'.
  - intros s m o' j s' (st' & -> & Hst)%approve_order_ok [Hb Hh].
    apply approve_bounded in Hst as [[Hsz Hnb] Hmono]; [|done].
    split; intros w; unfold nonces_below, approvals_of; simpl; (destruct (decide (order_signer o' = w)) as [<-|Hw];
      [rewrite lookup_insert_eq|rewrite lookup_insert_ne by done]); simpl; try done.
    + apply Hb.
    + destruct (Hh (order_signer o')) as [Hr|Hh']; [by left|right]. intros h Hx. by apply Hmono, Hh'.
  - intros s who [Hb Hh]. unfold on_killed_account. split.
    + intros w. apply (approvals_bounded_eq w s); [|done]. simpl. destruct (decide (who = w)) as [->|].
      * right. apply lookup_delete_eq.
      * left. unfold nonces, approvals_of. simpl. by rewrite lookup_delete_ne.
    + intros w. simpl. destruct (decide (who = w)) as [->|]; [left; apply elem_of_app; right; by apply list_elem_of_singleton|].
      destruct (Hh w) as [Hr|Hh']; [left; apply elem_of_app; by left|right].
      unfold approvals_of in *. simpl. by rewrite lookup_delete_ne.
Qed.

(** (C34) No account ever holds more than eight approvals, all
    of them under nonces up to the highest it used, and that number never goes back
    while the account lives: a nonce that was used and reclaimed stays used. *)
Theorem approvals_stay_bounded s s' :
  approvals_bounded s -> rtc (order_step lib) s s' ->
  approvals_bounded s' /\
  forall w, Reaped w ∉ trace s' -> forall h, highest_nonce (approvals_of s w) = Some h ->
    below h (highest_nonce (approvals_of s' w)).
Proof.
  intros Hb Hs. destruct (order_steps_inv lib _ (bounded_invariant s) s s' Hs) as [Hb' Hh].
  { split; [done|]. intros w. right. intros h ->. exists h. split; [done|lia]. }
  split; [done|]. intros w Hw. by destruct (Hh w).
Qed.

(** ** Who may execute what *)

(** The calls that an execution of the order [o] with the input [gross] makes for it. *)
Definition on_behalf (o : VersionedOrder) (gross : Z) (tr : Tr) : Prop :=
  let v := view o in
  let i := Some (derive_order_id lib o) in
  match tr with
  | Bought why c h m tao _ => is_buy (order_type v) = true /\ why = i /\ c = signer v /\ h = hotkey v /\ m = netuid v /\
      tao = saturating_sub gross (mul_floor lib (fee_rate v) gross)
  | Sold why c h m alpha _ => is_buy (order_type v) = false /\ why = i /\ c = signer v /\ h = hotkey v /\ m = netuid v /\
      alpha = gross
  | MovedTao why from to x => why = i /\
      if is_buy (order_type v)
      then from = signer v /\
        ((to = pallet_account /\ x = gross) \/ (to = fee_recipient v /\ x = mul_floor lib (fee_rate v) gross))
      else (from = pallet_account /\ to = signer v) \/
        (from = signer v /\ to = fee_recipient v /\ exists proceeds, x = mul_floor lib (fee_rate v) proceeds)
  | MovedAlpha why fc fh tc th m x => why = i /\ m = netuid v /\
      if is_buy (order_type v)
      then fc = pallet_account /\ fh = PalletHotkey /\ tc = signer v /\ th = hotkey v
      else fc = signer v /\ fh = hotkey v /\ tc = pallet_account /\ th = PalletHotkey /\ x = gross
  | Reaped _ => False
  end.

(** The calls for a batch as a whole, which only spend what the pallet holds. *)
Definition for_batch (tr : Tr) : Prop :=
  match tr with
  | Bought None c h _ _ _ | Sold None c h _ _ _ => c = pallet_account /\ h = PalletHotkey
  | MovedTao None from _ _ => from = pallet_account
  | _ => False
  end.

Abbreviation OCall := (OrderCall (AccountId := AccountId) (Hash := Hash) (Signature := Signature)).

(** The order [so] of a call is executed from the state [t]: the one that the orders
    before it lead to, or the one that a batch starts from. *)
Definition executed_from (origin : Origin) (call : OCall) s so t : Prop :=
  match call with
  | call_execute_orders orders should_fail => exists before after, orders = before ++ so :: after /\
      dispatch lib origin (call_execute_orders before should_fail) s = (Ok tt, t)
  | call_execute_batched_orders n orders => so ∈ orders /\ netuid (view (order so)) = n /\ t = s
  | _ => False
  end.

(** The call [tr] is for an order that the signer of the call submitted and that, in
    the state it is executed from, was open to this relayer at this time and price and
    had the consent of its owner. *)
Definition rightful (origin : Origin) (call : OCall) s (tr : Tr) : Prop :=
  exists who so t full provider,
    let v := view (order so) in
    origin = Signed who /\ executed_from origin call s so t /\ authorised lib t so /\
    netuid v <> 0 /\ chain_id v = ChainId (ledger t) /\ now t <= expiry v /\ relayer_allowed v who = true /\
    price_condition lib v (current_alpha_price (ledger t) (netuid v)) = true /\
    resolves lib t v full provider /\
    fill_fits v (partial_fill so)
      (order_status t (signer v) (authorization_nonce v) (derive_order_id lib (order so))) full /\
    on_behalf (order so) (default full (partial_fill so)) tr.

Lemma valid_rightful who call s so t e tr :
  valid_entry lib t who so e -> executed_from (Signed who) call s so t -> on_behalf (order so) (e_gross e) tr ->
  rightful (Signed who) call s tr.
Proof.
  intros Hv Hx Ho. apply valid_entry_facts in Hv as (Ha & Hn & Hc & He & Hp & Hr & Hres & Hfit & Heq).
  exists who, so, t, (e_order_amount e), (e_provider e). rewrite Heq in Ho, Hfit. simpl in Ho, Hfit. by split_and!.
Qed.

Lemma single_on_behalf (o : VersionedOrder) gross out tr :
  tr ∈ single_moves lib (view o) (derive_order_id lib o) gross out -> on_behalf o gross tr.
Proof.
  unfold single_moves, on_behalf. cbv zeta. destruct (is_buy (order_type (view o))); intros [->|Hin]%elem_of_cons; try by split_and!.
  all: destruct (_ =? 0); [by apply not_elem_of_nil in Hin|]; apply list_elem_of_singleton in Hin as ->; split; [done|]; eauto 10.
Qed.

(** What a part of a call adds to the trace. *)
Definition adds (R : Tr -> Prop) s s' : Prop :=
  exists new, trace s' = trace s ++ new /\ forall tr, tr ∈ new -> is_reap tr = true \/ R tr.

Lemma adds_refl R s s' : trace s' = trace s -> adds R s s'.
Proof. intros Ht. exists []. rewrite Ht, app_nil_r. split; [done|]. by intros tr ?%not_elem_of_nil. Qed.

Lemma adds_trans R s t u : adds R s t -> adds R t u -> adds R s u.
Proof.
  intros (n1 & E1 & A1) (n2 & E2 & A2). exists (n1 ++ n2). rewrite E2, E1, app_assoc. split; [done|].
  intros tr [?|?]%elem_of_app; [by apply A1|by apply A2].
Qed.

(** *** Executing orders one by one *)

Definition execute_one (who : AccountId) (should_fail : bool) so : M St (DispatchError OtherError) unit :=
  let order_id := derive_order_id lib (order so) in
  or_else (try_execute_order lib so order_id who) (fun reason =>
    if should_fail then fail reason else modify (deposit_event (OrderSkipped order_id reason))).

Abbreviation approvals_in := (fun orders : list (SignedOrder (AccountId := AccountId) (Hash := Hash) (Signature := Signature)) =>
  length (filter (fun so => attempts_approval so = true) orders)).

Lemma dispatch_execute_orders origin orders sf s s' :
  dispatch lib origin (call_execute_orders orders sf) s = (Ok tt, s') <->
  exists who, origin = Signed who /\ LimitOrdersEnabled s = true /\
    Z.of_nat (approvals_in orders) <= MaxAuthorizedOrders /\ for_each orders (execute_one who sf) s = (Ok tt, s').
Proof.
  unfold dispatch. split.
  - intros He. minv_step. unfold execute_orders, ensure_enabled, check_authorized_batch_bound in He. cbv zeta in He.
    apply bind_ok in He as (who & s1 & Hw & He). destruct origin as [|who'|]; simpl in Hw; [by minv| |by minv].
    apply ret_ok in Hw as [-> ->]. apply bind_ok in He as ([] & s1 & (b & s2 & [-> ->]%gets_ok & [Hen ->]%ensure_ok)%bind_ok & He).
    apply bind_ok in He as ([] & s1 & [Hb ->]%ensure_ok & He). bool_to_prop. by exists who'.
  - intros (who & -> & Hen & Hb & He). unfold transactional, execute_orders, ensure_enabled, check_authorized_batch_bound, mbind, M_bind.
    cbv zeta. simpl. unfold ensure. rewrite Hen, (proj2 (Z.leb_le _ _) Hb). simpl. unfold execute_one in He. by rewrite He.
Qed.

Lemma for_each_append {A} (l k : list A) (body : A -> M St (DispatchError OtherError) unit) s s' :
  for_each (l ++ k) body s = (Ok tt, s') <-> exists t, for_each l body s = (Ok tt, t) /\ for_each k body t = (Ok tt, s').
Proof.
  revert s. induction l as [|x l IH]; intros s; simpl.
  - split; [intros Hk; by exists s|]. by intros (t & [_ ->]%ret_ok & Hk).
  - split.
    + intros ([] & s1 & Hx & (t & Hl & Hk)%IH)%bind_ok. exists t. split; [|done]. by rewrite (bind_run _ _ _ _ _ Hx).
    + intros (t & ([] & s1 & Hx & Hl)%bind_ok & Hk). rewrite (bind_run _ _ _ _ _ Hx). apply IH. by exists t.
Qed.

Lemma execute_one_adds who sf s so t t' call :
  execute_one who sf so t = (Ok tt, t') -> executed_from (Signed who) call s so t -> adds (rightful (Signed who) call s) t t'.
Proof.
  unfold execute_one, or_else. intros He Hx.
  destruct (try_execute_order lib so (derive_order_id lib (order so)) who t) as [[[]|reason] t1] eqn:Ht.
  - injection He as ->. apply try_execute_order_ok in Ht as (x & p & Hv & He).
    destruct (single_rule lib (trace_rule (trace t)) _ _ _ _ _ _ _ He) as [new Hnew]; [exists []; by rewrite app_nil_r|].
    destruct (single_run_moves _ _ _ _ _ _ _ _ He) as [out Hmv]. exists new. split; [done|]. intros tr Htr.
    destruct (new_moves _ _ _ _ _ Hnew Hmv Htr) as [?|Hin]; [by left|right]. eapply valid_rightful; [done..|].
    by eapply single_on_behalf.
  - assert (t1 = t) as ->.
    { clear He. unfold try_execute_order, transactional in Ht. case_match; simplify_eq. case_match; by simplify_eq. }
    destruct sf; [done|]. apply modify_ok in He as ->. by apply adds_refl.
Qed.

Lemma execute_orders_adds who orders sf s s' :
  dispatch lib (Signed who) (call_execute_orders orders sf) s = (Ok tt, s') ->
  adds (rightful (Signed who) (call_execute_orders orders sf) s) s s'.
Proof.
  set (R := rightful _ _ _). intros (who' & [= <-] & Hen & Hb & He)%dispatch_execute_orders.
  assert (Hall : forall after before t, orders = before ++ after -> for_each before (execute_one who sf) s = (Ok tt, t) ->
    for_each after (execute_one who sf) t = (Ok tt, s') -> adds R t s').
  { induction after as [|so after IH]; intros before t Ho Hbef Haft; simpl in Haft; [apply ret_ok in Haft as [_ ->]; by apply adds_refl|].
    apply bind_ok in Haft as ([] & t1 & H1 & Haft). eapply adds_trans.
    - eapply execute_one_adds; [exact H1|]. exists before, after. split; [done|]. apply dispatch_execute_orders.
      exists who. split_and!; [done..| |done]. rewrite Ho, filter_app, length_app in Hb. lia.
    - eapply (IH (before ++ [so])); [by rewrite <- app_assoc| |done]. apply for_each_append. exists t. split; [done|].
      simpl. by rewrite (bind_run _ _ _ _ _ H1). }
  by eapply (Hall orders []).
Qed.

(** *** Executing a batch *)

Lemma batch_adds who n orders s s' :
  execute_batched_orders lib (Signed who) n orders s = (Ok tt, s') ->
  adds (fun tr => for_batch tr \/ rightful (Signed who) (call_execute_batched_orders n orders) s tr) s s'.
Proof.
  intros (who' & bs & ss & [= <-] & _ & [Hb Hs _] & He & _)%execute_batched_orders_ok.
  destruct (batch_rule lib (trace_rule (trace s)) _ _ _ _ _ _ He) as [new Hnew]; [exists []; by rewrite app_nil_r|].
  apply batch_run_ok in He as [(_ & _ & ->)|(side & out & ta & x & Hrun)]; [by apply adds_refl|].
  exists new. split; [done|]. intros tr Htr. destruct (new_moves _ _ _ _ _ Hnew (run_moves _ _ _ _ _ _ _ _ _ _ _ Hrun) Htr) as [?|Hin]; [by left|right].
  assert (Hright : forall e buy, (is_buy (e_side e) = buy /\ batch_entry lib s who n orders e) ->
    (forall so, e = classify_order lib (view (order so)) (partial_fill so) (derive_order_id lib (order so)) (e_order_amount e) (e_provider e) ->
       is_buy (order_type (view (order so))) = buy -> netuid (view (order so)) = n -> on_behalf (order so) (e_gross e) tr) ->
    rightful (Signed who) (call_execute_batched_orders n orders) s tr).
  { intros e buy [Hside (so & Hso & Hn & Hv)] Hob. pose proof Hv as (_ & _ & _ & _ & _ & _ & _ & _ & Heq)%valid_entry_facts.
    eapply valid_rightful; [done|by split_and!|]. apply Hob; [done| |done]. rewrite <- Hside, Heq. done. }
  apply batch_moves_elem in Hin as [(e & He & Htr')|[(e & He & Htr')|[(y & Htr')|(to & y & ->)]]]; [right..|left|by left].
  - eapply (Hright e true); [by apply Hb|]. intros so Heq Hside Hn. unfold on_behalf. rewrite Hside.
    assert (e_order_id e = derive_order_id lib (order so) /\ e_signer e = signer (view (order so)) /\
      e_hotkey e = hotkey (view (order so))) as (E1 & E2 & E3) by (by rewrite Heq).
    destruct Htr' as [->| ->]; simpl; rewrite E1, E2, ?E3; split_and!; auto.
  - eapply (Hright e false); [by apply Hs|]. intros so Heq Hside Hn. unfold on_behalf. rewrite Hside.
    assert (e_order_id e = derive_order_id lib (order so) /\ e_signer e = signer (view (order so)) /\
      e_hotkey e = hotkey (view (order so))) as (E1 & E2 & E3) by (by rewrite Heq).
    destruct Htr' as [->|(? & ? & ->)]; simpl; rewrite E1, E2, ?E3; split_and!; auto.
  - destruct Htr' as [->| ->]; by split.
Qed.

(** The other calls make no call to the interface. *)
Lemma cancel_order_quiet origin (o : VersionedOrder) : fixed (fun s : St => trace s) (cancel_order lib origin o).
Proof.
  unfold cancel_order, ensure_signed, cancel_authenticated_order. cbv zeta.
  repeat first [progress solve_fixed | apply fixed_transactional].
Qed.
Lemma set_pallet_status_quiet origin enabled : fixed (fun s : St => trace s) (set_pallet_status origin enabled).
Proof. unfold set_pallet_status, ensure_root. solve_fixed. Qed.
Lemma prune_linked_output_quiet origin i : fixed (fun s : St => trace s) (prune_linked_output origin i).
Proof. unfold prune_linked_output, ensure_signed. solve_fixed. Qed.
Lemma authorize_order_quiet origin (o : VersionedOrder) : fixed (fun s : St => trace s) (authorize_order lib origin o).
Proof.
  unfold authorize_order, ensure_signed, ensure_enabled, approve_order. apply fixed_transactional. cbv zeta. solve_fixed.
Qed.

(** (C9) Assets move only by right.  Whatever call succeeds, every
    trade and every transfer it makes is either one for a batch as a whole, which spends
    only what the account of the pallet holds, or one for a single order among those that
    the signer of the call submitted, while the pallet was enabled.  It then moves what the
    terms of that order say, between the owner, the pallet and the fee recipient.  In the
    state that this very order is executed from, the owner had signed one of the three
    renderings of it with a supported scheme or approved exactly its terms, and was not
    frozen; the submitter is one of its relayers; it has not expired, its price condition
    holds and the amount fits what is still open of it. *)
Theorem executed_orders_authorised origin call s s' :
  dispatch lib origin call s = (Ok tt, s') ->
  exists new, trace s' = trace s ++ new /\
    forall tr, tr ∈ new -> is_reap tr = true \/
      (LimitOrdersEnabled s = true /\ (for_batch tr \/ rightful origin call s tr)).
Proof.
  intros Hd. enough (adds (fun tr => LimitOrdersEnabled s = true /\ (for_batch tr \/ rightful origin call s tr)) s s') by done.
  destruct call as [orders sf|n orders|o|enabled|i|o].
  - pose proof Hd as (who & -> & Hen & _)%dispatch_execute_orders. apply execute_orders_adds in Hd as (new & Hn & Hr).
    exists new. split; [done|]. intros tr [?|?]%Hr; [by left|by auto].
  - unfold dispatch in Hd. minv_step. pose proof Hd as (who & bs & ss & -> & Hen & _)%execute_batched_orders_ok.
    apply batch_adds in Hd as (new & Hn & Hr). exists new. split; [done|]. intros tr [?|?]%Hr; [by left|by auto].
  - apply adds_refl. assert (Hq := cancel_order_quiet origin o s). unfold dispatch in Hd. minv_step. by rewrite Hd in Hq.
  - apply adds_refl. assert (Hq := set_pallet_status_quiet origin enabled s). unfold dispatch in Hd. minv_step. by rewrite Hd in Hq.
  - apply adds_refl. assert (Hq := prune_linked_output_quiet origin i s). unfold dispatch in Hd. minv_step. by rewrite Hd in Hq.
  - apply adds_refl. assert (Hq := authorize_order_quiet origin o s). unfold dispatch in Hd. minv_step. by rewrite Hd in Hq.
Qed.

(** ** Recorded outputs are drawn once *)

Section linked.
Context (p : Hash).

Definition recorded_of (ev : Event (AccountId := AccountId) (Hash := Hash) (OtherError := OtherError)) : Z :=
  match ev with LinkedOutputRecorded i _ _ _ _ => if bool_decide (i = p) then 1 else 0 | _ => 0 end.
Definition drawn_of (ev : Event (AccountId := AccountId) (Hash := Hash) (OtherError := OtherError)) : Z :=
  match ev with LinkedOutputConsumed i _ _ _ => if bool_decide (i = p) then 1 else 0 | _ => 0 end.
Definition times_recorded s : Z := total recorded_of (events s).
Definition times_drawn s : Z := total drawn_of (events s).
Definition drawable s : Z := match LinkedOutputs s !! p with Some _ => 1 | None => 0 end.

Lemma times_event ev s :
  times_recorded (deposit_event ev s) = times_recorded s + recorded_of ev /\
  times_drawn (deposit_event ev s) = times_drawn s + drawn_of ev.
Proof. unfold times_recorded, times_drawn. simpl. rewrite !total_append. cbn. lia. Qed.

Definition linked_ok s : Prop :=
  0 <= times_drawn s /\ times_drawn s + drawable s <= times_recorded s <= 1 /\
  (times_recorded s = 1 -> Orders s !! p = Some Fulfilled).

(** An entry of the provider is the first one, and it is a full execution if its
    output is to be recorded. *)
Definition first_fill s e : Prop :=
  e_order_id e = p -> e_authorization_nonce e = None /\ times_recorded s = 0 /\
    (e_has_linked_order e = true -> e_partial_fill e = None).

Definition linked_pending (l : list Entry) s : Prop :=
  linked_ok s /\ NoDup (e_order_id <$> l) /\ forall e, e ∈ l -> first_fill s e.
Definition linked_settled e (l : list Entry) s : Prop :=
  linked_ok s /\ NoDup (e_order_id <$> e :: l) /\
  (e_order_id e = p -> times_recorded s = 0 /\ (e_has_linked_order e = true -> Orders s !! p = Some Fulfilled)) /\
  forall e', e' ∈ l -> first_fill s e'.

Lemma linked_ok_eq s t :
  Orders t = Orders s -> LinkedOutputs t = LinkedOutputs s -> events t = events s -> linked_ok s -> linked_ok t.
Proof. intros Ho Hl He. unfold linked_ok, times_recorded, times_drawn, drawable. by rewrite Ho, Hl, He. Qed.

Lemma consume_linked provider j x s t :
  consume_provider provider j x s = (Ok tt, t) ->
  Orders t = Orders s /\ times_recorded t = times_recorded s /\ (linked_ok s -> linked_ok t).
Proof.
  intros [[_ ->]|(q & r & _ & Hr & ->)]%consume_provider_ok; [done|].
  assert (Hev := times_event (LinkedOutputConsumed q j x (saturating_sub (l_total r) x)) (set_linked (delete q) s)).
  destruct Hev as [Hrec Hdr]. simpl in Hrec, Hdr. change (times_recorded (set_linked _ s)) with (times_recorded s) in Hrec.
  change (times_drawn (set_linked _ s)) with (times_drawn s) in Hdr. split_and!; [done|lia|].
  unfold linked_ok. rewrite Hrec, Hdr. unfold drawable. simpl. intros (H1 & H2 & H3).
  destruct (decide (q = p)) as [->|Hq].
  - rewrite lookup_delete_eq, bool_decide_eq_true_2 by done. rewrite Hr in H2. split_and!; [lia|lia|lia|].
    intros. apply H3. lia.
  - rewrite lookup_delete_ne, bool_decide_eq_false_2 by done. split_and!; [lia|lia|lia|]. intros. apply H3. lia.
Qed.

Lemma linked_rule : execution_rule linked_pending linked_settled.
Proof.
  split.
  - intros l s t Hm (Hok & Hnd & Hf). split_and!; [by eapply linked_ok_eq; [by eapply moved_orders|by eapply moved_linked|by eapply moved_events|]|done|].
    intros e He Hi. destruct (Hf e He Hi) as (? & ? & ?). unfold times_recorded. rewrite (moved_events _ _ Hm). by split_and!.
  - intros l s ev Hev (Hok & Hnd & Hf). destruct (times_event ev s) as [Hr Hd].
    assert (recorded_of ev = 0 /\ drawn_of ev = 0) as [Hr0 Hd0] by (by destruct ev).
    unfold linked_pending, linked_ok, first_fill. rewrite Hr, Hd, Hr0, Hd0, !Z.add_0_r. by split_and!; try apply Hok.
  - intros l q j x s t (Ho & Hr & Hok')%consume_linked (Hok & Hnd & Hf). split_and!; [by apply Hok'|done|].
    unfold first_fill. rewrite Hr. apply Hf.
  - intros e l s t ->%settle_ok (Hok & Hnd & Hf).
    assert (Hfe : first_fill s e) by (apply Hf; by left).
    set (t := set_order_status _ _ _ _ s). assert (Hsame : times_recorded t = times_recorded s /\ times_drawn t = times_drawn s /\ drawable t = drawable s)
      by (unfold t; by destruct (e_authorization_nonce e)).
    destruct Hsame as (Hr & Hd & Hdr). split_and!.
    + unfold linked_ok. rewrite Hr, Hd, Hdr. destruct Hok as (? & ? & Hx). split_and!; [lia..|]. intros Hone.
      unfold t. destruct (e_authorization_nonce e) eqn:Hne; [by apply Hx|]. simpl.
      destruct (decide (e_order_id e = p)) as [Hi|]; [|rewrite lookup_insert_ne by done; by apply Hx].
      destruct (Hfe Hi) as (_ & ? & _). lia.
    + done.
    + rewrite Hr. intros Hi. destruct (Hfe Hi) as (Hne & ? & Hpf). split; [done|]. intros Hl.
      unfold t. rewrite Hne, (Hpf Hl), Hi. simpl. by rewrite lookup_insert_eq.
    + unfold first_fill. rewrite Hr. intros e' He'. apply Hf. by right.
  - intros e l q j x s t (Ho & Hr & Hok')%consume_linked (Hok & Hnd & He & Hf). split_and!; [by apply Hok'|done|by rewrite Hr, Ho|].
    unfold first_fill. rewrite Hr. apply Hf.
  - intros e l asset out s t Ht (Hok & Hnd & He & Hf). rewrite fmap_cons in Hnd. apply list.NoDup_cons in Hnd as [Hni Hnd].
    apply record_linked_output_ok in Ht as [->|(at' & Hflag & ->)]; [done|].
    destruct (times_event (LinkedOutputRecorded (e_order_id e) (e_signer e) asset out at')
      (set_linked <[e_order_id e := mkLinkedOutput (e_signer e) asset out at']> s)) as [Hr Hd].
    change (times_recorded (set_linked _ s)) with (times_recorded s) in Hr.
    change (times_drawn (set_linked _ s)) with (times_drawn s) in Hd. simpl in Hr, Hd.
    unfold linked_pending, linked_ok, first_fill. rewrite Hr, Hd. unfold drawable. simpl. destruct Hok as (H1 & H2 & H3).
    destruct (decide (e_order_id e = p)) as [Hi|Hi].
    + destruct (He Hi) as [H4 H5]. rewrite Hi, lookup_insert_eq, bool_decide_eq_true_2 by done. unfold drawable in H2.
      split_and!; try done; [lia|destruct (LinkedOutputs s !! p); lia|lia|by intros; apply H5|].
      intros e' He' Hi'. destruct Hni. rewrite Hi, <- Hi'. by apply list_elem_of_fmap_2.
    + rewrite lookup_insert_ne, bool_decide_eq_false_2, !Z.add_0_r by done. by split_and!; try apply H2.
Qed.
End linked.

Lemma valid_first_fill (o : VersionedOrder) s who so e :
  authorized_terms o = None -> (forall o', derive_order_id lib o' = derive_order_id lib o -> o' = o) ->
  linked_ok (derive_order_id lib o) s -> valid_entry lib s who so e -> first_fill (derive_order_id lib o) s e.
Proof.
  intros Hcl Hinj (H1 & H2 & H3) Hv Hi. assert (Hi' := Hi). apply valid_entry_facts in Hv as (_ & _ & _ & _ & _ & _ & _ & Hfit & He).
  rewrite He in Hi. simpl in Hi. apply Hinj in Hi. rewrite Hi in *.
  assert (Hnone : authorization_nonce (view o) = None) by (by destruct o). rewrite Hnone, Hi' in Hfit. simpl in Hfit.
  rewrite He. simpl. rewrite Hnone. destruct Hfit as [Hst Hp]. split_and!; [done| |].
  - unfold drawable in H2. assert (times_recorded (derive_order_id lib o) s <> 1).
    { intros Hr. rewrite (H3 Hr) in Hst. by destruct (partial_fill so). }
    destruct (LinkedOutputs s !! _); lia.
  - intros Hl. destruct (partial_fill so); [|done]. destruct Hp as (_ & Hx & _); [by eexists|]. congruence.
Qed.

Lemma linked_invariant (o : VersionedOrder) :
  authorized_terms o = None -> (forall o', derive_order_id lib o' = derive_order_id lib o -> o' = o) ->
  order_invariant lib (linked_ok (derive_order_id lib o)).
Proof.
  intros Hcl Hinj. set (p := derive_order_id lib o). split; try done.
  - intros ev s Hev. destruct (times_event p ev s) as [Hr Hd].
    assert (recorded_of p ev = 0 /\ drawn_of p ev = 0) as [Hr0 Hd0] by (by destruct ev).
    unfold linked_ok. by rewrite Hr, Hd, Hr0, Hd0, !Z.add_0_r.
  - intros s who so x q s' Hv He Hok. eapply (single_rule lib (linked_rule p)) in He; [by destruct He|].
    split_and!; [done|apply NoDup_singleton|]. intros e ->%list_elem_of_singleton. by eapply valid_first_fill.
  - intros s who n orders bs ss s' [Hb Hs Hnd] He Hok. apply (batch_rule lib (linked_rule p)) in He; [by destruct He|].
    split_and!; [done..|]. intros e [Hin|Hin]%elem_of_app; [apply Hb in Hin|apply Hs in Hin];
      destruct Hin as (_ & so & _ & _ & Hv); by eapply valid_first_fill.
  - intros s o' _ Hnone (H1 & H2 & H3). split_and!; try done; try apply H2. intros Hr. simpl.
    destruct (decide (derive_order_id lib o' = p)) as [Hp|Hp]; [|rewrite lookup_insert_ne by done; by apply H3].
    rewrite Hp in Hnone. by rewrite (H3 Hr) in Hnone.
  - intros s n o' j s' (st' & -> & _)%approve_order_ok. done.
  - intros s j (H1 & H2 & H3). unfold linked_ok, drawable in *. simpl.
    change (times_recorded p (set_linked (delete j) s)) with (times_recorded p s).
    change (times_drawn p (set_linked (delete j) s)) with (times_drawn p s). split_and!; try done; try apply H2.
    destruct (decide (j = p)) as [->|]; [rewrite lookup_delete_eq|rewrite lookup_delete_ne by done]; destruct (LinkedOutputs s !! p); lia.
Qed.

(** *** Orders that draw on the output *)

(** Some call was made for the order [i]. *)
Definition served (i : Hash) s : Prop := exists tr, tr ∈ trace s /\ tag tr = Some i.

Lemma event_rule (ev : Event) : execution_rule (fun _ s => ev ∈ events s) (fun _ _ s => ev ∈ events s).
Proof.
  assert (Hev : forall ev' s, ev ∈ events s -> ev ∈ events (deposit_event ev' s)) by (intros; simpl; rewrite elem_of_app; by left).
  split.
  - intros l s t Hm. by rewrite (moved_events _ _ Hm).
  - intros l s ev' _. apply Hev.
  - intros l q j x s t [[_ ->]|(q' & r & _ & _ & ->)]%consume_provider_ok; [done|apply (Hev _ (set_linked _ s))].
  - intros e l s t ->%settle_ok. by destruct (e_authorization_nonce e).
  - intros e l q j x s t [[_ ->]|(q' & r & _ & _ & ->)]%consume_provider_ok; [done|apply (Hev _ (set_linked _ s))].
  - intros e l asset out s t [->|(at' & _ & ->)]%record_linked_output_ok; [done|apply (Hev _ (set_linked _ s))].
Qed.

Section consumer.
Context (p : Hash) (o1 : VersionedOrder (AccountId := AccountId) (Hash := Hash)) (pct : Z).
Context (Hinj : forall o', derive_order_id lib o' = derive_order_id lib o1 -> o' = o1).
Context (Hamount : amount (view o1) = LinkedPercentage p pct).
Abbreviation j := (derive_order_id lib o1).

Definition drawn_for (i : Hash) s : Prop := exists x u, LinkedOutputConsumed p i x u ∈ events s.

(** An execution of the order draws on the output. *)
Lemma consumer_entry who l s s' e :
  execution lib who l s s' -> e ∈ l -> e_order_id e = j -> is_Some (LinkedOutputs s !! p) /\ drawn_for j s'.
Proof.
  intros [Hv _ Heff _] Hin Hi. destruct (Hv e Hin) as [so Hso]. destruct (valid_order o1 Hinj _ _ _ _ Hso Hi) as (_ & _ & Hres & _).
  unfold resolves in Hres. rewrite Hamount in Hres. destruct Hres as (r & Hr & _ & _ & _ & _ & _ & Hp). split; [by exists r|].
  destruct (ex_consumed _ _ _ _ Heff e p Hin Hp) as [u Hu]. rewrite Hi in Hu. by eexists _, _.
Qed.

Lemma drawn_for_execution i who l s s' : execution lib who l s s' -> drawn_for i s -> drawn_for i s'.
Proof. intros Hex (x & u & Hd). exists x, u. by apply (execution_rules _ _ _ _ _ Hex _ _ (event_rule _)). Qed.

Lemma drawn_for_event i ev s : drawn_for i s -> drawn_for i (deposit_event ev s).
Proof. intros (x & u & Hd). exists x, u. simpl. rewrite elem_of_app. by left. Qed.

Lemma drawn_for_times i s : drawn_for i s -> 1 <= times_drawn p s.
Proof.
  intros (x & u & Hin). unfold times_drawn. apply list_elem_of_split in Hin as (l1 & l2 & ->). rewrite total_append. cbn.
  fold (total (drawn_of p) l2). rewrite bool_decide_eq_true_2 by done.
  assert (Hnn : forall l, 0 <= total (drawn_of p) l).
  { induction l as [|ev l IH]; [done|]. cbn. fold (total (drawn_of p) l). destruct ev; simpl; try case_bool_decide; lia. }
  pose proof (Hnn l1). pose proof (Hnn l2). lia.
Qed.

(** If it was drawn on once only, then for one order only. *)
Lemma drawn_for_unique i i' s : times_drawn p s <= 1 -> drawn_for i s -> drawn_for i' s -> i = i'.
Proof.
  intros Hle (x & u & Hin) (x' & u' & Hin'). destruct (decide (i = i')) as [|Hne]; [done|]. exfalso.
  unfold times_drawn in Hle. apply list_elem_of_split in Hin as (l1 & l2 & Hs). rewrite Hs in Hin', Hle.
  assert (Hnn : forall l, 0 <= total (drawn_of p) l /\ (LinkedOutputConsumed p i' x' u' ∈ l -> 1 <= total (drawn_of p) l)).
  { induction l as [|ev l [IH1 IH2]]; [split; [done|]; by intros ?%not_elem_of_nil|]. cbn. fold (total (drawn_of p) l).
    assert (0 <= drawn_of p ev) by (destruct ev; simpl; try case_bool_decide; lia). split; [lia|].
    intros [<-|?%IH2]%elem_of_cons; [|lia]. simpl in *. rewrite bool_decide_eq_true_2 by done. lia. }
  rewrite total_append in Hle. cbn in Hle. fold (total (drawn_of p) l2) in Hle. rewrite bool_decide_eq_true_2 in Hle by done.
  destruct (Hnn l1) as [N1 M1], (Hnn l2) as [N2 M2]. apply elem_of_app in Hin' as [?%M1|[[= <-]|?%M2]%elem_of_cons]; [lia|done|lia].
Qed.

Lemma served_reap i who s : served i (on_killed_account who s) -> served i s.
Proof.
  intros (tr & Htr & Htag). simpl in Htr. apply elem_of_app in Htr as [?| ->%list_elem_of_singleton]; [by exists tr|done].
Qed.

(** The order is served only if it draws on the output. *)
Lemma served_invariant : order_invariant lib (fun s => served j s -> drawn_for j s).
Proof.
  assert (Hexec : forall who l s s', execution lib who l s s' -> (served j s -> drawn_for j s) -> served j s' -> drawn_for j s').
  { intros who l s s' Hex Hs (tr & Htr & Htag). destruct (ex_trace _ _ _ _ (execution_effect _ _ _ _ _ Hex)) as (new & Ht & Hn).
    rewrite Ht in Htr. apply elem_of_app in Htr as [Htr|Htr].
    - eapply drawn_for_execution; [done|]. apply Hs. by exists tr.
    - destruct (Hn tr j Htr Htag) as (e & He & Hi). by eapply consumer_entry. }
  split; try done.
  - intros ev s _ Hs ?. by apply drawn_for_event, Hs.
  - intros s who so x' q s' Hv He. eapply Hexec. by eapply single_execution.
  - intros s who n orders bs ss s' Hc He. eapply Hexec. by eapply batch_execution.
  - intros s n o' k s' (st' & -> & _)%approve_order_ok. done.
  - intros s who Hs ?%served_reap. by apply Hs.
Qed.

(** Once the output was drawn on, the order is not served any more. *)
Lemma drawn_invariant i (o : VersionedOrder) s0 :
  p = derive_order_id lib o -> authorized_terms o = None -> (forall o', derive_order_id lib o' = p -> o' = o) ->
  order_invariant lib (fun s => linked_ok p s /\ drawn_for i s /\ untouched j s0 s).
Proof.
  intros Hp Hcl Hinj0. pose proof (linked_invariant o Hcl) as Hlk. rewrite <- Hp in Hlk. specialize (Hlk Hinj0).
  assert (Hexec : forall who l s s', execution lib who l s s' -> linked_ok p s /\ drawn_for i s /\ untouched j s0 s ->
    drawn_for i s' /\ untouched j s0 s').
  { intros who l s s' Hex ((_ & Hok & _) & Hd & Hu). split; [by eapply drawn_for_execution|].
    eapply untouched_execution; [done| |done]. intros e He Hi. destruct (consumer_entry _ _ _ _ _ Hex He Hi) as [[r Hr] _].
    apply drawn_for_times in Hd. unfold drawable in Hok. rewrite Hr in Hok. lia. }
  destruct Hlk. split.
  - intros ev s Hev (Hl & Hd & Hu). split_and!; [by apply inv_event|by apply drawn_for_event|done].
  - intros s who so x' q s' Hv He Hs. split; [eapply inv_single; try done; by destruct Hs|]. eapply Hexec; [|done]. by eapply single_execution.
  - intros s who n orders bs ss s' Hc He Hs. split; [eapply inv_batch; try done; by destruct Hs|]. eapply Hexec; [|done]. by eapply batch_execution.
  - intros s o' H1 H2 (Hl & Hd & Hu). split_and!; [by apply inv_cancel|done..].
  - intros s who n a Ha Ht (Hl & Hd & Hu). split_and!; [by apply inv_cancel_approved|done..].
  - intros s n o' k s' Ha (Hl & Hd & Hu). split; [by eapply inv_approve|]. apply approve_order_ok in Ha as (st' & -> & _). done.
  - intros s k (Hl & Hd & Hu). split_and!; [by apply inv_prune|done..].
  - intros s b (Hl & Hd & Hu). split_and!; [by apply inv_enabled|done..].
  - intros s (Hl & Hd & Hu). split_and!; [by apply inv_migrated|done..].
  - intros s lg (Hl & Hd & Hu). split_and!; [by apply inv_ledger|done..].
  - intros s lg ms Hms (Hl & Hd & Hu). split_and!; [by apply inv_chain|done..].
  - intros s who (Hl & Hd & Hu). split_and!; [by apply inv_reap|done|by apply untouched_reap].
Qed.
End consumer.


(** ** Cancelling what is partially filled *)

(** (C40) The owner of a signed order cannot cancel it once a
    relayer has filled a part of it, although relayers can still fill the rest; the
    owner of an approved order in the same situation can. *)
Theorem partial_fill_blocks_cancel (o : VersionedOrder) so who (n x : Z) s :
  authorized_terms o = None -> order so = o -> Orders s !! derive_order_id lib o = Some (PartiallyFilled n) ->
  amount (view o) = Fixed x -> 0 <= n < x -> partial_fill so = Some (x - n) ->
  has_linked_order (view o) = false -> is_Some (relayer (view o)) -> partial_fills_enabled (view o) = true ->
  authorised lib s so -> netuid (view o) <> 0 -> chain_id (view o) = ChainId (ledger s) ->
  now s <= expiry (view o) -> relayer_allowed (view o) who = true ->
  price_condition lib (view o) (current_alpha_price (ledger s) (netuid (view o))) = true ->
  dispatch lib (Signed (order_signer o)) (call_cancel_order o) s = (Err (ModuleError OrderAlreadyProcessed), s) /\
  is_order_valid lib so (derive_order_id lib o) (now s) (current_alpha_price (ledger s) (netuid (view o))) who s
    = (Ok (x, None), s) /\
  forall m terms a t, approved_order t (order_signer (Authorized m terms)) m = Some a ->
    ap_id a = derive_order_id lib (Authorized m terms) -> ap_status a = Some (PartiallyFilled n) ->
    exists t', dispatch lib (Signed (order_signer (Authorized m terms))) (call_cancel_order (Authorized m terms)) t = (Ok tt, t') /\
      order_status t' (order_signer (Authorized m terms)) (Some m) (ap_id a) = Some Cancelled.
Proof.
  intros Hcl Hso Hst Hx Hn Hpf Hlk [rl Hrl] Hpe Hau Hnet Hch Hexp Hral Hpr. split_and!.
  - unfold dispatch, transactional, cancel_order, ensure_signed, mbind, M_bind, mret, M_ret. simpl.
    rewrite bool_decide_eq_true_2 by done. simpl. rewrite Hcl. unfold id. rewrite Hst. done.
  - unfold is_order_valid. rewrite (bind_run _ _ s None s).
    2: { unfold authenticated_order. rewrite Hso, Hcl. unfold authorised in Hau. rewrite Hso in Hau. destruct o; [..|done].
         all: destruct Hau as (Hsup & _); unfold mbind, M_bind; by destruct (signature so). }
    rewrite bind_gets. unfold id. rewrite Hso.
    assert (LimitOrderSignerFilter (ledger s) (signer (view o)) = true /\
      verify_order lib so || verify_wrapped lib so (derive_order_id lib o) || verify_readable lib so = true) as [Hf Hv].
    { unfold authorised in Hau. unfold verify_order, verify_wrapped, verify_readable. rewrite Hso in *.
      rewrite <- signer_view. destruct o; [..|done].
      all: destruct Hau as (-> & -> & msg & Hm & [->|[->| ->]]); simpl in *; rewrite Hm, ?orb_true_r; done. }
    unfold mbind, M_bind, ensure. rewrite (proj2 (Z.eqb_neq _ _) Hnet), Hf, (proj2 (Z.eqb_eq _ _) Hch), Hv. simpl.
    unfold validate_order_execution, mbind, M_bind, gets, ensure. simpl.
    replace (authorization_nonce (view o)) with (@None Z) by (by destruct o). simpl. rewrite Hst. simpl.
    rewrite (proj2 (Z.leb_le _ _) Hexp), Hpr, Hral. unfold resolve_amount. rewrite Hx. simpl.
    unfold check_fill, ensure, mbind, M_bind. rewrite Hpf, Hx, Hlk, Hpe. simpl.
    rewrite Hrl, bool_decide_eq_true_2 by (by eexists). simpl. unfold saturating_sub.
    rewrite (proj2 (Z.ltb_lt _ _)), (proj2 (Z.leb_le _ _)) by lia. done.
  - intros m terms a t. assert (Hw : order_signer (Authorized m terms) = order_signer (Authorized m terms)) by done.
    revert Hw. generalize (order_signer (Authorized m terms)) at 2 3 4 5. intros w Hw Ha Hid Hs. eexists. split.
    + unfold dispatch, transactional, cancel_order, ensure_signed, mbind, M_bind, mret, M_ret. cbn -[order_signer].
      rewrite bool_decide_eq_true_2 by done. simpl. unfold cancel_authenticated_order, transactional, gets, mbind, M_bind, ensure.
      rewrite Ha. simpl. rewrite bool_decide_eq_true_2 by done. rewrite Hs. simpl. done.
    + unfold approved_order in Ha. unfold order_status, approved_order. simpl. rewrite lookup_alter_eq.
      destruct (ApprovedOrders t !! _) as [st|]; [|done]. simpl in *. rewrite lookup_alter_eq, Ha. simpl.
      unfold derive_order_id in Hid. simpl in Hid.
      rewrite (bool_decide_eq_true_2 _ Hid). simpl. by rewrite bool_decide_eq_true_2.
Qed.
End safety.
