(* ===== verification/LimitOrdersBatch.v ===== *)
(** * Limit orders: what a batch collects and pays

    Theorems about the netted execution of a batch of limit orders: the pallet's
    own account is never out of pocket ([batch_self_financing]), and every order of
    the batch is paid, within its limit ([batch_pays_everyone]). *)

From Stdlib Require Import ZArith Lia.
From stdpp Require Import base gmap list fin_maps relations.
From S2P Require Import Prelude LimitOrders LimitOrdersLogic LimitOrdersMoves.

(** ** Arithmetic *)

Lemma div_add_le a b w : 0 < w -> a / w + b / w <= (a + b) / w.
Proof.
  intros Hw. apply Z.div_le_lower_bound; [done|].
  pose proof (Z.mul_div_le a w Hw). pose proof (Z.mul_div_le b w Hw). lia.
Qed.

Lemma total_div_le {A} (f : A -> Z) t w l :
  0 < w -> total (fun x => t * f x / w) l <= t * total f l / w.
Proof.
  intros Hw. induction l as [|x l IH]; cbn; [by rewrite Z.mul_0_r, Z.div_0_l by lia|].
  fold (total (fun x => t * f x / w) l) (total f l).
  pose proof (div_add_le (t * f x) (t * total f l) w Hw). rewrite Z.mul_add_distr_l. lia.
Qed.

Lemma total_le {A} (f g : A -> Z) l : (forall x, x ∈ l -> f x <= g x) -> total f l <= total g l.
Proof.
  induction l as [|x l IH]; intros Hl; [done|]. cbn. fold (total f l) (total g l).
  assert (f x <= g x) by (apply Hl; by left). assert (total f l <= total g l) by (apply IH; intros; apply Hl; by right). lia.
Qed.

Lemma total_nonnegative {A} (f : A -> Z) l : (forall x, x ∈ l -> 0 <= f x) -> 0 <= total f l.
Proof. intros Hl. rewrite <- (total_zero (fun _ : A => 0) l) by done. by apply total_le. Qed.

Lemma total_plus {A} (f g h : A -> Z) l : (forall x, x ∈ l -> h x = f x + g x) -> total h l = total f l + total g l.
Proof.
  induction l as [|x l IH]; intros Hl; [done|]. cbn. fold (total f l) (total g l) (total h l).
  rewrite (Hl x) by (by left). rewrite IH by (intros; apply Hl; by right). lia.
Qed.

Lemma total_opp {A} (f : A -> Z) l : total (fun x => - f x) l = - total f l.
Proof. induction l as [|x l IH]; [done|]. cbn. fold (total f l) (total (fun x => - f x) l). lia. Qed.

Lemma total_lookup_le {A} (f : A -> Z) l x : (forall x, x ∈ l -> 0 <= f x) -> x ∈ l -> f x <= total f l.
Proof.
  induction l as [|y l IH]; intros Hl Hx; [by apply not_elem_of_nil in Hx|]. cbn. fold (total f l).
  assert (0 <= total f l) by (apply total_nonnegative; intros; apply Hl; by right).
  apply elem_of_cons in Hx as [->|Hx]; [lia|]. assert (0 <= f y) by (apply Hl; by left).
  assert (f x <= total f l) by (apply IH; [intros; apply Hl; by right|done]). lia.
Qed.

Lemma pro_rata_le t a w : 0 <= t -> 0 <= a -> 0 < w -> 0 <= pro_rata t a w <= t * a / w.
Proof.
  intros Ht Ha Hw. unfold pro_rata. destruct (Z.ltb_spec 0 w); [|lia].
  unfold checked_div. destruct (Z.eqb_spec w 0); [lia|]. simpl. unfold as_u64, saturating_mul.
  assert (0 <= Z.min u128_max (t * a) / w) by (apply Z.div_pos; unfold u128_max; lia).
  assert (Z.min u128_max (t * a) / w <= t * a / w) by (apply Z.div_le_mono; lia).
  split; [apply Z.mod_pos_bound; lia|]. etransitivity; [apply Z.mod_le; lia|done].
Qed.

Section batch.
Context {AccountId Hash Signature Commitment OtherError Ledger : Type}.
Context `{Countable AccountId} `{Countable Hash} `{!EqDecision Commitment}.
Context (lib : Libraries (AccountId := AccountId) (Hash := Hash) (Signature := Signature)
  (Commitment := Commitment)).
Context {swap : OrderSwapInterface (AccountId := AccountId) (OtherError := OtherError) (Ledger := Ledger)}.
Context {cfg : Config (AccountId := AccountId) (Hash := Hash) (Ledger := Ledger)}.
Abbreviation St := (State (AccountId := AccountId) (Hash := Hash) (Commitment := Commitment)
  (OtherError := OtherError) (Ledger := Ledger)).
Abbreviation Call := (M St (DispatchError OtherError)).
Abbreviation Entry := (OrderEntry (AccountId := AccountId) (Hash := Hash)).
Abbreviation Tr := (Trace (AccountId := AccountId) (Hash := Hash)).
Implicit Types (s t : St) (e : Entry).
Implicit Types (so : SignedOrder (AccountId := AccountId) (Hash := Hash) (Signature := Signature)).

(** The interface answers with amounts and prices of their types. *)
Class InterfaceTypes : Prop := {
  buy_alpha_u64 c h n x p v l a l' k : buy_alpha c h n x p v l = Ok (a, l', k) -> is_u64 a;
  sell_alpha_u64 c h n x p v l a l' k : sell_alpha c h n x p v l = Ok (a, l', k) -> is_u64 a;
  price_u128 l n : 0 <= current_alpha_price l n <= u128_max;
}.

Context {laws : LibraryLaws lib} {types : InterfaceTypes}.

(** ** Conversions at the current price *)

Lemma alpha_to_tao_exact x price :
  0 <= x <= u64_max -> 0 <= price -> price * x <= u128_max -> price <= u128_max ->
  alpha_to_tao lib x price = price * x / 2 ^ 64.
Proof.
  intros Hx Hp Hpx Hp'. unfold alpha_to_tao, saturating_from_num, to_num.
  assert (Hm : Z.min u128_max (x * 2 ^ 64) = x * 2 ^ 64) by (unfold u128_max, u64_max in *; lia). rewrite Hm.
  rewrite (fixed_mul_spec lib) by (unfold u128_max, u64_max in *; lia).
  rewrite Z.mul_assoc, Z.div_mul by lia. by rewrite Z.min_r.
Qed.

(** The alpha that a smaller value buys at the price is less than what it buys. *)
Lemma tao_to_alpha_le (x y price : Z) s a t :
  0 <= x <= u64_max -> 0 <= price <= u128_max -> 0 <= y -> x < price * y / 2 ^ 64 ->
  (tao_to_alpha lib x price : Call Z) s = (Ok a, t) -> 0 <= a <= y /\ t = s.
Proof.
  intros Hx Hp Hy Hlt Ha. unfold tao_to_alpha, from_num in Ha.
  destruct (Z.eqb_spec price (0 * 2 ^ 64)) as [->|Hp0]; [rewrite !Z.mul_0_l, Z.div_0_l in Hlt by lia; lia|].
  apply ok_or_ok in Ha as [Ha ->]. split; [|done]. apply fmap_Some in Ha as (b & Hb & ->).
  unfold saturating_from_num in Hb.
  assert (Hm : Z.min u128_max (x * 2 ^ 64) = x * 2 ^ 64) by (unfold u128_max, u64_max in *; lia). rewrite Hm in Hb.
  rewrite (fixed_div_spec lib) in Hb by (unfold u128_max, u64_max in *; lia). case_match; simplify_eq.
  unfold to_num. split; [apply Z.div_pos; [apply Z.div_pos|]; lia|].
  rewrite Z.div_div by lia. rewrite Z.div_mul_cancel_r by lia.
  apply Z.div_le_upper_bound; [lia|]. pose proof (Z.mul_div_le (price * y) (2 ^ 64) ltac:(lia)). nia.
Qed.

(** ** Money in and out of an account *)

Definition tao_flow (acct : AccountId) (tr : Tr) : Z :=
  match tr with
  | Bought _ c _ _ tao _ => if bool_decide (c = acct) then - tao else 0
  | Sold _ c _ _ _ tao => if bool_decide (c = acct) then tao else 0
  | MovedTao _ from to x => (if bool_decide (to = acct) then x else 0) - (if bool_decide (from = acct) then x else 0)
  | _ => 0
  end.

Definition alpha_flow (acct hot : AccountId) (n : Z) (tr : Tr) : Z :=
  match tr with
  | Bought _ c h m _ alpha => if bool_decide (c = acct /\ h = hot /\ m = n) then alpha else 0
  | Sold _ c h m alpha _ => if bool_decide (c = acct /\ h = hot /\ m = n) then - alpha else 0
  | MovedAlpha _ fc fh tc th m x =>
      (if bool_decide (tc = acct /\ th = hot /\ m = n) then x else 0) -
      (if bool_decide (fc = acct /\ fh = hot /\ m = n) then x else 0)
  | _ => 0
  end.

(** The alpha moved into the position from others. *)
Definition alpha_in (acct hot : AccountId) (n : Z) (tr : Tr) : Z :=
  match tr with
  | MovedAlpha _ _ _ tc th m x => if bool_decide (tc = acct /\ th = hot /\ m = n) then x else 0
  | _ => 0
  end.

(** A quantity summed over the calls to the interface. *)
Definition flow (w : Tr -> Z) s : Z := total w (trace s).

(** ** Entries in range *)

Definition in_range so : Prop :=
  let v := view (order so) in
  match partial_fill so with Some x => is_u64 x | None => True end /\
  match amount v with Fixed a => is_u64 a | LinkedPercentage _ pct => 0 <= pct <= 1000000000 end /\
  0 <= fee_rate v <= 1000000000 /\ is_u64 (limit_price v) /\
  match max_slippage v with Some p => 0 <= p <= 1000000000 | None => True end.

Definition outputs_in_range s : Prop := forall p r, LinkedOutputs s !! p = Some r -> is_u64 (l_total r).

Record entry_ok e : Prop := {
  entry_gross : 0 <= e_gross e <= u64_max;
  entry_net : 0 <= e_net e <= e_gross e;
  entry_sell : is_buy (e_side e) = false -> e_net e = e_gross e;
  entry_rate : 0 <= e_fee_rate e <= 1000000000;
  entry_limit : 0 <= e_effective_swap_limit e <= u64_max;
}.

Lemma swap_limit_range b price slip :
  is_u64 price -> match slip with Some p => 0 <= p <= 1000000000 | None => True end ->
  0 <= compute_effective_swap_limit lib b price slip <= u64_max.
Proof.
  intros Hp Hs. unfold is_u64 in Hp. unfold compute_effective_swap_limit. destruct slip as [p|]; [|destruct b; unfold u64_max; lia].
  pose proof (mul_floor_le lib p price Hs Hp). unfold saturating_add, saturating_sub. destruct b; lia.
Qed.

Lemma valid_entry_ok s who so e :
  in_range so -> outputs_in_range s -> valid_entry lib s who so e -> entry_ok e.
Proof.
  intros (Hpf & Ha & Hf & Hl & Hsl) Ho (_ & _ & _ & _ & _ & _ & Hres & _ & He)%valid_entry_facts.
  assert (Hx : 0 <= e_order_amount e <= u64_max).
  { unfold resolves in Hres. destruct (amount (view (order so))) as [a|p pct]; [by destruct Hres as [-> _]|].
    destruct Hres as (r & Hr & _ & _ & _ & -> & _). specialize (Ho p r Hr). unfold is_u64 in Ho.
    pose proof (mul_floor_le lib pct (l_total r) Ha Ho). lia. }
  assert (Hg : 0 <= default (e_order_amount e) (partial_fill so) <= u64_max).
  { by destruct (partial_fill so). }
  rewrite He. split; simpl; [done| | |done|by apply swap_limit_range].
  - pose proof (mul_floor_le lib _ _ Hf Hg). destruct (is_buy _); unfold saturating_sub; lia.
  - by intros ->.
Qed.

(** ** Shares and fees add up *)

Lemma pro_rata_total {A} (f : A -> Z) (t w : Z) l :
  0 <= t -> (forall x, x ∈ l -> 0 <= f x) -> total f l <= w -> total (fun x => pro_rata t (f x) w) l <= t.
Proof.
  intros Ht Hf Hw. destruct (Z.ltb_spec 0 w) as [Hw0|Hw0].
  - transitivity (total (fun x => t * f x / w) l).
    { apply total_le. intros x Hx. apply pro_rata_le; [done|by apply Hf|done]. }
    etransitivity; [by apply total_div_le|]. apply Z.div_le_upper_bound; [done|]. nia.
  - rewrite total_zero; [done|]. intros x _. unfold pro_rata. destruct (Z.ltb_spec 0 w); [lia|done].
Qed.

Lemma pro_rata_u64 (t a w : Z) : 0 <= pro_rata t a w <= u64_max.
Proof.
  unfold pro_rata. destruct (0 <? w); [|unfold u64_max; lia]. unfold as_u64.
  pose proof (Z.mod_pos_bound (default 0 (checked_div (saturating_mul u128_max t a) w)) (2 ^ 64)). unfold u64_max. lia.
Qed.

Abbreviation nonneg_fees := (Forall (fun rf : AccountId * Z => 0 <= rf.2)).

Lemma add_fee_total r x fees :
  0 <= x -> nonneg_fees fees ->
  nonneg_fees (add_fee r x fees) /\ total snd (add_fee r x fees) <= total snd fees + x.
Proof.
  intros Hx. induction fees as [|[r' y] fees IH]; intros Hf; simpl.
  - split; [by constructor|]. cbn. lia.
  - apply Forall_cons in Hf as [Hy Hf]. simpl in Hy. destruct (IH Hf) as [IH1 IH2]. case_bool_decide.
    + split; [constructor; [simpl; unfold saturating_add, u64_max; lia|done]|]. cbn -[saturating_add]. fold (total snd fees). unfold saturating_add. lia.
    + split; [by constructor|]. cbn. fold (total snd fees) (total snd (add_fee r x fees)). lia.
Qed.

Lemma foldl_fees {A} (f : A -> Z) (r : A -> AccountId) l fees :
  (forall x, x ∈ l -> 0 <= f x) -> nonneg_fees fees ->
  let fees' := foldl (fun fees x => if 0 <? f x then add_fee (r x) (f x) fees else fees) fees l in
  nonneg_fees fees' /\ total snd fees' <= total snd fees + total f l.
Proof.
  revert fees. induction l as [|x l IH]; intros fees Hf Hn; simpl; [split; [done|cbn; lia]|].
  assert (0 <= f x) by (apply Hf; by left). assert (Hf' : forall x, x ∈ l -> 0 <= f x) by (intros; apply Hf; by right).
  cbn. fold (total f l). destruct (0 <? f x).
  - destruct (add_fee_total (r x) (f x) fees) as [Hn1 Hn2]; [done..|]. destruct (IH _ Hf' Hn1). split; [done|lia].
  - destruct (IH _ Hf' Hn). split; [done|lia].
Qed.

Lemma fees_paid (acct : AccountId) fees :
  nonneg_fees fees ->
  - total snd fees <= total (fun rf => if rf.2 =? 0 then 0 else tao_flow acct (MovedTao None acct rf.1 rf.2)) fees.
Proof.
  intros Hf. rewrite <- total_opp. apply total_le. intros [r x] Hin. rewrite list.Forall_forall in Hf.
  specialize (Hf _ Hin). simpl in *. rewrite (bool_decide_eq_true_2 (acct = acct)) by done.
  destruct (Z.eqb_spec x 0); [lia|]. case_bool_decide; lia.
Qed.

(** ** The pallet's account *)

Section accounts.
Context (n price : Z) (bs ss : list Entry).
Context (buys_ok : forall e, e ∈ bs -> entry_ok e /\ e_signer e <> pallet_account).
Context (sells_ok : forall e, e ∈ ss -> entry_ok e /\ e_signer e <> pallet_account /\ e_net e = e_gross e).
Abbreviation tao_held := (flow (tao_flow pallet_account)).
Abbreviation alpha_held := (flow (alpha_flow pallet_account PalletHotkey n)).

Lemma sum_net_total (l : list Entry) : sum_net l = total e_net l.
Proof. done. Qed.

Lemma sold_total : sum_net ss = total e_gross ss.
Proof. rewrite sum_net_total. apply total_ext. intros e He. apply sells_ok in He. tauto. Qed.

Lemma collected_tao : total (fun e => tao_flow pallet_account (collect_buy e)) bs = total e_gross bs.
Proof.
  apply total_ext. intros e He. apply buys_ok in He as [_ He]. simpl.
  rewrite bool_decide_eq_true_2, bool_decide_eq_false_2 by done. lia.
Qed.

Lemma collected_alpha :
  total (fun e => alpha_flow pallet_account PalletHotkey n (collect_sell n e)) ss = total e_gross ss.
Proof.
  apply total_ext. intros e He. apply sells_ok in He as (_ & He & _). simpl.
  rewrite bool_decide_eq_true_2, bool_decide_eq_false_2 by naive_solver. lia.
Qed.

Lemma paid_alpha ta tb :
  total (fun e => alpha_flow pallet_account PalletHotkey n (pay_buy n ta tb e)) bs
  = - total (buyer_share ta tb) bs.
Proof.
  rewrite <- total_opp. apply total_ext. intros e He. apply buys_ok in He as [_ He]. simpl.
  rewrite bool_decide_eq_false_2, bool_decide_eq_true_2 by naive_solver. lia.
Qed.

Lemma paid_tao tt' te :
  total (fun e => tao_flow pallet_account (pay_sell lib tt' te price e)) ss
  = - total (seller_payout lib tt' te price) ss.
Proof.
  rewrite <- total_opp. apply total_ext. intros e He. apply sells_ok in He as (_ & He & _). simpl.
  rewrite bool_decide_eq_false_2, bool_decide_eq_true_2 by done. lia.
Qed.

(** Payouts and fees of the sellers are their shares. *)
Lemma seller_split tt' te :
  total (seller_share lib tt' te price) ss = total (seller_payout lib tt' te price) ss + total (seller_fee lib tt' te price) ss /\
  forall e, e ∈ ss -> 0 <= seller_fee lib tt' te price e.
Proof.
  assert (Hf : forall e, e ∈ ss -> 0 <= seller_fee lib tt' te price e <= seller_share lib tt' te price e).
  { intros e He. apply sells_ok in He as ([_ _ _ Hr _] & _). unfold seller_fee.
    apply (mul_floor_le lib); [done|]. unfold seller_share. apply pro_rata_u64. }
  split; [|intros e He; by apply Hf]. apply total_plus. intros e He. specialize (Hf e He). unfold seller_payout, saturating_sub. lia.
Qed.

(** Fees leave at most what the buyers' inputs exceed the net amounts by, and what
    was kept from the sellers. *)
Lemma fees_total tt' te fees :
  fees = merge_fees bs (sell_fees_of lib tt' te price [] ss) ->
  nonneg_fees fees /\ total snd fees <= total e_gross bs - sum_net bs + total (seller_fee lib tt' te price) ss.
Proof.
  intros ->. destruct (foldl_fees (seller_fee lib tt' te price) e_fee_recipient ss []) as [Hn1 Ht1].
  { apply (seller_split tt' te). } { done. } fold (sell_fees_of lib tt' te price [] ss) in Hn1, Ht1.
  destruct (foldl_fees (fun e => saturating_sub (e_gross e) (e_net e)) e_fee_recipient bs (sell_fees_of lib tt' te price [] ss)) as [Hn2 Ht2].
  { intros e He. unfold saturating_sub. lia. } { done. }
  fold (merge_fees bs (sell_fees_of lib tt' te price [] ss)) in Hn2, Ht2. split; [done|].
  assert (Hb : total e_gross bs = sum_net bs + total (fun e => saturating_sub (e_gross e) (e_net e)) bs).
  { rewrite sum_net_total. apply total_plus. intros e He. apply buys_ok in He as [[_ Hn _ _ _] _]. unfold saturating_sub. lia. }
  cbn in Ht1. lia.
Qed.

Abbreviation te := (alpha_to_tao lib (sum_net ss) price).

Lemma answered_u64 side x out : answered side pallet_account PalletHotkey n x out -> is_u64 out /\ (x <= 0 -> out = 0).
Proof.
  unfold answered. destruct (Z.ltb_spec 0 x) as [Hx|Hx]; [|intros ->; by unfold is_u64, u64_max].
  intros (limit & l & l' & k & Ha). split; [|lia]. destruct side; [by eapply buy_alpha_u64|by eapply sell_alpha_u64].
Qed.

(** The flows of a whole batch. *)
Lemma batch_flow w s s' :
  (forall who, w (Reaped who) = 0) ->
  execute_classified_batch lib n price bs ss s = (Ok tt, s') ->
  (bs = [] /\ ss = [] /\ s' = s) \/
  exists side out ta fees x,
    let tb := sum_net bs in
    let tt' := total_tao_of side out tb te in
    is_u64 out /\ fees = merge_fees bs (sell_fees_of lib tt' te price [] ss) /\
    match side with
    | Buy => te <= tb /\ ta = saturating_add u128_max out (sum_net ss) /\ x = as_u64 (saturating_sub tb te)
    | Sell => tb < te /\ (exists u, (tao_to_alpha lib tb price : Call Z) u = (Ok ta, u)) /\
        x = as_u64 (saturating_sub (sum_net ss) ta)
    end /\ (x <= 0 -> out = 0) /\
    flow w s' = flow w s +
      total (fun e => w (collect_buy e)) bs + total (fun e => w (collect_sell n e)) ss +
      (if 0 <? x then w match side with
         | Buy => Bought None pallet_account PalletHotkey n x out | Sell => Sold None pallet_account PalletHotkey n x out end else 0) +
      total (fun e => w (pay_buy n ta tb e)) bs + total (fun e => w (pay_sell lib tt' te price e)) ss +
      total (fun rf => if rf.2 =? 0 then 0 else w (MovedTao None pallet_account rf.1 rf.2)) fees.
Proof.
  intros Hr [?|(side & out & ta & x & [Ha Hside Hm _ _ _])]%batch_run_ok; [by left|right].
  apply answered_u64 in Ha as [Hout Hx]. exists side, out, ta, (merge_fees bs (sell_fees_of lib (total_tao_of side out (sum_net bs) te) te price [] ss)), x.
  cbv zeta. split_and!; [done|done| |done|].
  - cbv zeta in Hside. destruct side; [done|]. destruct Hside as (? & Hta & ?). split_and!; [done| |done]. by exists s.
  - unfold flow. rewrite !trace_moves by done. rewrite Hm. unfold batch_moves, swap_moves, fee_moves. cbv zeta.
    rewrite !total_append, !total_fmap, total_bind.
    rewrite (total_ext (fun rf => total w (if rf.2 =? 0 then [] else _)) (fun rf => if rf.2 =? 0 then 0 else w (MovedTao None pallet_account rf.1 rf.2)))
      by (intros [? y] _; simpl; destruct (y =? 0); cbn; lia).
    destruct (0 <? x); cbn; lia.
Qed.

Lemma flow_zero {A} (f : A -> Z) (l : list A) : (forall x, f x = 0) -> total f l = 0.
Proof. intros Hf. by apply total_zero. Qed.

Lemma batch_alpha_in s s' :
  execute_classified_batch lib n price bs ss s = (Ok tt, s') ->
  flow (alpha_in pallet_account PalletHotkey n) s' = flow (alpha_in pallet_account PalletHotkey n) s + total e_gross ss.
Proof.
  intros [(_ & -> & ->)|(side & out & ta & fees & x & _ & _ & _ & _ & ->)]%(batch_flow (alpha_in pallet_account PalletHotkey n)); [cbn; lia| |done].
  cbv zeta. rewrite (flow_zero (fun e => alpha_in pallet_account PalletHotkey n (collect_buy e)) bs) by done.
  rewrite (flow_zero (fun e => alpha_in pallet_account PalletHotkey n (pay_sell lib _ te price e)) ss) by done.
  rewrite (flow_zero (fun rf => if rf.2 =? 0 then 0 else alpha_in pallet_account PalletHotkey n (MovedTao None pallet_account rf.1 rf.2)) fees)
    by (intros [? y]; simpl; by destruct (y =? 0)).
  rewrite (total_zero (fun e => alpha_in pallet_account PalletHotkey n (pay_buy n _ _ e)) bs).
  2: { intros e He. apply buys_ok in He as [_ He]. simpl. by rewrite bool_decide_eq_false_2 by naive_solver. }
  rewrite (total_ext (fun e => alpha_in pallet_account PalletHotkey n (collect_sell n e)) e_gross).
  2: { intros e _. simpl. by rewrite bool_decide_eq_true_2. }
  destruct (0 <? x), side; simpl; lia.
Qed.
Context (price_ok : 0 <= price <= u128_max).
Context (value_ok : total e_gross ss <= u64_max /\ price * total e_gross ss <= u128_max).

Lemma sold_range : 0 <= total e_gross ss.
Proof. apply total_nonnegative. intros e He. apply sells_ok in He as ([Hg _ _ _ _] & _). lia. Qed.

Lemma te_exact : te = price * total e_gross ss / 2 ^ 64.
Proof. rewrite sold_total. pose proof sold_range. apply alpha_to_tao_exact; lia. Qed.

Lemma equiv_exact e : e ∈ ss -> alpha_to_tao lib (e_net e) price = price * e_net e / 2 ^ 64 /\ 0 <= e_net e.
Proof.
  intros He. pose proof (sells_ok e He) as ([Hg Hn _ _ _] & _ & Heq).
  assert (e_gross e <= total e_gross ss).
  { apply (total_lookup_le e_gross); [|done]. intros x Hx. apply sells_ok in Hx as ([Hgx _ _ _ _] & _). lia. }
  split; [|lia]. apply alpha_to_tao_exact; [lia..| |lia]. rewrite Heq. nia.
Qed.

Lemma sellers_le (tt' : Z) : 0 <= tt' -> total (seller_share lib tt' te price) ss <= tt'.
Proof.
  intros Ht. unfold seller_share. apply (pro_rata_total (fun e => alpha_to_tao lib (e_net e) price)); [done| |].
  - intros e He. destruct (equiv_exact e He) as [-> ?]. apply Z.div_pos; [nia|lia].
  - rewrite (total_ext _ (fun e => price * e_net e / 2 ^ 64)) by (intros e He; by apply equiv_exact).
    rewrite te_exact, <- sold_total, sum_net_total. apply total_div_le. lia.
Qed.

Lemma buyers_le (ta : Z) : 0 <= ta -> total (buyer_share ta (sum_net bs)) bs <= ta.
Proof.
  intros Ht. unfold buyer_share. apply (pro_rata_total e_net); [done| |done].
  intros e He. apply buys_ok in He as [[_ Hn _ _ _] _]. lia.
Qed.

Lemma bought_range : 0 <= sum_net bs.
Proof. rewrite sum_net_total. apply total_nonnegative. intros e He. apply buys_ok in He as [[_ Hn _ _ _] _]. lia. Qed.

Lemma as_u64_le x : 0 <= x -> 0 <= as_u64 x <= x.
Proof. intros Hx. unfold as_u64. split; [apply Z.mod_pos_bound; lia|apply Z.mod_le; lia]. Qed.

(** The alpha that all buyers' TAO is worth, when the sellers dominate. *)
Lemma equiv_range ta u t :
  sum_net bs < te -> (tao_to_alpha lib (sum_net bs) price : Call Z) u = (Ok ta, t) -> 0 <= ta <= total e_gross ss.
Proof.
  intros Hlt Hta. apply tao_to_alpha_le with (y := total e_gross ss) in Hta as [? _];
    [done| |done|apply sold_range|by rewrite <- te_exact].
  pose proof bought_range. rewrite te_exact in Hlt.
  assert (price * total e_gross ss / 2 ^ 64 <= u64_max) by (apply Z.lt_succ_r, Z.div_lt_upper_bound; unfold u128_max, u64_max in *; lia). lia.
Qed.

Lemma batch_tao s s' : execute_classified_batch lib n price bs ss s = (Ok tt, s') -> tao_held s <= tao_held s'.
Proof.
  intros [(_ & _ & ->)|(side & out & ta & fees & x & Hout & Hfees & Hside & Hx & ->)]%(batch_flow (tao_flow pallet_account)); [lia| |done].
  cbv zeta in Hfees |- *. rewrite collected_tao, paid_tao.
  rewrite (flow_zero (fun e => tao_flow pallet_account (collect_sell n e)) ss) by done.
  rewrite (flow_zero (fun e => tao_flow pallet_account (pay_buy n ta (sum_net bs) e)) bs) by done.
  destruct (fees_total _ _ _ Hfees) as [Hn Hle]. pose proof (fees_paid pallet_account _ Hn). unfold is_u64 in Hout.
  pose proof bought_range. set (tt' := total_tao_of side out (sum_net bs) te) in *.
  destruct (seller_split tt' te) as [Hsplit _].
  assert (0 <= te) by (rewrite te_exact; pose proof sold_range; apply Z.div_pos; [nia|lia]).
  assert (Htt : 0 <= tt') by (unfold tt', total_tao_of, saturating_add, u128_max; destruct side; lia).
  pose proof (sellers_le tt' Htt).
  assert (Hswap : total (seller_share lib tt' te price) ss <= sum_net bs +
    (if 0 <? x then tao_flow pallet_account match side with Buy => Bought None pallet_account PalletHotkey n x out
       | Sell => Sold None pallet_account PalletHotkey n x out end else 0)).
  { destruct side; simpl; rewrite (bool_decide_eq_true_2 (pallet_account = pallet_account)) by done; unfold tt', total_tao_of in *.
    - destruct Hside as (? & _ & ->). pose proof (as_u64_le (saturating_sub (sum_net bs) te)). unfold saturating_sub in *.
      destruct (Z.ltb_spec 0 (as_u64 (Z.max 0 (sum_net bs - te)))); lia.
    - destruct Hside as (? & _ & _). unfold saturating_add in *. destruct (Z.ltb_spec 0 x); lia. }
  lia.
Qed.

Lemma batch_alpha s s' : execute_classified_batch lib n price bs ss s = (Ok tt, s') -> alpha_held s <= alpha_held s'.
Proof.
  intros [(_ & _ & ->)|(side & out & ta & fees & x & Hout & Hfees & Hside & Hx & ->)]%(batch_flow (alpha_flow pallet_account PalletHotkey n)); [lia| |done].
  cbv zeta in Hfees |- *. rewrite collected_alpha, paid_alpha. unfold is_u64 in Hout.
  rewrite (flow_zero (fun e => alpha_flow pallet_account PalletHotkey n (collect_buy e)) bs) by done.
  rewrite (flow_zero (fun e => alpha_flow pallet_account PalletHotkey n (pay_sell lib _ te price e)) ss) by done.
  rewrite (flow_zero (fun rf => if rf.2 =? 0 then 0 else alpha_flow pallet_account PalletHotkey n (MovedTao None pallet_account rf.1 rf.2)) fees)
    by (intros [? y]; simpl; by destruct (y =? 0)).
  pose proof sold_range. pose proof bought_range. rewrite sold_total in Hside. destruct side; simpl;
    rewrite (bool_decide_eq_true_2 (pallet_account = pallet_account /\ PalletHotkey = PalletHotkey /\ n = n)) by done.
  - destruct Hside as (? & -> & ->).
    set (ta := saturating_add u128_max out (total e_gross ss)). assert (Hta : 0 <= ta) by (unfold ta, saturating_add, u128_max; lia).
    pose proof (buyers_le ta Hta). assert (ta <= out + total e_gross ss) by (unfold ta, saturating_add; lia).
    match goal with |- context [0 <? ?y] => destruct (Z.ltb_spec 0 y) as [|Hz] end; [lia|]. specialize (Hx Hz). lia.
  - destruct Hside as (Hlt & [u Hta] & ->). apply equiv_range in Hta; [|by rewrite sold_total]. pose proof (buyers_le ta ltac:(lia)).
    pose proof (as_u64_le (saturating_sub (total e_gross ss) ta)). unfold saturating_sub in *.
    destruct (Z.ltb_spec 0 (as_u64 (Z.max 0 (total e_gross ss - ta)))); lia.
Qed.

End accounts.

(** (C7) A batch pays for itself.  When a batch of orders is
    executed, the account of the pallet, which collects the inputs, trades the
    difference and pays the outputs and fees, has not spent more TAO than it took in,
    nor more alpha of the subnet than it took in: whatever the pool answers, no order
    is paid out of what earlier batches or others left there.  This is for orders not
    signed by that account itself, when the alpha sold in the batch and its value at
    the current price fit into 64 bits. *)
Theorem batch_self_financing origin n (orders : list SignedOrder) s s' :
  dispatch lib origin (call_execute_batched_orders n orders) s = (Ok tt, s') ->
  (forall so, so ∈ orders -> in_range so /\ order_signer (order so) <> pallet_account) ->
  outputs_in_range s ->
  exists new, trace s' = trace s ++ new /\
    let sold := total (alpha_in pallet_account PalletHotkey n) new in
    (sold <= u64_max -> current_alpha_price (ledger s) n * sold <= u128_max ->
     0 <= total (tao_flow pallet_account) new /\ 0 <= total (alpha_flow pallet_account PalletHotkey n) new).
Proof.
  intros Hd Hr Ho. unfold dispatch in Hd. minv_step.
  apply execute_batched_orders_ok in Hd as (who & bs & ss & _ & _ & [Hb Hs _] & He & _).
  destruct (batch_rule lib (trace_rule (trace s)) _ _ _ _ _ _ He) as [new Hnew]; [exists []; by rewrite app_nil_r|].
  assert (Hbe : forall e, batch_entry lib s who n orders e -> entry_ok e /\ e_signer e <> pallet_account).
  { intros e (so & Hin & _ & Hv). destruct (Hr so Hin) as [Hr1 Hr2]. split; [by eapply valid_entry_ok|].
    destruct Hv as (? & ? & ? & _ & _ & ->). simpl. by rewrite signer_view. }
  assert (Hb' : forall e, e ∈ bs -> entry_ok e /\ e_signer e <> pallet_account) by (intros e [_ He']%Hb; by apply Hbe).
  assert (Hs' : forall e, e ∈ ss -> entry_ok e /\ e_signer e <> pallet_account /\ e_net e = e_gross e).
  { intros e [Hside [Hok Hne]%Hbe]%Hs. split_and!; [done..|]. by apply (entry_sell _ Hok). }
  assert (Hflow : forall w, total w new = flow w s' - flow w s).
  { intros w. unfold flow. rewrite Hnew, total_append. lia. }
  exists new. split; [done|]. cbv zeta. rewrite !Hflow, (batch_alpha_in n _ bs ss Hb' Hs' _ _ He).
  replace (flow _ s + total e_gross ss - flow _ s) with (total e_gross ss) by lia. intros H1 H2.
  pose proof (batch_tao n _ bs ss Hb' Hs' (price_u128 _ _) (conj H1 H2) _ _ He).
  pose proof (batch_alpha n _ bs ss Hb' Hs' (price_u128 _ _) (conj H1 H2) _ _ He). lia.
Qed.

(** ** What the orders receive *)

(** What an order may spend, [gross], got it [out]: a buy pays its fee out of the
    input and is given alpha within its effective limit for the rest; a sell is given
    a share within its limit, less the fee. *)
Definition within_limit (v : OrderView (AccountId := AccountId) (Hash := Hash)) (gross out : Z) : Prop :=
  let limit := compute_effective_swap_limit lib (is_buy (order_type v)) (limit_price v) (max_slippage v) in
  if is_buy (order_type v)
  then limit = u64_max \/ (gross - mul_floor lib (fee_rate v) gross) * 1000000000 <= out * limit
  else exists share, gross * limit <= share * 1000000000 /\ out = share - mul_floor lib (fee_rate v) share.

(** What an order receives: alpha on its hotkey for a buy, TAO for a sell. *)
Definition output_of (o : VersionedOrder) (tr : Tr) : Z :=
  let v := view o in
  match tr with
  | MovedAlpha (Some j) _ _ tc th m x =>
      if bool_decide (j = derive_order_id lib o /\ tc = signer v /\ th = hotkey v /\ m = netuid v) && is_buy (order_type v)
      then x else 0
  | MovedTao (Some j) _ to x =>
      if bool_decide (j = derive_order_id lib o /\ to = signer v) && negb (is_buy (order_type v)) then x else 0
  | _ => 0
  end.

(** What is taken from the order's owner, in TAO for a buy and in alpha of the position
    for a sell. *)
Definition owner_pays (o : VersionedOrder) (tr : Tr) : Z :=
  let v := view o in
  match tr with
  | MovedTao (Some j) from _ x =>
      if bool_decide (j = derive_order_id lib o /\ from = signer v) && is_buy (order_type v) then x else 0
  | MovedAlpha (Some j) fc fh _ _ m x =>
      if bool_decide (j = derive_order_id lib o /\ fc = signer v /\ fh = hotkey v /\ m = netuid v) &&
         negb (is_buy (order_type v)) then x else 0
  | _ => 0
  end.

Definition entry_good e (out : Z) : Prop :=
  if is_buy (e_side e)
  then e_effective_swap_limit e = u64_max \/ e_net e * 1000000000 <= out * e_effective_swap_limit e
  else exists share, e_net e * e_effective_swap_limit e <= share * 1000000000 /\
    out = share - mul_floor lib (e_fee_rate e) share.

Lemma buyer_good ta tb e : entry_ok e -> is_buy (e_side e) = true -> buyer_ok ta tb e -> entry_good e (buyer_share ta tb e).
Proof.
  intros [Hg Hn _ _ Hl] Hside [Hpos Hlim]. unfold entry_good. rewrite Hside. destruct Hlim as [?|Hlim]; [by left|right].
  pose proof (pro_rata_u64 ta (e_net e) tb). unfold saturating_mul in Hlim. fold (buyer_share ta tb e) in *.
  unfold u128_max, u64_max in *. nia.
Qed.

Lemma seller_good tt' te price e :
  entry_ok e -> is_buy (e_side e) = false -> seller_ok lib tt' te price e -> entry_good e (seller_payout lib tt' te price e).
Proof.
  intros [Hg Hn _ Hr Hl] Hside [Hpos Hlim]. unfold entry_good. rewrite Hside. exists (seller_share lib tt' te price e).
  pose proof (pro_rata_u64 tt' (alpha_to_tao lib (e_net e) price) te) as Hs. fold (seller_share lib tt' te price e) in Hs.
  split; [unfold saturating_mul in Hlim; unfold u128_max, u64_max in *; nia|].
  pose proof (mul_floor_le lib _ _ Hr Hs). unfold seller_payout, saturating_sub, seller_fee. lia.
Qed.

(** What a batch does for the order of the entry [e]. *)
Lemma batch_serves n price bs ss s s' e (o : VersionedOrder) :
  (forall e, e ∈ bs -> entry_ok e /\ is_buy (e_side e) = true) ->
  (forall e, e ∈ ss -> entry_ok e /\ is_buy (e_side e) = false) -> NoDup (e_order_id <$> bs ++ ss) ->
  execute_classified_batch lib n price bs ss s = (Ok tt, s') -> e ∈ bs ++ ss ->
  e_order_id e = derive_order_id lib o -> e_signer e = signer (view o) -> e_hotkey e = hotkey (view o) ->
  e_side e = order_type (view o) -> n = netuid (view o) ->
  exists out new evs, 0 < out /\ entry_good e out /\ trace s' = trace s ++ new /\ events s' = events s ++ evs /\
    total (owner_pays o) new = e_gross e /\ total (output_of o) new = out /\
    OrderExecuted (e_order_id e) (e_signer e) n (e_side e) (e_gross e) out ∈ evs.
Proof.
  intros Hb Hs Hnd He Hin Ei Es Eh Et En.
  destruct (batch_rule lib (trace_rule (trace s)) _ _ _ _ _ _ He) as [new Hnew]; [exists []; by rewrite app_nil_r|].
  apply batch_run_ok in He as [(-> & -> & _)|(side & out & ta & x & [_ _ Hm Hbuyer Hseller (evs & Hev & E1 & E2)])];
    [by apply not_elem_of_nil in Hin|].
  assert (Htot : forall w, (forall who, w (Reaped who) = 0) -> total w new = total w (batch_moves lib n price bs ss side out ta x)).
  { intros w Hw. pose proof (trace_moves w s Hw). pose proof (trace_moves w s' Hw) as Ht. rewrite Hm, Hnew, !total_append in Ht. lia. }
  assert (Hw : forall tr, tag tr <> Some (e_order_id e) -> owner_pays o tr = 0 /\ output_of o tr = 0).
  { intros tr Htag. rewrite Ei in Htag. destruct tr as [| |[j|]|[j|]|]; simpl in *; try done;
      rewrite !bool_decide_eq_false_2 by naive_solver; done. }
  destruct (batch_moves_entry lib n price bs ss side out ta x (owner_pays o) e (fun tr Ht => proj1 (Hw tr Ht)) Hnd) as [P1 P2].
  destruct (batch_moves_entry lib n price bs ss side out ta x (output_of o) e (fun tr Ht => proj2 (Hw tr Ht)) Hnd) as [Q1 Q2].
  cbv zeta in P2, Q2. rewrite <- Htot in P1, P2, Q1, Q2 by done. apply elem_of_app in Hin as [Hin|Hin].
  - destruct (Hb e Hin) as [Hok Hside]. exists (buyer_share ta (sum_net bs) e), new, evs.
    destruct (Hbuyer e Hin) as [Hpos Hlim]. rewrite P1, Q1 by done. simpl. rewrite <- Et, Hside, Ei, Es, Eh, En.
    simpl. rewrite !andb_false_r, !bool_decide_eq_true_2 by done. simpl.
    destruct (E1 e Hin) as [Hx _]. rewrite <- En, <- Ei, <- Es. split_and!; [done|by apply buyer_good|done|done|lia|lia|done].
  - destruct (Hs e Hin) as [Hok Hside]. eexists (seller_payout lib _ _ price e), new, evs.
    destruct (Hseller e Hin) as [Hpos Hlim]. rewrite P2, Q2 by done. simpl. rewrite <- Et, Hside, Ei, Es, Eh, En.
    simpl. rewrite !andb_false_r, !bool_decide_eq_true_2 by done. simpl.
    destruct (E2 e Hin) as [Hx _]. rewrite <- En, <- Ei, <- Es. split_and!; [done|by apply seller_good|done|done|lia|lia|done].
Qed.

(** (C19) A batch that succeeds serves every order in it: for each
    order, of at most a hundred, the full amount it asked for (the fixed one, the share of
    the linked output, or the partial fill) is taken from its owner, and a positive output
    is transferred to the owner, alpha on the hotkey of a buy or TAO of a sell, which
    respects the order's limit price, its slippage tolerance and its fee rate; its event
    reports both amounts. No order of the batch is skipped, paid nothing by rounding, or
    filled beyond its limit because of the netting. *)
Theorem batch_pays_everyone origin n (orders : list SignedOrder) s s' :
  dispatch lib origin (call_execute_batched_orders n orders) s = (Ok tt, s') ->
  (length orders <= LimitOrdersMaxOrdersPerBatch)%nat ->
  (forall so, so ∈ orders -> in_range so) -> outputs_in_range s ->
  forall so, so ∈ orders -> let v := view (order so) in
    exists full provider out new evs, let gross := default full (partial_fill so) in
      resolves lib s v full provider /\ 0 < out /\ within_limit v gross out /\
      trace s' = trace s ++ new /\ total (owner_pays (order so)) new = gross /\ total (output_of (order so)) new = out /\
      events s' = events s ++ evs /\
      OrderExecuted (derive_order_id lib (order so)) (signer v) n (order_type v) gross out ∈ evs.
Proof.
  intros Hd Hlen Hr Ho so Hso v. unfold dispatch in Hd. minv_step.
  apply execute_batched_orders_ok in Hd as (who & bs & ss & _ & _ & [Hb Hs Hnd] & He & Hall).
  assert (Hbe : forall e, batch_entry lib s who n orders e -> entry_ok e).
  { intros e (so' & Hin & _ & Hv). by eapply valid_entry_ok; [apply Hr| |]. }
  destruct (Hall Hlen so Hso) as (e & Hin & Hv & Hn).
  assert (Hok : entry_ok e) by (eapply valid_entry_ok; [by apply Hr|done|done]).
  apply valid_entry_facts in Hv as (_ & _ & _ & _ & _ & _ & Hres & _ & Heq). fold v in Hres, Heq.
  apply (batch_serves n _ bs ss s s' e (order so)) in He as (out & new & evs & Hpos & Hgood & Ht & Hev & Hp & Hq & Hx); try done;
    [|intros y [? ?%Hbe]%Hb; done|intros y [? ?%Hbe]%Hs; done|by rewrite Heq..].
  exists (e_order_amount e), (e_provider e), out, new, evs. cbv zeta.
  destruct Hok as [Hg _ _ Hrate _]. revert Hgood Hg Hrate Hp Hx. rewrite Heq. unfold entry_good, within_limit. simpl.
  intros Hgood Hg Hrate Hp Hx. split_and!; try done. destruct (is_buy (order_type v)); [|done].
  destruct Hgood as [?|Hgood]; [by left|right]. unfold saturating_sub in Hgood.
  pose proof (mul_floor_le lib _ _ Hrate Hg). lia.
Qed.
End batch.
