(* ===== verification/LimitOrdersReadable.v ===== *)
(** * Limit orders: the message that a wallet shows

    A signature over the readable message of an order is a signature over that
    order ([readable_message_binds_order]): the rendering loses nothing that is in
    the order, and the bytes that are signed in this form are not those of another
    form. *)

From Stdlib Require Import ZArith Lia Ascii String Strings.Byte.
From stdpp Require Import base gmap list strings pretty.
From S2P Require Import Prelude LimitOrders.

Local Open Scope string_scope.
Local Open Scope Z_scope.

(** ** Words and separators *)

Definition is_alnum (c : ascii) : bool :=
  let n := N_of_ascii c in
  ((48 <=? n) && (n <=? 57) || (65 <=? n) && (n <=? 90) || (97 <=? n) && (n <=? 122))%N%bool.

Fixpoint all_chars (f : ascii -> bool) (w : string) : bool :=
  match w with EmptyString => true | String c w => f c && all_chars f w end.

Lemma all_chars_app f w1 w2 : all_chars f (w1 +:+ w2) = all_chars f w1 && all_chars f w2.
Proof. induction w1 as [|c w1 IH]; [done|]. simpl. by rewrite IH, andb_assoc. Qed.

Lemma all_chars_impl (f g : ascii -> bool) w :
  (forall c, f c = true -> g c = true) -> all_chars f w = true -> all_chars g w = true.
Proof. intros Hfg. induction w as [|c w IH]; [done|]. cbn. intros [?%Hfg ?%IH]%andb_prop. by apply andb_true_intro. Qed.

(** Two texts that begin with a word that has no [c] and go on with [c] begin with the
    same word. *)
Lemma word_split f c w1 w2 r1 r2 :
  f c = false -> all_chars f w1 = true -> all_chars f w2 = true ->
  w1 +:+ String c r1 = w2 +:+ String c r2 -> w1 = w2 /\ r1 = r2.
Proof.
  intros Hc. revert w2. induction w1 as [|d w1 IH]; intros [|d2 w2]; cbn; intros H1 H2 Heq.
  - by injection Heq.
  - injection Heq as -> _. by rewrite Hc in H2.
  - injection Heq as <- _. by rewrite Hc in H1.
  - injection Heq as -> Heq. apply andb_prop in H1 as [_ H1], H2 as [_ H2]. by destruct (IH _ H1 H2 Heq) as [-> ->].
Qed.

Lemma word_end f c w1 w2 r : f c = false -> all_chars f w1 = true -> w1 <> w2 +:+ String c r.
Proof. intros Hc Hw ->. rewrite all_chars_app in Hw. apply andb_prop in Hw as [_ Hw]. cbn in Hw. by rewrite Hc in Hw. Qed.

Lemma field_split f c l w1 w2 r1 r2 :
  f c = false -> all_chars f w1 = true -> all_chars f w2 = true ->
  w1 +:+ (String c l +:+ r1) = w2 +:+ (String c l +:+ r2) -> w1 = w2 /\ r1 = r2.
Proof.
  intros Hc H1 H2 Heq. cbn [String.append] in Heq. apply (word_split f) in Heq as [-> Heq]; [|done..].
  split; [done|]. by apply (inj (String.append l)) in Heq.
Qed.

Lemma length_text w1 w2 : String.length (w1 +:+ w2) = (String.length w1 + String.length w2)%nat.
Proof. induction w1 as [|c w1 IH]; [done|]. change (S (String.length (w1 +:+ w2)) = S (String.length w1 + String.length w2)). by rewrite IH. Qed.

Lemma text_assoc w1 w2 w3 : (w1 +:+ w2) +:+ w3 = w1 +:+ (w2 +:+ w3).
Proof. induction w1 as [|c w1 IH]; [done|]. change (String c ((w1 +:+ w2) +:+ w3) = String c (w1 +:+ (w2 +:+ w3))). by rewrite IH. Qed.

Lemma text_nil w : w +:+ EmptyString = w.
Proof. induction w as [|c w IH]; [done|]. change (String c (w +:+ EmptyString) = String c w). by rewrite IH. Qed.

(** ** Numbers and bytes *)

Lemma number_chars (f : ascii -> bool) x :
  (forall n, f (pretty_N_char n) = true) -> all_chars f (render_number x) = true.
Proof.
  intros Hf. unfold render_number, pretty, pretty_N. case_decide; [simpl; specialize (Hf 0%N); simpl in Hf; by rewrite Hf|].
  generalize (Z.to_N x). intros n. assert (Hw : all_chars f EmptyString = true) by done.
  revert Hw. generalize EmptyString. induction (N.lt_wf_0 n) as [n _ IH]; intros w Hw. destruct (decide (0 < n)%N) as [Hn|Hn].
  - rewrite pretty_N_go_step by done. apply IH; [by apply N.div_lt|]. simpl. by rewrite Hf.
  - by replace n with 0%N by lia.
Qed.

Lemma number_alnum x : all_chars is_alnum (render_number x) = true.
Proof. apply number_chars. intros n. unfold pretty_N_char. by repeat case_match. Qed.

Lemma number_inj x y : 0 <= x -> 0 <= y -> render_number x = render_number y -> x = y.
Proof. unfold render_number. intros Hx Hy Heq%(inj pretty). lia. Qed.

Lemma hex_digits (n : N) :
  (n < 16)%N -> exists d, hex_digit n = String d EmptyString /\ is_alnum d = true.
Proof. intros Hn. destruct n as [|p]; [by eexists|]. do 4 (destruct p as [p|p|]; try (by eexists)); lia. Qed.

Lemma hex_digit_inj (n m : N) : (n < 16)%N -> (m < 16)%N -> hex_digit n = hex_digit m -> n = m.
Proof.
  intros Hn Hm. assert (Hc : forallb (fun i => forallb (fun j => bool_decide (hex_digit i = hex_digit j -> i = j))
    (N.of_nat <$> seq 0 16)) (N.of_nat <$> seq 0 16) = true) by (by vm_compute).
  assert (Hin : forall k, (k < 16)%N -> In k (N.of_nat <$> seq 0 16)).
  { intros k Hk. apply list_elem_of_In, list_elem_of_fmap. exists (N.to_nat k). rewrite N2Nat.id, elem_of_seq. split; [done|lia]. }
  rewrite forallb_forall in Hc. specialize (Hc n (Hin n Hn)). rewrite forallb_forall in Hc.
  specialize (Hc m (Hin m Hm)). by apply bool_decide_eq_true_1 in Hc.
Qed.

Lemma byte_halves b : (Byte.to_N b / 16 < 16)%N /\ (Byte.to_N b `mod` 16 < 16)%N.
Proof. pose proof (Byte.to_N_bounded b). split; [apply N.Div0.div_lt_upper_bound; lia|by apply N.mod_lt]. Qed.

Lemma hex_alnum l : all_chars is_alnum (render_hex l) = true.
Proof.
  induction l as [|b l IH]; [done|]. cbn [render_hex]. destruct (byte_halves b) as [H1 H2].
  destruct (hex_digits _ H1) as (c & -> & Hc), (hex_digits _ H2) as (d & -> & Hd). rewrite !all_chars_app, IH. cbn [all_chars]. by rewrite Hc, Hd.
Qed.

Lemma hex_inj l1 l2 : render_hex l1 = render_hex l2 -> l1 = l2.
Proof.
  revert l2. induction l1 as [|b1 l1 IH]; intros [|b2 l2]; cbn [render_hex]; [done|..].
  { destruct (byte_halves b2) as [H1 _]. by destruct (hex_digits _ H1) as (c & -> & _). }
  { destruct (byte_halves b1) as [H1 _]. by destruct (hex_digits _ H1) as (c & -> & _). }
  destruct (byte_halves b1) as [H1 H2], (byte_halves b2) as [H3 H4].
  destruct (hex_digits _ H1) as (c1 & E1 & _), (hex_digits _ H2) as (d1 & E2 & _),
    (hex_digits _ H3) as (c2 & E3 & _), (hex_digits _ H4) as (d2 & E4 & _).
  rewrite E1, E2, E3, E4. cbn. intros [= -> -> ->%IH]. f_equal.
  assert (Hd : (Byte.to_N b1 / 16 = Byte.to_N b2 / 16)%N) by (apply hex_digit_inj; congruence).
  assert (Hm : (Byte.to_N b1 `mod` 16 = Byte.to_N b2 `mod` 16)%N) by (apply hex_digit_inj; congruence).
  assert (Byte.to_N b1 = Byte.to_N b2) as He by (rewrite (N.div_mod (Byte.to_N b1) 16), (N.div_mod (Byte.to_N b2) 16) by done; congruence).
  apply (f_equal Byte.of_N) in He. rewrite !Byte.of_to_N in He. congruence.
Qed.

Lemma bool_alnum b : all_chars is_alnum (render_bool b) = true.
Proof. by destruct b. Qed.
Lemma bool_inj b c : render_bool b = render_bool c -> b = c.
Proof. by destruct b, c. Qed.

Lemma slippage_alnum p : all_chars is_alnum (render_slippage p) = true.
Proof. destruct p; [apply number_alnum|done]. Qed.

Lemma slippage_inj p q :
  match p with Some x => 0 <= x | None => True end -> match q with Some x => 0 <= x | None => True end ->
  render_slippage p = render_slippage q -> p = q.
Proof.
  assert (Hn : forall x, render_number x <> "none").
  { intros x Hx. assert (Hd := number_chars (fun c => N_of_ascii c <=? 57)%N x). rewrite Hx in Hd.
    discriminate Hd. intros n. unfold pretty_N_char. by repeat case_match. }
  destruct p as [x|], q as [y|]; simpl; intros Hx Hy; [by intros ->%number_inj|by intros ?%Hn|by intros ?%eq_sym%Hn|done].
Qed.

Section readable.
Context {AccountId Hash Signature Commitment : Type}.
Context (lib : Libraries (AccountId := AccountId) (Hash := Hash) (Signature := Signature)
  (Commitment := Commitment)).
Implicit Types (o : VersionedOrder (AccountId := AccountId) (Hash := Hash)).
Implicit Types (v : OrderView (AccountId := AccountId) (Hash := Hash)).

(** An address is a word of letters and digits, longer than the word [none], that
    determines the account; a hash has 32 bytes, which determine it. *)
Class AddressLaws : Prop := {
  ss58_inj : Inj (=) (=) (to_ss58check lib);
  ss58_alnum who : all_chars is_alnum (to_ss58check lib who) = true;
  ss58_long who : (4 < String.length (to_ss58check lib who))%nat;
  as_bytes_inj : Inj (=) (=) (as_bytes lib);
  as_bytes_length i : List.length (as_bytes lib i) = 32%nat;
}.
Context {laws : AddressLaws}.
#[local] Existing Instances ss58_inj as_bytes_inj.

(** Numbers of an unsigned type. *)
Record unsigned v : Prop := {
  unsigned_amount : match amount v with Fixed x => 0 <= x | LinkedPercentage _ p => 0 <= p end;
  unsigned_netuid : 0 <= netuid v;
  unsigned_limit : 0 <= limit_price v;
  unsigned_expiry : 0 <= expiry v;
  unsigned_fee : 0 <= fee_rate v;
  unsigned_slippage : match max_slippage v with Some x => 0 <= x | None => True end;
  unsigned_chain : 0 <= chain_id v;
  unsigned_nonce : match authorization_nonce v with Some x => 0 <= x | None => True end;
}.

Lemma account_inj a b : render_account lib a = render_account lib b -> a = b.
Proof. apply inj, _. Qed.

Definition not_comma (c : ascii) : bool := negb (bool_decide (c = ","%char)).

Lemma alnum_not_comma w : all_chars is_alnum w = true -> all_chars not_comma w = true.
Proof. apply all_chars_impl. intros c Hc. unfold not_comma. by case_bool_decide as Hd; [rewrite Hd in Hc|]. Qed.

Lemma render_list_cons a b l : render_list lib (a :: b :: l) = render_account lib a +:+ ("+" +:+ render_list lib (b :: l)).
Proof. done. Qed.

Lemma list_not_comma l : all_chars not_comma (render_list lib l) = true.
Proof.
  induction l as [|a l IH]; [done|]. assert (Ha := alnum_not_comma _ (ss58_alnum a)). destruct l as [|b l]; [done|].
  rewrite render_list_cons, !all_chars_app, IH. unfold render_account. by rewrite Ha.
Qed.

Lemma relayer_not_comma r : all_chars not_comma (render_relayer lib r) = true.
Proof. destruct r as [[|a l]|]; [done| |done]. apply list_not_comma. Qed.

Lemma render_list_inj l1 l2 : l1 <> [] -> l2 <> [] -> render_list lib l1 = render_list lib l2 -> l1 = l2.
Proof.
  revert l2. induction l1 as [|a l1 IH]; intros [|b l2] Hl1 Hl2; [done..|].
  destruct l1 as [|a' l1], l2 as [|b' l2]; rewrite ?render_list_cons; intros Heq.
  - by apply account_inj in Heq as ->.
  - exfalso. eapply (word_end is_alnum); [| |exact Heq]; [done|apply ss58_alnum].
  - exfalso. symmetry in Heq. eapply (word_end is_alnum); [| |exact Heq]; [done|apply ss58_alnum].
  - apply (field_split is_alnum) in Heq as [->%account_inj Heq]; [|done|apply ss58_alnum..]. f_equal. by apply IH.
Qed.

(** A list of addresses is not one of the two special words. *)
Lemma render_list_word a l : render_list lib (a :: l) <> "none" /\ render_list lib (a :: l) <> "[]".
Proof.
  assert (Hl : (4 < String.length (render_list lib (a :: l)))%nat).
  { destruct l as [|b l]; [apply ss58_long|]. rewrite render_list_cons, length_text. pose proof (ss58_long a). unfold render_account. lia. }
  split; intros Heq; rewrite Heq in Hl; simpl in Hl; lia.
Qed.

Lemma relayer_inj r1 r2 : render_relayer lib r1 = render_relayer lib r2 -> r1 = r2.
Proof.
  destruct r1 as [[|a l]|], r2 as [[|b k]|]; cbn [render_relayer]; try done;
    try (by intros ?%render_list_word); try (by intros ?%eq_sym%render_list_word).
  intros Heq. by apply render_list_inj in Heq as ->.
Qed.

(** ** Amounts *)

Lemma amount_split (a1 a2 : OrderAmount (Hash := Hash)) r1 r2 :
  match a1 with Fixed x => 0 <= x | LinkedPercentage _ p => 0 <= p end ->
  match a2 with Fixed x => 0 <= x | LinkedPercentage _ p => 0 <= p end ->
  render lib a1 +:+ (" on subnet " +:+ r1) = render lib a2 +:+ (" on subnet " +:+ r2) -> a1 = a2 /\ r1 = r2.
Proof.
  assert (Hn := number_alnum). assert (Hh := hex_alnum).
  destruct a1 as [x|p1 x], a2 as [y|p2 y]; cbn [render]; intros Hx Hy; rewrite ?text_assoc; intros Heq.
  - apply (field_split is_alnum) in Heq as [->%number_inj ->]; done.
  - apply (word_split is_alnum " "%char) in Heq as [_ Heq]; [discriminate Heq|done..].
  - apply (word_split is_alnum " "%char) in Heq as [_ Heq]; [discriminate Heq|done..].
  - apply (field_split is_alnum) in Heq as [->%number_inj Heq]; [|done..].
    apply (field_split is_alnum) in Heq as [->%hex_inj%(inj (as_bytes lib)) Heq]; [|done..].
    by apply (inj (String.append " on subnet ")) in Heq.
Qed.

Lemma type_split (t1 t2 : OrderType) r1 r2 : label t1 +:+ (" " +:+ r1) = label t2 +:+ (" " +:+ r2) -> t1 = t2 /\ r1 = r2.
Proof.
  destruct t1, t2; intros Heq; try discriminate Heq; (split; [done|]);
    (apply (inj (String.append _)), (inj (String.append _)) in Heq; exact Heq).
Qed.

(** ** Orders *)

Lemma version_alnum o : all_chars is_alnum (version_tag o) = true.
Proof. by destruct o. Qed.

Lemma tail_split o1 o2 (a1 a2 : AccountId) :
  unsigned (view o1) -> unsigned (view o2) -> version_tag o1 = version_tag o2 ->
  render_account lib a1 +:+ render_tail o1 = render_account lib a2 +:+ render_tail o2 ->
  a1 = a2 /\ authorization_nonce (view o1) = authorization_nonce (view o2) /\
  has_linked_order (view o1) = has_linked_order (view o2).
Proof.
  intros [_ _ _ _ _ _ _ Hn1] [_ _ _ _ _ _ _ Hn2].
  assert (Hn := number_alnum). assert (Ha := ss58_alnum : forall a, all_chars is_alnum (render_account lib a) = true).
  destruct o1 as [o1|o1|n1 t1], o2 as [o2|o2|n2 t2]; intros Hv; try discriminate Hv; cbn [render_tail]; intros Heq.
  - rewrite !text_nil in Heq. by apply account_inj in Heq as ->.
  - apply (field_split is_alnum) in Heq as [->%account_inj Hb%bool_inj]; [|done..]. by simpl.
  - apply (field_split is_alnum) in Heq as [->%account_inj Heq]; [|done..].
    apply (field_split is_alnum) in Heq as [->%number_inj Hb%bool_inj]; [|done..]. by split_and!.
Qed.

Lemma render_order_view o1 o2 :
  unsigned (view o1) -> unsigned (view o2) -> render_order lib o1 = render_order lib o2 ->
  version_tag o1 = version_tag o2 /\ view o1 = view o2.
Proof.
  intros U1 U2. assert (Ut := tail_split o1 o2 (signer (view o1)) (signer (view o2)) U1 U2).
  destruct U1 as [Ua1 Un1 Ul1 Ue1 Uf1 Us1 Uc1 _], U2 as [Ua2 Un2 Ul2 Ue2 Uf2 Us2 Uc2 _].
  assert (Hn := number_alnum). assert (Hb := bool_alnum). assert (Hs := slippage_alnum).
  assert (Ha := ss58_alnum : forall a, all_chars is_alnum (render_account lib a) = true). assert (Hc := relayer_not_comma).
  unfold render_order. cbv zeta. destruct (view o1) eqn:E1, (view o2) eqn:E2. simpl in *. intros Heq.
  apply (inj (String.append "TAO.com order ")) in Heq.
  apply (field_split is_alnum) in Heq as [Hv Heq]; [|done|apply version_alnum..]. split; [done|].
  apply type_split in Heq as [-> Heq]. apply amount_split in Heq as [-> Heq]; [|done..].
  apply (field_split is_alnum) in Heq as [->%number_inj Heq]; [|done..].
  apply (inj (String.append _)), (inj (String.append " ")) in Heq.
  apply (field_split is_alnum) in Heq as [->%number_inj Heq]; [|done..].
  apply (field_split is_alnum) in Heq as [->%number_inj Heq]; [|done..].
  apply (field_split is_alnum) in Heq as [->%account_inj Heq]; [|done..].
  apply (field_split is_alnum) in Heq as [->%number_inj Heq]; [|done..].
  apply (field_split is_alnum) in Heq as [->%account_inj Heq]; [|done..].
  apply (field_split not_comma) in Heq as [->%relayer_inj Heq]; [|done..].
  apply (field_split is_alnum) in Heq as [->%slippage_inj Heq]; [|done..].
  apply (field_split is_alnum) in Heq as [->%number_inj Heq]; [|done..].
  apply (field_split is_alnum) in Heq as [->%bool_inj Heq]; [|done..].
  by destruct (Ut Hv Heq) as (-> & -> & ->).
Qed.

Lemma view_order o1 o2 : is_authorized o1 = false -> version_tag o1 = version_tag o2 -> view o1 = view o2 -> o1 = o2.
Proof. destruct o1 as [[]|[]|], o2 as [[]|[]|]; try done; intros _ _ Hv; simpl in Hv; by simplify_eq. Qed.

Lemma envelope_inj p q : bytes_envelope p = bytes_envelope q -> p = q.
Proof. unfold bytes_envelope. intros Heq%(inj (app _)). by apply app_inv_tail in Heq. Qed.

Lemma envelope_length p : List.length (bytes_envelope p) = (15 + List.length p)%nat.
Proof. unfold bytes_envelope. rewrite !length_app. simpl. lia. Qed.

Lemma bytes_length w : List.length (list_byte_of_string w) = String.length w.
Proof. unfold list_byte_of_string. rewrite length_map. induction w as [|c w IH]; [done|]. simpl. by rewrite IH. Qed.

Lemma bytes_inj w1 w2 : list_byte_of_string w1 = list_byte_of_string w2 -> w1 = w2.
Proof. intros Heq%(f_equal string_of_list_byte). by rewrite !string_of_list_byte_of_string in Heq. Qed.

Lemma render_order_long o : (40 < String.length (render_order lib o))%nat.
Proof. unfold render_order. cbv zeta. rewrite !length_text. simpl. lia. Qed.

(** (C18) What a wallet shows is one order, and what it signs in
    readable form is what it shows.  Two orders with the same readable text agree in every
    field that is read when they are executed, and are the same order unless they are ones
    that an account approves in a call instead of signing.  Two orders with the same bytes
    to be signed agree in the same way, except when both texts are too long to be signed
    as they are, differ, and the hash that replaces them happens to be the same for these
    two texts.  And these bytes are never those that are signed in the wrapped form of an
    order identifier. *)
Theorem readable_message_binds_order o1 o2 :
  let payload := fun o => bytes_envelope (list_byte_of_string (render_order lib o)) in
  let same := view o1 = view o2 /\ (is_authorized o1 = false -> o1 = o2) in
  unsigned (view o1) -> unsigned (view o2) ->
  (render_order lib o1 = render_order lib o2 -> same) /\
  (readable_bytes lib o1 = readable_bytes lib o2 -> same \/
   (LEDGER_MAX_SIGN_SIZE < List.length (payload o1))%nat /\ (LEDGER_MAX_SIGN_SIZE < List.length (payload o2))%nat /\
   payload o1 <> payload o2 /\ blake2_256 lib (payload o1) = blake2_256 lib (payload o2)) /\
  forall i, readable_bytes lib o1 <> bytes_envelope (as_bytes lib i).
Proof.
  intros payload same U1 U2. assert (Hl := render_order_long).
  assert (Hsame : render_order lib o1 = render_order lib o2 -> same).
  { intros Hr. destruct (render_order_view _ _ U1 U2 Hr) as [Hv Hview]. split; [done|]. intros Hna. by apply view_order. }
  split_and!; [done| |].
  - intros Heq. destruct (decide (render_order lib o1 = render_order lib o2)) as [Hr|Hr]; [by left; apply Hsame|].
    assert (Hne : payload o1 <> payload o2) by (by intros ?%envelope_inj%bytes_inj).
    right. unfold readable_bytes in Heq. cbv zeta in Heq. repeat case_bool_decide.
    + apply (inj (as_bytes lib)) in Heq. by split_and!.
    + apply (f_equal List.length) in Heq. rewrite as_bytes_length, envelope_length, bytes_length in Heq. specialize (Hl o2). lia.
    + apply (f_equal List.length) in Heq. rewrite as_bytes_length, envelope_length, bytes_length in Heq. specialize (Hl o1). lia.
    + done.
  - intros i Heq. apply (f_equal List.length) in Heq. rewrite envelope_length, as_bytes_length in Heq.
    unfold readable_bytes in Heq. cbv zeta in Heq. case_bool_decide; [by rewrite as_bytes_length in Heq|].
    rewrite envelope_length, bytes_length in Heq. specialize (Hl o1). lia.
Qed.
End readable.
