(* ===== verification/LimitOrdersExample.v ===== *)
(** * Limit orders: a concrete chain

    Instances of the classes and records of LimitOrders.v: a ledger of balances and
    stakes with a pool that trades one TAO for one alpha, an encoding of orders that
    loses nothing, with the identity as hash, and signatures that name their message
    and signer.  On them the theorems of LimitOrdersSafety.v, LimitOrdersBatch.v and
    LimitOrdersReadable.v are applied. *)

From Stdlib Require Import ZArith Lia Ascii Strings.String Strings.Byte.
From stdpp Require Import base gmap list fin_maps strings pretty relations countable.
From S2P Require Import Prelude LimitOrders LimitOrdersLogic LimitOrdersMoves LimitOrdersSafety LimitOrdersBatch LimitOrdersReadable.

(** ** Encoding *)

Fixpoint bits (p : positive) : list byte :=
  match p with xO p => x00 :: bits p | xI p => x01 :: bits p | xH => [] end.
Fixpoint of_bits (l : list byte) : positive :=
  match l with [] => xH | b :: l => (if Byte.eqb b x00 then xO else xI) (of_bits l) end.

Lemma of_bits_bits p : of_bits (bits p) = p.
Proof. induction p as [p IH|p IH|]; simpl; by rewrite ?IH. Qed.

Lemma of_bits_prefix l p q : of_bits (l ++ bits p) = of_bits (l ++ bits q) -> p = q.
Proof.
  induction l as [|b l IH]; simpl; [by rewrite !of_bits_bits|].
  intros Heq. apply IH. destruct (Byte.eqb b x00); by injection Heq.
Qed.

Abbreviation OrderX := (VersionedOrder (AccountId := N) (Hash := positive)).

Abbreviation code := countable.encode.

Definition type_code (t : OrderType) : Z := match t with LimitBuy => 0 | TakeProfit => 1 | StopLoss => 2 end.
Definition amount_code (a : OrderAmount (Hash := positive)) : Z + positive * Z :=
  match a with Fixed x => inl x | LinkedPercentage p pct => inr (p, pct) end.

Definition fields1 (o : Order (AccountId := N)) : list positive :=
  [code (o_signer o); code (o_hotkey o); code (o_netuid o); code (type_code (o_order_type o));
   code (o_amount o); code (o_limit_price o); code (o_expiry o); code (o_fee_rate o);
   code (o_fee_recipient o); code (o_relayer o); code (o_max_slippage o); code (o_chain_id o);
   code (o_partial_fills_enabled o)].
Definition fields2 (o : OrderV2 (AccountId := N) (Hash := positive)) : list positive :=
  [code (o2_signer o); code (o2_hotkey o); code (o2_netuid o); code (type_code (o2_order_type o));
   code (amount_code (o2_amount o)); code (o2_limit_price o); code (o2_expiry o); code (o2_fee_rate o);
   code (o2_fee_recipient o); code (o2_relayer o); code (o2_max_slippage o); code (o2_chain_id o);
   code (o2_partial_fills_enabled o); code (o2_has_linked_order o)].
Definition fields (o : OrderX) : list positive :=
  match o with
  | V1 o => 1%positive :: fields1 o
  | V2 o => 2%positive :: fields2 o
  | Authorized n (TermsV1 o) => 3%positive :: code n :: fields1 o
  | Authorized n (TermsV2 o) => 4%positive :: code n :: fields2 o
  end.

Lemma type_code_inj t u : type_code t = type_code u -> t = u.
Proof. by destruct t, u. Qed.
Lemma amount_code_inj a b : amount_code a = amount_code b -> a = b.
Proof. destruct a, b; simpl; congruence. Qed.

Lemma cons_code `{Countable A} (x y : A) l k : code x :: l = code y :: k -> x = y /\ l = k.
Proof. by intros [= ?%(inj code) ?]. Qed.

(** Reads the fields of two equal lists of codes off, one by one. *)
Ltac read_fields Heq :=
  repeat (let Hf := fresh "Hf" in apply cons_code in Heq as [Hf Heq]).

Lemma fields1_inj o o' : fields1 o = fields1 o' -> o = o'.
Proof.
  destruct o, o'. unfold fields1. cbn -[countable.encode type_code]. intros Heq. read_fields Heq. f_equal; try done. by apply type_code_inj.
Qed.
Lemma fields2_inj o o' : fields2 o = fields2 o' -> o = o'.
Proof.
  destruct o, o'. unfold fields2. cbn -[countable.encode type_code amount_code]. intros Heq. read_fields Heq.
  f_equal; try done; [by apply type_code_inj|by apply amount_code_inj].
Qed.

Lemma fields_inj o o' : fields o = fields o' -> o = o'.
Proof.
  destruct o as [o|o|n [o|o]], o' as [o'|o'|n' [o'|o']]; cbn [fields]; intros Heq; try discriminate Heq;
    apply (f_equal (drop 1)) in Heq; cbn [drop] in Heq; try apply cons_code in Heq as [-> Heq];
    (apply fields1_inj in Heq || apply fields2_inj in Heq); by subst.
Qed.

(** ** The libraries *)

Definition address (who : N) : string := "account" +:+ pretty who.

(** A signature holds the message and the account that signed it. *)
Definition lib_ex : Libraries (AccountId := N) (Hash := positive) (Signature := positive * N)
    (Commitment := positive) := {|
  mul_floor p x := p * x / 1000000000;
  fixed_mul a b := Z.min u128_max (a * b / 2 ^ 64);
  fixed_div a b := if a * 2 ^ 64 / b <=? u128_max then Some (a * 2 ^ 64 / b) else None;
  encode o := x00 :: bits (positives_flatten (fields o));
  encode_terms g who n o := bits (positives_flatten (g :: code who :: code n :: fields o));
  blake2_256 := of_bits;
  as_bytes := bits;
  shake256 := of_bits;
  multi_verify sig message who :=
    match sig with
    | MultiEd25519 sig | MultiSr25519 sig | MultiEcdsa sig => bool_decide (sig = (of_bits message, who))
    end;
  to_ss58check := address;
|}.

(** ** The ledger *)

(** Balances, and stakes on subnet 1 by coldkey and hotkey. *)
Record Accounts : Type := mkAccounts { taos : gmap N Z; stakes : gmap (N * N) Z }.
Definition tao_of (l : Accounts) (who : N) : Z := default 0 (taos l !! who).
Definition stake_of (l : Accounts) (who hot : N) : Z := default 0 (stakes l !! (who, hot)).
Definition add_tao (who : N) (x : Z) (l : Accounts) : Accounts :=
  mkAccounts (<[who := tao_of l who + x]> (taos l)) (stakes l).
Definition add_stake (who hot : N) (x : Z) (l : Accounts) : Accounts :=
  mkAccounts (taos l) (<[(who, hot) := stake_of l who hot + x]> (stakes l)).

(** An account with nothing left is reaped. *)
Definition dead (l : Accounts) (who : N) : list N := if tao_of l who =? 0 then [who] else [].
Definition payable (x balance : Z) : bool := (0 <=? x) && (x <=? u64_max) && (x <=? balance).

#[local] Instance swap_ex : OrderSwapInterface (AccountId := N) (OtherError := unit) (Ledger := Accounts) := {|
  buy_alpha c h n x _ _ l :=
    if payable x (tao_of l c)
    then let l := add_stake c h x (add_tao c (- x) l) in Ok (x, l, dead l c) else Err ();
  sell_alpha c h n x _ _ l :=
    if payable x (stake_of l c h) then Ok (x, add_tao c x (add_stake c h (- x) l), []) else Err ();
  transfer_tao from to x l :=
    if payable x (tao_of l from)
    then let l := add_tao to x (add_tao from (- x) l) in Ok ((), l, dead l from) else Err ();
  transfer_staked_alpha fc fh tc th n x _ _ l :=
    if payable x (stake_of l fc fh) then Ok ((), add_stake tc th x (add_stake fc fh (- x) l), []) else Err ();
  register_pallet_hotkey _ _ l := Ok ((), l, []);
  current_alpha_price _ n := if n =? 1 then 2 ^ 64 else 0;
  pallet_hotkey_registered _ _ _ := true;
|}.

#[local] Instance config_ex : Config (AccountId := N) (Hash := positive) (Ledger := Accounts) := {|
  is_protected _ _ := false;
  swap_announced _ _ := false;
  swap_disputed _ _ := false;
  providers l who := if 0 <? tao_of l who then 1 else 0;
  sufficients _ _ := 0;
  ChainId _ := 945;
  genesis_hash := 1%positive;
  pallet_account := 100%N;
  PalletHotkey := 101%N;
|}.

#[local] Instance laws_ex : LibraryLaws lib_ex.
Proof. by split. Qed.

#[local] Instance types_ex : InterfaceTypes (AccountId := N) (OtherError := unit) (Ledger := Accounts).
Proof.
  assert (Hp : forall x b, payable x b = true -> is_u64 x) by (unfold payable, is_u64; lia).
  split; simpl; unfold u128_max; intros; repeat case_match; simplify_eq; try done; try lia; by eapply Hp.
Qed.

(** ** Different orders have different ids *)

Lemma flatten_inj l k : positives_flatten l = positives_flatten k -> l = k.
Proof. intros Heq%(f_equal positives_unflatten). rewrite !positives_unflatten_flatten in Heq. congruence. Qed.

Lemma signed_id o : authorized_terms o = None -> derive_order_id lib_ex o = xO (positives_flatten (fields o)).
Proof. intros Ho. unfold derive_order_id. rewrite Ho. cbn [blake2_256 lib_ex encode of_bits]. by rewrite of_bits_bits. Qed.

Lemma approved_id n (terms : OrderTerms (AccountId := N) (Hash := positive)) :
  exists l, derive_order_id lib_ex (Authorized n terms) = xI (of_bits (l ++ bits (positives_flatten
    (genesis_hash :: code (order_signer (versioned terms)) :: code n :: fields (versioned terms))))) /\
    ORDER_ID_DOMAIN = x62 :: l.
Proof.
  assert (exists l, ORDER_ID_DOMAIN = x62 :: l) as [l Hl] by (vm_compute; eauto). exists l. split; [|done].
  unfold derive_order_id, derive_authorized_order_id. cbn [authorized_terms blake2_256 lib_ex encode_terms]. by rewrite Hl.
Qed.

Lemma versioned_inj (t u : OrderTerms (AccountId := N) (Hash := positive)) : versioned t = versioned u -> t = u.
Proof. destruct t, u; simpl; congruence. Qed.

Lemma ids_differ o o' : derive_order_id lib_ex o' = derive_order_id lib_ex o -> o' = o.
Proof.
  destruct (authorized_terms o) as [p|] eqn:Ho, (authorized_terms o') as [p'|] eqn:Ho'.
  - destruct o as [| |n terms], o' as [| |n' terms']; try discriminate.
    destruct (approved_id n terms) as (l & -> & Hl), (approved_id n' terms') as (l' & -> & Hl').
    assert (l' = l) as -> by congruence. intros [= Heq%of_bits_prefix%flatten_inj].
    apply (f_equal (drop 1)) in Heq. cbn [drop] in Heq. do 2 apply cons_code in Heq as [? Heq].
    by apply fields_inj, versioned_inj in Heq as ->; subst.
  - destruct o as [| |n terms]; try discriminate. destruct (approved_id n terms) as (l & -> & _). by rewrite signed_id.
  - destruct o' as [| |n terms]; try discriminate. destruct (approved_id n terms) as (l & -> & _). by rewrite signed_id.
  - rewrite !signed_id by done. intros Heq. apply fields_inj, flatten_inj. by injection Heq.
Qed.

(** ** Orders and histories *)

Abbreviation StX := (State (AccountId := N) (Hash := positive) (Commitment := positive)
  (OtherError := unit) (Ledger := Accounts)).
Abbreviation SignedX := (SignedOrder (AccountId := N) (Hash := positive) (Signature := positive * N)).
Abbreviation CallX := (OrderCall (AccountId := N) (Hash := positive) (Signature := positive * N)).

(** Account 1 buys for 100 TAO, with a fee of ten percent, account 9 as relayer, and
    in parts; account 2 sells 40 alpha and lets a linked order draw on the output; two
    such orders buy for half and for a quarter of it. *)
Definition buy_order : Order (AccountId := N) :=
  mkOrder 1%N 11%N 1 LimitBuy 100 2000000000 1000 100000000 5%N (Some [9%N]) None 945 true.
Definition sell_order : OrderX :=
  V2 (mkOrderV2 2%N 12%N 1 TakeProfit (Fixed 40) 500000000 1000 0 5%N None (Some 100000000) 945 false true).
Definition linked_order : OrderX :=
  V2 (mkOrderV2 2%N 13%N 1 LimitBuy (LinkedPercentage (derive_order_id lib_ex sell_order) 500000000) 2000000000
        1000 0 5%N None None 945 false false).
Definition second_linked : OrderX :=
  V2 (mkOrderV2 2%N 13%N 1 LimitBuy (LinkedPercentage (derive_order_id lib_ex sell_order) 250000000) 2000000000
        1000 0 5%N None None 945 false false).

Definition sign (o : OrderX) (part : option Z) : SignedX :=
  mkSignedOrder o (Sr25519 (of_bits (encode lib_ex o), order_signer o)) part.
Definition approved_part (n : Z) (part : Z) : SignedX :=
  mkSignedOrder (Authorized n (TermsV1 buy_order)) AccountApproved (Some part).

Definition init : StX :=
  mkState ∅ ∅ true ∅ false 10 (mkAccounts {[1%N := 1000; 2%N := 1000]} {[(2%N, 12%N) := 500]}) [] [].

Definition run (origin : Origin (AccountId := N)) (call : CallX) (s : StX) : StX := (dispatch lib_ex origin call s).2.

Lemma run_step origin call s : order_step lib_ex s (run origin call s).
Proof. eapply (step_call _ origin call s (dispatch lib_ex origin call s).1). unfold run. by destruct (dispatch _ _ _ _). Qed.

Definition part_filled : StX := run (Signed 9%N) (call_execute_orders [sign (V1 buy_order) (Some 30)] true) init.
Definition filled_up : StX := run (Signed 9%N) (call_execute_orders [sign (V1 buy_order) (Some 70)] true) part_filled.

Lemma part_filled_history : rtc (order_step lib_ex) init part_filled.
Proof. apply rtc_once. unfold part_filled. apply run_step. Qed.
Lemma filled_up_history : rtc (order_step lib_ex) init filled_up.
Proof. eapply rtc_r; [apply part_filled_history|]. unfold filled_up. apply run_step. Qed.

Lemma fills_accounted_witness :
  let i := derive_order_id lib_ex (V1 buy_order) in
  Orders part_filled !! i = Some (PartiallyFilled 30) /\ taken lib_ex (V1 buy_order) part_filled = 30 /\
  Orders filled_up !! i = Some Fulfilled /\ taken lib_ex (V1 buy_order) filled_up = 100.
Proof.
  assert (O1 : Orders part_filled !! derive_order_id lib_ex (V1 buy_order) = Some (PartiallyFilled 30)) by (vm_compute; reflexivity).
  assert (O2 : Orders filled_up !! derive_order_id lib_ex (V1 buy_order) = Some Fulfilled) by (vm_compute; reflexivity).
  assert (N0 : Orders init !! derive_order_id lib_ex (V1 buy_order) = None) by (vm_compute; reflexivity).
  assert (F0 : taken lib_ex (V1 buy_order) init = 0) by (vm_compute; reflexivity).
  assert (R : 0 <= 100 <= u64_max) by (unfold u64_max; lia).
  assert (F : 0 <= o_fee_rate buy_order <= 1000000000) by (cbn; lia).
  pose proof (fills_accounted lib_ex (V1 buy_order) 100 init part_filled eq_refl eq_refl R F (ids_differ _) N0 F0 part_filled_history) as [_ H1].
  pose proof (fills_accounted lib_ex (V1 buy_order) 100 init filled_up eq_refl eq_refl R F (ids_differ _) N0 F0 filled_up_history) as [_ H2].
  rewrite O1 in H1. rewrite O2 in H2. destruct H1 as [H1 _]. cbv zeta. rewrite O1, O2, H1, H2. repeat split; reflexivity.
Defined.

(** The owner cancels; the relayer tries all the same. *)
Definition cancelled : StX := run (Signed 1%N) (call_cancel_order (V1 buy_order)) init.
Definition tried : StX := run (Signed 9%N) (call_execute_orders [sign (V1 buy_order) None] false) cancelled.

(** The owner approves the order under nonce 7 and the relayer fills a part of it. *)
Definition approved_once : StX := run (Signed 1%N) (call_authorize_order (Authorized 7 (TermsV1 buy_order))) init.
Definition approved_filled : StX := run (Signed 9%N) (call_execute_orders [approved_part 7 30] true) approved_once.

Lemma approved_history : rtc (order_step lib_ex) init approved_filled.
Proof.
  eapply rtc_l; [|eapply rtc_once]; [|unfold approved_filled; apply run_step]. unfold approved_once. apply run_step.
Qed.

Lemma alive : Reaped 1%N ∉ trace approved_filled.
Proof.
  assert (Ht : Forall (fun tr => match tr with Reaped _ => False | _ => True end) (trace approved_filled)).
  { vm_compute. repeat constructor. }
  intros Hin. rewrite list.Forall_forall in Ht. exact (Ht _ Hin).
Qed.

Lemma approved_fills_bounded_witness :
  taken lib_ex (Authorized 7 (TermsV1 buy_order)) approved_filled = 30 /\
  0 <= taken lib_ex (Authorized 7 (TermsV1 buy_order)) approved_filled <= 100.
Proof.
  assert (N0 : ApprovedOrders init !! 1%N = None) by (vm_compute; reflexivity).
  assert (F0 : taken lib_ex (Authorized 7 (TermsV1 buy_order)) init = 0) by (vm_compute; reflexivity).
  assert (R : 0 <= 100 <= u64_max) by (unfold u64_max; lia).
  assert (F : 0 <= o_fee_rate buy_order <= 1000000000) by (cbn; lia).
  split; [vm_compute; reflexivity|].
  exact (approved_fills_bounded lib_ex 7 (TermsV1 buy_order) 100 init approved_filled (trace approved_filled) eq_refl R F
    (ids_differ _) N0 F0 approved_history eq_refl alive).
Defined.

(** The relayer fills the whole of it, the owner approves another order, and the
    relayer tries the first one again. *)
Definition approved_done : StX := run (Signed 9%N) (call_execute_orders [approved_part 7 100] true) approved_once.
Definition approved_other : StX := run (Signed 1%N) (call_authorize_order (Authorized 8 (TermsV1 buy_order))) approved_done.
Definition approved_tried : StX := run (Signed 9%N) (call_execute_orders [approved_part 7 100] false) approved_other.

Lemma approved_tried_history : rtc (order_step lib_ex) approved_done approved_tried.
Proof.
  eapply rtc_l; [|eapply rtc_once]; [|unfold approved_tried; apply run_step]. unfold approved_other. apply run_step.
Qed.

Lemma init_bounded : approvals_bounded init.
Proof. intros w. unfold approvals_of, nonces_below. split; [vm_compute; lia|]. by intros m a Hm. Qed.

Lemma approved_done_nonces : nonces_below 1%N approved_done.
Proof.
  assert (S : rtc (order_step lib_ex) init approved_done).
  { eapply rtc_l; [|eapply rtc_once]; [|unfold approved_done; apply run_step]. unfold approved_once. apply run_step. }
  destruct (order_steps_inv lib_ex _ (bounded_invariant lib_ex init) _ _ S) as [B _]; [|apply B].
  split; [apply init_bounded|]. intros w. right. intros h Hh. exists h. split; [exact Hh|apply Z.le_refl].
Qed.


Lemma approvals_stay_bounded_witness :
  highest_nonce (approvals_of approved_once 1%N) = Some 7 /\
  below 7 (highest_nonce (approvals_of approved_filled 1%N)) /\ approvals_bounded approved_filled.
Proof.
  assert (S1 : rtc (order_step lib_ex) init approved_once) by (apply rtc_once; unfold approved_once; apply run_step).
  assert (S2 : rtc (order_step lib_ex) approved_once approved_filled) by (apply rtc_once; unfold approved_filled; apply run_step).
  assert (N7 : highest_nonce (approvals_of approved_once 1%N) = Some 7) by (vm_compute; reflexivity).
  pose proof (approvals_stay_bounded lib_ex _ _ init_bounded S1) as [B1 _].
  pose proof (approvals_stay_bounded lib_ex _ _ B1 S2) as [B2 H2].
  exact (conj N7 (conj (H2 1%N alive 7 N7) B2)).
Defined.

Lemma executed_orders_authorised_witness :
  exists new, trace part_filled = trace init ++ new /\
    Bought (Some (derive_order_id lib_ex (V1 buy_order))) 1%N 11%N 1 27 27 ∈ new /\
    MovedTao (Some (derive_order_id lib_ex (V1 buy_order))) 1%N 5%N 3 ∈ new /\
    forall tr, tr ∈ new -> is_reap tr = true \/ (LimitOrdersEnabled init = true /\
      (for_batch tr \/ rightful lib_ex (Signed 9%N) (call_execute_orders [sign (V1 buy_order) (Some 30)] true) init tr)).
Proof.
  assert (D : dispatch lib_ex (Signed 9%N) (call_execute_orders [sign (V1 buy_order) (Some 30)] true) init = (Ok tt, part_filled))
    by (unfold part_filled, run; apply ok_run; vm_compute; reflexivity).
  pose proof (executed_orders_authorised lib_ex _ _ _ _ D) as (new & E & H). exists new. split; [exact E|].
  change (trace init ++ new) with new in E. rewrite <- E. refine (conj _ (conj _ _)); [vm_compute; repeat constructor..|].
  rewrite E. exact H.
Defined.

(** The sell leaves an output, one linked order draws on it, and the other one tries. *)
Definition sold : StX := run (Signed 8%N) (call_execute_orders [sign sell_order None] true) init.
Definition drawn : StX := run (Signed 8%N) (call_execute_orders [sign linked_order None] true) sold.
Definition drawn_twice : StX := run (Signed 8%N) (call_execute_orders [sign second_linked None] false) drawn.


Lemma partial_fill_blocks_cancel_witness :
  dispatch lib_ex (Signed 1%N) (call_cancel_order (V1 buy_order)) part_filled
    = (Err (ModuleError OrderAlreadyProcessed), part_filled) /\
  exists (a : OrderApproval (Hash := positive) (Commitment := positive)) t, ap_status a = Some (PartiallyFilled 30) /\
    dispatch lib_ex (Signed 1%N) (call_cancel_order (Authorized 7 (TermsV1 buy_order))) approved_filled = (Ok tt, t) /\
    order_status t 1%N (Some 7) (ap_id a) = Some Cancelled.
Proof.
  assert (A : authorised lib_ex part_filled (sign (V1 buy_order) (Some 70))).
  { refine (conj eq_refl (conj _ _)); [vm_compute; reflexivity|]. exists (encode lib_ex (V1 buy_order)).
    split; [vm_compute; reflexivity|left; reflexivity]. }
  assert (O : Orders part_filled !! derive_order_id lib_ex (V1 buy_order) = Some (PartiallyFilled 30)) by (vm_compute; reflexivity).
  assert (P : price_condition lib_ex (view (V1 buy_order)) (current_alpha_price (ledger part_filled) 1) = true) by (vm_compute; reflexivity).
  assert (E : now part_filled <= 1000) by (vm_compute; discriminate).
  pose proof (partial_fill_blocks_cancel lib_ex (V1 buy_order) (sign (V1 buy_order) (Some 70)) 9%N 30 100 part_filled
    eq_refl eq_refl O eq_refl ltac:(lia) eq_refl eq_refl (ex_intro _ _ eq_refl) eq_refl A ltac:(discriminate) eq_refl E eq_refl P)
    as (H1 & _ & H3).
  assert (exists a, approved_order approved_filled 1%N 7 = Some a /\ ap_id a = derive_order_id lib_ex (Authorized 7 (TermsV1 buy_order)) /\
    ap_status a = Some (PartiallyFilled 30)) as (a & Ha & Hi & Hs) by (vm_compute; eauto).
  destruct (H3 7 (TermsV1 buy_order) a approved_filled Ha Hi Hs) as (t & Ht & Hc).
  exact (conj H1 (ex_intro _ a (ex_intro _ t (conj Hs (conj Ht Hc))))).
Defined.

(** Both in one batch. *)
Definition both_orders : list SignedX := [sign (V1 buy_order) None; sign sell_order None].
Definition batched : StX := run (Signed 9%N) (call_execute_batched_orders 1 both_orders) init.

Lemma batch_runs : dispatch lib_ex (Signed 9%N) (call_execute_batched_orders 1 both_orders) init = (Ok tt, batched).
Proof. unfold batched, run. apply ok_run. vm_compute. reflexivity. Qed.

Lemma batch_in_range so : so ∈ both_orders -> in_range so /\ order_signer (order so) <> pallet_account.
Proof.
  unfold both_orders. intros [->|[->|[]%elem_of_nil]%elem_of_cons]%elem_of_cons; unfold in_range, is_u64; simpl;
    (split; [repeat split; unfold u64_max; lia|discriminate]).
Qed.

Lemma init_in_range : outputs_in_range init.
Proof. intros p r Hp. discriminate Hp. Qed.

Lemma batch_self_financing_witness :
  exists new, trace batched = trace init ++ new /\ total (alpha_in 100%N 101%N 1) new = 40 /\
    0 <= total (tao_flow 100%N) new /\ 0 <= total (alpha_flow 100%N 101%N 1) new.
Proof.
  pose proof (batch_self_financing lib_ex _ _ _ _ _ batch_runs batch_in_range init_in_range) as (new & E & H).
  exists new. split; [exact E|]. assert (T : total (alpha_in 100%N 101%N 1) new = 40).
  { change (trace init ++ new) with new in E. rewrite <- E. vm_compute. reflexivity. }
  split; [exact T|]. apply H; cbn [pallet_account PalletHotkey config_ex]; rewrite T; vm_compute; discriminate.
Defined.

Lemma batch_pays_everyone_witness :
  exists out new evs, 0 < out /\ within_limit lib_ex (view (V1 buy_order)) 100 out /\ trace batched = trace init ++ new /\
    total (owner_pays lib_ex (V1 buy_order)) new = 100 /\ total (output_of lib_ex (V1 buy_order)) new = out /\
    events batched = events init ++ evs /\ OrderExecuted (derive_order_id lib_ex (V1 buy_order)) 1%N 1 LimitBuy 100 out ∈ evs.
Proof.
  assert (L : (length both_orders <= LimitOrdersMaxOrdersPerBatch)%nat) by (apply leb_complete; vm_compute; reflexivity).
  pose proof (batch_pays_everyone lib_ex _ _ _ _ _ batch_runs L (fun so Hso => proj1 (batch_in_range so Hso)) init_in_range
    (sign (V1 buy_order) None) (list_elem_of_here _ _)) as (full & provider & out & new & evs & [Hf _] & H).
  cbn in Hf. rewrite Hf in H. exact (ex_intro _ out (ex_intro _ new (ex_intro _ evs H))).
Defined.

(** ** Hashes of 32 bytes *)

(** A hash adds the bytes up, modulo 256, and repeats the sum. *)
Definition lib_readable : Libraries (AccountId := N) (Hash := ascii) (Signature := unit) (Commitment := unit) := {|
  mul_floor p x := p * x / 1000000000;
  fixed_mul a b := Z.min u128_max (a * b / 2 ^ 64);
  fixed_div a b := Some (a * 2 ^ 64 / b);
  encode _ := [];
  encode_terms _ _ _ _ := [];
  blake2_256 l := ascii_of_N (foldr (fun b acc => Byte.to_N b + acc)%N 0%N l);
  as_bytes c := replicate 32 (byte_of_ascii c);
  shake256 _ := ();
  multi_verify _ _ _ := true;
  to_ss58check := address;
|}.

#[local] Instance address_laws : AddressLaws lib_readable.
Proof.
  split.
  - intros a b Heq. cbn in Heq. unfold address in Heq. by apply (inj (String.append _)), (inj pretty) in Heq.
  - intros who. cbn [to_ss58check lib_readable]. unfold address. rewrite all_chars_app. apply andb_true_intro. split; [done|].
    assert (Hn := number_alnum (Z.of_N who)). unfold render_number in Hn. by rewrite N2Z.id in Hn.
  - intros who. cbn [to_ss58check lib_readable]. unfold address. rewrite length_text. simpl. lia.
  - intros a b Heq. injection Heq as Heq. apply (f_equal ascii_of_byte) in Heq. by rewrite !ascii_of_byte_of_ascii in Heq.
  - done.
Qed.

Definition shown (relayers : option (list N)) : VersionedOrder (AccountId := N) (Hash := ascii) :=
  V1 (mkOrder 1%N 11%N 1 LimitBuy 100 2000000000 1000 10000000 5%N relayers None 945 true).

Lemma shown_unsigned relayers : unsigned (view (shown relayers)).
Proof. split; simpl; try done; lia. Qed.

(** Any relayer, no relayer and one relayer are told apart. *)
Lemma readable_message_binds_order_witness :
  render_order lib_readable (shown None) <> render_order lib_readable (shown (Some [])) /\
  readable_bytes lib_readable (shown None) <> readable_bytes lib_readable (shown (Some [])) /\
  forall i, readable_bytes lib_readable (shown (Some [9%N])) <> bytes_envelope (as_bytes lib_readable i).
Proof.
  pose proof (readable_message_binds_order lib_readable _ _ (shown_unsigned None) (shown_unsigned (Some []))) as (H1 & H2 & _).
  pose proof (readable_message_binds_order lib_readable _ _ (shown_unsigned (Some [9%N])) (shown_unsigned None)) as (_ & _ & H3).
  refine (conj _ (conj _ H3)).
  - intros Heq. destruct (H1 Heq) as [Hv _]. discriminate Hv.
  - intros Heq. destruct (H2 Heq) as [[Hv _]|(_ & _ & _ & Hh)]; [discriminate Hv|]. vm_compute in Hh. discriminate Hh.
Defined.
